(* ===== verification/_CoqProject ===== *)
-Q . S2P
Prelude.v
Interfaces.v
Random.v
Arena.v
SkipList.v
SkipListSpec.v
SkipListConc.v
FiberMutex.v
SharedMutex.v
RunQueue.v
SchedulingGroup.v
Descriptor.v
HashKv.v
Zset.v
Managers.v
Regex.v
ParamParse.v
FlareString.v
ByteSet.v
Uri.v
Rfc3986.v
Encoding.v
RateLimiter.v
FlareHashMap.v
SinglyLinkedList.v
Buffer.v
WritingBufferList.v
HttpHeaders.v
HttpTypes.v
QueryString.v
HttpIo.v
HttpIoProofs.v
HttpService.v
Handlers.v
RpcServer.v
ConnHandler.v
StreamConnection.v
StreamWriter.v
CacheServer.v
