(* ===== verification/Prelude.v ===== *)
(** * zhi-cache: a verification development

    zhi-cache is a key-value cache with an HTTP interface (src/cache) on top of the
    flare framework (src/flare).  This library models the code a request runs
    through, from the bytes on a socket to the data structures of the cache and
    back, and proves that the parts do what they promise to each other.

    ** The program

    - src/cache/server.cc starts the program: it creates the managers, registers
      nine HTTP handlers, starts the server, and a fiber that loads the database.
    - src/cache/handler reads the parameters of a request (src/cache/utils) and
      calls the managers (src/cache/manager): values are kept in a partitioned
      hash map, sorted sets in a hash map and a skip list each, and values are
      persisted by fibers that run later.
    - src/flare/rpc accepts connections, cuts HTTP messages off the received bytes,
      runs each request in a fiber of its own and writes the response.
    - src/flare/io watches the sockets: an event loop, descriptors with their
      callbacks, connections with their read buffer and their list of buffers to
      be written, and the limits on the rate of both.
    - src/flare/fiber has the workers that run the fibers, the queue they take them
      from, and the locks of the fibers.
    - src/flare/base and src/flare/net/http have strings, sets of bytes, URIs,
      encodings, buffers, containers, header fields, query strings and messages.

    ** How the code is modelled

    A function of the code is a function here, with the name it has there.  State
    is passed explicitly, as a record with the members of the class.  Code that can
    go wrong returns an [outcome] (this file): a value, undefined behaviour, a failed
    [FLARE_CHECK] or assertion, an exception, or not enough fuel.  That an operation
    is safe means that its outcome is a value, or, where it allocates from an arena or
    calls a handler, an exception, and is always stated as that, so that neither
    undefined behaviour nor a loop that does not end can hide in it.  Whether the
    assertions of the storage are compiled in is a parameter, [NDEBUG].
    Integers are [Z], wrapped where the code's type wraps ([u8], [u32], [u64]);
    strings and buffers are lists of characters; memory that is shared through
    pointers is a finite map from addresses.

    Code that threads run side by side is a step function on a shared state: an
    event is one access of one thread to shared memory, [None] means that it has
    to wait, and the theorems hold for the states that are [reachable] by any
    interleaving.  Memory is sequentially consistent.

    ** The files

    Foundations: [Prelude] (outcomes, machine integers, lemmas on lists and maps,
    runs of a step function), [Interfaces] (classes that state what a component
    promises: allocation, ordered sets, JSON, LevelDB).

    The storage of the cache: [Random] and [Arena] (cache/utils), [SkipList],
    [SkipListSpec] and [SkipListConc] (skip_list.h: representation, what every
    operation does, and readers that run along with a writer), [HashKv]
    (concurrent_hash_map.h), [Zset] (zset.h), [Managers] (cache/manager).

    Requests: [Regex] and [ParamParse] (cache/utils/param_parse.cc), [Handlers]
    (cache/handler), [CacheServer] (server.cc: the whole program).

    flare/base and flare/net: [FlareString], [ByteSet] (experimental/byte_set.h),
    [Uri] (net/uri.cc) and [Rfc3986] (the grammar it is for), [Encoding] (hexadecimal and percent), [FlareHashMap],
    [SinglyLinkedList], [Buffer], [HttpHeaders], [HttpTypes], [QueryString].

    flare/rpc: [HttpIo] and [HttpIoProofs] (the HTTP/1.1 protocol), [HttpService]
    (routing, filters, completion of responses), [RpcServer] (life cycle and
    bookkeeping), [ConnHandler] (one connection).

    flare/io: [Descriptor] (descriptors and the event loop), [WritingBufferList],
    [StreamConnection] (reading) and [StreamWriter] (writing and the handshake),
    [RateLimiter] (util/rate_limiter.cc).

    flare/fiber: [FiberMutex], [SharedMutex], [RunQueue], [SchedulingGroup] (the
    workers of detail/scheduling_group.cc and detail/fiber_worker.cc).

    ** What the theorems show

    - The whole program: every sequence of requests and fibers is answered as
      cache/openapi.yaml describes, by a model that has a value and a sorted set for
      each key ([Handlers.api_state], [CacheServer.cache_refines]), no request makes it
      fail ([any_request_is_safe]), and what survives a restart
      ([restart_keeps_values]).  These rest on [Handlers.handler_refines], which rests
      on the refinement theorems of the managers, the sorted sets, the hash map and the
      skip list.  The handlers and the fibers of the cache run one after the other here
      ([Handlers.query_race] shows what two at once can do); an entry is persisted when
      the database is open, which the code does not see to; and no pair of score and
      member, and with assertions no score, is added to a sorted set twice: the skip
      list gets a second node, which a range lists again, or an assertion fails.
    - From the socket to the handler and back: [StreamConnection.requests_delivered]
      and [ConnHandler.connection_stream] (no request is lost, torn or reordered,
      however the bytes arrive), [ConnHandler.run_fiber_answers],
      [HttpService.FastCall_answers], the round trips of [HttpIoProofs], and
      [WritingBufferList_fifo] with [StreamWriter.Connection_no_stall] (what is
      written goes out, in order, and is never left behind).
    - Code that threads share: for each such component a safety theorem (no check
      fails, exclusion, linearizability) and for most a progress theorem (nobody sleeps
      while there is work, no event is lost, loops end), for callers that keep to the
      contract that the component's [legal] states: [FiberMutex], [SharedMutex], [RunQueue],
      [SchedulingGroup], [Descriptor], [WritingBufferList], [StreamWriter],
      [SkipListConc], [RpcServer].
    - Data structures: each refines a mathematical object (a list, a finite map, a
      sorted sequence, a string, a set of bytes).
    - Texts: the parser of URIs accepts only URI references of RFC 3986, and all of
      them but those of some listed forms ([Rfc3986.Uri_rfc3986]), and what is encoded into the query and the body of a
      request is decoded again ([QueryString.QueryString_of_request]).
    - Limits: connections use no more than the bandwidth of their limiters
      ([RateLimiter.Bandwidth_bounded]) and read no more than their quota
      ([StreamConnection.OnReadable_contract]).

    Where a promise fails, or holds only under a condition that the code does not
    check, there is a concrete run that shows it (for instance [Del_dangles],
    [two_writers_lose_a_key], [handshake_ends_in_OnWritable], [called_after_leaving],
    [capacity_one_overwrites], [content_length_overflow], [StartFibers_wakes_nobody],
    [path_of_query_only], [plus_in_values]).

    ** Fuel

    A loop whose end is not evident from its argument runs on fuel.  The fuel is
    computed from the input where the definition is used (the number of nodes plus
    the height of a skip list, the number of bytes in a buffer, the number of buffers
    in a list), and the theorems show that it is enough: they say that the outcome is
    a value.  Where the fuel is an argument of a theorem, the theorem says how much
    is enough.

    ** Not modelled

    - Third-party code: xpack (JSON), LevelDB and the compression libraries are
      classes with the operations the sources call and the documented laws the
      proofs need, each with an instance that satisfies them.  Code that only passes
      its arguments on to OpenSSL (base64, digests, TLS) or protobuf is left out.
      [std::regex] and the containers of the standard library are modelled as far as
      the sources use them.
    - The switching of contexts (assembly), stacks, timers: the models allow any
      order.  Weak memory: the models are sequentially consistent.
    - System calls: what [epoll_wait], [readv], [writev] and timers give is an input,
      restricted only by what their manuals promise.
    - Tracing, the binary log, metrics, logging and flags, which do not affect what
      is answered; the protocols and clients that the cache does not use, as far as
      they are not listed above; code generators and generated code.
    - cache/storage/memory/atomic_hash_table.h, which nothing includes. *)

From stdpp Require Export base list list_numbers gmap strings fin_maps sorting.
From Stdlib Require Export ZArith Lia.

#[global] Open Scope Z_scope.
Set Default Goal Selector "!".

(** ** Outcomes of C++ code

    [Ret a] is a normal return; [Undef] is undefined behaviour (a null or
    dangling dereference, an out-of-range index, a read of uninitialised
    memory, a division by zero); [Abort] is a failed [assert] or [FLARE_CHECK];
    [Throw] is a C++ exception ([std::bad_alloc], a JSON parse error); [Fuel] is
    a loop that was cut off, which the theorems show not to happen. *)
Inductive outcome (A : Type) : Type :=
| Ret (a : A)
| Undef
| Abort
| Throw
| Fuel.
Arguments Ret {A} a.
Arguments Undef {A}.
Arguments Abort {A}.
Arguments Throw {A}.
Arguments Fuel {A}.

Definition obind {A B} (m : outcome A) (f : A → outcome B) : outcome B :=
  match m with
  | Ret a => f a
  | Undef => Undef
  | Abort => Abort
  | Throw => Throw
  | Fuel => Fuel
  end.

Declare Scope outcome_scope.
Delimit Scope outcome_scope with O.
Notation "x ←! m ; k" := (obind m (λ x, k))
  (at level 20, m at level 100, k at level 200, right associativity,
   format "x  ←!  m ;  '/' k") : outcome_scope.
Notation "' p ←! m ; k" := (obind m (λ x, match x with p => k end))
  (at level 20, p pattern, m at level 100, k at level 200, right associativity,
   format "' p  ←!  m ;  '/' k") : outcome_scope.
#[global] Open Scope outcome_scope.

(** [deref o] is the use of a pointer or index that must be valid. *)
Definition deref {A} (o : option A) : outcome A :=
  match o with Some a => Ret a | None => Undef end.

Lemma obind_Ret_inv {A B} (m : outcome A) (f : A → outcome B) b :
  obind m f = Ret b → ∃ a, m = Ret a ∧ f a = Ret b.
Proof. destruct m; naive_solver. Qed.

(** [safe m Q]: [m] has no undefined behaviour, no failed assertion and enough
    fuel, and when it does not throw its result satisfies [Q]. *)
Definition safe {A} (m : outcome A) (Q : A → Prop) : Prop :=
  match m with
  | Ret a => Q a
  | Throw => True
  | Undef | Abort | Fuel => False
  end.

Lemma safe_bind {A B} (m : outcome A) (f : A → outcome B) (Q : B → Prop) :
  safe m (λ a, safe (f a) Q) → safe (obind m f) Q.
Proof. by destruct m. Qed.

Lemma safe_mono {A} (m : outcome A) (P Q : A → Prop) :
  safe m P → (∀ a, P a → Q a) → safe m Q.
Proof. destruct m; simpl; auto. Qed.

Lemma safe_Ret {A} (m : outcome A) (Q : A → Prop) a : safe m Q → m = Ret a → Q a.
Proof. by intros ? ->. Qed.

(** ** Machine integers *)

Definition u8 (z : Z) : Z := z mod 2 ^ 8.
Definition u32 (z : Z) : Z := z mod 2 ^ 32.
Definition u64 (z : Z) : Z := z mod 2 ^ 64.
Definition i32 (z : Z) : Z := (z + 2 ^ 31) mod 2 ^ 32 - 2 ^ 31.

#[global] Arguments u8 : simpl never.
#[global] Arguments u32 : simpl never.
#[global] Arguments u64 : simpl never.
#[global] Arguments i32 : simpl never.

Lemma u32_small z : 0 ≤ z < 2 ^ 32 → u32 z = z.
Proof. apply Z.mod_small. Qed.

Lemma u64_small z : 0 ≤ z < 2 ^ 64 → u64 z = z.
Proof. apply Z.mod_small. Qed.

Lemma i32_small z : - 2 ^ 31 ≤ z < 2 ^ 31 → i32 z = z.
Proof. intros. unfold i32. rewrite Z.mod_small; lia. Qed.

Lemma u32_range z : 0 ≤ u32 z < 2 ^ 32.
Proof. apply Z.mod_pos_bound; lia. Qed.

Lemma u64_range z : 0 ≤ u64 z < 2 ^ 64.
Proof. apply Z.mod_pos_bound; lia. Qed.

Create HintDb machine.
#[export] Hint Rewrite u32_small u64_small i32_small using lia : machine.

Ltac machine := autorewrite with machine; try lia.

(** ** Lists *)

(** In a list without duplicates an element has one place. *)
Lemma NoDup_mid_inj {A} (x : A) p s p' s' :
  NoDup (p ++ x :: s) → p ++ x :: s = p' ++ x :: s' → p = p' ∧ s = s'.
Proof.
  revert p'. induction p as [|y p IH]; intros [|y' p'] Hnd Heq; simpl in *;
    apply NoDup_cons in Hnd as [Hx Hnd]; simplify_eq.
  - done.
  - destruct Hx. apply elem_of_app. right. by left.
  - destruct Hx. apply elem_of_app. right. by left.
  - destruct (IH p') as [-> ->]; auto.
Qed.

Lemma elem_of_concat {A} (x : A) (ls : list (list A)) : x ∈ concat ls ↔ ∃ l, x ∈ l ∧ l ∈ ls.
Proof.
  induction ls as [|l ls IH]; simpl; [|rewrite elem_of_app, IH]; set_solver.
Qed.

Section filters.
Context {A : Type} (P Q : A → Prop) `{!∀ x, Decision (P x), !∀ x, Decision (Q x)}.

Lemma filter_none l : Forall (λ x, ¬ P x) l → filter P l = [].
Proof.
  induction 1 as [|x l Hx _ IH]; [done|]. by rewrite filter_cons_False.
Qed.

Lemma filter_all l : Forall P l → filter P l = l.
Proof.
  induction 1 as [|x l Hx _ IH]; [done|]. by rewrite filter_cons_True, IH.
Qed.

Lemma filter_ext_Forall l : Forall (λ x, P x ↔ Q x) l → filter P l = filter Q l.
Proof.
  induction 1 as [|x l Hx _ IH]; [done|]. rewrite !filter_cons, IH.
  destruct (decide (P x)), (decide (Q x)); tauto || done.
Qed.

Lemma StronglySorted_filter (R : A → A → Prop) l :
  StronglySorted R l → StronglySorted R (filter P l).
Proof.
  induction 1 as [|x l Hs IH Hx]; [constructor|]. rewrite filter_cons.
  destruct (decide (P x)); [|done]. constructor; [done|].
  rewrite Forall_forall in *. intros y [_ Hy]%list_elem_of_filter. auto.
Qed.
End filters.

(** ** Counting fibers

    The fibers of a concurrent model are numbered, and each has a state. *)

Definition cnt {A} (P : A → Prop) `{∀ a, Decision (P a)} (m : gmap nat A) : nat := size (filter (λ e, P e.2) m).

Definition b2n (P : Prop) `{Decision P} : nat := if decide P then 1 else 0.

Section cnt.
Context {A : Type} (P : A → Prop) `{∀ a, Decision (P a)}.
Implicit Types (m : gmap nat A) (a b : A) (i : nat).

Lemma cnt_delete m i a : m !! i = Some a → cnt P m = (b2n (P a) + cnt P (delete i m))%nat.
Proof.
  intros Hi. unfold cnt, b2n. rewrite <-(insert_delete_id m i a Hi) at 1. destruct (decide (P a)) as [Ha|Ha].
  - rewrite map_filter_insert_True by done. rewrite map_size_insert_None; [done|].
    apply map_lookup_filter_None. left. apply lookup_delete_eq.
  - rewrite map_filter_insert_False by done. by rewrite delete_delete_eq.
Qed.

Lemma cnt_new m i a : m !! i = None → cnt P (<[i := a]> m) = (b2n (P a) + cnt P m)%nat.
Proof.
  intros Hi. rewrite (cnt_delete _ i a) by apply lookup_insert_eq. by rewrite delete_insert_id.
Qed.

(** A fiber changes its state. *)
Lemma cnt_insert m i a b : m !! i = Some a → (cnt P (<[i := b]> m) + b2n (P a) = cnt P m + b2n (P b))%nat.
Proof.
  intros Hi. rewrite (cnt_delete m i a Hi), (cnt_delete (<[i := b]> m) i b), delete_insert_eq by apply lookup_insert_eq. lia.
Qed.

Lemma cnt_pos m i a : m !! i = Some a → P a → (0 < cnt P m)%nat.
Proof. intros Hi Ha. rewrite (cnt_delete m i a Hi). unfold b2n. rewrite decide_True by done. lia. Qed.

Lemma cnt_exists m : (0 < cnt P m)%nat → ∃ i a, m !! i = Some a ∧ P a.
Proof.
  unfold cnt. intros Hpos. destruct (map_choose (filter (λ e, P e.2) m)) as (i & a & Hi).
  { intros He. rewrite He, map_size_empty in Hpos. lia. }
  apply map_lookup_filter_Some in Hi. eauto.
Qed.

(** Two fibers in the same kind of state. *)
Lemma cnt_two m i j a b : m !! i = Some a → m !! j = Some b → P a → P b → i ≠ j → (2 ≤ cnt P m)%nat.
Proof.
  intros Hi Hj Ha Hb Hne. rewrite (cnt_delete m i a Hi). unfold b2n. rewrite decide_True by done.
  pose proof (cnt_pos (delete i m) j b) as Hp. rewrite lookup_delete_ne in Hp by done. specialize (Hp Hj Hb). lia.
Qed.

Lemma cnt_size m : (cnt P m ≤ size m)%nat.
Proof. apply map_subseteq_size, map_filter_subseteq. Qed.
End cnt.

Lemma cnt_disjoint {A} (P Q : A → Prop) `{∀ a, Decision (P a), ∀ a, Decision (Q a)} (m : gmap nat A) :
  (∀ a, P a → ¬ Q a) → (cnt P m + cnt Q m ≤ size m)%nat.
Proof.
  intros Hpq. unfold cnt. rewrite <-map_size_disj_union.
  - apply map_subseteq_size, map_union_least; apply map_filter_subseteq.
  - apply map_disjoint_spec. intros i x y Hx Hy. apply map_lookup_filter_Some in Hx as [? Hx], Hy as [? Hy].
    simplify_eq. naive_solver.
Qed.

(** The sum of a measure over the fibers. *)
Definition total {A} (f : A → nat) (m : gmap nat A) : nat := map_fold (λ _ a acc, (f a + acc)%nat) 0%nat m.

Section total.
Context {A : Type} (f : A → nat).
Implicit Types (m : gmap nat A) (i : nat) (a b : A).

Lemma total_new m i b : m !! i = None → total f (<[i := b]> m) = (f b + total f m)%nat.
Proof. intros Hm. unfold total. rewrite map_fold_insert_L; [done|intros; lia|done]. Qed.

Lemma total_delete m i a : m !! i = Some a → total f m = (f a + total f (delete i m))%nat.
Proof. intros Hi. by rewrite <-(total_new (delete i m) i a), insert_delete_id by (done || apply lookup_delete_eq). Qed.

Lemma total_insert m i a b : m !! i = Some a → (total f (<[i := b]> m) + f a = total f m + f b)%nat.
Proof. intros Hi. rewrite (total_delete m i a Hi), (total_delete (<[i := b]> m) i b), delete_insert_eq by apply lookup_insert_eq. lia. Qed.

Lemma total_pos m : (0 < total f m)%nat → ∃ i a, m !! i = Some a ∧ (0 < f a)%nat.
Proof.
  induction m as [|i a m Hi IH] using map_ind; [unfold total; rewrite map_fold_empty; lia|]. rewrite total_new by done. intros Hpos.
  destruct (decide (0 < f a)%nat); [exists i, a; by rewrite lookup_insert_eq|].
  destruct IH as (j & b & Hj & Hb); [lia|]. exists j, b. rewrite lookup_insert_ne; [done|]. congruence.
Qed.
End total.

Lemma lookup_goto {A} (P : gmap nat A) i (q : A) j x :
  <[i := q]> P !! j = Some x ↔ j = i ∧ x = q ∨ j ≠ i ∧ P !! j = Some x.
Proof. rewrite lookup_insert_Some. naive_solver. Qed.

(** A lock is the fiber that holds it: the one whose state is in [Q]. *)
Definition owner_ok {A} (Q : A → Prop) (o : option nat) (P : gmap nat A) : Prop :=
  ∀ j, o = Some j ↔ ∃ p, P !! j = Some p ∧ Q p.

Section owner.
Context {A : Type} (Q : A → Prop) (P : gmap nat A).
Implicit Types (i j : nat) (p q : A).

Lemma owner_same o i p q : owner_ok Q o P → P !! i = Some p → (Q p ↔ Q q) → owner_ok Q o (<[i := q]> P).
Proof.
  intros Ho Hi Hpq j. rewrite (Ho j). setoid_rewrite lookup_goto. destruct (decide (j = i)) as [->|]; naive_solver.
Qed.

Lemma owner_take i q : owner_ok Q None P → Q q → owner_ok Q (Some i) (<[i := q]> P).
Proof. intros Ho Hq j. setoid_rewrite lookup_goto. specialize (Ho j). naive_solver. Qed.

Lemma owner_alone o i j p q : owner_ok Q o P → P !! i = Some p → Q p → P !! j = Some q → Q q → j = i.
Proof.
  intros Ho Hi Hp Hj Hq. assert (o = Some i) by (apply Ho; eauto). assert (o = Some j) by (apply Ho; eauto). congruence.
Qed.

Lemma owner_release o i p q : owner_ok Q o P → P !! i = Some p → Q p → ¬ Q q → owner_ok Q None (<[i := q]> P).
Proof.
  intros Ho Hi Hp Hq j. setoid_rewrite lookup_goto. split; [done|]. intros (x & [[-> ->]|[Hne Hx]] & Hs); [done|].
  exfalso. apply Hne. by eapply owner_alone.
Qed.
End owner.

(** [n] fibers, all in the same state. *)
Definition fibers {A} (n : nat) (p : A) : gmap nat A := gset_to_gmap p (set_seq 0 n).

Lemma fibers_lookup {A} n (p q : A) i : fibers n p !! i = Some q → q = p.
Proof. unfold fibers. by intros [_ ?]%lookup_gset_to_gmap_Some. Qed.

Lemma fibers_size {A} n (p : A) : size (fibers n p) = n.
Proof. unfold fibers. by rewrite <-size_dom, dom_gset_to_gmap, size_set_seq. Qed.

Lemma cnt_none {A} (Q : A → Prop) `{∀ a, Decision (Q a)} (m : gmap nat A) : (∀ i a, m !! i = Some a → ¬ Q a) → cnt Q m = 0%nat.
Proof.
  intros Hq. destruct (cnt Q m) eqn:E; [done|]. destruct (cnt_exists Q m) as (i & a & Hi & Ha); [lia|]. by apply Hq in Hi.
Qed.

Lemma fibers_cnt {A} (Q : A → Prop) `{∀ a, Decision (Q a)} n p : ¬ Q p → cnt Q (fibers n p) = 0%nat.
Proof. intros Hq. apply cnt_none. by intros i a ->%fibers_lookup. Qed.

(** ** Runs *)

(** The events [es] happen in this order, if they can. *)
Definition run_steps {E S} (f : E → S → option S) (es : list E) (s : S) : option S := foldl (λ o e, o ≫= f e) (Some s) es.

Lemma run_steps_ind {E S} (f : E → S → option S) (P : S → Prop) :
  (∀ e s s', P s → f e s = Some s' → P s') → ∀ es s, P s → P (default s (run_steps f es s)).
Proof.
  intros Hf es s Hs. assert (Hrun : ∀ o, (∀ x, o = Some x → P x) → ∀ x, foldl (λ o e, o ≫= f e) o es = Some x → P x).
  { induction es as [|e es IH]; intros o Ho x; cbn; [apply Ho|]. apply IH. intros y. destruct o as [z|]; cbn; [|done].
    apply Hf. by apply Ho. }
  destruct (run_steps f es s) as [s'|] eqn:E'; [|done]. apply (Hrun (Some s)); [by intros ? [= <-]|done].
Qed.

(** The step of a model as a partial function. *)
Definition stepped {E S} (step : E → S → option (outcome S)) (e : E) (s : S) : option S :=
  match step e s with Some (Ret s') => Some s' | _ => None end.

Lemma stepped_Some {E S} (step : E → S → option (outcome S)) e s s' : stepped step e s = Some s' → step e s = Some (Ret s').
Proof. unfold stepped. repeat case_match; congruence. Qed.
