(* ===== verification/Interfaces.v ===== *)
(** * Interfaces between the components

    What one component promises to another, as type classes: a client's
    theorems are proved against the class, and the component that implements it
    provides the instance. *)

From S2P Require Import Prelude.

(** ** Memory for the nodes of a skip list

    A region is a base address and a size in bytes. *)
Definition region : Type := Z * Z.

Definition disjoint_region (r1 r2 : region) : Prop :=
  r1.1 + r1.2 ≤ r2.1 ∨ r2.1 + r2.2 ≤ r1.1.

Definition inside_region (r b : region) : Prop :=
  b.1 ≤ r.1 ∧ r.1 + r.2 ≤ b.1 + b.2.

(** [alloc_inv s R]: the allocator is in state [s] and has handed out the
    regions [R].  An aligned allocation gives a region disjoint from them. *)
Class NodeAllocator (S : Type) := {
  alloc_aligned : bool → Z → S → outcome (Z * S);
  alloc_inv : S → list region → Prop;
  alloc_aligned_spec NDEBUG s R n :
    alloc_inv s R → 0 < n ≤ 2 ^ 64 - 8 →
    safe (alloc_aligned NDEBUG n s) (λ '(p, s'),
      0 < p ∧ Forall (disjoint_region (p, n)) R ∧ alloc_inv s' ((p, n) :: R));
}.

(** ** Ordering of keys

    A three-way comparison, as a C++ function object that returns a negative,
    zero or positive [int]. *)
Class Comparator (Key : Type) := compare_ : Key → Key → Z.

Class ComparatorSpec (Key : Type) `{Comparator Key} : Prop := {
  compare_sym a b : compare_ a b < 0 ↔ 0 < compare_ b a;
  compare_trans a b c : compare_ a b ≤ 0 → compare_ b c ≤ 0 → compare_ a c ≤ 0;
}.

Section order.
Context `{ComparatorSpec Key}.

Lemma compare_refl a : compare_ a a = 0.
Proof. pose proof (compare_sym a a). lia. Qed.

Lemma compare_le_lt a b c : compare_ a b ≤ 0 → compare_ b c < 0 → compare_ a c < 0.
Proof.
  intros Hab Hbc. destruct (decide (compare_ a c < 0)) as [|Hge]; [done|exfalso].
  assert (Hca : compare_ c a ≤ 0) by (pose proof (compare_sym a c); lia).
  pose proof (compare_trans c a b Hca Hab). pose proof (compare_sym b c). lia.
Qed.

Lemma compare_ge_le a b c : ¬ compare_ a c < 0 → compare_ a b ≤ 0 → ¬ compare_ b c < 0.
Proof. intros Ha Hab Hb. apply Ha. by eapply compare_le_lt. Qed.
End order.

(** ** The persistent store: LevelDB

    [D] is what the database holds on disk.  [ldb_open] is [DB::Open] with
    [create_if_missing], [None] for a status that is not ok; [ldb_iterate] the
    entries a new iterator visits from [SeekToFirst]; [ldb_put] and [ldb_write]
    give the status of [DB::Put] and [DB::Write]. *)
Class LevelDB (D : Type) := {
  ldb_contents : D → gmap string string;
  ldb_open : string → D → option D;
  ldb_iterate : D → list (string * string);
  ldb_put : string → string → D → bool * D;
  ldb_write : list (string * string) → D → bool * D;
}.

(** A write batch applies its updates in order. *)
Definition batch_insert (M : gmap string string) (kvs : list (string * string)) : gmap string string :=
  foldl (λ M kv, <[kv.1 := kv.2]> M) M kvs.

Class LevelDBSpec (D : Type) `{LevelDB D} : Prop := {
  ldb_open_spec p d d' : ldb_open p d = Some d' → ldb_contents d' = ldb_contents d;
  ldb_iterate_spec d : ldb_iterate d ≡ₚ map_to_list (ldb_contents d);
  ldb_put_spec k v d d' :
    ldb_put k v d = (true, d') → ldb_contents d' = <[k := v]> (ldb_contents d);
  ldb_write_spec kvs d d' :
    ldb_write kvs d = (true, d') → ldb_contents d' = batch_insert (ldb_contents d) kvs;
}.

(** A store that never fails. *)
#[export] Instance map_LevelDB : LevelDB (gmap string string) := {
  ldb_contents d := d;
  ldb_open _ d := Some d;
  ldb_iterate d := map_to_list d;
  ldb_put k v d := (true, <[k := v]> d);
  ldb_write kvs d := (true, batch_insert d kvs);
}.

#[export] Instance map_LevelDBSpec : LevelDBSpec (gmap string string).
Proof. split; simpl; [by intros ? ? ? [= ->]|done|by intros ? ? ? ? [= <-]|by intros ? ? ? [= <-]]. Qed.
