(* ===== verification/Random.v ===== *)
(** * The pseudo-random generator of cache/utils/random.h

    [Random] is the Lehmer generator [seed := seed * 16807 mod (2^31 - 1)]
    with the division-free reduction the code uses.  The file proves that the
    reduction is the modular product, that the seed never leaves [1, M-1], and
    the claim of the source comment that the seed cycles through every number
    of that interval. *)

From S2P Require Import Prelude.
From Stdlib Require Import Znumtheory Zpow_facts.

Record Random := mkRandom { seed_ : Z }.

Definition rand_M : Z := 2147483647.
Definition rand_A : Z := 16807.

(** [explicit Random(uint32_t s)]. *)
Definition Random_new (s : Z) : Random :=
  let seed := Z.land s 0x7fffffff in
  if (seed =? 0) || (seed =? 2147483647) then mkRandom 1 else mkRandom seed.

(** [uint32_t Next()]: [product] is computed in [uint64_t], [seed_] is a
    [uint32_t]. *)
Definition Next (r : Random) : Z * Random :=
  let product := u64 (seed_ r * rand_A) in
  let seed := u32 (u64 (Z.shiftr product 31 + Z.land product rand_M)) in
  let seed := if rand_M <? seed then u32 (seed - rand_M) else seed in
  (seed, mkRandom seed).

#[global] Arguments Random_new : simpl never.
#[global] Arguments Next : simpl never.

(** [uint32_t % int]: the divisor is converted to [uint32_t]; a zero divisor is
    undefined behaviour. *)
Definition umod (a n : Z) : outcome Z :=
  if u32 n =? 0 then Undef else Ret (a mod u32 n).

Definition Uniform (n : Z) (r : Random) : outcome (Z * Random) :=
  let '(v, r') := Next r in
  v' ←! umod v n; Ret (v', r').

Definition OneIn (n : Z) (r : Random) : outcome (bool * Random) :=
  let '(v, r') := Next r in
  v' ←! umod v n; Ret (v' =? 0, r').

(** [1 << k] on [int]; a shift by the width or more is undefined. *)
Definition shl1 (k : Z) : outcome Z :=
  if (0 <=? k) && (k <? 32) then Ret (i32 (Z.shiftl 1 k)) else Undef.

(** [max_log + 1] is an [int] addition, undefined when it overflows. *)
Definition Skewed (max_log : Z) (r : Random) : outcome (Z * Random) :=
  if 2 ^ 31 <=? max_log + 1 then Undef
  else
    '(b, r1) ←! Uniform (max_log + 1) r;
    n ←! shl1 b;
    Uniform n r1.

(** The seeds the generator works with. *)
Definition seed_ok (r : Random) : Prop := 1 ≤ seed_ r ≤ rand_M - 1.

Fixpoint NextN (n : nat) (r : Random) : Random :=
  match n with
  | O => r
  | S n' => NextN n' (snd (Next r))
  end.

(** ** The order of [A] modulo [M] *)

Section order.
Context (M A : Z).
Context (HM : 1 < M).

Lemma pow_mod_sub a b :
  0 ≤ b ≤ a → A ^ a mod M = 1 → A ^ b mod M = 1 → A ^ (a - b) mod M = 1.
Proof.
  intros Hab Ha Hb.
  replace a with ((a - b) + b) in Ha by lia.
  rewrite Z.pow_add_r, Z.mul_mod, Hb, Z.mul_1_r, Z.mod_mod in Ha by lia.
  done.
Qed.

(** Exponents that give one are closed under gcd. *)
Lemma pow_mod_gcd (s : nat) a b :
  0 ≤ a → 0 ≤ b → a + b ≤ Z.of_nat s →
  A ^ a mod M = 1 → A ^ b mod M = 1 → A ^ (Z.gcd a b) mod M = 1.
Proof.
  revert a b. induction s as [|s IH]; intros a b Ha Hb Hs Pa Pb.
  { assert (a = 0 ∧ b = 0) as [-> ->] by lia. by rewrite Z.pow_0_r, Z.mod_1_l. }
  destruct (decide (a = 0)) as [->|Ha0].
  { by rewrite Z.gcd_0_l, Z.abs_eq. }
  destruct (decide (b = 0)) as [->|Hb0].
  { by rewrite Z.gcd_0_r, Z.abs_eq. }
  destruct (decide (a ≤ b)).
  - rewrite <-(Z.gcd_sub_diag_r a b). apply IH; try lia. by apply pow_mod_sub.
  - rewrite Z.gcd_comm, <-(Z.gcd_sub_diag_r b a). apply IH; try lia.
    apply pow_mod_sub; auto; lia.
Qed.

Lemma pow_mod_divide a b :
  0 ≤ a → (a | b) → 0 ≤ b → A ^ a mod M = 1 → A ^ b mod M = 1.
Proof.
  intros Ha [c ->] Hb Pa.
  destruct (decide (a = 0)) as [->|].
  { by rewrite Z.mul_0_r. }
  rewrite Z.mul_comm, Z.pow_mul_r by nia.
  rewrite Zpower_mod, Pa, Z.pow_1_l by nia. by apply Z.mod_1_l.
Qed.

(** If [n] is a product of the numbers [ps], a divisor of [n] other than one
    shares a factor with one of them. *)
Lemma coprime_prod (d : Z) (ps : list Z) :
  Forall (λ p, Z.gcd d p = 1) ps → Z.gcd d (foldr Z.mul 1 ps) = 1.
Proof.
  induction 1 as [|p ps Hp _ IH]; simpl; [apply Z.gcd_1_r|].
  apply Zgcd_1_rel_prime, rel_prime_mult; by apply Zgcd_1_rel_prime.
Qed.

(** The certificate: [A^n = 1] and [A^(n/e) <> 1] for every [e] in [2..bound]
    that divides [n], where every prime factor of [n] is at most [bound]. *)
Lemma order_certificate (n bound : Z) (ps : list Z) :
  0 < n →
  n = foldr Z.mul 1 ps →
  Forall (λ p, 1 < p ≤ bound) ps →
  A ^ n mod M = 1 →
  (∀ e, 1 < e ≤ bound → (e | n) → A ^ (n / e) mod M ≠ 1) →
  ∀ k, 0 < k < n → A ^ k mod M ≠ 1.
Proof.
  intros Hn Hprod Hps Pn Hcert k Hk Pk.
  set (g := Z.gcd k n).
  assert (0 < g).
  { assert (g ≠ 0) by (unfold g; intros ?%Z.gcd_eq_0_l; lia).
    pose proof (Z.gcd_nonneg k n). lia. }
  assert (Pg : A ^ g mod M = 1).
  { apply (pow_mod_gcd (Z.to_nat (k + n))); auto; lia. }
  assert (g ≤ k) by (apply Z.divide_pos_le; [lia|apply Z.gcd_divide_l]).
  destruct (Z.gcd_divide_r k n) as [d Hd]. fold g in Hd.
  assert (1 < d) by nia.
  destruct (decide (Forall (λ p, Z.gcd d p = 1) ps)) as [Hco|Hco].
  - apply coprime_prod in Hco. rewrite <-Hprod, Hd in Hco.
    assert ((d | 1)) as Hd1.
    { rewrite <-Hco. apply Z.gcd_greatest; [reflexivity|apply Z.divide_factor_l]. }
    apply Z.divide_1_r in Hd1. lia.
  - apply not_Forall_Exists, Exists_exists in Hco; [|apply _].
    destruct Hco as (p & Hin & Hne).
    rewrite Forall_forall in Hps. specialize (Hps p Hin).
    set (e := Z.gcd d p) in *.
    assert (0 < e).
    { assert (e ≠ 0) by (unfold e; intros ?%Z.gcd_eq_0_l; lia).
      pose proof (Z.gcd_nonneg d p). lia. }
    assert (e ≤ p) by (apply Z.divide_pos_le; [lia|apply Z.gcd_divide_r]).
    destruct (Z.gcd_divide_l d p) as [c Hc]. fold e in Hc.
    apply (Hcert e); [simpl in Hne; lia| |].
    + exists (c * g). rewrite Hd, Hc. ring.
    + apply (pow_mod_divide g); [lia| | |done].
      * exists c. symmetry. apply Z.div_unique_exact; [lia|]. rewrite Hd, Hc. ring.
      * apply Z.div_pos; lia.
Qed.

(** Powers below the order are pairwise different. *)
Lemma pow_mod_inj n :
  Z.gcd A M = 1 →
  (∀ k, 0 < k < n → A ^ k mod M ≠ 1) →
  ∀ i j, 0 ≤ i < n → 0 ≤ j < n → A ^ i mod M = A ^ j mod M → i = j.
Proof.
  intros Hco Hord.
  assert (Hlt : ∀ i j, 0 ≤ i < j → j < n → A ^ i mod M ≠ A ^ j mod M).
  { intros i j Hij Hj Heq. apply (Hord (j - i)); [lia|].
    assert ((M | A ^ i * (A ^ (j - i) - 1))) as Hdiv.
    { apply Z.mod_divide; [lia|].
      replace (A ^ i * (A ^ (j - i) - 1)) with (A ^ j - A ^ i).
      - rewrite Zminus_mod, Heq, Z.sub_diag. apply Z.mod_0_l. lia.
      - replace j with (i + (j - i)) at 1 by lia. rewrite Z.pow_add_r by lia. ring. }
    apply Z.gauss in Hdiv.
    - apply Z.mod_divide in Hdiv; [|lia].
      rewrite Zminus_mod, (Z.mod_1_l M), Zminus_mod_idemp_l in Hdiv by lia.
      apply Z.mod_divide in Hdiv; [|lia]. destruct Hdiv as [c Hc].
      replace (A ^ (j - i)) with (1 + c * M) by lia.
      rewrite Z.mod_add, Z.mod_1_l; lia.
    - rewrite Z.gcd_comm. apply Zgcd_1_rel_prime, rel_prime_sym.
      apply rel_prime_Zpower_r; [lia|].
      apply rel_prime_sym. by apply Zgcd_1_rel_prime. }
  intros i j Hi Hj Heq.
  destruct (Z.lt_trichotomy i j) as [?|[?|?]]; [|done|].
  - exfalso. apply (Hlt i j); auto; lia.
  - exfalso. apply (Hlt j i); auto; lia.
Qed.

(** If the order is [M - 1], every non-zero residue is a power. *)
Lemma pow_mod_surj :
  Z.gcd A M = 1 →
  (∀ k, 0 < k < M - 1 → A ^ k mod M ≠ 1) →
  ∀ t, 1 ≤ t < M → ∃ k, 0 ≤ k < M - 1 ∧ A ^ k mod M = t.
Proof.
  intros Hco Hord t Ht.
  set (l := (λ k, A ^ k mod M) <$> seqZ 0 (M - 1)).
  assert (Hincl : incl (seqZ 1 (M - 1)) l).
  { apply NoDup_length_incl.
    - apply NoDup_ListNoDup. unfold l. apply NoDup_fmap_2_strong; [|apply NoDup_seqZ].
      intros i j Hi%elem_of_seqZ Hj%elem_of_seqZ.
      apply (pow_mod_inj (M - 1)); auto; lia.
    - unfold l. by rewrite length_fmap, !length_seqZ.
    - intros x Hx. apply list_elem_of_In in Hx. apply list_elem_of_In.
      unfold l in Hx. apply list_elem_of_fmap in Hx as (k & -> & Hk%elem_of_seqZ).
      apply elem_of_seqZ.
      assert (A ^ k mod M ≠ 0) as Hne.
      { intros H0. apply Z.mod_divide in H0; [|lia].
        assert (rel_prime (A ^ k) M) as Hrp.
        { apply rel_prime_sym, rel_prime_Zpower_r; [lia|].
          by apply rel_prime_sym, Zgcd_1_rel_prime. }
        apply Zgcd_1_rel_prime in Hrp.
        assert ((M | 1)) as H1.
        { rewrite <-Hrp. by apply Z.gcd_greatest. }
        apply Z.divide_1_r in H1. lia. }
      pose proof (Z.mod_pos_bound (A ^ k) M). lia. }
  specialize (Hincl t). rewrite <-!list_elem_of_In, elem_of_seqZ in Hincl.
  unfold l in Hincl. rewrite list_elem_of_fmap in Hincl.
  destruct Hincl as (k & -> & Hk%elem_of_seqZ); [lia|]. exists k. split; [lia|done].
Qed.
End order.

(** [16807] generates the multiplicative group modulo [2^31 - 1]: the prime
    factors of [M - 1] are 2, 3, 7, 11, 31, 151 and 331. *)
Lemma A_order k : 0 < k < rand_M - 1 → rand_A ^ k mod rand_M ≠ 1.
Proof.
  apply (order_certificate rand_M rand_A) with
    (bound := 331) (ps := [2; 3; 3; 7; 11; 31; 151; 331]).
  - unfold rand_M; lia.
  - unfold rand_M; lia.
  - reflexivity.
  - repeat constructor; lia.
  - rewrite <-Zpow_mod_correct by (unfold rand_M; lia). vm_compute. done.
  - intros e He [q Hq].
    assert (Hq' : (rand_M - 1) / e = q) by (rewrite Hq; apply Z.div_mul; lia).
    rewrite Hq', <-Zpow_mod_correct by (unfold rand_M in *; nia).
    assert (Hall : forallb (λ e, negb ((rand_M - 1) mod e =? 0)
              || negb (Zpow_mod rand_A ((rand_M - 1) / e) rand_M =? 1))
              (seqZ 2 330) = true) by (vm_compute; reflexivity).
    rewrite forallb_forall in Hall. specialize (Hall e).
    rewrite <-list_elem_of_In, elem_of_seqZ in Hall.
    specialize (Hall ltac:(lia)). rewrite Hq' in Hall.
    rewrite Hq, Z.mod_mul in Hall by lia. simpl in Hall.
    by apply negb_true_iff, Z.eqb_neq in Hall.
Qed.

(** ** The generator *)

Lemma Random_new_ok s : seed_ok (Random_new s).
Proof.
  unfold Random_new, seed_ok, rand_M.
  destruct (_ || _) eqn:E; simpl; [lia|].
  apply orb_false_iff in E as [E1%Z.eqb_neq E2%Z.eqb_neq].
  pose proof (Z.land_ones s 31 ltac:(lia)) as HL.
  change (Z.ones 31) with 2147483647 in HL. rewrite HL in *.
  pose proof (Z.mod_pos_bound s (2 ^ 31)). lia.
Qed.

Lemma M_not_divides s : 1 ≤ s ≤ rand_M - 1 → (s * rand_A) mod rand_M ≠ 0.
Proof.
  intros Hs H0. apply Z.mod_divide in H0; [|unfold rand_M; lia].
  rewrite Z.mul_comm in H0. apply Z.gauss in H0; [|reflexivity].
  apply Z.divide_pos_le in H0; unfold rand_M in *; lia.
Qed.

Lemma Next_mod r :
  seed_ok r → fst (Next r) = (seed_ r * rand_A) mod rand_M.
Proof.
  intros Hr. pose proof (M_not_divides _ Hr) as Hnz. unfold seed_ok in Hr.
  unfold Next, rand_M, rand_A in *. cbv zeta. cbn [fst].
  rewrite (u64_small (seed_ r * 16807)) by lia.
  set (p := seed_ r * 16807) in *.
  pose proof (Z.land_ones p 31 ltac:(lia)) as HL.
  change (Z.ones 31) with 2147483647 in HL. rewrite HL. clear HL.
  rewrite Z.shiftr_div_pow2 by lia.
  pose proof (Z.div_mod p (2 ^ 31) ltac:(lia)) as Hdm.
  pose proof (Z.mod_pos_bound p (2 ^ 31) ltac:(lia)).
  assert (0 ≤ p / 2 ^ 31 < 16807).
  { split; [apply Z.div_pos; lia|apply Z.div_lt_upper_bound; lia]. }
  set (h := p / 2 ^ 31) in *. set (l := p mod 2 ^ 31) in *.
  rewrite (u64_small (h + l)), (u32_small (h + l)) by lia.
  assert (p mod 2147483647 = (h + l) mod 2147483647) as Hred.
  { rewrite Hdm. replace (2 ^ 31 * h + l) with (h + l + h * 2147483647) by lia.
    apply Z.mod_add. lia. }
  rewrite Hred in *.
  destruct (2147483647 <? h + l) eqn:E; rewrite ?Z.ltb_lt, ?Z.ltb_ge in E.
  - rewrite u32_small by lia.
    apply (Z.mod_unique _ _ 1); lia.
  - destruct (decide (h + l = 2147483647)) as [Heq|].
    { by rewrite Heq, Z.mod_same in Hnz. }
    symmetry. apply Z.mod_small. lia.
Qed.

Lemma Next_ok r : seed_ok r → seed_ok (snd (Next r)) ∧ fst (Next r) = seed_ (snd (Next r)).
Proof.
  intros Hr. split; [|done].
  unfold seed_ok. change (seed_ (snd (Next r))) with (fst (Next r)).
  rewrite Next_mod by done. pose proof (M_not_divides _ Hr).
  pose proof (Z.mod_pos_bound (seed_ r * rand_A) rand_M). unfold rand_M in *. lia.
Qed.

Lemma NextN_pow n r :
  seed_ok r →
  seed_ok (NextN n r) ∧ seed_ (NextN n r) = (seed_ r * rand_A ^ Z.of_nat n) mod rand_M.
Proof.
  revert r. induction n as [|n IH]; intros r Hr.
  - simpl NextN. split; [done|]. rewrite Z.pow_0_r, Z.mul_1_r.
    unfold seed_ok in Hr. rewrite Z.mod_small; lia.
  - change (NextN (S n) r) with (NextN n (snd (Next r))).
    destruct (Next_ok r Hr) as [Hok Heq]. destruct (IH _ Hok) as [IH1 IH2].
    split; [done|]. rewrite IH2, <-Heq, Next_mod by done.
    rewrite Nat2Z.inj_succ, Z.pow_succ_r by lia.
    rewrite Z.mul_mod_idemp_l by (unfold rand_M; lia). f_equal. ring.
Qed.

(** The exponent that leads from one seed to another. *)
Lemma seed_exponent s t :
  1 ≤ s ≤ rand_M - 1 → 1 ≤ t ≤ rand_M - 1 →
  ∃ k, 0 ≤ k ∧ (s * rand_A ^ k) mod rand_M = t.
Proof.
  intros Hs Ht.
  assert (HM : 1 < rand_M) by (unfold rand_M; lia).
  destruct (pow_mod_surj rand_M rand_A HM eq_refl A_order s) as (i & Hi & Hsi); [lia|].
  destruct (pow_mod_surj rand_M rand_A HM eq_refl A_order t) as (j & Hj & Htj); [lia|].
  assert (Hone : rand_A ^ (rand_M - 1) mod rand_M = 1).
  { rewrite <-Zpow_mod_correct by (unfold rand_M; lia). vm_compute. reflexivity. }
  exists (rand_M - 1 - i + j). split; [lia|].
  rewrite <-Hsi, Z.mul_mod_idemp_l, <-Z.pow_add_r by lia.
  replace (i + (rand_M - 1 - i + j)) with (rand_M - 1 + j) by lia.
  rewrite Z.pow_add_r, Z.mul_mod, Hone, Z.mul_1_l, Z.mod_mod by lia. done.
Qed.

Lemma Uniform_bound n r :
  1 ≤ n < 2 ^ 32 → seed_ok r →
  ∃ v r', Uniform n r = Ret (v, r') ∧ 0 ≤ v < n ∧ seed_ok r'.
Proof.
  intros Hn Hr. destruct (Next_ok r Hr) as [Hr' _].
  unfold Uniform, umod. destruct (Next r) as [v r'] eqn:E. cbn [snd] in Hr'.
  rewrite u32_small by lia.
  replace (n =? 0) with false by (symmetry; apply Z.eqb_neq; lia).
  exists (v mod n), r'. split_and!; [done| | |done]; apply Z.mod_pos_bound; lia.
Qed.

(** [Random::Next] computes [seed * 16807 mod (2^31 - 1)] without division
    and without overflow, returns the new seed, and keeps the seed inside
    [1, 2^31 - 2]; every constructor argument yields such a seed. *)
Theorem Next_is_lehmer r :
  seed_ok r →
  Next r = ((seed_ r * 16807) mod 2147483647,
            mkRandom ((seed_ r * 16807) mod 2147483647)) ∧
  seed_ok (snd (Next r)) ∧
  ∀ s, seed_ok (Random_new s).
Proof.
  intros Hr. split_and!; [|by apply Next_ok|apply Random_new_ok].
  pose proof (Next_mod r Hr) as Hm. unfold rand_A, rand_M in Hm.
  rewrite <-Hm. reflexivity.
Qed.

Lemma Next_is_lehmer_witness :
  seed_ok (Random_new 0xdeadbeef) ∧
  fst (Next (Random_new 0xdeadbeef)) = (1588444911 * 16807) mod 2147483647.
Proof.
  assert (H : seed_ok (Random_new 0xdeadbeef)) by (vm_compute; split; discriminate).
  split; [exact H|].
  destruct (Next_is_lehmer (Random_new 0xdeadbeef) H) as [-> _]. reflexivity.
Defined.

(** As the comment in [Next] says, the seed cycles through every number in
    [1, M-1]: from any good seed, every other one is reached. *)
Theorem Next_full_cycle r t :
  seed_ok r → 1 ≤ t ≤ rand_M - 1 → ∃ n, NextN n r = mkRandom t.
Proof.
  intros Hr Ht. destruct (seed_exponent (seed_ r) t Hr Ht) as (k & Hk & Heq).
  exists (Z.to_nat k). destruct (NextN_pow (Z.to_nat k) r Hr) as [_ Hs].
  rewrite Z2Nat.id, Heq in Hs by done.
  destruct (NextN _ _) as [s]. simpl in Hs. by subst.
Qed.

Lemma Next_full_cycle_witness : ∃ n, NextN n (Random_new 0xdeadbeef) = mkRandom 1.
Proof.
  apply (Next_full_cycle (Random_new 0xdeadbeef) 1);
    vm_compute; split; discriminate.
Defined.

(** [Skewed(max_log)] is defined and falls in [0, 2^max_log - 1] for every
    [max_log] up to 31, and [Uniform(n)] in [0, n-1]. *)
Theorem Skewed_range max_log r :
  0 ≤ max_log ≤ 31 → seed_ok r →
  ∃ v r', Skewed max_log r = Ret (v, r') ∧ 0 ≤ v < 2 ^ max_log ∧ seed_ok r'.
Proof.
  intros Hm Hr. unfold Skewed.
  replace (2 ^ 31 <=? max_log + 1) with false by (symmetry; apply Z.leb_gt; lia).
  destruct (Uniform_bound (max_log + 1) r) as (b & r1 & -> & Hb & Hr1); [lia|done|].
  simpl obind. unfold shl1.
  replace ((0 <=? b) && (b <? 32)) with true by lia. simpl obind.
  rewrite Z.shiftl_1_l.
  assert (Hpow : 2 ^ b ≤ 2 ^ max_log) by (apply Z.pow_le_mono_r; lia).
  assert (Hpos : 0 < 2 ^ b) by (apply Z.pow_pos_nonneg; lia).
  assert (Hcast : u32 (i32 (2 ^ b)) = 2 ^ b).
  { assert (2 ^ b ≤ 2 ^ 31) by (apply Z.pow_le_mono_r; lia).
    unfold u32, i32. rewrite Zminus_mod_idemp_l.
    replace (2 ^ b + 2 ^ 31 - 2 ^ 31) with (2 ^ b) by lia.
    apply Z.mod_small. lia. }
  destruct (Uniform_bound (2 ^ b) r1) as (v & r2 & Hv & Hvb & Hr2).
  { assert (2 ^ b ≤ 2 ^ 31) by (apply Z.pow_le_mono_r; lia). lia. }
  { done. }
  exists v, r2. split_and!; [|lia|lia|done].
  rewrite <-Hv. unfold Uniform, umod. rewrite Hcast.
  rewrite (u32_small (2 ^ b)); [done|].
  assert (2 ^ b ≤ 2 ^ 31) by (apply Z.pow_le_mono_r; lia). lia.
Qed.

Lemma Skewed_range_witness :
  ∃ v r', Skewed 10 (Random_new 301) = Ret (v, r') ∧ 0 ≤ v < 2 ^ 10 ∧ seed_ok r'.
Proof.
  apply (Skewed_range 10 (Random_new 301)); vm_compute; split; discriminate.
Defined.
