(* ===== verification/Arena.v ===== *)
(** * The arena allocator of cache/utils/arena.h and arena.cc

    [new char[]] and [delete[]] belong to the C++ runtime: the class [NewChar]
    has the two operations and the live blocks of the heap, [NewCharSpec] what
    the standard promises of them.  An arena operation passes the heap and the
    arena's four members explicitly.  [arena_inv] relates an arena to the
    regions it has handed out; the theorems show that the regions are pairwise
    disjoint, lie in blocks the arena owns, are aligned where asked, and that
    the destructor frees each block once. *)

From S2P Require Import Prelude Interfaces.

(** ** The C++ heap *)

Class NewChar (H : Type) := {
  new_char : Z → H → option (Z * H);        (* None: std::bad_alloc *)
  delete_char : Z → H → option H;           (* None: not a live block *)
  live : H → gmap Z Z;                      (* base address to size *)
  heap_ok : H → Prop;
}.

Class NewCharSpec (H : Type) `{NewChar H} : Prop := {
  new_char_spec h n p h' :
    heap_ok h → 0 < n → new_char n h = Some (p, h') →
    heap_ok h' ∧ live h' = <[p:=n]> (live h) ∧
    0 < p ∧ p mod 8 = 0 ∧ p + n < 2 ^ 64 ∧
    (∀ q m, live h !! q = Some m → disjoint_region (p, n) (q, m));
  delete_char_spec h p n :
    heap_ok h → live h !! p = Some n →
    ∃ h', delete_char p h = Some h' ∧ heap_ok h' ∧ live h' = delete p (live h);
}.

(** ** The arena *)

Record Arena := mkArena {
  alloc_ptr_ : Z;
  alloc_bytes_remaining_ : Z;
  blocks_ : list Z;
  memory_usage_ : Z;
}.

Definition kBlockSize : Z := 4096.
Definition sizeof_ptr : Z := 8.

Definition Arena_new : Arena := mkArena 0 0 [] 0.

Section ops.
Context {H : Type} `{NewChar H}.

Definition AllocateNewBlock (block_bytes : Z) (s : H * Arena) : outcome (Z * (H * Arena)) :=
  let '(h, a) := s in
  match new_char block_bytes h with
  | None => Throw
  | Some (result, h') =>
      Ret (result,
           (h', mkArena (alloc_ptr_ a) (alloc_bytes_remaining_ a)
                  (blocks_ a ++ [result])
                  (u64 (memory_usage_ a + u64 (block_bytes + sizeof_ptr)))))
  end.

Definition AllocateFallback (bytes : Z) (s : H * Arena) : outcome (Z * (H * Arena)) :=
  if kBlockSize / 4 <? bytes then AllocateNewBlock bytes s
  else
    '(p, (h, a)) ←! AllocateNewBlock kBlockSize s;
    let result := p in
    Ret (result,
         (h, mkArena (p + bytes) (u64 (kBlockSize - bytes)) (blocks_ a) (memory_usage_ a))).

(** [assert(bytes > 0)] fires unless [NDEBUG] is defined. *)
Definition Allocate (NDEBUG : bool) (bytes : Z) (s : H * Arena) : outcome (Z * (H * Arena)) :=
  if negb NDEBUG && (bytes <=? 0) then Abort
  else
    let '(h, a) := s in
    if bytes <=? alloc_bytes_remaining_ a then
      Ret (alloc_ptr_ a,
           (h, mkArena (alloc_ptr_ a + bytes) (u64 (alloc_bytes_remaining_ a - bytes))
                 (blocks_ a) (memory_usage_ a)))
    else AllocateFallback bytes s.

Definition align : Z := if 8 <? sizeof_ptr then sizeof_ptr else 8.

Definition slop_of (ptr : Z) : Z :=
  let current_mod := Z.land ptr (align - 1) in
  if current_mod =? 0 then 0 else align - current_mod.

Definition AllocateAligned (NDEBUG : bool) (bytes : Z) (s : H * Arena) :
    outcome (Z * (H * Arena)) :=
  let '(h, a) := s in
  let slop := slop_of (alloc_ptr_ a) in
  let needed := u64 (bytes + slop) in
  '(result, s') ←!
    (if needed <=? alloc_bytes_remaining_ a then
       Ret (alloc_ptr_ a + slop,
            (h, mkArena (alloc_ptr_ a + needed) (u64 (alloc_bytes_remaining_ a - needed))
                  (blocks_ a) (memory_usage_ a)))
     else AllocateFallback bytes s);
  if negb NDEBUG && negb (Z.land result (align - 1) =? 0) then Abort
  else Ret (result, s').

Definition MemoryUsage (a : Arena) : Z := memory_usage_ a.

(** [~Arena()]: a [delete[]] of something that is not a live block is
    undefined. *)
Fixpoint delete_blocks (bs : list Z) (h : H) : outcome H :=
  match bs with
  | [] => Ret h
  | b :: bs' => h' ←! deref (delete_char b h); delete_blocks bs' h'
  end.

Definition Arena_delete (s : H * Arena) : outcome H :=
  delete_blocks (blocks_ (snd s)) (fst s).

(** A client's sequence of requests, and the regions it gets. *)
Inductive request := RAllocate (bytes : Z) | RAligned (bytes : Z).

Definition req_bytes (r : request) : Z :=
  match r with RAllocate n => n | RAligned n => n end.

Definition serve (NDEBUG : bool) (r : request) (s : H * Arena) : outcome (Z * (H * Arena)) :=
  match r with
  | RAllocate n => Allocate NDEBUG n s
  | RAligned n => AllocateAligned NDEBUG n s
  end.

Fixpoint serve_all (NDEBUG : bool) (rs : list request) (s : H * Arena) :
    outcome (list region * (H * Arena)) :=
  match rs with
  | [] => Ret ([], s)
  | r :: rs' =>
      '(p, s1) ←! serve NDEBUG r s;
      '(l, s2) ←! serve_all NDEBUG rs' s1;
      Ret ((p, req_bytes r) :: l, s2)
  end.
End ops.

(** ** The invariant *)

Fixpoint pairwise_disjoint (R : list region) : Prop :=
  match R with
  | [] => True
  | r :: R' => Forall (disjoint_region r) R' ∧ pairwise_disjoint R'
  end.

(** [B] are the arena's blocks with their sizes, oldest first; [R] are the
    regions handed out, newest first.  The bump window is
    [alloc_ptr_, alloc_ptr_ + alloc_bytes_remaining_). *)
Record arena_inv `{NewChar H} (s : H * Arena) (R B : list region) : Prop := {
  ai_heap : heap_ok s.1;
  ai_blocks : blocks_ s.2 = B.*1;
  ai_live : ∀ b, b ∈ B → 0 < b.1 ∧ 0 < b.2 ∧ live s.1 !! b.1 = Some b.2;
  ai_nodup : NoDup (B.*1);
  ai_usage : memory_usage_ s.2 = u64 (foldr (λ b acc, b.2 + sizeof_ptr + acc) 0 B);
  ai_bounds : 0 ≤ alloc_ptr_ s.2 ∧ 0 ≤ alloc_bytes_remaining_ s.2;
  ai_window :
    alloc_bytes_remaining_ s.2 = 0 ∨
    ∃ b, b ∈ B ∧ b.1 + b.2 < 2 ^ 64 ∧
         inside_region (alloc_ptr_ s.2, alloc_bytes_remaining_ s.2) b;
  ai_inside : ∀ r, r ∈ R → 0 < r.1 ∧ 0 < r.2 ∧ ∃ b, b ∈ B ∧ inside_region r b;
  ai_disjoint : pairwise_disjoint R;
  ai_free : ∀ r, r ∈ R → 0 < alloc_bytes_remaining_ s.2 →
    disjoint_region r (alloc_ptr_ s.2, alloc_bytes_remaining_ s.2);
}.

Lemma disjoint_region_sym r1 r2 : disjoint_region r1 r2 → disjoint_region r2 r1.
Proof. unfold disjoint_region. tauto. Qed.

Lemma disjoint_region_inside r b b' :
  inside_region r b → disjoint_region b' b → disjoint_region b' r.
Proof. unfold inside_region, disjoint_region. lia. Qed.

Lemma sum_sizes_snoc (B : list region) b :
  foldr (λ b acc, b.2 + sizeof_ptr + acc) 0 (B ++ [b]) =
  foldr (λ b acc, b.2 + sizeof_ptr + acc) 0 B + (b.2 + sizeof_ptr).
Proof. induction B as [|c B IH]; simpl; lia. Qed.

Lemma slop_of_spec p :
  0 ≤ slop_of p < 8 ∧ (p + slop_of p) mod 8 = 0.
Proof.
  unfold slop_of. change align with 8. change (8 - 1) with (Z.ones 3).
  rewrite Z.land_ones by lia. change (2 ^ 3) with 8.
  pose proof (Z.mod_pos_bound p 8). destruct (Z.eqb_spec (p mod 8) 0).
  - split; [lia|]. by rewrite Z.add_0_r.
  - split; [lia|]. rewrite (Z.div_mod p 8) at 1 by lia.
    replace (8 * (p / 8) + p mod 8 + (8 - p mod 8)) with ((p / 8 + 1) * 8) by lia.
    apply Z.mod_mul. lia.
Qed.

Lemma aligned_land p : p mod 8 = 0 → Z.land p (align - 1) = 0.
Proof.
  intros Hp. change (align - 1) with (Z.ones 3). by rewrite Z.land_ones.
Qed.

Section proofs.
Context {H : Type} `{NewCharSpec H}.

Lemma Arena_new_inv (h : H) : heap_ok h → arena_inv (h, Arena_new) [] [].
Proof.
  intros Hh. split; simpl; auto; try set_solver; try lia. constructor.
Qed.

(** Taking [n] bytes at offset [off] of the window. *)
Lemma bump_inv h a R B off n :
  arena_inv (h, a) R B → 0 < n → 0 ≤ off → off + n ≤ alloc_bytes_remaining_ a →
  arena_inv (h, mkArena (alloc_ptr_ a + (off + n))
                 (u64 (alloc_bytes_remaining_ a - (off + n))) (blocks_ a) (memory_usage_ a))
    ((alloc_ptr_ a + off, n) :: R) B ∧
  0 < alloc_ptr_ a + off ∧
  Forall (disjoint_region (alloc_ptr_ a + off, n)) R.
Proof.
  intros [Hh Hb Hl Hnd Hu Hbd Hw Hi Hd Hf] Hn Hoff Hle. simpl in *.
  destruct Hw as [?|(b & HbB & Hb64 & Hin)]; [lia|].
  assert (Hpos : 0 < alloc_ptr_ a + off).
  { destruct (Hl b HbB). unfold inside_region in Hin. simpl in Hin. lia. }
  assert (Hall : Forall (disjoint_region (alloc_ptr_ a + off, n)) R).
  { apply Forall_forall. intros r Hr. specialize (Hf r Hr ltac:(lia)).
    unfold disjoint_region, inside_region in *. simpl in *. lia. }
  unfold inside_region in Hin. simpl in Hin.
  split; [|done]. split; simpl; auto.
  - pose proof (u64_range (alloc_bytes_remaining_ a - (off + n))). lia.
  - right. exists b. unfold inside_region. simpl. rewrite u64_small; lia || auto.
    split_and!; auto; lia.
  - intros r [->|Hr]%elem_of_cons; [|auto]. simpl. split_and!; auto.
    exists b. unfold inside_region. simpl. split; [done|lia].
  - intros r [->|Hr]%elem_of_cons.
    + unfold disjoint_region. simpl. lia.
    + specialize (Hf r Hr ltac:(lia)). unfold disjoint_region in *. simpl in *.
      rewrite u64_small; lia.
Qed.

Lemma AllocateNewBlock_inv h a R B n :
  arena_inv (h, a) R B → 0 < n →
  safe (AllocateNewBlock n (h, a)) (λ '(p, (h', a')),
    arena_inv (h', a') R (B ++ [(p, n)]) ∧
    alloc_ptr_ a' = alloc_ptr_ a ∧
    alloc_bytes_remaining_ a' = alloc_bytes_remaining_ a ∧
    0 < p ∧ p mod 8 = 0 ∧ p + n < 2 ^ 64 ∧
    Forall (disjoint_region (p, n)) R ∧
    (0 < alloc_bytes_remaining_ a →
     disjoint_region (p, n) (alloc_ptr_ a, alloc_bytes_remaining_ a))).
Proof.
  intros [Hh Hb Hl Hnd Hu Hbd Hw Hi Hd Hf] Hn. simpl in *.
  destruct (new_char n h) as [[p h']|] eqn:E; simpl; [|done].
  destruct (new_char_spec h n p h' Hh Hn E) as (Hh' & Hl' & Hp & Hal & Hr & Hdis).
  assert (Hfresh : ∀ b, b ∈ B → disjoint_region (p, n) b).
  { intros [q m] Hb'. destruct (Hl _ Hb') as (_ & _ & ?). by apply Hdis. }
  assert (HpB : p ∉ B.*1).
  { intros ([q m] & Hq & Hin)%list_elem_of_fmap. simpl in Hq. subst q.
    specialize (Hfresh _ Hin). destruct (Hl _ Hin) as (_ & ? & _).
    unfold disjoint_region in Hfresh. simpl in *. lia. }
  split_and!; auto.
  - split; simpl; auto.
    + by rewrite Hb, fmap_app.
    + intros b [Hin|Hin%list_elem_of_singleton]%elem_of_app.
      * destruct (Hl b Hin) as (? & ? & Hlk). split_and!; [done..|]. rewrite Hl', lookup_insert_ne; [done|].
        intros ->. apply HpB. apply list_elem_of_fmap. eauto.
      * subst b. simpl. split_and!; [done..|]. by rewrite Hl', lookup_insert_eq.
    + rewrite fmap_app. apply NoDup_app. split_and!; auto.
      * intros x Hx ->%list_elem_of_singleton. done.
      * apply NoDup_singleton.
    + rewrite sum_sizes_snoc, Hu. unfold u64. simpl.
      by rewrite <-Zplus_mod.
    + destruct Hw as [?|(b & ? & ? & ?)]; [by left|right].
      exists b. split_and!; auto. apply elem_of_app. auto.
    + intros r Hr'. destruct (Hi r Hr') as (? & ? & b & ? & ?). split_and!; auto.
      exists b. split; [apply elem_of_app; auto|done].
  - apply Forall_forall. intros r Hr'.
    destruct (Hi r Hr') as (? & ? & b & Hb' & Hin).
    eapply disjoint_region_inside; [done|]. by apply Hfresh.
  - intros Hrem. destruct Hw as [?|(b & Hb' & _ & Hin)]; [lia|].
    eapply disjoint_region_inside; [done|]. by apply Hfresh.
Qed.

(** What every allocation operation guarantees: the region is new, aligned to
    [al], and the invariant holds with it added. *)
Definition alloc_post (al n : Z) (R : list region) (x : Z * (H * Arena)) : Prop :=
  let '(p, s') := x in
  0 < p ∧ p mod al = 0 ∧ Forall (disjoint_region (p, n)) R ∧
  ∃ B', arena_inv s' ((p, n) :: R) B'.

Lemma AllocateFallback_inv s R B n :
  arena_inv s R B → 0 < n < 2 ^ 64 →
  safe (AllocateFallback n s) (alloc_post 8 n R).
Proof.
  destruct s as [h a]. intros Hinv Hn. unfold AllocateFallback.
  change (kBlockSize / 4) with 1024. destruct (Z.ltb_spec 1024 n).
  - eapply safe_mono; [apply (AllocateNewBlock_inv _ _ R B); [done|unfold kBlockSize; lia]|].
    intros [p [h' a']] ([Hh Hb Hl Hnd Hu Hbd Hw Hi Hd Hf] & Hp & Hr & ? & ? & ? & Hdis & Hwin).
    unfold alloc_post. split_and!; auto. exists (B ++ [(p, n)]).
    assert (HpB : (p, n) ∈ B ++ [(p, n)]) by (apply elem_of_app; right; by left).
    split; simpl in *; auto.
    + intros r [->|Hr']%elem_of_cons; [|auto]. split_and!; simpl; auto; [lia|].
      exists (p, n). split; [done|]. unfold inside_region. simpl. lia.
    + intros r [->|Hr']%elem_of_cons; [|auto].
      intros ?. rewrite Hp, Hr in *. auto.
  - apply safe_bind. eapply safe_mono; [apply (AllocateNewBlock_inv _ _ R B); [done|unfold kBlockSize; lia]|].
    intros [p [h' a']] ([Hh Hb Hl Hnd Hu Hbd Hw Hi Hd Hf] & Hp & Hr & ? & ? & ? & Hdis & _).
    simpl in *. rewrite Forall_forall in Hdis.
    assert (HpB : (p, kBlockSize) ∈ B ++ [(p, kBlockSize)])
      by (apply elem_of_app; right; by left).
    assert (Hset : arena_inv (h', mkArena p kBlockSize (blocks_ a') (memory_usage_ a'))
                     R (B ++ [(p, kBlockSize)])).
    { split; simpl; auto.
      - unfold kBlockSize. lia.
      - right. exists (p, kBlockSize). split_and!; auto. unfold inside_region. simpl. lia.
      - intros r Hr' _. by apply disjoint_region_sym, Hdis. }
    destruct (bump_inv _ _ _ _ 0 n Hset) as (Hinv' & Hpos & Hdis');
      simpl; unfold kBlockSize; try lia.
    simpl in *. rewrite Z.add_0_l, Z.add_0_r in *. split_and!; auto.
    eexists. exact Hinv'.
Qed.

Lemma Allocate_inv NDEBUG s R B n :
  arena_inv s R B → 0 < n < 2 ^ 64 →
  safe (Allocate NDEBUG n s) (alloc_post 1 n R).
Proof.
  destruct s as [h a]. intros Hinv Hn. unfold Allocate.
  replace (n <=? 0) with false by lia. rewrite andb_false_r.
  destruct (Z.leb_spec n (alloc_bytes_remaining_ a)).
  - destruct (bump_inv h a R B 0 n) as (Hinv' & Hpos & Hdis); [done|lia..|].
    rewrite Z.add_0_l, Z.add_0_r in *. simpl. split_and!; auto; [apply Z.mod_1_r|].
    by eexists.
  - eapply safe_mono; [by eapply AllocateFallback_inv|].
    intros [p s'] (? & ? & ? & ?). split_and!; auto. apply Z.mod_1_r.
Qed.

(** The sum [bytes + slop] must not wrap around. *)
Lemma AllocateAligned_inv NDEBUG s R B n :
  arena_inv s R B → 0 < n ≤ 2 ^ 64 - 8 →
  safe (AllocateAligned NDEBUG n s) (alloc_post 8 n R).
Proof.
  destruct s as [h a]. intros Hinv Hn. unfold AllocateAligned.
  destruct (slop_of_spec (alloc_ptr_ a)) as [Hs Hal].
  rewrite u64_small by lia. apply safe_bind.
  assert (Hchk : ∀ m, safe m (alloc_post 8 n R) →
    safe m (λ a0, safe (let '(result, s') := a0 in
      if negb NDEBUG && negb (Z.land result (align - 1) =? 0) then Abort
      else Ret (result, s')) (alloc_post 8 n R))).
  { intros m Hm. eapply safe_mono; [exact Hm|]. intros [p s'] Hpost.
    pose proof Hpost as (_ & Hp & _). rewrite aligned_land by done. simpl.
    rewrite andb_false_r. exact Hpost. }
  apply Hchk. destruct (Z.leb_spec (n + slop_of (alloc_ptr_ a)) (alloc_bytes_remaining_ a)).
  - destruct (bump_inv h a R B (slop_of (alloc_ptr_ a)) n) as (Hinv' & Hpos & Hdis);
      [done|lia..|].
    rewrite (Z.add_comm n). simpl. split_and!; auto. by eexists.
  - eapply AllocateFallback_inv; [done|lia].
Qed.

(** The only exception is the one [new] throws. *)
Lemma AllocateFallback_throw n (s : H * Arena) :
  AllocateFallback n s = Throw → new_char n s.1 = None ∨ new_char kBlockSize s.1 = None.
Proof.
  destruct s as [h a]. unfold AllocateFallback, AllocateNewBlock. simpl.
  destruct (_ <? n).
  - destruct (new_char n h) as [[? ?]|]; [done|auto].
  - destruct (new_char kBlockSize h) as [[? ?]|]; [done|auto].
Qed.

Lemma AllocateAligned_throw NDEBUG n (s : H * Arena) :
  AllocateAligned NDEBUG n s = Throw →
  new_char n s.1 = None ∨ new_char kBlockSize s.1 = None.
Proof.
  destruct s as [h a]. unfold AllocateAligned.
  destruct (_ <=? _).
  - simpl. destruct (_ && _); discriminate.
  - destruct (AllocateFallback n (h, a)) as [[p s']| | | |] eqn:E; simpl; try discriminate.
    + destruct (_ && _); discriminate.
    + intros _. by apply AllocateFallback_throw in E.
Qed.

Definition req_ok (r : request) : Prop := 0 < req_bytes r ≤ 2 ^ 64 - 8.

Lemma serve_all_inv NDEBUG rs s R B :
  Forall req_ok rs → arena_inv s R B →
  safe (serve_all NDEBUG rs s) (λ '(l, s'), ∃ B', arena_inv s' (rev l ++ R) B').
Proof.
  intros Hrs. revert s R B. induction Hrs as [|r rs Hr _ IH]; intros s R B Hinv.
  { simpl. by exists B. }
  simpl. apply safe_bind.
  assert (Hone : safe (serve NDEBUG r s) (λ '(p, s'),
            ∃ B', arena_inv s' ((p, req_bytes r) :: R) B')).
  { unfold req_ok in Hr. destruct r as [n|n]; simpl in *.
    - eapply safe_mono; [eapply Allocate_inv; [done|lia]|]. intros [p s'] (_ & _ & _ & ?). done.
    - eapply safe_mono; [eapply AllocateAligned_inv; [done|lia]|]. intros [p s'] (_ & _ & _ & ?). done. }
  eapply safe_mono; [exact Hone|]. intros [p s1] [B1 Hinv1].
  apply safe_bind. eapply safe_mono; [exact (IH _ _ _ Hinv1)|].
  intros [l s2] [B2 Hinv2]. simpl. exists B2. by rewrite <-app_assoc.
Qed.

Lemma delete_blocks_spec B h :
  heap_ok h → NoDup (B.*1) → (∀ b, b ∈ B → live h !! b.1 = Some b.2) →
  ∃ h', delete_blocks (B.*1) h = Ret h' ∧ heap_ok h' ∧
        live h' = foldr delete (live h) (B.*1).
Proof.
  revert h. induction B as [|b B IH]; intros h Hh Hnd Hl; csimpl in *.
  { by exists h. }
  apply NoDup_cons in Hnd as [Hb Hnd].
  destruct (delete_char_spec h b.1 b.2 Hh) as (h1 & -> & Hh1 & Hl1).
  { apply Hl. by left. }
  csimpl. destruct (IH h1 Hh1 Hnd) as (h2 & -> & Hh2 & Hl2).
  { intros c Hc. rewrite Hl1, lookup_delete_ne; [apply Hl; by right|].
    intros Heq. apply Hb. rewrite Heq. apply list_elem_of_fmap. eauto. }
  exists h2. split_and!; auto. rewrite Hl2, Hl1. clear.
  induction (B.*1) as [|c l IHl]; simpl; [done|]. by rewrite IHl, delete_delete.
Qed.
End proofs.

Lemma pairwise_disjoint_snoc R r :
  pairwise_disjoint R → Forall (disjoint_region r) R → pairwise_disjoint (R ++ [r]).
Proof.
  induction R as [|q R IH]; simpl; [done|].
  intros [Hq HR] [Hrq Hr]%Forall_cons. split; [|auto].
  apply Forall_app. split; [done|]. constructor; [|done]. by apply disjoint_region_sym.
Qed.

Lemma pairwise_disjoint_rev R : pairwise_disjoint R → pairwise_disjoint (rev R).
Proof.
  induction R as [|q R IH]; simpl; [done|]. intros [Hq HR].
  apply pairwise_disjoint_snoc; [auto|].
  rewrite Forall_forall in *. intros x Hx. apply Hq.
  apply list_elem_of_In. apply list_elem_of_In in Hx. by apply in_rev.
Qed.

(** ** A concrete heap: addresses only grow *)

Record BumpHeap := mkBump { bh_brk : Z; bh_live : gmap Z Z }.

Definition bump_new (n : Z) (h : BumpHeap) : option (Z * BumpHeap) :=
  if bh_brk h + n <? 2 ^ 47 then
    Some (bh_brk h,
          mkBump (bh_brk h + 16 * ((n + 15) / 16)) (<[bh_brk h := n]> (bh_live h)))
  else None.

Definition bump_delete (p : Z) (h : BumpHeap) : option BumpHeap :=
  match bh_live h !! p with
  | Some _ => Some (mkBump (bh_brk h) (delete p (bh_live h)))
  | None => None
  end.

#[export] Instance BumpHeap_NewChar : NewChar BumpHeap := {
  new_char := bump_new;
  delete_char := bump_delete;
  live := bh_live;
  heap_ok h :=
    0 < bh_brk h ∧ bh_brk h mod 16 = 0 ∧
    map_Forall (λ p n, p + n ≤ bh_brk h) (bh_live h);
}.

#[export] Instance BumpHeap_NewCharSpec : NewCharSpec BumpHeap.
Proof.
  split.
  - intros h n p h' (Hb & Ha & Hl) Hn. unfold new_char, BumpHeap_NewChar, bump_new.
    destruct (Z.ltb_spec (bh_brk h + n) (2 ^ 47)); [|done]. intros [= <- <-].
    assert (n ≤ 16 * ((n + 15) / 16)).
    { pose proof (Z.div_mod (n + 15) 16). pose proof (Z.mod_pos_bound (n + 15) 16). lia. }
    simpl. split_and!; auto; try lia.
    + rewrite (Z.mul_comm 16), Z.mod_add by lia. done.
    + apply map_Forall_insert_2; [lia|].
      eapply map_Forall_impl; [exact Hl|]. intros q m Hq. simpl in Hq. lia.
    + rewrite (Z.div_mod (bh_brk h) 16), Ha by lia.
      replace (16 * (bh_brk h / 16) + 0) with (2 * (bh_brk h / 16) * 8) by lia.
      by apply Z.mod_mul.
    + intros q m Hq. specialize (Hl q m Hq). simpl in Hl.
      unfold disjoint_region. simpl. lia.
  - intros h p n (Hb & Ha & Hl) Hp. unfold delete_char, BumpHeap_NewChar, bump_delete.
    simpl in Hp. rewrite Hp. eexists. split; [done|]. simpl. split_and!; auto.
    by apply map_Forall_delete.
Qed.

Definition bump_heap0 : BumpHeap := mkBump 65536 ∅.

Lemma bump_heap0_ok : heap_ok bump_heap0.
Proof. split_and!; [done..|]. apply map_Forall_empty. Qed.

(** ** The arena's contract *)

Section contract.
Context {H : Type} `{NewCharSpec H}.

(** Whatever mix of [Allocate] and [AllocateAligned] calls a client makes on
    a fresh arena, no call is undefined or trips an assertion, and the regions
    it gets are pairwise disjoint, non-null and each inside one live block that
    the arena owns. *)
Theorem arena_regions_disjoint NDEBUG (h : H) rs :
  heap_ok h → Forall req_ok rs →
  safe (serve_all NDEBUG rs (h, Arena_new)) (λ '(l, (h', a')),
    pairwise_disjoint l ∧
    ∀ r, r ∈ l → 0 < r.1 ∧
      ∃ b n, b ∈ blocks_ a' ∧ live h' !! b = Some n ∧ inside_region r (b, n)).
Proof.
  intros Hh Hrs.
  eapply safe_mono; [by eapply (serve_all_inv _ _ _ [] []), Arena_new_inv|].
  intros [l [h' a']] [B Hinv]. rewrite app_nil_r in Hinv.
  destruct Hinv as [_ Hb Hl _ _ _ _ Hi Hd _]. simpl in *. split.
  - rewrite <-(rev_involutive l). by apply pairwise_disjoint_rev.
  - intros r Hr. destruct (Hi r) as (? & ? & b & HbB & Hin).
    { apply list_elem_of_In, in_rev. rewrite rev_involutive. by apply list_elem_of_In. }
    split; [done|]. exists b.1, b.2. split_and!; [|by apply Hl|by destruct b].
    rewrite Hb. apply list_elem_of_fmap. eauto.
Qed.

(** [AllocateAligned] returns fresh 8-byte aligned memory whenever
    [bytes + slop] does not wrap a [size_t]: it fails only by the exception of a
    failed [new], and the alignment assertion of the code never fires. *)
Theorem AllocateAligned_aligned NDEBUG (s : H * Arena) R B n :
  arena_inv s R B → 0 < n ≤ 2 ^ 64 - 8 →
  match AllocateAligned NDEBUG n s with
  | Ret (p, s') =>
      p mod 8 = 0 ∧ Forall (disjoint_region (p, n)) R ∧
      ∃ B', arena_inv s' ((p, n) :: R) B'
  | Throw => new_char n s.1 = None ∨ new_char kBlockSize s.1 = None
  | _ => False
  end.
Proof.
  intros Hinv Hn. pose proof (AllocateAligned_inv NDEBUG s R B n Hinv Hn) as Hs.
  destruct (AllocateAligned NDEBUG n s) as [[p s']| | | |] eqn:E; try done.
  - destruct Hs as (_ & ? & ? & ?). auto.
  - by eapply AllocateAligned_throw.
Qed.

(** After any run the destructor releases exactly the arena's blocks, each
    once, and [MemoryUsage] is the size of these blocks plus one pointer for
    each (modulo the width of [size_t]). *)
Theorem Arena_delete_frees NDEBUG (h : H) rs :
  heap_ok h → Forall req_ok rs →
  safe (serve_all NDEBUG rs (h, Arena_new)) (λ '(l, (h', a')),
    ∃ B h'', B.*1 = blocks_ a' ∧
      (∀ b, b ∈ B → live h' !! b.1 = Some b.2) ∧
      MemoryUsage a' = u64 (foldr (λ b acc, b.2 + sizeof_ptr + acc) 0 B) ∧
      Arena_delete (h', a') = Ret h'' ∧
      live h'' = foldr delete (live h') (blocks_ a')).
Proof.
  intros Hh Hrs.
  eapply safe_mono; [by eapply (serve_all_inv _ _ _ [] []), Arena_new_inv|].
  intros [l [h' a']] [B Hinv]. destruct Hinv as [Hok Hb Hl Hnd Hu _ _ _ _ _]. simpl in *.
  destruct (delete_blocks_spec B h') as (h'' & Hdel & _ & Hlive); auto.
  { intros b Hb'. by apply Hl. }
  exists B, h''. unfold Arena_delete, MemoryUsage. simpl.
  rewrite Hb. split_and!; auto. intros b Hb'. by apply Hl.
Qed.
End contract.

(** The arena is a node allocator. *)
#[export] Program Instance Arena_NodeAllocator `{NewCharSpec H} : NodeAllocator (H * Arena) := {
  alloc_aligned := AllocateAligned;
  alloc_inv s R := ∃ B, arena_inv s R B;
}.
Next Obligation.
  intros H HN HS NDEBUG s R n [B Hinv] Hn.
  eapply safe_mono; [by eapply AllocateAligned_inv|].
  intros [p s'] (? & _ & ? & ?). auto.
Qed.

Definition example_requests : list request :=
  [RAllocate 5; RAligned 48; RAligned 2000; RAligned 136; RAllocate 4000; RAligned 56].

Lemma example_requests_ok : Forall req_ok example_requests.
Proof. repeat constructor; simpl; lia. Qed.

Lemma arena_regions_disjoint_witness :
  safe (serve_all false example_requests (bump_heap0, Arena_new)) (λ '(l, _), pairwise_disjoint l).
Proof.
  eapply safe_mono;
    [exact (arena_regions_disjoint false bump_heap0 example_requests bump_heap0_ok example_requests_ok)|].
  intros [l [h' a']] [Hd _]. exact Hd.
Defined.

Lemma AllocateAligned_aligned_witness :
  match AllocateAligned false 48 (bump_heap0, Arena_new) with
  | Ret (p, _) => p mod 8 = 0
  | _ => False
  end.
Proof.
  pose proof (AllocateAligned_aligned false (bump_heap0, Arena_new) [] [] 48
    (Arena_new_inv _ bump_heap0_ok) ltac:(lia)) as Hw.
  destruct (AllocateAligned false 48 (bump_heap0, Arena_new)) as [[p s']| | | |] eqn:E;
    [exact (proj1 Hw)| | | |]; vm_compute in E; discriminate.
Defined.

Lemma Arena_delete_frees_witness :
  safe (serve_all true example_requests (bump_heap0, Arena_new)) (λ '(l, (h', a')),
    ∃ h'', Arena_delete (h', a') = Ret h'').
Proof.
  eapply safe_mono;
    [exact (Arena_delete_frees true bump_heap0 example_requests bump_heap0_ok example_requests_ok)|].
  intros [l [h' a']] (B & h'' & _ & _ & _ & Hd & _). exists h''. exact Hd.
Defined.

Example arena_run :
  (l ←! serve_all false example_requests (bump_heap0, Arena_new); Ret (fst l)) =
  Ret [(65536, 5); (65544, 48); (65592, 2000); (67592, 136); (69632, 4000); (67728, 56)].
Proof. vm_compute. reflexivity. Qed.

(** The size computation of [AllocateAligned] wraps: a request of [2^64 - 3]
    bytes when the window starts 5 bytes past an aligned address is granted in
    place, and the next request is given memory inside the granted region. *)
Example AllocateAligned_wraps :
  (l ←! serve_all false [RAllocate 5; RAligned (2 ^ 64 - 3); RAllocate 8] (bump_heap0, Arena_new);
   Ret (fst l)) = Ret [(65536, 5); (65544, 2 ^ 64 - 3); (65541, 8)].
Proof. vm_compute. reflexivity. Qed.
