(* ===== verification/SkipList.v ===== *)
(** * The skip list of cache/storage/memory/skip_list.h

    Nodes live in a store from addresses to a key and an array of links; a link
    of a fresh node is uninitialised until it is set, and a read of an
    uninitialised link, of a link above a node's height or of an address that is
    no node is undefined behaviour.  The loops of the searches run on fuel
    [search_fuel], the number of nodes plus the height of the list, which the
    theorems show to be enough.

    [sl_inv] is the representation invariant: the nodes form a sequence sorted
    by key, and at each level the links visit the nodes of that height in the
    order of the sequence.  The ghost function [lev] gives the number of levels
    at which a node is linked, so that the same invariant describes a list in
    the middle of an [Insert]. *)

From S2P Require Import Prelude Interfaces Random.

(** [Node*] as it is stored in memory. *)
Inductive slot := Uninit | Null | At (a : Z).

Record Node (Key : Type) := mkNode {
  key : Key;
  next_ : list slot;
}.
Arguments mkNode {Key}.
Arguments key {Key}.
Arguments next_ {Key}.

Record SkipList (Key : Type) := mkSkipList {
  nodes : gmap Z (Node Key);
  head_ : Z;
  max_height_ : nat;
  rnd_ : Random;
}.
Arguments mkSkipList {Key}.
Arguments nodes {Key}.
Arguments head_ {Key}.
Arguments max_height_ {Key}.
Arguments rnd_ {Key}.

Definition kMaxHeight : nat := 12.
Definition kBranching : Z := 4.

(** A link as the program reads it: [Some None] is a null pointer. *)
Definition slot_load (o : option slot) : outcome (option Z) :=
  match o with
  | Some Null => Ret None
  | Some (At a) => Ret (Some a)
  | Some Uninit | None => Undef
  end.

Definition slot_of (o : option Z) : slot :=
  match o with Some a => At a | None => Null end.

Section ops.
Context {Key : Type} `{Comparator Key}.
(** [Key()], the key of the head node, [sizeof(Node)], and whether [assert] is
    compiled out. *)
Context (key0 : Key) (sizeof_Node : Z) (NDEBUG : bool).
Context {S : Type} `{NodeAllocator S}.

Implicit Types (sl : SkipList Key) (s : S).

Definition with_nodes sl (m : gmap Z (Node Key)) : SkipList Key :=
  mkSkipList m (head_ sl) (max_height_ sl) (rnd_ sl).

(** ** Node *)

Definition Node_Next sl (x : Z) (n : nat) : outcome (option Z) :=
  nd ←! deref (nodes sl !! x); slot_load (next_ nd !! n).

Definition Node_SetNext sl (x : Z) (n : nat) (v : option Z) : outcome (SkipList Key) :=
  nd ←! deref (nodes sl !! x);
  _ ←! deref (next_ nd !! n);
  Ret (with_nodes sl
         (<[x := mkNode (key nd) (<[n := slot_of v]> (next_ nd))]> (nodes sl))).

(** The no-barrier accessors read and write the same memory. *)
Definition NoBarrier_Next := Node_Next.
Definition NoBarrier_SetNext := Node_SetNext.

Definition Node_key sl (x : Z) : outcome Key :=
  nd ←! deref (nodes sl !! x); Ret (key nd).

(** [NewNode]: the memory comes from the arena, the links are not set. *)
Definition NewNode (k : Key) (height : nat) (m : gmap Z (Node Key)) s :
    outcome (Z * gmap Z (Node Key) * S) :=
  '(a, s') ←! alloc_aligned NDEBUG (sizeof_Node + 8 * (Z.of_nat height - 1)) s;
  Ret (a, <[a := mkNode k (replicate height Uninit)]> m, s').

(** ** Searching *)

Definition GetMaxHeight sl : nat := max_height_ sl.

Definition Equal (a b : Key) : bool := compare_ a b =? 0.

Definition KeyIsAfterNode sl (k : Key) (n : option Z) : outcome bool :=
  match n with
  | None => Ret false
  | Some a => nk ←! Node_key sl a; Ret (compare_ nk k <? 0)
  end.

Definition search_fuel sl : nat := (size (nodes sl) + GetMaxHeight sl)%nat.

(** [if (prev != nullptr) prev[level] = x]. *)
Definition set_prev (prev : option (list slot)) (level : nat) (x : Z) :
    outcome (option (list slot)) :=
  match prev with
  | None => Ret None
  | Some p => _ ←! deref (p !! level); Ret (Some (<[level := At x]> p))
  end.

Fixpoint FindGreaterOrEqual_loop (fuel : nat) sl (k : Key) (x : Z) (level : nat)
    (prev : option (list slot)) : outcome (option Z * option (list slot)) :=
  match fuel with
  | O => Fuel
  | Datatypes.S fuel' =>
      next ←! Node_Next sl x level;
      after ←! KeyIsAfterNode sl k next;
      if after : bool then
        y ←! deref next;
        FindGreaterOrEqual_loop fuel' sl k y level prev
      else
        prev' ←! set_prev prev level x;
        match level with
        | O => Ret (next, prev')
        | Datatypes.S l' => FindGreaterOrEqual_loop fuel' sl k x l' prev'
        end
  end.

Definition FindGreaterOrEqual sl (k : Key) (prev : option (list slot)) :
    outcome (option Z * option (list slot)) :=
  FindGreaterOrEqual_loop (search_fuel sl) sl k (head_ sl) (GetMaxHeight sl - 1) prev.

Fixpoint FindLessThan_loop (fuel : nat) sl (k : Key) (x : Z) (level : nat) : outcome Z :=
  match fuel with
  | O => Fuel
  | Datatypes.S fuel' =>
      xk ←! Node_key sl x;
      if negb NDEBUG && negb ((x =? head_ sl) || (compare_ xk k <? 0)) then Abort
      else
        next ←! Node_Next sl x level;
        match next with
        | None =>
            match level with
            | O => Ret x
            | Datatypes.S l' => FindLessThan_loop fuel' sl k x l'
            end
        | Some y =>
            yk ←! Node_key sl y;
            if 0 <=? compare_ yk k then
              match level with
              | O => Ret x
              | Datatypes.S l' => FindLessThan_loop fuel' sl k x l'
              end
            else FindLessThan_loop fuel' sl k y level
        end
  end.

Definition FindLessThan sl (k : Key) : outcome Z :=
  FindLessThan_loop (search_fuel sl) sl k (head_ sl) (GetMaxHeight sl - 1).

Fixpoint FindLast_loop (fuel : nat) sl (x : Z) (level : nat) : outcome Z :=
  match fuel with
  | O => Fuel
  | Datatypes.S fuel' =>
      next ←! Node_Next sl x level;
      match next with
      | None =>
          match level with
          | O => Ret x
          | Datatypes.S l' => FindLast_loop fuel' sl x l'
          end
      | Some y => FindLast_loop fuel' sl y level
      end
  end.

Definition FindLast sl : outcome Z :=
  FindLast_loop (search_fuel sl) sl (head_ sl) (GetMaxHeight sl - 1).

Definition Contains sl (k : Key) : outcome bool :=
  '(x, _) ←! FindGreaterOrEqual sl k None;
  match x with
  | None => Ret false
  | Some a => xk ←! Node_key sl a; Ret (Equal k xk)
  end.

(** ** Construction and insertion *)

(** [while (height < kMaxHeight && rnd_.Next() % kBranching == 0) height++]:
    [room] is [kMaxHeight - height]. *)
Fixpoint RandomHeight_loop (room height : nat) (r : Random) : nat * Random :=
  match room with
  | O => (height, r)
  | Datatypes.S room' =>
      let '(v, r') := Random.Next r in
      if v mod kBranching =? 0 then RandomHeight_loop room' (height + 1)%nat r'
      else (height, r')
  end.

Definition RandomHeight (r : Random) : nat * Random :=
  RandomHeight_loop (kMaxHeight - 1) 1 r.

Fixpoint set_null (n : nat) sl (x : Z) : outcome (SkipList Key) :=
  match n with
  | O => Ret sl
  | Datatypes.S n' => sl' ←! set_null n' sl x; Node_SetNext sl' x n' None
  end.

(** The constructor. *)
Definition SkipList_new s : outcome (SkipList Key * S) :=
  '(h, m, s') ←! NewNode key0 kMaxHeight ∅ s;
  sl ←! set_null kMaxHeight (mkSkipList m h 1 (Random_new 0xdeadbeef)) h;
  Ret (sl, s').

(** [for (int i = GetMaxHeight(); i < height; i++) prev[i] = head_]. *)
Definition fill_prev (from to_ : nat) (h : Z) (prev : list slot) : list slot :=
  imap (λ i v, if decide (from ≤ i < to_)%nat then At h else v) prev.

(** One iteration of the linking loop of [Insert]. *)
Definition link_level (x : Z) (prev : list slot) (i : nat) sl : outcome (SkipList Key) :=
  p ←! slot_load (prev !! i);
  p ←! deref p;
  nx ←! NoBarrier_Next sl p i;
  sl1 ←! NoBarrier_SetNext sl x i nx;
  Node_SetNext sl1 p i (Some x).

Fixpoint link_levels (n : nat) (x : Z) (prev : list slot) sl : outcome (SkipList Key) :=
  match n with
  | O => Ret sl
  | Datatypes.S n' => sl' ←! link_levels n' x prev sl; link_level x prev n' sl'
  end.

Definition Insert (k : Key) sl s : outcome (SkipList Key * S) :=
  '(x, prev) ←! FindGreaterOrEqual sl k (Some (replicate kMaxHeight Uninit));
  prev ←! deref prev;
  dup ←! match x with
         | None => Ret false
         | Some a => xk ←! Node_key sl a; Ret (Equal k xk)
         end;
  if negb NDEBUG && dup then Abort
  else
    let '(height, rnd) := RandomHeight (rnd_ sl) in
    let '(prev, mh) :=
      if decide (GetMaxHeight sl < height)%nat
      then (fill_prev (GetMaxHeight sl) height (head_ sl) prev, height)
      else (prev, max_height_ sl) in
    '(x, m, s') ←! NewNode k height (nodes sl) s;
    sl' ←! link_levels height x prev (mkSkipList m (head_ sl) mh rnd);
    Ret (sl', s').

(** ** Iterator

    An iterator is a list and a [Node*]; [None] is the null pointer. *)

Record Iterator := mkIterator { node_ : option Z }.

Definition Iterator_new : Iterator := mkIterator None.

Definition Valid (it : Iterator) : bool :=
  match node_ it with Some _ => true | None => false end.

(** [assert(Valid())] followed by a use of [node_]. *)
Definition valid_node (it : Iterator) : outcome Z :=
  match node_ it with
  | Some a => Ret a
  | None => if NDEBUG then Undef else Abort
  end.

Definition Iterator_key sl (it : Iterator) : outcome Key :=
  a ←! valid_node it; Node_key sl a.

Definition Iterator_Next sl (it : Iterator) : outcome Iterator :=
  a ←! valid_node it;
  nx ←! Node_Next sl a 0;
  Ret (mkIterator nx).

Definition head_to_null sl (a : Z) : Iterator :=
  if a =? head_ sl then mkIterator None else mkIterator (Some a).

Definition Iterator_Prev sl (it : Iterator) : outcome Iterator :=
  a ←! valid_node it;
  k ←! Node_key sl a;
  b ←! FindLessThan sl k;
  Ret (head_to_null sl b).

Definition Seek sl (target : Key) : outcome Iterator :=
  '(x, _) ←! FindGreaterOrEqual sl target None; Ret (mkIterator x).

Definition SeekToFirst sl : outcome Iterator :=
  nx ←! Node_Next sl (head_ sl) 0; Ret (mkIterator nx).

Definition SeekToLast sl : outcome Iterator :=
  a ←! FindLast sl; Ret (head_to_null sl a).
End ops.

(** ** The representation invariant *)

Definition tall (lev : Z → nat) (i : nat) (a : Z) : Prop := (i < lev a)%nat.

#[export] Instance tall_dec lev i a : Decision (tall lev i a).
Proof. unfold tall. apply _. Defined.

Section inv.
Context {Key : Type} `{ComparatorSpec Key}.
Context (key0 : Key).
Implicit Types (sl : SkipList Key) (l : list Z) (lev : Z → nat).

Definition key_at sl (a : Z) : Key :=
  match nodes sl !! a with Some nd => key nd | None => key0 end.

Definition kle sl (a b : Z) : Prop := compare_ (key_at sl a) (key_at sl b) ≤ 0.
Definition klt sl (k : Key) (a : Z) : Prop := compare_ (key_at sl a) k < 0.

#[export] Instance klt_dec sl k a : Decision (klt sl k a).
Proof. unfold klt. apply _. Defined.

(** The link of node [a] at level [i], and the number of its links. *)
Definition link sl (a : Z) (i : nat) : option slot :=
  nd ← nodes sl !! a; next_ nd !! i.

Definition node_height sl (a : Z) : option nat :=
  nd ← nodes sl !! a; Some (length (next_ nd)).

(** [l] are the nodes in order, [lev a] the number of levels at which [a] is
    linked; a node of level 0 has its place in the order but is not linked
    yet. *)
Record sl_pre sl l lev : Prop := {
  si_nodup : NoDup (head_ sl :: l);
  si_nodes a : a ∈ head_ sl :: l →
    ∃ h, node_height sl a = Some h ∧ (lev a ≤ h)%nat;
  si_head : lev (head_ sl) = kMaxHeight;
  si_height : (1 ≤ max_height_ sl ≤ kMaxHeight)%nat;
  si_levels a : a ∈ l → (lev a ≤ max_height_ sl)%nat;
  si_link p x s i :
    head_ sl :: l = p ++ x :: s → tall lev i x →
    link sl x i = Some (slot_of (head (filter (tall lev i) s)));
  si_sorted : StronglySorted (kle sl) l;
}.

Record sl_inv sl l lev : Prop := {
  si_pre :> sl_pre sl l lev;
  si_linked a : a ∈ l → (1 ≤ lev a)%nat;
}.

Lemma head_filter_Some (P : Z → Prop) `{∀ x, Decision (P x)} l y :
  head (filter P l) = Some y →
  ∃ l1 l2, l = l1 ++ y :: l2 ∧ P y ∧ Forall (λ z, ¬ P z) l1.
Proof.
  induction l as [|z l IH]; [done|]. rewrite filter_cons. destruct (decide (P z)).
  - intros [= ->]. by exists [], l.
  - intros (l1 & l2 & -> & Hy & Hl1)%IH. exists (z :: l1), l2. auto.
Qed.

Lemma Node_Next_inv sl l lev p x s i :
  sl_inv sl l lev → head_ sl :: l = p ++ x :: s → tall lev i x →
  Node_Next sl x i = Ret (head (filter (tall lev i) s)).
Proof.
  intros Hinv Heq Ht. pose proof (si_link _ _ _ Hinv _ _ _ _ Heq Ht) as Hl.
  unfold Node_Next, link in *. destruct (nodes sl !! x) as [nd|]; [|done].
  simpl in *. rewrite Hl. by destruct (head _).
Qed.

Lemma Node_key_inv sl l lev a :
  sl_inv sl l lev → a ∈ head_ sl :: l → Node_key sl a = Ret (key_at sl a).
Proof.
  intros Hinv Ha. destruct (si_nodes _ _ _ Hinv a Ha) as (h & Hnd & _).
  unfold Node_key, key_at, node_height in *. by destruct (nodes sl !! a).
Qed.

Lemma tall_0 sl l lev a : sl_inv sl l lev → a ∈ head_ sl :: l → tall lev 0 a.
Proof.
  intros Hinv [->|Ha]%elem_of_cons; unfold tall.
  - rewrite (si_head _ _ _ Hinv). unfold kMaxHeight. lia.
  - pose proof (si_linked _ _ _ Hinv a Ha). lia.
Qed.

Lemma filter_tall_0 sl l lev p s :
  sl_inv sl l lev → head_ sl :: l = p ++ s → filter (tall lev 0) s = s.
Proof.
  intros Hinv Heq. apply filter_all, Forall_forall. intros a Ha.
  eapply tall_0; [done|]. rewrite Heq. apply elem_of_app. auto.
Qed.

(** Nodes before a node that is below [k] are below [k]. *)
Lemma klt_before sl l lev k p x s :
  sl_inv sl l lev → head_ sl :: l = p ++ x :: s → klt sl k x →
  Forall (klt sl k) (tail p).
Proof.
  intros Hinv Heq Hx. destruct p as [|h p]; [constructor|]. simpl in *.
  injection Heq as _ Hl. pose proof (si_sorted _ _ _ Hinv) as Hs. rewrite Hl in Hs.
  apply StronglySorted_app in Hs as (Hs & _ & _).
  apply Forall_forall. intros a Ha. eapply compare_le_lt; [|exact Hx].
  apply (Hs a x); [done|by left].
Qed.

(** Nodes after a node that is not below [k] are not below [k]. *)
Lemma not_klt_after sl l lev k p x s :
  sl_inv sl l lev → l = p ++ x :: s → ¬ klt sl k x →
  Forall (λ a, ¬ klt sl k a) (x :: s).
Proof.
  intros Hinv Hl Hx. pose proof (si_sorted _ _ _ Hinv) as Hs. rewrite Hl in Hs.
  apply StronglySorted_app in Hs as (_ & _ & Hs).
  apply StronglySorted_inv in Hs as [_ Hs].
  constructor; [done|]. eapply Forall_impl; [exact Hs|].
  intros a Ha. by eapply compare_ge_le.
Qed.

(** ** The searches *)

(** The fuel is enough. *)
Lemma search_fuel_enough sl l lev :
  sl_inv sl l lev → (length l + (GetMaxHeight sl - 1) < search_fuel sl)%nat.
Proof.
  intros Hinv. unfold search_fuel, GetMaxHeight. pose proof (si_height _ _ _ Hinv).
  assert (Hsz : (length (head_ sl :: l) ≤ size (nodes sl))%nat).
  { rewrite <-size_dom, <-(size_list_to_set (C := gset Z)) by apply (si_nodup _ _ _ Hinv).
    apply subseteq_size. intros a Ha%elem_of_list_to_set.
    destruct (si_nodes _ _ _ Hinv a Ha) as (h & Hnd & _). apply elem_of_dom.
    unfold node_height in Hnd. by destruct (nodes sl !! a). }
  simpl in Hsz. lia.
Qed.

(** What a search knows when it stands at [x] on some level: [s] are the nodes
    after [x], and [x] is the head or has a key below [k]. *)
Definition at_node sl l k p x s : Prop :=
  head_ sl :: l = p ++ x :: s ∧ (x = head_ sl ∨ klt sl k x).

Lemma at_head sl l k : at_node sl l k [] (head_ sl) l.
Proof. split; auto. Qed.

Lemma at_node_forward sl l k p x s1 y s2 :
  at_node sl l k p x (s1 ++ y :: s2) → klt sl k y → at_node sl l k (p ++ x :: s1) y s2.
Proof. intros [Heq _] Hy. split; [|auto]. by rewrite <-app_assoc. Qed.

(** The position of [k]: everything before is below [k], the rest is not. *)
Definition splits sl k (a b : list Z) : Prop :=
  Forall (klt sl k) a ∧ Forall (λ z, ¬ klt sl k z) b.

Lemma at_node_splits sl l lev k p x s :
  sl_inv sl l lev → at_node sl l k p x s →
  (∀ y, head s = Some y → ¬ klt sl k y) →
  ∃ a, head_ sl :: a = p ++ [x] ∧ l = a ++ s ∧ splits sl k a s.
Proof.
  intros Hinv [Heq Hx] Hs. exists (tail (p ++ [x])).
  assert (Hpx : head_ sl :: tail (p ++ [x]) = p ++ [x]).
  { destruct p; simpl in *; by injection Heq as -> _. }
  assert (Hl : l = tail (p ++ [x]) ++ s).
  { rewrite cons_middle, app_assoc, <-Hpx in Heq. by injection Heq. }
  split_and!; [done|done|]. split.
  - destruct Hx as [->|Hx].
    + destruct p as [|h p]; [constructor|]. simpl in Heq. injection Heq as Hh Hl'.
      pose proof (si_nodup _ _ _ Hinv) as Hnd. apply NoDup_cons in Hnd as [Hnd _].
      exfalso. apply Hnd. rewrite Hl'. apply elem_of_app. right. by left.
    + pose proof (klt_before _ _ _ _ _ _ _ Hinv Heq Hx) as Hb.
      destruct p as [|h p]; simpl in *; [constructor|].
      apply Forall_app. split; [done|]. by constructor.
  - destruct s as [|y s]; [constructor|]. eapply not_klt_after; [done|exact Hl|auto].
Qed.

Lemma splits_unique sl k a b a' b' :
  splits sl k a b → splits sl k a' b' → a ++ b = a' ++ b' → a = a' ∧ b = b'.
Proof.
  intros [Ha Hb] [Ha' Hb'] Heq.
  revert a' Ha' Heq. induction Ha as [|x a Hx _ IH]; intros [|x' a'] Ha' Heq; simpl in *.
  - done.
  - subst b. apply Forall_cons in Ha' as [? _]. apply Forall_cons in Hb as [? _]. done.
  - subst b'. apply Forall_cons in Hb' as [? _]. done.
  - injection Heq as -> Heq. apply Forall_cons in Ha' as [_ Ha'].
    destruct (IH _ Ha' Heq) as [-> ->]. done.
Qed.

(** Reading a link: the next node of this height, or the end. *)
Lemma next_tall_cases sl l lev k p x s i :
  sl_inv sl l lev → at_node sl l k p x s → tall lev i x →
  Node_Next sl x i = Ret (head (filter (tall lev i) s)) ∧
  match head (filter (tall lev i) s) with
  | None => Forall (λ z, ¬ tall lev i z) s
  | Some y => ∃ s1 s2, s = s1 ++ y :: s2 ∧ tall lev i y ∧ Forall (λ z, ¬ tall lev i z) s1 ∧
                Node_key sl y = Ret (key_at sl y)
  end.
Proof.
  intros Hinv [Heq _] Ht. split; [by eapply Node_Next_inv|].
  destruct (head _) as [y|] eqn:E.
  - destruct (head_filter_Some _ _ _ E) as (s1 & s2 & -> & Hy & Hs1).
    exists s1, s2. split_and!; auto. eapply Node_key_inv; [done|].
    rewrite Heq, app_comm_cons, app_assoc. apply elem_of_app. right. by left.
  - apply Forall_forall. intros z Hz Htz.
    assert (z ∈ filter (tall lev i) s) as Hin by (by apply list_elem_of_filter).
    destruct (filter (tall lev i) s); [by apply not_elem_of_nil in Hin|done].
Qed.

Definition prev_post lev (A : list Z) (level : nat) (prev prev' : option (list slot)) : Prop :=
  match prev, prev' with
  | None, None => True
  | Some P, Some P' =>
      length P' = length P ∧
      (∀ i, (i ≤ level)%nat →
        ∃ z, last (filter (tall lev i) A) = Some z ∧ P' !! i = Some (At z)) ∧
      (∀ i, (level < i)%nat → P' !! i = P !! i)
  | _, _ => False
  end.

Lemma tall_max sl l lev p x s i :
  sl_inv sl l lev → head_ sl :: l = p ++ x :: s → tall lev i x → (i < kMaxHeight)%nat.
Proof.
  intros Hinv Heq Ht. assert (Hx : x ∈ head_ sl :: l).
  { rewrite Heq. apply elem_of_app. right. by left. }
  apply elem_of_cons in Hx as [->|Hx]; unfold tall in Ht.
  - by rewrite (si_head _ _ _ Hinv) in Ht.
  - pose proof (si_levels _ _ _ Hinv x Hx). pose proof (si_height _ _ _ Hinv). lia.
Qed.

Lemma last_filter_tall lev i p x s1 :
  tall lev i x → Forall (λ z, ¬ tall lev i z) s1 →
  last (filter (tall lev i) (p ++ x :: s1)) = Some x.
Proof.
  intros Hx Hs1. rewrite filter_app, filter_cons_True, (filter_none _ s1) by done.
  apply last_snoc.
Qed.

(** Writing [prev[level]] when the search leaves the level. *)
Lemma set_prev_spec level x (prev : option (list slot)) :
  (level < kMaxHeight)%nat → (∀ P, prev = Some P → length P = kMaxHeight) →
  ∃ prev', set_prev prev level x = Ret prev' ∧
    (∀ P', prev' = Some P' → length P' = kMaxHeight) ∧
    match prev, prev' with
    | None, None => True
    | Some P, Some P' => P' = <[level := At x]> P
    | _, _ => False
    end.
Proof.
  intros Hl HP. destruct prev as [P|]; simpl.
  - destruct (lookup_lt_is_Some_2 P level) as [v Hv]; [rewrite HP; done|].
    rewrite Hv. simpl. eexists. split_and!; [done| |done].
    intros ? [= <-]. rewrite length_insert. auto.
  - by exists None.
Qed.

Lemma prev_post_drop lev A level x (prev prev1 prev' : option (list slot)) :
  last (filter (tall lev level) A) = Some x →
  (∀ P, prev = Some P → (level < length P)%nat) →
  match prev, prev1 with
  | None, None => True
  | Some P, Some P' => P' = <[level := At x]> P
  | _, _ => False
  end →
  match level with
  | O => prev' = prev1
  | S l' => prev_post lev A l' prev1 prev'
  end →
  prev_post lev A level prev prev'.
Proof.
  intros Hlast HP H1 H2. destruct prev as [P|], prev1 as [P1|]; try done.
  - subst P1. specialize (HP P eq_refl).
    assert (Hsame : ∀ i, (level < i)%nat → <[level:=At x]> P !! i = P !! i).
    { intros i Hi. apply list_lookup_insert_ne. lia. }
    destruct level as [|l'].
    + subst prev'. simpl. split_and!; [apply length_insert| |done].
      intros i Hi. assert (i = 0%nat) as -> by lia. exists x. split; [done|].
      by apply list_lookup_insert_eq.
    + destruct prev' as [P'|]; [|done]. destruct H2 as (Hlen & Hlow & Hhigh).
      simpl. split_and!.
      * by rewrite Hlen, length_insert.
      * intros i Hi. destruct (decide (i = S l')) as [->|]; [|apply Hlow; lia].
        exists x. split; [done|]. rewrite Hhigh by lia. by apply list_lookup_insert_eq.
      * intros i Hi. rewrite Hhigh by lia. by apply Hsame.
  - destruct level; subst; done.
Qed.

(** When no node of this height follows below [k], the search drops a level, and
    [x] is the last node of this height before the position of [k]. *)
Lemma drop_last sl lev k level p x s1 b :
  tall lev level x → Forall (klt sl k) s1 →
  (∀ y, head (filter (tall lev level) (s1 ++ b)) = Some y → ¬ klt sl k y) →
  last (filter (tall lev level) (p ++ x :: s1)) = Some x.
Proof.
  intros Hx Hs1 Hnext. apply last_filter_tall; [done|]. apply Forall_forall.
  intros z Hz Htz. rewrite filter_app in Hnext.
  destruct (filter (tall lev level) s1) as [|y fs] eqn:E.
  - assert (z ∈ filter (tall lev level) s1) as Hin by (by apply list_elem_of_filter).
    rewrite E in Hin. by apply not_elem_of_nil in Hin.
  - apply (Hnext y); [done|]. rewrite Forall_forall in Hs1. apply Hs1.
    assert (y ∈ filter (tall lev level) s1) as Hin by (rewrite E; by left).
    by apply list_elem_of_filter in Hin as [_ ?].
Qed.

Lemma FindGreaterOrEqual_loop_spec sl l lev k fuel p x s level prev :
  sl_inv sl l lev → at_node sl l k p x s → tall lev level x →
  (length s + level < fuel)%nat →
  (∀ P, prev = Some P → length P = kMaxHeight) →
  ∃ s1 b prev',
    FindGreaterOrEqual_loop fuel sl k x level prev = Ret (head b, prev') ∧
    s = s1 ++ b ∧ Forall (klt sl k) s1 ∧ (∀ y, head b = Some y → ¬ klt sl k y) ∧
    prev_post lev (p ++ x :: s1) level prev prev'.
Proof.
  intros Hinv. revert p x s level prev.
  induction fuel as [|fuel IH]; intros p x s level prev Hat Ht Hfuel HP; [lia|].
  destruct (next_tall_cases _ _ _ _ _ _ _ _ Hinv Hat Ht) as [Hnext Hcases].
  pose proof (tall_max _ _ _ _ _ _ _ Hinv (proj1 Hat) Ht) as Hmax.
  cbn [FindGreaterOrEqual_loop]. rewrite Hnext. cbn [obind].
  set (nx := head (filter (tall lev level) s)) in *.
  assert (Hafter : ∃ b, KeyIsAfterNode sl k nx = Ret b ∧
            (b = true ↔ ∃ y, nx = Some y ∧ klt sl k y)).
  { destruct nx as [y|]; simpl; [|exists false; split; [done|naive_solver]].
    destruct Hcases as (s1 & s2 & _ & _ & _ & ->). simpl. eexists. split; [done|].
    rewrite Z.ltb_lt. unfold klt. naive_solver. }
  destruct Hafter as (b & -> & Hb). cbn [obind]. destruct b.
  - destruct (proj1 Hb eq_refl) as (y & Hy & Hyk). rewrite Hy in *. simpl.
    destruct Hcases as (s1 & s2 & -> & Hty & Hs1 & _).
    rewrite length_app in Hfuel. simpl in Hfuel.
    pose proof (at_node_forward _ _ _ _ _ _ _ _ Hat Hyk) as Hat'.
    destruct (IH _ y s2 level prev Hat' Hty ltac:(lia) HP)
      as (t1 & b & prev' & -> & -> & Ht1 & Hb' & Hpost).
    exists (s1 ++ y :: t1), b, prev'. split_and!; auto.
    + by rewrite <-app_assoc.
    + pose proof (klt_before _ _ _ _ _ _ _ Hinv (proj1 Hat') Hyk) as Hbefore.
      destruct p as [|h p]; simpl in Hbefore.
      * apply Forall_app. split; [done|]. by constructor.
      * apply Forall_app in Hbefore as [_ Hbefore]. apply Forall_cons in Hbefore as [_ ?].
        apply Forall_app. split; [done|]. by constructor.
    + by rewrite <-app_assoc in Hpost.
  - assert (Hno : ∀ y, nx = Some y → ¬ klt sl k y).
    { intros y Hy Hk. assert (false = true) by (apply Hb; eauto). done. }
    destruct (set_prev_spec level x prev Hmax HP) as (prev1 & -> & HP1 & Hset).
    cbn [obind].
    assert (HPl : ∀ P, prev = Some P → (level < length P)%nat).
    { intros P ->. by rewrite (HP P eq_refl). }
    destruct level as [|l'].
    + exists [], s, prev1. unfold nx. unfold nx in Hno.
      erewrite (filter_tall_0 sl l lev (p ++ [x])) in * by
        (try exact Hinv; rewrite <-app_assoc; apply Hat).
      split_and!; auto. eapply prev_post_drop; [|exact HPl|exact Hset|done].
      by apply last_filter_tall.
    + assert (Ht' : tall lev l' x) by (unfold tall in *; lia).
      destruct (IH p x s l' prev1 Hat Ht' ltac:(lia) HP1)
        as (s1 & b & prev' & -> & -> & Hs1 & Hb' & Hpost).
      exists s1, b, prev'. split_and!; auto.
      eapply prev_post_drop; [|exact HPl|exact Hset|exact Hpost].
      eapply drop_last; [done|exact Hs1|exact Hno].
Qed.

Lemma FindGreaterOrEqual_inv sl l lev k prev :
  sl_inv sl l lev → (∀ P, prev = Some P → length P = kMaxHeight) →
  ∃ a b prev',
    FindGreaterOrEqual sl k prev = Ret (head b, prev') ∧ l = a ++ b ∧ splits sl k a b ∧
    prev_post lev (head_ sl :: a) (GetMaxHeight sl - 1) prev prev'.
Proof.
  intros Hinv HP. pose proof (at_head sl l k) as Hat.
  assert (Ht : tall lev (GetMaxHeight sl - 1) (head_ sl)).
  { unfold tall, GetMaxHeight. rewrite (si_head _ _ _ Hinv).
    pose proof (si_height _ _ _ Hinv). lia. }
  pose proof (search_fuel_enough _ _ _ Hinv) as Hfuel.
  destruct (FindGreaterOrEqual_loop_spec _ _ _ _ _ _ _ _ _ prev Hinv Hat Ht Hfuel HP)
    as (s1 & b & prev' & Heq & Hl & Hs1 & Hb & Hpost).
  exists s1, b, prev'. split_and!; [exact Heq|done| |exact Hpost].
  split; [done|]. destruct b as [|y b]; [constructor|].
  eapply not_klt_after; [done|exact Hl|auto].
Qed.

(** ** Updates *)

Lemma Node_SetNext_spec sl x n v h :
  node_height sl x = Some h → (n < h)%nat →
  ∃ sl', Node_SetNext sl x n v = Ret sl' ∧
    head_ sl' = head_ sl ∧ max_height_ sl' = max_height_ sl ∧ rnd_ sl' = rnd_ sl ∧
    (∀ a, node_height sl' a = node_height sl a) ∧
    (∀ a, key_at sl' a = key_at sl a) ∧
    (∀ a i, link sl' a i =
       if decide (a = x ∧ i = n) then Some (slot_of v) else link sl a i).
Proof.
  unfold node_height, Node_SetNext. intros Hh Hn.
  destruct (nodes sl !! x) as [nd|] eqn:Hx; simplify_eq/=.
  destruct (lookup_lt_is_Some_2 (next_ nd) n Hn) as [w Hw]. rewrite Hw. simpl.
  eexists. split; [done|]. simpl. split_and!; auto.
  - intros a. unfold node_height. simpl. destruct (decide (a = x)) as [->|].
    + rewrite lookup_insert_eq, Hx. simpl. by rewrite length_insert.
    + by rewrite lookup_insert_ne.
  - intros a. unfold key_at. simpl. destruct (decide (a = x)) as [->|].
    + by rewrite lookup_insert_eq, Hx.
    + by rewrite lookup_insert_ne.
  - intros a i. unfold link. simpl. destruct (decide (a = x)) as [->|].
    + rewrite lookup_insert_eq, Hx. simpl. destruct (decide (i = n)) as [->|].
      * rewrite decide_True by done. by apply list_lookup_insert_eq.
      * rewrite decide_False by naive_solver. by apply list_lookup_insert_ne.
    + rewrite lookup_insert_ne by done. by rewrite decide_False by naive_solver.
Qed.

Lemma Node_Next_link sl x i o :
  link sl x i = Some (slot_of o) → Node_Next sl x i = Ret o.
Proof.
  unfold link, Node_Next. destruct (nodes sl !! x); simpl; [|done].
  intros ->. by destruct o.
Qed.

(** One more level of node [x]. *)
Definition set_lev lev (x : Z) (n : nat) : Z → nat :=
  λ z, if decide (z = x) then n else lev z.

Lemma tall_set_lev_ne lev x j i z :
  lev x = j → i ≠ j → tall (set_lev lev x (S j)) i z ↔ tall lev i z.
Proof.
  intros Hj Hi. unfold tall, set_lev. destruct (decide (z = x)) as [->|]; [|done]. lia.
Qed.

Lemma tall_set_lev_other lev x n i z :
  z ≠ x → tall (set_lev lev x n) i z ↔ tall lev i z.
Proof. intros Hz. unfold tall, set_lev. by rewrite decide_False. Qed.

Lemma filter_tall_ext lev lev' i l :
  (∀ z, z ∈ l → tall lev i z ↔ tall lev' i z) →
  filter (tall lev i) l = filter (tall lev' i) l.
Proof.
  induction l as [|z l IH]; intros Heq; [done|]. rewrite !filter_cons.
  rewrite IH by (intros w Hw; apply Heq; by right).
  specialize (Heq z ltac:(by left)).
  destruct (decide (tall lev i z)), (decide (tall lev' i z)); tauto || done.
Qed.

(** The three places a node can have in [h ++ x :: b]. *)
Lemma decompose_mid (h b p s : list Z) x y :
  h ++ x :: b = p ++ y :: s →
  (∃ s3, h = p ++ y :: s3 ∧ s = s3 ++ x :: b) ∨
  (y = x ∧ s = b ∧ p = h) ∨
  (∃ b1, p = h ++ x :: b1 ∧ b = b1 ++ y :: s).
Proof.
  intros [(k & Hh & Hk)|(k & Hp & Hk)]%app_eq_inv.
  - destruct k as [|z k]; simplify_list_eq; [right; left; done|left; eauto].
  - destruct k as [|z k]; simplify_list_eq; [right; left; done|right; right; eauto].
Qed.

Lemma last_filter_decompose lev j (h : list Z) z :
  last (filter (tall lev j) h) = Some z →
  ∃ p s, h = p ++ z :: s ∧ tall lev j z ∧ filter (tall lev j) s = [].
Proof.
  induction h as [|w h IH]; [done|]. rewrite filter_cons.
  destruct (decide (tall lev j w)) as [Hw|Hw].
  - destruct (filter (tall lev j) h) as [|v f] eqn:E.
    + intros [= ->]. by exists [], h.
    + rewrite last_cons_cons. intros (p & s & -> & ? & ?)%IH. by exists (w :: p), s.
  - intros (p & s & -> & ? & ?)%IH. by exists (w :: p), s.
Qed.

(** *** Linking one level

    [x] has its place in the sequence and is linked below level [j]; [z] is the
    last node before it that is linked at level [j].  After the two stores of a
    loop iteration, the invariant holds with [x] one level higher. *)
Section link_step.
Context (sl sl' : SkipList Key) (l : list Z) (lev : Z → nat) (a b : list Z) (x z : Z) (j : nat).
Hypothesis Hpre : sl_pre sl l lev.
Hypothesis Hl : l = a ++ x :: b.
Hypothesis Hj : lev x = j.
Hypothesis Hz : last (filter (tall lev j) (head_ sl :: a)) = Some z.
Hypothesis Hhead : head_ sl' = head_ sl.
Hypothesis Hlink : ∀ w i, link sl' w i =
  if decide (w = z ∧ i = j) then Some (At x)
  else if decide (w = x ∧ i = j) then Some (slot_of (head (filter (tall lev j) b)))
  else link sl w i.

#[local] Abbreviation lev' := (set_lev lev x (S j)).

Lemma step_nodup : NoDup ((head_ sl :: a) ++ x :: b).
Proof. pose proof (si_nodup _ _ _ Hpre) as Hnd. by rewrite Hl in Hnd. Qed.

Lemma step_x_fresh : x ∉ b ∧ x ∉ head_ sl :: a.
Proof.
  pose proof step_nodup as (_ & Hnd & Hxb)%NoDup_app. apply NoDup_cons in Hxb as [? _].
  split; [done|]. intros Hin. apply (Hnd x Hin). by left.
Qed.

Lemma step_filter_other (k : list Z) : x ∉ k → filter (tall lev' j) k = filter (tall lev j) k.
Proof.
  intros Hx. apply filter_tall_ext. intros w Hw. apply tall_set_lev_other. by intros ->.
Qed.

Lemma step_z : z ≠ x ∧ z ∉ b ∧
  ∀ p s, head_ sl :: a = p ++ z :: s → filter (tall lev j) s = [].
Proof.
  destruct (last_filter_decompose _ _ _ _ Hz) as (pz & sz & Hhz & Htz & Hsz).
  assert (Hin : z ∈ head_ sl :: a).
  { rewrite Hhz. apply elem_of_app. right. by left. }
  pose proof step_nodup as (Hnd & Hdis & _)%NoDup_app. split_and!.
  - intros ->. by apply step_x_fresh.
  - intros Hb. apply (Hdis z Hin). by right.
  - intros p s Heq. rewrite Hhz in Hnd, Heq.
    destruct (NoDup_mid_inj _ _ _ _ _ Hnd Heq) as [_ <-]. done.
Qed.

(** A node before [x]: its link changes only if it is [z]. *)
Lemma step_before p y s3 :
  head_ sl :: a = p ++ y :: s3 → tall lev j y →
  link sl' y j = Some (slot_of (head (filter (tall lev' j) (s3 ++ x :: b)))).
Proof.
  intros Hh Hty. destruct step_x_fresh as [_ Hxa]. destruct step_z as (_ & _ & Hzs).
  assert (y ≠ x ∧ x ∉ s3) as [Hyx Hxs3].
  { rewrite Hh, not_elem_of_app, not_elem_of_cons in Hxa. naive_solver. }
  rewrite filter_app, step_filter_other, filter_cons_True
    by (done || (unfold tall, set_lev; rewrite decide_True by done; lia)).
  destruct (filter (tall lev j) s3) as [|w f] eqn:Hf.
  - assert (y = z) as ->.
    { rewrite Hh, filter_app, filter_cons_True, Hf, last_snoc in Hz by done. congruence. }
    rewrite Hlink, decide_True by done. done.
  - assert (y ≠ z) as Hyz by (intros ->; specialize (Hzs _ _ Hh); congruence).
    rewrite Hlink, decide_False, decide_False by naive_solver.
    assert (Hold : head_ sl :: l = p ++ y :: (s3 ++ x :: b)).
    { by rewrite Hl, app_comm_cons, Hh, <-app_assoc. }
    rewrite (si_link _ _ _ Hpre _ _ _ j Hold Hty), filter_app, Hf. done.
Qed.

Lemma step_after b1 y s :
  b = b1 ++ y :: s → tall lev j y →
  link sl' y j = Some (slot_of (head (filter (tall lev' j) s))).
Proof.
  intros Hb1 Hty. destruct step_x_fresh as [Hxb _]. destruct step_z as (_ & Hzb & _).
  assert (y ≠ x ∧ y ≠ z ∧ x ∉ s) as (Hyx & Hyz & Hxs).
  { rewrite Hb1, not_elem_of_app, not_elem_of_cons in Hxb, Hzb. naive_solver. }
  rewrite Hlink, decide_False, decide_False, step_filter_other by naive_solver.
  apply (si_link _ _ _ Hpre ((head_ sl :: a) ++ x :: b1)); [|done].
  rewrite Hl, Hb1. simpl. by rewrite <-app_assoc.
Qed.

Lemma step_links p y s i :
  head_ sl' :: l = p ++ y :: s → tall lev' i y →
  link sl' y i = Some (slot_of (head (filter (tall lev' i) s))).
Proof.
  intros Heq Hty. rewrite Hhead in Heq. destruct (decide (i = j)) as [->|Hij].
  2:{ rewrite Hlink, decide_False, decide_False by naive_solver.
      rewrite (filter_tall_ext _ lev) by (intros; by apply tall_set_lev_ne).
      apply (si_link _ _ _ Hpre p); [done|]. by apply (tall_set_lev_ne lev x j i y). }
  rewrite Hl, app_comm_cons in Heq. destruct step_x_fresh as [Hxb Hxa].
  destruct (decompose_mid _ _ _ _ _ _ Heq) as [(s3 & Hh & ->)|[(-> & -> & ->)|(b1 & -> & Hb1)]].
  - apply (step_before p); [done|]. apply tall_set_lev_other in Hty; [done|].
    intros ->. apply Hxa. rewrite Hh. apply elem_of_app. right. by left.
  - destruct step_z as [Hzx _].
    rewrite Hlink, decide_False, decide_True by naive_solver.
    by rewrite step_filter_other.
  - apply (step_after b1); [done|]. apply tall_set_lev_other in Hty; [done|].
    intros ->. apply Hxb. rewrite Hb1. apply elem_of_app. right. by left.
Qed.
End link_step.

(** Facts that no store to a link changes. *)
Definition same_nodes sl sl' : Prop :=
  head_ sl' = head_ sl ∧ max_height_ sl' = max_height_ sl ∧ rnd_ sl' = rnd_ sl ∧
  (∀ a, node_height sl' a = node_height sl a) ∧
  (∀ a, key_at sl' a = key_at sl a).

#[export] Instance same_nodes_preorder : PreOrder same_nodes.
Proof.
  split; [by intros ?; split_and!|].
  intros x y z (? & ? & ? & ? & ?) (? & ? & ? & ? & ?). split_and!; congruence.
Qed.

Lemma StronglySorted_impl {A} (R R' : A → A → Prop) (k : list A) :
  (∀ x y, R x y → R' x y) → StronglySorted R k → StronglySorted R' k.
Proof.
  intros HR. induction 1 as [|x k Hs IH Hx]; constructor; [done|].
  eapply Forall_impl; [exact Hx|]. auto.
Qed.

(** The loop body of [Insert] at level [j]. *)
Lemma link_level_inv sl l lev a b x z j h prev :
  sl_pre sl l lev → l = a ++ x :: b → lev x = j →
  node_height sl x = Some h → (j < h ≤ max_height_ sl)%nat →
  last (filter (tall lev j) (head_ sl :: a)) = Some z →
  prev !! j = Some (At z) →
  ∃ sl', link_level x prev j sl = Ret sl' ∧ same_nodes sl sl' ∧
    sl_pre sl' l (set_lev lev x (S j)).
Proof.
  intros Hpre Hl Hj Hh Hjh Hz Hprev. unfold link_level. rewrite Hprev. cbn [slot_load deref obind].
  destruct (last_filter_decompose _ _ _ _ Hz) as (pz & sz & Hhz & Htz & Hsz).
  assert (Hlz : link sl z j = Some (slot_of (head (filter (tall lev j) b)))).
  { rewrite (si_link _ _ _ Hpre pz z (sz ++ x :: b) j); [|by rewrite Hl, app_comm_cons, Hhz, <-app_assoc|done].
    rewrite filter_app, Hsz, filter_cons_False; [done|]. unfold tall. lia. }
  unfold NoBarrier_Next. rewrite (Node_Next_link _ _ _ _ Hlz). cbn [obind].
  unfold NoBarrier_SetNext.
  destruct (Node_SetNext_spec sl x j (head (filter (tall lev j) b)) h Hh ltac:(lia))
    as (sl1 & -> & Hhd1 & Hm1 & Hr1 & Hnh1 & Hk1 & Hl1). cbn [obind].
  assert (Hzin : z ∈ head_ sl :: l).
  { rewrite Hl, app_comm_cons, Hhz. apply elem_of_app. left. apply elem_of_app. right. by left. }
  destruct (si_nodes _ _ _ Hpre z Hzin) as (hz & Hhz' & Hlevz).
  destruct (Node_SetNext_spec sl1 z j (Some x) hz ltac:(by rewrite Hnh1) ltac:(unfold tall in Htz; lia))
    as (sl2 & -> & Hhd2 & Hm2 & Hr2 & Hnh2 & Hk2 & Hl2).
  exists sl2. split; [done|]. split.
  { split_and!; try congruence; intros w; by rewrite ?Hnh2, ?Hk2. }
  assert (Hxh : x ≠ head_ sl).
  { pose proof (step_x_fresh sl l lev a b x Hpre Hl) as [_ Hx]. set_solver. }
  split.
  - rewrite Hhd2, Hhd1. apply Hpre.
  - rewrite Hhd2, Hhd1. intros w Hw. rewrite Hnh2, Hnh1. unfold set_lev.
    destruct (decide (w = x)) as [->|]; [|by apply Hpre]. exists h. split; [done|lia].
  - rewrite Hhd2, Hhd1. unfold set_lev. rewrite decide_False by done. apply Hpre.
  - rewrite Hm2, Hm1. apply Hpre.
  - intros w Hw. rewrite Hm2, Hm1. unfold set_lev.
    destruct (decide (w = x)); [lia|by apply Hpre].
  - apply (step_links sl sl2 l lev a b x z j Hpre Hl Hj Hz ltac:(congruence)).
    intros w i. rewrite Hl2. destruct (decide (w = z ∧ i = j)); [done|]. apply Hl1.
  - eapply StronglySorted_impl; [|apply Hpre]. intros u v. unfold kle. by rewrite !Hk2, !Hk1.
Qed.

Lemma sl_pre_ext sl l lev lev' :
  (∀ z, lev z = lev' z) → sl_pre sl l lev → sl_pre sl l lev'.
Proof.
  intros Heq [H1 H2 H3 H4 H5 H6 H7].
  assert (Ht : ∀ i z, tall lev i z ↔ tall lev' i z) by (intros; unfold tall; by rewrite Heq).
  split; auto.
  - intros a Ha. rewrite <-Heq. auto.
  - by rewrite <-Heq.
  - intros a Ha. rewrite <-Heq. auto.
  - intros p x s i Hp Hti. rewrite (H6 p x s i Hp) by (by apply Ht).
    by rewrite (filter_tall_ext lev lev').
Qed.

(** The linking loop of [Insert]. *)
Lemma link_levels_inv sl l lev a b x h prev n :
  sl_pre sl l lev → l = a ++ x :: b → lev x = 0%nat →
  node_height sl x = Some h → (n ≤ h ≤ max_height_ sl)%nat →
  (∀ i, (i < h)%nat →
     ∃ z, last (filter (tall lev i) (head_ sl :: a)) = Some z ∧ prev !! i = Some (At z)) →
  ∃ sl', link_levels n x prev sl = Ret sl' ∧ same_nodes sl sl' ∧ sl_pre sl' l (set_lev lev x n).
Proof.
  intros Hpre Hl Hx Hh Hn Hprev. induction n as [|n IH].
  { exists sl. split_and!; [done|reflexivity|]. eapply sl_pre_ext; [|exact Hpre].
    intros z. unfold set_lev. destruct (decide (z = x)) as [->|]; done. }
  destruct (IH ltac:(lia)) as (sl1 & Heq & Hsame & Hpre1). cbn [link_levels].
  rewrite Heq. cbn [obind]. destruct (Hprev n ltac:(lia)) as (z & Hz & Hpz).
  pose proof Hsame as (Hhd & Hm & _ & Hnh & _).
  destruct (step_x_fresh sl l lev a b x Hpre Hl) as [_ Hxa].
  destruct (link_level_inv sl1 l (set_lev lev x n) a b x z n h prev) as (sl2 & -> & Hsame2 & Hpre2);
    auto.
  - unfold set_lev. by rewrite decide_True.
  - by rewrite Hnh.
  - rewrite Hm. lia.
  - rewrite Hhd, (filter_tall_ext _ lev); [done|]. intros w Hw.
    apply tall_set_lev_other. by intros ->.
  - exists sl2. split_and!; [done|by etrans|]. eapply sl_pre_ext; [|exact Hpre2].
    intros w. unfold set_lev. by destruct (decide (w = x)).
Qed.

(** Giving a fresh node its place, before any link is set. *)
Lemma filter_skip lev x i (k1 k2 : list Z) :
  x ∉ k1 → x ∉ k2 →
  filter (tall (set_lev lev x 0) i) (k1 ++ x :: k2) = filter (tall lev i) (k1 ++ k2).
Proof.
  intros H1 H2. rewrite !filter_app, filter_cons_False
    by (unfold tall, set_lev; rewrite decide_True by done; lia).
  f_equal; apply filter_tall_ext; intros w Hw; apply tall_set_lev_other; by intros ->.
Qed.

Section place.
Context (sl : SkipList Key) (l a b : list Z) (lev : Z → nat) (x : Z) (k : Key) (h mh : nat) (r : Random).
Hypothesis Hinv : sl_inv sl l lev.
Hypothesis Hl : l = a ++ b.
Hypothesis Hx : nodes sl !! x = None.
Hypothesis Hsplit : splits sl k a b.
Hypothesis Hmh : (max_height_ sl ≤ mh ≤ kMaxHeight)%nat.

#[local] Abbreviation sl1 :=
  (mkSkipList (<[x := mkNode k (replicate h Uninit)]> (nodes sl)) (head_ sl) mh r).

Lemma place_not_in : x ∉ head_ sl :: l.
Proof.
  intros Hin. destruct (si_nodes _ _ _ Hinv x Hin) as (? & Hh & _).
  unfold node_height in Hh. by rewrite Hx in Hh.
Qed.

Lemma place_key_at y : y ≠ x → key_at sl1 y = key_at sl y.
Proof. intros Hy. unfold key_at. simpl. by rewrite lookup_insert_ne. Qed.

Lemma place_key_x : key_at sl1 x = k.
Proof. unfold key_at. simpl. by rewrite lookup_insert_eq. Qed.

Lemma place_sorted : StronglySorted (kle sl1) (a ++ x :: b).
Proof.
  pose proof place_not_in as Hnin. rewrite Hl in Hnin.
  pose proof (si_sorted _ _ _ Hinv) as Hs. rewrite Hl in Hs.
  destruct Hsplit as [Ha Hb]. rewrite Forall_forall in Ha, Hb.
  assert (Hne : ∀ y, y ∈ a ++ b → y ≠ x) by (intros y Hy ->; apply Hnin; by right).
  assert (Hs' : StronglySorted (kle sl1) (a ++ b)).
  { clear -Hs Hne. induction Hs as [|y c Hs IH Hy]; constructor.
    - apply IH. intros z Hz. apply Hne. by right.
    - rewrite Forall_forall in *. intros z Hz. unfold kle.
      rewrite !place_key_at; [by apply Hy|apply Hne; by right|apply Hne; by left]. }
  apply StronglySorted_app in Hs' as (Hs12 & Hs1 & Hs2).
  assert (Hxb : Forall (kle sl1 x) b).
  { apply Forall_forall. intros y Hy. unfold kle. rewrite place_key_x, place_key_at.
    - specialize (Hb y Hy). unfold klt in Hb. pose proof (compare_sym (key_at sl y) k).
      pose proof (compare_sym k (key_at sl y)). lia.
    - apply Hne, elem_of_app. auto. }
  apply StronglySorted_app_2; [|done|by constructor].
  intros y z Hy [->|Hz]%elem_of_cons; [|auto].
  unfold kle. rewrite place_key_x, place_key_at by (apply Hne, elem_of_app; auto).
  specialize (Ha y Hy). unfold klt in Ha. lia.
Qed.

Lemma place_links p y s i :
  head_ sl :: a ++ x :: b = p ++ y :: s → tall (set_lev lev x 0) i y →
  link sl1 y i = Some (slot_of (head (filter (tall (set_lev lev x 0) i) s))).
Proof.
  intros Heq Ht. pose proof place_not_in as Hnin. rewrite Hl in Hnin.
  assert (Hyx : y ≠ x).
  { intros ->. unfold tall, set_lev in Ht. rewrite decide_True in Ht by done. lia. }
  apply tall_set_lev_other in Ht; [|done].
  assert (Hlink : link sl1 y i = link sl y i).
  { unfold link. simpl. by rewrite lookup_insert_ne. }
  rewrite Hlink. rewrite app_comm_cons in Heq, Hnin.
  rewrite not_elem_of_app in Hnin. destruct Hnin as [Hna Hnb].
  destruct (decompose_mid _ _ _ _ _ _ Heq) as [(s3 & Hh & ->)|[(-> & _ & _)|(b1 & -> & Hb1)]].
  - assert (x ∉ s3) by (rewrite Hh, not_elem_of_app, not_elem_of_cons in Hna; naive_solver).
    rewrite filter_skip by done.
    apply (si_link _ _ _ Hinv p); [|done]. by rewrite Hl, app_comm_cons, Hh, <-app_assoc.
  - done.
  - rewrite (filter_tall_ext _ lev).
    + apply (si_link _ _ _ Hinv ((head_ sl :: a) ++ b1)); [|done].
      rewrite Hl, Hb1. simpl. by rewrite <-app_assoc.
    + intros w Hw. apply tall_set_lev_other. intros ->. apply Hnb. rewrite Hb1.
      apply elem_of_app. right. by right.
Qed.

Lemma place_pre : sl_pre sl1 (a ++ x :: b) (set_lev lev x 0).
Proof.
  pose proof place_not_in as Hnin. pose proof (si_height _ _ _ Hinv) as Hmax.
  assert (Hin : ∀ w, w ∈ a ++ x :: b → w = x ∨ w ∈ l) by (rewrite Hl; set_solver).
  assert (Hxh : head_ sl ≠ x) by set_solver.
  split; simpl.
  - pose proof (si_nodup _ _ _ Hinv) as Hnd. rewrite Hl in Hnd, Hnin.
    rewrite app_comm_cons in *.
    assert (Hp : (head_ sl :: a) ++ x :: b ≡ₚ x :: (head_ sl :: a) ++ b)
      by (symmetry; apply Permutation_middle).
    rewrite Hp. by constructor.
  - intros w Hw. unfold node_height, set_lev. simpl.
    destruct (decide (w = x)) as [->|Hwx].
    + rewrite lookup_insert_eq. simpl. rewrite length_replicate. eexists. split; [done|lia].
    + rewrite lookup_insert_ne by done. apply (si_nodes _ _ _ Hinv).
      apply elem_of_cons in Hw as [->|Hw]; [by left|right]. by destruct (Hin w Hw).
  - unfold set_lev. rewrite decide_False by done. apply Hinv.
  - lia.
  - intros w Hw. unfold set_lev. destruct (decide (w = x)); [lia|].
    destruct (Hin w Hw) as [|Hw']; [done|].
    pose proof (si_levels _ _ _ Hinv w Hw'). lia.
  - apply place_links.
  - apply place_sorted.
Qed.
End place.
End inv.
