(* ===== verification/SkipListSpec.v ===== *)
(** * What the skip list promises

    The abstract state of a skip list is the list of its keys in order.
    [represents sl R ks] relates a list to it: the representation invariant of
    SkipList.v holds, the nodes lie in regions the allocator handed out, and the
    random generator is in a good state.  The theorems give the effect of every
    public operation on the abstract state. *)

From S2P Require Import Prelude Interfaces Random Arena SkipList.

(** The size of a node without its extra links. *)
Definition sizeof_ok (n : Z) : Prop := 0 < n ≤ 2 ^ 32.

Section spec.
Context {Key : Type} `{ComparatorSpec Key}.
Context (key0 : Key) (sizeof_Node : Z) (NDEBUG : bool).
Context {S : Type} `{NodeAllocator S}.
Implicit Types (sl : SkipList Key) (s : S) (ks : list Key).

#[local] Abbreviation key_at := (key_at key0).
#[local] Abbreviation sl_inv := (sl_inv key0).
#[local] Abbreviation sl_pre := (sl_pre key0).
#[local] Abbreviation klt := (klt key0).
#[local] Abbreviation splits := (splits key0).
#[local] Abbreviation Insert := (Insert sizeof_Node NDEBUG).
#[local] Abbreviation SkipList_new := (SkipList_new key0 sizeof_Node NDEBUG).

(** Insertion before the first key that is not smaller. *)
Fixpoint ordered_insert (k : Key) ks : list Key :=
  match ks with
  | [] => [k]
  | c :: ks' => if compare_ c k <? 0 then c :: ordered_insert k ks' else k :: ks
  end.

Definition owned sl (R : list region) : Prop :=
  ∀ a, is_Some (nodes sl !! a) → ∃ n, 0 < n ∧ (a, n) ∈ R.

Definition represents sl (R : list region) ks : Prop :=
  ∃ l lev, sl_inv sl l lev ∧ ks = key_at sl <$> l ∧ owned sl R ∧ seed_ok (rnd_ sl).

Lemma represents_mono sl R R' ks : R ⊆ R' → represents sl R ks → represents sl R' ks.
Proof.
  intros HR (l & lev & Hinv & Hks & Hown & Hr). exists l, lev. split_and!; auto.
  intros a (n & Hn & Ha)%Hown. eauto.
Qed.

(** ** The height of a new node *)

Lemma RandomHeight_loop_spec room height r :
  seed_ok r →
  let '(h, r') := RandomHeight_loop room height r in
  (height ≤ h ≤ height + room)%nat ∧ seed_ok r'.
Proof.
  revert height r. induction room as [|room IH]; intros height r Hr;
    cbn [RandomHeight_loop]; [split; [lia|done]|].
  destruct (Random.Next r) as [v r'] eqn:E.
  assert (Hr' : seed_ok r').
  { destruct (Next_ok r Hr) as [Hok _]. by rewrite E in Hok. }
  destruct (_ =? 0); [|split; [lia|done]].
  specialize (IH (height + 1)%nat r' Hr').
  destruct (RandomHeight_loop room (height + 1) r') as [h r'']. split; [lia|]. apply IH.
Qed.

Lemma RandomHeight_spec r :
  seed_ok r →
  ∃ h r', RandomHeight r = (h, r') ∧ (1 ≤ h ≤ kMaxHeight)%nat ∧ seed_ok r'.
Proof.
  intros Hr. pose proof (RandomHeight_loop_spec (kMaxHeight - 1) 1 r Hr) as Hs.
  unfold RandomHeight. destruct (RandomHeight_loop _ _ _) as [h r'].
  exists h, r'. unfold kMaxHeight in *. split_and!; [done|lia|lia|]. apply Hs.
Qed.

Lemma RandomHeight_bound r : ((RandomHeight r).1 ≤ kMaxHeight)%nat.
Proof.
  unfold RandomHeight.
  assert (Hloop : ∀ room height r, ((RandomHeight_loop room height r).1 ≤ height + room)%nat).
  { clear. intros room. induction room as [|room IH]; intros height r; cbn [RandomHeight_loop]; [simpl; lia|].
    destruct (Random.Next r) as [v r']. destruct (_ =? 0); [|simpl; lia].
    specialize (IH (height + 1)%nat r'). lia. }
  specialize (Hloop (kMaxHeight - 1)%nat 1%nat r). unfold kMaxHeight in *. lia.
Qed.

(** ** Insert *)

Lemma ordered_insert_splits sl k a b :
  splits sl k a b →
  ordered_insert k (key_at sl <$> (a ++ b)) = (key_at sl <$> a) ++ k :: (key_at sl <$> b).
Proof.
  intros [Ha Hb]. induction Ha as [|x a Hx _ IH]; csimpl.
  - destruct b as [|y b]; [done|]. csimpl. apply Forall_cons in Hb as [Hy _].
    replace (compare_ (key_at sl y) k <? 0) with false; [done|].
    symmetry. apply Z.ltb_ge. unfold SkipList.klt in Hy. lia.
  - replace (compare_ (key_at sl x) k <? 0) with true; [by rewrite IH|].
    symmetry. by apply Z.ltb_lt.
Qed.

(** The [prev] array after the search and the fill for new levels. *)
Lemma prev_complete sl l lev a b h P P' mh :
  sl_inv sl l lev → l = a ++ b → length P = kMaxHeight →
  prev_post lev (head_ sl :: a) (GetMaxHeight sl - 1) (Some P) (Some P') →
  (h ≤ kMaxHeight)%nat →
  mh = (if decide (GetMaxHeight sl < h)%nat
        then (fill_prev (GetMaxHeight sl) h (head_ sl) P', h) else (P', max_height_ sl)) →
  (h ≤ mh.2)%nat ∧ (max_height_ sl ≤ mh.2 ≤ kMaxHeight)%nat ∧
  ∀ i, (i < h)%nat →
    ∃ z, last (filter (tall lev i) (head_ sl :: a)) = Some z ∧ mh.1 !! i = Some (At z).
Proof.
  intros Hinv Hl HP (Hlen & Hlow & Hhigh) Hh ->. pose proof (si_height _ _ _ _ Hinv) as Hm.
  unfold GetMaxHeight in *.
  assert (Hold : ∀ i, (i < max_height_ sl)%nat → ∃ z,
            last (filter (tall lev i) (head_ sl :: a)) = Some z ∧ P' !! i = Some (At z))
    by (intros i Hi; apply Hlow; lia).
  destruct (decide (max_height_ sl < h)%nat); simpl; [|split_and!; try lia; intros; apply Hold; lia].
  split_and!; [lia..|]. intros i Hi. unfold fill_prev. rewrite list_lookup_imap.
  destruct (lookup_lt_is_Some_2 P' i) as [v Hv]; [rewrite Hlen, HP; lia|]. rewrite Hv. simpl.
  destruct (decide (max_height_ sl ≤ i < h)%nat) as [Hr|Hr].
  - exists (head_ sl). split; [|done].
    apply (last_filter_tall lev i []).
    + unfold tall. rewrite (si_head _ _ _ _ Hinv). lia.
    + apply Forall_forall. intros w Hw Ht. unfold tall in Ht.
      assert (Hwl : w ∈ l) by (rewrite Hl; apply elem_of_app; auto).
      pose proof (si_levels _ _ _ _ Hinv w Hwl). lia.
  - destruct (Hold i ltac:(lia)) as (z & Hz & Hpz). exists z. split; [done|]. congruence.
Qed.

Lemma owned_fresh sl R p n :
  owned sl R → 0 < n → Forall (disjoint_region (p, n)) R → nodes sl !! p = None.
Proof.
  intros Hown Hn Hd. apply eq_None_not_Some. intros (m & Hm & Hin)%Hown.
  rewrite Forall_forall in Hd. specialize (Hd _ Hin). unfold disjoint_region in Hd. simpl in Hd. lia.
Qed.

(** Linking a new node of height [h] at its place. *)
Lemma link_new_node sl l lev a b k h mh prev r x :
  sl_inv sl l lev → l = a ++ b → splits sl k a b → nodes sl !! x = None →
  (1 ≤ h ≤ mh)%nat → (max_height_ sl ≤ mh ≤ kMaxHeight)%nat →
  (∀ i, (i < h)%nat →
    ∃ z, last (filter (tall lev i) (head_ sl :: a)) = Some z ∧ prev !! i = Some (At z)) →
  ∃ sl', link_levels h x prev
           (mkSkipList (<[x := mkNode k (replicate h Uninit)]> (nodes sl)) (head_ sl) mh r) = Ret sl' ∧
    sl_inv sl' (a ++ x :: b) (set_lev lev x h) ∧
    key_at sl' <$> (a ++ x :: b) = ordered_insert k (key_at sl <$> l) ∧
    (∀ w, is_Some (nodes sl' !! w) → w = x ∨ is_Some (nodes sl !! w)) ∧ rnd_ sl' = r.
Proof.
  intros Hinv Hl Hsp Hx Hh Hmh Hprev.
  set (sl1 := mkSkipList _ _ _ _).
  pose proof (place_pre key0 sl l a b lev x k h mh r Hinv Hl Hx Hsp Hmh) as Hpre. fold sl1 in Hpre.
  pose proof (place_not_in key0 sl l lev x Hinv Hx) as Hnin.
  destruct (link_levels_inv key0 sl1 (a ++ x :: b) (set_lev lev x 0) a b x h prev h)
    as (sl' & -> & (Hhd & Hm & Hr & Hnh & Hk) & Hpre'); auto.
  { unfold set_lev. by rewrite decide_True. }
  { unfold node_height, sl1. simpl. rewrite lookup_insert_eq. simpl. by rewrite length_replicate. }
  { simpl. lia. }
  { intros i Hi. destruct (Hprev i Hi) as (z & Hz & ?). exists z. split; [|done].
    rewrite (filter_tall_ext _ lev); [done|]. intros w Hw. apply tall_set_lev_other.
    intros ->. apply Hnin. rewrite Hl. set_solver. }
  exists sl'. split_and!; auto.
  - split.
    + eapply sl_pre_ext; [|exact Hpre']. intros w. unfold set_lev. by destruct (decide (w = x)).
    + intros w Hw. unfold set_lev. destruct (decide (w = x)); [lia|].
      apply (si_linked _ _ _ _ Hinv). rewrite Hl. set_solver.
  - rewrite Hl, ordered_insert_splits, fmap_app by done.
    assert (Hk' : ∀ w, w ∈ a ++ b → key_at sl' w = key_at sl w).
    { intros w Hw. rewrite Hk. apply place_key_at. intros ->. apply Hnin. rewrite Hl. by right. }
    csimpl. f_equal; [|f_equal].
    + apply list_fmap_ext. intros i w Hw%list_elem_of_lookup_2. apply Hk', elem_of_app. auto.
    + rewrite Hk. apply place_key_x.
    + apply list_fmap_ext. intros i w Hw%list_elem_of_lookup_2. apply Hk', elem_of_app. auto.
  - intros w Hw. assert (Hw1 : is_Some (node_height sl1 w)).
    { rewrite <-Hnh. unfold node_height. destruct Hw as [nd ->]. eauto. }
    unfold node_height, sl1 in Hw1. simpl in Hw1.
    destruct (decide (w = x)); [auto|right]. rewrite lookup_insert_ne in Hw1 by done.
    by destruct (nodes sl !! w), Hw1.
Qed.

(** The duplicate test of the assertion looks at the first key not below [k]. *)
Lemma dup_test sl l lev k a b :
  sl_inv sl l lev → l = a ++ b → splits sl k a b →
  ∃ d, (match head b with
        | None => Ret false
        | Some y => xk ←! Node_key sl y; Ret (Equal k xk)
        end) = Ret d ∧
       (d = true ↔ Exists (λ c, compare_ k c = 0) (key_at sl <$> l)).
Proof.
  intros Hinv Hl [Ha Hb].
  assert (Hna : ∀ x, x ∈ a → compare_ k (key_at sl x) ≠ 0).
  { intros x Hx. rewrite Forall_forall in Ha. specialize (Ha x Hx).
    unfold SkipList.klt in Ha. pose proof (compare_sym (key_at sl x) k). lia. }
  destruct b as [|y b]; simpl.
  - exists false. split; [done|]. split; [done|].
    rewrite Hl, app_nil_r, Exists_exists. intros (c & (x & -> & Hx)%list_elem_of_fmap & Hc).
    by apply Hna in Hx.
  - rewrite (Node_key_inv key0 sl l lev) by (done || (rewrite Hl; set_solver)). simpl.
    eexists. split; [done|]. unfold Equal. rewrite Z.eqb_eq, Exists_exists. split.
    + intros Hy. exists (key_at sl y). split; [|done]. apply list_elem_of_fmap. exists y.
      split; [done|]. rewrite Hl. set_solver.
    + intros (c & (x & -> & Hx)%list_elem_of_fmap & Hc).
      rewrite Hl in Hx. apply elem_of_app in Hx as [Hx|Hx]; [by apply Hna in Hx|].
      pose proof (si_sorted _ _ _ _ Hinv) as Hs. rewrite Hl in Hs.
      apply StronglySorted_app in Hs as (_ & _ & Hs). apply StronglySorted_inv in Hs as [_ Hs].
      apply Forall_cons in Hb as [Hy _]. unfold SkipList.klt in Hy.
      assert (Hyx : compare_ (key_at sl y) (key_at sl x) ≤ 0).
      { apply elem_of_cons in Hx as [->|Hx]; [by rewrite compare_refl|].
        rewrite Forall_forall in Hs. by apply Hs. }
      pose proof (compare_sym k (key_at sl x)). pose proof (compare_sym (key_at sl x) k).
      pose proof (compare_trans (key_at sl y) (key_at sl x) k).
      pose proof (compare_sym (key_at sl y) k). pose proof (compare_sym k (key_at sl y)). lia.
Qed.

Lemma Insert_effect k sl s R ks :
  sizeof_ok sizeof_Node →
  represents sl R ks → alloc_inv s R →
  (NDEBUG = true ∨ ¬ Exists (λ c, compare_ k c = 0) ks) →
  safe (Insert k sl s) (λ '(sl', s'), ∃ reg,
    alloc_inv s' (reg :: R) ∧ represents sl' (reg :: R) (ordered_insert k ks)).
Proof.
  intros Hsizeof (l & lev & Hinv & -> & Hown & Hr) Hs Hdup. unfold SkipList.Insert.
  assert (HP : ∀ P, Some (replicate kMaxHeight Uninit) = Some P → length P = kMaxHeight)
    by (by intros ? [= <-]).
  destruct (FindGreaterOrEqual_inv key0 sl l lev k _ Hinv HP)
    as (a & b & [P'|] & -> & Hl & Hsp & Hpost); [|done]. cbn [obind deref].
  destruct (dup_test sl l lev k a b Hinv Hl Hsp) as (d & -> & Hd). cbn [obind].
  replace (negb NDEBUG && d) with false.
  2:{ destruct Hdup as [->|Hnd]; [done|]. destruct d; [|by rewrite andb_false_r].
      destruct Hnd. by apply Hd. }
  destruct (RandomHeight_spec (rnd_ sl) Hr) as (h & r' & -> & Hh & Hr').
  destruct (if decide _ then _ else _) as [prev mh] eqn:Emh.
  destruct (prev_complete sl l lev a b h _ P' _ Hinv Hl (HP _ eq_refl) Hpost ltac:(lia) (eq_sym Emh))
    as (Hmh1 & Hmh2 & Hprev). simpl in Hmh1, Hmh2, Hprev.
  unfold NewNode. apply safe_bind, safe_bind.
  unfold sizeof_ok in Hsizeof.
  eapply safe_mono; [apply (alloc_aligned_spec _ _ R); [done|unfold kMaxHeight in *; lia]|].
  intros [x s'] (Hx0 & Hxd & Hs'). cbn [obind safe].
  assert (Hxn : nodes sl !! x = None).
  { eapply owned_fresh; [exact Hown| |exact Hxd]. lia. }
  destruct (link_new_node sl l lev a b k h mh prev r' x Hinv Hl Hsp Hxn ltac:(lia) Hmh2 Hprev)
    as (sl' & -> & Hinv' & Hks & Hdom & Hrnd). cbn [obind safe].
  eexists. split; [exact Hs'|]. exists (a ++ x :: b), (set_lev lev x h). split_and!; auto.
  - intros w [->|(n & Hn & Hw)%Hown]%Hdom; [|exists n; split; [done|by right]].
    eexists. split; [|by left]. lia.
  - by rewrite Hrnd.
Qed.

Lemma Insert_abort k sl s R ks :
  represents sl R ks → NDEBUG = false → Exists (λ c, compare_ k c = 0) ks →
  Insert k sl s = Abort.
Proof.
  intros (l & lev & Hinv & -> & Hown & Hr) -> Hex. unfold SkipList.Insert.
  assert (HP : ∀ P, Some (replicate kMaxHeight Uninit) = Some P → length P = kMaxHeight)
    by (by intros ? [= <-]).
  destruct (FindGreaterOrEqual_inv key0 sl l lev k _ Hinv HP)
    as (a & b & [P'|] & -> & Hl & Hsp & Hpost); [|done]. cbn [obind deref].
  destruct (dup_test sl l lev k a b Hinv Hl Hsp) as (d & -> & Hd). cbn [obind].
  by rewrite (proj2 Hd Hex).
Qed.

(** ** The constructor *)

Lemma set_null_spec n sl x h :
  node_height sl x = Some h → (n ≤ h)%nat →
  ∃ sl', set_null n sl x = Ret sl' ∧ same_nodes key0 sl sl' ∧
    ∀ i, (i < n)%nat → link sl' x i = Some Null.
Proof.
  intros Hh. induction n as [|n IH]; intros Hn.
  { exists sl. split_and!; [done|reflexivity|lia]. }
  destruct (IH ltac:(lia)) as (sl1 & Heq & Hsame & Hnull). cbn [set_null]. rewrite Heq. cbn [obind].
  pose proof Hsame as (_ & _ & _ & Hnh & _).
  destruct (Node_SetNext_spec key0 sl1 x n None h) as (sl2 & -> & ? & ? & ? & ? & ? & Hlink);
    [by rewrite Hnh|lia|].
  exists sl2. split_and!; [done| |].
  - etrans; [exact Hsame|]. by split_and!.
  - intros i Hi. rewrite Hlink. case_decide; [done|]. apply Hnull. lia.
Qed.

Lemma SkipList_new_effect s R :
  sizeof_ok sizeof_Node →
  alloc_inv s R →
  safe (SkipList_new s) (λ '(sl, s'), ∃ reg,
    alloc_inv s' (reg :: R) ∧ represents sl (reg :: R) []).
Proof.
  intros Hsizeof Hs. unfold SkipList.SkipList_new, NewNode. apply safe_bind, safe_bind.
  unfold sizeof_ok in Hsizeof.
  eapply safe_mono; [apply (alloc_aligned_spec _ _ R); [done|unfold kMaxHeight; lia]|].
  intros [h s'] (Hh0 & Hd & Hs'). cbn [safe].
  set (sl0 := mkSkipList _ _ _ _).
  assert (Hh : node_height sl0 h = Some kMaxHeight).
  { unfold node_height, sl0. simpl. by rewrite lookup_insert_eq. }
  destruct (set_null_spec kMaxHeight sl0 h _ Hh ltac:(lia)) as (sl & -> & Hsame & Hnull).
  destruct Hsame as (Hhd & Hm & Hr & Hnh & Hk). cbn [obind safe].
  eexists. split; [exact Hs'|]. exists [], (λ z, if decide (z = h) then kMaxHeight else 0%nat).
  split_and!; [|done| |by rewrite Hr; apply Random_new_ok].
  - split; [|set_solver]. split; rewrite ?Hhd, ?Hm; simpl.
    + apply NoDup_singleton.
    + intros a ->%list_elem_of_singleton. rewrite Hnh, Hh. eexists. split; [done|].
      by rewrite decide_True.
    + by rewrite decide_True.
    + unfold kMaxHeight. lia.
    + set_solver.
    + intros p y t i Heq Ht. destruct p as [|? p]; simplify_list_eq; [|by destruct p].
      unfold tall in Ht. rewrite decide_True in Ht by done. by rewrite Hnull.
    + constructor.
  - intros w Hw. assert (Hw1 : is_Some (node_height sl0 w)).
    { rewrite <-Hnh. unfold node_height. destruct Hw as [nd ->]. eauto. }
    unfold node_height, sl0 in Hw1. simpl in Hw1.
    destruct (decide (w = h)) as [->|].
    + eexists. split; [|by left]. unfold kMaxHeight. lia.
    + rewrite lookup_insert_ne, lookup_empty in Hw1 by done. by destruct Hw1.
Qed.

(** ** FindLessThan and FindLast *)

#[local] Abbreviation FindLessThan_loop := (FindLessThan_loop NDEBUG).

Lemma FindLessThan_loop_spec sl l lev k fuel p x t level :
  sl_inv sl l lev → at_node key0 sl l k p x t → tall lev level x →
  (length t + level < fuel)%nat →
  ∃ t1 b, FindLessThan_loop fuel sl k x level = Ret (default x (last t1)) ∧
    t = t1 ++ b ∧ Forall (klt sl k) t1 ∧ (∀ y, head b = Some y → ¬ klt sl k y).
Proof.
  intros Hinv. revert p x t level.
  induction fuel as [|fuel IH]; intros p x t level Hat Ht Hfuel; [lia|].
  destruct (next_tall_cases _ _ _ _ _ _ _ _ _ Hinv Hat Ht) as [Hnext Hcases].
  cbn [SkipList.FindLessThan_loop].
  assert (Hxin : x ∈ head_ sl :: l) by (rewrite (proj1 Hat); set_solver).
  rewrite (Node_key_inv key0 sl l lev) by done. cbn [obind].
  replace (negb NDEBUG && negb ((x =? head_ sl) || (compare_ (key_at sl x) k <? 0))) with false.
  2:{ destruct (proj2 Hat) as [->|Hx].
      - by rewrite Z.eqb_refl, andb_false_r.
      - apply Z.ltb_lt in Hx. by rewrite Hx, orb_true_r, andb_false_r. }
  rewrite Hnext. cbn [obind].
  set (nx := head (filter (tall lev level) t)) in *.
  assert (Hdrop : (∀ y, nx = Some y → ¬ klt sl k y) →
    ∃ t1 b, match level with
            | O => Ret x
            | Datatypes.S l' => FindLessThan_loop fuel sl k x l'
            end = Ret (default x (last t1)) ∧
      t = t1 ++ b ∧ Forall (klt sl k) t1 ∧ (∀ y, head b = Some y → ¬ klt sl k y)).
  { intros Hno. destruct level as [|l'].
    - exists [], t. unfold nx in Hno.
      rewrite (filter_tall_0 key0 sl l lev (p ++ [x])) in Hno
        by (try exact Hinv; rewrite <-app_assoc; apply Hat).
      auto.
    - apply (IH p x t l'); auto; [unfold tall in *; lia|lia]. }
  destruct nx as [y|]; [|by apply Hdrop].
  destruct Hcases as (s1 & s2 & -> & Hty & Hs1 & ->). cbn [obind].
  destruct (Z.leb_spec 0 (compare_ (key_at sl y) k)) as [Hge|Hlt].
  { apply Hdrop. intros ? [= <-]. unfold SkipList.klt. lia. }
  rewrite length_app in Hfuel. simpl in Hfuel.
  pose proof (at_node_forward _ _ _ _ _ _ _ _ _ Hat Hlt) as Hat'.
  destruct (IH _ y s2 level Hat' Hty ltac:(lia)) as (t1 & b & -> & -> & Ht1 & Hb).
  exists (s1 ++ y :: t1), b. split_and!; auto.
  - rewrite last_app_cons, last_cons. by destruct (last t1).
  - by rewrite <-app_assoc.
  - pose proof (klt_before _ _ _ _ _ _ _ _ Hinv (proj1 Hat') Hlt) as Hbefore.
    apply Forall_app. split; [|by constructor].
    destruct p as [|h p]; simpl in Hbefore; [done|].
    apply Forall_app in Hbefore as [_ Hbefore]. by apply Forall_cons in Hbefore as [_ ?].
Qed.

Lemma FindLessThan_effect sl l lev k :
  sl_inv sl l lev →
  ∃ a b, FindLessThan NDEBUG sl k = Ret (default (head_ sl) (last a)) ∧
    l = a ++ b ∧ splits sl k a b.
Proof.
  intros Hinv. pose proof (at_head key0 sl l k) as Hat.
  assert (Ht : tall lev (GetMaxHeight sl - 1) (head_ sl)).
  { unfold tall, GetMaxHeight. rewrite (si_head _ _ _ _ Hinv).
    pose proof (si_height _ _ _ _ Hinv). lia. }
  pose proof (search_fuel_enough _ _ _ _ Hinv) as Hfuel.
  destruct (FindLessThan_loop_spec _ _ _ _ _ _ _ _ _ Hinv Hat Ht Hfuel)
    as (t1 & b & Heq & Hl & Ht1 & Hb).
  exists t1, b. split_and!; [exact Heq|done|]. split; [done|].
  destruct b as [|y b]; [constructor|]. eapply not_klt_after; [done|exact Hl|auto].
Qed.

Lemma FindLast_loop_spec sl l lev fuel p x t level :
  sl_inv sl l lev → head_ sl :: l = p ++ x :: t → tall lev level x →
  (length t + level < fuel)%nat →
  FindLast_loop fuel sl x level = Ret (default x (last t)).
Proof.
  intros Hinv. revert p x t level.
  induction fuel as [|fuel IH]; intros p x t level Heq Ht Hfuel; [lia|].
  cbn [FindLast_loop]. rewrite (Node_Next_inv key0 sl l lev p x t level) by done. cbn [obind].
  destruct (head (filter (tall lev level) t)) as [y|] eqn:E.
  - destruct (head_filter_Some _ _ _ E) as (s1 & s2 & -> & Hy & Hs1).
    rewrite length_app in Hfuel. simpl in Hfuel.
    rewrite (IH (p ++ x :: s1) y s2 level); [|by rewrite <-app_assoc|done|lia].
    rewrite last_app_cons, last_cons. by destruct (last s2).
  - destruct level as [|l'].
    + rewrite (filter_tall_0 key0 sl l lev (p ++ [x])) in E
        by (try exact Hinv; by rewrite <-app_assoc).
      by destruct t.
    + apply (IH p); [done|unfold tall in *; lia|lia].
Qed.

Lemma FindLast_effect sl l lev :
  sl_inv sl l lev → FindLast sl = Ret (default (head_ sl) (last l)).
Proof.
  intros Hinv. apply (FindLast_loop_spec sl l lev _ []); [done|done| |].
  - unfold tall, GetMaxHeight. rewrite (si_head _ _ _ _ Hinv).
    pose proof (si_height _ _ _ _ Hinv). lia.
  - by apply (search_fuel_enough _ _ _ _ Hinv).
Qed.

(** ** Iterators *)

Lemma Seek_effect sl l lev k :
  sl_inv sl l lev →
  ∃ a b, Seek sl k = Ret (mkIterator (head b)) ∧ l = a ++ b ∧ splits sl k a b.
Proof.
  intros Hinv. unfold Seek.
  destruct (FindGreaterOrEqual_inv key0 sl l lev k None Hinv) as (a & b & prev' & -> & Hl & Hsp & _);
    [done|]. cbn [obind]. eauto.
Qed.

Lemma Iterator_Next_effect sl l lev a y b :
  sl_inv sl l lev → l = a ++ y :: b →
  Iterator_Next NDEBUG sl (mkIterator (Some y)) = Ret (mkIterator (head b)) ∧
  Iterator_key NDEBUG sl (mkIterator (Some y)) = Ret (key_at sl y).
Proof.
  intros Hinv Hl. assert (Hy : y ∈ head_ sl :: l) by (rewrite Hl; set_solver).
  unfold Iterator_Next, Iterator_key. cbn [valid_node node_ obind].
  rewrite (Node_Next_inv key0 sl l lev (head_ sl :: a) y b 0).
  - cbn [obind]. rewrite (filter_tall_0 key0 sl l lev ((head_ sl :: a) ++ [y])).
    + split; [done|]. by apply (Node_key_inv key0 sl l lev).
    + done.
    + rewrite <-app_assoc, Hl. done.
  - done.
  - by rewrite Hl.
  - by eapply tall_0.
Qed.

Lemma head_to_null_last sl l lev a :
  sl_inv sl l lev → (∃ b, l = a ++ b) →
  head_to_null sl (default (head_ sl) (last a)) = mkIterator (last a).
Proof.
  intros Hinv [b Hl]. unfold head_to_null. destruct (last a) as [y|] eqn:E; simpl.
  - replace (y =? head_ sl) with false; [done|]. symmetry. apply Z.eqb_neq. intros ->.
    pose proof (si_nodup _ _ _ _ Hinv) as [Hnin _]%NoDup_cons. apply Hnin.
    rewrite Hl. apply elem_of_app. left. by apply last_Some_elem_of.
  - by rewrite Z.eqb_refl.
Qed.

(** ** The contract *)

Definition key_le (a b : Key) : Prop := compare_ a b ≤ 0.

Lemma ordered_insert_perm k ks : ordered_insert k ks ≡ₚ k :: ks.
Proof.
  induction ks as [|c ks IH]; simpl; [done|]. destruct (_ <? 0); [|done].
  rewrite IH. apply Permutation_swap.
Qed.

Lemma sorted_fmap sl (l : list Z) :
  StronglySorted (kle key0 sl) l → StronglySorted key_le (key_at sl <$> l).
Proof.
  induction 1 as [|x l' Hs IH Hx]; csimpl; constructor; [done|]. by apply Forall_fmap.
Qed.

(** A sequence of insertions into a new list. *)
Fixpoint insert_all (keys : list Key) sl s : outcome (SkipList Key * S) :=
  match keys with
  | [] => Ret (sl, s)
  | k :: keys' => '(sl', s') ←! Insert k sl s; insert_all keys' sl' s'
  end.

Definition build (keys : list Key) s : outcome (SkipList Key * S) :=
  '(sl, s') ←! SkipList_new s; insert_all keys sl s'.

Lemma insert_all_effect keys sl s R ks :
  sizeof_ok sizeof_Node →
  NDEBUG = true → represents sl R ks → alloc_inv s R →
  safe (insert_all keys sl s) (λ '(sl', s'), ∃ R' ks',
    alloc_inv s' R' ∧ represents sl' R' ks' ∧ ks' ≡ₚ keys ++ ks).
Proof.
  intros Hsz HN. revert sl s R ks. induction keys as [|k keys IH]; intros sl s R ks Hsl Hs; simpl.
  { exists R, ks. auto. }
  apply safe_bind. eapply safe_mono; [by apply (Insert_effect k sl s R ks); auto|].
  intros [sl1 s1] (reg & Hs1 & Hsl1).
  eapply safe_mono; [by eapply IH|]. intros [sl2 s2] (R' & ks' & ? & ? & Hp).
  exists R', ks'. split_and!; auto. rewrite Hp, ordered_insert_perm. simpl.
  by rewrite Permutation_middle.
Qed.

Lemma build_effect keys s R :
  sizeof_ok sizeof_Node →
  NDEBUG = true → alloc_inv s R →
  safe (build keys s) (λ '(sl, s'), ∃ R' ks,
    alloc_inv s' R' ∧ represents sl R' ks ∧ ks ≡ₚ keys).
Proof.
  intros Hsz HN Hs. unfold build. apply safe_bind.
  eapply safe_mono; [by apply (SkipList_new_effect s R)|]. intros [sl s1] (reg & Hs1 & Hsl).
  eapply safe_mono; [by eapply insert_all_effect|].
  intros [sl' s'] (R' & ks & ? & ? & Hp). rewrite app_nil_r in Hp. eauto.
Qed.

(** C18: [Insert] implements ordered insertion: from a list that represents [ks]
    it gives one that represents [ks] with the key before the first key that is
    not smaller, with no undefined behaviour, no failed assertion and no
    divergence; the precondition is that asserts are compiled out or no equal
    key is present. *)
Theorem Insert_refines k sl s R ks :
  sizeof_ok sizeof_Node →
  represents sl R ks → alloc_inv s R →
  (NDEBUG = true ∨ ¬ Exists (λ c, compare_ k c = 0) ks) →
  safe (Insert k sl s) (λ '(sl', s'), ∃ reg,
    alloc_inv s' (reg :: R) ∧ represents sl' (reg :: R) (ordered_insert k ks)).
Proof. apply Insert_effect. Qed.

(** C16: [Contains] terminates and answers whether a key that compares equal is
    in the list. *)
Theorem Contains_correct k sl R ks :
  represents sl R ks →
  Contains sl k = Ret (existsb (λ c, compare_ k c =? 0) ks).
Proof.
  intros (l & lev & Hinv & -> & _). unfold Contains.
  destruct (FindGreaterOrEqual_inv key0 sl l lev k None Hinv) as (a & b & prev' & -> & Hl & Hsp & _);
    [done|]. cbn [obind].
  destruct (dup_test sl l lev k a b Hinv Hl Hsp) as (d & -> & Hd). f_equal.
  apply eq_true_iff_eq. rewrite Hd, existsb_exists, Exists_exists.
  setoid_rewrite Z.eqb_eq. setoid_rewrite list_elem_of_In. done.
Qed.

(** In a build with assertions, inserting a key that compares equal to one
    in the list kills the process. *)
Theorem Insert_duplicate_asserts k sl s R ks :
  represents sl R ks → NDEBUG = false → Exists (λ c, compare_ k c = 0) ks →
  Insert k sl s = Abort.
Proof. apply Insert_abort. Qed.

(** C20: iterators.  With the nodes of the list in order, [Seek] stops at the
    first node whose key is not below the target, [SeekToFirst] and
    [SeekToLast] at the ends; at a node, [key] is its key, [Next] the following
    node and [Prev] the last node with a smaller key; past the ends the
    iterator is not valid. *)
Theorem Iterator_correct sl l lev k :
  sl_inv sl l lev →
  (∃ a b, Seek sl k = Ret (mkIterator (head b)) ∧ l = a ++ b ∧ splits sl k a b) ∧
  SeekToFirst sl = Ret (mkIterator (head l)) ∧
  SeekToLast sl = Ret (mkIterator (last l)) ∧
  (∀ a y b, l = a ++ y :: b →
     Iterator_key NDEBUG sl (mkIterator (Some y)) = Ret (key_at sl y) ∧
     Iterator_Next NDEBUG sl (mkIterator (Some y)) = Ret (mkIterator (head b)) ∧
     ∃ a1 a2, Iterator_Prev NDEBUG sl (mkIterator (Some y)) = Ret (mkIterator (last a1)) ∧
       a = a1 ++ a2 ∧ splits sl (key_at sl y) a1 (a2 ++ y :: b)).
Proof.
  intros Hinv. split_and!.
  - by apply (Seek_effect sl l lev k).
  - unfold SeekToFirst. rewrite (Node_Next_inv key0 sl l lev [] (head_ sl) l 0); [|done|done|].
    + cbn [obind]. by rewrite (filter_tall_0 key0 sl l lev [head_ sl]).
    + eapply tall_0; [done|]. by left.
  - unfold SeekToLast. rewrite (FindLast_effect sl l lev) by done. cbn [obind].
    rewrite (head_to_null_last sl l lev) by (done || (exists []; by rewrite app_nil_r)). done.
  - intros a y b Hl. destruct (Iterator_Next_effect sl l lev a y b Hinv Hl) as [Hn Hk].
    split_and!; [done|done|]. unfold Iterator_Prev. cbn [valid_node node_ obind].
    rewrite (Node_key_inv key0 sl l lev) by (done || (rewrite Hl; set_solver)). cbn [obind].
    destruct (FindLessThan_effect sl l lev (key_at sl y) Hinv) as (a1 & b1 & -> & Hl1 & Hsp).
    cbn [obind]. rewrite (head_to_null_last sl l lev) by (done || eauto).
    assert (∃ a2, a = a1 ++ a2 ∧ b1 = a2 ++ y :: b) as (a2 & -> & ->); [|eauto].
    rewrite Hl in Hl1. apply app_eq_inv in Hl1 as [(c & -> & Hc)|(c & Hc1 & Hc2)]; [eauto|].
    destruct c as [|z c]; simplify_list_eq; [exists []; by rewrite app_nil_r|].
    destruct Hsp as [Hsp _]. rewrite Forall_app, Forall_cons in Hsp.
    destruct Hsp as (_ & Hz & _). unfold SkipList.klt in Hz. rewrite compare_refl in Hz. lia.
Qed.

(** A list built by any sequence of insertions into a new list holds these
    keys, no more and no fewer, in sorted order. *)
Theorem build_sorted keys s R :
  sizeof_ok sizeof_Node →
  NDEBUG = true → alloc_inv s R →
  safe (build keys s) (λ '(sl, s'), ∃ R' ks,
    represents sl R' ks ∧ ks ≡ₚ keys ∧ StronglySorted key_le ks).
Proof.
  intros Hsz HN Hs. eapply safe_mono; [by apply (build_effect keys s R)|].
  intros [sl' s'] (R' & ks & _ & Hr & Hp). exists R', ks. split_and!; auto.
  destruct Hr as (l & lev & Hinv & -> & _). apply sorted_fmap, Hinv.
Qed.
End spec.

(** ** Concrete lists

    Integer keys in memory from an arena over the bump heap. *)

#[local] Instance Z_Comparator : Comparator Z :=
  λ a b, if a <? b then -1 else if b <? a then 1 else 0.

#[local] Instance Z_ComparatorSpec : ComparatorSpec Z.
Proof.
  split; unfold compare_, Z_Comparator; [intros a b|intros a b c];
    repeat case Z.ltb_spec; lia.
Qed.

Definition demo_alloc : BumpHeap * Arena := (bump_heap0, Arena_new).

Definition demo (NDEBUG : bool) (keys : list Z) : SkipList Z * (BumpHeap * Arena) :=
  match build 0 48 NDEBUG keys demo_alloc with
  | Ret x => x
  | _ => (mkSkipList ∅ 0 0 (mkRandom 1), demo_alloc)
  end.

Lemma demo_alloc_inv : alloc_inv demo_alloc [].
Proof. exists []. apply Arena_new_inv, bump_heap0_ok. Qed.

Lemma demo_inv keys sl s :
  build 0 48 true keys demo_alloc = Ret (sl, s) →
  ∃ R ks, alloc_inv s R ∧ represents 0 sl R ks ∧ ks ≡ₚ keys.
Proof.
  intros Heq. assert (Hsz : sizeof_ok 48) by (unfold sizeof_ok; lia).
  pose proof (build_effect 0 48 true keys demo_alloc [] Hsz eq_refl demo_alloc_inv) as Hb.
  by rewrite Heq in Hb.
Qed.

Definition demo_keys : list Z := [30; 10; 20; 40; 25].

Lemma demo_built : build 0 48 true demo_keys demo_alloc = Ret (demo true demo_keys).
Proof. vm_compute. reflexivity. Qed.

Lemma demo_represents :
  ∃ R ks, alloc_inv (demo true demo_keys).2 R ∧ represents 0 (demo true demo_keys).1 R ks ∧
          ks ≡ₚ demo_keys.
Proof. apply demo_inv. rewrite demo_built. by destruct (demo true demo_keys). Qed.

Lemma Insert_refines_witness :
  ∃ R ks, safe (Insert 48 true 20 (demo true demo_keys).1 (demo true demo_keys).2)
    (λ '(sl', _), ∃ reg, represents 0 sl' (reg :: R) (ordered_insert 20 ks)).
Proof.
  destruct demo_represents as (R & ks & Hs & Hr & _). exists R, ks.
  eapply safe_mono;
    [apply (Insert_refines 0 48 true 20 _ _ R ks ltac:(split; lia) Hr Hs); left; reflexivity|].
  intros [sl' s'] (reg & _ & H). exists reg. exact H.
Defined.

Lemma Contains_correct_witness :
  ∃ ks, Contains (demo true demo_keys).1 25 = Ret (existsb (λ c, compare_ 25 c =? 0) ks).
Proof.
  destruct demo_represents as (R & ks & _ & Hr & _). exists ks.
  eapply Contains_correct. exact Hr.
Defined.

Lemma Insert_duplicate_asserts_witness :
  Insert 48 false 25 (demo true demo_keys).1 (demo true demo_keys).2 = Abort.
Proof.
  destruct demo_represents as (R & ks & _ & Hr & Hp).
  eapply Insert_duplicate_asserts; [exact Hr|reflexivity|].
  rewrite Hp. do 4 right. left. reflexivity.
Defined.

Lemma Iterator_correct_witness :
  ∃ l, SeekToFirst (demo true demo_keys).1 = Ret (mkIterator (head l)) ∧
       SeekToLast (demo true demo_keys).1 = Ret (mkIterator (last l)).
Proof.
  destruct demo_represents as (R & ks & _ & (l & lev & Hinv & _) & _). exists l.
  destruct (Iterator_correct 0 true _ l lev 22 Hinv) as (_ & H1 & H2 & _). split; assumption.
Defined.

Lemma build_sorted_witness :
  safe (build 0 48 true demo_keys demo_alloc) (λ '(sl, s'), ∃ ks,
    ks ≡ₚ demo_keys ∧ StronglySorted key_le ks).
Proof.
  eapply safe_mono;
    [exact (build_sorted 0 48 true demo_keys demo_alloc [] ltac:(split; lia) eq_refl demo_alloc_inv)|].
  intros [sl s'] (R & ks & _ & H1 & H2). exists ks. split; assumption.
Defined.

(** The same list traversed by an iterator. *)
Fixpoint walk (fuel : nat) (sl : SkipList Z) (it : Iterator) : outcome (list Z) :=
  match fuel with
  | O => Fuel
  | S fuel' =>
      if Valid it then
        k ←! Iterator_key false sl it;
        it' ←! Iterator_Next false sl it;
        ks ←! walk fuel' sl it';
        Ret (k :: ks)
      else Ret []
  end.

Example demo_walk :
  (it ←! Seek (demo true demo_keys).1 15; walk 10 (demo true demo_keys).1 it) =
  Ret [20; 25; 30; 40].
Proof. vm_compute. reflexivity. Qed.
