(* ===== verification/SkipListConc.v ===== *)
(** * Readers that run concurrently with an Insert

    The comments of skip_list.h promise that reads need no lock while one
    writer inserts.  Here [Insert] is split into its memory accesses: raising
    [max_height_], taking memory for the node, and for each level the store to
    the new node and the store that publishes it; a search is split into its
    loads.  Any interleaving of one writer and a reader is an execution of
    [step].  Memory is sequentially consistent; keys are immutable once
    published, and the writer's own search reads memory only it writes.

    [reader_linearizable] shows that a search that overlaps an insertion
    returns what an atomic search would return at its last load.  With two
    writers the promise is void: [two_writers_lose_a_key]. *)

From S2P Require Import Prelude Interfaces Random Arena SkipList SkipListSpec.

Section conc.
Context {Key : Type} `{Comparator Key}.
Context (key0 : Key) (sizeof_Node : Z) (NDEBUG : bool).
Context {S : Type} `{NodeAllocator S}.
Implicit Types (sl : SkipList Key) (s : S).

(** ** The writer *)

Inductive wstate :=
| WIdle
| WRaise (k : Key) (prev : list slot) (height : nat)      (* store max_height_ *)
| WNew (k : Key) (prev : list slot) (height : nat)        (* NewNode *)
| WInit (x : Z) (prev : list slot) (height i : nat)       (* x->NoBarrier_SetNext(i, ...) *)
| WPublish (x : Z) (prev : list slot) (height i : nat).   (* prev[i]->SetNext(i, x) *)

(** The part of [Insert] before the first store to shared memory. *)
Definition begin_insert (k : Key) sl : outcome (wstate * SkipList Key) :=
  '(x, prev) ←! FindGreaterOrEqual sl k (Some (replicate kMaxHeight Uninit));
  prev ←! deref prev;
  dup ←! match x with
         | None => Ret false
         | Some a => xk ←! Node_key sl a; Ret (Equal k xk)
         end;
  if negb NDEBUG && dup then Abort
  else
    let '(height, rnd) := RandomHeight (rnd_ sl) in
    let sl' := mkSkipList (nodes sl) (head_ sl) (max_height_ sl) rnd in
    if decide (GetMaxHeight sl < height)%nat
    then Ret (WRaise k (fill_prev (GetMaxHeight sl) height (head_ sl) prev) height, sl')
    else Ret (WNew k prev height, sl').

Definition writer_step (w : wstate) (m : SkipList Key * S) :
    outcome (wstate * (SkipList Key * S)) :=
  let '(sl, s) := m in
  match w with
  | WIdle => Ret (WIdle, m)
  | WRaise k prev h =>
      Ret (WNew k prev h, (mkSkipList (nodes sl) (head_ sl) h (rnd_ sl), s))
  | WNew k prev h =>
      '(x, ns, s') ←! NewNode sizeof_Node NDEBUG k h (nodes sl) s;
      Ret (WInit x prev h 0, (with_nodes sl ns, s'))
  | WInit x prev h i =>
      if decide (i < h)%nat then
        p ←! slot_load (prev !! i);
        p ←! deref p;
        nx ←! NoBarrier_Next sl p i;
        sl1 ←! NoBarrier_SetNext sl x i nx;
        Ret (WPublish x prev h i, (sl1, s))
      else Ret (WIdle, m)
  | WPublish x prev h i =>
      p ←! slot_load (prev !! i);
      p ←! deref p;
      sl1 ←! Node_SetNext sl p i (Some x);
      Ret (WInit x prev h (i + 1), (sl1, s))
  end.

(** The writer alone, until it is done. *)
Fixpoint run_writer (fuel : nat) (w : wstate) (m : SkipList Key * S) : outcome (SkipList Key * S) :=
  match w, fuel with
  | WIdle, _ => Ret m
  | _, O => Fuel
  | _, Datatypes.S fuel' => '(w', m') ←! writer_step w m; run_writer fuel' w' m'
  end.

(** Two writers on the same list; the schedule says whose turn it is. *)
Fixpoint run_two (schedule : list bool) (w1 w2 : wstate) (m : SkipList Key * S) :
    outcome (wstate * wstate * (SkipList Key * S)) :=
  match schedule with
  | [] => Ret (w1, w2, m)
  | false :: rest => '(w1', m') ←! writer_step w1 m; run_two rest w1' w2 m'
  | true :: rest => '(w2', m') ←! writer_step w2 m; run_two rest w1 w2' m'
  end.

(** ** A reader: [FindGreaterOrEqual(key, nullptr)] *)

Inductive rstate :=
| RStart
| RAt (x : Z) (level : nat)          (* about to load x->Next(level) *)
| RDone (res : option Z).

Definition reader_step sl (k : Key) (r : rstate) : outcome rstate :=
  match r with
  | RStart => Ret (RAt (head_ sl) (GetMaxHeight sl - 1))
  | RAt x level =>
      next ←! Node_Next sl x level;
      after ←! KeyIsAfterNode sl k next;
      if after : bool then y ←! deref next; Ret (RAt y level)
      else match level with
           | O => Ret (RDone next)
           | Datatypes.S l' => Ret (RAt x l')
           end
  | RDone res => Ret (RDone res)
  end.

(** ** The keys a reader can see: the chain of level 0 *)

Fixpoint level0_walk (fuel : nat) sl (x : Z) : outcome (list Z) :=
  match fuel with
  | O => Fuel
  | Datatypes.S fuel' =>
      nx ←! Node_Next sl x 0;
      match nx with
      | None => Ret []
      | Some y => rest ←! level0_walk fuel' sl y; Ret (y :: rest)
      end
  end.

Definition contents sl : outcome (list Key) :=
  l ←! level0_walk (search_fuel sl) sl (head_ sl); Ret (key_at key0 sl <$> l).

(** ** Executions *)

Record config := mkConfig {
  mem : SkipList Key;
  alloc : S;
  writer : wstate;
  reader : rstate;
}.

Inductive step (k : Key) : config → config → Prop :=
| step_begin c kw w sl :
    writer c = WIdle → begin_insert kw (mem c) = Ret (w, sl) →
    step k c (mkConfig sl (alloc c) w (reader c))
| step_writer c w m :
    writer c ≠ WIdle → writer_step (writer c) (mem c, alloc c) = Ret (w, m) →
    step k c (mkConfig m.1 m.2 w (reader c))
| step_reader c r :
    reader_step (mem c) k (reader c) = Ret r →
    step k c (mkConfig (mem c) (alloc c) (writer c) r).

(** A scheduler for the same steps. *)
Inductive event := EBegin (kw : Key) | EWriter | EReader.

Definition exec1 (k : Key) (e : event) (c : config) : outcome config :=
  match e with
  | EBegin kw =>
      match writer c with
      | WIdle => '(w, sl) ←! begin_insert kw (mem c); Ret (mkConfig sl (alloc c) w (reader c))
      | _ => Undef
      end
  | EWriter =>
      match writer c with
      | WIdle => Undef
      | w => '(w', m) ←! writer_step w (mem c, alloc c); Ret (mkConfig m.1 m.2 w' (reader c))
      end
  | EReader => r ←! reader_step (mem c) k (reader c); Ret (mkConfig (mem c) (alloc c) (writer c) r)
  end.

Fixpoint exec (k : Key) (es : list event) (c : config) : outcome config :=
  match es with
  | [] => Ret c
  | e :: es' => c' ←! exec1 k e c; exec k es' c'
  end.
End conc.

Section proofs.
Context {Key : Type} `{ComparatorSpec Key}.
Context (key0 : Key) (sizeof_Node : Z) (NDEBUG : bool).
Context {S : Type} `{NodeAllocator S}.
Implicit Types (sl : SkipList Key) (s : S) (l : list Z) (lev : Z → nat).

#[local] Abbreviation key_at := (key_at key0).
#[local] Abbreviation sl_inv := (sl_inv key0).
#[local] Abbreviation sl_pre := (sl_pre key0).
#[local] Abbreviation klt := (klt key0).
#[local] Abbreviation splits := (splits key0).
#[local] Abbreviation contents := (contents key0).
#[local] Abbreviation writer_step := (writer_step sizeof_Node NDEBUG).
#[local] Abbreviation begin_insert := (begin_insert NDEBUG).
#[local] Abbreviation step := (step sizeof_Node NDEBUG).

(** ** The visible part of a list under construction *)

Lemma filter_filter_tall lev i l :
  filter (tall lev i) (filter (tall lev 0) l) = filter (tall lev i) l.
Proof.
  induction l as [|x l IH]; [done|]. rewrite !(filter_cons _ x).
  destruct (decide (tall lev 0 x)) as [Ht|Ht].
  - rewrite filter_cons, IH. done.
  - rewrite decide_False by (unfold tall in *; lia). done.
Qed.

Lemma filter_cons_inv (P : Z → Prop) `{∀ x, Decision (P x)} l p x t :
  filter P l = p ++ x :: t → ∃ l1 l2, l = l1 ++ x :: l2 ∧ t = filter P l2.
Proof.
  revert p. induction l as [|y l IH]; intros p Heq; [by destruct p|].
  rewrite filter_cons in Heq. destruct (decide (P y)).
  - destruct p as [|z p]; simplify_list_eq.
    + by exists [], l.
    + destruct (IH p) as (l1 & l2 & -> & ->); [done|]. by exists (z :: l1), l2.
  - destruct (IH p Heq) as (l1 & l2 & -> & ->). by exists (y :: l1), l2.
Qed.

Lemma sl_pre_visible sl l lev :
  sl_pre sl l lev → sl_inv sl (filter (tall lev 0) l) lev.
Proof.
  intros [Hs1 Hs2 Hs3 Hs4 Hs5 Hs6 Hs7]. split.
  2:{ intros a [Ha _]%list_elem_of_filter. unfold tall in Ha. lia. }
  split; auto.
  - apply NoDup_cons in Hs1 as [Hh Hl]. apply NoDup_cons. split; [|by apply NoDup_filter].
    intros [_ ?]%list_elem_of_filter. done.
  - intros a Ha. apply Hs2. apply elem_of_cons in Ha as [->|[_ Ha]%list_elem_of_filter]; set_solver.
  - intros a [_ Ha]%list_elem_of_filter. auto.
  - intros p x t i Heq Ht.
    assert (∃ p' t', head_ sl :: l = p' ++ x :: t' ∧ t = filter (tall lev 0) t') as (p' & t' & Hd & ->).
    { destruct p as [|z p]; simpl in Heq; injection Heq as <- Heq; [by exists [], l|].
      destruct (filter_cons_inv _ _ _ _ _ Heq) as (l1 & l2 & -> & ->).
      by exists (head_ sl :: l1), l2. }
    rewrite (Hs6 p' x t' i Hd Ht), filter_filter_tall. done.
  - by apply StronglySorted_filter.
Qed.

Lemma level0_walk_spec sl l lev fuel p x t :
  sl_inv sl l lev → head_ sl :: l = p ++ x :: t → (length t < fuel)%nat →
  level0_walk fuel sl x = Ret t.
Proof.
  intros Hinv. revert p x t. induction fuel as [|fuel IH]; intros p x t Heq Hf; [lia|].
  cbn [level0_walk]. rewrite (Node_Next_inv key0 sl l lev p x t 0); [|done|done|].
  2:{ eapply tall_0; [done|]. rewrite Heq. set_solver. }
  cbn [obind]. rewrite (filter_tall_0 key0 sl l lev (p ++ [x])) by (done || by rewrite <-app_assoc).
  destruct t as [|y t]; [done|]. simpl in *.
  rewrite (IH (p ++ [x]) y t); [done|by rewrite <-app_assoc|lia].
Qed.

Lemma contents_inv sl l lev : sl_inv sl l lev → contents sl = Ret (key_at sl <$> l).
Proof.
  intros Hinv. unfold SkipListConc.contents. pose proof (search_fuel_enough _ _ _ _ Hinv).
  rewrite (level0_walk_spec sl l lev _ [] (head_ sl) l) by (done || lia). done.
Qed.

(** ** The writer's invariant *)

Definition prev_ok lev (A : list Z) (prev : list slot) (h : nat) : Prop :=
  ∀ i, (i < h)%nat →
    ∃ z, last (filter (tall lev i) A) = Some z ∧ prev !! i = Some (At z).

(** A node that is being linked: its place, its level and the predecessors. *)
Definition linking sl l lev x prev (h i : nat) (a b : list Z) : Prop :=
  l = a ++ x :: b ∧ lev x = i ∧ (1 ≤ h ≤ max_height_ sl)%nat ∧ (i ≤ h)%nat ∧
  node_height sl x = Some h ∧ prev_ok lev (head_ sl :: a) prev h ∧
  splits sl (key_at sl x) a b ∧ (∀ y, y ∈ l → y ≠ x → (1 ≤ lev y)%nat).

Definition winv sl l lev (w : @wstate Key) : Prop :=
  sl_pre sl l lev ∧
  match w with
  | WIdle => ∀ y, y ∈ l → (1 ≤ lev y)%nat
  | WRaise k prev h | WNew k prev h =>
      (∀ y, y ∈ l → (1 ≤ lev y)%nat) ∧
      ∃ a b, l = a ++ b ∧ splits sl k a b ∧ (1 ≤ h ≤ kMaxHeight)%nat ∧
        prev_ok lev (head_ sl :: a) prev h ∧
        match w with
        | WRaise _ _ _ => (max_height_ sl ≤ h)%nat
        | _ => (h ≤ max_height_ sl)%nat
        end
  | WInit x prev h i => ∃ a b, linking sl l lev x prev h i a b
  | WPublish x prev h i => ∃ a b,
      linking sl l lev x prev h i a b ∧ (i < h)%nat ∧
      link sl x i = Some (slot_of (head (filter (tall lev i) b)))
  end.

(** What never shrinks: nodes stay where they are, keep their key and only gain
    levels. *)
Definition extends sl l lev sl' l' lev' : Prop :=
  head_ sl' = head_ sl ∧
  ∀ y, y ∈ head_ sl :: l → y ∈ head_ sl :: l' ∧ (lev y ≤ lev' y)%nat ∧ key_at sl' y = key_at sl y.

Lemma begin_insert_inv k sl l lev :
  winv sl l lev WIdle → seed_ok (rnd_ sl) →
  begin_insert k sl = Abort ∨
  ∃ w sl', begin_insert k sl = Ret (w, sl') ∧
    winv sl' l lev w ∧ w ≠ WIdle ∧ seed_ok (rnd_ sl') ∧ nodes sl' = nodes sl ∧ head_ sl' = head_ sl.
Proof.
  intros [Hpre Hlev] Hr. assert (Hinv : sl_inv sl l lev) by (by split).
  unfold SkipListConc.begin_insert.
  assert (HP : ∀ P, Some (replicate kMaxHeight Uninit) = Some P → length P = kMaxHeight)
    by (by intros ? [= <-]).
  destruct (FindGreaterOrEqual_inv key0 sl l lev k _ Hinv HP)
    as (a & b & [P'|] & -> & Hl & Hsp & Hpost); [|done]. cbn [obind deref].
  destruct (dup_test key0 sl l lev k a b Hinv Hl Hsp) as (d & -> & _). cbn [obind].
  destruct (negb NDEBUG && d); [by left|right].
  destruct (RandomHeight_spec (rnd_ sl) Hr) as (h & r' & -> & Hh & Hr').
  set (sl1 := mkSkipList _ _ _ r').
  assert (Hpre1 : sl_pre sl1 l lev) by (destruct Hpre; by split).
  pose proof (prev_complete key0 sl l lev a b h _ P' _ Hinv Hl (HP _ eq_refl) Hpost
    ltac:(lia) eq_refl) as (Hmh1 & Hmh2 & Hprev).
  destruct (decide (GetMaxHeight sl < h)%nat); eexists _, sl1;
    (split; [done|split_and!; [|done..]]); (split; [done|]);
    (split; [done|]); exists a, b; split_and!; auto; try lia; unfold GetMaxHeight in *; simpl; lia.
Qed.

(** ** Each step of the writer *)

Definition visible_keys sl l lev : list Key := key_at sl <$> filter (tall lev 0) l.

(** The effect of a step on the visible keys. *)
Definition keys_after sl (w : @wstate Key) (ks : list Key) : list Key :=
  match w with
  | WPublish x _ _ O => ordered_insert (key_at sl x) ks
  | _ => ks
  end.

Definition wpost sl l lev w sl' l' lev' (w' : @wstate Key) : Prop :=
  winv sl' l' lev' w' ∧ extends sl l lev sl' l' lev' ∧ rnd_ sl' = rnd_ sl ∧
  visible_keys sl' l' lev' = keys_after sl w (visible_keys sl l lev).

Lemma sl_pre_raise sl l lev h :
  sl_pre sl l lev → (max_height_ sl ≤ h ≤ kMaxHeight)%nat →
  sl_pre (mkSkipList (nodes sl) (head_ sl) h (rnd_ sl)) l lev.
Proof.
  intros [Hs1 Hs2 Hs3 Hs4 Hs5 Hs6 Hs7] Hh. split; auto; simpl; [lia|].
  intros y Hy. specialize (Hs5 y Hy). lia.
Qed.

Lemma raise_post sl l lev k prev h :
  winv sl l lev (WRaise k prev h) →
  wpost sl l lev (WRaise k prev h) (mkSkipList (nodes sl) (head_ sl) h (rnd_ sl)) l lev (WNew k prev h).
Proof.
  intros (Hpre & Hlev & a & b & Hl & Hsp & Hh & Hprev & Hm). split_and!; auto.
  - split; [apply sl_pre_raise; [done|lia]|]. split; [done|]. exists a, b. split_and!; auto; simpl; lia.
  - split; auto.
Qed.

Lemma new_post sl l lev k prev h x :
  winv sl l lev (WNew k prev h) → nodes sl !! x = None →
  ∃ a b, wpost sl l lev (WNew k prev h)
    (with_nodes sl (<[x := mkNode k (replicate h Uninit)]> (nodes sl)))
    (a ++ x :: b) (set_lev lev x 0) (WInit x prev h 0).
Proof.
  intros (Hpre & Hlev & a & b & Hl & Hsp & Hh & Hprev & Hm) Hx.
  assert (Hinv : sl_inv sl l lev) by (by split).
  exists a, b. pose proof (place_not_in key0 sl l lev x Hinv Hx) as Hnin.
  pose proof (si_height _ _ _ _ Hpre) as Hmax.
  pose proof (place_pre key0 sl l a b lev x k h (max_height_ sl) (rnd_ sl) Hinv Hl Hx Hsp
    ltac:(lia)) as Hpre1. fold (with_nodes sl (<[x := mkNode k (replicate h Uninit)]> (nodes sl))) in Hpre1.
  set (sl1 := with_nodes _ _) in *.
  assert (Hkey : ∀ y, y ≠ x → key_at sl1 y = key_at sl y).
  { intros y Hy. apply (place_key_at key0 sl x k h (max_height_ sl) (rnd_ sl) y Hy). }
  assert (Hkx : key_at sl1 x = k) by apply (place_key_x key0 sl x k h (max_height_ sl) (rnd_ sl)).
  assert (Hab : ∀ y, y ∈ a ++ b → y ≠ x) by (intros y Hy ->; apply Hnin; rewrite Hl; by right).
  split_and!.
  - split; [exact Hpre1|]. exists a, b. split_and!; auto; try (simpl; lia).
    + unfold set_lev. by rewrite decide_True.
    + unfold node_height, sl1. simpl. rewrite lookup_insert_eq. simpl. by rewrite length_replicate.
    + intros i Hi. destruct (Hprev i Hi) as (z & Hz & ?). exists z. split; [|done].
      rewrite (filter_tall_ext _ lev); [done|]. intros w Hw. apply tall_set_lev_other.
      intros ->. apply Hnin. rewrite Hl. simpl in Hw. set_solver.
    + rewrite Hkx. destruct Hsp as [Ha Hb]. rewrite !Forall_forall in *. split; apply Forall_forall.
      * intros y Hy. unfold SkipList.klt. rewrite Hkey by (apply Hab; set_solver). by apply Ha.
      * intros y Hy. unfold SkipList.klt. rewrite Hkey by (apply Hab; set_solver). by apply Hb.
    + intros y Hy Hyx. unfold set_lev. rewrite decide_False by done. apply Hlev. rewrite Hl. set_solver.
  - split; [done|]. intros y Hy. assert (y ≠ x) by (by intros ->). split_and!.
    + rewrite Hl in Hy. set_solver.
    + unfold set_lev. by rewrite decide_False.
    + auto.
  - done.
  - unfold visible_keys. rewrite filter_skip, Hl by (intros Hin; apply (Hab x); set_solver).
    apply list_fmap_ext. intros i y [_ Hy]%list_elem_of_lookup_2%list_elem_of_filter.
    auto.
Qed.

(** A store to a link of [x] above the levels at which [x] is linked. *)
Lemma set_unlinked sl l lev x i v h :
  sl_pre sl l lev → node_height sl x = Some h → (lev x ≤ i < h)%nat →
  ∃ sl', Node_SetNext sl x i v = Ret sl' ∧ same_nodes key0 sl sl' ∧ sl_pre sl' l lev ∧
    (∀ w j, link sl' w j = if decide (w = x ∧ j = i) then Some (slot_of v) else link sl w j).
Proof.
  intros [Hs1 Hs2 Hs3 Hs4 Hs5 Hs6 Hs7] Hh Hi.
  destruct (Node_SetNext_spec key0 sl x i v h Hh ltac:(lia)) as (sl' & -> & Hhd & Hm & Hr & Hnh & Hk & Hlk).
  exists sl'. split_and!; auto; [by split_and!|].
  split; rewrite ?Hhd, ?Hm; auto.
  - intros y Hy. rewrite Hnh. auto.
  - intros p y t j Heq Ht. rewrite Hlk, decide_False; [by apply (Hs6 p)|].
    intros [-> ->]. unfold tall in Ht. lia.
  - eapply StronglySorted_impl; [|exact Hs7]. intros u v'. unfold kle. by rewrite !Hk.
Qed.

Lemma same_nodes_extends sl sl' l lev lev' :
  same_nodes key0 sl sl' → (∀ y, (lev y ≤ lev' y)%nat) → extends sl l lev sl' l lev'.
Proof. intros (Hhd & _ & _ & _ & Hk) Hlev. split; [done|]. intros y Hy. by rewrite Hk. Qed.

Lemma same_nodes_linking sl sl' l lev x prev h i a b :
  same_nodes key0 sl sl' → linking sl l lev x prev h i a b → linking sl' l lev x prev h i a b.
Proof.
  intros (Hhd & Hm & _ & Hnh & Hk) (? & ? & ? & ? & ? & ? & [Ha Hb] & ?).
  unfold linking, SkipList.splits, SkipList.klt in *. rewrite Hhd, Hm, Hnh.
  split_and!; auto; try lia.
  - eapply Forall_impl; [exact Ha|]. intros y. by rewrite !Hk.
  - eapply Forall_impl; [exact Hb|]. intros y. by rewrite !Hk.
Qed.

Lemma visible_keys_same sl sl' l lev :
  same_nodes key0 sl sl' → visible_keys sl' l lev = visible_keys sl l lev.
Proof.
  intros (_ & _ & _ & _ & Hk). apply list_fmap_ext. intros j y _. apply Hk.
Qed.

(** The predecessor at a level, with the nodes between it and the new node. *)
Lemma linking_pred sl l lev x prev h i a b :
  sl_pre sl l lev → linking sl l lev x prev h i a b → (i < h)%nat →
  ∃ z hz, prev !! i = Some (At z) ∧ last (filter (tall lev i) (head_ sl :: a)) = Some z ∧
    z ≠ x ∧ node_height sl z = Some hz ∧ (i < hz)%nat ∧
    link sl z i = Some (slot_of (head (filter (tall lev i) b))).
Proof.
  intros Hpre (Hl & Hx & Hh & _ & Hnh & Hprev & _ & _) Hi.
  destruct (Hprev i Hi) as (z & Hz & Hpz).
  destruct (last_filter_decompose _ _ _ _ Hz) as (pz & sz & Hhz & Htz & Hsz).
  assert (Hza : z ∈ head_ sl :: a) by (rewrite Hhz; apply elem_of_app; right; by left).
  destruct (step_x_fresh key0 sl l lev a b x Hpre Hl) as [_ Hxa].
  assert (Hzx : z ≠ x) by (by intros ->).
  assert (Hzin : z ∈ head_ sl :: l) by (rewrite Hl, app_comm_cons; apply elem_of_app; by left).
  destruct (si_nodes _ _ _ _ Hpre z Hzin) as (hz & Hhz' & Hlevz).
  exists z, hz. split_and!; auto; [unfold tall in Htz; lia|].
  rewrite (si_link _ _ _ _ Hpre pz z (sz ++ x :: b) i);
    [|by rewrite Hl, app_comm_cons, Hhz, <-app_assoc|done].
  rewrite filter_app, Hsz, filter_cons_False; [done|]. unfold tall. lia.
Qed.

Lemma init_post sl l lev x prev h i s :
  winv sl l lev (WInit x prev h i) →
  ∃ sl' w', writer_step (WInit x prev h i) (sl, s) = Ret (w', (sl', s)) ∧
    same_nodes key0 sl sl' ∧ wpost sl l lev (WInit x prev h i) sl' l lev w'.
Proof.
  intros (Hpre & a & b & Hlk). pose proof Hlk as (Hl & Hx & Hh & Hih & Hnh & Hprev & Hsp & Hlev).
  cbn [SkipListConc.writer_step]. destruct (decide (i < h)%nat) as [Hi|Hi].
  - destruct (linking_pred _ _ _ _ _ _ _ _ _ Hpre Hlk Hi) as (z & hz & -> & _ & _ & _ & _ & Hlz).
    cbn [slot_load deref obind]. unfold NoBarrier_Next. rewrite (Node_Next_link _ _ _ _ Hlz).
    cbn [obind]. unfold NoBarrier_SetNext.
    destruct (set_unlinked sl l lev x i (head (filter (tall lev i) b)) h Hpre Hnh ltac:(lia))
      as (sl' & -> & Hsame & Hpre' & Hlink). cbn [obind].
    exists sl', (WPublish x prev h i). split_and!; [done|done|]. split_and!.
    + split; [done|]. exists a, b. split_and!; [by eapply same_nodes_linking|done|].
      by rewrite Hlink, decide_True.
    + by apply same_nodes_extends.
    + apply Hsame.
    + by apply visible_keys_same.
  - exists sl, WIdle. split_and!; [done|reflexivity|]. split_and!; auto.
    + split; [done|]. intros y Hy. destruct (decide (y = x)) as [->|]; [lia|auto].
    + by apply same_nodes_extends.
Qed.

Lemma publish_pre sl sl' l lev x prev h i a b z :
  sl_pre sl l lev → linking sl l lev x prev h i a b → (i < h)%nat →
  link sl x i = Some (slot_of (head (filter (tall lev i) b))) →
  last (filter (tall lev i) (head_ sl :: a)) = Some z → same_nodes key0 sl sl' →
  (∀ w j, link sl' w j = if decide (w = z ∧ j = i) then Some (At x) else link sl w j) →
  sl_pre sl' l (set_lev lev x (Datatypes.S i)).
Proof.
  intros Hpre (Hl & Hx & Hh & Hih & Hnh & Hprev & Hsp & Hlev) Hi Hlx Hz Hsame Hlink.
  pose proof Hsame as (Hhd & Hm & _ & Hnh' & Hk).
  assert (Hxh : x ≠ head_ sl).
  { pose proof (step_x_fresh key0 sl l lev a b x Hpre Hl) as [_ Hn]. set_solver. }
  split; rewrite ?Hhd, ?Hm.
  - apply Hpre.
  - intros w Hw. rewrite Hnh'. unfold set_lev. destruct (decide (w = x)) as [->|]; [|by apply Hpre].
    exists h. split; [done|lia].
  - unfold set_lev. rewrite decide_False by done. apply Hpre.
  - apply Hpre.
  - intros w Hw. unfold set_lev. destruct (decide (w = x)); [lia|by apply Hpre].
  - rewrite <-Hhd. apply (step_links key0 sl sl' l lev a b x z i Hpre Hl Hx Hz Hhd).
    intros w j. rewrite Hlink. destruct (decide (w = z ∧ j = i)); [done|].
    by destruct (decide (w = x ∧ j = i)) as [[-> ->]|].
  - eapply StronglySorted_impl; [|apply Hpre]. intros u v. unfold kle. by rewrite !Hk.
Qed.

Lemma publish_keys sl l lev x prev h i a b :
  sl_pre sl l lev → linking sl l lev x prev h i a b →
  key_at sl <$> filter (tall (set_lev lev x (Datatypes.S i)) 0) l =
  keys_after sl (WPublish x prev h i) (visible_keys sl l lev).
Proof.
  intros Hpre (Hl & Hx & Hh & Hih & Hnh & Hprev & Hsp & Hlev).
  assert (Hall : filter (tall (set_lev lev x (Datatypes.S i)) 0) l = l).
  { apply filter_all, Forall_forall. intros y Hy. unfold tall, set_lev.
    destruct (decide (y = x)) as [|Hyx]; [lia|]. specialize (Hlev y Hy Hyx). lia. }
  rewrite Hall. unfold visible_keys. destruct i as [|i]; cbn [keys_after].
  - assert (Hab : filter (tall lev 0) l = a ++ b).
    { rewrite Hl, filter_app, filter_cons_False by (unfold tall; lia).
      pose proof (step_x_fresh key0 sl l lev a b x Hpre Hl) as [Hxb Hxa].
      f_equal; apply filter_all, Forall_forall; intros y Hy; unfold tall;
        (assert (1 ≤ lev y)%nat; [|lia]); apply Hlev; set_solver. }
    rewrite Hab, (ordered_insert_splits key0 sl (key_at sl x) a b Hsp), Hl, fmap_app. done.
  - rewrite filter_all; [done|]. apply Forall_forall. intros y Hy. unfold tall.
    destruct (decide (y = x)) as [->|Hyx]; [lia|]. specialize (Hlev y Hy Hyx). lia.
Qed.

Lemma publish_post sl l lev x prev h i s :
  winv sl l lev (WPublish x prev h i) →
  ∃ sl' lev' w', writer_step (WPublish x prev h i) (sl, s) = Ret (w', (sl', s)) ∧
    same_nodes key0 sl sl' ∧ wpost sl l lev (WPublish x prev h i) sl' l lev' w'.
Proof.
  intros (Hpre & a & b & Hlk & Hi & Hlx).
  pose proof Hlk as (Hl & Hx & Hh & Hih & Hnh & Hprev & Hsp & Hlev).
  destruct (linking_pred _ _ _ _ _ _ _ _ _ Hpre Hlk Hi) as (z & hz & Hpz & Hz & Hzx & Hhz & Hihz & _).
  cbn [SkipListConc.writer_step]. rewrite Hpz. cbn [slot_load deref obind].
  destruct (Node_SetNext_spec key0 sl z i (Some x) hz Hhz Hihz)
    as (sl' & -> & Hhd & Hm & Hr & Hnh' & Hk & Hlink). cbn [obind].
  assert (Hsame : same_nodes key0 sl sl') by (by split_and!).
  exists sl', (set_lev lev x (Datatypes.S i)), (WInit x prev h (i + 1)).
  split_and!; [done|done|]. split_and!.
  - split; [by eapply publish_pre|]. exists a, b.
    apply (same_nodes_linking sl sl'); [done|]. split_and!; auto; try lia.
    + unfold set_lev. rewrite decide_True by done. lia.
    + intros j Hj. destruct (Hprev j Hj) as (zj & Hzj & ?). exists zj. split; [|done].
      rewrite (filter_tall_ext _ lev); [done|]. intros w Hw. apply tall_set_lev_other. intros ->.
      by apply (step_x_fresh key0 sl l lev a b x Hpre Hl).
    + intros y Hy Hyx. unfold set_lev. rewrite decide_False by done. auto.
  - apply same_nodes_extends; [done|]. intros y. unfold set_lev.
    destruct (decide (y = x)) as [->|]; lia.
  - done.
  - rewrite <-(publish_keys sl l lev x prev h i a b Hpre Hlk).
    by apply visible_keys_same.
Qed.

(** ** The writer and the memory *)

Definition heap_inv sl s (R : list region) : Prop :=
  owned sl R ∧ alloc_inv s R ∧ seed_ok (rnd_ sl).

Lemma same_nodes_owned sl sl' R : same_nodes key0 sl sl' → owned sl R → owned sl' R.
Proof.
  intros (_ & _ & _ & Hnh & _) Hown w Hw. apply Hown.
  assert (Hh : is_Some (node_height sl w)).
  { rewrite <-Hnh. unfold node_height. destruct Hw as [nd ->]. eauto. }
  unfold node_height in Hh. by destruct (nodes sl !! w), Hh.
Qed.

Lemma writer_step_inv sl l lev w s R :
  sizeof_ok sizeof_Node → winv sl l lev w → w ≠ WIdle → heap_inv sl s R →
  safe (writer_step w (sl, s)) (λ '(w', (sl', s')), ∃ l' lev' R',
    wpost sl l lev w sl' l' lev' w' ∧ heap_inv sl' s' R').
Proof.
  intros Hsz Hw Hidle (Hown & Hs & Hr). destruct w as [|k prev h|k prev h|x prev h i|x prev h i].
  - done.
  - exists l, lev, R. split; [by apply raise_post|]. by split_and!.
  - cbn [SkipListConc.writer_step]. unfold NewNode. apply safe_bind, safe_bind.
    pose proof Hw as (_ & _ & a & b & _ & _ & Hh & _). unfold sizeof_ok in Hsz.
    eapply safe_mono; [apply (alloc_aligned_spec _ _ R); [done|unfold kMaxHeight in *; lia]|].
    intros [x s'] (Hx0 & Hxd & Hs'). cbn [obind safe].
    assert (Hxn : nodes sl !! x = None) by (eapply owned_fresh; [exact Hown| |exact Hxd]; lia).
    destruct (new_post sl l lev k prev h x Hw Hxn) as (a' & b' & Hpost).
    eexists _, _, _. split; [exact Hpost|]. split_and!; [|exact Hs'|done].
    intros w. simpl. rewrite lookup_insert_is_Some. intros [<-|[_ (n & Hn & Hin)%Hown]].
    + eexists. split; [|by left]. lia.
    + exists n. split; [done|by right].
  - destruct (init_post sl l lev x prev h i s Hw) as (sl' & w' & -> & Hsame & Hpost).
    exists l, lev, R. split; [done|]. split_and!; [by eapply same_nodes_owned|done|].
    destruct Hsame as (_ & _ & -> & _). done.
  - destruct (publish_post sl l lev x prev h i s Hw) as (sl' & lev' & w' & -> & Hsame & Hpost).
    exists l, lev', R. split; [done|]. split_and!; [by eapply same_nodes_owned|done|].
    destruct Hsame as (_ & _ & -> & _). done.
Qed.

(** ** The reader *)

Definition rinv sl l lev (k : Key) (r : rstate) : Prop :=
  match r with
  | RAt x level => x ∈ head_ sl :: l ∧ tall lev level x ∧ (x = head_ sl ∨ klt sl k x)
  | _ => True
  end.

Lemma rinv_extends sl l lev sl' l' lev' k r :
  extends sl l lev sl' l' lev' → rinv sl l lev k r → rinv sl' l' lev' k r.
Proof.
  intros [Hhd Hext] Hr. destruct r as [|x level|]; auto. destruct Hr as (Hx & Ht & Hk).
  destruct (Hext x Hx) as (Hx' & Hlev & Hkey). unfold rinv, SkipList.klt in *. rewrite Hhd, Hkey.
  split_and!; auto. unfold tall in *. lia.
Qed.

(** Where a reader stands in the visible list. *)
Lemma rinv_at sl l lev k x level :
  rinv sl l lev k (RAt x level) →
  ∃ p t, at_node key0 sl (filter (tall lev 0) l) k p x t.
Proof.
  intros (Hx & Ht & Hk). assert (Hv : x ∈ head_ sl :: filter (tall lev 0) l).
  { apply elem_of_cons in Hx as [->|Hx]; [by left|right]. apply list_elem_of_filter.
    split; [|done]. unfold tall in *. lia. }
  apply list_elem_of_split in Hv as (p & t & Heq). by exists p, t.
Qed.

Lemma FindGreaterOrEqual_at sl l lev k a b :
  sl_inv sl l lev → l = a ++ b → splits sl k a b →
  FindGreaterOrEqual sl k None = Ret (head b, None).
Proof.
  intros Hinv Hl Hsp.
  destruct (FindGreaterOrEqual_inv key0 sl l lev k None Hinv) as (a' & b' & prev & -> & Hl' & Hsp' & Hp);
    [done|]. destruct prev; [done|].
  destruct (splits_unique key0 sl k a b a' b' Hsp Hsp' ltac:(congruence)) as [_ ->]. done.
Qed.

Lemma reader_step_inv sl l lev k r :
  sl_pre sl l lev → rinv sl l lev k r →
  ∃ r', reader_step sl k r = Ret r' ∧ rinv sl l lev k r' ∧
    (∀ res, r' = RDone res → r = RDone res ∨ FindGreaterOrEqual sl k None = Ret (res, None)).
Proof.
  intros Hpre Hr. pose proof (sl_pre_visible _ _ _ Hpre) as Hinv.
  destruct r as [|x level|res].
  - eexists. split_and!; [done| |done]. split_and!; [by left| |by left].
    unfold tall, GetMaxHeight. rewrite (si_head _ _ _ _ Hpre). pose proof (si_height _ _ _ _ Hpre). lia.
  - destruct (rinv_at _ _ _ _ _ _ Hr) as (p & t & Hat). destruct Hr as (Hx & Ht & Hk).
    destruct (next_tall_cases key0 _ _ _ _ _ _ _ _ Hinv Hat Ht) as [Hnext Hcases].
    cbn [SkipListConc.reader_step]. rewrite Hnext. cbn [obind].
    set (nx := head (filter (tall lev level) t)) in *.
    assert ((∃ y, nx = Some y ∧ klt sl k y) ∨ ¬ ∃ y, nx = Some y ∧ klt sl k y)
      as [(y & -> & Hy)|Hno].
    { destruct nx as [y|]; [|right; naive_solver].
      destruct (decide (klt sl k y)); [left; eauto|right; naive_solver]. }
    + destruct Hcases as (s1 & s2 & -> & Hty & _ & Hky). cbn [KeyIsAfterNode]. rewrite Hky.
      cbn [obind]. replace (_ <? 0) with true by (symmetry; by apply Z.ltb_lt). cbn [deref obind].
      eexists. split_and!; [done| |done]. split_and!; auto.
      destruct Hat as [Heq _]. assert (Hyin : y ∈ head_ sl :: filter (tall lev 0) l).
      { rewrite Heq. set_solver. }
      apply elem_of_cons in Hyin as [->|[_ ?]%list_elem_of_filter]; set_solver.
    + assert (Hafter : KeyIsAfterNode sl k nx = Ret false).
      { destruct nx as [y|]; [|done]. destruct Hcases as (? & ? & _ & _ & _ & Hky).
        cbn [KeyIsAfterNode]. rewrite Hky. cbn [obind]. f_equal. apply Z.ltb_nlt. intros ?. eauto. }
      rewrite Hafter. cbn [obind]. destruct level as [|level].
      * eexists. split_and!; [done|done|]. intros ? [= <-]. right.
        assert (Hnx : nx = head t).
        { unfold nx. by rewrite (filter_tall_0 key0 sl _ lev (p ++ [x]))
            by (exact Hinv || (rewrite <-app_assoc; apply Hat)). }
        destruct (at_node_splits key0 _ _ _ _ _ _ _ Hinv Hat) as (a & _ & Hl & Hsp).
        { intros y Hy ?. apply Hno. exists y. by rewrite Hnx. }
        apply (FindGreaterOrEqual_at sl _ lev k a t) in Hinv; auto. by rewrite Hnx.
      * eexists. split_and!; [done| |done]. split_and!; auto. unfold tall in *. lia.
  - eexists. split_and!; [done|done|]. auto.
Qed.

(** ** Executions *)

Definition cinv (k : Key) (c : config) : Prop := ∃ l lev R,
  winv (mem c) l lev (writer c) ∧ heap_inv (mem c) (alloc c) R ∧ rinv (mem c) l lev k (reader c).

(** The start of an execution: a list at rest and a reader about to search. *)
Definition initial (ks : list Key) (c : config) : Prop :=
  (∃ R, represents key0 (mem c) R ks ∧ alloc_inv (alloc c) R) ∧
  writer c = WIdle ∧ reader c = RStart.

Lemma initial_cinv k ks c : initial ks c → cinv k c.
Proof.
  intros ((R & (l & lev & Hinv & _ & Hown & Hr) & Hs) & Hw & Hrd). exists l, lev, R.
  rewrite Hw, Hrd. split_and!; [|by split_and!|done]. destruct Hinv. by split.
Qed.

(** How a step changes the visible keys. *)
Definition keys_step (c c' : @config Key S) (ks : list Key) : list Key :=
  match writer c, writer c' with
  | WPublish _ _ _ _, WInit _ _ _ _ => keys_after (mem c) (writer c) ks
  | _, _ => ks
  end.

Lemma keys_step_same c c' ks : writer c' = writer c → keys_step c c' ks = ks.
Proof. unfold keys_step. intros ->. by destruct (writer c). Qed.

Lemma keys_step_writer c w m ks :
  writer_step (writer c) (mem c, alloc c) = Ret (w, m) →
  keys_after (mem c) (writer c) ks = keys_step c (mkConfig m.1 m.2 w (reader c)) ks.
Proof.
  unfold keys_step. simpl. destruct (writer c) as [| | | |x prev h i] eqn:E; simpl; auto.
  intros Heq. destruct w; [..|done|]; exfalso;
    repeat match goal with Hq : obind ?o _ = Ret _ |- _ => destruct o; try discriminate Hq; simpl in Hq end.
Qed.

Lemma step_inv k c c' l lev R :
  sizeof_ok sizeof_Node → step k c c' →
  winv (mem c) l lev (writer c) → heap_inv (mem c) (alloc c) R → rinv (mem c) l lev k (reader c) →
  ∃ l' lev' R',
    winv (mem c') l' lev' (writer c') ∧ heap_inv (mem c') (alloc c') R' ∧
    rinv (mem c') l' lev' k (reader c') ∧
    visible_keys (mem c') l' lev' = keys_step c c' (visible_keys (mem c) l lev).
Proof.
  intros Hsz Hstep Hw Hh Hr.
  destruct Hstep as [c kw w sl Hidle Hb|c w [sl s] Hidle Hb|c r Hb]; simpl.
  - rewrite Hidle in Hw. destruct Hh as (Hown & Hs & Hrnd).
    destruct (begin_insert_inv kw (mem c) l lev Hw Hrnd)
      as [Hab|(w' & sl' & Heq & Hw' & Hne & Hrnd' & Hn & Hhd)]; [congruence|].
    rewrite Hb in Heq. injection Heq as <- <-.
    assert (Hkey : ∀ y, key_at sl y = key_at (mem c) y).
    { intros y. unfold SkipList.key_at. by rewrite Hn. }
    exists l, lev, R. split_and!; auto.
    + split_and!; auto. intros a. rewrite Hn. apply Hown.
    + eapply rinv_extends; [|exact Hr]. split; [done|]. intros y Hy. by rewrite Hkey.
    + unfold keys_step. rewrite Hidle. apply list_fmap_ext. auto.
  - pose proof (writer_step_inv _ _ _ _ _ _ Hsz Hw Hidle Hh) as Hpost. rewrite Hb in Hpost.
    destruct Hpost as (l' & lev' & R' & (Hw' & Hext & _ & Hk) & Hh'). exists l', lev', R'.
    split_and!; auto; [by eapply rinv_extends|].
    by rewrite Hk, (keys_step_writer c w (sl, s)).
  - destruct (reader_step_inv _ _ _ _ _ (proj1 Hw) Hr) as (r' & Heq & Hr' & _).
    rewrite Hb in Heq. injection Heq as <-. exists l, lev, R. split_and!; auto.
    by rewrite keys_step_same.
Qed.

Lemma reachable_cinv k ks c0 c :
  sizeof_ok sizeof_Node → initial ks c0 → rtc (step k) c0 c → cinv k c.
Proof.
  intros Hsz Hc0 Hsteps. apply (initial_cinv k) in Hc0. revert Hc0.
  induction Hsteps as [|c0 c1 c2 Hstep _ IH]; [done|]. intros (l & lev & R & Hw & Hh & Hr).
  destruct (step_inv k _ _ l lev R Hsz Hstep Hw Hh Hr) as (l' & lev' & R' & ? & ? & ? & _).
  apply IH. by exists l', lev', R'.
Qed.

(** C19: reads need no lock.  In every execution of one writer and a reader from
    a list at rest, the reader's next access is defined, and when it finishes,
    its result is the one an atomic [FindGreaterOrEqual] gives at that moment,
    also in the middle of an insertion. *)
Theorem reader_linearizable k ks c0 c :
  sizeof_ok sizeof_Node → initial ks c0 → rtc (step k) c0 c →
  ∃ r, reader_step (mem c) k (reader c) = Ret r ∧
    ∀ res, r = RDone res →
      reader c = RDone res ∨ FindGreaterOrEqual (mem c) k None = Ret (res, None).
Proof.
  intros Hsz Hc0 Hsteps. destruct (reachable_cinv k ks c0 c Hsz Hc0 Hsteps) as (l & lev & R & Hw & _ & Hr).
  destruct (reader_step_inv _ _ _ _ _ (proj1 Hw) Hr) as (r & ? & _ & ?). eauto.
Qed.

(** An insertion takes effect at one store.  In such an execution the keys
    on the chain of level 0 are always in order, the store that publishes the
    new node at level 0 adds its key, and no other step changes them; the
    writer's steps are defined. *)
Theorem publish_linearizes k ks c0 c :
  sizeof_ok sizeof_Node → initial ks c0 → rtc (step k) c0 c →
  ∃ cur, contents (mem c) = Ret cur ∧ StronglySorted key_le cur ∧
    safe (writer_step (writer c) (mem c, alloc c)) (λ _, True) ∧
    ∀ c', step k c c' → contents (mem c') = Ret (keys_step c c' cur).
Proof.
  intros Hsz Hc0 Hsteps. destruct (reachable_cinv k ks c0 c Hsz Hc0 Hsteps) as (l & lev & R & Hw & Hh & Hr).
  pose proof (sl_pre_visible _ _ _ (proj1 Hw)) as Hinv.
  exists (visible_keys (mem c) l lev). split_and!.
  - by apply (contents_inv _ _ lev).
  - apply sorted_fmap, Hinv.
  - destruct (writer c) eqn:Ew; [done|..];
      (eapply safe_mono; [eapply writer_step_inv; [done| |done|done]; exact Hw|done]).
  - intros c' Hstep. destruct (step_inv k _ _ l lev R Hsz Hstep Hw Hh Hr) as (l' & lev' & R' & Hw' & _ & _ & <-).
    apply (contents_inv _ _ lev'), sl_pre_visible, Hw'.
Qed.

(** ** The scheduler *)

Lemma exec1_step k e c c' : exec1 sizeof_Node NDEBUG k e c = Ret c' → step k c c'.
Proof.
  destruct e as [kw| |]; cbn [exec1].
  - destruct (writer c) eqn:Ew; try done. intros ([w sl] & Hb & [= <-])%obind_Ret_inv.
    by eapply step_begin.
  - intros Heq. assert (Hne : writer c ≠ WIdle) by (by destruct (writer c)).
    assert (∃ w m, writer_step (writer c) (mem c, alloc c) = Ret (w, m) ∧
      c' = mkConfig m.1 m.2 w (reader c)) as (w & m & Hb & ->).
    { destruct (writer c); [done|..]; apply obind_Ret_inv in Heq as ([w m] & ? & [= <-]); eauto. }
    by eapply step_writer.
  - intros (r & Hb & [= <-])%obind_Ret_inv. by eapply step_reader.
Qed.

Lemma exec_steps k es c c' : exec sizeof_Node NDEBUG k es c = Ret c' → rtc (step k) c c'.
Proof.
  revert c. induction es as [|e es IH]; simpl; intros c; [by intros [= ->]|].
  intros (c1 & H1' & Hes)%obind_Ret_inv. eapply rtc_l; [by eapply exec1_step|auto].
Qed.

(** ** The steps are those of Insert *)

#[local] Abbreviation run_writer := (run_writer sizeof_Node NDEBUG).

Lemma obind_assoc {A B C} (m : outcome A) (f : A → outcome B) (g : B → outcome C) :
  obind (obind m f) g = obind m (λ a, obind (f a) g).
Proof. by destruct m. Qed.

(** The remaining levels of a node that is linked below level [i]. *)
Fixpoint link_from (n : nat) (x : Z) (prev : list slot) (i : nat) sl : outcome (SkipList Key) :=
  match n with
  | O => Ret sl
  | Datatypes.S n' => sl' ←! link_level x prev i sl; link_from n' x prev (i + 1) sl'
  end.

Lemma link_from_snoc n x prev i sl :
  link_from (Datatypes.S n) x prev i sl =
  (sl' ←! link_from n x prev i sl; link_level x prev (i + n) sl').
Proof.
  revert i sl. induction n as [|n IH]; intros i sl.
  { cbn [link_from obind]. rewrite Nat.add_0_r. by destruct (link_level x prev i sl). }
  change (link_from (Datatypes.S (Datatypes.S n)) x prev i sl)
    with (sl' ←! link_level x prev i sl; link_from (Datatypes.S n) x prev (i + 1) sl').
  cbn [link_from]. rewrite obind_assoc. destruct (link_level x prev i sl); try done. cbn [obind].
  pose proof (IH (i + 1)%nat a) as IHa. cbn [link_from] in IHa. rewrite IHa.
  by replace (i + 1 + n)%nat with (i + Datatypes.S n)%nat by lia.
Qed.

Lemma link_levels_from n x prev sl : link_levels n x prev sl = link_from n x prev 0 sl.
Proof.
  induction n as [|n IH]; [done|]. rewrite link_from_snoc. cbn [link_levels]. by rewrite IH.
Qed.

Lemma run_writer_links n h x prev i sl s fuel :
  (i + n = h)%nat → (2 * n < fuel)%nat →
  run_writer fuel (WInit x prev h i) (sl, s) = (sl' ←! link_from n x prev i sl; Ret (sl', s)).
Proof.
  revert i sl fuel. induction n as [|n IH]; intros i sl fuel Hi Hf.
  - destruct fuel as [|fuel]; [lia|]. cbn. rewrite decide_False by lia. cbn. by destruct fuel.
  - destruct fuel as [|[|fuel]]; [lia..|]. cbn [SkipListConc.run_writer SkipListConc.writer_step].
    rewrite decide_True by lia. cbn [link_from]. unfold link_level. rewrite !obind_assoc.
    destruct (slot_load (prev !! i)) as [p| | | |] eqn:Ep; try done. cbn [obind]. rewrite !obind_assoc.
    destruct (deref p) as [q| | | |] eqn:Eq; try done. cbn [obind]. rewrite !obind_assoc.
    destruct (NoBarrier_Next sl q i) as [nx| | | |]; try done. cbn [obind]. rewrite !obind_assoc.
    destruct (NoBarrier_SetNext sl x i nx) as [sl1| | | |]; try done.
    cbn [obind SkipListConc.run_writer SkipListConc.writer_step].
    rewrite Ep. cbn [obind]. rewrite Eq. cbn [obind].
    destruct (Node_SetNext sl1 q i (Some x)) as [sl2| | | |]; try done. cbn [obind].
    apply IH; lia.
Qed.

Lemma run_writer_new k prev h sl s fuel :
  (2 * h + 1 < fuel)%nat →
  run_writer fuel (WNew k prev h) (sl, s) =
  ('(x, m, s') ←! NewNode sizeof_Node NDEBUG k h (nodes sl) s;
   sl' ←! link_levels h x prev (with_nodes sl m); Ret (sl', s')).
Proof.
  intros Hf. destruct fuel as [|fuel]; [lia|].
  cbn [SkipListConc.run_writer SkipListConc.writer_step]. rewrite obind_assoc.
  destruct (NewNode _ _ _ _ _ _) as [[[x m] s']| | | |]; try done. cbn [obind].
  by rewrite (run_writer_links h), link_levels_from by lia.
Qed.

(** Run without interference, the steps of the writer are exactly
    [Insert], failures included; the fuel covers two stores for each of the at
    most twelve levels. *)
Theorem run_writer_Insert k sl s :
  ('(w, sl') ←! begin_insert k sl; run_writer (2 * kMaxHeight + 3) w (sl', s)) =
  Insert sizeof_Node NDEBUG k sl s.
Proof.
  assert (∃ fuel, 2 * kMaxHeight + 3 = Datatypes.S fuel ∧ 2 * kMaxHeight + 1 < fuel)%nat
    as (fuel & -> & Hfuel) by (exists (2 * kMaxHeight + 2)%nat; lia).
  unfold SkipListConc.begin_insert, SkipList.Insert. rewrite obind_assoc.
  destruct (FindGreaterOrEqual _ _ _) as [[y prev]| | | |]; try done. cbn [obind]. rewrite obind_assoc.
  destruct (deref prev) as [P| | | |]; try done. cbn [obind]. rewrite obind_assoc.
  destruct (match y with None => _ | Some _ => _ end) as [d| | | |]; try done. cbn [obind].
  destruct (negb NDEBUG && d); [done|].
  destruct (RandomHeight (rnd_ sl)) as [h r] eqn:Eh. pose proof (RandomHeight_bound (rnd_ sl)) as Hh.
  rewrite Eh in Hh. simpl in Hh.
  destruct (decide (GetMaxHeight sl < h)%nat); cbn [obind].
  - cbn [SkipListConc.run_writer SkipListConc.writer_step obind].
    rewrite run_writer_new by lia. done.
  - rewrite run_writer_new by lia. done.
Qed.
End proofs.

(** ** Concrete executions *)

#[local] Existing Instance Z_Comparator.
#[local] Existing Instance Z_ComparatorSpec.

Definition demo_config : @config Z (BumpHeap * Arena) :=
  mkConfig (demo true demo_keys).1 (demo true demo_keys).2 WIdle RStart.

Lemma demo_initial : ∃ ks, initial 0 ks demo_config.
Proof. destruct demo_represents as (R & ks & Hs & Hr & _). exists ks. by split_and!; eauto. Qed.

(** 22 is being inserted: the node has its link but is not published when the
    search for 24 starts; the node is published before the search gets there. *)
Definition demo_events : list (@event Z) :=
  [EBegin 22; EWriter; EWriter; EReader; EReader; EWriter; EReader; EReader].

Definition demo_mid : @config Z (BumpHeap * Arena) :=
  match exec 48 true 24 demo_events demo_config with Ret c => c | _ => demo_config end.

Lemma demo_mid_reachable : rtc (step 48 true 24) demo_config demo_mid.
Proof. apply (exec_steps 48 true 24 demo_events). vm_compute. reflexivity. Qed.

Example demo_mid_reads :
  reader demo_mid = RAt 65776 0 ∧
  (r ←! reader_step (mem demo_mid) 24 (reader demo_mid); Ret r) = Ret (RAt 65920 0).
Proof. vm_compute. split; reflexivity. Qed.

Lemma reader_linearizable_witness :
  ∃ r, reader_step (mem demo_mid) 24 (reader demo_mid) = Ret r ∧
    ∀ res, r = RDone res →
      reader demo_mid = RDone res ∨ FindGreaterOrEqual (mem demo_mid) 24 None = Ret (res, None).
Proof.
  destruct demo_initial as (ks & Hc0).
  exact (reader_linearizable 0 48 true 24 ks demo_config demo_mid ltac:(split; lia) Hc0 demo_mid_reachable).
Defined.

Lemma publish_linearizes_witness :
  ∃ cur, contents 0 (mem demo_mid) = Ret cur ∧ StronglySorted key_le cur.
Proof.
  destruct demo_initial as (ks & Hc0).
  destruct (publish_linearizes 0 48 true 24 ks demo_config demo_mid ltac:(split; lia) Hc0 demo_mid_reachable)
    as (cur & H1 & H2 & _).
  exists cur. split; assumption.
Defined.

(** Two insertions at the same place, interleaved: both read the successor
    before either publishes, and the second store drops the first node. *)
Definition two_writers (k1 k2 : Z) (schedule : list bool) : outcome (list Z) :=
  '(w1, sl) ←! begin_insert true k1 (mem demo_config);
  '(w2, sl) ←! begin_insert true k2 sl;
  '(w1, w2, m) ←! run_two 48 true schedule w1 w2 (sl, alloc demo_config);
  match w1, w2 with
  | WIdle, WIdle => contents 0 m.1
  | _, _ => Fuel
  end.

(** With two writers the promise is void: both insertions run to their end,
    and one key is not in the list. *)
Theorem two_writers_lose_a_key :
  ∃ schedule ks, two_writers 21 22 schedule = Ret ks ∧ 22 ∈ ks ∧ 21 ∉ ks.
Proof.
  exists [false; true; false; true; false; true; false; true], [10; 20; 22; 25; 30; 40].
  split_and!; [vm_compute; reflexivity|..]; refine (bool_decide_unpack _ _); vm_compute; reflexivity.
Qed.
