(* ===== verification/FiberMutex.v ===== *)
(** * The mutex of fibers: flare/fiber/detail/waitable.{h,cc}

    [Waitable] is the queue of fibers that wait for something, and [Mutex] a
    counter and a [Waitable].  The counter alone decides who gets the mutex when
    nobody else wants it; a fiber that finds it taken adds itself to the counter
    and to the queue, under a spinlock that orders the two for the fiber that
    unlocks.

    Any number of fibers run; a step of the model is one operation on shared
    memory of one of them.  [Mutex_safe] says that no check fails and that at most
    one fiber owns the mutex, in every interleaving; [Mutex_progress] that as long
    as nobody owns the mutex some fiber that is locking or unlocking can go on,
    so that no wake-up is lost. *)

From S2P Require Import Prelude.

(** ** Waitable *)

(** [satisfied] has the fibers whose wait block is marked; each fiber has one
    wait block at a time, on its stack. *)
Record Waitable := mkWaitable {
  persistent_awakened_ : bool;
  waiters_ : list nat;
  satisfied : gset nat;
}.

Definition Waitable_new : Waitable := mkWaitable false [] ∅.

(** The wait block is new, and not marked. *)
Definition AddWaiter (f : nat) (w : Waitable) : bool * Waitable :=
  if persistent_awakened_ w then (false, w)
  else (true, mkWaitable false (waiters_ w ++ [f]) (satisfied w ∖ {[f]})).

Definition TryRemoveWaiter (f : nat) (w : Waitable) : bool * Waitable :=
  (bool_decide (f ∈ waiters_ w), mkWaitable (persistent_awakened_ w) (filter (λ g, g ≠ f) (waiters_ w)) (satisfied w)).

Fixpoint WakeOne_loop (waiters : list nat) (sat : gset nat) : option nat * list nat * gset nat :=
  match waiters with
  | [] => (None, [], sat)
  | f :: waiters' => if decide (f ∈ sat) then WakeOne_loop waiters' sat else (Some f, waiters', {[f]} ∪ sat)
  end.

Definition WakeOne (w : Waitable) : option nat * Waitable :=
  let '(f, waiters, sat) := WakeOne_loop (waiters_ w) (satisfied w) in
  (f, mkWaitable (persistent_awakened_ w) waiters sat).

Fixpoint wake_all (waiters : list nat) (sat : gset nat) : list nat * gset nat :=
  match waiters with
  | [] => ([], sat)
  | f :: waiters' =>
      if decide (f ∈ sat) then wake_all waiters' sat
      else let '(fs, sat') := wake_all waiters' ({[f]} ∪ sat) in (f :: fs, sat')
  end.

Definition SetPersistentAwakened (w : Waitable) : list nat * Waitable :=
  let '(fs, sat) := wake_all (waiters_ w) (satisfied w) in
  (fs, mkWaitable true [] sat).

Definition ResetAwakened (w : Waitable) : Waitable := mkWaitable false (waiters_ w) (satisfied w).

(** ** Mutex *)

Module Mutex.

(** Where a fiber is. *)
Inductive pc :=
| Outside
| Lock               (* in [lock], before [try_lock] *)
| LockSlow           (* before the second [try_lock] *)
| Slow_spin          (* before [slow_path_lock_] is taken *)
| Slow_count         (* before [fetch_add] *)
| Slow_lucky         (* [fetch_add] returned 0; before [slow_path_lock_] is released *)
| Slow_add           (* before [AddWaiter] *)
| Slow_unspin        (* before [slow_path_lock_] is released *)
| Slow_halt          (* before [Halt] has released the scheduler lock *)
| Halted
| Awake              (* made ready, before the last check of [LockSlow] *)
| Owner
| Unlock_spin        (* in [unlock], before [slow_path_lock_] is taken *)
| Unlock_wake        (* before [WakeOne] *)
| Unlock_unspin (f : nat)
| Unlock_ready (f : nat).

#[export] Instance pc_eq_dec : EqDecision pc.
Proof. solve_decision. Defined.

Record state := mkMutex {
  impl_ : Waitable;
  slow_path_lock_ : option nat;
  count_ : Z;
  pcs : gmap nat pc;
}.

Implicit Types (s : state) (i f : nat).

Definition goto i (p : pc) s : state := mkMutex (impl_ s) (slow_path_lock_ s) (count_ s) (<[i := p]> (pcs s)).
Definition set_count (c : Z) s : state := mkMutex (impl_ s) (slow_path_lock_ s) c (pcs s).
Definition set_spin (o : option nat) s : state := mkMutex (impl_ s) o (count_ s) (pcs s).
Definition set_impl (w : Waitable) s : state := mkMutex w (slow_path_lock_ s) (count_ s) (pcs s).

(** [compare_exchange_strong] of 0 by 1. *)
Definition try_lock s : bool * state :=
  if decide (count_ s = 0) then (true, set_count 1 s) else (false, s).

(** The next operation of a fiber, [None] when it has to wait: for the spinlock,
    to be made ready, or for the scheduler lock of the fiber it makes ready. *)
Definition next i s : option (outcome state) :=
  match pcs s !! i with
  | None | Some Outside | Some Halted => None
  | Some Lock => Some (let '(b, s') := try_lock s in Ret (goto i (if b then Owner else LockSlow) s'))
  | Some LockSlow => Some (let '(b, s') := try_lock s in Ret (goto i (if b then Owner else Slow_spin) s'))
  | Some Slow_spin =>
      match slow_path_lock_ s with
      | Some _ => None
      | None => Some (Ret (goto i Slow_count (set_spin (Some i) s)))
      end
  | Some Slow_count =>
      let was := count_ s in
      let s' := set_count (u32 (was + 1)) s in
      Some (Ret (goto i (if decide (was = 0) then Slow_lucky else Slow_add) s'))
  | Some Slow_lucky => Some (Ret (goto i Owner (set_spin None s)))
  | Some Slow_add =>
      let '(b, w) := AddWaiter i (impl_ s) in
      Some (if b then Ret (goto i Slow_unspin (set_impl w s)) else Abort)
  | Some Slow_unspin => Some (Ret (goto i Slow_halt (set_spin None s)))
  | Some Slow_halt => Some (Ret (goto i Halted s))
  | Some Awake =>
      let '(b, w) := TryRemoveWaiter i (impl_ s) in
      Some (if b then Abort else Ret (goto i Owner (set_impl w s)))
  | Some Owner =>
      let was := count_ s in
      let s' := set_count (u32 (was - 1)) s in
      Some (if decide (was = 1) then Ret (goto i Outside s')
            else if decide (1 < was) then Ret (goto i Unlock_spin s') else Abort)
  | Some Unlock_spin =>
      match slow_path_lock_ s with
      | Some _ => None
      | None => Some (Ret (goto i Unlock_wake (set_spin (Some i) s)))
      end
  | Some Unlock_wake =>
      let '(o, w) := WakeOne (impl_ s) in
      Some (match o with Some f => Ret (goto i (Unlock_unspin f) (set_impl w s)) | None => Abort end)
  | Some (Unlock_unspin f) => Some (Ret (goto i (Unlock_ready f) (set_spin None s)))
  | Some (Unlock_ready f) =>
      match pcs s !! f with
      | Some Halted => Some (Ret (goto i Outside (goto f Awake s)))
      | Some Slow_unspin | Some Slow_halt => None
      | _ => Some Undef
      end
  end.

(** The fibers call [lock] and [try_lock] from outside, and the owner calls
    [unlock]. *)
Inductive event := Call_lock i | Call_try_lock i | Go i.

Definition step (e : event) s : option (outcome state) :=
  match e with
  | Call_lock i => match pcs s !! i with Some Outside => Some (Ret (goto i Lock s)) | _ => None end
  | Call_try_lock i =>
      match pcs s !! i with
      | Some Outside => Some (let '(b, s') := try_lock s in Ret (if b then goto i Owner s' else s'))
      | _ => None
      end
  | Go i => next i s
  end.

Definition initial (n : nat) : state :=
  mkMutex Waitable_new None 0 (fibers n Outside).

Inductive reachable (n : nat) : state → Prop :=
| Reach_initial : reachable n (initial n)
| Reach_step e s s' : reachable n s → step e s = Some (Ret s') → reachable n s'.

(** ** The invariant *)

Definition owning (p : pc) : Prop :=
  match p with Owner | Awake | Slow_lucky => True | _ => False end.
Definition unlocking (p : pc) : Prop :=
  match p with Unlock_spin | Unlock_wake | Unlock_unspin _ | Unlock_ready _ => True | _ => False end.
Definition counted (p : pc) : Prop :=
  match p with Slow_add | Slow_unspin | Slow_halt | Halted => True | _ => False end.
Definition queued (p : pc) : Prop :=
  match p with Slow_unspin | Slow_halt | Halted => True | _ => False end.
Definition spinning (p : pc) : Prop :=
  match p with Slow_count | Slow_lucky | Slow_add | Slow_unspin | Unlock_wake | Unlock_unspin _ => True | _ => False end.
Definition popped_by (f : nat) (p : pc) : Prop := p = Unlock_unspin f ∨ p = Unlock_ready f.

#[export] Instance owning_dec p : Decision (owning p).
Proof. destruct p; apply _. Defined.
#[export] Instance unlocking_dec p : Decision (unlocking p).
Proof. destruct p; apply _. Defined.
#[export] Instance counted_dec p : Decision (counted p).
Proof. destruct p; apply _. Defined.
#[export] Instance queued_dec p : Decision (queued p).
Proof. destruct p; apply _. Defined.
#[export] Instance spinning_dec p : Decision (spinning p).
Proof. destruct p; apply _. Defined.
#[export] Instance popped_by_dec f p : Decision (popped_by f p).
Proof. apply _. Defined.

Record inv (n : nat) s : Prop := {
  iv_size : size (pcs s) = n;
  iv_count : count_ s = Z.of_nat (cnt owning (pcs s) + cnt counted (pcs s));
  iv_one : (cnt owning (pcs s) + cnt unlocking (pcs s) ≤ 1)%nat;
  iv_token : (0 < cnt counted (pcs s))%nat → (cnt owning (pcs s) + cnt unlocking (pcs s) = 1)%nat;
  iv_waiter : (0 < cnt unlocking (pcs s))%nat → (0 < cnt counted (pcs s))%nat;
  iv_spin : owner_ok spinning (slow_path_lock_ s) (pcs s);
  iv_awakened : persistent_awakened_ (impl_ s) = false;
  iv_nodup : NoDup (waiters_ (impl_ s));
  iv_queue f : f ∈ waiters_ (impl_ s) ↔ (∃ p, pcs s !! f = Some p ∧ queued p) ∧ ∀ u p, pcs s !! u = Some p → ¬ popped_by f p;
  iv_unmarked f : f ∈ waiters_ (impl_ s) → f ∉ satisfied (impl_ s);
  iv_popped u p f : pcs s !! u = Some p → popped_by f p → pcs s !! f = Some Slow_halt ∨ pcs s !! f = Some Halted;
}.
(** *** One fiber moves *)

Section moves.
Context (P : gmap nat pc) (i : nat) (p q : pc) (Hi : P !! i = Some p).

Definition queue_ok (ws : list nat) (P : gmap nat pc) : Prop :=
  ∀ f, f ∈ ws ↔ (∃ p, P !! f = Some p ∧ queued p) ∧ ∀ u p, P !! u = Some p → ¬ popped_by f p.

Definition popped_ok (P : gmap nat pc) : Prop :=
  ∀ u p f, P !! u = Some p → popped_by f p → P !! f = Some Slow_halt ∨ P !! f = Some Halted.

Lemma queue_same ws : queue_ok ws P → (queued p ↔ queued q) → (∀ f, popped_by f p ↔ popped_by f q) → queue_ok ws (<[i := q]> P).
Proof.
  intros Hw Hq Hpop f. rewrite (Hw f). setoid_rewrite lookup_goto. split.
  - intros [(x & Hx & Hqx) Hn]. split.
    + destruct (decide (f = i)) as [->|]; [exists q; naive_solver|exists x; naive_solver].
    + intros u x' [[-> ->]|[Hne Hu]]; [rewrite <-Hpop|]; eauto.
  - intros [(x & [[-> ->]|[Hne Hx]] & Hqx) Hn]; (split; [naive_solver|]); intros u x' Hu;
      (destruct (decide (u = i)) as [->|]; [|by apply (Hn u); right]); assert (x' = p) as -> by congruence; rewrite Hpop; apply (Hn i); by left.
Qed.

Lemma popped_same : popped_ok P → (∀ f, popped_by f p ↔ popped_by f q) →
  (p = Slow_halt ∨ p = Halted → q = Slow_halt ∨ q = Halted) → popped_ok (<[i := q]> P).
Proof.
  intros Ho Hpop Hpq u x f Hu Hx.
  assert (Hf : P !! f = Some Slow_halt ∨ P !! f = Some Halted).
  { apply lookup_goto in Hu as [[-> ->]|[_ Hu]]; [apply (Ho i p)|apply (Ho u x)]; [done|by rewrite Hpop|done..]. }
  destruct (decide (f = i)) as [->|]; [rewrite lookup_insert_eq|by rewrite lookup_insert_ne]. 
  assert (Hq : q = Slow_halt ∨ q = Halted) by (apply Hpq; naive_solver congruence). naive_solver.
Qed.
End moves.

Ltac b2n_eval := repeat match goal with
  | H : context [@b2n ?X ?d] |- _ => let v := eval vm_compute in (@b2n X d) in change (@b2n X d) with v in H
  end.

(** The numbers of fibers in each kind of state after a move. *)
Ltac counts Hi q :=
  let H1 := fresh "Hc" in let H2 := fresh "Hc" in let H3 := fresh "Hc" in
  pose proof (cnt_insert owning _ _ _ q Hi) as H1; pose proof (cnt_insert unlocking _ _ _ q Hi) as H2;
  pose proof (cnt_insert counted _ _ _ q Hi) as H3; b2n_eval.

Ltac no_pop := let f := fresh in intros f; unfold popped_by; split; intros [?|?]; first [congruence | left; congruence | right; congruence].

(** A move that keeps the queue. *)
Lemma Mutex_move_inv n s i p q o c :
  inv n s → pcs s !! i = Some p →
  (queued p ↔ queued q) → (∀ f, popped_by f p ↔ popped_by f q) → (p = Slow_halt ∨ p = Halted → q = Slow_halt ∨ q = Halted) →
  c = Z.of_nat (cnt owning (<[i := q]> (pcs s)) + cnt counted (<[i := q]> (pcs s))) →
  (cnt owning (<[i := q]> (pcs s)) + cnt unlocking (<[i := q]> (pcs s)) ≤ 1)%nat →
  ((0 < cnt counted (<[i := q]> (pcs s)))%nat → (cnt owning (<[i := q]> (pcs s)) + cnt unlocking (<[i := q]> (pcs s)) = 1)%nat) →
  ((0 < cnt unlocking (<[i := q]> (pcs s)))%nat → (0 < cnt counted (<[i := q]> (pcs s)))%nat) →
  owner_ok spinning o (<[i := q]> (pcs s)) →
  inv n (mkMutex (impl_ s) o c (<[i := q]> (pcs s))).
Proof.
  intros [? ? ? ? ? ? ? ? Hqueue ? Hpop] Hi Hq Hpq Hh Hc H1 H2 H3 Hs. split; cbn; auto.
  - rewrite map_size_insert_Some; eauto.
  - by eapply queue_same.
  - by eapply popped_same.
Qed.

Lemma Mutex_cnt_fits (P : gmap nat pc) : (cnt owning P + cnt counted P ≤ size P)%nat.
Proof. apply cnt_disjoint. intros []; cbn; tauto. Qed.

Lemma goto_fits n s i p q :
  inv n s → pcs s !! i = Some p → (cnt owning (<[i := q]> (pcs s)) + cnt counted (<[i := q]> (pcs s)) ≤ n)%nat.
Proof.
  intros Hinv Hi. rewrite <-(iv_size _ _ Hinv). erewrite <-(map_size_insert_Some i q (pcs s)) by (by eexists). apply Mutex_cnt_fits.
Qed.

(** *** Each operation keeps the invariant *)

Section steps.
Context (n : nat) (Hn : Z.of_nat n < 2 ^ 32).

#[local] Abbreviation good s r := (match r with Some (Ret s') => inv n s' | Some _ => False | None => True end).

Ltac quiet Hinv Hi :=
  eapply (Mutex_move_inv n _ _ _ _ _ _ Hinv Hi); [cbn; tauto|no_pop|intros [?|?]; (congruence || (left; congruence) || (right; congruence))|..].
Ltac same_spin Hi := eapply (owner_same _ _ _ _ _ _ ltac:(eassumption) Hi); cbn; tauto.

(** [try_lock], from outside or from [lock]. *)
Lemma try_lock_inv s i p q :
  inv n s → pcs s !! i = Some p →
  p = Outside ∨ p = Lock ∨ p = LockSlow → q = Outside ∨ q = LockSlow ∨ q = Slow_spin →
  inv n (let '(b, s') := try_lock s in goto i (if b then Owner else q) s').
Proof.
  intros Hinv Hi Hp Hq. pose proof Hinv as [Hsz Hcnt H1 H2 H3 Hspin _ _ _ _ _]. unfold try_lock.
  destruct (decide (count_ s = 0)) as [E|E].
  - counts Hi Owner. destruct Hp as [->|[->| ->]]; b2n_eval; quiet Hinv Hi; try (cbn; lia); same_spin Hi.
  - counts Hi q. destruct Hp as [->|[->| ->]], Hq as [->|[->| ->]]; b2n_eval; quiet Hinv Hi; try (cbn; lia); same_spin Hi.
Qed.

Lemma spin_steps_inv s i p :
  inv n s → pcs s !! i = Some p →
  match p with Slow_spin | Slow_count | Slow_lucky | Slow_unspin | Slow_halt | Unlock_spin | Unlock_unspin _ | Owner => True | _ => False end →
  good s (next i s).
Proof.
  intros Hinv Hi Hp. pose proof Hinv as [Hsz Hcnt H1 H2 H3 Hspin _ _ _ _ _].
  unfold next. rewrite Hi. destruct p as [| | | | | | | | | | | | | |f|f]; try (exact (False_ind _ Hp)).
  - (* Slow_spin *) destruct (slow_path_lock_ s) eqn:E; [done|]. counts Hi Slow_count. quiet Hinv Hi; try (cbn; lia).
    apply owner_take; [exact Hspin|done].
  - (* Slow_count *) destruct (decide (count_ s = 0)) as [E|E].
    + counts Hi Slow_lucky. quiet Hinv Hi; cbn; try lia; [rewrite u32_small; lia|same_spin Hi].
    + counts Hi Slow_add. pose proof (goto_fits n s i _ Slow_add Hinv Hi). quiet Hinv Hi; cbn; try lia; [rewrite u32_small; lia|same_spin Hi].
  - (* Slow_lucky *) counts Hi Owner. quiet Hinv Hi; cbn; try lia. eapply owner_release; [exact Hspin|exact Hi|exact I|cbn; tauto].
  - (* Slow_unspin *) counts Hi Slow_halt. quiet Hinv Hi; cbn; try lia. eapply owner_release; [exact Hspin|exact Hi|exact I|cbn; tauto].
  - (* Slow_halt *) counts Hi Halted. quiet Hinv Hi; cbn; try lia. same_spin Hi.
  - (* Owner *) pose proof (cnt_pos owning _ _ _ Hi I). pose proof (goto_fits n s i _ Owner Hinv Hi). rewrite insert_id in * by done.
    destruct (decide (count_ s = 1)) as [E|E].
    + counts Hi Outside. quiet Hinv Hi; cbn; try lia; [rewrite u32_small; lia|same_spin Hi].
    + rewrite decide_True by lia. counts Hi Unlock_spin. quiet Hinv Hi; cbn; try lia; [rewrite u32_small; lia|same_spin Hi].
  - (* Unlock_spin *) destruct (slow_path_lock_ s) eqn:E; [done|]. counts Hi Unlock_wake. quiet Hinv Hi; try (cbn; lia).
    apply owner_take; [exact Hspin|done].
  - (* Unlock_unspin *) counts Hi (Unlock_ready f). quiet Hinv Hi; cbn; try lia. eapply owner_release; [exact Hspin|exact Hi|exact I|cbn; tauto].
Qed.

(** A fiber in the queue. *)
Lemma Slow_add_inv s i : inv n s → pcs s !! i = Some Slow_add → good s (next i s).
Proof.
  intros Hinv Hi. pose proof Hinv as [Hsz Hcnt H1 H2 H3 Hspin Haw Hnd Hqueue Hun Hpop].
  unfold next, AddWaiter. rewrite Hi, Haw. counts Hi Slow_unspin.
  assert (Hnew : i ∉ waiters_ (impl_ s)). { rewrite Hqueue. intros [(p & Hp & Hq) _]. simplify_eq. done. }
  assert (Hnopop : ∀ u p, pcs s !! u = Some p → ¬ popped_by i p).
  { intros u p Hu Hp. destruct (Hpop u p i Hu Hp); congruence. }
  split; cbn; try lia.
  - rewrite map_size_insert_Some; eauto.
  - same_spin Hi.
  - apply NoDup_app. split; [done|]. split; [|apply NoDup_singleton]. intros x Hx ->%list_elem_of_singleton. done.
  - intros f. rewrite elem_of_app, list_elem_of_singleton. setoid_rewrite lookup_goto. rewrite Hqueue. split.
    + intros [[(p & Hp & Hq) Hn']| ->].
      * split; [exists p; split; [right; split; [intros ->; simplify_eq; done|done]|done]|].
        intros u q [[-> ->]|[_ Hu]]; [intros [?|?]; congruence|by eapply Hn'].
      * split; [exists Slow_unspin; split; [by left|done]|].
        intros u q [[-> ->]|[_ Hu]]; [intros [?|?]; congruence|by eapply Hnopop].
    + intros [(p & [[-> ->]|[Hne Hp]] & Hq) Hn']; [by right|left]. split; [by exists p|].
      intros u q Hu. destruct (decide (u = i)) as [->|]; [|apply (Hn' u); by right].
      simplify_eq. intros [?|?]; congruence.
  - intros f Hf. apply elem_of_app in Hf as [Hf|Hf%list_elem_of_singleton]; [|set_solver]. apply Hun in Hf. set_solver.
  - apply popped_same with Slow_add; [done|done|no_pop|intros [?|?]; congruence].
Qed.

Lemma WakeOne_head w f ws : waiters_ w = f :: ws → f ∉ satisfied w →
  WakeOne w = (Some f, mkWaitable (persistent_awakened_ w) ws ({[f]} ∪ satisfied w)).
Proof. intros Hw Hf. unfold WakeOne. rewrite Hw. cbn. by rewrite decide_False. Qed.

(** The fiber that unlocks is the only one that does. *)
Lemma unlocking_alone s i p u q f :
  inv n s → pcs s !! i = Some p → unlocking p → pcs s !! u = Some q → popped_by f q → u = i.
Proof.
  intros Hinv Hi Hp Hu Hq. destruct (decide (u = i)) as [|Hne]; [done|]. pose proof (iv_one _ _ Hinv).
  assert (unlocking q) by (destruct Hq as [-> | ->]; done).
  pose proof (cnt_two unlocking _ _ _ _ _ Hi Hu). naive_solver lia.
Qed.

(** Under [slow_path_lock_] the counter and the queue agree: who unlocks finds a
    waiter. *)
Lemma Unlock_wake_waiter s i :
  inv n s → pcs s !! i = Some Unlock_wake →
  ∃ f ws, waiters_ (impl_ s) = f :: ws ∧ f ≠ i ∧ (pcs s !! f = Some Slow_halt ∨ pcs s !! f = Some Halted).
Proof.
  intros Hinv Hi. pose proof (cnt_pos unlocking _ _ _ Hi I) as Hu.
  destruct (cnt_exists _ _ (iv_waiter _ _ Hinv Hu)) as (g & p & Hg & Hp).
  assert (Hin : g ∈ waiters_ (impl_ s)).
  { rewrite (iv_queue _ _ Hinv). split.
    - exists p. split; [done|]. destruct p; try done.
      assert (g = i) by (by eapply (owner_alone spinning); [apply Hinv|exact Hi|..]). congruence.
    - intros u q Huq Hq. assert (u = i) as -> by (by eapply (unlocking_alone s i)).
      simplify_eq. destruct Hq; congruence. }
  destruct (waiters_ (impl_ s)) as [|f ws] eqn:E; [by apply not_elem_of_nil in Hin|]. exists f, ws. split; [done|].
  assert (Hf : f ∈ waiters_ (impl_ s)) by (rewrite E; left).
  apply (iv_queue _ _ Hinv) in Hf as [(q & Hq & Hqq) _]. split; [intros ->; by simplify_eq|].
  destruct q; try done; [|by left|by right]. assert (f = i) by (by eapply (owner_alone spinning); [apply Hinv|exact Hi|..]). congruence.
Qed.

Lemma Unlock_wake_inv s i : inv n s → pcs s !! i = Some Unlock_wake → good s (next i s).
Proof.
  intros Hinv Hi. destruct (Unlock_wake_waiter s i Hinv Hi) as (f & ws & Hw & Hne & Hf).
  pose proof (λ u q f, unlocking_alone s i _ u q f Hinv Hi I) as Halone.
  pose proof Hinv as [Hsz Hcnt H1 H2 H3 Hspin Haw Hnd Hqueue Hun Hpop]. rewrite Hw in *. apply NoDup_cons in Hnd as [Hnin Hnd].
  assert (Hfin : f ∈ f :: ws) by left.
  unfold next. rewrite Hi, (WakeOne_head _ f ws) by auto. counts Hi (Unlock_unspin f).
  split; cbn; try lia; try done.
  - rewrite map_size_insert_Some; eauto.
  - same_spin Hi.
  - intros g. setoid_rewrite lookup_goto. split.
    + intros Hg. pose proof (proj1 (Hqueue g) (list_elem_of_further _ _ _ Hg)) as [(p & Hp & Hq) Hn'].
      split; [exists p; split; [right; split; [intros ->; simplify_eq; done|done]|done]|].
      intros u q [[-> ->]|[Hu Hq']]; [intros [[= ->]|?]; [done|congruence]|by eapply Hn'].
    + intros [(p & [[-> ->]|[Hgi Hp]] & Hq) Hn']; [done|].
      assert (Hg : g ∈ f :: ws).
      { apply Hqueue. split; [by exists p|]. intros u q Hu Hq'. assert (u = i) as -> by eauto. simplify_eq. destruct Hq'; congruence. }
      apply elem_of_cons in Hg as [->|]; [|done]. exfalso. apply (Hn' i (Unlock_unspin f)); [by left|by left].
  - intros g Hg. assert (g ∉ satisfied (impl_ s)) by (apply Hun; by right). assert (g ≠ f) by congruence. set_solver.
  - intros u q g Hu Hq. apply lookup_goto in Hu as [[-> ->]|[Hu Hq']].
    + assert (g = f) as -> by (destruct Hq; congruence). by rewrite lookup_insert_ne.
    + exfalso. eauto.
Qed.

Lemma filter_ne_id (f : nat) (ws : list nat) : f ∉ ws → filter (λ g, g ≠ f) ws = ws.
Proof.
  induction ws as [|g ws IH]; [done|]. intros [Hne Hf]%not_elem_of_cons. rewrite filter_cons_True by done. by rewrite IH.
Qed.

Lemma Awake_inv s i : inv n s → pcs s !! i = Some Awake → good s (next i s).
Proof.
  intros Hinv Hi. pose proof Hinv as [Hsz Hcnt H1 H2 H3 Hspin _ _ Hqueue _ _].
  assert (Hnew : i ∉ waiters_ (impl_ s)). { rewrite Hqueue. intros [(p & Hp & Hq) _]. by simplify_eq. }
  unfold next, TryRemoveWaiter. rewrite Hi, bool_decide_eq_false_2 by done.
  rewrite filter_ne_id by done. counts Hi Owner. destruct s as [[pa ws sat] o c P]. cbn in *. quiet Hinv Hi; cbn; try lia. same_spin Hi.
Qed.

(** [ReadyFiber] of the fiber that has halted. *)
Lemma Unlock_ready_inv s i f : inv n s → pcs s !! i = Some (Unlock_ready f) → good s (next i s).
Proof.
  intros Hinv Hi. pose proof (λ u q f, unlocking_alone s i _ u q f Hinv Hi I) as Halone.
  pose proof Hinv as [Hsz Hcnt H1 H2 H3 Hspin Haw Hnd Hqueue Hun Hpop].
  unfold next. rewrite Hi. destruct (Hpop i _ f Hi ltac:(by right)) as [Hf|Hf]; rewrite Hf; [done|].
  assert (Hne : f ≠ i) by congruence.
  assert (Hi' : <[f := Awake]> (pcs s) !! i = Some (Unlock_ready f)) by (by rewrite lookup_insert_ne).
  counts Hf Awake. counts Hi' Outside. split; cbn; try lia; try done.
  - rewrite !map_size_insert_Some; eauto.
  - eapply owner_same; [same_spin Hf|exact Hi'|cbn; tauto].
  - intros g. setoid_rewrite lookup_goto. setoid_rewrite lookup_goto. rewrite Hqueue. split.
    + intros [(p & Hp & Hq) Hn']. assert (g ≠ f) by (intros ->; apply (Hn' _ _ Hi); by right).
      split; [exists p; split; [right; split; [intros ->; by simplify_eq|by right]|done]|].
      intros u q [[-> ->]|[_ [[-> ->]|[_ Hu]]]]; [intros [?|?]; congruence..|by eapply Hn'].
    + intros [(p & [[-> ->]|[Hgi [[-> ->]|[Hgf Hp]]]] & Hq) Hn']; [done..|]. split; [by exists p|].
      intros u q Hu Hq'. assert (u = i) as -> by eauto. simplify_eq. destruct Hq'; congruence.
  - intros u q g Hu Hq. exfalso. apply lookup_goto in Hu as [[-> ->]|[Hu [[-> ->]|[_ Hu']]%lookup_goto]]; [destruct Hq; congruence..|eauto].
Qed.

Lemma next_inv s i : inv n s → good s (next i s).
Proof.
  intros Hinv. destruct (pcs s !! i) as [p|] eqn:Hi; [|unfold next; by rewrite Hi].
  destruct p; try (by eapply spin_steps_inv).
  - unfold next. by rewrite Hi.
  - pose proof (try_lock_inv s i _ LockSlow Hinv Hi) as H. unfold next. rewrite Hi. destruct (try_lock s). apply H; auto.
  - pose proof (try_lock_inv s i _ Slow_spin Hinv Hi) as H. unfold next. rewrite Hi. destruct (try_lock s). apply H; auto.
  - by apply Slow_add_inv.
  - unfold next. by rewrite Hi.
  - by apply Awake_inv.
  - by apply Unlock_wake_inv.
  - by eapply Unlock_ready_inv.
Qed.

Lemma Mutex_step_inv e s : inv n s → good s (step e s).
Proof.
  intros Hinv. destruct e as [i|i|i]; cbn; [| |by apply next_inv]; destruct (pcs s !! i) as [[]|] eqn:Hi; try done.
  - counts Hi Lock. pose proof Hinv as [Hsz Hcnt H1 H2 H3 Hspin _ _ _ _ _]. quiet Hinv Hi; cbn; try lia. same_spin Hi.
  - pose proof (try_lock_inv s i _ Outside Hinv Hi) as H. destruct (try_lock s) as [[] s'] eqn:E; [apply H; auto|].
    unfold try_lock in E. case_decide; by simplify_eq.
Qed.
End steps.

Lemma Mutex_initial_inv n : inv n (initial n).
Proof.
  split; cbn; rewrite ?fibers_cnt by (cbn; tauto); try done; try lia.
  - apply fibers_size.
  - intros i. split; [done|]. intros (p & ->%fibers_lookup & []).
  - constructor.
  - intros f. split; [by intros ?%not_elem_of_nil|]. intros [(p & ->%fibers_lookup & []) _].
  - intros u p f ->%fibers_lookup [|]; done.
Qed.

Lemma Mutex_reachable_inv n s : Z.of_nat n < 2 ^ 32 → reachable n s → inv n s.
Proof.
  intros Hn. induction 1 as [|e s s' _ IH Hs]; [apply Mutex_initial_inv|]. pose proof (Mutex_step_inv n Hn e s IH) as H. by rewrite Hs in H.
Qed.

(** ** Safety *)

(** C23: [Mutex] excludes and none of its checks fails: in every interleaving of
    fewer than 2^32 fibers that lock, try to lock and unlock, at most one fiber
    owns the mutex, [unlock] finds the waiter the counter promises, the fiber it
    makes ready is one that waits, and a fiber that is woken is no longer in the
    queue. *)
Theorem Mutex_safe n s :
  Z.of_nat n < 2 ^ 32 → reachable n s →
  (∀ e, match step e s with None | Some (Ret _) => True | Some _ => False end)
  ∧ (∀ i j, pcs s !! i = Some Owner → pcs s !! j = Some Owner → i = j).
Proof.
  intros Hn Hr. apply (Mutex_reachable_inv n s Hn) in Hr as Hinv. split.
  - intros e. pose proof (Mutex_step_inv n Hn e s Hinv) as H. by destruct (step e s) as [[]|].
  - intros i j Hi Hj. destruct (decide (i = j)) as [|Hne]; [done|]. pose proof (iv_one _ _ Hinv).
    pose proof (cnt_two owning _ _ _ _ _ Hi Hj I I Hne). lia.
Qed.

(** ** Progress *)

(** The fibers [js] go on, in this order, and nobody calls [lock] anew. *)
Fixpoint go_run (js : list nat) s : option state :=
  match js with
  | [] => Some s
  | i :: js' => match next i s with Some (Ret s') => go_run js' s' | _ => None end
  end.

(** The operations a fiber has still to do. *)
Definition rank (p : pc) : nat :=
  match p with
  | Outside => 0 | Unlock_ready _ => 1 | Unlock_unspin _ => 2 | Unlock_wake => 3 | Unlock_spin => 4 | Owner => 5
  | Awake => 6 | Slow_lucky => 6 | Halted => 7 | Slow_halt => 8 | Slow_unspin => 9 | Slow_add => 10
  | Slow_count => 11 | Slow_spin => 12 | LockSlow => 13 | Lock => 14
  end.

Definition work s : nat := total rank (pcs s).

Lemma goto_work s s' i p q : pcs s !! i = Some p → pcs s' = <[i := q]> (pcs s) → (rank q < rank p)%nat → (work s' < work s)%nat.
Proof. intros Hi Hs Hq. pose proof (total_insert rank (pcs s) i p q Hi). unfold work. rewrite Hs. lia. Qed.

Lemma next_work i s s' : next i s = Some (Ret s') → (work s' < work s)%nat.
Proof.
  unfold next. destruct (pcs s !! i) as [p|] eqn:Hi; [|done].
  destruct p as [| | | | | | | | | | | | | |f|f]; unfold try_lock, AddWaiter, TryRemoveWaiter; intros Hs;
    try (repeat case_match; simplify_eq; (eapply goto_work; [exact Hi|reflexivity|cbn; lia])).
  destruct (pcs s !! f) as [q|] eqn:Hf; [|done]. destruct q; try done. injection Hs as <-.
  pose proof (total_insert rank (pcs s) f _ Awake Hf).
  assert (Hi' : <[f := Awake]> (pcs s) !! i = Some (Unlock_ready f)) by (rewrite lookup_insert_ne; congruence).
  pose proof (total_insert rank _ i _ Outside Hi'). unfold work. cbn in *. lia.
Qed.

Lemma stuck_spin n s : inv n s → (∀ i, next i s = None) → slow_path_lock_ s = None.
Proof.
  intros Hinv Hstuck. destruct (slow_path_lock_ s) as [j|] eqn:E; [exfalso|done].
  apply (iv_spin _ _ Hinv) in E as (p & Hj & Hp). specialize (Hstuck j). unfold next in Hstuck. rewrite Hj in Hstuck.
  destruct p; try done; repeat case_match; done.
Qed.

(** If no fiber can go on, all have left. *)
Lemma Mutex_stuck_outside n s i p : inv n s → (∀ i, next i s = None) → pcs s !! i = Some p → p = Outside.
Proof.
  intros Hinv Hstuck. pose proof (stuck_spin n s Hinv Hstuck) as Hspin.
  assert (Hwait : ∀ j q, pcs s !! j = Some q → q = Outside ∨ q = Halted ∨ ∃ f, q = Unlock_ready f).
  { intros j q Hj. specialize (Hstuck j). unfold next in Hstuck. rewrite Hj, Hspin in Hstuck.
    destruct q; eauto; repeat case_match; done. }
  assert (Hhalt : ∀ j q, pcs s !! j = Some q → q = Outside ∨ q = Halted).
  { intros j q Hj. destruct (Hwait j q Hj) as [?|[?|[f ->]]]; [by left|by right|exfalso].
    specialize (Hstuck j). unfold next in Hstuck. rewrite Hj in Hstuck.
    destruct (iv_popped _ _ Hinv j _ f Hj ltac:(by right)) as [Hf|Hf]; rewrite Hf in Hstuck; [|done].
    destruct (Hwait f _ Hf) as [?|[?|[? ?]]]; done. }
  assert (Hnone : ∀ Q `{∀ q, Decision (Q q)}, ¬ Q Outside → ¬ Q Halted → cnt Q (pcs s) = 0%nat).
  { intros Q ? H1 H2. apply cnt_none. intros j q Hj. by destruct (Hhalt j q Hj) as [-> | ->]. }
  intros Hi. destruct (Hhalt i p Hi) as [->| ->]; [done|exfalso]. pose proof (iv_token _ _ Hinv (cnt_pos counted _ _ _ Hi I)) as H.
  rewrite !Hnone in H by (cbn; tauto). done.
Qed.

Lemma go_run_reachable n js s s' : reachable n s → go_run js s = Some s' → reachable n s'.
Proof.
  revert s. induction js as [|i js IH]; cbn; intros s Hr Hrun; [by simplify_eq|].
  destruct (next i s) as [[s1| | | |]|] eqn:E; try done. apply (IH s1); [|done]. by apply (Reach_step n (Go i) s).
Qed.

Lemma go_run_work js s s' : go_run js s = Some s' → (length js + work s' ≤ work s)%nat.
Proof.
  revert s. induction js as [|i js IH]; cbn; intros s Hrun; [simplify_eq; lia|].
  destruct (next i s) as [[s1| | | |]|] eqn:E; try done. apply next_work in E. apply IH in Hrun. lia.
Qed.

(** C24: no wake-up is lost and no fiber waits for ever: from any reachable state, in
    whatever order the fibers go on, the pending calls of [lock] and the [unlock]s
    that follow them take a bounded number of steps, and when no fiber can go on
    every one of them has owned the mutex and left it. *)
Theorem Mutex_progress n s js s' :
  Z.of_nat n < 2 ^ 32 → reachable n s → go_run js s = Some s' →
  (length js ≤ work s)%nat ∧ ((∀ i, next i s' = None) → ∀ i p, pcs s' !! i = Some p → p = Outside).
Proof.
  intros Hn Hr Hrun. split; [apply go_run_work in Hrun; lia|]. intros Hstuck i p.
  apply (Mutex_stuck_outside n); [|done]. apply (Mutex_reachable_inv n s' Hn). by eapply go_run_reachable.
Qed.

(** *** Two fibers *)

(** Fiber 0 owns the mutex and fiber 1 has halted. *)
Definition contended : state :=
  default (initial 2) (run_steps (stepped step) ([Call_lock 0; Go 0; Call_lock 1] ++ replicate 7 (Go 1))%nat (initial 2)).

Lemma contended_reachable : reachable 2 contended.
Proof.
  unfold contended. apply run_steps_ind; [|apply Reach_initial]. intros e s s' Hr Hs%stepped_Some. by apply (Reach_step 2 e s).
Qed.

Lemma Mutex_safe_witness :
  (λ i, pcs contended !! i) <$> [0; 1]%nat = [Some Owner; Some Halted]
  ∧ (∀ e, match step e contended with None | Some (Ret _) => True | Some _ => False end)
  ∧ (∀ i j, pcs contended !! i = Some Owner → pcs contended !! j = Some Owner → i = j).
Proof. split; [vm_compute; reflexivity|]. apply (Mutex_safe 2); [done|apply contended_reachable]. Defined.

(** Fiber 0 unlocks and fiber 1 is made ready, owns the mutex and leaves. *)
Lemma Mutex_progress_witness :
  let s := contended in
  let js := (replicate 5 0 ++ [1; 1])%nat in
  let s' := default (initial 2) (go_run js s) in
  go_run js s = Some s' ∧ (length js ≤ work s)%nat ∧ ((∀ i, next i s' = None) → ∀ i p, pcs s' !! i = Some p → p = Outside).
Proof.
  intros s js s'. split; [vm_compute; reflexivity|].
  apply (Mutex_progress 2); [done|apply contended_reachable|vm_compute; reflexivity].
Defined.
End Mutex.
