(* ===== verification/SharedMutex.v ===== *)
(** * The reader-writer lock of fibers: flare/fiber/shared_mutex.{h,cc}

    The partitions of the cache's hash table and the managers are guarded by a
    [SharedMutex].  A reader takes one of the [kMaxReaders] units of
    [reader_quota_]; a writer takes them all, so that the readers that come after
    it find none and wait, and waits itself until the readers that came before it
    have left.  The readers that leave count themselves in [exited_readers_], the
    writer that leaves lets [newly_granted_readers_] of the waiting ones in.

    Any number of fibers run.  A step of the model is one operation on an atomic
    or on a mutex, or one access to the counters that [wakeup_lock_] guards.  The
    two mutexes are the fibers that hold them (what [FiberMutex.v] proves of
    [Mutex]).  [ConditionVariable::wait] adds its fiber to the queue, releases the
    mutex and halts in one step: the queue is read under [wakeup_lock_] only, and
    who makes the fiber ready waits until it has halted; a fiber is ready when its
    wait block is marked.  [compare_exchange_weak] may fail for no reason: the
    steps that use it have a [bool] for that.

    [SharedMutex_safe] says that no check fails and that a writer is alone,
    [SharedMutex_progress] that no wake-up is lost. *)

From S2P Require Import Prelude FiberMutex.

Definition kMaxReaders : Z := 0x3fffffff.

(** The result of signed arithmetic, undefined when it does not fit. *)
Definition int {A} (z : Z) (k : Z → outcome A) : outcome A :=
  if decide (- 2 ^ 31 ≤ z < 2 ^ 31) then k z else Undef.

Definition FLARE_CHECK {A} (P : Prop) `{Decision P} (k : outcome A) : outcome A :=
  if decide P then k else Abort.

(** ** ConditionVariable *)

(** [notify_all] takes the waiters out of the queue one by one, until there is none. *)
Fixpoint notify_all_loop (fuel : nat) (w : Waitable) : Waitable :=
  match fuel with
  | O => w
  | S fuel' => match WakeOne w with (Some _, w') => notify_all_loop fuel' w' | (None, w') => w' end
  end.

Definition notify_all (w : Waitable) : Waitable := notify_all_loop (S (length (waiters_ w))) w.

Lemma notify_all_drains w : waiters_ (notify_all w) = [] ∧ (∀ f, f ∈ waiters_ w ∨ f ∈ satisfied w → f ∈ satisfied (notify_all w))
  ∧ persistent_awakened_ (notify_all w) = persistent_awakened_ w.
Proof.
  unfold notify_all.
  assert (Hloop : ∀ fuel w, (length (waiters_ w) < fuel)%nat →
    waiters_ (notify_all_loop fuel w) = [] ∧ (∀ f, f ∈ waiters_ w ∨ f ∈ satisfied w → f ∈ satisfied (notify_all_loop fuel w))
    ∧ persistent_awakened_ (notify_all_loop fuel w) = persistent_awakened_ w); [|by apply Hloop; lia].
  clear w. intros fuel. induction fuel as [|fuel IH]; intros [pa ws sat] Hlen; cbn in *; [lia|].
  unfold WakeOne. cbn.
  assert (Hpop : ∀ o ws' sat', WakeOne_loop ws sat = (o, ws', sat') →
    (∀ f, f ∈ ws ∨ f ∈ sat → f ∈ ws' ∨ f ∈ sat') ∧ match o with Some _ => (length ws' < length ws)%nat | None => ws' = [] end).
  { clear. induction ws as [|g ws IH]; cbn; intros o ws' sat' E; [simplify_eq; split; [set_solver|done]|].
    destruct (decide (g ∈ sat)); [destruct (IH _ _ _ E) as [H1 H2]; split; [set_solver|destruct o; [lia|done]]|].
    simplify_eq. split; [set_solver|lia]. }
  destruct (WakeOne_loop ws sat) as [[[f|] ws'] sat'] eqn:E; destruct (Hpop _ _ _ eq_refl) as [H1 H2]; cbn.
  - destruct (IH (mkWaitable pa ws' sat')) as (Hw & Hs & Hp); cbn in *; [lia|]. split; [done|]. split; [|done]. intros g Hg. auto.
  - subst ws'. split; [done|]. split; [|done]. intros g Hg. destruct (H1 g Hg) as [?%not_elem_of_nil|]; done.
Qed.

Module SharedMutex.

Inductive pc :=
| Outside
(* lock_shared *)
| R_sub              (* before [fetch_sub] *)
| R_wlock            (* in [WaitForRead], before [wakeup_lock_] is taken *)
| R_check            (* before the condition is evaluated *)
| R_asleep
| R_unlk             (* the condition held; before [wakeup_lock_] is released *)
| Reading
(* try_lock_shared *)
| TS_load
| TS_cas (was : Z)   (* before [compare_exchange_weak] *)
(* unlock_shared *)
| R_exit             (* in [WakeupWriter], before [wakeup_lock_] is taken *)
| R_count            (* before the reader counts itself *)
| R_notify
| R_release          (* before [wakeup_lock_] is released *)
(* lock *)
| W_lock             (* before [writer_lock_] is taken *)
| W_sub              (* before [fetch_sub] *)
| W_wlock (pending_readers : Z)
| W_check (pending_readers : Z)
| W_asleep (pending_readers : Z)
| W_unlk             (* the condition held; before [wakeup_lock_] is released *)
| Writing
(* try_lock *)
| T_lock             (* before [writer_lock_] is tried *)
| T_load
| T_cas              (* [was] is [kMaxReaders]; before [compare_exchange_weak] *)
| T_release          (* before [writer_lock_] is released *)
(* unlock *)
| U_lock             (* before [wakeup_lock_] is taken *)
| U_add              (* before [fetch_add] *)
| U_grant (was : Z)  (* before [newly_granted_readers_] is set *)
| U_notify
| U_wunlock          (* before [writer_lock_] is released *)
| U_unlk.            (* before [wakeup_lock_] is released *)

#[export] Instance pc_eq_dec : EqDecision pc.
Proof. solve_decision. Defined.

Record state := mkShared {
  reader_quota_ : Z;
  wakeup_lock_ : option nat;
  wakeup_cv_ : Waitable;
  exited_readers_ : Z;
  newly_granted_readers_ : Z;
  writer_lock_ : option nat;
  pcs : gmap nat pc;
}.

Implicit Types (s : state) (i j f : nat).

Definition goto i (p : pc) s : state :=
  mkShared (reader_quota_ s) (wakeup_lock_ s) (wakeup_cv_ s) (exited_readers_ s) (newly_granted_readers_ s) (writer_lock_ s) (<[i := p]> (pcs s)).
Definition set_quota (z : Z) s : state :=
  mkShared z (wakeup_lock_ s) (wakeup_cv_ s) (exited_readers_ s) (newly_granted_readers_ s) (writer_lock_ s) (pcs s).
Definition set_wakeup (o : option nat) s : state :=
  mkShared (reader_quota_ s) o (wakeup_cv_ s) (exited_readers_ s) (newly_granted_readers_ s) (writer_lock_ s) (pcs s).
Definition set_cv (w : Waitable) s : state :=
  mkShared (reader_quota_ s) (wakeup_lock_ s) w (exited_readers_ s) (newly_granted_readers_ s) (writer_lock_ s) (pcs s).
Definition set_exited (z : Z) s : state :=
  mkShared (reader_quota_ s) (wakeup_lock_ s) (wakeup_cv_ s) z (newly_granted_readers_ s) (writer_lock_ s) (pcs s).
Definition set_granted (z : Z) s : state :=
  mkShared (reader_quota_ s) (wakeup_lock_ s) (wakeup_cv_ s) (exited_readers_ s) z (writer_lock_ s) (pcs s).
Definition set_writer (o : option nat) s : state :=
  mkShared (reader_quota_ s) (wakeup_lock_ s) (wakeup_cv_ s) (exited_readers_ s) (newly_granted_readers_ s) o (pcs s).

(** [std::unique_lock lk(wakeup_lock_)]: the fiber waits while it is held. *)
Definition take_wakeup i (p : pc) s : option (outcome state) :=
  match wakeup_lock_ s with Some _ => None | None => Some (Ret (goto i p (set_wakeup (Some i) s))) end.

Definition take_writer i (p : pc) s : option (outcome state) :=
  match writer_lock_ s with Some _ => None | None => Some (Ret (goto i p (set_writer (Some i) s))) end.

(** [wakeup_cv_.wait]: the condition did not hold. *)
Definition cv_wait i (p : pc) s : outcome state :=
  let '(b, w) := AddWaiter i (wakeup_cv_ s) in
  FLARE_CHECK (b = true) (Ret (goto i p (set_wakeup None (set_cv w s)))).

(** A fiber goes on once its wait block is marked, and takes [wakeup_lock_] again. *)
Definition cv_awake i (p : pc) s : option (outcome state) :=
  if decide (i ∈ satisfied (wakeup_cv_ s)) then Some (Ret (goto i p s)) else None.

Definition lock_shared i s : outcome state :=
  let was := reader_quota_ s in
  let s' := set_quota (i32 (was - 1)) s in
  if decide (1 < was) then FLARE_CHECK (was ≤ kMaxReaders) (Ret (goto i Reading s'))
  else FLARE_CHECK (was ≠ 1) (Ret (goto i R_wlock s')).

(** The body of the loop, up to [compare_exchange_weak]. *)
Definition try_lock_shared_loop i (was : Z) s : outcome state :=
  FLARE_CHECK (was ≤ kMaxReaders) (FLARE_CHECK (was ≠ 1) (Ret (goto i (if decide (was ≤ 0) then Outside else TS_cas was) s))).

Definition try_lock_shared_cas (weak : bool) i (was : Z) s : outcome state :=
  if weak then try_lock_shared_loop i (reader_quota_ s) s
  else if decide (reader_quota_ s = was) then Ret (goto i Reading (set_quota (i32 (was - 1)) s))
  else try_lock_shared_loop i (reader_quota_ s) s.

Definition unlock_shared i s : outcome state :=
  let was := reader_quota_ s in
  let s' := set_quota (i32 (was + 1)) s in
  if decide (0 < was) then FLARE_CHECK (was < kMaxReaders) (Ret (goto i Outside s')) else Ret (goto i R_exit s').

(** The condition of [WaitForRead], and the wait if it does not hold. *)
Definition WaitForRead i s : outcome state :=
  if decide (newly_granted_readers_ s ≠ 0)
  then int (newly_granted_readers_ s - 1) (λ z, Ret (goto i R_unlk (set_granted z s)))
  else cv_wait i R_asleep s.

Definition WakeupWriter i s : outcome state :=
  FLARE_CHECK (0 ≤ exited_readers_ s) (int (exited_readers_ s + 1) (λ z, Ret (goto i R_notify (set_exited z s)))).

Definition lock_sub i s : outcome state :=
  let was := reader_quota_ s in
  let s' := set_quota (i32 (was - kMaxReaders)) s in
  if decide (was = kMaxReaders) then Ret (goto i Writing s')
  else FLARE_CHECK (was < kMaxReaders) (FLARE_CHECK (0 < was) (int (kMaxReaders - was) (λ pending, Ret (goto i (W_wlock pending) s')))).

(** The condition of [lock], with the reset that follows, and the wait if it does
    not hold. *)
Definition lock_wait i (pending_readers : Z) s : outcome state :=
  if decide (exited_readers_ s = pending_readers) then Ret (goto i W_unlk (set_exited 0 s))
  else cv_wait i (W_asleep pending_readers) s.

Definition try_lock_loop i (was : Z) s : outcome state :=
  Ret (goto i (if decide (was ≠ kMaxReaders) then T_release else T_cas) s).

Definition try_lock_cas (weak : bool) i s : outcome state :=
  if weak then try_lock_loop i (reader_quota_ s) s
  else if decide (reader_quota_ s = kMaxReaders) then Ret (goto i Writing (set_quota 0 s))
  else try_lock_loop i (reader_quota_ s) s.

Definition unlock_add i s : outcome state :=
  let was := reader_quota_ s in
  let s' := set_quota (i32 (was + kMaxReaders)) s in
  int (was + kMaxReaders) (λ z, FLARE_CHECK (0 < z) (FLARE_CHECK (was ≤ 0)
    (Ret (goto i (if decide (was ≠ 0) then U_grant was else U_wunlock) s')))).

(** The next operation of a fiber, [None] when it has to wait. *)
Definition next (weak : bool) i s : option (outcome state) :=
  match pcs s !! i with
  | None | Some Outside => None
  | Some R_sub => Some (lock_shared i s)
  | Some R_wlock => take_wakeup i R_check s
  | Some R_check => Some (WaitForRead i s)
  | Some R_asleep => cv_awake i R_wlock s
  | Some R_unlk => Some (Ret (goto i Reading (set_wakeup None s)))
  | Some Reading => Some (unlock_shared i s)
  | Some TS_load => Some (try_lock_shared_loop i (reader_quota_ s) s)
  | Some (TS_cas was) => Some (try_lock_shared_cas weak i was s)
  | Some R_exit => take_wakeup i R_count s
  | Some R_count => Some (WakeupWriter i s)
  | Some R_notify => Some (Ret (goto i R_release (set_cv (notify_all (wakeup_cv_ s)) s)))
  | Some R_release => Some (Ret (goto i Outside (set_wakeup None s)))
  | Some W_lock => take_writer i W_sub s
  | Some W_sub => Some (lock_sub i s)
  | Some (W_wlock p) => take_wakeup i (W_check p) s
  | Some (W_check p) => Some (lock_wait i p s)
  | Some (W_asleep p) => cv_awake i (W_wlock p) s
  | Some W_unlk => Some (Ret (goto i Writing (set_wakeup None s)))
  | Some Writing => Some (Ret (goto i U_lock s))
  | Some T_lock => Some (Ret (match writer_lock_ s with Some _ => goto i Outside s | None => goto i T_load (set_writer (Some i) s) end))
  | Some T_load => Some (try_lock_loop i (reader_quota_ s) s)
  | Some T_cas => Some (try_lock_cas weak i s)
  | Some T_release => Some (Ret (goto i Outside (set_writer None s)))
  | Some U_lock => take_wakeup i U_add s
  | Some U_add => Some (unlock_add i s)
  | Some (U_grant was) => Some (int (- was) (λ z, Ret (goto i U_notify (set_granted z s))))
  | Some U_notify => Some (Ret (goto i U_wunlock (set_cv (notify_all (wakeup_cv_ s)) s)))
  | Some U_wunlock => Some (Ret (goto i U_unlk (set_writer None s)))
  | Some U_unlk => Some (Ret (goto i Outside (set_wakeup None s)))
  end.

Inductive event := Call_lock i | Call_try_lock i | Call_lock_shared i | Call_try_lock_shared i | Go (weak : bool) i.

Definition call i (p : pc) s : option (outcome state) :=
  match pcs s !! i with Some Outside => Some (Ret (goto i p s)) | _ => None end.

Definition step (e : event) s : option (outcome state) :=
  match e with
  | Call_lock i => call i W_lock s
  | Call_try_lock i => call i T_lock s
  | Call_lock_shared i => call i R_sub s
  | Call_try_lock_shared i => call i TS_load s
  | Go weak i => next weak i s
  end.

Definition initial (n : nat) : state :=
  mkShared kMaxReaders None Waitable_new 0 0 None (fibers n Outside).

Inductive reachable (n : nat) : state → Prop :=
| Reach_initial : reachable n (initial n)
| Reach_step e s s' : reachable n s → step e s = Some (Ret s') → reachable n s'.

(** ** The invariant *)

(** Readers that are in, that wait to be let in, and that have left but have not
    counted themselves. *)
Definition reader (p : pc) : Prop := match p with R_unlk | Reading => True | _ => False end.
Definition waiter (p : pc) : Prop := match p with R_wlock | R_check | R_asleep => True | _ => False end.
Definition leaver (p : pc) : Prop := match p with R_exit | R_count => True | _ => False end.

Definition holds_writer (p : pc) : Prop :=
  match p with
  | W_sub | W_wlock _ | W_check _ | W_asleep _ | W_unlk | Writing | T_load | T_cas | T_release
  | U_lock | U_add | U_grant _ | U_notify | U_wunlock => True
  | _ => False
  end.
Definition holds_wakeup (p : pc) : Prop :=
  match p with
  | R_check | R_unlk | R_count | R_notify | R_release | W_check _ | W_unlk | U_add | U_grant _ | U_notify | U_wunlock | U_unlk => True
  | _ => False
  end.
Definition asleep (p : pc) : Prop := match p with R_asleep | W_asleep _ => True | _ => False end.
Definition notifying (p : pc) : Prop := match p with R_notify | U_notify => True | _ => False end.

#[export] Instance reader_dec p : Decision (reader p).
Proof. destruct p; apply _. Defined.
#[export] Instance waiter_dec p : Decision (waiter p).
Proof. destruct p; apply _. Defined.
#[export] Instance leaver_dec p : Decision (leaver p).
Proof. destruct p; apply _. Defined.

(** The counters, by where the fiber with [writer_lock_] is. *)
Definition phase_ok (h : option pc) (quota exited granted : Z) (reading waiting leaving : Z) : Prop :=
  match h with
  | Some (W_wlock p) | Some (W_check p) | Some (W_asleep p) =>
      quota = - (reading + waiting) ∧ reading + leaving + exited + granted = p ∧ p ≤ kMaxReaders ∧ 0 ≤ exited ∧ 0 ≤ granted ≤ waiting
  | Some (W_unlk | Writing | U_lock | U_add) =>
      quota = - waiting ∧ reading = 0 ∧ leaving = 0 ∧ exited = 0 ∧ granted = 0
  | Some (U_grant was) =>
      quota = kMaxReaders - (reading + waiting) ∧ leaving = 0 ∧ exited = 0 ∧ granted = 0 ∧ waiting = - was
  | _ => quota = kMaxReaders - (reading + waiting) ∧ leaving = 0 ∧ exited = 0 ∧ granted = waiting
  end.

Definition phase s : option pc := writer_lock_ s ≫= λ i, pcs s !! i.

(** What a fiber in the queue waits for. *)
Definition to_wait (exited granted : Z) (p : pc) : Prop :=
  match p with R_asleep => granted = 0 | W_asleep pending => exited ≠ pending | _ => False end.

Record inv (n : nat) s : Prop := {
  iv_size : size (pcs s) = n;
  iv_writer : owner_ok holds_writer (writer_lock_ s) (pcs s);
  iv_wakeup : owner_ok holds_wakeup (wakeup_lock_ s) (pcs s);
  iv_phase : phase_ok (phase s) (reader_quota_ s) (exited_readers_ s) (newly_granted_readers_ s)
    (Z.of_nat (cnt reader (pcs s))) (Z.of_nat (cnt waiter (pcs s))) (Z.of_nat (cnt leaver (pcs s)));
  iv_cas i z : pcs s !! i = Some (TS_cas z) → 0 < z;
  iv_awakened : persistent_awakened_ (wakeup_cv_ s) = false;
  iv_queue f : f ∈ waiters_ (wakeup_cv_ s) → f ∉ satisfied (wakeup_cv_ s) ∧ ∃ p, pcs s !! f = Some p ∧ asleep p;
  iv_asleep f p : pcs s !! f = Some p → asleep p → f ∈ waiters_ (wakeup_cv_ s) ∨ f ∈ satisfied (wakeup_cv_ s);
  iv_wait : (∀ i p, pcs s !! i = Some p → ¬ notifying p) →
    ∀ f p, f ∈ waiters_ (wakeup_cv_ s) → pcs s !! f = Some p → to_wait (exited_readers_ s) (newly_granted_readers_ s) p;
}.

(** *** One fiber moves *)

Lemma phase_holder s i p : owner_ok holds_writer (writer_lock_ s) (pcs s) → pcs s !! i = Some p → holds_writer p → phase s = Some p.
Proof. intros Ho Hi Hp. unfold phase. by rewrite (proj2 (Ho i)) by eauto. Qed.

Lemma phase_other s s' i p q :
  owner_ok holds_writer (writer_lock_ s) (pcs s) → pcs s !! i = Some p → ¬ holds_writer p →
  writer_lock_ s' = writer_lock_ s → pcs s' = <[i := q]> (pcs s) → phase s' = phase s.
Proof.
  intros Ho Hi Hp Hw Hs. unfold phase. rewrite Hw, Hs. destruct (writer_lock_ s) as [j|] eqn:E; [|done]. cbn.
  destruct (proj1 (Ho j) eq_refl) as (x & Hx & Hh). rewrite lookup_insert_ne; [done|]. intros ->. by simplify_eq.
Qed.

Section moves.
Context (n : nat) s s' i (p q : pc) (Hinv : inv n s) (Hi : pcs s !! i = Some p) (Hs : pcs s' = <[i := q]> (pcs s)).
Context (Hwriter : owner_ok holds_writer (writer_lock_ s') (pcs s')) (Hwakeup : owner_ok holds_wakeup (wakeup_lock_ s') (pcs s')).
Context (Hphase : phase_ok (phase s') (reader_quota_ s') (exited_readers_ s') (newly_granted_readers_ s')
    (Z.of_nat (cnt reader (pcs s'))) (Z.of_nat (cnt waiter (pcs s'))) (Z.of_nat (cnt leaver (pcs s')))).
Context (Hcas : ∀ z, q = TS_cas z → 0 < z).

Lemma goto_cas j z : pcs s' !! j = Some (TS_cas z) → 0 < z.
Proof. rewrite Hs. intros [[_ ?]|[_ Hj]]%lookup_goto; [auto|by apply Hinv in Hj]. Qed.

(** A fiber that does not touch the queue. *)
Lemma Shared_move_inv :
  wakeup_cv_ s' = wakeup_cv_ s → (asleep p → i ∈ satisfied (wakeup_cv_ s)) → ¬ asleep q →
  notifying q ∨ ¬ notifying p ∧ (∀ f x, f ≠ i → pcs s !! f = Some x →
    to_wait (exited_readers_ s) (newly_granted_readers_ s) x → to_wait (exited_readers_ s') (newly_granted_readers_ s') x) →
  inv n s'.
Proof.
  intros Hcv Hp Hq Hn. destruct Hinv as [Hsz _ _ _ Hz Haw Hqueue Hasleep Hwait].
  assert (Hni : i ∉ waiters_ (wakeup_cv_ s)).
  { intros (Hsat & x & Hx & Hax)%Hqueue. simplify_eq. auto. }
  split; rewrite ?Hcv; auto.
  - rewrite Hs, map_size_insert_Some; eauto.
  - exact goto_cas.
  - intros f Hf. destruct (Hqueue f Hf) as [? (x & Hx & Hax)]. split; [done|]. exists x. rewrite Hs, lookup_insert_ne by congruence. done.
  - intros f x Hf Hax. rewrite Hs in Hf. apply lookup_goto in Hf as [[-> ->]|[_ Hf]]; [done|eauto].
  - intros Hno f x Hf Hx. rewrite Hs in Hx, Hno. assert (Hfi : f ≠ i) by congruence. rewrite lookup_insert_ne in Hx by done.
    destruct Hn as [Hn|[Hnp Hn]]; [exfalso; apply (Hno i q); [apply lookup_insert_eq|done]|].
    apply (Hn f x); [done|done|]. apply (Hwait) with f; [|done|done]. intros j y Hj. destruct (decide (j = i)) as [->|]; [by simplify_eq|].
    apply (Hno j). by rewrite lookup_insert_ne.
Qed.

(** A fiber that waits. *)
Lemma cv_wait_inv :
  wakeup_cv_ s' = mkWaitable false (waiters_ (wakeup_cv_ s) ++ [i]) (satisfied (wakeup_cv_ s) ∖ {[i]}) →
  ¬ asleep p → ¬ notifying p → asleep q → to_wait (exited_readers_ s) (newly_granted_readers_ s) q →
  exited_readers_ s' = exited_readers_ s → newly_granted_readers_ s' = newly_granted_readers_ s →
  inv n s'.
Proof.
  intros Hcv Hp Hnp Hq Htw He Hg. destruct Hinv as [Hsz _ _ _ Hz Haw Hqueue Hasleep Hwait].
  assert (Hni : i ∉ waiters_ (wakeup_cv_ s)).
  { intros (Hsat & x & Hx & Hax)%Hqueue. by simplify_eq. }
  split; rewrite ?Hcv; cbn; auto.
  - rewrite Hs, map_size_insert_Some; eauto.
  - exact goto_cas.
  - intros f [Hf|Hf%list_elem_of_singleton]%elem_of_app.
    + destruct (Hqueue f Hf) as [? (x & Hx & Hax)]. split; [set_solver|]. exists x. rewrite Hs, lookup_insert_ne by congruence. done.
    + subst f. split; [set_solver|]. exists q. by rewrite Hs, lookup_insert_eq.
  - intros f x Hf Hax. rewrite Hs in Hf. apply lookup_goto in Hf as [[-> ->]|[Hne Hf]]; [set_solver|]. destruct (Hasleep f x Hf Hax); set_solver.
  - intros Hno f x Hf Hx. rewrite Hs in Hx, Hno. rewrite He, Hg. apply lookup_goto in Hx as [[-> ->]|[Hne Hx]]; [done|].
    apply Hwait with f; [|set_solver|done]. intros j y Hj. destruct (decide (j = i)) as [->|]; [by simplify_eq|].
    apply (Hno j). by rewrite lookup_insert_ne.
Qed.

(** A fiber that wakes the others up. *)
Lemma notify_all_inv : wakeup_cv_ s' = notify_all (wakeup_cv_ s) → ¬ asleep q → inv n s'.
Proof.
  intros Hcv Hq. destruct Hinv as [Hsz _ _ _ Hz Haw Hqueue Hasleep Hwait].
  destruct (notify_all_drains (wakeup_cv_ s)) as (Hw & Hsat & Hpa). split; rewrite ?Hcv, ?Hw; auto.
  - rewrite Hs, map_size_insert_Some; eauto.
  - exact goto_cas.
  - congruence.
  - intros f ?%not_elem_of_nil. done.
  - intros f x Hf Hax. rewrite Hs in Hf. apply lookup_goto in Hf as [[-> ->]|[_ Hf]]; [done|eauto].
  - intros _ f x ?%not_elem_of_nil. done.
Qed.
End moves.

Lemma Shared_cnt_fits (P : gmap nat pc) : (cnt reader P + cnt waiter P ≤ size P)%nat.
Proof. apply cnt_disjoint. intros []; cbn; tauto. Qed.

(** *** Each operation keeps the invariant *)

Ltac b2n_eval := repeat match goal with
  | H : context [@b2n ?X ?d] |- _ => let v := eval vm_compute in (@b2n X d) in change (@b2n X d) with v in H
  end.

(** The numbers of readers of each kind after a move. *)
Ltac counts Hi q :=
  let H1 := fresh "Hc" in let H2 := fresh "Hc" in let H3 := fresh "Hc" in
  pose proof (cnt_insert reader _ _ _ q Hi) as H1; pose proof (cnt_insert waiter _ _ _ q Hi) as H2;
  pose proof (cnt_insert leaver _ _ _ q Hi) as H3; b2n_eval.

(** A lock is kept, taken or released. *)
Ltac own := cbn; match goal with
  | Ho : owner_ok ?Q _ ?P, Hi : ?P !! ?i = Some _ |- owner_ok ?Q _ (<[?i := _]> ?P) =>
      first [ eapply (owner_same Q P _ i _ _ Ho Hi); cbn; tauto
            | apply (owner_take Q P i _ Ho); exact I
            | eapply (owner_release Q P _ i _ _ Ho Hi); cbn; tauto ]
  end.

(** The counters after a step of a fiber that holds [writer_lock_], and of one that
    does not. *)
Ltac phase_own Hi := match goal with
  | Ho : owner_ok holds_writer _ _, Hph : phase_ok (phase ?s) _ _ _ _ _ _ |- phase_ok (phase ?s') _ _ _ _ _ _ =>
      rewrite (phase_holder s _ _ Ho Hi I) in Hph; erewrite (phase_holder s') by first [own | apply lookup_insert_eq | exact I]
  end.
Ltac phase_keep Hi := match goal with
  | Ho : owner_ok holds_writer _ _, Hph : phase_ok (phase ?s) _ _ _ _ _ _ |- phase_ok (phase ?s') _ _ _ _ _ _ =>
      erewrite (phase_other s s') by first [exact Ho | exact Hi | reflexivity | cbn; tauto]
  end.

Section steps.
Context (n : nat) (Hn : Z.of_nat n + 1 < kMaxReaders).

#[local] Abbreviation good r := (match r with Some (Ret s') => inv n s' | Some _ => False | None => True end).

Ltac start Hinv := pose proof Hinv as [Hsz Hwriter Hwakeup Hph _ _ _ _ _];
  match type of Hsz with size (pcs ?s) = _ => pose proof (Shared_cnt_fits (pcs s)) as Hfit; rewrite Hsz in Hfit end;
  unfold kMaxReaders in *.
Ltac go_on Hinv Hi := eapply (Shared_move_inv n _ _ _ _ _ Hinv Hi); [reflexivity|try own|try own| |try (intros ? [=])|reflexivity|cbn; tauto|cbn; tauto|].
Ltac by_phase s := destruct (phase s) as [[]|]; cbn in *; unfold kMaxReaders in *; lia.
Ltac no_wait := right; split; [cbn; tauto|cbn; auto].

(** The quota of [n] readers is never near the ends of its type. *)
Lemma quota_range s : inv n s → - Z.of_nat n ≤ reader_quota_ s ≤ 0 ∨ kMaxReaders - Z.of_nat n ≤ reader_quota_ s ≤ kMaxReaders.
Proof. intros Hinv. start Hinv. by_phase s. Qed.

Ltac range Hinv := pose proof (quota_range _ Hinv) as Hrange; unfold kMaxReaders in Hrange.

Lemma lock_shared_inv s i : inv n s → pcs s !! i = Some R_sub → good (Some (lock_shared i s)).
Proof.
  intros Hinv Hi. start Hinv. range Hinv. unfold lock_shared, FLARE_CHECK. rewrite i32_small by lia.
  case_decide; rewrite decide_True by (unfold kMaxReaders; lia).
  - counts Hi Reading. go_on Hinv Hi; [|no_wait]. phase_keep Hi. by_phase s.
  - counts Hi R_wlock. go_on Hinv Hi; [|no_wait]. phase_keep Hi. by_phase s.
Qed.

Lemma try_lock_shared_loop_inv s i p was :
  inv n s → pcs s !! i = Some p → (p = TS_load ∨ ∃ z, p = TS_cas z) → reader_quota_ s = was → good (Some (try_lock_shared_loop i was s)).
Proof.
  intros Hinv Hi Hp <-. start Hinv. range Hinv. unfold try_lock_shared_loop, FLARE_CHECK.
  rewrite !decide_True by (unfold kMaxReaders; lia).
  destruct (decide (reader_quota_ s ≤ 0)).
  - counts Hi Outside. destruct Hp as [->|[z ->]]; b2n_eval; (go_on Hinv Hi; [|no_wait]); phase_keep Hi; by_phase s.
  - counts Hi (TS_cas (reader_quota_ s)). destruct Hp as [->|[z ->]]; b2n_eval; (go_on Hinv Hi; [|lia|no_wait]); phase_keep Hi; by_phase s.
Qed.

Lemma try_lock_shared_cas_inv weak s i was : inv n s → pcs s !! i = Some (TS_cas was) → good (Some (try_lock_shared_cas weak i was s)).
Proof.
  intros Hinv Hi. unfold try_lock_shared_cas.
  destruct weak; [|case_decide as Hwas]; try (eapply try_lock_shared_loop_inv; eauto; done).
  subst was. pose proof (iv_cas _ _ Hinv _ _ Hi). start Hinv. range Hinv. rewrite i32_small by lia.
  counts Hi Reading. go_on Hinv Hi; [|no_wait]. phase_keep Hi. by_phase s.
Qed.

Lemma unlock_shared_inv s i : inv n s → pcs s !! i = Some Reading → good (Some (unlock_shared i s)).
Proof.
  intros Hinv Hi. start Hinv. range Hinv. pose proof (cnt_pos reader _ _ _ Hi I).
  unfold unlock_shared, FLARE_CHECK. rewrite i32_small by lia. case_decide.
  - counts Hi Outside. rewrite decide_True by by_phase s. go_on Hinv Hi; [|no_wait]. phase_keep Hi. by_phase s.
  - counts Hi R_exit. go_on Hinv Hi; [|no_wait]. phase_keep Hi. by_phase s.
Qed.

Lemma WaitForRead_inv s i : inv n s → pcs s !! i = Some R_check → good (Some (WaitForRead i s)).
Proof.
  intros Hinv Hi. start Hinv. pose proof (cnt_pos waiter _ _ _ Hi I).
  unfold WaitForRead, int. case_decide.
  - counts Hi R_unlk. rewrite decide_True by by_phase s. go_on Hinv Hi; [phase_keep Hi; by_phase s|].
    right. split; [cbn; tauto|]. intros f [] _ _; cbn; auto; lia.
  - unfold cv_wait, AddWaiter, FLARE_CHECK. rewrite (iv_awakened _ _ Hinv), decide_True by done. counts Hi R_asleep.
    eapply (cv_wait_inv n _ _ _ _ _ Hinv Hi); [reflexivity|own|own| |intros ? [=]|reflexivity|cbn; tauto|cbn; tauto|done|cbn; lia|done|done].
    phase_keep Hi. by_phase s.
Qed.

Lemma WakeupWriter_inv s i : inv n s → pcs s !! i = Some R_count → good (Some (WakeupWriter i s)).
Proof.
  intros Hinv Hi. start Hinv. pose proof (cnt_pos leaver _ _ _ Hi I).
  unfold WakeupWriter, int, FLARE_CHECK. rewrite decide_True by by_phase s. rewrite decide_True by by_phase s.
  counts Hi R_notify. go_on Hinv Hi; [phase_keep Hi; by_phase s|by left].
Qed.

(** [wakeup_lock_] is taken, by a reader and by a writer. *)
Lemma take_wakeup_inv s i p q :
  inv n s → pcs s !! i = Some p →
  match p with R_wlock => q = R_check | R_exit => q = R_count | W_wlock z => q = W_check z | U_lock => q = U_add | _ => False end →
  good (take_wakeup i q s).
Proof.
  intros Hinv Hi Hpq. start Hinv. unfold take_wakeup. destruct (wakeup_lock_ s) eqn:E; [done|].
  destruct p; try done; subst q.
  - counts Hi R_check. go_on Hinv Hi; [|no_wait]. phase_keep Hi. by_phase s.
  - counts Hi R_count. go_on Hinv Hi; [|no_wait]. phase_keep Hi. by_phase s.
  - counts Hi (W_check pending_readers). go_on Hinv Hi; [|no_wait]. phase_own Hi. cbn in *. lia.
  - counts Hi U_add. go_on Hinv Hi; [|no_wait]. phase_own Hi. cbn in *. lia.
Qed.

Lemma cv_awake_inv s i p q :
  inv n s → pcs s !! i = Some p → match p with R_asleep => q = R_wlock | W_asleep z => q = W_wlock z | _ => False end →
  good (cv_awake i q s).
Proof.
  intros Hinv Hi Hpq. start Hinv. unfold cv_awake. case_decide as Hsat; [|done].
  destruct p; try done; subst q.
  - counts Hi R_wlock. go_on Hinv Hi; [|no_wait]. phase_keep Hi. by_phase s.
  - counts Hi (W_wlock pending_readers). go_on Hinv Hi; [|no_wait]. phase_own Hi. cbn in *. lia.
Qed.

Lemma release_wakeup_inv s i p q :
  inv n s → pcs s !! i = Some p →
  match p with R_unlk => q = Reading | R_release | U_unlk => q = Outside | W_unlk => q = Writing | _ => False end →
  inv n (goto i q (set_wakeup None s)).
Proof.
  intros Hinv Hi Hpq. start Hinv. destruct p; try done; subst q.
  - counts Hi Reading. go_on Hinv Hi; [|no_wait]. phase_keep Hi. by_phase s.
  - counts Hi Outside. go_on Hinv Hi; [|no_wait]. phase_keep Hi. by_phase s.
  - counts Hi Writing. go_on Hinv Hi; [|no_wait]. phase_own Hi. cbn in *. lia.
  - counts Hi Outside. go_on Hinv Hi; [|no_wait]. phase_keep Hi. by_phase s.
Qed.

Lemma notify_inv s i p q :
  inv n s → pcs s !! i = Some p → match p with R_notify => q = R_release | U_notify => q = U_wunlock | _ => False end →
  inv n (goto i q (set_cv (notify_all (wakeup_cv_ s)) s)).
Proof.
  intros Hinv Hi Hpq. start Hinv. destruct p; try done; subst q.
  - counts Hi R_release. eapply (notify_all_inv n _ _ _ _ _ Hinv Hi); [reflexivity|own|own| |intros ? [=]|reflexivity|cbn; tauto].
    phase_keep Hi. by_phase s.
  - counts Hi U_wunlock. eapply (notify_all_inv n _ _ _ _ _ Hinv Hi); [reflexivity|own|own| |intros ? [=]|reflexivity|cbn; tauto].
    phase_own Hi. cbn in *. lia.
Qed.

(** [writer_lock_] is taken and released. *)
Lemma take_writer_inv s i p q :
  inv n s → pcs s !! i = Some p → writer_lock_ s = None → match p with W_lock => q = W_sub | T_lock => q = T_load | _ => False end →
  inv n (goto i q (set_writer (Some i) s)).
Proof.
  intros Hinv Hi E Hpq. start Hinv. rewrite E in Hwriter. unfold phase in Hph. rewrite E in Hph.
  destruct p; try done; subst q.
  - counts Hi W_sub. go_on Hinv Hi; [|no_wait]. erewrite phase_holder by first [own | apply lookup_insert_eq | exact I]. cbn in *. lia.
  - counts Hi T_load. go_on Hinv Hi; [|no_wait]. erewrite phase_holder by first [own | apply lookup_insert_eq | exact I]. cbn in *. lia.
Qed.

Lemma release_writer_inv s i p q :
  inv n s → pcs s !! i = Some p → match p with T_release => q = Outside | U_wunlock => q = U_unlk | _ => False end →
  inv n (goto i q (set_writer None s)).
Proof.
  intros Hinv Hi Hpq. start Hinv. destruct p; try done; rewrite (phase_holder s _ _ Hwriter Hi I) in Hph; subst q.
  - counts Hi Outside. go_on Hinv Hi; [|no_wait]. cbn in *. lia.
  - counts Hi U_unlk. go_on Hinv Hi; [|no_wait]. cbn in *. lia.
Qed.

Lemma lock_sub_inv s i : inv n s → pcs s !! i = Some W_sub → good (Some (lock_sub i s)).
Proof.
  intros Hinv Hi. start Hinv. range Hinv. assert (Hph' := Hph). rewrite (phase_holder s _ _ Hwriter Hi I) in Hph'.
  unfold lock_sub, FLARE_CHECK, int, kMaxReaders. rewrite i32_small by lia. cbn in Hph'. unfold kMaxReaders in Hph'. case_decide.
  - counts Hi Writing. go_on Hinv Hi; [|no_wait]. phase_own Hi. cbn in *. lia.
  - rewrite !decide_True by lia. counts Hi (W_wlock (1073741823 - reader_quota_ s)). go_on Hinv Hi; [|no_wait].
    phase_own Hi. cbn in *. unfold kMaxReaders in *. lia.
Qed.

Lemma lock_wait_inv s i p : inv n s → pcs s !! i = Some (W_check p) → good (Some (lock_wait i p s)).
Proof.
  intros Hinv Hi. start Hinv. unfold lock_wait. case_decide.
  - counts Hi W_unlk. go_on Hinv Hi; [phase_own Hi; cbn in *; lia|].
    right. split; [cbn; tauto|]. intros f [] Hf Hx; cbn; auto. intros _. exfalso. apply Hf. by eapply (owner_alone _ _ _ _ _ _ _ Hwriter Hi I Hx).
  - unfold cv_wait, AddWaiter, FLARE_CHECK. rewrite (iv_awakened _ _ Hinv), decide_True by done. counts Hi (W_asleep p).
    eapply (cv_wait_inv n _ _ _ _ _ Hinv Hi); [reflexivity|own|own| |intros ? [=]|reflexivity|cbn; tauto|cbn; tauto|done|done|done|done].
    phase_own Hi. cbn in *. lia.
Qed.

Lemma try_lock_loop_inv s i p was : inv n s → pcs s !! i = Some p → p = T_load ∨ p = T_cas → good (Some (try_lock_loop i was s)).
Proof.
  intros Hinv Hi Hp. start Hinv. unfold try_lock_loop. case_decide.
  - counts Hi T_release. destruct Hp as [->| ->]; b2n_eval; (go_on Hinv Hi; [|no_wait]); phase_own Hi; cbn in *; lia.
  - counts Hi T_cas. destruct Hp as [->| ->]; b2n_eval; (go_on Hinv Hi; [|no_wait]); phase_own Hi; cbn in *; lia.
Qed.

Lemma try_lock_cas_inv weak s i : inv n s → pcs s !! i = Some T_cas → good (Some (try_lock_cas weak i s)).
Proof.
  intros Hinv Hi. unfold try_lock_cas. destruct weak; [|case_decide as Hq]; try (eapply try_lock_loop_inv; eauto; done).
  start Hinv. counts Hi Writing. go_on Hinv Hi; [|no_wait]. phase_own Hi. cbn in *. unfold kMaxReaders in *. lia.
Qed.

Lemma unlock_add_inv s i : inv n s → pcs s !! i = Some U_add → good (Some (unlock_add i s)).
Proof.
  intros Hinv Hi. start Hinv. range Hinv. assert (Hph' := Hph). rewrite (phase_holder s _ _ Hwriter Hi I) in Hph'. cbn in Hph'.
  unfold unlock_add, FLARE_CHECK, int, kMaxReaders. rewrite i32_small by lia. do 3 rewrite decide_True by lia. case_decide.
  - counts Hi (U_grant (reader_quota_ s)). go_on Hinv Hi; [|no_wait]. phase_own Hi. cbn in *. unfold kMaxReaders. lia.
  - counts Hi U_wunlock. go_on Hinv Hi; [|no_wait]. phase_own Hi. cbn in *. unfold kMaxReaders. lia.
Qed.

Lemma grant_inv s i was : inv n s → pcs s !! i = Some (U_grant was) → good (Some (int (- was) (λ z, Ret (goto i U_notify (set_granted z s))))).
Proof.
  intros Hinv Hi. start Hinv. assert (Hph' := Hph). rewrite (phase_holder s _ _ Hwriter Hi I) in Hph'. cbn in Hph'.
  unfold int. rewrite decide_True by lia. counts Hi U_notify. go_on Hinv Hi; [|by left]. phase_own Hi. cbn in *. lia.
Qed.

Lemma call_inv s i p : inv n s → match p with W_lock | T_lock | R_sub | TS_load => True | _ => False end → good (call i p s).
Proof.
  intros Hinv Hp. start Hinv. unfold call. destruct (pcs s !! i) as [[]|] eqn:Hi; try done. counts Hi p.
  destruct p; try done; b2n_eval; (go_on Hinv Hi; [|no_wait]); phase_keep Hi; by_phase s.
Qed.

Lemma Shared_step_inv e s : inv n s → good (step e s).
Proof.
  intros Hinv. destruct e as [i|i|i|i|weak i]; cbn; try (by apply call_inv).
  unfold next. destruct (pcs s !! i) as [p|] eqn:Hi; [|done].
  destruct p; try done;
    try first [ by apply lock_shared_inv | by apply WaitForRead_inv | by apply unlock_shared_inv | by apply try_lock_shared_cas_inv
      | by apply WakeupWriter_inv | by apply lock_sub_inv | by apply lock_wait_inv | by apply try_lock_cas_inv | by apply unlock_add_inv
      | by apply grant_inv | by eapply take_wakeup_inv | by eapply cv_awake_inv | by eapply release_wakeup_inv | by eapply notify_inv
      | by eapply release_writer_inv | by eapply try_lock_shared_loop_inv; [| |left|] | by eapply try_lock_loop_inv; [| |left] ].
  - unfold take_writer. destruct (writer_lock_ s) eqn:E; [done|]. by eapply take_writer_inv.
  - start Hinv. counts Hi U_lock. go_on Hinv Hi; [|no_wait]. phase_own Hi. cbn in *. lia.
  - destruct (writer_lock_ s) eqn:E; [|by eapply take_writer_inv]. start Hinv. counts Hi Outside. go_on Hinv Hi; [|no_wait].
    phase_keep Hi. by_phase s.
Qed.
End steps.

Lemma Shared_initial_inv n : inv n (initial n).
Proof.
  split; cbn; rewrite ?fibers_cnt by (cbn; tauto); try done.
  - apply fibers_size.
  - intros i. split; [done|]. intros (p & ->%fibers_lookup & []).
  - intros i. split; [done|]. intros (p & ->%fibers_lookup & []).
  - by intros i z ?%fibers_lookup.
  - by intros f ?%not_elem_of_nil.
  - by intros f p ->%fibers_lookup.
  - by intros _ f p ?%not_elem_of_nil.
Qed.

Lemma Shared_reachable_inv n s : Z.of_nat n + 1 < kMaxReaders → reachable n s → inv n s.
Proof.
  intros Hn. induction 1 as [|e s s' _ IH Hs]; [apply Shared_initial_inv|]. pose proof (Shared_step_inv n Hn e s IH) as H. by rewrite Hs in H.
Qed.

(** ** Safety *)

(** C21: [SharedMutex] excludes and none of its checks fails: in every interleaving
    of fewer than [kMaxReaders] - 1 fibers that lock, try to lock and unlock, in
    either mode, while a fiber is in the exclusive section no other fiber is in it
    and none is in a shared one, and no counter overflows. *)
Theorem SharedMutex_safe n s :
  Z.of_nat n + 1 < kMaxReaders → reachable n s →
  (∀ e, match step e s with None | Some (Ret _) => True | Some _ => False end)
  ∧ (∀ i j p, pcs s !! i = Some Writing → pcs s !! j = Some p → p = Writing ∨ p = Reading → j = i).
Proof.
  intros Hn Hr. apply (Shared_reachable_inv n s Hn) in Hr as Hinv. split.
  - intros e. pose proof (Shared_step_inv n Hn e s Hinv) as H. by destruct (step e s) as [[]|].
  - intros i j p Hi Hj [->| ->]; [by eapply (owner_alone _ _ _ _ _ _ _ (iv_writer _ _ Hinv) Hi I Hj)|exfalso].
    pose proof (cnt_pos reader _ _ _ Hj I). pose proof (iv_phase _ _ Hinv) as Hph.
    rewrite (phase_holder s _ _ (iv_writer _ _ Hinv) Hi I) in Hph. cbn in Hph. lia.
Qed.

(** ** Progress *)

(** A fiber that cannot go on waits for one of the locks, or to be woken. *)
Definition waits (p : pc) : Prop :=
  match p with R_wlock | R_exit | W_wlock _ | U_lock | W_lock | R_asleep | W_asleep _ => True | _ => False end.

Section stuck.
Context (n : nat) s (Hinv : inv n s) (Hstuck : ∀ i, next false i s = None).

Lemma stuck_waits i p : pcs s !! i = Some p → p = Outside ∨ waits p.
Proof.
  intros Hi. specialize (Hstuck i). unfold next in Hstuck. rewrite Hi in Hstuck. destruct p; cbn; auto; done.
Qed.

Lemma stuck_wakeup : wakeup_lock_ s = None.
Proof.
  destruct (wakeup_lock_ s) as [i|] eqn:E; [exfalso|done]. apply (iv_wakeup _ _ Hinv) in E as (p & Hi & Hp).
  destruct (stuck_waits i p Hi) as [->|Hw]; [done|]. destruct p; done.
Qed.

(** Only the sleeping fibers, and the writers that wait for another, are left. *)
Lemma stuck_asleep i p : pcs s !! i = Some p → p = Outside ∨ p = W_lock ∨ asleep p ∧ i ∈ waiters_ (wakeup_cv_ s).
Proof.
  intros Hi. destruct (stuck_waits i p Hi) as [->|Hw]; [by left|right]. pose proof (Hstuck i) as Hs. unfold next in Hs. rewrite Hi in Hs.
  assert (Hsleep : asleep p → i ∉ satisfied (wakeup_cv_ s) → asleep p ∧ i ∈ waiters_ (wakeup_cv_ s)).
  { intros Hp Hsat. split; [done|]. by destruct (iv_asleep _ _ Hinv i p Hi Hp). }
  unfold take_wakeup, cv_awake in Hs. rewrite stuck_wakeup in Hs.
  destruct p; try done; try (by left); right; apply Hsleep; try done; case_decide; done.
Qed.

Lemma stuck_to_wait i p : pcs s !! i = Some p → asleep p → to_wait (exited_readers_ s) (newly_granted_readers_ s) p.
Proof.
  intros Hi Hp. apply (iv_wait _ _ Hinv) with i; [|by destruct (stuck_asleep i p Hi) as [->|[->|[_ ?]]]|done].
  intros j q Hj Hq. destruct (stuck_waits j q Hj) as [->|?]; [done|]. by destruct q.
Qed.

Lemma stuck_counts : cnt reader (pcs s) = 0%nat ∧ cnt leaver (pcs s) = 0%nat
  ∧ ((0 < cnt waiter (pcs s))%nat → newly_granted_readers_ s = 0).
Proof.
  split; [|split].
  - apply cnt_none. intros i p Hi Hp. destruct (stuck_waits i p Hi) as [->|?]; [done|]. by destruct p.
  - apply cnt_none. intros i p Hi Hp. destruct (stuck_asleep i p Hi) as [->|[->|[? _]]]; [done..|]. by destruct p.
  - intros (i & p & Hi & Hp)%cnt_exists. destruct (stuck_asleep i p Hi) as [->|[->|[Ha _]]]; [done..|].
    pose proof (stuck_to_wait i p Hi Ha) as H. by destruct p.
Qed.

(** No writer sleeps. *)
Lemma stuck_writer : writer_lock_ s = None.
Proof.
  destruct (writer_lock_ s) as [i|] eqn:E; [exfalso|done]. apply (iv_writer _ _ Hinv) in E as (p & Hi & Hp).
  destruct (stuck_asleep i p Hi) as [->|[->|[Ha _]]]; [done..|]. destruct p as [| | | | | | | | | | | | | | | | |z| | | | | | | | | | | |]; try done.
  pose proof (stuck_to_wait i _ Hi Ha) as Hw. cbn in Hw. pose proof (iv_phase _ _ Hinv) as Hph.
  rewrite (phase_holder s _ _ (iv_writer _ _ Hinv) Hi I) in Hph. destruct stuck_counts as (Hr & Hl & Hg). cbn in Hph.
  destruct (decide (cnt waiter (pcs s) = 0%nat)); lia.
Qed.

Lemma Shared_stuck_outside i p : pcs s !! i = Some p → p = Outside.
Proof.
  intros Hi. pose proof (iv_phase _ _ Hinv) as Hph. unfold phase in Hph. rewrite stuck_writer in Hph. destruct stuck_counts as (Hr & Hl & Hg). cbn in Hph.
  destruct (stuck_asleep i p Hi) as [->|[->|[Ha _]]]; [done|exfalso..].
  - pose proof (Hstuck i) as Hs. unfold next, take_writer in Hs. by rewrite Hi, stuck_writer in Hs.
  - destruct p; try done.
    + pose proof (cnt_pos waiter _ _ _ Hi I). lia.
    + pose proof (proj2 (iv_writer _ _ Hinv i) (ex_intro _ _ (conj Hi I))) as Hw. by rewrite stuck_writer in Hw.
Qed.
End stuck.

(** C22: no wake-up is lost: as long as some fiber is in a call of [SharedMutex] or in
    one of its sections, some fiber can go on, also if no [compare_exchange_weak]
    fails for no reason.  So a reader sleeps only while a writer is in or before it,
    and a writer only while readers are in. *)
Theorem SharedMutex_progress n s i p :
  Z.of_nat n + 1 < kMaxReaders → reachable n s → pcs s !! i = Some p → p ≠ Outside →
  ∃ j s', next false j s = Some (Ret s').
Proof.
  intros Hn Hr Hi Hp. apply (Shared_reachable_inv n s Hn) in Hr as Hinv.
  destruct (decide (Exists (λ e, is_Some (next false e.1 s)) (map_to_list (pcs s)))) as [Hy|Hno].
  - apply Exists_exists in Hy as ([j q] & _ & r & Hj). cbn in Hj. pose proof (Shared_step_inv n Hn (Go false j) s Hinv) as H.
    cbn in H. rewrite Hj in H. destruct r as [s'| | | |]; try done. by exists j, s'.
  - exfalso. apply Hp. apply (Shared_stuck_outside n s Hinv) with i; [|done]. intros j.
    destruct (next false j s) as [r|] eqn:Hj; [exfalso|done]. apply Hno, Exists_exists.
    destruct (pcs s !! j) as [q|] eqn:Hq; [|unfold next in Hj; by rewrite Hq in Hj].
    exists (j, q). split; [by apply elem_of_map_to_list|by exists r].
Qed.

(** *** Two readers and a writer *)

Lemma Shared_run_reachable n es s : reachable n s → reachable n (default s (run_steps (stepped step) es s)).
Proof. apply run_steps_ind. intros e s1 s2 Hr Hs%stepped_Some. by apply (Reach_step n e s1). Qed.

(** Reader 0 is in, writer 1 sleeps until it leaves, and reader 2 sleeps until the
    writer does. *)
Definition crowded : state :=
  default (initial 3) (run_steps (stepped step) ([Call_lock_shared 0; Go false 0; Call_lock 1] ++ replicate 4 (Go false 1)
    ++ [Call_lock_shared 2] ++ replicate 3 (Go false 2))%nat (initial 3)).

Lemma crowded_pcs : (λ i, pcs crowded !! i) <$> [0; 1; 2]%nat = [Some Reading; Some (W_asleep 1); Some R_asleep].
Proof. vm_compute. reflexivity. Qed.

Lemma crowded_reachable : reachable 3 crowded.
Proof. apply Shared_run_reachable, Reach_initial. Qed.

(** Reader 0 leaves, the writer comes in, and reader 2 is still asleep. *)
Definition written : state :=
  default crowded (run_steps (stepped step) (replicate 5 (Go false 0) ++ replicate 4 (Go false 1))%nat crowded).

Lemma written_reachable : reachable 3 written.
Proof. apply Shared_run_reachable, crowded_reachable. Qed.

Lemma SharedMutex_safe_witness :
  pcs written !! 1%nat = Some Writing
  ∧ (∀ e, match step e written with None | Some (Ret _) => True | Some _ => False end)
  ∧ (∀ i j p, pcs written !! i = Some Writing → pcs written !! j = Some p → p = Writing ∨ p = Reading → j = i).
Proof. split; [vm_compute; reflexivity|]. apply (SharedMutex_safe 3); [done|apply written_reachable]. Defined.

Lemma SharedMutex_progress_witness : ∃ j s', next false j written = Some (Ret s').
Proof. apply (SharedMutex_progress 3 written 2 R_asleep); [done|apply written_reachable|vm_compute; reflexivity|done]. Defined.
End SharedMutex.
