(* ===== verification/RunQueue.v ===== *)
(** * The queue of runnable fibers: flare/fiber/detail/run_queue.{h,cc}

    A bounded queue that any number of threads push to and pop from without a
    lock.  Positions are numbered from 0 and never reused; position [p] lives in
    node [p mod capacity_], whose sequence number says what can be done with it:
    [p] that it waits for an entity, [p + 1] that it holds one, and [p +
    capacity_] that it waits for the next round.  A thread claims positions by a
    [compare_exchange] of [head_seq_] or [tail_seq_], and then has their nodes
    for itself.

    A step of the model is one operation on shared memory of one thread.
    [pushed] is the history of all entities that were ever claimed a position
    for, in the order of the positions.  [RunQueue_linearizable] says that the
    queue is a first-in first-out queue whose operations take effect when they
    claim, and that a thread gets the entity of the position it claimed,
    [RunQueue_errors] when an operation gives up. *)

From S2P Require Import Prelude.

Module RunQueue.

Record Node := mkNode {
  fiber : option nat;  (* [None] is the null pointer *)
  instealable : bool;
  seq : Z;
}.

(** [Pop], its slow path, and [Steal]. *)
Inductive mode := Fast | Slow | Stealing.

#[export] Instance mode_eq_dec : EqDecision mode.
Proof. solve_decision. Defined.

(** Where a thread is. *)
Inductive pc :=
| Outside
(* Push and PushSlow *)
| Push_load (slow : bool) (e : nat) (b : bool)
| Push_node (slow : bool) (head : Z) (e : nat) (b : bool)      (* before [n.seq] is loaded *)
| Push_cas (slow : bool) (head : Z) (e : nat) (b : bool)
(* BatchPush *)
| Batch_load (es : list nat) (b : bool)
| Batch_node (head_was : Z) (es : list nat) (b : bool)         (* before the node at [head] is loaded *)
| Batch_check (head_was : Z) (i : nat) (es : list nat) (b : bool)
| Batch_cas (head_was : Z) (es : list nat) (b : bool)
(* the nodes of the claimed positions are filled, [es] from position [p] on *)
| Fill_check (p : Z) (es : list nat) (b : bool)
| Fill_fiber (p : Z) (es : list nat) (b : bool)
| Fill_instealable (p : Z) (es : list nat) (b : bool)
| Fill_seq (p : Z) (es : list nat) (b : bool)
(* Pop and PopIf *)
| Pop_load (m : mode)
| Pop_node (m : mode) (tail : Z)
| Pop_test (tail : Z)                                          (* the condition of [Steal] *)
| Pop_cas (m : mode) (tail : Z)
| Pop_read (m : mode) (tail : Z)
| Pop_reset (m : mode) (tail : Z) (rc : option nat).

Record state := mkQueue {
  head_seq_ : Z;
  tail_seq_ : Z;
  nodes_ : list Node;
  threads : gmap nat pc;
  pushed : list (nat * bool);
}.

(** What a call returns. *)
Inductive result := Push_result (ok : bool) | Pop_result (e : option nat).

Implicit Types (s : state) (i : nat) (n : Node) (h t p : Z) (e : nat) (b : bool) (es : list nat).

Section queue.
Context (k : nat).

Definition capacity_ : Z := 2 ^ Z.of_nat k.
Definition mask_ : Z := capacity_ - 1.

Definition index (p : Z) : nat := Z.to_nat (Z.land p mask_).

(** The constructor. *)
Definition RunQueue_new : state :=
  mkQueue 0 0 (mkNode None false <$> seqZ 0 capacity_) ∅ [].

Definition goto i (x : pc) s : state :=
  mkQueue (head_seq_ s) (tail_seq_ s) (nodes_ s) (<[i := x]> (threads s)) (pushed s).
Definition set_node p n s : state :=
  mkQueue (head_seq_ s) (tail_seq_ s) (<[index p := n]> (nodes_ s)) (threads s) (pushed s).
Definition set_tail t s : state :=
  mkQueue (head_seq_ s) t (nodes_ s) (threads s) (pushed s).
Definition claim h es b s : state :=
  mkQueue h (tail_seq_ s) (nodes_ s) (threads s) (pushed s ++ ((λ e, (e, b)) <$> es)).

Definition node_at p s : outcome Node := deref (nodes_ s !! index p).

(** A step goes on, or the call returns. *)
Definition go i (x : pc) s : outcome (state * option result) := Ret (goto i x s, None).
Definition return_ i (r : result) s : outcome (state * option result) := Ret (goto i Outside s, Some r).

(** [Push], up to the claim; what fails there goes on in [PushSlow]. *)
Definition push_node i (slow : bool) h e b s : outcome (state * option result) :=
  n ←! node_at h s;
  if decide (seq n = h) then go i (Push_cas slow h e b) s
  else if slow then
    if decide (u64 (seq n + capacity_) = u64 (h + 1)) then return_ i (Push_result false) s else go i (Push_load true e b) s
  else go i (Push_load true e b) s.

Definition push_cas (weak : bool) i (slow : bool) h e b s : outcome (state * option result) :=
  if decide (head_seq_ s = h ∧ (slow && weak = false)) then go i (Fill_fiber h [e] b) (claim (u64 (h + 1)) [e] b s)
  else go i (Push_load true e b) s.

Definition batch_node i h es b s : outcome (state * option result) :=
  let head := u64 (h + Z.of_nat (length es)) in
  n ←! node_at head s;
  if decide (seq n = head) then go i (Batch_check h 0 es b) s
  else if decide (u64 (seq n + capacity_) = u64 (head + 1)) then return_ i (Push_result false) s
  else go i (Batch_load es b) s.

(** The counter of the loop is an [int]: for a batch that it cannot count to, its
    increment overflows. *)
Definition batch_check i h (j : nat) es b s : outcome (state * option result) :=
  if decide (j = length es) then go i (Batch_cas h es b) s
  else
    n ←! node_at (u64 (h + Z.of_nat j)) s;
    if decide (seq n ≠ u64 (h + Z.of_nat j) ∧ u64 (seq n + capacity_) = u64 (h + Z.of_nat j + 1))
    then return_ i (Push_result false) s
    else if decide (Z.of_nat (S j) < 2 ^ 31) then go i (Batch_check h (S j) es b) s else Undef.

(** The loop that fills the nodes, at its head. *)
Definition fill_loop i p es b s : outcome (state * option result) :=
  match es with [] => return_ i (Push_result true) s | _ => go i (Fill_check p es b) s end.

Definition batch_cas (weak : bool) i h es b s : outcome (state * option result) :=
  let head := u64 (h + Z.of_nat (length es)) in
  if decide (head_seq_ s = h ∧ weak = false) then fill_loop i h es b (claim head es b s)
  else go i (Batch_load es b) s.

Definition fill_check i p es b s : outcome (state * option result) :=
  n ←! node_at p s;
  if decide (seq n = p) then go i (Fill_fiber p es b) s else Abort.

Definition fill_fiber i p es b s : outcome (state * option result) :=
  n ←! node_at p s;
  e ←! deref (head es);
  go i (Fill_instealable p es b) (set_node p (mkNode (Some e) (instealable n) (seq n)) s).

Definition fill_instealable i p es b s : outcome (state * option result) :=
  n ←! node_at p s;
  go i (Fill_seq p es b) (set_node p (mkNode (fiber n) b (seq n)) s).

Definition fill_seq i p es b s : outcome (state * option result) :=
  n ←! node_at p s;
  fill_loop i (u64 (p + 1)) (tail es) b (set_node p (mkNode (fiber n) (instealable n) (u64 (p + 1))) s).

(** [Pop], and [PopIf]. *)
Definition pop_node i (m : mode) t s : outcome (state * option result) :=
  n ←! node_at t s;
  if decide (seq n = u64 (t + 1)) then go i (if decide (m = Stealing) then Pop_test t else Pop_cas m t) s
  else if decide (seq n = t) then return_ i (Pop_result None) s
  else go i (Pop_load (if decide (m = Fast) then Slow else m)) s.

Definition pop_test i t s : outcome (state * option result) :=
  n ←! node_at t s;
  if instealable n then return_ i (Pop_result None) s else go i (Pop_cas Stealing t) s.

Definition pop_cas (weak : bool) i (m : mode) t s : outcome (state * option result) :=
  if decide (tail_seq_ s = t ∧ (m = Fast ∨ weak = false)) then go i (Pop_read m t) (set_tail (u64 (t + 1)) s)
  else go i (Pop_load (if decide (m = Fast) then Slow else m)) s.

Definition pop_read i (m : mode) t s : outcome (state * option result) :=
  n ←! node_at t s;
  go i (Pop_reset m t (fiber n)) s.

Definition pop_reset i t (rc : option nat) s : outcome (state * option result) :=
  n ←! node_at t s;
  return_ i (Pop_result rc) (set_node t (mkNode (fiber n) (instealable n) (u64 (t + capacity_))) s).

(** The next operation of a thread; [weak] says that a [compare_exchange_weak]
    fails for no reason. *)
Definition next (weak : bool) i s : option (outcome (state * option result)) :=
  match threads s !! i with
  | None | Some Outside => None
  | Some (Push_load slow e b) => Some (go i (Push_node slow (head_seq_ s) e b) s)
  | Some (Push_node slow h e b) => Some (push_node i slow h e b s)
  | Some (Push_cas slow h e b) => Some (push_cas weak i slow h e b s)
  | Some (Batch_load es b) => Some (go i (Batch_node (head_seq_ s) es b) s)
  | Some (Batch_node h es b) => Some (batch_node i h es b s)
  | Some (Batch_check h j es b) => Some (batch_check i h j es b s)
  | Some (Batch_cas h es b) => Some (batch_cas weak i h es b s)
  | Some (Fill_check p es b) => Some (fill_check i p es b s)
  | Some (Fill_fiber p es b) => Some (fill_fiber i p es b s)
  | Some (Fill_instealable p es b) => Some (fill_instealable i p es b s)
  | Some (Fill_seq p es b) => Some (fill_seq i p es b s)
  | Some (Pop_load m) => Some (go i (Pop_node m (tail_seq_ s)) s)
  | Some (Pop_node m t) => Some (pop_node i m t s)
  | Some (Pop_test t) => Some (pop_test i t s)
  | Some (Pop_cas m t) => Some (pop_cas weak i m t s)
  | Some (Pop_read m t) => Some (pop_read i m t s)
  | Some (Pop_reset m t rc) => Some (pop_reset i t rc s)
  end.

Definition UnsafeEmpty s : bool := bool_decide (head_seq_ s ≤ tail_seq_ s).

Inductive event :=
| Call_Push i e b
| Call_BatchPush i es b
| Call_Pop i
| Call_Steal i
| Go (weak : bool) i.

(** A thread that is not in a call makes one. *)
Definition call i (x : pc) s : option (outcome (state * option result)) :=
  match default Outside (threads s !! i) with Outside => Some (go i x s) | _ => None end.

Definition step (ev : event) s : option (outcome (state * option result)) :=
  match ev with
  | Call_Push i e b => call i (Push_load false e b) s
  | Call_BatchPush i es b => call i (Batch_load es b) s
  | Call_Pop i => call i (Pop_load Fast) s
  | Call_Steal i => call i (Pop_load Stealing) s
  | Go weak i => next weak i s
  end.

(** The runs with fewer than 2^62 entities, and batches that an [int] can count. *)
Definition small (ev : event) s : Prop :=
  head_seq_ s < 2 ^ 62 ∧ match ev with Call_BatchPush _ es _ => Z.of_nat (length es) < 2 ^ 31 | _ => True end.

Inductive reachable : state → Prop :=
| Reach_new : reachable RunQueue_new
| Reach_step ev s s' r : reachable s → small ev s → step ev s = Some (Ret (s', r)) → reachable s'.

(** ** The invariant *)

(** The positions a thread fills or empties. *)
Definition fills (x : pc) (p : Z) : Prop :=
  match x with
  | Fill_check q es _ | Fill_fiber q es _ | Fill_instealable q es _ | Fill_seq q es _ => q ≤ p < q + Z.of_nat (length es)
  | _ => False
  end.
Definition takes (x : pc) (p : Z) : Prop :=
  match x with Pop_read _ t | Pop_reset _ t _ => p = t | _ => False end.

Definition node s p : option Node := nodes_ s !! index p.
Definition seq_at s p (z : Z) : Prop := ∃ n, node s p = Some n ∧ seq n = z.

Definition entry s p : option (nat * bool) := pushed s !! Z.to_nat p.

(** The node of a position, once round the ring. *)
Definition node_ok s p : Prop :=
  ∃ n, node s p = Some n ∧
    if decide (p < head_seq_ s)
    then seq n = p ∨ seq n = p + 1 ∧ ∃ e, fiber n = Some e ∧ entry s p = Some (e, instealable n)
    else seq n = p ∨ seq n = p + 1 - capacity_.

Definition clean s p : Prop := head_seq_ s ≤ p < tail_seq_ s + capacity_ ∧ seq_at s p p.

(** The nodes of the claimed positions, of which the first is partly filled. *)
Definition filling s p es b : Prop :=
  0 ≤ p ∧ ∀ j e, es !! j = Some e →
    tail_seq_ s ≤ p + Z.of_nat j < head_seq_ s ∧ seq_at s (p + Z.of_nat j) (p + Z.of_nat j)
    ∧ entry s (p + Z.of_nat j) = Some (e, b).

Definition filled s t : Prop := tail_seq_ s = t → t < head_seq_ s ∧ seq_at s t (t + 1).

Definition taking s t (rc : option (option nat)) (m : mode) : Prop :=
  t < tail_seq_ s ∧ head_seq_ s ≤ t + capacity_ ∧ seq_at s t (t + 1) ∧
  ∃ n e b, node s t = Some n ∧ fiber n = Some e ∧ entry s t = Some (e, b) ∧ (m = Stealing → b = false)
    ∧ from_option (λ o, o = Some e) True rc.

Definition pc_ok s (x : pc) : Prop :=
  match x with
  | Outside | Push_load _ _ _ | Pop_load _ => True
  | Push_node _ h _ _ => 0 ≤ h ≤ head_seq_ s
  | Push_cas _ h _ _ => 0 ≤ h ≤ head_seq_ s ∧ (head_seq_ s = h → clean s h)
  | Batch_load es _ => Z.of_nat (length es) < 2 ^ 31
  | Batch_node h es _ => Z.of_nat (length es) < 2 ^ 31 ∧ 0 ≤ h ≤ head_seq_ s
  | Batch_check h i es _ => Z.of_nat (length es) < 2 ^ 31 ∧ 0 ≤ h ≤ head_seq_ s ∧ (i ≤ length es)%nat
      ∧ (head_seq_ s = h → h + Z.of_nat (length es) < tail_seq_ s + capacity_ ∧ ∀ j, (j < i)%nat → clean s (h + Z.of_nat j))
  | Batch_cas h es _ => Z.of_nat (length es) < 2 ^ 31 ∧ 0 ≤ h ≤ head_seq_ s
      ∧ (head_seq_ s = h → h + Z.of_nat (length es) < tail_seq_ s + capacity_ ∧ ∀ j, (j < length es)%nat → clean s (h + Z.of_nat j))
  | Fill_check p es b => es ≠ [] ∧ filling s p es b
  | Fill_fiber p es b => es ≠ [] ∧ filling s p es b
  | Fill_instealable p es b => es ≠ [] ∧ filling s p es b ∧ ∃ n, node s p = Some n ∧ fiber n = head es
  | Fill_seq p es b => es ≠ [] ∧ filling s p es b ∧ ∃ n, node s p = Some n ∧ fiber n = head es ∧ instealable n = b
  | Pop_node _ t => 0 ≤ t ≤ tail_seq_ s
  | Pop_test t => 0 ≤ t ≤ tail_seq_ s ∧ filled s t
  | Pop_cas m t => 0 ≤ t ≤ tail_seq_ s ∧ filled s t
      ∧ (m = Stealing → tail_seq_ s = t → ∃ n, node s t = Some n ∧ instealable n = false)
  | Pop_read m t => 0 ≤ t ∧ taking s t None m
  | Pop_reset m t rc => 0 ≤ t ∧ taking s t (Some rc) m
  end.

Record inv s : Prop := {
  iv_length : Z.of_nat (length (nodes_ s)) = capacity_;
  iv_order : 0 ≤ tail_seq_ s ≤ head_seq_ s ∧ head_seq_ s ≤ tail_seq_ s + capacity_ ∧ head_seq_ s < 2 ^ 63;
  iv_pushed : Z.of_nat (length (pushed s)) = head_seq_ s;
  iv_node p : tail_seq_ s ≤ p < tail_seq_ s + capacity_ → node_ok s p;
  iv_pc i x : threads s !! i = Some x → pc_ok s x;
  iv_fills i j x y p : threads s !! i = Some x → threads s !! j = Some y → fills x p → fills y p → i = j;
  iv_takes i j x y p : threads s !! i = Some x → threads s !! j = Some y → takes x p → takes y p → i = j;
  iv_filler p : tail_seq_ s ≤ p < head_seq_ s → seq_at s p p → ∃ i x, threads s !! i = Some x ∧ fills x p;
  iv_taker p : head_seq_ s ≤ p < tail_seq_ s + capacity_ → seq_at s p (p + 1 - capacity_) →
    ∃ i x, threads s !! i = Some x ∧ takes x (p - capacity_);
}.

(** ** The ring *)

Section proofs.
Context (Hk : (1 ≤ k ≤ 62)%nat).

Lemma capacity_range : 2 ≤ capacity_ ≤ 2 ^ 62.
Proof.
  unfold capacity_. split; [change 2 with (2 ^ 1) at 1|]; apply Z.pow_le_mono_r; lia.
Qed.

Lemma index_mod p : index p = Z.to_nat (p mod capacity_).
Proof. unfold index, mask_, capacity_. by rewrite Z.sub_1_r, <-Z.ones_equiv, Z.land_ones by lia. Qed.

Lemma index_inj a p q : a ≤ p < a + capacity_ → a ≤ q < a + capacity_ → index p = index q → p = q.
Proof.
  pose proof capacity_range. intros Hp Hq Heq. rewrite !index_mod in Heq.
  apply Z2Nat.inj in Heq; [|apply Z.mod_pos_bound; lia..].
  pose proof (Z.div_mod p capacity_). pose proof (Z.div_mod q capacity_).
  assert (p / capacity_ = q / capacity_) by nia. nia.
Qed.

Lemma index_next p : index (p + capacity_) = index p.
Proof.
  pose proof capacity_range. rewrite !index_mod. f_equal. rewrite <-(Z.mul_1_l capacity_) at 1. apply Z.mod_add. lia.
Qed.

Lemma node_next s p : node s (p + capacity_) = node s p.
Proof. unfold node. by rewrite index_next. Qed.

Lemma node_is_Some s p : inv s → is_Some (node s p).
Proof.
  intros Hinv. pose proof capacity_range. pose proof (iv_length _ Hinv). unfold node. apply lookup_lt_is_Some. rewrite index_mod.
  pose proof (Z.mod_pos_bound p capacity_). lia.
Qed.

Lemma node_at_node s p n : node s p = Some n → node_at p s = Ret n.
Proof. unfold node, node_at. by intros ->. Qed.

Lemma node_set_eq s p q n : inv s → index q = index p → node (set_node p n s) q = Some n.
Proof.
  intros Hinv Hpq. unfold node. cbn. rewrite Hpq. apply list_lookup_insert_eq.
  destruct (node_is_Some s p Hinv) as [? Hn]. by apply lookup_lt_Some in Hn.
Qed.

Lemma node_set_ne s p q n : index q ≠ index p → node (set_node p n s) q = node s q.
Proof. intros Hpq. unfold node. cbn. by apply list_lookup_insert_ne. Qed.

Lemma node_ok_seq s p : node_ok s p → ∃ z, seq_at s p z ∧ (z = p ∨ z = p + 1 ∧ p < head_seq_ s ∨ z = p + 1 - capacity_ ∧ head_seq_ s ≤ p).
Proof.
  intros (n & Hn & Hok). exists (seq n). split; [by exists n|]. destruct (decide (p < head_seq_ s)); [|lia].
  destruct Hok as [|[? _]]; auto.
Qed.

Lemma seq_at_fun s p z1 z2 : seq_at s p z1 → seq_at s p z2 → z1 = z2.
Proof. intros (n & Hn & <-) (n' & Hn' & <-). congruence. Qed.

(** The node of a position waits for it only if the position is next round the
    ring. *)
Lemma seq_hit s p : inv s → tail_seq_ s ≤ p → seq_at s p p → p < tail_seq_ s + capacity_.
Proof.
  intros Hinv Hp Hseq. pose proof capacity_range.
  set (q := tail_seq_ s + (p - tail_seq_ s) mod capacity_).
  assert (Hq : tail_seq_ s ≤ q < tail_seq_ s + capacity_) by (pose proof (Z.mod_pos_bound (p - tail_seq_ s) capacity_); lia).
  assert (Hidx : index q = index p).
  { rewrite !index_mod. f_equal. unfold q. rewrite Zplus_mod_idemp_r. f_equal. lia. }
  assert (Hm : ∃ m, p = q + m * capacity_ ∧ 0 ≤ m).
  { exists ((p - tail_seq_ s) / capacity_). split; [|apply Z.div_pos; lia]. pose proof (Z.div_mod (p - tail_seq_ s) capacity_). lia. }
  destruct Hm as (m & Hm & Hm0). destruct (node_ok_seq s q (iv_node _ Hinv q Hq)) as (z & Hz & Hcases).
  assert (z = p). { apply (seq_at_fun s q); [done|]. unfold seq_at, node in *. by rewrite Hidx. }
  assert (m = 0) by nia. lia.
Qed.

(** ** What a step leaves as it is *)

(** The claims of a thread that another thread's step must not touch. *)
Record frame s s' (x : pc) : Prop := {
  fr_head : head_seq_ s ≤ head_seq_ s';
  fr_tail : tail_seq_ s ≤ tail_seq_ s';
  fr_entry p : 0 ≤ p < head_seq_ s → entry s' p = entry s p;
  fr_clean p : head_seq_ s' = head_seq_ s → clean s p → clean s' p;
  fr_fills p : fills x p → tail_seq_ s ≤ p < head_seq_ s → seq_at s p p → tail_seq_ s' ≤ p ∧ node s' p = node s p;
  fr_filled t : tail_seq_ s' = t → t ≤ tail_seq_ s → t < head_seq_ s → seq_at s t (t + 1) → node s' t = node s t;
  fr_takes t : takes x t → t < tail_seq_ s → head_seq_ s ≤ t + capacity_ → seq_at s t (t + 1) →
    head_seq_ s' ≤ t + capacity_ ∧ node s' t = node s t;
}.

Section frame.
Context s s' (x : pc) (Hinv : inv s) (Hf : frame s s' x).

Lemma frame_filling p es b : (∀ q, p ≤ q < p + Z.of_nat (length es) → fills x q) → filling s p es b → filling s' p es b.
Proof.
  intros Hx [Hp Hfill]. split; [done|]. intros j e Hj. destruct (Hfill j e Hj) as (Hr & Hseq & He).
  apply lookup_lt_Some in Hj as Hlen. destruct (fr_fills _ _ _ Hf (p + Z.of_nat j)) as [? Hn]; [apply Hx; lia|done|done|].
  pose proof (fr_head _ _ _ Hf). split; [lia|]. split; [|by rewrite (fr_entry _ _ _ Hf) by lia].
  unfold seq_at in *. by rewrite Hn.
Qed.

Lemma frame_first p es b : es ≠ [] → (∀ q, p ≤ q < p + Z.of_nat (length es) → fills x q) → filling s p es b → node s' p = node s p.
Proof.
  intros Hes Hx [Hp Hfill]. destruct es as [|e es]; [done|]. destruct (Hfill 0%nat e eq_refl) as (Hr & Hseq & _). rewrite Z.add_0_r in *.
  apply (fr_fills _ _ _ Hf p); [apply Hx; cbn; lia|done|done].
Qed.

Lemma frame_filled t : t ≤ tail_seq_ s → filled s t → filled s' t.
Proof.
  intros Ht Hfil Ht'. pose proof (fr_tail _ _ _ Hf). pose proof (fr_head _ _ _ Hf). destruct Hfil as [Hlt Hseq]; [lia|]. split; [lia|].
  pose proof (fr_filled _ _ _ Hf t Ht' Ht Hlt Hseq) as Hn. unfold seq_at in *. by rewrite Hn.
Qed.

Lemma frame_taking t rc m : 0 ≤ t → takes x t → taking s t rc m → taking s' t rc m.
Proof.
  intros H0 Hx (Hlt & Hh & Hseq & n & e & b & Hn & He). destruct (fr_takes _ _ _ Hf t Hx Hlt Hh Hseq) as [Hh' Hn'].
  pose proof (fr_tail _ _ _ Hf). split; [lia|]. split; [done|]. split; [unfold seq_at in *; by rewrite Hn'|].
  exists n, e, b. rewrite Hn'. pose proof (iv_order _ Hinv). by rewrite (fr_entry _ _ _ Hf) by lia.
Qed.

Lemma frame_clean h (m l : nat) :
  h ≤ head_seq_ s →
  (head_seq_ s = h → h + Z.of_nat l < tail_seq_ s + capacity_ ∧ ∀ j, (j < m)%nat → clean s (h + Z.of_nat j)) →
  head_seq_ s' = h → h + Z.of_nat l < tail_seq_ s' + capacity_ ∧ ∀ j, (j < m)%nat → clean s' (h + Z.of_nat j).
Proof.
  pose proof (fr_head _ _ _ Hf). pose proof (fr_tail _ _ _ Hf). intros Hh Hc Hh'. destruct Hc as [Hlt Hc]; [lia|]. split; [lia|].
  intros j Hj. apply (fr_clean _ _ _ Hf); [lia|auto].
Qed.

Lemma frame_pc_ok : pc_ok s x → pc_ok s' x.
Proof.
  pose proof (fr_head _ _ _ Hf) as Hh. pose proof (fr_tail _ _ _ Hf) as Ht. pose proof (fr_clean _ _ _ Hf) as Hc.
  pose proof frame_filling as H1. pose proof frame_first as H2. pose proof frame_filled as H3. pose proof frame_taking as H4. pose proof frame_clean as H5.
  destruct x; cbn [pc_ok fills takes] in *; try (intros; lia).
  - intros [Hr Hcl]. split; [lia|]. intros ?. apply Hc; [lia|]. apply Hcl. lia.
  - intros (Hl & Hr & Hi & Hcl). split; [done|]. split; [lia|]. split; [done|]. apply H5; [lia|done].
  - intros (Hl & Hr & Hcl). split; [done|]. split; [lia|]. apply H5; [lia|done].
  - intros [Hes Hx]. split; [done|]. by apply H1.
  - intros [Hes Hx]. split; [done|]. by apply H1.
  - intros (Hes & Hx & n & Hn). split; [done|]. split; [by apply H1|]. exists n. by erewrite H2.
  - intros (Hes & Hx & n & Hn). split; [done|]. split; [by apply H1|]. exists n. by erewrite H2.
  - intros [Hr Hx]. split; [lia|]. apply H3; [lia|done].
  - intros (Hr & Hx & Hst). split; [lia|]. split; [apply H3; [lia|done]|]. intros Hm Heq.
    destruct Hst as (n & Hn & Hb); [done|lia|]. exists n. destruct Hx as [Hlt Hseq]; [lia|].
    by rewrite (fr_filled _ _ _ Hf _ Heq) by (lia || done).
  - intros [Hr Hx]. split; [done|]. by apply H4.
  - intros [Hr Hx]. split; [done|]. by apply H4.
Qed.
End frame.

Lemma filling_lt s p es b q : filling s p es b → p ≤ q < p + Z.of_nat (length es) → tail_seq_ s ≤ q < head_seq_ s ∧ seq_at s q q.
Proof.
  intros [_ Hf] Hq. destruct (lookup_lt_is_Some_2 es (Z.to_nat (q - p))) as [e He]; [lia|].
  destruct (Hf _ _ He) as (Hr & Hseq & _). rewrite Z2Nat.id in * by lia. by replace (p + (q - p)) with q in * by lia.
Qed.

Lemma fills_lt s x p : pc_ok s x → fills x p → tail_seq_ s ≤ p < head_seq_ s ∧ seq_at s p p.
Proof. destruct x; cbn; try done; intros Hx Hp; eapply filling_lt; try done; apply Hx. Qed.

Lemma takes_lt s x t : pc_ok s x → takes x t → t < tail_seq_ s ∧ head_seq_ s ≤ t + capacity_ ∧ seq_at s t (t + 1).
Proof. destruct x; cbn; try done; intros [_ (? & ? & ? & _)] ->; done. Qed.

(** Thread [i] goes from [x] to [y] and leaves the claims of the others alone. *)
Lemma RunQueue_move_inv s s' i x y :
  inv s → default Outside (threads s !! i) = x → threads s' = <[i := y]> (threads s) →
  (∀ j z, j ≠ i → threads s !! j = Some z → pc_ok s z → frame s s' z) →
  pc_ok s' y → (∀ p, fills y p → fills x p ∨ head_seq_ s ≤ p) → (∀ t, takes y t → takes x t ∨ tail_seq_ s ≤ t) →
  length (nodes_ s') = length (nodes_ s) →
  tail_seq_ s ≤ tail_seq_ s' ≤ head_seq_ s' → head_seq_ s' ≤ tail_seq_ s' + capacity_ → head_seq_ s' < 2 ^ 63 →
  Z.of_nat (length (pushed s')) = head_seq_ s' →
  (∀ p, tail_seq_ s' ≤ p < tail_seq_ s' + capacity_ → node_ok s' p) →
  (∀ p, tail_seq_ s' ≤ p < head_seq_ s' → seq_at s' p p →
    fills y p ∨ p < head_seq_ s ∧ seq_at s p p ∧ ¬ fills x p) →
  (∀ p, head_seq_ s' ≤ p < tail_seq_ s' + capacity_ → seq_at s' p (p + 1 - capacity_) →
    takes y (p - capacity_) ∨ head_seq_ s ≤ p < tail_seq_ s + capacity_ ∧ seq_at s p (p + 1 - capacity_) ∧ ¬ takes x (p - capacity_)) →
  inv s'.
Proof.
  intros Hinv Hx Hthr Hframe Hy Hfills Htakes Hlen Hord Hcap Hbig Hpushed Hnode Hfiller Htaker.
  assert (Hmine : ∀ (P : pc → Prop), ¬ P Outside → P x → threads s !! i = Some x).
  { intros P HP HPx. destruct (threads s !! i) as [x'|]; cbn in Hx; by subst. }
  pose proof (iv_length _ Hinv). pose proof (iv_order _ Hinv). split; [lia|lia|done|done|..].
  - intros j z. rewrite Hthr. intros [[-> ->]|[Hj Hz]]%lookup_goto; [done|].
    pose proof (iv_pc _ Hinv j z Hz). apply (frame_pc_ok s); [done|by apply (Hframe j)|done].
  - assert (Hother : ∀ j z p, j ≠ i → threads s !! j = Some z → fills y p → fills z p → False).
    { intros j z p Hj Hz Hyp Hzp. apply Hj. destruct (Hfills p Hyp) as [Hxp|Hp].
      - symmetry. apply (iv_fills _ Hinv i j x z p); [|done..]. apply (Hmine (λ x, fills x p)); [by intros []|done].
      - destruct (fills_lt s z p (iv_pc _ Hinv j z Hz) Hzp). lia. }
    intros j1 j2 z1 z2 p. rewrite Hthr. intros [[-> ->]|[Hj1 Hz1]]%lookup_goto [[-> ->]|[Hj2 Hz2]]%lookup_goto H1 H2; [done| | |].
    + destruct (Hother j2 z2 p Hj2 Hz2 H1 H2).
    + destruct (Hother j1 z1 p Hj1 Hz1 H2 H1).
    + by apply (iv_fills _ Hinv j1 j2 z1 z2 p).
  - assert (Hother : ∀ j z p, j ≠ i → threads s !! j = Some z → takes y p → takes z p → False).
    { intros j z p Hj Hz Hyp Hzp. apply Hj. destruct (Htakes p Hyp) as [Hxp|Hp].
      - symmetry. apply (iv_takes _ Hinv i j x z p); [|done..]. apply (Hmine (λ x, takes x p)); [by intros []|done].
      - destruct (takes_lt s z p (iv_pc _ Hinv j z Hz) Hzp). lia. }
    intros j1 j2 z1 z2 p. rewrite Hthr. intros [[-> ->]|[Hj1 Hz1]]%lookup_goto [[-> ->]|[Hj2 Hz2]]%lookup_goto H1 H2; [done| | |].
    + destruct (Hother j2 z2 p Hj2 Hz2 H1 H2).
    + destruct (Hother j1 z1 p Hj1 Hz1 H2 H1).
    + by apply (iv_takes _ Hinv j1 j2 z1 z2 p).
  - intros p Hp Hs. destruct (Hfiller p Hp Hs) as [Hyp|(Hlt & Hs' & Hxp)]; [exists i, y; by rewrite Hthr, lookup_insert_eq|].
    destruct (iv_filler _ Hinv p) as (j & z & Hz & Hzp); [lia|done|]. exists j, z. split; [|done].
    rewrite Hthr, lookup_insert_ne; [done|]. intros <-. rewrite Hz in Hx. cbn in Hx. by subst.
  - intros p Hp Hs. destruct (Htaker p Hp Hs) as [Hyp|(Hlt & Hs' & Hxp)]; [exists i, y; by rewrite Hthr, lookup_insert_eq|].
    destruct (iv_taker _ Hinv p) as (j & z & Hz & Hzp); [lia|done|]. exists j, z. split; [|done].
    rewrite Hthr, lookup_insert_ne; [done|]. intros <-. rewrite Hz in Hx. cbn in Hx. by subst.
Qed.

(** A step that only reads. *)
Lemma goto_inv s i x y :
  inv s → default Outside (threads s !! i) = x → pc_ok s y → (∀ p, fills y p ↔ fills x p) → (∀ t, takes y t ↔ takes x t) →
  inv (goto i y s).
Proof.
  intros Hinv Hx Hy Hf Ht. pose proof (iv_order _ Hinv).
  assert (Hdec : (∀ p, fills x p ∨ ¬ fills x p) ∧ (∀ p, takes x p ∨ ¬ takes x p)).
  { split; intros p; destruct x; cbn; try (by right); lia. }
  eapply (RunQueue_move_inv s _ i x y); cbn; try done; try lia; try apply Hinv.
  - intros j z _ _ _. split; cbn; intros; first [lia | done | split; [lia|done]].
  - intros p Hp. left. by apply Hf.
  - intros p Hp. left. by apply Ht.
  - intros p Hp Hs. rewrite Hf. destruct (proj1 Hdec p); [by left|right]. split; [lia|done].
  - intros p Hp Hs. rewrite Ht. destruct (proj2 Hdec (p - capacity_)); [by left|by right].
Qed.

(** Positions are claimed for entities. *)
Lemma claim_inv s i x y es b :
  let h := head_seq_ s in let s' := goto i y (claim (h + Z.of_nat (length es)) es b s) in
  inv s → default Outside (threads s !! i) = x → h < 2 ^ 62 → Z.of_nat (length es) < 2 ^ 31 →
  h + Z.of_nat (length es) ≤ tail_seq_ s + capacity_ → (∀ j, (j < length es)%nat → clean s (h + Z.of_nat j)) → es ≠ [] →
  pc_ok s' y → (∀ p, fills y p ↔ h ≤ p < h + Z.of_nat (length es)) → (∀ t, ¬ takes y t) →
  (∀ p, ¬ fills x p) → (∀ p, ¬ takes x p) → inv s'.
Proof.
  intros h s' Hinv Hx Hsmall Hes Hcap Hclean Hne Hy Hf Ht Hfx Htx. pose proof (iv_order _ Hinv) as Hord. pose proof (iv_pushed _ Hinv) as Hpu.
  pose proof capacity_range. assert (Hpos : (0 < length es)%nat) by (destruct es; cbn; [done|lia]).
  assert (Hentry : ∀ p, 0 ≤ p < h → entry s' p = entry s p).
  { intros p Hp. unfold entry. cbn. apply lookup_app_l. lia. }
  eapply (RunQueue_move_inv s s' i x y); try done; cbn; try lia; auto.
  - intros j z Hj Hz Hpc. split; cbn; [lia|lia|done|lia|intros; split; [lia|done]|done|].
    intros t Htk Hlt Hh Hseq. split; [|done]. destruct (decide (h + Z.of_nat (length es) ≤ t + capacity_)) as [|Hbad]; [done|exfalso].
    destruct (Hclean (Z.to_nat (t + capacity_ - h))) as [_ Hseq']; [lia|]. rewrite Z2Nat.id in Hseq' by lia.
    replace (h + (t + capacity_ - h)) with (t + capacity_) in Hseq' by lia.
    unfold seq_at in Hseq'. rewrite node_next in Hseq'. pose proof (seq_at_fun s t _ _ Hseq Hseq'). lia.
  - intros p Hp%Hf. lia.
  - intros t Htk. by destruct (Ht t).
  - rewrite length_app, length_fmap. lia.
  - intros p Hp. destruct (iv_node _ Hinv p Hp) as (n & Hn & Hok). exists n. split; [done|]. cbn.
    destruct (decide (p < head_seq_ s)) as [Hlt|Hge].
    + rewrite decide_True by lia. by rewrite Hentry by lia.
    + destruct (decide (p < h + Z.of_nat (length es))) as [Hin|Hout]; [left|done].
      destruct (Hclean (Z.to_nat (p - h))) as [_ (n' & Hn' & Hs')]; [lia|]. rewrite Z2Nat.id in * by lia.
      replace (h + (p - h)) with p in * by lia. congruence.
  - intros p Hp Hs. rewrite Hf. destruct (decide (h ≤ p)); [left; lia|right]. split; [lia|done].
  - intros p Hp Hs. right. split; [lia|]. split; [done|auto].
Qed.

(** The first position is claimed by a thread that empties it. *)
Lemma take_inv s i x m :
  let t := tail_seq_ s in let s' := goto i (Pop_read m t) (set_tail (t + 1) s) in
  inv s → default Outside (threads s !! i) = x → t < head_seq_ s → seq_at s t (t + 1) →
  (m = Stealing → ∃ n, node s t = Some n ∧ instealable n = false) → (∀ p, ¬ fills x p) → (∀ p, ¬ takes x p) → inv s'.
Proof.
  intros t s' Hinv Hx Hlt Hseq Hsteal Hfx Htx. pose proof (iv_order _ Hinv) as Hord. pose proof capacity_range.
  eapply (RunQueue_move_inv s s' i x); try done; cbn; try lia; auto; try apply Hinv.
  - intros j z Hj Hz Hpc. split; cbn; try lia; try done.
    + intros p _ [Hp Hs]. split; [cbn; lia|done].
    + intros p Hfp Hp Hs. split; [|done]. destruct (decide (p = t)) as [->|]; [|lia]. pose proof (seq_at_fun s t _ _ Hseq Hs). lia.
  - split; [lia|]. split; [cbn; lia|]. split; [cbn; lia|]. split; [done|].
    destruct (iv_node _ Hinv t) as (n & Hn & Hok); [lia|]. rewrite decide_True in Hok by done.
    destruct Hseq as (n' & Hn' & Hs). assert (n' = n) as -> by congruence.
    destruct Hok as [Hbad|(_ & e & Hfib & Hent)]; [lia|]. exists n, e, (instealable n). split; [done|]. split; [done|]. split; [done|].
    split; [|done]. intros Hm. destruct (Hsteal Hm) as (n'' & Hn'' & Hb). congruence.
  - intros p Hp. destruct (decide (p = t + capacity_)) as [->|Hne].
    + destruct Hseq as (n & Hn & Hs). exists n. split; [by rewrite node_next|]. cbn. rewrite decide_False by lia. right. lia.
    + destruct (iv_node _ Hinv p) as (n & Hn & Hok); [lia|]. by exists n.
  - intros p Hp Hs. right. split; [lia|]. split; [done|auto].
  - intros p Hp Hs. destruct (decide (p = t + capacity_)) as [->|Hne]; [left; lia|right]. split; [lia|]. split; [done|auto].
Qed.

(** A thread writes to the node of a position that it fills. *)
Lemma fill_inv s i x y p n :
  let s' := goto i y (set_node p n s) in
  inv s → threads s !! i = Some x → fills x p → (∀ q, fills y q ↔ fills x q ∧ (q = p → seq n = p)) → (∀ t, ¬ takes y t) → (∀ t, ¬ takes x t) →
  seq n = p ∨ (seq n = p + 1 ∧ ∃ e, fiber n = Some e ∧ entry s p = Some (e, instealable n)) →
  pc_ok s' y → inv s'.
Proof.
  intros s' Hinv Hx Hp Hf Ht Htx Hn Hy. pose proof (iv_order _ Hinv) as Hord. pose proof capacity_range.
  destruct (fills_lt s x p (iv_pc _ Hinv i x Hx) Hp) as [Hr Hseq].
  assert (Hsame : ∀ q, tail_seq_ s ≤ q < tail_seq_ s + capacity_ → q ≠ p → node s' q = node s q).
  { intros q Hq Hne. apply node_set_ne. intros Heq. apply Hne. apply (index_inj (tail_seq_ s)); [lia|lia|done]. }
  eapply (RunQueue_move_inv s s' i x y); try done; cbn; try lia; auto; try apply Hinv.
  - by rewrite Hx.
  - intros j z Hj Hz Hpc. split; cbn; try lia; try done.
    + intros q _ [Hq (n' & Hn' & Hs)]. split; [done|]. exists n'. rewrite Hsame by lia. done.
    + intros q Hq Hqr Hqs. split; [lia|]. apply Hsame; [lia|]. intros ->. apply Hj. by apply (iv_fills _ Hinv j i z x p).
    + intros t Heq Hle Hlt Hs. apply Hsame; [lia|]. intros ->. pose proof (seq_at_fun s p _ _ Hseq Hs). lia.
    + intros t Htk Hlt Hh Hs. split; [lia|]. rewrite <-(node_next s'), <-(node_next s). apply Hsame; lia.
  - intros q [Hq _]%Hf. by left.
  - intros t Htk. by destruct (Ht t).
  - by rewrite length_insert.
  - intros q Hq. destruct (decide (q = p)) as [->|Hne].
    + exists n. split; [by apply node_set_eq|]. cbn. by rewrite decide_True by lia.
    + destruct (iv_node _ Hinv q Hq) as (n' & Hn' & Hok). exists n'. by rewrite Hsame.
  - intros q Hq (n' & Hn' & Hs). rewrite Hf. destruct (decide (q = p)) as [->|Hne].
    + left. split; [done|]. intros _. unfold s' in Hn'. assert (n' = n); [|congruence].
      pose proof (node_set_eq s p p n Hinv eq_refl) as Hset. unfold node in *. cbn in *. congruence.
    + assert (Hdec : fills x q ∨ ¬ fills x q) by (destruct x; cbn; try (by right); lia).
      destruct Hdec; [left; split; [done|congruence]|right]. split; [lia|]. split; [|done]. exists n'. by rewrite <-Hsame by lia.
  - intros q Hq (n' & Hn' & Hs). right. split; [done|]. split; [|auto]. exists n'. by rewrite <-Hsame by lia.
Qed.

(** A thread hands the node that it emptied to the next round. *)
Lemma reset_inv s i x t n :
  let s' := goto i Outside (set_node t n s) in
  inv s → threads s !! i = Some x → takes x t → (∀ p, ¬ fills x p) → (∀ q, takes x q → q = t) → seq n = t + capacity_ → inv s'.
Proof.
  intros s' Hinv Hx Htk Hfx Htx Hn. pose proof (iv_order _ Hinv) as Hord. pose proof capacity_range.
  destruct (takes_lt s x t (iv_pc _ Hinv i x Hx) Htk) as (Hlt & Hh & Hseq).
  assert (Hsame : ∀ q, tail_seq_ s ≤ q < tail_seq_ s + capacity_ → q ≠ t + capacity_ → node s' q = node s q).
  { intros q Hq Hne. apply node_set_ne. rewrite <-(index_next t). intros Heq. apply Hne. apply (index_inj (tail_seq_ s)); [lia|lia|done]. }
  assert (Hnew : node s' (t + capacity_) = Some n) by (apply node_set_eq; [done|apply index_next]).
  eapply (RunQueue_move_inv s s' i x Outside); try done; cbn; try lia; auto; try apply Hinv.
  - by rewrite Hx.
  - intros j z Hj Hz Hpc. split; cbn; try lia; try done.
    + intros q _ [Hq (n' & Hn' & Hs)]. split; [done|]. destruct (decide (q = t + capacity_)) as [->|]; [by exists n|].
      exists n'. rewrite Hsame by (lia || done). done.
    + intros q Hq Hqr Hqs. split; [lia|]. apply Hsame; lia.
    + intros t' Heq Hle Hlt' Hs. apply Hsame; lia.
    + intros t' Htk' Hlt' Hh' Hs. split; [lia|]. rewrite <-(node_next s'), <-(node_next s). apply Hsame; [lia|]. intros Heq.
      apply Hj. apply (iv_takes _ Hinv j i z x t); [done..| |done]. by replace t with t' by lia.
  - by rewrite length_insert.
  - intros q Hq. destruct (decide (q = t + capacity_)) as [->|Hne].
    + exists n. split; [done|]. cbn. rewrite decide_False by lia. by left.
    + destruct (iv_node _ Hinv q Hq) as (n' & Hn' & Hok). exists n'. by rewrite Hsame.
  - intros q Hq (n' & Hn' & Hs). right. split; [lia|]. split; [|auto]. exists n'. by rewrite <-Hsame by lia.
  - intros q Hq (n' & Hn' & Hs). right. split; [done|]. destruct (decide (q = t + capacity_)) as [->|Hne]; [exfalso; assert (n' = n) by congruence; subst; lia|].
    split; [exists n'; by rewrite <-Hsame by lia|]. intros ?%Htx. lia.
Qed.

(** ** Each operation keeps the invariant *)

#[local] Abbreviation good r := (match r with Ret (s', _) => inv s' | _ => False end).

Lemma filling_tail s p e es b : filling s p (e :: es) b → filling s (p + 1) es b.
Proof.
  intros [Hp Hf]. split; [lia|]. intros j e' Hj. specialize (Hf (S j) e' Hj).
  by replace (p + Z.of_nat (S j)) with (p + 1 + Z.of_nat j) in Hf by lia.
Qed.

Lemma filling_write s p q es b n :
  inv s → filling s q es b → tail_seq_ s ≤ p < head_seq_ s → p < q ∨ p = q ∧ seq n = p → filling (set_node p n s) q es b.
Proof.
  intros Hinv [Hq Hf] Hp Hpq. pose proof (iv_order _ Hinv). pose proof capacity_range. split; [done|]. intros j e Hj.
  destruct (Hf j e Hj) as (Hr & (n' & Hn' & Hs) & He). split; [done|]. split; [|done].
  destruct (decide (q + Z.of_nat j = p)) as [Heq|Hne].
  - destruct Hpq as [|[_ Hn]]; [lia|]. exists n. rewrite Heq. split; [by apply node_set_eq|done].
  - exists n'. rewrite node_set_ne; [done|]. intros Hidx. apply Hne. apply (index_inj (tail_seq_ s)); [lia|lia|done].
Qed.

Lemma claim_filling s i y es b :
  inv s → (∀ j, (j < length es)%nat → clean s (head_seq_ s + Z.of_nat j)) →
  filling (goto i y (claim (head_seq_ s + Z.of_nat (length es)) es b s)) (head_seq_ s) es b.
Proof.
  intros Hinv Hc. pose proof (iv_order _ Hinv). pose proof (iv_pushed _ Hinv). split; [lia|]. intros j e Hj.
  apply lookup_lt_Some in Hj as Hlt. destruct (Hc j Hlt) as [Hr Hs]. split; [cbn; lia|]. split; [done|].
  unfold entry. cbn. rewrite lookup_app_r by lia. replace (Z.to_nat (head_seq_ s + Z.of_nat j) - length (pushed s))%nat with j by lia.
  by rewrite list_lookup_fmap, Hj.
Qed.

(** Tactics for a step that reads the node of [p]. *)
Ltac read_node Hinv p n Hn := destruct (node_is_Some _ p Hinv) as [n Hn]; rewrite (node_at_node _ _ _ Hn); cbn [obind].
Ltac stay Hinv Hi := eapply (goto_inv _ _ _ _ Hinv); [by rewrite Hi|cbn [pc_ok]|done|done].

Lemma push_node_inv s i slow h e b : inv s → threads s !! i = Some (Push_node slow h e b) → good (push_node i slow h e b s).
Proof.
  intros Hinv Hi. pose proof (iv_pc _ Hinv _ _ Hi) as Hh. cbn in Hh. pose proof (iv_order _ Hinv).
  unfold push_node. read_node Hinv h n Hn. case_decide as Hseq.
  - stay Hinv Hi. split; [done|]. intros Heq. assert (Hs : seq_at s h h) by (by exists n).
    split; [|done]. split; [lia|]. apply seq_hit; [done|lia|done].
  - destruct slow; [case_decide|]; by stay Hinv Hi.
Qed.

Lemma push_cas_inv weak s i slow h e b :
  inv s → head_seq_ s < 2 ^ 62 → threads s !! i = Some (Push_cas slow h e b) → good (push_cas weak i slow h e b s).
Proof.
  intros Hinv Hsm Hi. destruct (iv_pc _ Hinv _ _ Hi) as [Hh Hc]. pose proof (iv_order _ Hinv).
  unfold push_cas. case_decide as Heq; [|by stay Hinv Hi]. destruct Heq as [<- _]. specialize (Hc eq_refl). rewrite u64_small by lia.
  assert (Hcl : ∀ j, (j < length [e])%nat → clean s (head_seq_ s + Z.of_nat j)).
  { intros j Hj. cbn in Hj. replace j with 0%nat by lia. by rewrite Z.add_0_r. }
  eapply (claim_inv s i _ _ [e] b Hinv); [by rewrite Hi|done|cbn; lia|destruct Hc; cbn; lia|done|done| |done|by intros ? []|by intros ? []|by intros ? []].
  split; [done|]. by apply (claim_filling s i _ [e]).
Qed.

Lemma batch_node_inv s i h es b :
  inv s → head_seq_ s < 2 ^ 62 → threads s !! i = Some (Batch_node h es b) → good (batch_node i h es b s).
Proof.
  intros Hinv Hsm Hi. destruct (iv_pc _ Hinv _ _ Hi) as [Hlen Hh]. pose proof (iv_order _ Hinv).
  unfold batch_node. rewrite u64_small by lia. read_node Hinv (h + Z.of_nat (length es)) n Hn. case_decide as Hseq.
  - stay Hinv Hi. split; [done|]. split; [done|]. split; [lia|]. intros Heq. split; [|lia].
    apply seq_hit; [done|lia|by exists n].
  - case_decide; by stay Hinv Hi.
Qed.

Lemma batch_check_inv s i h j es b :
  inv s → head_seq_ s < 2 ^ 62 → threads s !! i = Some (Batch_check h j es b) → good (batch_check i h j es b s).
Proof.
  intros Hinv Hsm Hi. destruct (iv_pc _ Hinv _ _ Hi) as (Hlen & Hh & Hj & Hc). pose proof (iv_order _ Hinv). pose proof capacity_range.
  unfold batch_check. case_decide as Hend.
  - stay Hinv Hi. split; [done|]. split; [done|]. by subst j.
  - rewrite u64_small by lia. read_node Hinv (h + Z.of_nat j) n Hn. case_decide as Hbad; [by stay Hinv Hi|]. rewrite decide_True by lia.
    stay Hinv Hi. split; [done|]. split; [done|]. split; [lia|]. intros Heq. destruct (Hc Heq) as [Hlt Hcl]. split; [done|].
    intros j' Hj'. destruct (decide (j' = j)) as [->|]; [|apply Hcl; lia]. split; [lia|]. exists n. split; [done|].
    destruct (iv_node _ Hinv (h + Z.of_nat j)) as (n' & Hn' & Hok); [lia|]. assert (n' = n) as -> by congruence.
    rewrite decide_False in Hok by lia. destruct Hok as [|Hs]; [done|]. exfalso. apply Hbad. split; [lia|]. f_equal. lia.
Qed.

Lemma batch_cas_inv weak s i h es b :
  inv s → head_seq_ s < 2 ^ 62 → threads s !! i = Some (Batch_cas h es b) → good (batch_cas weak i h es b s).
Proof.
  intros Hinv Hsm Hi. destruct (iv_pc _ Hinv _ _ Hi) as (Hlen & Hh & Hc). pose proof (iv_order _ Hinv).
  unfold batch_cas. case_decide as Heq; [|by stay Hinv Hi]. destruct Heq as [<- _]. specialize (Hc eq_refl) as [Hlt Hc].
  rewrite u64_small by lia. destruct es as [|e es].
  - cbn. replace (claim _ [] b s) with s; [by stay Hinv Hi|]. destruct s. cbn. unfold claim. cbn. by rewrite app_nil_r, Z.add_0_r.
  - cbn [fill_loop go]. eapply (claim_inv s i _ _ (e :: es) b Hinv); [by rewrite Hi|done|done|lia|done|done| |done|by intros ? []|by intros ? []|by intros ? []].
    split; [done|]. by apply (claim_filling s i _ (e :: es)).
Qed.

Lemma fill_check_inv s i p es b : inv s → threads s !! i = Some (Fill_check p es b) → good (fill_check i p es b s).
Proof.
  intros Hinv Hi. destruct (iv_pc _ Hinv _ _ Hi) as [Hes Hf]. unfold fill_check. read_node Hinv p n Hn.
  destruct es as [|e es]; [done|]. destruct (filling_lt _ _ _ _ p Hf) as [_ (n' & Hn' & Hs)]; [cbn; lia|].
  rewrite decide_True by congruence. eapply (goto_inv _ _ _ _ Hinv); [by rewrite Hi|done|done|done].
Qed.

Lemma fill_fiber_inv s i p es b : inv s → threads s !! i = Some (Fill_fiber p es b) → good (fill_fiber i p es b s).
Proof.
  intros Hinv Hi. destruct (iv_pc _ Hinv _ _ Hi) as [Hes Hf]. unfold fill_fiber. read_node Hinv p n Hn.
  destruct es as [|e es]; [done|]. destruct (filling_lt _ _ _ _ p Hf) as [Hr (n' & Hn' & Hs)]; [cbn; lia|].
  assert (n' = n) as -> by congruence. cbn [head deref obind].
  eapply (fill_inv s i _ _ p _ Hinv Hi); [cbn; lia|cbn; intros; split; [auto|tauto]|by intros ? []|by intros ? []|by left|]. split; [done|].
  split; [apply (filling_write s p p); [done|done|done|by right]|]. eexists. split; [by apply (node_set_eq s p p)|done].
Qed.

Lemma fill_instealable_inv s i p es b : inv s → threads s !! i = Some (Fill_instealable p es b) → good (fill_instealable i p es b s).
Proof.
  intros Hinv Hi. destruct (iv_pc _ Hinv _ _ Hi) as (Hes & Hf & n & Hn & Hfib). unfold fill_instealable.
  rewrite (node_at_node _ _ _ Hn). cbn [obind].
  destruct es as [|e es]; [done|]. destruct (filling_lt _ _ _ _ p Hf) as [Hr (n' & Hn' & Hs)]; [cbn; lia|].
  assert (n' = n) as -> by congruence.
  eapply (fill_inv s i _ _ p _ Hinv Hi); [cbn; lia|cbn; intros; split; [auto|tauto]|by intros ? []|by intros ? []|by left|]. split; [done|].
  split; [apply (filling_write s p p); [done|done|done|by right]|]. eexists. split; [by apply (node_set_eq s p p)|done].
Qed.

Lemma fill_seq_inv s i p es b : inv s → threads s !! i = Some (Fill_seq p es b) → good (fill_seq i p es b s).
Proof.
  intros Hinv Hi. destruct (iv_pc _ Hinv _ _ Hi) as (Hes & Hf & n & Hn & Hfib & Hb). unfold fill_seq.
  rewrite (node_at_node _ _ _ Hn). cbn [obind]. pose proof (iv_order _ Hinv).
  destruct es as [|e es]; [done|]. destruct (filling_lt _ _ _ _ p Hf) as [Hr (n' & Hn' & Hs)]; [cbn; lia|].
  rewrite u64_small by lia. pose proof Hf as [_ He]. destruct (He 0%nat e eq_refl) as (_ & _ & Hent). rewrite Z.add_0_r in Hent.
  assert (Hfull : p + 1 = p ∨ p + 1 = p + 1 ∧ ∃ e, fiber n = Some e ∧ entry s p = Some (e, instealable n)).
  { right. split; [done|]. exists e. by rewrite Hb. }
  cbn [tail]. destruct es as [|e' es]; cbn [fill_loop return_ go].
  - eapply (fill_inv s i _ _ p _ Hinv Hi); [cbn; lia|cbn; lia|by intros ? []|by intros ? []|done|done].
  - eapply (fill_inv s i _ _ p _ Hinv Hi); [cbn; lia|cbn; lia|by intros ? []|by intros ? []|done|]. split; [done|].
    apply (filling_write s p (p + 1)); [done|by eapply filling_tail|done|lia].
Qed.

Lemma pop_node_inv s i m t : inv s → threads s !! i = Some (Pop_node m t) → good (pop_node i m t s).
Proof.
  intros Hinv Hi. pose proof (iv_pc _ Hinv _ _ Hi) as Ht. cbn in Ht. pose proof (iv_order _ Hinv). pose proof capacity_range.
  unfold pop_node. read_node Hinv t n Hn. rewrite u64_small by lia. case_decide as Hseq.
  - assert (Hfil : filled s t).
    { intros Heq. destruct (iv_node _ Hinv t) as (n' & Hn' & Hok); [lia|]. assert (n' = n) as -> by congruence.
      destruct (decide (t < head_seq_ s)); [|lia]. split; [done|]. by exists n. }
    destruct (decide (m = Stealing)); stay Hinv Hi; [done|]. split; [done|]. split; [done|]. done.
  - case_decide; [by stay Hinv Hi|]. destruct (decide (m = Fast)); by stay Hinv Hi.
Qed.

Lemma pop_test_inv s i t : inv s → threads s !! i = Some (Pop_test t) → good (pop_test i t s).
Proof.
  intros Hinv Hi. destruct (iv_pc _ Hinv _ _ Hi) as [Ht Hfil]. unfold pop_test. read_node Hinv t n Hn.
  destruct (instealable n) eqn:Hb; stay Hinv Hi; [done|]. split; [done|]. split; [done|]. intros _ _. by exists n.
Qed.

Lemma pop_cas_inv weak s i m t : inv s → threads s !! i = Some (Pop_cas m t) → good (pop_cas weak i m t s).
Proof.
  intros Hinv Hi. destruct (iv_pc _ Hinv _ _ Hi) as (Ht & Hfil & Hst). pose proof (iv_order _ Hinv).
  unfold pop_cas. case_decide as Heq; [|by stay Hinv Hi]. destruct Heq as [<- _]. destruct (Hfil eq_refl) as [Hlt Hseq].
  rewrite u64_small by lia. eapply (take_inv s i _ m Hinv); [by rewrite Hi|done|done| |by intros ? []|by intros ? []]. intros Hm. by apply Hst.
Qed.

Lemma pop_read_inv s i m t : inv s → threads s !! i = Some (Pop_read m t) → good (pop_read i m t s).
Proof.
  intros Hinv Hi. destruct (iv_pc _ Hinv _ _ Hi) as [H0 (Hlt & Hh & Hseq & n & e & b & Hn & Hfib & Hent & Hst & _)].
  unfold pop_read. rewrite (node_at_node _ _ _ Hn). cbn [obind].
  eapply (goto_inv _ _ _ _ Hinv); [by rewrite Hi| |done|done]. split; [done|]. split; [done|]. split; [done|]. split; [done|].
  by exists n, e, b.
Qed.

Lemma pop_reset_inv s i m t rc : inv s → threads s !! i = Some (Pop_reset m t rc) → good (pop_reset i t rc s).
Proof.
  intros Hinv Hi. destruct (iv_pc _ Hinv _ _ Hi) as [H0 (Hlt & Hh & Hseq & _)]. pose proof (iv_order _ Hinv). pose proof capacity_range.
  unfold pop_reset. read_node Hinv t n Hn. rewrite u64_small by lia. eapply (reset_inv s i _ t _ Hinv Hi); [done|by intros ? []|done|done].
Qed.

Lemma RunQueue_step_inv ev s : inv s → small ev s →
  match step ev s with Some (Ret (s', _)) => inv s' | Some _ => False | None => True end.
Proof.
  intros Hinv [Hsm Hev]. pose proof (iv_order _ Hinv).
  assert (Hcall : ∀ i y, pc_ok s y → (∀ p, ¬ fills y p) → (∀ p, ¬ takes y p) →
    match call i y s with Some (Ret (s', _)) => inv s' | Some _ => False | None => True end).
  { intros i y Hy Hf Ht. unfold call. destruct (default Outside (threads s !! i)) eqn:E; try done. cbn [go].
    apply (goto_inv _ _ _ _ Hinv E Hy); intros p; split; try done; intros Hp; [by destruct (Hf p)|by destruct (Ht p)]. }
  destruct ev as [i e b|i es b|i|i|weak i]; cbn [step]; try (apply Hcall; [done|by intros ? []|by intros ? []]). unfold next.
  destruct (threads s !! i) as [x|] eqn:Hi; [|done].
  destruct x; try done; first [ by apply push_node_inv | by apply push_cas_inv | by apply batch_node_inv | by apply batch_check_inv
    | by apply batch_cas_inv | by apply fill_check_inv | by apply fill_fiber_inv | by apply fill_instealable_inv | by apply fill_seq_inv
    | by apply pop_node_inv | by apply pop_test_inv | by apply pop_cas_inv | by apply pop_read_inv | by eapply pop_reset_inv | idtac ].
  - stay Hinv Hi. lia.
  - stay Hinv Hi. split; [apply (iv_pc _ Hinv _ _ Hi)|lia].
  - stay Hinv Hi. lia.
Qed.

Lemma queue_new_inv : inv RunQueue_new.
Proof.
  pose proof capacity_range. split; cbn; try done; try lia.
  - rewrite length_fmap, length_seqZ. lia.
  - intros p Hp. exists (mkNode None false p). unfold node. cbn. split; [|rewrite decide_False by lia; by left].
    rewrite list_lookup_fmap, index_mod, Z.mod_small by lia. rewrite lookup_seqZ_lt by lia. cbn. f_equal. f_equal. lia.
  - intros p Hp (n & Hn & Hs). exfalso. unfold node in Hn. cbn in Hn. rewrite list_lookup_fmap, index_mod, Z.mod_small in Hn by lia.
    rewrite lookup_seqZ_lt in Hn by lia. cbn in Hn. simplify_eq. cbn in Hs. lia.
Qed.

Lemma RunQueue_reachable_inv s : reachable s → inv s.
Proof.
  induction 1 as [|ev s s' r _ IH Hsm Hs]; [apply queue_new_inv|]. pose proof (RunQueue_step_inv ev s IH Hsm) as H. by rewrite Hs in H.
Qed.

(** ** The queue that the ring stands for *)

Definition entries es b : list (nat * bool) := (λ e, (e, b)) <$> es.

(** The positions that are claimed by [Push] and not by [Pop]. *)
Definition abs s : list (nat * bool) := drop (Z.to_nat (tail_seq_ s)) (pushed s).

(** The thread is about to claim positions for [es]. *)
Definition pushing (x : option pc) es b : Prop :=
  match x with
  | Some (Push_cas _ _ e b') => es = [e] ∧ b = b'
  | Some (Batch_cas _ es' b') => es = es' ∧ b = b'
  | _ => False
  end.

Lemma abs_length s : inv s → Z.of_nat (length (abs s)) = head_seq_ s - tail_seq_ s.
Proof. intros Hinv. pose proof (iv_order _ Hinv). pose proof (iv_pushed _ Hinv). unfold abs. rewrite length_drop. lia. Qed.

Lemma abs_push s es b h : inv s → abs (claim h es b s) = abs s ++ entries es b.
Proof.
  intros Hinv. pose proof (iv_order _ Hinv). pose proof (iv_pushed _ Hinv). unfold abs. cbn. apply drop_app_le. lia.
Qed.

Lemma abs_pop s e b : inv s → entry s (tail_seq_ s) = Some (e, b) → abs s = (e, b) :: abs (set_tail (tail_seq_ s + 1) s).
Proof.
  intros Hinv He. pose proof (iv_order _ Hinv). unfold abs. cbn. rewrite (drop_S _ _ _ He). f_equal. f_equal. lia.
Qed.

(** A step that claims nothing leaves the queue as it is. *)
Lemma next_silent weak i s s' r :
  next weak i s = Some (Ret (s', r)) → (∀ es b, ¬ pushing (threads s !! i) es b) →
  (∀ m t, threads s !! i ≠ Some (Pop_cas m t)) → abs s' = abs s.
Proof.
  unfold next. intros Hs Hpush Hpop. destruct (threads s !! i) as [x|]; [|done].
  destruct x; try done; try (by simplify_eq);
    try (by destruct (Hpush _ _ (conj eq_refl eq_refl))); try (by destruct (Hpop _ _ eq_refl));
    unfold push_node, batch_node, batch_check, fill_check, fill_fiber, fill_instealable, fill_seq, fill_loop, pop_node, pop_test, pop_read,
      pop_reset, go, return_, node_at, deref, obind in Hs; repeat case_match; by simplify_eq.
Qed.

Lemma filled_entry s t : inv s → tail_seq_ s = t → filled s t → ∃ n e, node s t = Some n ∧ entry s t = Some (e, instealable n).
Proof.
  intros Hinv Ht Hf. destruct (Hf Ht) as [Hlt (n & Hn & Hs)]. pose proof capacity_range.
  destruct (iv_node _ Hinv t) as (n' & Hn' & Hok); [lia|]. assert (n' = n) as -> by congruence. rewrite decide_True in Hok by done.
  destruct Hok as [|(_ & e & _ & He)]; [lia|]. by exists n, e.
Qed.

Lemma next_effect weak i s s' r :
  inv s → head_seq_ s < 2 ^ 62 → next weak i s = Some (Ret (s', r)) →
  abs s' = abs s
  ∨ (∃ es b, pushing (threads s !! i) es b ∧ abs s' = abs s ++ entries es b)
  ∨ (∃ m e b, threads s' !! i = Some (Pop_read m (tail_seq_ s)) ∧ abs s = (e, b) :: abs s' ∧ (m = Stealing → b = false)).
Proof.
  intros Hinv Hsm Hs. pose proof (iv_order _ Hinv). destruct (threads s !! i) as [x|] eqn:Hi; [|unfold next in Hs; by rewrite Hi in Hs].
  pose proof (next_silent weak i s s' r Hs) as Hsil. rewrite Hi in Hsil. pose proof (iv_pc _ Hinv _ _ Hi) as Hx.
  destruct x; try (left; apply Hsil; [by intros ? ? []|done]); unfold next in Hs; rewrite Hi in Hs.
  - unfold push_cas in Hs. case_decide as Heq; [|left; unfold go in Hs; by injection Hs as <- _]. right. left. exists [e], b. split; [done|].
    injection Hs as <- _. by apply (abs_push s).
  - unfold batch_cas in Hs. case_decide as Heq; [|left; unfold go in Hs; by injection Hs as <- _]. right. left. exists es, b. split; [done|].
    unfold fill_loop in Hs. case_match; injection Hs as <- _; by apply (abs_push s).
  - unfold pop_cas in Hs. case_decide as Heq; [|left; unfold go in Hs; by injection Hs as <- _]. destruct Heq as [<- _]. destruct Hx as (_ & Hfil & Hst).
    destruct (filled_entry s _ Hinv eq_refl Hfil) as (n & e & Hn & He). rewrite u64_small in Hs by lia. injection Hs as <- _.
    right. right. exists m, e, (instealable n). split; [cbn; by rewrite lookup_insert_eq|]. split; [by apply (abs_pop s)|].
    intros Hm. destruct (Hst Hm eq_refl) as (n' & Hn' & Hb). congruence.
Qed.

(** *** What a thread has claimed *)

Ltac unfold_next Hs :=
  unfold next, push_node, push_cas, batch_node, batch_check, batch_cas, fill_check, fill_fiber, fill_instealable, fill_seq, fill_loop,
    pop_node, pop_test, pop_cas, pop_read, pop_reset, go, return_, node_at, deref, obind in Hs.

Lemma next_other weak i s s' r j : next weak i s = Some (Ret (s', r)) → j ≠ i → threads s' !! j = threads s !! j.
Proof. intros Hs Hj. unfold_next Hs. repeat case_match; simplify_eq; cbn; by rewrite lookup_insert_ne. Qed.

Lemma next_pushed weak i s s' r : next weak i s = Some (Ret (s', r)) → pushed s `prefix_of` pushed s'.
Proof. intros Hs. unfold_next Hs. repeat case_match; simplify_eq; cbn; solve [done|apply prefix_app_r; done]. Qed.

Lemma next_takes weak i s s' r x t :
  inv s → next weak i s = Some (Ret (s', r)) → threads s !! i = Some x → takes x t →
  (∃ x', threads s' !! i = Some x' ∧ takes x' t) ∨ ∃ e b, r = Some (Pop_result (Some e)) ∧ entry s t = Some (e, b).
Proof.
  intros Hinv Hs Hi Hx. pose proof (iv_pc _ Hinv _ _ Hi) as Hok. unfold next in Hs. rewrite Hi in Hs. destruct x; try done; cbn in Hx; subst.
  - left. unfold pop_read, go, node_at, deref, obind in Hs. repeat case_match; simplify_eq. cbn. rewrite lookup_insert_eq. by eexists.
  - right. destruct Hok as [_ (_ & _ & _ & n & e & b & _ & _ & He & _ & Hrc)]. cbn in Hrc. subst rc. exists e, b. split; [|done].
    unfold pop_reset, return_, node_at, deref, obind in Hs. repeat case_match; by simplify_eq.
Qed.

Lemma next_returns weak i s s' e :
  inv s → next weak i s = Some (Ret (s', Some (Pop_result (Some e)))) →
  ∃ x t b, threads s !! i = Some x ∧ takes x t ∧ entry s t = Some (e, b).
Proof.
  intros Hinv Hs. destruct (threads s !! i) as [x|] eqn:Hi; [|unfold next in Hs; by rewrite Hi in Hs].
  pose proof (iv_pc _ Hinv _ _ Hi) as Hok. unfold next in Hs. rewrite Hi in Hs.
  destruct x; try (exfalso; unfold_next Hs; repeat case_match; by simplify_eq).
  destruct Hok as [_ (_ & _ & _ & n & e' & b & _ & _ & He & _ & Hrc)]. cbn in Hrc. subst rc.
  assert (e' = e) as -> by (unfold pop_reset, return_, node_at, deref, obind in Hs; repeat case_match; by simplify_eq). by eexists _, _, b.
Qed.

(** *** When an operation gives up *)

Lemma window s p : ∃ w m, tail_seq_ s ≤ w < tail_seq_ s + capacity_ ∧ w = p + m * capacity_ ∧ node s w = node s p.
Proof.
  pose proof capacity_range. set (t := tail_seq_ s). exists (t + (p - t) mod capacity_), (- ((p - t) / capacity_)).
  pose proof (Z.mod_pos_bound (p - t) capacity_). pose proof (Z.div_mod (p - t) capacity_). split; [lia|]. split; [nia|].
  unfold node. f_equal. rewrite !index_mod. f_equal. rewrite Zplus_mod_idemp_r. f_equal. lia.
Qed.

(** Nodes behind the queue are ahead of their old positions. *)
Lemma seq_passed s p z : inv s → p < tail_seq_ s → seq_at s p z → p + 1 ≤ z.
Proof.
  intros Hinv Hp Hz. pose proof capacity_range. destruct (window s p) as (w & m & Hw & Hm & Hnode).
  destruct (node_ok_seq s w (iv_node _ Hinv w Hw)) as (z' & Hz' & Hcases).
  assert (z = z') by (apply (seq_at_fun s p); [done|]; unfold seq_at in *; by rewrite <-Hnode). assert (1 ≤ m) by nia. nia.
Qed.

(** The node of [p] still has the entity of the round before. *)
Lemma seq_behind s p : inv s → seq_at s p (p + 1 - capacity_) → tail_seq_ s ≤ p - capacity_ ∨ ∃ j y, threads s !! j = Some y ∧ takes y (p - capacity_).
Proof.
  intros Hinv Hs. pose proof capacity_range. destruct (decide (tail_seq_ s ≤ p - capacity_)) as [|Hlt]; [by left|right].
  destruct (decide (p < tail_seq_ s)) as [Hp|Hp]; [pose proof (seq_passed s p _ Hinv Hp Hs); lia|].
  apply (iv_taker _ Hinv); [|done]. split; [|lia]. destruct (decide (p < head_seq_ s)); [exfalso|lia].
  destruct (node_ok_seq s p (iv_node _ Hinv p ltac:(lia))) as (z & Hz & Hc). pose proof (seq_at_fun s p _ _ Hs Hz). lia.
Qed.

Lemma seq_range s p n : inv s → node s p = Some n → - capacity_ < seq n < 2 ^ 63 + capacity_.
Proof.
  intros Hinv Hn. pose proof capacity_range. pose proof (iv_order _ Hinv). destruct (window s p) as (w & m & Hw & Hm & Hnode).
  destruct (node_ok_seq s w (iv_node _ Hinv w Hw)) as (z & (n' & Hn' & Hz) & Hc). assert (n' = n) as -> by congruence. lia.
Qed.

Lemma behind_u64 s p n : inv s → 0 ≤ p < 2 ^ 63 → node s p = Some n → u64 (seq n + capacity_) = u64 (p + 1) → seq_at s p (p + 1 - capacity_).
Proof.
  intros Hinv Hp Hn Heq. pose proof capacity_range. pose proof (seq_range s p n Hinv Hn). rewrite !u64_small in Heq by lia.
  exists n. split; [done|lia].
Qed.

Definition someone_takes s : Prop := ∃ j y q, threads s !! j = Some y ∧ takes y q.

(** How many entities the thread wants to push at once, besides the first. *)
Definition slack (x : option pc) : Z :=
  match x with Some (Batch_node _ es _) | Some (Batch_check _ _ es _) => Z.of_nat (length es) | _ => 0 end.

Lemma behind_full s h (d l : Z) : inv s → h ≤ head_seq_ s → d ≤ l → seq_at s (h + d) (h + d + 1 - capacity_) →
  capacity_ ≤ Z.of_nat (length (abs s)) + l ∨ someone_takes s.
Proof.
  intros Hinv Hh Hd Hs. destruct (seq_behind s _ Hinv Hs) as [Ht|(j & y & Hy & Ht)]; [left|right; by exists j, y, (h + d - capacity_)].
  rewrite abs_length by done. lia.
Qed.

Lemma push_gives_up weak i s s' :
  inv s → head_seq_ s < 2 ^ 62 → next weak i s = Some (Ret (s', Some (Push_result false))) →
  capacity_ ≤ Z.of_nat (length (abs s)) + slack (threads s !! i) ∨ someone_takes s.
Proof.
  intros Hinv Hsm Hs. pose proof (iv_order _ Hinv). destruct (threads s !! i) as [x|] eqn:Hi; [|unfold next in Hs; by rewrite Hi in Hs].
  pose proof (iv_pc _ Hinv _ _ Hi) as Hx. unfold next in Hs. rewrite Hi in Hs.
  destruct x as [|slow e b|slow h e b|slow h e b|es b|h es b|h j es b|h es b|p es b|p es b|p es b|p es b|m|m t|t|m t|m t|m t rc]; try (exfalso; unfold push_cas, batch_cas, fill_check, fill_fiber, fill_instealable, fill_seq, fill_loop, pop_node, pop_test, pop_cas,
    pop_read, pop_reset, go, return_, node_at, deref, obind in Hs; repeat case_match; by simplify_eq); cbn [slack pc_ok] in *.
  - unfold push_node in Hs. destruct (node_is_Some s h Hinv) as [n Hn]. rewrite (node_at_node _ _ _ Hn) in Hs. cbn [obind] in Hs.
    case_decide; [done|]. destruct slow; [|done]. case_decide as Hov; [|done]. pose proof (behind_u64 s (h) n Hinv ltac:(lia) Hn Hov) as Hb.
    rewrite <-(Z.add_0_r h) in Hb. eapply (behind_full s h 0); [done|lia|lia|done].
  - unfold batch_node in Hs. destruct Hx as [Hlen Hh]. rewrite (u64_small (_ + _)) in Hs by lia.
    destruct (node_is_Some s (h + Z.of_nat (length es)) Hinv) as [n Hn]. rewrite (node_at_node _ _ _ Hn) in Hs. cbn [obind] in Hs.
    case_decide; [done|]. case_decide as Hov; [|done]. pose proof (behind_u64 s (h + Z.of_nat (length es)) n Hinv ltac:(lia) Hn Hov) as Hb.
    eapply (behind_full s h); [done|lia|done|done].
  - unfold batch_check in Hs. destruct Hx as (Hlen & Hh & Hj & _). case_decide; [done|]. rewrite (u64_small (h + Z.of_nat j)) in Hs by lia.
    destruct (node_is_Some s (h + Z.of_nat j) Hinv) as [n Hn]. rewrite (node_at_node _ _ _ Hn) in Hs. cbn [obind] in Hs.
    case_decide as Hov; [|by case_decide]. destruct Hov as [_ Hov]. pose proof (behind_u64 s (h + Z.of_nat j) n Hinv ltac:(lia) Hn Hov) as Hb.
    eapply (behind_full s h (Z.of_nat j)); [done|lia|lia|done].
Qed.

(** The thread steals, and the node it looks at has an entity that must not be stolen:
    the first of the queue, unless other threads have gone on in the meantime. *)
Definition not_stolen i s : Prop :=
  ∃ t n, threads s !! i = Some (Pop_test t) ∧ node s t = Some n ∧ instealable n = true ∧
    (tail_seq_ s = t → ∃ e, head (abs s) = Some (e, true)).

Lemma pop_gives_up weak i s s' :
  inv s → head_seq_ s < 2 ^ 62 → next weak i s = Some (Ret (s', Some (Pop_result None))) →
  not_stolen i s ∨ abs s = [] ∨ ∃ j y, threads s !! j = Some y ∧ fills y (tail_seq_ s).
Proof.
  intros Hinv Hsm Hs. pose proof (iv_order _ Hinv). destruct (threads s !! i) as [x|] eqn:Hi; [|unfold next in Hs; by rewrite Hi in Hs].
  pose proof (iv_pc _ Hinv _ _ Hi) as Hx. unfold next in Hs. rewrite Hi in Hs.
  destruct x as [|slow e b|slow h e b|slow h e b|es b|h es b|h j es b|h es b|p es b|p es b|p es b|p es b|m|m t|t|m t|m t|m t rc]; try (exfalso; unfold push_node, push_cas, batch_node, batch_check, batch_cas, fill_check, fill_fiber, fill_instealable, fill_seq,
    fill_loop, pop_cas, pop_read, go, return_, node_at, deref, obind in Hs; repeat case_match; by simplify_eq); cbn [pc_ok] in *.
  - right. unfold pop_node in Hs. destruct (node_is_Some s t Hinv) as [n Hn]. rewrite (node_at_node _ _ _ Hn) in Hs. cbn [obind] in Hs.
    case_decide; [done|]. case_decide as Hseq; [|unfold go in Hs; by repeat case_match].
    assert (Hst : seq_at s t t) by (by exists n).
    assert (t = tail_seq_ s) as ->. { destruct (decide (t < tail_seq_ s)); [|lia]. pose proof (seq_passed s _ _ Hinv l Hst). lia. }
    destruct (decide (tail_seq_ s < head_seq_ s)); [right; apply (iv_filler _ Hinv); [lia|done]|left].
    apply nil_length_inv. pose proof (abs_length s Hinv). lia.
  - left. destruct Hx as [_ Hf]. destruct (node_is_Some s t Hinv) as [n Hn]. exists t, n. unfold pop_test in Hs.
    rewrite (node_at_node _ _ _ Hn) in Hs. cbn [obind] in Hs. destruct (instealable n) eqn:Hb; [|done]. split_and!; [done..|]. intros Ht.
    destruct (filled_entry s t Hinv Ht Hf) as (n' & e & Hn' & He). assert (n' = n) as -> by congruence. rewrite Hb in He. exists e.
    rewrite <-Ht in He. by rewrite (abs_pop s e true Hinv He).
  - exfalso. destruct Hx as [_ (_ & _ & _ & n & e & b & _ & _ & _ & _ & Hrc)]. cbn in Hrc. subst rc.
    unfold pop_reset, return_, node_at, deref, obind in Hs. repeat case_match; by simplify_eq.
Qed.

(** *** Calls one after the other *)

(** A thread goes on until its call returns. *)
Fixpoint run (fuel : nat) i s : option (state * result) :=
  match fuel with
  | O => None
  | S fuel' =>
      match next false i s with
      | Some (Ret (s', Some r)) => Some (s', r)
      | Some (Ret (s', None)) => run fuel' i s'
      | _ => None
      end
  end.

Definition Push fuel i e b s := run fuel i (goto i (Push_load false e b) s).
Definition Pop fuel i s := run fuel i (goto i (Pop_load Fast) s).

(** No thread is in a call. *)
Definition quiet s : Prop := ∀ i x, threads s !! i = Some x → x = Outside.

Lemma quiet_node s p : inv s → quiet s → tail_seq_ s ≤ p < tail_seq_ s + capacity_ →
  ∃ n, node s p = Some n ∧
    if decide (p < head_seq_ s) then seq n = p + 1 ∧ ∃ e, fiber n = Some e ∧ entry s p = Some (e, instealable n) else seq n = p.
Proof.
  intros Hinv Hq Hp. destruct (iv_node _ Hinv p Hp) as (n & Hn & Hok). exists n. split; [done|].
  destruct (decide (p < head_seq_ s)) as [Hlt|Hge].
  - destruct Hok as [Hs|]; [exfalso|done]. destruct (iv_filler _ Hinv p) as (j & x & Hj & Hf); [lia|by exists n|].
    apply Hq in Hj as ->. done.
  - destruct Hok as [|Hs]; [done|exfalso]. destruct (iv_taker _ Hinv p) as (j & x & Hj & Hf); [lia|by exists n|].
    apply Hq in Hj as ->. done.
Qed.

Lemma node_at_set s p n m : node s p = Some m → node_at p (set_node p n s) = Ret n.
Proof. intros Hm. unfold node_at, node in *. cbn. rewrite list_lookup_insert_eq; [done|]. by apply lookup_lt_Some in Hm. Qed.

Lemma run_next fuel i s s' r :
  next false i s = Some (Ret (s', r)) → run (S fuel) i s = match r with Some r => Some (s', r) | None => run fuel i s' end.
Proof. intros Hn. cbn. by rewrite Hn. Qed.

Lemma fill_one i e b s p n : node s p = Some n → p + 1 < 2 ^ 64 → 0 ≤ p →
  run 3 i (goto i (Fill_fiber p [e] b) s) = Some (goto i Outside (set_node p (mkNode (Some e) b (p + 1)) s), Push_result true).
Proof.
  intros Hn Hp H0. set (n1 := mkNode (Some e) (instealable n) (seq n)). set (s1 := goto i (Fill_instealable p [e] b) (set_node p n1 (goto i (Fill_fiber p [e] b) s))).
  set (n2 := mkNode (Some e) b (seq n)). set (s2 := goto i (Fill_seq p [e] b) (set_node p n2 s1)).
  rewrite (run_next _ _ _ s1 None).
  2: { unfold next. cbn. rewrite lookup_insert_eq. unfold fill_fiber. change (node_at p (goto i _ s)) with (node_at p s). by rewrite (node_at_node _ _ _ Hn). }
  rewrite (run_next _ _ _ s2 None).
  2: { unfold next. cbn. rewrite lookup_insert_eq. unfold fill_instealable. change (node_at p s1) with (node_at p (set_node p n1 s)). by rewrite (node_at_set _ _ _ _ Hn). }
  rewrite (run_next _ _ _ (goto i Outside (set_node p (mkNode (Some e) b (p + 1)) s2)) (Some (Push_result true))).
  2: { unfold next. cbn. rewrite lookup_insert_eq. unfold fill_seq. change (node_at p s2) with (node_at p (set_node p n2 s1)).
       erewrite (node_at_set s1 p n2 n1); [by rewrite u64_small by lia|]. unfold node, s1. cbn. apply list_lookup_insert_eq. by apply lookup_lt_Some in Hn. }
  unfold s2, s1, set_node, goto. cbn. by rewrite !insert_insert_eq, !list_insert_insert_eq.
Qed.

Lemma Push_alone i e b s : inv s → quiet s → head_seq_ s < 2 ^ 62 →
  ∃ s', Push 6 i e b s = Some (s', Push_result (bool_decide (Z.of_nat (length (abs s)) < capacity_)))
    ∧ abs s' = if bool_decide (Z.of_nat (length (abs s)) < capacity_) then abs s ++ [(e, b)] else abs s.
Proof.
  intros Hinv Hq Hsm. pose proof (iv_order _ Hinv). pose proof capacity_range. rewrite abs_length by done. unfold Push.
  set (h := head_seq_ s). set (s0 := goto i (Push_load false e b) s). set (s1 := goto i (Push_node false h e b) s0).
  rewrite (run_next _ _ _ s1 None) by (unfold next; cbn; by rewrite lookup_insert_eq).
  destruct (decide (h < tail_seq_ s + capacity_)) as [Hroom|Hfull].
  - rewrite bool_decide_eq_true_2 by lia. destruct (quiet_node s h Hinv Hq) as (n & Hn & Hs); [lia|]. rewrite decide_False in Hs by lia.
    set (s2 := goto i (Push_cas false h e b) s1). rewrite (run_next _ _ _ s2 None).
    2: { unfold next. cbn. rewrite lookup_insert_eq. unfold push_node. change (node_at h s1) with (node_at h s). rewrite (node_at_node _ _ _ Hn).
         cbn [obind]. by rewrite decide_True. }
    rewrite (run_next _ _ _ (goto i (Fill_fiber h [e] b) (claim (h + 1) [e] b s2)) None).
    2: { unfold next. cbn. rewrite lookup_insert_eq. unfold push_cas. rewrite decide_True by done. by rewrite u64_small by lia. }
    rewrite (fill_one i e b _ h n) by (done || lia). eexists. split; [reflexivity|]. by apply (abs_push s [e] b (h + 1)).
  - rewrite bool_decide_eq_false_2 by lia. destruct (quiet_node s (tail_seq_ s) Hinv Hq) as (n & Hn & Hs); [lia|]. rewrite decide_True in Hs by lia.
    assert (Hh : node_at h s = Ret n). { apply node_at_node. replace h with (tail_seq_ s + capacity_) by lia. by rewrite node_next. }
    set (s2 := goto i (Push_load true e b) s1). rewrite (run_next _ _ _ s2 None).
    2: { unfold next. cbn. rewrite lookup_insert_eq. unfold push_node. change (node_at h s1) with (node_at h s). rewrite Hh. cbn [obind]. by rewrite decide_False by lia. }
    set (s3 := goto i (Push_node true h e b) s2). rewrite (run_next _ _ _ s3 None) by (unfold next; cbn; by rewrite lookup_insert_eq).
    rewrite (run_next _ _ _ (goto i Outside s3) (Some (Push_result false))); [by eexists|].
    unfold next. cbn. rewrite lookup_insert_eq. unfold push_node. change (node_at h s3) with (node_at h s). rewrite Hh. cbn [obind].
    rewrite decide_False by lia. rewrite decide_True; [done|]. f_equal. lia.
Qed.

Lemma Pop_alone i s : inv s → quiet s → head_seq_ s < 2 ^ 62 →
  ∃ s', Pop 5 i s = Some (s', Pop_result (fst <$> head (abs s))) ∧ abs s' = tail (abs s).
Proof.
  intros Hinv Hq Hsm. pose proof (iv_order _ Hinv). pose proof capacity_range. unfold Pop.
  set (t := tail_seq_ s). set (s0 := goto i (Pop_load Fast) s). set (s1 := goto i (Pop_node Fast t) s0).
  rewrite (run_next _ _ _ s1 None) by (unfold next; cbn; by rewrite lookup_insert_eq).
  destruct (quiet_node s t Hinv Hq) as (n & Hn & Hs); [lia|]. assert (Ht : node_at t s = Ret n) by (by apply node_at_node).
  destruct (decide (t < head_seq_ s)) as [Hlt|Hempty].
  - destruct Hs as (Hs & e & Hfib & Hent). set (s2 := goto i (Pop_cas Fast t) s1). rewrite (run_next _ _ _ s2 None).
    2: { unfold next. cbn. rewrite lookup_insert_eq. unfold pop_node. change (node_at t s1) with (node_at t s). rewrite Ht. cbn [obind].
         rewrite u64_small by lia. by rewrite decide_True. }
    set (s3 := goto i (Pop_read Fast t) (set_tail (t + 1) s2)). rewrite (run_next _ _ _ s3 None).
    2: { unfold next. cbn. rewrite lookup_insert_eq. unfold pop_cas. rewrite decide_True by (split; [done|by left]). by rewrite u64_small by lia. }
    set (s4 := goto i (Pop_reset Fast t (fiber n)) s3). rewrite (run_next _ _ _ s4 None).
    2: { unfold next. cbn. rewrite lookup_insert_eq. unfold pop_read. change (node_at t s3) with (node_at t s). by rewrite Ht. }
    erewrite (run_next _ _ s4 _ (Some (Pop_result (fiber n)))).
    2: { unfold next. cbn. rewrite lookup_insert_eq. unfold pop_reset. change (node_at t s4) with (node_at t s). by rewrite Ht. }
    pose proof (abs_pop s e (instealable n) Hinv Hent) as Habs. rewrite Habs. eexists. split; [cbn; by rewrite Hfib|done].
  - rewrite (run_next _ _ _ (goto i Outside s1) (Some (Pop_result None))).
    2: { unfold next. cbn. rewrite lookup_insert_eq. unfold pop_node. change (node_at t s1) with (node_at t s). rewrite Ht. cbn [obind].
         rewrite u64_small by lia. rewrite decide_False by lia. by rewrite decide_True. }
    assert (Hnil : abs s = []) by (apply nil_length_inv; pose proof (abs_length s Hinv); lia).
    eexists. rewrite Hnil. split; [done|exact Hnil].
Qed.

(** *** A batch as large as the queue *)

(** [BatchPush] asks for the node behind the last one it wants: it does not return
    when it is called with [capacity_] entities on an empty queue. *)
Lemma BatchPush_alone s i es b : inv s → quiet s → head_seq_ s < 2 ^ 62 → abs s = [] → Z.of_nat (length es) = capacity_ →
  let s0 := goto i (Batch_load es b) s in
  ∃ s1, next false i s0 = Some (Ret (s1, None)) ∧ next false i s1 = Some (Ret (s0, None)).
Proof.
  intros Hinv Hq Hsm Hnil Hlen s0. pose proof (iv_order _ Hinv). pose proof capacity_range.
  assert (Heq : head_seq_ s = tail_seq_ s) by (pose proof (abs_length s Hinv) as Hl; rewrite Hnil in Hl; cbn in Hl; lia).
  destruct (quiet_node s (tail_seq_ s) Hinv Hq) as (n & Hn & Hs); [lia|]. rewrite decide_False in Hs by lia.
  set (s1 := goto i (Batch_node (head_seq_ s) es b) s0). exists s1. split; [unfold next; cbn; by rewrite lookup_insert_eq|].
  unfold next. cbn. rewrite lookup_insert_eq. unfold batch_node. rewrite Hlen, u64_small by lia.
  change (node_at (head_seq_ s + capacity_) s1) with (node_at (head_seq_ s + capacity_) s).
  rewrite (node_at_node s _ n) by (rewrite node_next; congruence). cbn [obind].
  rewrite decide_False by lia. rewrite !u64_small by lia. rewrite decide_False by lia.
  unfold go, s1, s0, goto. cbn. by rewrite !insert_insert_eq.
Qed.
End proofs.
End queue.

(** ** The theorems *)

(** What a step means for the queue: nothing, or the entities of a [Push] or [BatchPush]
    are appended all at once, or a pop takes the first one and claims its position. *)
Definition queue_effect ev s s' : Prop :=
  abs s' = abs s
  ∨ (∃ weak i es b, ev = Go weak i ∧ pushing (threads s !! i) es b ∧ abs s' = abs s ++ entries es b)
  ∨ (∃ weak i m e b, ev = Go weak i ∧ threads s' !! i = Some (Pop_read m (tail_seq_ s))
       ∧ abs s = (e, b) :: abs s' ∧ entry s (tail_seq_ s) = Some (e, b) ∧ (m = Stealing → b = false)).

(** A thread that has claimed a position has it for itself until it returns the entity
    that was pushed there, and this is what [Pop] and [Steal] return. *)
Definition claims_kept ev (r : option result) s s' : Prop :=
  pushed s `prefix_of` pushed s'
  ∧ (∀ i j x y t, threads s !! i = Some x → threads s !! j = Some y → takes x t → takes y t → i = j)
  ∧ (∀ i x t, threads s !! i = Some x → takes x t →
       (∃ x', threads s' !! i = Some x' ∧ takes x' t)
       ∨ ∃ weak e b, ev = Go weak i ∧ r = Some (Pop_result (Some e)) ∧ entry s t = Some (e, b))
  ∧ (∀ e, r = Some (Pop_result (Some e)) →
       ∃ weak i x t b, ev = Go weak i ∧ threads s !! i = Some x ∧ takes x t ∧ entry s t = Some (e, b)).

Lemma call_effect i x s s' r : call i x s = Some (Ret (s', r)) → s' = goto i x s ∧ r = None ∧ default Outside (threads s !! i) = Outside.
Proof. unfold call, go. case_match; try done. by intros [= <- <-]. Qed.

Lemma claims_kept_step k ev s s' r : (1 ≤ k ≤ 62)%nat → inv k s → step k ev s = Some (Ret (s', r)) → claims_kept ev r s s'.
Proof.
  intros Hk Hinv Hs.
  assert (Hone : ∀ i j x y t, threads s !! i = Some x → threads s !! j = Some y → takes x t → takes y t → i = j).
  { intros i j x y t. apply (iv_takes _ _ Hinv). }
  assert (Hcall : ∀ i y, call i y s = Some (Ret (s', r)) → claims_kept ev r s s').
  { intros i y (-> & -> & Ho)%call_effect. split; [done|]. split; [done|]. split; [|done]. intros j x t Hj Hx. left. exists x. split; [|done].
    cbn. rewrite lookup_insert_ne; [done|]. intros ->. rewrite Hj in Ho. cbn in Ho. by subst x. }
  destruct ev as [i e b|i es b|i|i|weak i]; try (by eapply Hcall). cbn in Hs. split; [by eapply next_pushed|]. split; [done|]. split.
  - intros j x t Hj Hx. destruct (decide (j = i)) as [->|Hne].
    + destruct (next_takes k weak i s s' r x t Hinv Hs Hj Hx) as [?|(e & b & ? & ?)]; [by left|right; by exists weak, e, b].
    + left. exists x. split; [|done]. by rewrite (next_other k weak i s s' r j Hs Hne).
  - intros e ->. destruct (next_returns k weak i s s' e Hinv Hs) as (x & t & b & ? & ? & ?). by exists weak, i, x, t, b.
Qed.

(** C25: the run queue is a bounded first-in first-out queue, in every interleaving, if
    its capacity is at least two (with a capacity of one, which the constructor
    accepts, entities are overwritten, see [capacity_one_overwrites]): no check fails
    and no index is out of range; the queue never holds more than [capacity_] entities;
    each operation on shared memory leaves it as it is, or appends the entities of a
    [Push] or [BatchPush] all at once, or takes the first entity off for the thread that
    pops, which is not one that must not be stolen if the thread steals; and a thread
    that has taken an entity off returns that entity, which no other thread gets.  This
    is for fewer than 2^62 entities and batches of fewer than 2^31. *)
Theorem RunQueue_linearizable k ev s :
  (1 ≤ k ≤ 62)%nat → reachable k s → small ev s →
  match step k ev s with
  | None => True
  | Some (Ret (s', r)) => Z.of_nat (length (abs s')) ≤ capacity_ k ∧ queue_effect ev s s' ∧ claims_kept ev r s s'
  | Some _ => False
  end.
Proof.
  intros Hk Hr Hsm. apply (RunQueue_reachable_inv k Hk) in Hr as Hinv. pose proof (RunQueue_step_inv k Hk ev s Hinv Hsm) as Hstep.
  destruct (step k ev s) as [[[s' r]| | | |]|] eqn:Hs; try done. split; [|split; [|by eapply claims_kept_step]].
  - rewrite (abs_length k) by done. pose proof (iv_order _ _ Hstep). lia.
  - assert (Hcall : ∀ i x, call i x s = Some (Ret (s', r)) → abs s' = abs s) by (by intros i x (-> & _)%call_effect).
    destruct ev as [i e b|i es b|i|i|weak i]; try (left; by eapply Hcall). destruct Hsm as [Hsm _].
    destruct (next_effect k Hk weak i s s' r Hinv Hsm Hs) as [?|[(es & b & ? & ?)|(m & e & b & ? & Habs & ?)]]; [by left|right; left|right; right].
    + by exists weak, i, es, b.
    + exists weak, i, m, e, b. split_and!; [done..| |done]. unfold entry. unfold abs in Habs.
      rewrite <-(Nat.add_0_r (Z.to_nat _)), <-lookup_drop, Habs. done.
Qed.

(** A pop gives the entity of the position it claimed: the thread returns what
    was pushed there, no other thread has claimed the position, and a thief gets an
    entity that may be stolen. *)
Theorem RunQueue_pop k s i m t rc weak :
  (1 ≤ k ≤ 62)%nat → reachable k s → threads s !! i = Some (Pop_reset m t rc) →
  ∃ e b s', rc = Some e ∧ pushed s !! Z.to_nat t = Some (e, b) ∧ (m = Stealing → b = false)
    ∧ (∀ j y, threads s !! j = Some y → takes y t → j = i)
    ∧ next k weak i s = Some (Ret (s', Some (Pop_result (Some e)))) ∧ abs s' = abs s.
Proof.
  intros Hk Hr Hi. apply (RunQueue_reachable_inv k Hk) in Hr as Hinv.
  destruct (iv_pc _ _ Hinv _ _ Hi) as [H0 (Hlt & Hh & Hseq & n & e & b & Hn & Hfib & Hent & Hst & Hrc)]. cbn in Hrc. subst rc.
  eexists e, b, _. split; [done|]. split; [exact Hent|]. split; [done|]. split.
  - intros j y Hj Hy. by apply (iv_takes _ _ Hinv j i y (Pop_reset m t (Some e)) t).
  - split; [unfold next; rewrite Hi; unfold pop_reset; by rewrite (node_at_node _ _ _ _ Hn)|done].
Qed.

(** C26: the operations give up only for cause, if the capacity is at least two: [Push]
    returns false only if the queue is full, and [BatchPush] only if there is no room for
    one entity more than it wants to push (so it also gives up when its entities would
    just fit), or, both, if some thread is just taking an entity out; [Pop] returns the
    null pointer only if the queue is empty or its first entity is just being put in;
    and [Steal] also if the entity it looks at must not be stolen, which is the first of
    the queue unless other threads have taken it in the meantime. *)
Theorem RunQueue_errors k s s' i weak r :
  (1 ≤ k ≤ 62)%nat → reachable k s → head_seq_ s < 2 ^ 62 → next k weak i s = Some (Ret (s', Some r)) →
  match r with
  | Push_result false => capacity_ k ≤ Z.of_nat (length (abs s)) + slack (threads s !! i) ∨ someone_takes s
  | Pop_result None =>
      not_stolen k i s ∨ abs s = [] ∨ ∃ j y, threads s !! j = Some y ∧ fills y (tail_seq_ s)
  | _ => True
  end.
Proof.
  intros Hk Hr Hsm Hs. apply (RunQueue_reachable_inv k Hk) in Hr as Hinv. destruct r as [[]|[]]; [done| |done|].
  - by eapply push_gives_up.
  - by eapply pop_gives_up.
Qed.

(** A call that runs alone returns what a queue returns: [Push] appends and
    returns true unless the queue is full, [Pop] takes the first entity, or returns
    the null pointer if there is none. *)
Theorem RunQueue_sequential k s i e b :
  (1 ≤ k ≤ 62)%nat → reachable k s → quiet s → head_seq_ s < 2 ^ 62 →
  (∃ s', Push k 6 i e b s = Some (s', Push_result (bool_decide (Z.of_nat (length (abs s)) < capacity_ k)))
     ∧ abs s' = if bool_decide (Z.of_nat (length (abs s)) < capacity_ k) then abs s ++ [(e, b)] else abs s)
  ∧ (∃ s', Pop k 5 i s = Some (s', Pop_result (fst <$> head (abs s))) ∧ abs s' = tail (abs s)).
Proof.
  intros Hk Hr Hq Hsm. apply (RunQueue_reachable_inv k Hk) in Hr as Hinv. split; [by apply Push_alone|by apply Pop_alone].
Qed.

(** A batch of [capacity_] entities on an empty queue spins: two operations bring
    the thread back to where it was, with the queue as it was, though there is room
    for all of them. *)
Theorem BatchPush_spins k s i es b :
  (1 ≤ k ≤ 62)%nat → reachable k s → quiet s → head_seq_ s < 2 ^ 62 → abs s = [] → Z.of_nat (length es) = capacity_ k →
  let s0 := goto i (Batch_load es b) s in
  ∃ s1, next k false i s0 = Some (Ret (s1, None)) ∧ next k false i s1 = Some (Ret (s0, None)).
Proof. intros Hk Hr. apply BatchPush_alone; [done|by apply RunQueue_reachable_inv]. Qed.

(** *** A queue of two *)

#[export] Instance small_dec ev s : Decision (small ev s).
Proof. destruct ev; apply _. Defined.

Definition stepped_small (k : nat) (ev : event) s : option state :=
  if decide (small ev s) then match step k ev s with Some (Ret (s', _)) => Some s' | _ => None end else None.

Lemma RunQueue_run_reachable k evs s : reachable k s → reachable k (default s (run_steps (stepped_small k) evs s)).
Proof.
  apply run_steps_ind. intros ev s1 s2 Hr Hs. unfold stepped_small in Hs. case_decide as Hsm; [|done].
  destruct (step k ev s1) as [[[s' r]| | | |]|] eqn:E; simplify_eq. by eapply (Reach_step k ev s1).
Qed.

(** Thread 0 has pushed entity 10 and thread 1 entity 11, which must not be stolen;
    thread 2 has claimed the first of them and has not yet handed its node back. *)
Definition busy : state :=
  default (RunQueue_new 1) (run_steps (stepped_small 1)
    ([Call_Push 0 10 false] ++ replicate 6 (Go false 0) ++ [Call_Push 1 11 true] ++ replicate 6 (Go false 1)
     ++ [Call_Pop 2] ++ replicate 4 (Go false 2))%nat (RunQueue_new 1)).

Lemma busy_reachable : reachable 1 busy.
Proof. unfold busy. apply RunQueue_run_reachable, Reach_new. Qed.

Lemma RunQueue_linearizable_witness :
  abs busy = [(11, true)]%nat ∧
  match step 1 (Go false 2) busy with
  | None => True
  | Some (Ret (s', r)) => Z.of_nat (length (abs s')) ≤ capacity_ 1 ∧ queue_effect (Go false 2) busy s' ∧ claims_kept (Go false 2) r busy s'
  | Some _ => False
  end.
Proof. split; [vm_compute; reflexivity|]. apply (RunQueue_linearizable 1 (Go false 2)); [lia|apply busy_reachable|by split]. Defined.

Lemma RunQueue_pop_witness :
  ∃ e b s', Some 10%nat = Some e ∧ pushed busy !! Z.to_nat 0 = Some (e, b) ∧ (Fast = Stealing → b = false)
    ∧ (∀ j y, threads busy !! j = Some y → takes y 0 → j = 2%nat)
    ∧ next 1 false 2 busy = Some (Ret (s', Some (Pop_result (Some e)))) ∧ abs s' = abs busy.
Proof. apply (RunQueue_pop 1 busy 2 Fast 0 (Some 10%nat) false); [lia|apply busy_reachable|vm_compute; reflexivity]. Defined.

(** Thread 3 finds no room as long as thread 2 is not done. *)
Definition refused : state :=
  default busy (run_steps (stepped_small 1) ([Call_Push 3 12 false] ++ replicate 3 (Go false 3))%nat busy).

Lemma refused_reachable : reachable 1 refused.
Proof. unfold refused. apply RunQueue_run_reachable, busy_reachable. Qed.

Lemma RunQueue_errors_witness :
  capacity_ 1 ≤ Z.of_nat (length (abs refused)) + slack (threads refused !! 3%nat) ∨ someone_takes refused.
Proof.
  apply (RunQueue_errors 1 refused (goto 3 Outside refused) 3 false (Push_result false));
    [lia|apply refused_reachable|vm_compute; reflexivity|vm_compute; reflexivity].
Defined.

Lemma RunQueue_sequential_witness :
  (∃ s', Push 1 6 0 10 false (RunQueue_new 1) = Some (s', Push_result (bool_decide (Z.of_nat (length (abs (RunQueue_new 1))) < capacity_ 1)))
     ∧ abs s' = if bool_decide (Z.of_nat (length (abs (RunQueue_new 1))) < capacity_ 1) then abs (RunQueue_new 1) ++ [(10%nat, false)] else abs (RunQueue_new 1))
  ∧ (∃ s', Pop 1 5 0 (RunQueue_new 1) = Some (s', Pop_result (fst <$> head (abs (RunQueue_new 1)))) ∧ abs s' = tail (abs (RunQueue_new 1))).
Proof. apply (RunQueue_sequential 1 (RunQueue_new 1) 0 10 false); [lia|apply Reach_new|by intros ? ? ?|done]. Defined.

Lemma BatchPush_spins_witness :
  let s0 := goto 0 (Batch_load [10; 11]%nat false) (RunQueue_new 1) in
  ∃ s1, next 1 false 0 s0 = Some (Ret (s1, None)) ∧ next 1 false 0 s1 = Some (Ret (s0, None)).
Proof. apply (BatchPush_spins 1 (RunQueue_new 1) 0 [10; 11]%nat false); [lia|apply Reach_new|by intros ? ? ?|done|done|done]. Defined.

(** The constructor accepts a capacity of one, for which "filled" and "free for the
    next round" are the same sequence number: a second [Push] overwrites the first
    entity. *)
Example capacity_one_overwrites :
  let s := default (RunQueue_new 0) (run_steps (stepped_small 0)
    ([Call_Push 0 10 false] ++ replicate 6 (Go false 0) ++ [Call_Push 1 11 false] ++ replicate 6 (Go false 1))%nat (RunQueue_new 0)) in
  quiet s ∧ length (abs s) = 2%nat ∧ (fiber <$> nodes_ s) = [Some 11%nat].
Proof.
  split; [|vm_compute; done]. intros i x Hi. vm_compute in Hi. repeat case_match; by simplify_eq.
Qed.
End RunQueue.
