(* ===== verification/SchedulingGroup.v ===== *)
(** * Scheduling of fibers: flare/fiber/detail/scheduling_group.{h,cc} and fiber_worker.cc

    The workers of a group take fibers from a queue and run them.  A worker that finds
    the queue empty spins for a while, at most two at a time, and then sleeps in a slot
    of its own.  Whoever makes a fiber ready pushes it and then wakes one worker: it
    takes the bit of a worker out of the mask of those that spin, or else out of the mask
    of those that sleep, and whoever takes a bit out owes the worker a wake-up.

    A step of the model is one operation on shared memory of one thread, and all threads
    see them in one order (the code uses relaxed atomics).  The queue is
    what [RunQueue_linearizable] and [RunQueue_errors] say of it: fibers have their
    places when they are claimed, in order, and may be taken when they are filled in.
    A fiber that is halted or switched away from holds its scheduler lock until its
    worker has left it, which makes that one step.  Threads that are not workers stand
    for everything that makes fibers ready or stops the group: fibers, timers, other
    threads.

    [SchedulingGroup_safe] says that no check fails, as long as the contract of [legal] is
    kept, and no fiber is run twice at the same time, [SchedulingGroup_no_lost_wakeup] that the workers never all sleep while there is
    a fiber to run. *)

From S2P Require Import Prelude.

Module SchedulingGroup.

#[local] Open Scope Z_scope.

(** ** Masks of workers *)

Definition in_mask (m : Z) (w : nat) : Prop := Z.testbit m (Z.of_nat w) = true.

#[export] Instance in_mask_dec (m : Z) (w : nat) : Decision (in_mask m w).
Proof. unfold in_mask. apply _. Defined.

Definition bits : list nat := seq 0 64.
Definition CountNonZeros (m : Z) : Z := Z.of_nat (length (filter (in_mask m) bits)).

(** [__builtin_ffsll(m)], which counts from 1, and the worker that it stands for. *)
Definition ffsll (m : Z) : nat := match head (filter (in_mask m) bits) with Some i => S i | None => 0 end.
Definition lowest (m : Z) : nat := ffsll m - 1.

(** [1 << i] is an [int]. *)
Definition shift32 (i : Z) : outcome Z := if i <? 31 then Ret (2 ^ i) else if i =? 31 then Ret (- 2 ^ 31) else Undef.

(** The loops of [WakeUpWorkers] over the workers and over the lowest bits. *)
Fixpoint masked_workers (m : Z) (ws : list nat) : outcome (list nat) :=
  match ws with
  | [] => Ret []
  | i :: ws' => b ←! shift32 (Z.of_nat i); l ←! masked_workers m ws'; Ret (if Z.land m (u64 b) =? 0 then l else i :: l)
  end.

Fixpoint drop_lowest (n : nat) (m : Z) : outcome Z :=
  match n with
  | O => Ret m
  | S n' => b ←! shift32 (Z.of_nat (ffsll m)); drop_lowest n' (Z.land m (u64 (Z.lnot b)))
  end.

(** ** Threads *)

Inductive FiberState := Ready | Running | Waiting | Dead.

#[export] Instance FiberState_eq_dec : EqDecision FiberState.
Proof. solve_decision. Defined.

Inductive answer := Fiber (f : nat) | ShuttingDown.

(** Who calls [AcquireFiber]. *)
Inductive site :=
| At_proc                       (* [WorkerProc] *)
| At_spin | At_last             (* [SpinningAcquireFiber], in the loop and behind it *)
| At_wait | At_again.           (* [WaitForFiber], before and after it sleeps *)

(** Where a thread is that wakes workers; the lists are the workers whose bits it has
    taken. *)
Inductive waker :=
| Spin_mask                     (* [WakeUpOneSpinningWorker], before the load *)
| Spin_claim (i : nat)
| Sleep_mask                    (* [WakeUpOneDeepSleepingWorker], before the load *)
| Sleep_claim (i : nat)
| Batch_spin (n : Z)            (* [WakeUpWorkers] *)
| Batch_all
| Batch_mask (n : Z)
| Batch_claim (n was to : Z)
| Slot_count (ws : list nat)    (* [WaitSlot::Wake], before [fetch_add] *)
| Slot_futex (ws : list nat)
| Slot_check (ws : list nat)
| Woken (ok : bool).

Inductive pc :=
(* FiberWorker::WorkerProc, AcquireFiber *)
| Pop (a : site)
| Load_stopped (a : site)
| Run (f : nat)
| Steal
| Left
(* SpinningAcquireFiber *)
| Spin_load
| Spin_cas (spinning : Z)
| Spin_pending
| Spin_exchange
| Spin_wake (k : waker)
| Spin_time
| Spin_test
| Spin_clear (r : option answer)
| Spin_count (r : answer)
| Spin_mark (r : answer)
(* WaitForFiber *)
| Wait_or
| Wait_and (r : answer)
| Wait_wake (r : answer) (k : waker)
| Wait_defer (r : answer)
| Wait_sub
| Wait_futex
| Blocked
| Wait_load
| Wait_check
| Wait_redo
(* QueueRunnableEntity and StartFibers, with what is not pushed or filled in yet *)
| Queue (es : list nat) (local : bool)      (* before [stopped_] is checked *)
| Push (es : list nat) (local : bool)
| Fill (es : list nat) (n : nat)
| Waking (k : waker)
(* Stop *)
| Stop_store
| Stop_count (i : nat)
| Stop_wake (i : nat)
| Outside.

(** A place of the queue. *)
Record entry := mkEntry { fiber : nat; local : bool; filled : bool }.

Record state := mkGroup {
  run_queue_ : list entry;
  wait_slots_ : list Z;
  spinning_workers_ : Z;
  sleeping_workers_ : Z;
  pending_spinner_wakeup_ : bool;
  stopped_ : bool;
  fibers : gmap nat FiberState;
  threads : list pc;
}.

Implicit Types (s : state) (i w f : nat) (k : waker) (x : pc) (m : Z).

Definition group_size_ s : nat := length (wait_slots_ s).

(** Workers that have entered the group, and other threads. *)
Definition SchedulingGroup_new (size others : nat) : state :=
  mkGroup [] (replicate size 1) 0 0 false false ∅ (replicate size (Pop At_proc) ++ replicate others Outside).

Definition goto i x s : state :=
  mkGroup (run_queue_ s) (wait_slots_ s) (spinning_workers_ s) (sleeping_workers_ s) (pending_spinner_wakeup_ s) (stopped_ s) (fibers s) (<[i := x]> (threads s)).
Definition set_queue (q : list entry) s : state :=
  mkGroup q (wait_slots_ s) (spinning_workers_ s) (sleeping_workers_ s) (pending_spinner_wakeup_ s) (stopped_ s) (fibers s) (threads s).
Definition set_slot w (c : Z) s : state :=
  mkGroup (run_queue_ s) (<[w := c]> (wait_slots_ s)) (spinning_workers_ s) (sleeping_workers_ s) (pending_spinner_wakeup_ s) (stopped_ s) (fibers s) (threads s).
Definition set_spinning m s : state :=
  mkGroup (run_queue_ s) (wait_slots_ s) m (sleeping_workers_ s) (pending_spinner_wakeup_ s) (stopped_ s) (fibers s) (threads s).
Definition set_sleeping m s : state :=
  mkGroup (run_queue_ s) (wait_slots_ s) (spinning_workers_ s) m (pending_spinner_wakeup_ s) (stopped_ s) (fibers s) (threads s).
Definition set_pending (b : bool) s : state :=
  mkGroup (run_queue_ s) (wait_slots_ s) (spinning_workers_ s) (sleeping_workers_ s) b (stopped_ s) (fibers s) (threads s).
Definition set_stopped s : state :=
  mkGroup (run_queue_ s) (wait_slots_ s) (spinning_workers_ s) (sleeping_workers_ s) (pending_spinner_wakeup_ s) true (fibers s) (threads s).
Definition set_fibers (fs : gmap nat FiberState) s : state :=
  mkGroup (run_queue_ s) (wait_slots_ s) (spinning_workers_ s) (sleeping_workers_ s) (pending_spinner_wakeup_ s) (stopped_ s) fs (threads s).

(** A thread that sleeps on the slot of [w] goes on. *)
Definition futex_wake w s : state := match threads s !! w with Some Blocked => goto w Wait_load s | _ => s end.

(** ** Waking *)

Definition wakeup_count s w : outcome Z := deref (wait_slots_ s !! w).

Definition claim_slots (ws : list nat) : waker := match ws with [] => Woken true | _ => Slot_count ws end.

(** [weak] is whether a weak [compare_exchange] fails for no reason. *)
Definition wake_step (weak : bool) k s : outcome (waker * state) :=
  match k with
  | Spin_mask => Ret (if spinning_workers_ s =? 0 then Sleep_mask else Spin_claim (lowest (spinning_workers_ s)), s)
  | Spin_claim i => Ret (if Z.testbit (spinning_workers_ s) (Z.of_nat i) then Woken true else Spin_mask, set_spinning (Z.clearbit (spinning_workers_ s) (Z.of_nat i)) s)
  | Sleep_mask => Ret (if sleeping_workers_ s =? 0 then Woken false else Sleep_claim (lowest (sleeping_workers_ s)), s)
  | Sleep_claim i =>
      let s' := set_sleeping (Z.clearbit (sleeping_workers_ s) (Z.of_nat i)) s in
      if Z.testbit (sleeping_workers_ s) (Z.of_nat i) then if (i <? group_size_ s)%nat then Ret (Slot_count [i], s') else Abort
      else Ret (Sleep_mask, s')
  | Batch_spin n =>
      let woke := CountNonZeros (spinning_workers_ s) in
      if woke <=? n then
        Ret (if Z.of_nat (group_size_ s) <=? n - woke then Batch_all else if 1 <=? n - woke then Batch_mask (n - woke) else Woken true, set_spinning 0 s)
      else Abort
  | Batch_all => ws ←! masked_workers (sleeping_workers_ s) (seq 0 (group_size_ s)); Ret (claim_slots ws, set_sleeping 0 s)
  | Batch_mask n =>
      let was := sleeping_workers_ s in
      if was =? 0 then Ret (Woken false, s)
      else if CountNonZeros was <=? n then Ret (Batch_claim n was 0, s)
      else to ←! drop_lowest (Z.to_nat n) was; Ret (Batch_claim (2 ^ 64 - 1) was to, s)
  | Batch_claim n was to =>
      if negb weak && (sleeping_workers_ s =? was) then
        ws ←! masked_workers (Z.land was (u64 (Z.lnot to))) (seq 0 (group_size_ s)); Ret (claim_slots ws, set_sleeping to s)
      else Ret (Batch_mask n, s)
  | Slot_count [] | Slot_futex [] | Slot_check [] => Undef
  | Slot_count ((w :: _) as ws) => c ←! wakeup_count s w; Ret (if c =? 0 then Slot_futex ws else Slot_check ws, set_slot w (i32 (c + 1)) s)
  | Slot_futex ((w :: _) as ws) => Ret (Slot_check ws, futex_wake w s)
  | Slot_check (w :: ws) => c ←! wakeup_count s w; if 0 <=? c then Ret (claim_slots ws, s) else Abort
  | Woken _ => Undef
  end.

(** [WakeUpOneWorker]; [WakeUpWorkers] calls it if there is one fiber only. *)
Definition WakeUpWorkers (n : nat) : waker := if (n =? 1)%nat then Spin_mask else Batch_spin (Z.of_nat n).

(** ** AcquireFiber *)

(** What its caller does next. *)
Definition resume (r : answer) : pc := match r with Fiber f => Run f | ShuttingDown => Left end.

Definition acquired (a : site) (r : option answer) : pc :=
  match a, r with
  | At_proc, Some r => resume r
  | At_proc, None => Spin_load
  | At_spin, Some r => Spin_clear (Some r)
  | At_spin, None => Spin_pending
  | At_last, Some r => Spin_count r
  | At_last, None => Steal
  | At_wait, Some r => Wait_and r
  | At_wait, None => Wait_sub
  | At_again, Some r => Wait_defer r
  | At_again, None => Wait_redo
  end.

Definition AcquireFiber i (a : site) s : outcome state :=
  match run_queue_ s with
  | e :: q =>
      if filled e then
        if decide (fibers s !! fiber e = Some Ready) then Ret (goto i (acquired a (Some (Fiber (fiber e)))) (set_queue q (set_fibers (<[fiber e := Running]> (fibers s)) s))) else Abort
      else Ret (goto i (Load_stopped a) s)
  | [] => Ret (goto i (Load_stopped a) s)
  end.

(** ** Steps *)

Definition kMaximumSpinners : Z := 2.

Definition fill f (q : list entry) : list entry := (λ e, if decide (fiber e = f) then mkEntry (fiber e) (local e) true else e) <$> q.

(** A caller comes back: a worker from [Yield], others to where they were. *)
Definition called i s : pc := if (i <? group_size_ s)%nat then Pop At_proc else Outside.

(** [b] decides what the model does not: whether a weak [compare_exchange] fails,
    whether time is over, whether there is room in the queue.  [FLARE_DCHECK] checks
    in a build without [NDEBUG]. *)
Definition next (NDEBUG b : bool) i s : option (outcome state) :=
  let mask := Z.of_nat i in
  match threads s !! i with
  | None | Some (Run _) | Some Left | Some Blocked | Some Outside => None
  | Some (Pop a) => Some (AcquireFiber i a s)
  | Some (Load_stopped a) => Some (Ret (goto i (acquired a (if stopped_ s then Some ShuttingDown else None)) s))
  | Some Steal => Some (Ret (goto i Wait_or s))
  | Some Spin_load => let v := spinning_workers_ s in Some (Ret (goto i (if CountNonZeros v <? kMaximumSpinners then Spin_cas v else Steal) s))
  | Some (Spin_cas v) =>
      Some (if Z.testbit v mask then Abort
            else if negb b && (spinning_workers_ s =? v) then Ret (goto i (Pop At_spin) (set_spinning (Z.setbit v mask) s))
            else let v' := spinning_workers_ s in Ret (goto i (if CountNonZeros v' <? kMaximumSpinners then Spin_cas v' else Steal) s))
  | Some Spin_pending => Some (Ret (goto i (if pending_spinner_wakeup_ s then Spin_exchange else Spin_time) s))
  | Some Spin_exchange => Some (Ret (goto i (if pending_spinner_wakeup_ s then Spin_wake Sleep_mask else Spin_time) (set_pending false s)))
  | Some (Spin_wake (Woken _)) => Some (Ret (goto i Spin_time s))
  | Some (Spin_wake k) => Some ('(k', s') ←! wake_step b k s; Ret (goto i (Spin_wake k') s'))
  | Some Spin_time => Some (Ret (goto i (if b then Spin_pending else Spin_test) s))
  | Some Spin_test => Some (Ret (goto i (if negb b && Z.testbit (spinning_workers_ s) mask then Pop At_spin else Spin_clear None) s))
  | Some (Spin_clear r) => Some (Ret (goto i (match r with Some a => Spin_count a | None => Pop At_last end) (set_spinning (Z.clearbit (spinning_workers_ s) mask) s)))
  | Some (Spin_count r) => Some (Ret (goto i (if CountNonZeros (spinning_workers_ s) <? kMaximumSpinners then Spin_mark r else resume r) s))
  | Some (Spin_mark r) => Some (Ret (goto i (resume r) (set_pending true s)))
  | Some Wait_or =>
      Some (if Z.testbit (sleeping_workers_ s) mask then Abort else Ret (goto i (Pop At_wait) (set_sleeping (Z.setbit (sleeping_workers_ s) mask) s)))
  | Some (Wait_and r) =>
      Some (Ret (goto i (if Z.testbit (sleeping_workers_ s) mask then Wait_defer r else Wait_wake r Spin_mask) (set_sleeping (Z.clearbit (sleeping_workers_ s) mask) s)))
  | Some (Wait_wake r (Woken _)) => Some (Ret (goto i (Wait_defer r) s))
  | Some (Wait_wake r k) => Some ('(k', s') ←! wake_step b k s; Ret (goto i (Wait_wake r k') s'))
  | Some (Wait_defer r) => Some (Ret (goto i (resume r) (set_sleeping (Z.clearbit (sleeping_workers_ s) mask) s)))
  | Some Wait_sub => Some (c ←! wakeup_count s i; Ret (goto i (if c =? 1 then Wait_futex else Wait_check) (set_slot i (i32 (c - 1)) s)))
  | Some Wait_futex => Some (c ←! wakeup_count s i; Ret (goto i (if c =? 0 then Blocked else Wait_load) s))
  | Some Wait_load => Some (c ←! wakeup_count s i; Ret (goto i (if c =? 0 then Wait_futex else Wait_check) s))
  | Some Wait_check => Some (c ←! wakeup_count s i; if 0 <? c then Ret (goto i (Pop At_again) s) else Abort)
  | Some Wait_redo => Some (Ret (goto i Wait_or (set_sleeping (Z.clearbit (sleeping_workers_ s) mask) s)))
  | Some (Queue es l) => Some (if negb NDEBUG && stopped_ s then Abort else Ret (goto i (Push es l) s))
  | Some (Push es l) =>
      Some (Ret (if b then goto i (Fill es (length es)) (set_queue (run_queue_ s ++ ((λ f, mkEntry f l false) <$> es)) s) else s))
  | Some (Fill [] n) => Some (Ret (goto i (Waking (WakeUpWorkers n)) s))
  | Some (Fill (f :: es) n) => Some (Ret (goto i (Fill es n) (set_queue (fill f (run_queue_ s)) s)))
  | Some (Waking (Woken _)) => Some (Ret (goto i (called i s) s))
  | Some (Waking k) => Some ('(k', s') ←! wake_step b k s; Ret (goto i (Waking k') s'))
  | Some Stop_store => Some (Ret (goto i (Stop_count 0) (set_stopped s)))
  | Some (Stop_count j) => Some (Ret (if (j <? group_size_ s)%nat then goto i (Stop_wake j) (set_slot j (2 ^ 30) s) else goto i (called i s) s))
  | Some (Stop_wake j) => Some (Ret (goto i (Stop_count (S j)) (futex_wake j s)))
  end.

Inductive event :=
| Go (b : bool) (i : nat)
| Spurious (i : nat)                              (* the system lets a worker go on that sleeps *)
| StartFiber (i f : nat) (l : bool)
| StartFibers (i : nat) (fs : list nat)
| ReadyFiber (i f : nat) (l : bool)
| Stop (i : nat)
| Halt (i : nat)
| Yield (i : nat) (l : bool)
| Finish (i : nat)                                (* the fiber returns *)
| StealFiber (i f : nat)                          (* a worker gets a fiber of another group *)
| RemoteAcquireFiber                              (* another group gets one of this group *)
| Overflow (i : nat)                              (* there was no room in the queue for five seconds *)
| Futex_fails (i : nat).                          (* the system call, for instance by a signal *)

(** A thread is in the system call. *)
Definition in_futex x : bool :=
  match x with
  | Wait_futex | Blocked | Stop_wake _ | Spin_wake (Slot_futex _) | Wait_wake _ (Slot_futex _) | Waking (Slot_futex _) => true
  | _ => false
  end.

(** Calls that begin, and what fibers do. *)
Definition step (NDEBUG : bool) (e : event) s : option (outcome state) :=
  match e with
  | Go b i => next NDEBUG b i s
  | Spurious i => match threads s !! i with Some Blocked => Some (Ret (goto i Wait_load s)) | _ => None end
  | StartFiber i f l =>
      match threads s !! i with
      | Some Outside => if decide (fibers s !! f = None) then Some (Ret (goto i (Queue [f] l) (set_fibers (<[f := Ready]> (fibers s)) s))) else None
      | _ => None
      end
  | StartFibers i fs =>
      match threads s !! i with
      | Some Outside =>
          if decide (NoDup fs ∧ fs ≠ [] ∧ Forall (λ f, fibers s !! f = None) fs) then
            Some (Ret (goto i (Push fs false) (set_fibers (foldr (λ f fs, <[f := Ready]> fs) (fibers s) fs) s)))
          else None
      | _ => None
      end
  | ReadyFiber i f l =>
      match threads s !! i with
      | Some Outside => if decide (fibers s !! f = Some Waiting) then Some (Ret (goto i (Queue [f] l) (set_fibers (<[f := Ready]> (fibers s)) s))) else None
      | _ => None
      end
  | Stop i => match threads s !! i with Some Outside => Some (Ret (goto i Stop_store s)) | _ => None end
  | Halt i =>
      match threads s !! i with
      | Some (Run f) => Some (if decide (fibers s !! f = Some Running) then Ret (goto i (Pop At_proc) (set_fibers (<[f := Waiting]> (fibers s)) s)) else Abort)
      | _ => None
      end
  | Yield i l => match threads s !! i with Some (Run f) => Some (Ret (goto i (Queue [f] l) (set_fibers (<[f := Ready]> (fibers s)) s))) | _ => None end
  | Finish i => match threads s !! i with Some (Run f) => Some (Ret (goto i (Pop At_proc) (set_fibers (<[f := Dead]> (fibers s)) s))) | _ => None end
  | StealFiber i f =>
      match threads s !! i with
      | Some Steal => if decide (fibers s !! f = None) then Some (Ret (goto i (Run f) (set_fibers (<[f := Running]> (fibers s)) s))) else None
      | _ => None
      end
  | RemoteAcquireFiber =>
      match run_queue_ s with
      | e :: q =>
          if filled e && negb (local e) then
            Some (if decide (fibers s !! fiber e = Some Ready) then Ret (set_queue q (set_fibers (delete (fiber e) (fibers s)) s)) else Abort)
          else None
      | [] => None
      end
  | Overflow i => match threads s !! i with Some (Push _ _) => Some Abort | _ => None end
  | Futex_fails i => match threads s !! i with Some x => if in_futex x then Some Abort else None | None => None end
  end.

(** What the code relies on, and ends the program otherwise: in a build with checks no
    fiber is made ready when the group was stopped, in five seconds there is room in the
    queue, and the system calls do not fail. *)
Definition legal (NDEBUG : bool) (e : event) s : Prop :=
  match e with
  | Go _ i => match threads s !! i with Some (Queue _ _) => NDEBUG = true ∨ stopped_ s = false | _ => True end
  | Overflow _ | Futex_fails _ => False
  | _ => True
  end.

(** No slot is woken two billion times more often than it waits. *)
Definition small s : Prop := Forall (λ c, c < 2 ^ 31 - 1) (wait_slots_ s).

Inductive reachable (NDEBUG : bool) (size : nat) : state → Prop :=
| reachable_new others : reachable NDEBUG size (SchedulingGroup_new size others)
| reachable_step e s s' : reachable NDEBUG size s → step NDEBUG e s = Some (Ret s') → small s' → reachable NDEBUG size s'.

(** ** Where a thread can be found *)

(** Workers whose bit may be in the mask of those that spin. *)
Definition spins x : bool :=
  match x with Pop At_spin | Load_stopped At_spin | Spin_pending | Spin_exchange | Spin_wake _ | Spin_time | Spin_test | Spin_clear _ => true | _ => false end.

(** Workers whose bit may be in the mask of those that sleep. *)
Definition waits x : bool :=
  match x with
  | Pop At_wait | Load_stopped At_wait | Wait_and _ | Wait_wake _ _ | Wait_defer _ | Wait_sub | Wait_futex | Blocked | Wait_load | Wait_check
  | Pop At_again | Load_stopped At_again | Wait_redo => true
  | _ => false
  end.

(** Workers that are owed a wake-up if their bit is taken, and those of them that have
    found the queue empty. *)
Definition dozes x : bool := match x with Pop At_wait | Load_stopped At_wait | Wait_sub | Wait_futex | Blocked | Wait_load => true | _ => false end.
Definition asleep x : bool := match x with Load_stopped At_wait | Wait_sub | Wait_futex | Blocked | Wait_load => true | _ => false end.

(** One more than the slot says while its owner waits. *)
Definition took x : Z := match x with Wait_futex | Blocked | Wait_load => 1 | _ => 0 end.

Definition waker_of x : option waker := match x with Spin_wake k | Wait_wake _ k | Waking k => Some k | _ => None end.

(** The workers that are still to be woken. *)
Definition owes k : list nat := match k with Slot_count ws => ws | Slot_futex ws | Slot_check ws => tail ws | _ => [] end.
Definition owed x : list nat := match waker_of x with Some k => owes k | None => [] end.

(** The worker whose sleep is about to end. *)
Definition rouses x w : Prop := match x with Stop_wake j => j = w | _ => match waker_of x with Some (Slot_futex (v :: _)) => v = w | _ => False end end.

#[export] Instance rouses_dec x w : Decision (rouses x w).
Proof. unfold rouses. repeat case_match; apply _. Defined.

(** A thread that has a place in the queue and has not found a worker yet. *)
Definition seeks k : bool := match k with Spin_mask | Spin_claim _ | Sleep_mask | Sleep_claim _ | Batch_spin _ | Batch_all | Batch_mask _ | Batch_claim _ _ _ => true | _ => false end.
Definition committed x : bool := match x with Fill _ _ => true | Waking k => seeks k | _ => false end.

Definition filling x : list nat := match x with Fill es _ => es | _ => [] end.

(** The fibers that a thread has for itself, to run or to push. *)
Definition fiber_of (r : answer) : list nat := match r with Fiber f => [f] | ShuttingDown => [] end.
Definition held x : list nat :=
  match x with
  | Run f => [f]
  | Spin_clear (Some r) | Spin_count r | Spin_mark r | Wait_and r | Wait_wake r _ | Wait_defer r => fiber_of r
  | _ => []
  end.
Definition unpushed x : list nat := match x with Queue es _ | Push es _ => es | _ => [] end.

(** A worker that is about to leave. *)
Definition leaves x : bool :=
  match x with Left | Spin_clear (Some ShuttingDown) | Spin_count ShuttingDown | Spin_mark ShuttingDown | Wait_and ShuttingDown | Wait_wake ShuttingDown _ | Wait_defer ShuttingDown => true | _ => false end.

(** Threads that are not workers. *)
Definition calls x : bool := match x with Queue _ _ | Push _ _ | Fill _ _ | Waking _ | Stop_store | Stop_count _ | Stop_wake _ | Outside => true | _ => false end.
Definition works x : bool := match x with Stop_store | Stop_count _ | Stop_wake _ | Outside => false | _ => true end.

(** Nobody pushes nothing. *)
Definition batch_ok x : Prop := match x with Queue es _ | Push es _ => es ≠ [] | Fill _ n => (1 ≤ n)%nat | _ => True end.

Definition waker_ok (size : nat) k : Prop :=
  match k with
  | Batch_spin n => 2 ≤ n
  | Batch_mask n => 1 ≤ n
  | Batch_claim n was to => 1 ≤ n ∧ 0 ≤ to ∧ (∀ w, in_mask to w → in_mask was w) ∧ ∃ w, (w < size)%nat ∧ ¬ in_mask to w
  | Slot_count ws | Slot_futex ws | Slot_check ws => ws ≠ [] ∧ Forall (λ w, (w < size)%nat) ws
  | _ => True
  end.

(** ** Invariant *)

Record inv s : Prop := {
  i_size : (1 ≤ group_size_ s ≤ 31)%nat ∧ (group_size_ s ≤ length (threads s))%nat;
  i_small : small s;
  i_place i x : threads s !! i = Some x → if (i <? group_size_ s)%nat then works x = true else calls x = true;
  i_spinning : 0 ≤ spinning_workers_ s ∧ CountNonZeros (spinning_workers_ s) ≤ kMaximumSpinners ∧ ∀ w, in_mask (spinning_workers_ s) w → ∃ x, threads s !! w = Some x ∧ spins x = true;
  i_sleeping : 0 ≤ sleeping_workers_ s ∧ ∀ w, in_mask (sleeping_workers_ s) w → ∃ x, threads s !! w = Some x ∧ waits x = true;
  i_cas i v : threads s !! i = Some (Spin_cas v) → ¬ in_mask v i ∧ CountNonZeros v < kMaximumSpinners;
  i_waker i x k : threads s !! i = Some x → waker_of x = Some k → waker_ok (group_size_ s) k;
  i_batch i x : threads s !! i = Some x → batch_ok x;
  i_slot w c x : wait_slots_ s !! w = Some c → threads s !! w = Some x → 1 ≤ c + took x;
  i_owed w c x : wait_slots_ s !! w = Some c → threads s !! w = Some x → dozes x = true → ¬ in_mask (sleeping_workers_ s) w →
    2 ≤ c + took x ∨ ∃ i y, threads s !! i = Some y ∧ w ∈ owed y;
  i_roused w c : wait_slots_ s !! w = Some c → threads s !! w = Some Blocked → 1 ≤ c → ∃ i y, threads s !! i = Some y ∧ rouses y w;
  i_filling e : e ∈ run_queue_ s → filled e = false → ∃ i y, threads s !! i = Some y ∧ fiber e ∈ filling y;
  i_queue : NoDup (fiber <$> run_queue_ s);
  i_ready f : f ∈ fiber <$> run_queue_ s → fibers s !! f = Some Ready ∧ ∀ i x, threads s !! i = Some x → f ∉ held x ++ unpushed x;
  i_carried i x : threads s !! i = Some x → NoDup (held x ++ unpushed x) ∧ (∀ f, f ∈ held x → fibers s !! f = Some Running) ∧ (∀ f, f ∈ unpushed x → fibers s !! f = Some Ready);
  i_once i j x y f : threads s !! i = Some x → threads s !! j = Some y → f ∈ held x ++ unpushed x → f ∈ held y ++ unpushed y → i = j;
  i_leaves i x : threads s !! i = Some x → leaves x = true → stopped_ s = true;
  i_awake : stopped_ s = false → run_queue_ s ≠ [] →
    (∃ w x, (w < group_size_ s)%nat ∧ threads s !! w = Some x ∧ ¬ (asleep x = true ∧ in_mask (sleeping_workers_ s) w)) ∨ ∃ i y, threads s !! i = Some y ∧ committed y = true;
  i_kept f : (fibers s !! f = Some Ready → f ∈ fiber <$> run_queue_ s ∨ ∃ i x, threads s !! i = Some x ∧ f ∈ unpushed x) ∧
    (fibers s !! f = Some Running → ∃ i x, threads s !! i = Some x ∧ f ∈ held x);
}.

(** ** Masks *)

Lemma in_set m i w : in_mask (Z.setbit m (Z.of_nat i)) w ↔ w = i ∨ in_mask m w.
Proof. unfold in_mask. rewrite Z.setbit_eqb, orb_true_iff, Z.eqb_eq by lia. assert (Z.of_nat i = Z.of_nat w ↔ w = i) by lia. tauto. Qed.
Lemma in_clear m i w : in_mask (Z.clearbit m (Z.of_nat i)) w ↔ w ≠ i ∧ in_mask m w.
Proof. unfold in_mask. rewrite Z.clearbit_eqb, andb_true_iff, negb_true_iff, Z.eqb_neq. assert (Z.of_nat i ≠ Z.of_nat w ↔ w ≠ i) by lia. tauto. Qed.
Lemma in_zero w : ¬ in_mask 0 w.
Proof. unfold in_mask. by rewrite Z.bits_0. Qed.

Lemma set_nonneg m i : 0 ≤ m → 0 ≤ Z.setbit m (Z.of_nat i).
Proof. intros. unfold Z.setbit. apply Z.lor_nonneg. split; [done|]. apply Z.shiftl_nonneg. lia. Qed.
Lemma clear_nonneg m i : 0 ≤ m → 0 ≤ Z.clearbit m (Z.of_nat i).
Proof. intros. unfold Z.clearbit. apply Z.ldiff_nonneg. auto. Qed.

Lemma filter_le {A} (P Q R : A → Prop) `{∀ a, Decision (P a), ∀ a, Decision (Q a), ∀ a, Decision (R a)} (l : list A) : (∀ a, P a → Q a ∨ R a) →
  (length (filter P l) ≤ length (filter Q l) + length (filter R l))%nat.
Proof.
  intros HPQ. induction l as [|a l IH]; [done|]. rewrite !filter_cons. destruct (decide (P a)) as [HP|]; destruct (decide (Q a)), (decide (R a)); cbn; try lia. by destruct (HPQ a HP).
Qed.

Lemma filter_one (i : nat) (l : list nat) : NoDup l → (length (filter (λ w, w = i) l) ≤ 1)%nat.
Proof.
  induction 1 as [|a l Ha _ IH]; [cbn; lia|]. rewrite filter_cons. destruct (decide (a = i)) as [->|]; [|done]. rewrite filter_none; [done|]. apply Forall_forall. by intros w Hw ->.
Qed.

Lemma count_mono m m' : (∀ w, in_mask m' w → in_mask m w) → CountNonZeros m' ≤ CountNonZeros m.
Proof.
  intros Hm. unfold CountNonZeros. generalize bits as l. intros l. pose proof (filter_le (in_mask m') (in_mask m) (λ _, False) l ltac:(auto)) as H.
  rewrite (filter_none (λ _, False)) in H by (apply Forall_true; auto). cbn in H. lia.
Qed.
Lemma count_set m i : CountNonZeros (Z.setbit m (Z.of_nat i)) ≤ CountNonZeros m + 1.
Proof.
  unfold CountNonZeros. assert (Hd : NoDup bits) by apply NoDup_seq. revert Hd. generalize bits as l. intros l Hd.
  pose proof (filter_le (in_mask (Z.setbit m (Z.of_nat i))) (in_mask m) (λ w, w = i) l ltac:(intros w Hw; apply in_set in Hw; tauto)) as H.
  pose proof (filter_one i l Hd). lia.
Qed.
Lemma count_some m : 0 < CountNonZeros m → ∃ w, in_mask m w.
Proof.
  unfold CountNonZeros. generalize bits as l. intros l. destruct (filter _ l) as [|w l'] eqn:E; [cbn; lia|]. intros _. exists w.
  assert (w ∈ filter (in_mask m) l) as [Hw _]%list_elem_of_filter by (rewrite E; by left). exact Hw.
Qed.

(** A mask of at most 31 workers, and the loops over it. *)
Definition narrow m : Prop := 0 ≤ m ∧ ∀ w, in_mask m w → (w < 31)%nat.

Lemma shift32_small (i : nat) : (i < 31)%nat → shift32 (Z.of_nat i) = Ret (2 ^ Z.of_nat i).
Proof. intros. unfold shift32. destruct (Z.ltb_spec (Z.of_nat i) 31); [done|lia]. Qed.

Lemma land_bit m (i : nat) : (i < 64)%nat → (Z.land m (u64 (2 ^ Z.of_nat i)) =? 0) = negb (bool_decide (in_mask m i)).
Proof.
  intros Hi. assert (2 ^ Z.of_nat i < 2 ^ 64) by (apply Z.pow_lt_mono_r; lia). assert (0 < 2 ^ Z.of_nat i) by (apply Z.pow_pos_nonneg; lia). rewrite u64_small by lia.
  case_bool_decide as Hb; cbn [negb].
  - apply Z.eqb_neq. intros Hz. apply (f_equal (λ z, Z.testbit z (Z.of_nat i))) in Hz. rewrite Z.land_spec, Z.pow2_bits_true, Z.bits_0 in Hz by lia. unfold in_mask in Hb. by rewrite Hb in Hz.
  - apply Z.eqb_eq, Z.bits_inj'. intros n Hn. rewrite Z.land_spec, Z.bits_0, Z.pow2_bits_eqb by lia. destruct (Z.eqb_spec (Z.of_nat i) n) as [<-|]; [|apply andb_false_r].
    unfold in_mask in Hb. apply not_true_is_false in Hb. by rewrite Hb.
Qed.

Lemma masked_workers_spec m ws : Forall (λ i, (i < 31)%nat) ws → masked_workers m ws = Ret (filter (in_mask m) ws).
Proof.
  induction 1 as [|i ws Hi _ IH]; [done|]. cbn [masked_workers]. rewrite shift32_small by done. cbn [obind]. rewrite IH. cbn [obind]. rewrite land_bit by lia. rewrite filter_cons.
  case_bool_decide; [by rewrite decide_True|by rewrite decide_False].
Qed.

Lemma ffsll_bound m : narrow m → (ffsll m ≤ 31)%nat ∧ (in_mask m 0 → ffsll m = 1%nat).
Proof.
  intros [_ Hm]. unfold ffsll. split.
  - destruct (head (filter (in_mask m) bits)) as [i|] eqn:E; [|lia]. assert (i ∈ filter (in_mask m) bits) as [Hi _]%list_elem_of_filter; [|apply Hm in Hi; lia].
    destruct (filter (in_mask m) bits); [done|]. injection E as ->. by left.
  - intros H0. change bits with (0%nat :: seq 1 63). by rewrite filter_cons_True.
Qed.

(** A step of [drop_lowest] takes bits out only, and bit 1 if the lowest is 0. *)
Lemma drop_once m : narrow m → ∃ b, shift32 (Z.of_nat (ffsll m)) = Ret b ∧ 0 ≤ Z.land m (u64 (Z.lnot b)) ∧
  (∀ w, in_mask (Z.land m (u64 (Z.lnot b))) w → in_mask m w) ∧ (in_mask m 0 → ¬ in_mask (Z.land m (u64 (Z.lnot b))) 1).
Proof.
  intros Hm. destruct (ffsll_bound m Hm) as [Hle H0]. assert (∃ b, shift32 (Z.of_nat (ffsll m)) = Ret b ∧ (in_mask m 0 → b = 2)) as (b & Hb & Hb2).
  { unfold shift32. destruct (Z.ltb_spec (Z.of_nat (ffsll m)) 31); [|destruct (Z.eqb_spec (Z.of_nat (ffsll m)) 31); [|lia]]; eexists; (split; [done|]); intros H1; specialize (H0 H1); rewrite H0 in *; done || lia. }
  exists b. split; [done|]. split; [apply Z.land_nonneg; left; apply Hm|]. split.
  - intros w. unfold in_mask. rewrite Z.land_spec, andb_true_iff. tauto.
  - intros H1. rewrite (Hb2 H1). unfold in_mask. rewrite Z.land_spec. change (Z.testbit (u64 (Z.lnot 2)) (Z.of_nat 1)) with false. by rewrite andb_false_r.
Qed.

Lemma drop_lowest_spec n : ∀ m, narrow m → ∃ to, drop_lowest n m = Ret to ∧ 0 ≤ to ∧ (∀ w, in_mask to w → in_mask m w) ∧ ((0 < n)%nat → in_mask m 0 → ¬ in_mask to 1).
Proof.
  induction n as [|n IH]; intros m Hm; cbn [drop_lowest]; [exists m; split_and!; [done|apply Hm|done|lia]|].
  destruct (drop_once m Hm) as (b & -> & Hpos & Hsub & Hone). cbn [obind]. destruct (IH (Z.land m (u64 (Z.lnot b)))) as (to & -> & H1 & H2 & _).
  { split; [done|]. intros w Hw. by apply Hm, Hsub. }
  exists to. split_and!; [done..|auto|]. intros _ H0 Hin. by apply (Hone H0), H2.
Qed.

(** Two workers of a mask are not the same. *)
Lemma count_two m (size : nat) : (∀ w, in_mask m w → (w < size)%nat) → 1 < CountNonZeros m → (2 ≤ size)%nat.
Proof.
  intros Hm Hc. unfold CountNonZeros in Hc. assert (Hd : NoDup (filter (in_mask m) bits)) by apply NoDup_filter, NoDup_seq.
  assert (Hs : filter (in_mask m) bits ⊆ seq 0 size). { intros w [Hw _]%list_elem_of_filter. apply elem_of_seq. apply Hm in Hw. lia. }
  pose proof (submseteq_length _ _ (NoDup_submseteq _ _ Hd Hs)) as Hl. rewrite length_seq in Hl. lia.
Qed.

(** ** One thread moves *)

Definition carried x : list nat := held x ++ unpushed x.

(** A fiber that nobody can have. *)
Definition loose (o : option FiberState) : Prop := o = None ∨ o = Some Waiting.

(** Thread [i] goes from [x] to [x'], and what it leaves the others is enough for them. *)
Record move s s' i x x' : Prop := {
  m_from : threads s !! i = Some x;
  m_to : threads s' = <[i := x']> (threads s);
  m_size : length (wait_slots_ s') = length (wait_slots_ s);
  m_place : if (i <? group_size_ s)%nat then works x' = true else calls x' = true;
  m_spinning : 0 ≤ spinning_workers_ s' ∧ CountNonZeros (spinning_workers_ s') ≤ kMaximumSpinners ∧
    ∀ w, in_mask (spinning_workers_ s') w → if decide (w = i) then spins x' = true else in_mask (spinning_workers_ s) w;
  m_sleeping : 0 ≤ sleeping_workers_ s' ∧ ∀ w, in_mask (sleeping_workers_ s') w → if decide (w = i) then waits x' = true else in_mask (sleeping_workers_ s) w;
  m_cas v : x' = Spin_cas v → ¬ in_mask v i ∧ CountNonZeros v < kMaximumSpinners;
  m_waker k : waker_of x' = Some k → waker_ok (group_size_ s) k;
  m_batch : batch_ok x';
  m_slots w c' : w ≠ i → wait_slots_ s' !! w = Some c' → ∃ c, wait_slots_ s !! w = Some c ∧ (2 ≤ c' ∨ c ≤ c') ∧
    (w ∈ owed x ∨ (in_mask (sleeping_workers_ s) w ∧ ¬ in_mask (sleeping_workers_ s') w) → w ∈ owed x' ∨ 2 ≤ c' ∨ c + 1 ≤ c') ∧
    (threads s !! w = Some Blocked → 1 ≤ c' → (1 ≤ c ∧ ¬ rouses x w) ∨ rouses x' w);
  m_slot c' : wait_slots_ s' !! i = Some c' → 1 ≤ c' + took x' ∧ (x' = Blocked → c' < 1) ∧
    (dozes x' = true → ¬ in_mask (sleeping_workers_ s') i → 2 ≤ c' + took x' ∨ ∃ j y, j ≠ i ∧ threads s !! j = Some y ∧ i ∈ owed y);
  m_filling e : e ∈ run_queue_ s' → filled e = false →
    fiber e ∈ filling x' ∨ fiber e ∉ filling x ∧ ∃ e0, e0 ∈ run_queue_ s ∧ fiber e0 = fiber e ∧ filled e0 = false;
  m_queue : NoDup (fiber <$> run_queue_ s') ∧ ∀ f, f ∈ fiber <$> run_queue_ s' → (f ∈ fiber <$> run_queue_ s ∨ f ∈ carried x) ∧ f ∉ carried x' ∧ fibers s' !! f = Some Ready;
  m_carried : NoDup (carried x') ∧ (∀ f, f ∈ carried x' → f ∈ carried x ∨ f ∈ fiber <$> run_queue_ s ∨ loose (fibers s !! f)) ∧
    (∀ f, f ∈ held x' → fibers s' !! f = Some Running) ∧ (∀ f, f ∈ unpushed x' → fibers s' !! f = Some Ready);
  m_fibers f : fibers s' !! f ≠ fibers s !! f → f ∈ carried x ∨ f ∈ fiber <$> run_queue_ s ∨ loose (fibers s !! f);
  m_leaves : (leaves x' = true → stopped_ s' = true) ∧ (stopped_ s = true → stopped_ s' = true);
  m_awake : stopped_ s' = false → run_queue_ s' ≠ [] →
    (run_queue_ s ≠ [] ∧ (committed x = true → committed x' = true) ∧ (asleep x' = true → in_mask (sleeping_workers_ s') i → asleep x = true ∧ in_mask (sleeping_workers_ s) i))
    ∨ (∃ w y, (w < group_size_ s)%nat ∧ threads s' !! w = Some y ∧ ¬ (asleep y = true ∧ in_mask (sleeping_workers_ s') w)) ∨ ∃ j y, threads s' !! j = Some y ∧ committed y = true;
  m_kept f : (fibers s' !! f = Some Ready → f ∈ fiber <$> run_queue_ s' ∨ f ∈ unpushed x' ∨ fibers s !! f = Some Ready ∧ f ∉ fiber <$> run_queue_ s ∧ f ∉ unpushed x) ∧
    (fibers s' !! f = Some Running → f ∈ held x' ∨ fibers s !! f = Some Running ∧ f ∉ held x);
}.

Lemma took_nonneg x : 0 ≤ took x ≤ 1.
Proof. destruct x; cbn; lia. Qed.

Section move.
Context {s s' : state} {i : nat} {x x' : pc} (Hinv : inv s) (Hm : move s s' i x x').

Lemma move_lookup j y : threads s' !! j = Some y → (j = i ∧ y = x') ∨ (j ≠ i ∧ threads s !! j = Some y).
Proof using Hm.
  rewrite (m_to _ _ _ _ _ Hm). destruct (decide (j = i)) as [->|]; [|rewrite list_lookup_insert_ne by done; auto].
  rewrite list_lookup_insert_eq by (eapply lookup_lt_Some, m_from, Hm). intros [= <-]. auto.
Qed.
Lemma move_self : threads s' !! i = Some x'.
Proof using Hm. rewrite (m_to _ _ _ _ _ Hm). apply list_lookup_insert_eq. eapply lookup_lt_Some, m_from, Hm. Qed.
Lemma move_other j : j ≠ i → threads s' !! j = threads s !! j.
Proof using Hm. intros Hj. rewrite (m_to _ _ _ _ _ Hm). by rewrite list_lookup_insert_ne. Qed.
Lemma move_size : group_size_ s' = group_size_ s.
Proof using Hm. apply (m_size _ _ _ _ _ Hm). Qed.

Lemma move_masks :
  (0 ≤ spinning_workers_ s' ∧ CountNonZeros (spinning_workers_ s') ≤ kMaximumSpinners ∧ ∀ w, in_mask (spinning_workers_ s') w → ∃ y, threads s' !! w = Some y ∧ spins y = true) ∧
  0 ≤ sleeping_workers_ s' ∧ ∀ w, in_mask (sleeping_workers_ s') w → ∃ y, threads s' !! w = Some y ∧ waits y = true.
Proof using Hinv Hm.
  destruct (m_spinning _ _ _ _ _ Hm) as (H1 & H2 & H3). destruct (m_sleeping _ _ _ _ _ Hm) as (H4 & H5). split_and!; [done|done| |done|].
  - intros w Hw. apply H3 in Hw. destruct (decide (w = i)) as [->|]; [eauto using move_self|]. rewrite move_other by done. by apply (i_spinning _ Hinv).
  - intros w Hw. apply H5 in Hw. destruct (decide (w = i)) as [->|]; [eauto using move_self|]. rewrite move_other by done. by apply (i_sleeping _ Hinv).
Qed.

Lemma move_slot w c y : wait_slots_ s' !! w = Some c → threads s' !! w = Some y → 1 ≤ c + took y.
Proof using Hinv Hm.
  intros Hc [[-> ->]|[Hne Hy]]%move_lookup; [by apply (m_slot _ _ _ _ _ Hm)|]. destruct (m_slots _ _ _ _ _ Hm w c Hne Hc) as (c0 & Hc0 & Hle & _).
  pose proof (i_slot _ Hinv w c0 y Hc0 Hy). pose proof (took_nonneg y). lia.
Qed.

Lemma move_owed w c y : wait_slots_ s' !! w = Some c → threads s' !! w = Some y → dozes y = true → ¬ in_mask (sleeping_workers_ s') w →
  2 ≤ c + took y ∨ ∃ j z, threads s' !! j = Some z ∧ w ∈ owed z.
Proof using Hinv Hm.
  intros Hc Hy Hd Hb. destruct (move_lookup _ _ Hy) as [[-> ->]|[Hne Hy0]].
  - destruct (m_slot _ _ _ _ _ Hm c Hc) as (_ & _ & [?|(j & z & Hj & Hz & Hin)]); [done|done|auto|]. right. exists j, z. by rewrite move_other.
  - destruct (m_slots _ _ _ _ _ Hm w c Hne Hc) as (c0 & Hc0 & Hle & Ho & _). pose proof (i_slot _ Hinv w c0 y Hc0 Hy0) as H1. pose proof (took_nonneg y) as H0.
    assert (Hkey : w ∈ owed x ∨ (in_mask (sleeping_workers_ s) w ∧ ¬ in_mask (sleeping_workers_ s') w) → 2 ≤ c + took y ∨ ∃ j z, threads s' !! j = Some z ∧ w ∈ owed z).
    { intros [Hin|Hlt]%Ho; [right; eauto using move_self|left; lia]. }
    destruct (decide (in_mask (sleeping_workers_ s) w)) as [Hb0|Hb0]; [auto|].
    destruct (i_owed _ Hinv w c0 y Hc0 Hy0 Hd Hb0) as [?|(j & z & Hz & Hin)]; [left; lia|]. destruct (decide (j = i)) as [->|].
    + rewrite (m_from _ _ _ _ _ Hm) in Hz. injection Hz as <-. auto.
    + right. exists j, z. by rewrite move_other.
Qed.

Lemma move_roused w c : wait_slots_ s' !! w = Some c → threads s' !! w = Some Blocked → 1 ≤ c → ∃ j y, threads s' !! j = Some y ∧ rouses y w.
Proof using Hinv Hm.
  intros Hc [[-> Hx']|[Hne Hy0]]%move_lookup H1; [destruct (m_slot _ _ _ _ _ Hm c Hc) as (_ & Hb & _); symmetry in Hx'; specialize (Hb Hx'); lia|].
  destruct (m_slots _ _ _ _ _ Hm w c Hne Hc) as (c0 & Hc0 & Hle & _ & Hr). destruct (Hr Hy0 H1) as [[Hc1 Hn]|Hr']; [|eauto using move_self].
  destruct (i_roused _ Hinv w c0 Hc0 Hy0 Hc1) as (j & y & Hj & Hy). exists j, y. destruct (decide (j = i)) as [->|]; [|by rewrite move_other].
  rewrite (m_from _ _ _ _ _ Hm) in Hj. by injection Hj as <-.
Qed.

Lemma move_filling e : e ∈ run_queue_ s' → filled e = false → ∃ j y, threads s' !! j = Some y ∧ fiber e ∈ filling y.
Proof using Hinv Hm.
  intros He Hf. destruct (m_filling _ _ _ _ _ Hm e He Hf) as [Hx'|(Hn & e0 & He0 & Heq & Hf0)]; [eauto using move_self|].
  destruct (i_filling _ Hinv e0 He0 Hf0) as (j & y & Hj & Hy). rewrite Heq in Hy. exists j, y. destruct (decide (j = i)) as [->|]; [|by rewrite move_other].
  rewrite (m_from _ _ _ _ _ Hm) in Hj. by injection Hj as <-.
Qed.

(** The fibers of the other threads are left alone. *)
Lemma move_apart j y f : j ≠ i → threads s !! j = Some y → f ∈ carried y → ¬ (f ∈ carried x ∨ f ∈ fiber <$> run_queue_ s ∨ loose (fibers s !! f)).
Proof using Hinv Hm.
  intros Hne Hy Hf [Hx|[Hq|Hl]].
  - apply Hne. eapply (i_once _ Hinv); [exact Hy|eapply m_from, Hm|exact Hf|exact Hx].
  - destruct (i_ready _ Hinv f Hq) as [_ H]. by apply (H j y).
  - destruct (i_carried _ Hinv j y Hy) as (_ & H1 & H2). unfold carried in Hf. rewrite elem_of_app in Hf. destruct Hf as [Hf|Hf]; [apply H1 in Hf|apply H2 in Hf]; rewrite Hf in Hl; by destruct Hl.
Qed.

Lemma move_ready f : f ∈ fiber <$> run_queue_ s' → fibers s' !! f = Some Ready ∧ ∀ j y, threads s' !! j = Some y → f ∉ carried y.
Proof using Hinv Hm.
  intros Hf. destruct (m_queue _ _ _ _ _ Hm) as [_ H]. destruct (H f Hf) as (Hfrom & Hx & Hr). split; [done|]. intros j y [[-> ->]|[Hne Hy]]%move_lookup; [done|].
  intros Hin. apply (move_apart j y f Hne Hy Hin). tauto.
Qed.

Lemma move_carried j y : threads s' !! j = Some y → NoDup (carried y) ∧ (∀ f, f ∈ held y → fibers s' !! f = Some Running) ∧ (∀ f, f ∈ unpushed y → fibers s' !! f = Some Ready).
Proof using Hinv Hm.
  intros [[-> ->]|[Hne Hy]]%move_lookup; [destruct (m_carried _ _ _ _ _ Hm) as (? & _ & ?); tauto|]. destruct (i_carried _ Hinv j y Hy) as (H1 & H2 & H3).
  assert (Hsame : ∀ f, f ∈ carried y → fibers s' !! f = fibers s !! f).
  { intros f Hf. destruct (decide (fibers s' !! f = fibers s !! f)) as [|Hd]; [done|]. destruct (move_apart j y f Hne Hy Hf). by apply (m_fibers _ _ _ _ _ Hm). }
  unfold carried in Hsame. split_and!; [done|..]; intros f Hf; rewrite Hsame by set_solver; auto.
Qed.

Lemma move_once j1 j2 y1 y2 f : threads s' !! j1 = Some y1 → threads s' !! j2 = Some y2 → f ∈ carried y1 → f ∈ carried y2 → j1 = j2.
Proof using Hinv Hm.
  assert (Hone : ∀ j y, j ≠ i → threads s !! j = Some y → f ∈ carried y → f ∉ carried x').
  { intros j y Hne Hy Hf Hx'. apply (move_apart j y f Hne Hy Hf). by apply (m_carried _ _ _ _ _ Hm). }
  intros [[-> ->]|[Hne1 H1]]%move_lookup [[-> ->]|[Hne2 H2]]%move_lookup Hf1 Hf2; [done| | |].
  - by destruct (Hone j2 y2).
  - by destruct (Hone j1 y1).
  - by eapply (i_once _ Hinv).
Qed.

Lemma move_awake : stopped_ s' = false → run_queue_ s' ≠ [] →
  (∃ w y, (w < group_size_ s')%nat ∧ threads s' !! w = Some y ∧ ¬ (asleep y = true ∧ in_mask (sleeping_workers_ s') w)) ∨ ∃ j y, threads s' !! j = Some y ∧ committed y = true.
Proof using Hinv Hm.
  intros Hst Hq. rewrite move_size. destruct (m_awake _ _ _ _ _ Hm Hst Hq) as [(Hq0 & Hc & Ha)|?]; [|done].
  assert (stopped_ s = false) as Hst0. { destruct (stopped_ s) eqn:E; [|done]. destruct (m_leaves _ _ _ _ _ Hm) as [_ H]. rewrite (H E) in Hst. done. }
  destruct (i_awake _ Hinv Hst0 Hq0) as [(w & y & Hw & Hy & Hn)|(j & y & Hy & Hcy)].
  - left. destruct (decide (w = i)) as [->|].
    + exists i, x'. split_and!; [done|apply move_self|]. rewrite (m_from _ _ _ _ _ Hm) in Hy. injection Hy as <-. intros [H1 H2]. apply Hn. auto.
    + exists w, y. rewrite move_other by done. split_and!; [done..|]. intros [H1 H2]. apply Hn. split; [done|]. destruct (m_sleeping _ _ _ _ _ Hm) as [_ H]. apply H in H2. by rewrite decide_False in H2.
  - right. destruct (decide (j = i)) as [->|]; [|exists j, y; by rewrite move_other]. exists i, x'. split; [apply move_self|]. rewrite (m_from _ _ _ _ _ Hm) in Hy. injection Hy as <-. auto.
Qed.

Lemma move_kept f : (fibers s' !! f = Some Ready → f ∈ fiber <$> run_queue_ s' ∨ ∃ j y, threads s' !! j = Some y ∧ f ∈ unpushed y) ∧
  (fibers s' !! f = Some Running → ∃ j y, threads s' !! j = Some y ∧ f ∈ held y).
Proof using Hinv Hm.
  destruct (m_kept _ _ _ _ _ Hm f) as [H1 H2]. destruct (i_kept _ Hinv f) as [H3 H4]. split.
  - intros Hf. destruct (H1 Hf) as [?|[?|(Hf0 & Hq & Hu)]]; [auto|right; eauto using move_self|]. destruct (H3 Hf0) as [?|(j & y & Hy & Hin)]; [done|]. right. exists j, y.
    rewrite move_other; [done|]. intros ->. rewrite (m_from _ _ _ _ _ Hm) in Hy. by injection Hy as <-.
  - intros Hf. destruct (H2 Hf) as [?|(Hf0 & Hh)]; [eauto using move_self|]. destruct (H4 Hf0) as (j & y & Hy & Hin). exists j, y.
    rewrite move_other; [done|]. intros ->. rewrite (m_from _ _ _ _ _ Hm) in Hy. by injection Hy as <-.
Qed.

Lemma move_inv : small s' → inv s'.
Proof using Hinv Hm.
  intros Hsmall. destruct move_masks as [Hsp Hsl]. split; try done.
  - rewrite move_size. rewrite (m_to _ _ _ _ _ Hm), length_insert. apply (i_size _ Hinv).
  - rewrite move_size. intros j y [[-> ->]|[Hne Hy]]%move_lookup; [apply (m_place _ _ _ _ _ Hm)|by apply (i_place _ Hinv)].
  - intros j v [[-> Hv]|[Hne Hy]]%move_lookup; [by apply (m_cas _ _ _ _ _ Hm)|by apply (i_cas _ Hinv)].
  - rewrite move_size. intros j y k [[-> ->]|[Hne Hy]]%move_lookup; [apply (m_waker _ _ _ _ _ Hm)|by eapply (i_waker _ Hinv)].
  - intros j y [[-> ->]|[Hne Hy]]%move_lookup; [apply (m_batch _ _ _ _ _ Hm)|by eapply (i_batch _ Hinv)].
  - apply move_slot.
  - apply move_owed.
  - apply move_roused.
  - apply move_filling.
  - apply (m_queue _ _ _ _ _ Hm).
  - apply move_ready.
  - apply move_carried.
  - apply move_once.
  - intros j y [[-> ->]|[Hne Hy]]%move_lookup Hl; destruct (m_leaves _ _ _ _ _ Hm) as [H1 H2]; [by apply H1|]. apply H2. by eapply (i_leaves _ Hinv).
  - apply move_awake.
  - apply move_kept.
Qed.
End move.

(** ** Moves that touch little *)

(** The fibers stay where they are. *)
Lemma move_quiet s s' i x x' : inv s → threads s !! i = Some x → threads s' = <[i := x']> (threads s) →
  run_queue_ s' = run_queue_ s → fibers s' = fibers s → stopped_ s' = stopped_ s → held x' = held x → unpushed x' = unpushed x → filling x' = filling x →
  length (wait_slots_ s') = length (wait_slots_ s) → (if (i <? group_size_ s)%nat then works x' = true else calls x' = true) →
  (0 ≤ spinning_workers_ s' ∧ CountNonZeros (spinning_workers_ s') ≤ kMaximumSpinners ∧ ∀ w, in_mask (spinning_workers_ s') w → if decide (w = i) then spins x' = true else in_mask (spinning_workers_ s) w) →
  (0 ≤ sleeping_workers_ s' ∧ ∀ w, in_mask (sleeping_workers_ s') w → if decide (w = i) then waits x' = true else in_mask (sleeping_workers_ s) w) →
  (∀ v, x' = Spin_cas v → ¬ in_mask v i ∧ CountNonZeros v < kMaximumSpinners) → (∀ k, waker_of x' = Some k → waker_ok (group_size_ s) k) → batch_ok x' →
  (∀ w c', w ≠ i → wait_slots_ s' !! w = Some c' → ∃ c, wait_slots_ s !! w = Some c ∧ (2 ≤ c' ∨ c ≤ c') ∧
    (w ∈ owed x ∨ (in_mask (sleeping_workers_ s) w ∧ ¬ in_mask (sleeping_workers_ s') w) → w ∈ owed x' ∨ 2 ≤ c' ∨ c + 1 ≤ c') ∧
    (threads s !! w = Some Blocked → 1 ≤ c' → (1 ≤ c ∧ ¬ rouses x w) ∨ rouses x' w)) →
  (∀ c', wait_slots_ s' !! i = Some c' → 1 ≤ c' + took x' ∧ (x' = Blocked → c' < 1) ∧
    (dozes x' = true → ¬ in_mask (sleeping_workers_ s') i → 2 ≤ c' + took x' ∨ ∃ j y, j ≠ i ∧ threads s !! j = Some y ∧ i ∈ owed y)) →
  (leaves x' = true → stopped_ s = true) →
  (stopped_ s = false → run_queue_ s ≠ [] →
    ((committed x = true → committed x' = true) ∧ (asleep x' = true → in_mask (sleeping_workers_ s') i → asleep x = true ∧ in_mask (sleeping_workers_ s) i))
    ∨ (∃ w y, (w < group_size_ s)%nat ∧ threads s' !! w = Some y ∧ ¬ (asleep y = true ∧ in_mask (sleeping_workers_ s') w)) ∨ ∃ j y, threads s' !! j = Some y ∧ committed y = true) →
  move s s' i x x'.
Proof.
  intros Hinv Hx Ht Hq Hf Hst Hh Hu Hfl Hlen Hpl Hsp Hsl Hcas Hk Hb Hslots Hslot Hl Haw. unfold group_size_ in *.
  assert (Hc : carried x' = carried x) by (unfold carried; congruence). destruct (i_carried _ Hinv i x Hx) as (Hn & H1 & H2).
  split; try done; rewrite ?Hq, ?Hf, ?Hc, ?Hh, ?Hu, ?Hfl, ?Hst.
  - intros e He Hun. destruct (decide (fiber e ∈ filling x)); [auto|]. right. eauto.
  - split; [apply (i_queue _ Hinv)|]. intros f Hin. destruct (i_ready _ Hinv f Hin) as [Hr Hno]. split_and!; [auto|by eapply Hno|done].
  - split_and!; [done|auto|done|done].
  - done.
  - done.
  - intros Hs Hne. destruct (Haw Hs Hne) as [[? ?]|?]; [|auto]. left. auto.
  - intros f. destruct (decide (f ∈ fiber <$> run_queue_ s)), (decide (f ∈ unpushed x)), (decide (f ∈ held x)); tauto.
Qed.

(** Only the thread itself. *)
Definition same_shared s s' : Prop :=
  run_queue_ s' = run_queue_ s ∧ fibers s' = fibers s ∧ stopped_ s' = stopped_ s ∧ wait_slots_ s' = wait_slots_ s ∧
  spinning_workers_ s' = spinning_workers_ s ∧ sleeping_workers_ s' = sleeping_workers_ s.

Lemma move_local s s' i x x' : inv s → threads s !! i = Some x → threads s' = <[i := x']> (threads s) → same_shared s s' →
  held x' = held x → unpushed x' = unpushed x → filling x' = filling x →
  (if (i <? group_size_ s)%nat then works x' = true else calls x' = true) → (spins x = true → spins x' = true) → (waits x = true → waits x' = true) →
  (∀ v, x' = Spin_cas v → ¬ in_mask v i ∧ CountNonZeros v < kMaximumSpinners) → (∀ k, waker_of x' = Some k → waker_ok (group_size_ s) k) → batch_ok x' →
  (∀ w, w ∈ owed x → w ∈ owed x') → (∀ w, rouses x w → rouses x' w ∨ threads s !! w ≠ Some Blocked) →
  (∀ c, wait_slots_ s !! i = Some c → 1 ≤ c + took x → 1 ≤ c + took x' ∧ (x' = Blocked → c < 1)) →
  (dozes x' = true → dozes x = true ∧ took x' = took x ∧ owed x = []) → (leaves x' = true → stopped_ s = true) →
  (stopped_ s = false → run_queue_ s ≠ [] →
    ((committed x = true → committed x' = true) ∧ (asleep x' = true → asleep x = true))
    ∨ (∃ w y, (w < group_size_ s)%nat ∧ threads s' !! w = Some y ∧ ¬ (asleep y = true ∧ in_mask (sleeping_workers_ s) w)) ∨ ∃ j y, threads s' !! j = Some y ∧ committed y = true) →
  move s s' i x x'.
Proof.
  intros Hinv Hx Ht (Hq & Hf & Hst & Hsl & Hm1 & Hm2) Hh Hu Hfl Hpl Hsp Hwt Hcas Hk Hb How Hro Hslot Hdz Hlv Haw.
  assert (∀ m, in_mask m i → (∀ w, in_mask m w → ∃ y, threads s !! w = Some y ∧ spins y = true) → spins x' = true) as Hspi.
  { intros m Him H. destruct (H i Him) as (y & Hy & Hs). rewrite Hx in Hy. injection Hy as <-. auto. }
  assert (∀ m, in_mask m i → (∀ w, in_mask m w → ∃ y, threads s !! w = Some y ∧ waits y = true) → waits x' = true) as Hwti.
  { intros m Him H. destruct (H i Him) as (y & Hy & Hs). rewrite Hx in Hy. injection Hy as <-. auto. }
  destruct (i_spinning _ Hinv) as (Hs0 & Hs1 & Hs2). destruct (i_sleeping _ Hinv) as (Hs3 & Hs4).
  apply move_quiet; try done; rewrite ?Hsl, ?Hm1, ?Hm2; try done.
  - split_and!; [done..|]. intros w Hw. destruct (decide (w = i)) as [->|]; [eauto|done].
  - split; [done|]. intros w Hw. destruct (decide (w = i)) as [->|]; [eauto|done].
  - intros w c Hne Hc. exists c. split_and!; [done|lia|intros [?|[? ?]]; [auto|done]|]. intros Hbl H1. destruct (decide (rouses x w)) as [Hr|]; [|auto]. destruct (Hro w Hr); [auto|done].
  - intros c Hc. pose proof (i_slot _ Hinv i c x Hc Hx) as H1. destruct (Hslot c Hc H1) as [H2 H3]. split_and!; [done..|]. intros Hd Hni. destruct (Hdz Hd) as (Hdx & Htk & Hox).
    rewrite Htk. destruct (i_owed _ Hinv i c x Hc Hx Hdx Hni) as [|(j & y & Hj & Hin)]; [auto|]. right. exists j, y. split; [|done]. intros ->. rewrite Hx in Hj. injection Hj as <-. rewrite Hox in Hin. set_solver.
  - intros Hs Hne. destruct (Haw Hs Hne) as [[Hc Ha]|?]; [|auto]. left. split; [done|]. intros Ha' Him. auto.
Qed.

(** ** Waking *)

(** Wherever the thread is. *)
Ltac by_pc x := destruct x; cbn in *; repeat case_match; done || congruence.

(** Who wakes. *)
Inductive frame : (waker → pc) → Prop :=
| F_spin : frame Spin_wake
| F_wait r : frame (Wait_wake r)
| F_call : frame Waking.

Lemma frame_waker C k : frame C → waker_of (C k) = Some k ∧ owed (C k) = owes k.
Proof. by destruct 1. Qed.

Lemma worker_exists s w : inv s → (w < group_size_ s)%nat → is_Some (threads s !! w).
Proof. intros Hinv Hw. apply lookup_lt_is_Some. destruct (i_size _ Hinv). lia. Qed.

Lemma worker_index s w x : inv s → threads s !! w = Some x → calls x = false → (w < group_size_ s)%nat.
Proof. intros Hinv Hx Hc. pose proof (i_place _ Hinv w x Hx) as H. destruct (Nat.ltb_spec w (group_size_ s)); [done|]. by rewrite Hc in H. Qed.

Lemma sleeper_index s w : inv s → in_mask (sleeping_workers_ s) w → (w < group_size_ s)%nat.
Proof. intros Hinv Hw. destruct (i_sleeping _ Hinv) as [_ H]. destruct (H w Hw) as (x & Hx & Hwt). eapply worker_index; [done..|]. by_pc x. Qed.

Lemma spinner_awake s w : inv s → in_mask (spinning_workers_ s) w → (w < group_size_ s)%nat ∧ ∃ x, threads s !! w = Some x ∧ asleep x = false.
Proof.
  intros Hinv Hw. destruct (i_spinning _ Hinv) as (_ & _ & H). destruct (H w Hw) as (x & Hx & Hsp). split; [eapply worker_index; [done..|]|exists x; split; [done|]]; by_pc x.
Qed.

Lemma move_waker s s' C i k k' : inv s → frame C → threads s !! i = Some (C k) → threads s' = <[i := C k']> (threads s) →
  run_queue_ s' = run_queue_ s → fibers s' = fibers s → stopped_ s' = stopped_ s → length (wait_slots_ s') = length (wait_slots_ s) →
  (0 ≤ spinning_workers_ s' ∧ ∀ w, in_mask (spinning_workers_ s') w → in_mask (spinning_workers_ s) w) →
  (0 ≤ sleeping_workers_ s' ∧ ∀ w, in_mask (sleeping_workers_ s') w → in_mask (sleeping_workers_ s) w) →
  waker_ok (group_size_ s) k' →
  (∀ w c', wait_slots_ s' !! w = Some c' → ∃ c, wait_slots_ s !! w = Some c ∧ c ≤ c' ∧
    (w ∈ owes k ∨ (in_mask (sleeping_workers_ s) w ∧ ¬ in_mask (sleeping_workers_ s') w) → w ∈ owes k' ∨ c + 1 ≤ c') ∧
    (threads s !! w = Some Blocked → 1 ≤ c' → (1 ≤ c ∧ ¬ rouses (C k) w) ∨ rouses (C k') w)) →
  (seeks k = true → seeks k' = true ∨ ∃ w, (w < group_size_ s)%nat ∧ (¬ in_mask (sleeping_workers_ s') w ∨ ∃ y, threads s !! w = Some y ∧ asleep y = false)) →
  move s s' i (C k) (C k').
Proof.
  intros Hinv HC Hx Ht Hq Hf Hst Hlen [Hsp0 Hsp] [Hsl0 Hsl] Hok Hslots Haw. destruct (frame_waker C k HC) as [Hk Ho]. destruct (frame_waker C k' HC) as [Hk' Ho'].
  destruct (i_spinning _ Hinv) as (_ & Hs1 & Hs2). destruct (i_sleeping _ Hinv) as (_ & Hs4). pose proof (i_place _ Hinv i _ Hx) as Hpl.
  apply move_quiet; try done; try (by destruct HC).
  - split_and!; [done|pose proof (count_mono _ _ Hsp); lia|]. intros w Hw. apply Hsp in Hw. destruct (decide (w = i)) as [->|]; [|done]. destruct (Hs2 i Hw) as (y & Hy & Hyw). rewrite Hx in Hy. injection Hy as <-. by destruct HC.
  - split; [done|]. intros w Hw. apply Hsl in Hw. destruct (decide (w = i)) as [->|]; [|done]. destruct (Hs4 i Hw) as (y & Hy & Hyw). rewrite Hx in Hy. injection Hy as <-. by destruct HC.
  - rewrite Hk'. by intros ? [= <-].
  - intros w c' _ Hc'. rewrite Ho, Ho'. destruct (Hslots w c' Hc') as (c & Hc & Hle & H1 & H2). exists c. split_and!; [done|auto| |done]. intros H. destruct (H1 H); auto.
  - intros c' Hc'. destruct (Hslots i c' Hc') as (c & Hc & Hle & _). pose proof (i_slot _ Hinv i c _ Hc Hx) as H1. split_and!; [|by destruct HC..]. destruct HC; cbn in *; lia.
  - intros Hl. eapply (i_leaves _ Hinv); [exact Hx|]. by destruct HC.
  - intros Hs Hne. destruct (seeks k) eqn:Ek; [|left; destruct HC; cbn; rewrite ?Ek; done]. destruct (Haw eq_refl) as [Hk2|(w & Hw & Hor)]; [left; destruct HC; cbn; by rewrite ?Hk2|].
    right. left. exists w. destruct (worker_exists s w Hinv Hw) as [y Hy]. destruct (decide (w = i)) as [->|].
    + exists (C k'). split_and!; [done|rewrite Ht; apply list_lookup_insert_eq; by eapply lookup_lt_Some|]. by destruct HC; intros [? ?].
    + exists y. split_and!; [done|rewrite Ht; by rewrite list_lookup_insert_ne|]. intros [H1 H2]. destruct Hor as [Hor|(z & Hz & Hza)]; [done|]. rewrite Hy in Hz. injection Hz as <-. congruence.
Qed.

(** The owner of the slot goes on, or does so by itself. *)
Lemma unblock_inv s w : inv s → threads s !! w = Some Blocked → inv (goto w Wait_load s).
Proof.
  intros Hinv Hw. pose proof (i_place _ Hinv w _ Hw) as Hp. apply (move_inv (i := w) (x := Blocked) (x' := Wait_load) Hinv); [|apply Hinv].
  apply move_local; try done; cbn in *; try (intros; set_solver); try (by intros; split; [lia|done]).
Qed.

Lemma futex_wake_inv s w : inv s → inv (futex_wake w s).
Proof. intros Hinv. unfold futex_wake. destruct (threads s !! w) as [[]|] eqn:E; try done. by apply unblock_inv. Qed.

Lemma futex_wake_spec s w : threads (futex_wake w s) !! w ≠ Some Blocked ∧ (∀ j, threads s !! j ≠ Some Blocked → threads (futex_wake w s) !! j = threads s !! j) ∧ wait_slots_ (futex_wake w s) = wait_slots_ s.
Proof.
  unfold futex_wake. destruct (threads s !! w) as [[]|] eqn:E; try (rewrite E; done). cbn. split_and!; [|intros j Hj; rewrite list_lookup_insert_ne; [done|congruence]|done].
  rewrite list_lookup_insert_eq by (by eapply lookup_lt_Some). done.
Qed.

(** Nothing but the thread changes. *)
Lemma move_waker_same s C i k k' : inv s → frame C → threads s !! i = Some (C k) → waker_ok (group_size_ s) k' →
  (∀ w, w ∈ owes k → w ∈ owes k') → (∀ w, rouses (C k) w → threads s !! w ≠ Some Blocked) →
  (seeks k = true → seeks k' = true ∨ ∃ w, (w < group_size_ s)%nat ∧ (¬ in_mask (sleeping_workers_ s) w ∨ ∃ y, threads s !! w = Some y ∧ asleep y = false)) →
  move s (goto i (C k') s) i (C k) (C k').
Proof.
  intros Hinv HC Hx Hok Ho Hr Haw. apply move_waker; try done.
  - split; [apply (i_spinning _ Hinv)|done].
  - split; [apply (i_sleeping _ Hinv)|done].
  - intros w c Hc. exists c. split_and!; [done|lia|intros [?|[? ?]]; [auto|done]|]. intros Hb H1. left. split; [done|]. intros Hr'. by apply (Hr w).
Qed.

Lemma small_same s i x : small s → small (goto i x s).
Proof. done. Qed.

(** The masks have workers only. *)
Lemma sleeping_narrow s : inv s → narrow (sleeping_workers_ s).
Proof. intros Hinv. split; [apply (i_sleeping _ Hinv)|]. intros w Hw. pose proof (sleeper_index s w Hinv Hw). destruct (i_size _ Hinv). lia. Qed.

(** The workers whose bits are taken out at once are owed a wake-up each. *)
Lemma claimed_all s (to : Z) ws : inv s → (∀ w, in_mask to w → in_mask (sleeping_workers_ s) w) →
  masked_workers (Z.land (sleeping_workers_ s) (u64 (Z.lnot to))) (seq 0 (group_size_ s)) = Ret ws → 0 ≤ to →
  (∀ w, in_mask (sleeping_workers_ s) w → ¬ in_mask to w → w ∈ ws) ∧ Forall (λ w, (w < group_size_ s)%nat) ws.
Proof.
  intros Hinv Hsub. destruct (i_size _ Hinv) as [Hsz _]. rewrite masked_workers_spec by (apply Forall_forall; intros w [_ Hw]%elem_of_seq; lia). intros [= <-] Hto. split.
  - intros w Hw Hn. pose proof (sleeper_index s w Hinv Hw). apply list_elem_of_filter. split; [|apply elem_of_seq; lia]. unfold in_mask in *.
    rewrite Z.land_spec, Hw. unfold u64. rewrite Z.mod_pow2_bits_low by lia. rewrite Z.lnot_spec by lia. apply not_true_is_false in Hn. by rewrite Hn.
  - apply Forall_forall. intros w [_ [_ Hw]%elem_of_seq]%list_elem_of_filter. lia.
Qed.

Lemma claim_slots_spec size ws : Forall (λ w, (w < size)%nat) ws → waker_ok size (claim_slots ws) ∧ owes (claim_slots ws) = ws.
Proof. intros Hws. by destruct ws. Qed.

Lemma some_worker s : inv s → (0 < group_size_ s)%nat.
Proof. intros Hinv. destruct (i_size _ Hinv). lia. Qed.

(** The claims. *)
Lemma take_sleepers s C i k to k' : inv s → frame C → threads s !! i = Some (C k) → owes k = [] → (∀ w, ¬ rouses (C k) w) → 0 ≤ to → (∀ w, in_mask to w → in_mask (sleeping_workers_ s) w) →
  (∀ w, in_mask (sleeping_workers_ s) w → ¬ in_mask to w → w ∈ owes k') → waker_ok (group_size_ s) k' → (∃ w, (w < group_size_ s)%nat ∧ ¬ in_mask to w) →
  move s (goto i (C k') (set_sleeping to s)) i (C k) (C k').
Proof.
  intros Hinv HC Hx Ho Hr Hto Hsub Howed Hok (w0 & Hw0 & Hgap). apply move_waker; try done.
  - split; [apply (i_spinning _ Hinv)|done].
  - intros w c Hc. exists c. cbn [sleeping_workers_ goto set_sleeping]. rewrite Ho. split_and!; [done|lia|intros [?|[? ?]]; [set_solver|auto]|]. intros Hb H1. left. split; [done|apply Hr].
  - intros _. right. exists w0. auto.
Qed.

Lemma batch_gap s n to : inv s → 1 ≤ n → n < CountNonZeros (sleeping_workers_ s) → drop_lowest (Z.to_nat n) (sleeping_workers_ s) = Ret to →
  0 ≤ to ∧ (∀ w, in_mask to w → in_mask (sleeping_workers_ s) w) ∧ ∃ w, (w < group_size_ s)%nat ∧ ¬ in_mask to w.
Proof.
  intros Hinv Hn Hc Hd. destruct (drop_lowest_spec (Z.to_nat n) _ (sleeping_narrow s Hinv)) as (to' & Hd' & H1 & H2 & H3). rewrite Hd in Hd'. injection Hd' as <-. split_and!; [done..|].
  pose proof (some_worker s Hinv). pose proof (count_two _ _ (λ w, sleeper_index s w Hinv) ltac:(lia)).
  destruct (decide (in_mask (sleeping_workers_ s) 0)) as [Hz|Hz]; [|exists 0%nat; split; [lia|auto]]. exists 1%nat. split; [lia|]. apply H3; [lia|done].
Qed.

(** A step of a thread that wakes others. *)
Definition wakes weak s (C : waker → pc) i k : Prop := ∃ k' s1, wake_step weak k s = Ret (k', s1) ∧ (small s1 → inv (goto i (C k') s1)).

Section wake_step.
Context {weak : bool} {s : state} {C : waker → pc} {i : nat} (Hinv : inv s) (HC : frame C).

Lemma wakes_by_move k k' s1 : threads s !! i = Some (C k) → move s (goto i (C k') s1) i (C k) (C k') → small s1 → inv (goto i (C k') s1).
Proof using Hinv. intros _ Hm Hs. by eapply move_inv. Qed.

Lemma rouses_nobody k : (∀ ws, k ≠ Slot_futex ws) → ∀ w, ¬ rouses (C k) w.
Proof using HC. intros Hne w. destruct HC, k as [|j| |j|n| |n|n was to|ws|[|v l]|ws|b]; cbn; auto; by destruct (Hne (v :: l)). Qed.

Lemma wakes_ok k : threads s !! i = Some (C k) → waker_ok (group_size_ s) k.
Proof using Hinv HC. intros Hx. by apply (i_waker _ Hinv i _ k Hx), frame_waker. Qed.

Lemma Spin_mask_wakes : threads s !! i = Some (C Spin_mask) → wakes weak s C i Spin_mask.
Proof using Hinv HC.
  intros Hx. unfold wakes. cbn [wake_step].
  eexists _, _. split; [reflexivity|]. apply (wakes_by_move _ _ _ Hx), move_waker_same; try done; [by destruct (_ =? _)|set_solver|intros w Hr; by eapply rouses_nobody in Hr|]. intros _. left. by destruct (_ =? _).
Qed.

Lemma Spin_claim_wakes j : threads s !! i = Some (C (Spin_claim j)) → wakes weak s C i (Spin_claim j).
Proof using Hinv HC.
  intros Hx. unfold wakes. cbn [wake_step].
  eexists _, _. split; [reflexivity|]. apply (wakes_by_move _ _ _ Hx). apply move_waker; try done.
  + split; [apply clear_nonneg, (i_spinning _ Hinv)|]. intros w [_ Hw]%in_clear. done.
  + split; [apply (i_sleeping _ Hinv)|done].
  + by destruct (Z.testbit _ _).
  + intros w c Hc. exists c. split_and!; [done|lia|intros [?|[? ?]]; [set_solver|done]|]. intros Hb H1. left. split; [done|]. by apply rouses_nobody.
  + intros _. destruct (Z.testbit (spinning_workers_ s) (Z.of_nat j)) eqn:E; [|by left]. right. destruct (spinner_awake s j Hinv E) as [Hj Ha]. exists j. auto.
Qed.

Lemma Sleep_mask_wakes : threads s !! i = Some (C Sleep_mask) → wakes weak s C i Sleep_mask.
Proof using Hinv HC.
  intros Hx. unfold wakes. cbn [wake_step].
  eexists _, _. split; [reflexivity|]. apply (wakes_by_move _ _ _ Hx), move_waker_same; try done; [by destruct (_ =? _)|set_solver|intros w Hr; by eapply rouses_nobody in Hr|].
  intros _. destruct (Z.eqb_spec (sleeping_workers_ s) 0) as [E|]; [|by left]. right. exists 0%nat. rewrite E. split; [by apply some_worker|]. left. apply in_zero.
Qed.

Lemma Sleep_claim_wakes j : threads s !! i = Some (C (Sleep_claim j)) → wakes weak s C i (Sleep_claim j).
Proof using Hinv HC.
  intros Hx. unfold wakes. cbn [wake_step].
  destruct (Z.testbit (sleeping_workers_ s) (Z.of_nat j)) eqn:E.
  + pose proof (sleeper_index s j Hinv E) as Hj. destruct (Nat.ltb_spec j (group_size_ s)); [|lia]. eexists _, _. split; [reflexivity|]. apply (wakes_by_move _ _ _ Hx). apply take_sleepers; try done.
    * by apply rouses_nobody.
    * apply clear_nonneg, (i_sleeping _ Hinv).
    * by intros w [_ Hw]%in_clear.
    * intros w Hw Hn. rewrite in_clear in Hn. destruct (decide (w = j)) as [->|]; [set_solver|tauto].
    * cbn. split; [done|]. by constructor.
    * exists j. split; [done|]. rewrite in_clear. tauto.
  + eexists _, _. split; [reflexivity|]. apply (wakes_by_move _ _ _ Hx). apply move_waker; try done.
    * split; [apply (i_spinning _ Hinv)|done].
    * split; [apply clear_nonneg, (i_sleeping _ Hinv)|]. by intros w [_ Hw]%in_clear.
    * intros w c Hc. exists c. split_and!; [done|lia| |intros Hb H1; left; split; [done|by apply rouses_nobody]]. intros [?|[Hw Hn]]; [set_solver|]. cbn [sleeping_workers_ goto set_sleeping] in Hn. rewrite in_clear in Hn. unfold in_mask in Hw, Hn. destruct (decide (w = j)) as [->|]; [congruence|tauto].
    * by left.
Qed.

Lemma Batch_spin_wakes n : threads s !! i = Some (C (Batch_spin n)) → wakes weak s C i (Batch_spin n).
Proof using Hinv HC.
  intros Hx. pose proof (wakes_ok _ Hx) as Hok. unfold wakes. cbn [wake_step].
  cbn in Hok. destruct (i_spinning _ Hinv) as (Hs0 & Hs1 & Hs2). unfold kMaximumSpinners in Hs1. destruct (Z.leb_spec (CountNonZeros (spinning_workers_ s)) n); [|lia].
  eexists _, _. split; [reflexivity|]. apply (wakes_by_move _ _ _ Hx). apply move_waker; try done.
  + split; [done|]. by intros w Hw%in_zero.
  + split; [apply (i_sleeping _ Hinv)|done].
  + destruct (_ <=? _); [done|]. destruct (Z.leb_spec 1 (n - CountNonZeros (spinning_workers_ s))); done.
  + intros w c Hc. exists c. split_and!; [done|lia|intros [?|[? ?]]; [set_solver|done]|]. intros Hb H1. left. split; [done|]. by apply rouses_nobody.
  + intros _. destruct (_ <=? _); [by left|]. destruct (Z.leb_spec 1 (n - CountNonZeros (spinning_workers_ s))); [by left|]. right. destruct (count_some (spinning_workers_ s) ltac:(lia)) as [w Hw].
    destruct (spinner_awake s w Hinv Hw) as [? ?]. exists w. auto.
Qed.

Lemma Batch_all_wakes : threads s !! i = Some (C Batch_all) → wakes weak s C i Batch_all.
Proof using Hinv HC.
  intros Hx. unfold wakes. cbn [wake_step].
  destruct (masked_workers (sleeping_workers_ s) (seq 0 (group_size_ s))) as [ws| | | |] eqn:E;
    try (rewrite masked_workers_spec in E; [done|apply Forall_forall; intros w [_ Hw]%elem_of_seq; destruct (i_size _ Hinv); lia]).
  cbn [obind]. eexists _, _. split; [reflexivity|]. apply (wakes_by_move _ _ _ Hx).
  rewrite masked_workers_spec in E by (apply Forall_forall; intros w [_ Hw]%elem_of_seq; destruct (i_size _ Hinv); lia). injection E as <-.
  destruct (claim_slots_spec (group_size_ s) (filter (in_mask (sleeping_workers_ s)) (seq 0 (group_size_ s)))) as [Hcl How].
  { apply Forall_forall. intros w [_ [_ Hw]%elem_of_seq]%list_elem_of_filter. lia. }
  apply take_sleepers; try done; [by apply rouses_nobody|by intros w Hw%in_zero| |exists 0%nat; split; [by apply some_worker|apply in_zero]].
  intros w Hw _. rewrite How. apply list_elem_of_filter. split; [done|]. apply elem_of_seq. pose proof (sleeper_index s w Hinv Hw). lia.
Qed.

Lemma Batch_mask_wakes n : threads s !! i = Some (C (Batch_mask n)) → wakes weak s C i (Batch_mask n).
Proof using Hinv HC.
  intros Hx. pose proof (wakes_ok _ Hx) as Hok. unfold wakes. cbn [wake_step].
  cbn in Hok. destruct (Z.eqb_spec (sleeping_workers_ s) 0) as [E|].
  { eexists _, _. split; [reflexivity|]. apply (wakes_by_move _ _ _ Hx), move_waker_same; try done; [intros w Hr; by eapply rouses_nobody in Hr|]. intros _. right. exists 0%nat. rewrite E. split; [by apply some_worker|]. left. apply in_zero. }
  destruct (Z.leb_spec (CountNonZeros (sleeping_workers_ s)) n).
  + eexists _, _. split; [reflexivity|]. apply (wakes_by_move _ _ _ Hx), move_waker_same; try done; [|intros w Hr; by eapply rouses_nobody in Hr|by left].
    cbn. split_and!; [done|done|by intros w Hw%in_zero|]. exists 0%nat. split; [by apply some_worker|apply in_zero].
  + destruct (drop_lowest_spec (Z.to_nat n) _ (sleeping_narrow s Hinv)) as (to & Hd & _). destruct (batch_gap s n to Hinv Hok ltac:(lia) Hd) as (H1 & H2 & H3). rewrite Hd. cbn [obind].
    eexists _, _. split; [reflexivity|]. apply (wakes_by_move _ _ _ Hx), move_waker_same; try done; [intros w Hr; by eapply rouses_nobody in Hr|by left].
Qed.

Lemma Batch_claim_wakes n was to : threads s !! i = Some (C (Batch_claim n was to)) → wakes weak s C i (Batch_claim n was to).
Proof using Hinv HC.
  intros Hx. pose proof (wakes_ok _ Hx) as Hok. unfold wakes. cbn [wake_step].
  cbn in Hok. destruct Hok as (Hn & Hto & Hsub & Hgap). destruct (negb weak && (sleeping_workers_ s =? was)) eqn:E.
  + apply andb_prop in E as [_ <-%Z.eqb_eq]. destruct (masked_workers _ _) as [ws| | | |] eqn:E;
      try (rewrite masked_workers_spec in E; [done|apply Forall_forall; intros w [_ Hw]%elem_of_seq; destruct (i_size _ Hinv); lia]).
    destruct (claimed_all s to ws Hinv Hsub E Hto) as [Hall Hws]. destruct (claim_slots_spec _ _ Hws) as [Hcl How]. cbn [obind]. eexists _, _. split; [reflexivity|]. apply (wakes_by_move _ _ _ Hx).
    apply take_sleepers; try done; [by apply rouses_nobody|]. intros w Hw Hnt. rewrite How. by apply Hall.
  + eexists _, _. split; [reflexivity|]. apply (wakes_by_move _ _ _ Hx), move_waker_same; try done; [intros w Hr; by eapply rouses_nobody in Hr|by left].
Qed.

Lemma Slot_count_wakes ws : threads s !! i = Some (C (Slot_count ws)) → wakes weak s C i (Slot_count ws).
Proof using Hinv HC.
  intros Hx. pose proof (wakes_ok _ Hx) as Hok. unfold wakes. cbn [wake_step].
  cbn in Hok. destruct Hok as [Hne Hws]. destruct ws as [|w ws]; [done|]. apply Forall_cons in Hws as [Hw Hws]. destruct (lookup_lt_is_Some_2 (wait_slots_ s) w Hw) as [c Hc]. unfold wakeup_count. rewrite Hc. cbn [deref obind].
  pose proof (Forall_lookup_1 _ _ _ _ (i_small _ Hinv) Hc) as Hsm. cbn in Hsm. destruct (worker_exists s w Hinv Hw) as [y Hy]. pose proof (i_slot _ Hinv w c y Hc Hy) as Hpos. pose proof (took_nonneg y).
  rewrite i32_small by lia. eexists _, _. split; [reflexivity|]. apply (wakes_by_move _ _ _ Hx). apply move_waker; try done.
  + by cbn; rewrite length_insert.
  + split; [apply (i_spinning _ Hinv)|done].
  + split; [apply (i_sleeping _ Hinv)|done].
  + destruct (c =? 0); cbn; (split; [done|by constructor]).
  + intros v c' Hc'. cbn in Hc'. destruct (decide (v = w)) as [->|Hv].
    * rewrite list_lookup_insert_eq in Hc' by (by eapply lookup_lt_Some). injection Hc' as <-. exists c. split_and!; [done|lia|intros _; right; lia|]. intros Hb _.
      destruct (Z.eqb_spec c 0) as [->|]; [right; destruct HC; done|left; split; [lia|by apply rouses_nobody]].
    * rewrite list_lookup_insert_ne in Hc' by done. exists c'. split_and!; [done|lia| |intros Hb H1; left; split; [done|by apply rouses_nobody]].
      intros [Hin|[? ?]]; [|done]. left. cbn in Hin. destruct (c =? 0); cbn; set_solver.
Qed.

Lemma Slot_futex_wakes ws : threads s !! i = Some (C (Slot_futex ws)) → wakes weak s C i (Slot_futex ws).
Proof using Hinv HC.
  intros Hx. pose proof (wakes_ok _ Hx) as Hok. unfold wakes. cbn [wake_step].
  cbn in Hok. destruct Hok as [Hne Hws]. destruct ws as [|w ws]; [done|]. eexists _, _. split; [reflexivity|]. intros Hs1.
  destruct (futex_wake_spec s w) as (Hnb & Hsame & _). assert (Hx' : threads (futex_wake w s) !! i = Some (C (Slot_futex (w :: ws)))) by (rewrite Hsame; [done|rewrite Hx; by destruct HC]).
  assert (Hgs : group_size_ (futex_wake w s) = group_size_ s) by (unfold futex_wake; by repeat case_match).
  pose proof (futex_wake_inv s w Hinv) as Hinv'. eapply move_inv; [exact Hinv'|apply move_waker_same|done]; try done.
  + cbn. by rewrite Hgs.
  + intros v Hr. assert (v = w) as -> by (by destruct HC). done.
Qed.

Lemma Slot_check_wakes ws : threads s !! i = Some (C (Slot_check ws)) → wakes weak s C i (Slot_check ws).
Proof using Hinv HC.
  intros Hx. pose proof (wakes_ok _ Hx) as Hok. unfold wakes. cbn [wake_step].
  cbn in Hok. destruct Hok as [Hne Hws]. destruct ws as [|w ws]; [done|]. apply Forall_cons in Hws as [Hw Hws]. destruct (lookup_lt_is_Some_2 (wait_slots_ s) w Hw) as [c Hc]. unfold wakeup_count. rewrite Hc. cbn [deref obind].
  destruct (worker_exists s w Hinv Hw) as [y Hy]. pose proof (i_slot _ Hinv w c y Hc Hy) as Hpos. pose proof (took_nonneg y). destruct (Z.leb_spec 0 c); [|lia].
  destruct (claim_slots_spec _ _ Hws) as [Hcl How]. eexists _, _. split; [reflexivity|]. apply (wakes_by_move _ _ _ Hx), move_waker_same; try done; [by rewrite How|intros v Hr; by eapply rouses_nobody in Hr].
Qed.

End wake_step.

Lemma wake_step_inv weak s C i k : inv s → frame C → threads s !! i = Some (C k) → (∀ b, k ≠ Woken b) → wakes weak s C i k.
Proof.
  intros Hinv HC Hx Hk. destruct k; auto using Spin_mask_wakes, Spin_claim_wakes, Sleep_mask_wakes, Sleep_claim_wakes, Batch_spin_wakes, Batch_all_wakes, Batch_mask_wakes, Batch_claim_wakes, Slot_count_wakes, Slot_futex_wakes, Slot_check_wakes. by destruct (Hk ok).
Qed.

(** ** The queue *)

Lemma acquired_none a : held (acquired a None) = [] ∧ unpushed (acquired a None) = [] ∧ filling (acquired a None) = [].
Proof. by destruct a. Qed.

(** A fiber that was popped, by whoever. *)
Lemma pop_inv s i a e q : inv s → threads s !! i = Some (Pop a) → run_queue_ s = e :: q → filled e = true →
  let s' := goto i (acquired a (Some (Fiber (fiber e)))) (set_queue q (set_fibers (<[fiber e := Running]> (fibers s)) s)) in small s' → inv s'.
Proof.
  intros Hinv Hx Hq Hf s' Hsmall. set (x' := acquired a (Some (Fiber (fiber e)))) in *. pose proof (i_queue _ Hinv) as Hnd. rewrite Hq in Hnd. apply NoDup_cons in Hnd as [Hnew Hnd].
  assert (Hx' : held x' = [fiber e] ∧ unpushed x' = [] ∧ filling x' = [] ∧ asleep x' = false ∧ owed x' = [] ∧ took x' = 0 ∧ leaves x' = false ∧ dozes x' = false) by (by destruct a).
  destruct Hx' as (Hh & Hu & Hfl & Has & How & Htk & Hlv & Hdz). assert (Hc : carried x' = [fiber e]) by (unfold carried; by rewrite Hh, Hu).
  destruct (i_spinning _ Hinv) as (Hs0 & Hs1 & Hs2). destruct (i_sleeping _ Hinv) as (Hs3 & Hs4). pose proof (i_place _ Hinv i _ Hx) as Hpl.
  apply (move_inv (i := i) (x := Pop a) (x' := x') Hinv); [|done]. split; try done.
  - destruct (i <? group_size_ s)%nat; [|done]. by destruct a.
  - split_and!; [done..|]. intros w Hw. destruct (decide (w = i)) as [->|]; [|done]. destruct (Hs2 i Hw) as (y & Hy & Hsp). rewrite Hx in Hy. injection Hy as <-. by destruct a.
  - split; [done|]. intros w Hw. destruct (decide (w = i)) as [->|]; [|done]. destruct (Hs4 i Hw) as (y & Hy & Hsp). rewrite Hx in Hy. injection Hy as <-. by destruct a.
  - by destruct a.
  - by destruct a.
  - by destruct a.
  - intros w c _ Hc0. exists c. split_and!; [done|lia|intros [?|[? ?]]; [set_solver|done]|]. intros _ H1. left. split; [done|intros []].
  - intros c Hc0. pose proof (i_slot _ Hinv i c _ Hc0 Hx) as H1. rewrite Htk, Hdz. cbn in H1. split_and!; [lia|unfold x'; by destruct a|done].
  - intros e0 He0 Hun. right. split; [set_solver|]. exists e0. rewrite Hq. split_and!; [by right|done|done].
  - cbn [run_queue_ s' goto set_queue fibers set_fibers]. split; [done|]. intros f Hin. rewrite Hq, Hc. assert (f ≠ fiber e) by (by intros ->). split_and!; [left; by right|set_solver|].
    rewrite lookup_insert_ne by done. apply (i_ready _ Hinv). rewrite Hq. by right.
  - rewrite Hc, Hh, Hu. split_and!; [apply NoDup_singleton| | |set_solver].
    + intros f ->%list_elem_of_singleton. right. left. rewrite Hq. by left.
    + intros f ->%list_elem_of_singleton. cbn. by rewrite lookup_insert_eq.
  - intros f Hd. cbn in Hd. destruct (decide (f = fiber e)) as [->|]; [right; left; rewrite Hq; by left|]. by rewrite lookup_insert_ne in Hd.
  - by rewrite Hlv.
  - intros _ _. left. rewrite Has, Hq. done.
  - intros f. rewrite Hh, Hu, Hq. cbn. destruct (decide (f = fiber e)) as [-> |Hne]; [rewrite lookup_insert_eq; split; [done|left; by left]|]. rewrite lookup_insert_ne by done.
    split; intros Hf0; [|right; split; [done|by intros []%elem_of_nil]]. destruct (decide (f ∈ fiber <$> q)); [auto|]. right. right. split_and!; [done|by intros [?|?]%elem_of_cons|by intros []%elem_of_nil].
Qed.

Lemma AcquireFiber_inv s i a : inv s → threads s !! i = Some (Pop a) → ∃ s', AcquireFiber i a s = Ret s' ∧ (small s' → inv s').
Proof.
  intros Hinv Hx. unfold AcquireFiber. assert (Hnull : (run_queue_ s = [] ∨ ∃ j y, threads s !! j = Some y ∧ committed y = true) → small (goto i (Load_stopped a) s) → inv (goto i (Load_stopped a) s)).
  { intros Hor Hsmall. pose proof (i_place _ Hinv i _ Hx) as Hpl. apply (move_inv (i := i) (x := Pop a) (x' := Load_stopped a) Hinv); [|done]. apply move_local; try done; try (by destruct a).
    intros _ Hne. destruct Hor as [?|(j & y & Hy & Hc)]; [done|]. right. right. exists j, y. split; [|done]. cbn. rewrite list_lookup_insert_ne; [done|]. intros ->. rewrite Hx in Hy. injection Hy as <-. done. }
  destruct (run_queue_ s) as [|e q] eqn:Hq; [eauto|]. destruct (filled e) eqn:Hf.
  - rewrite decide_True by (apply (i_ready _ Hinv); rewrite Hq; by left). eexists. split; [reflexivity|]. by apply pop_inv.
  - eexists. split; [reflexivity|]. apply Hnull. right. destruct (i_filling _ Hinv e) as (j & y & Hj & Hy); [rewrite Hq; by left|done|]. exists j, y. split; [done|]. destruct y; done || by apply elem_of_nil in Hy.
Qed.

(** ** The steps of a worker *)

Ltac local_move := eapply move_inv; [done| |done]; apply move_local; [done|done|reflexivity|by repeat split|..]; try done; try (by intros _ _; left).

Lemma Load_stopped_inv s i a : inv s → threads s !! i = Some (Load_stopped a) → let s' := goto i (acquired a (if stopped_ s then Some ShuttingDown else None)) s in small s' → inv s'.
Proof. intros Hinv Hx s' Hsmall. pose proof (i_place _ Hinv i _ Hx) as Hpl. destruct (stopped_ s) eqn:Hst, a; local_move. Qed.


(** A worker changes its bits. *)
Lemma mask_inv s i x x' m1 m2 : inv s → threads s !! i = Some x → held x' = held x → unpushed x' = unpushed x → filling x' = filling x → works x' = true → calls x = false →
  (0 ≤ m1 ∧ CountNonZeros m1 ≤ kMaximumSpinners ∧ ∀ w, in_mask m1 w → if decide (w = i) then spins x' = true else in_mask (spinning_workers_ s) w) →
  (0 ≤ m2 ∧ (∀ w, w ≠ i → in_mask m2 w ↔ in_mask (sleeping_workers_ s) w) ∧ (in_mask m2 i → waits x' = true)) →
  (∀ v, x' ≠ Spin_cas v) → (∀ k, waker_of x' = Some k → waker_ok (group_size_ s) k) → batch_ok x' → owed x = [] → (∀ w, ¬ rouses x w) → took x = 0 → took x' = 0 →
  (dozes x' = true → in_mask m2 i) → (leaves x' = true → stopped_ s = true) → committed x = false → asleep x' = false →
  inv (goto i x' (set_spinning m1 (set_sleeping m2 s))).
Proof.
  intros Hinv Hx Hh Hu Hf Hw Hc H1 (H2 & H3 & H4) Hcas Hk Hb Ho Hr Ht Ht' Hd Hl Hcm Ha. pose proof (worker_index _ _ _ Hinv Hx Hc) as Hi.
  apply (move_inv (i := i) (x := x) (x' := x') Hinv); [|by apply (i_small _ Hinv)]. apply move_quiet; try done.
  - by rewrite (proj2 (Nat.ltb_lt i (group_size_ s)) Hi).
  - split; [done|]. intros w Hin. destruct (decide (w = i)) as [->|]; [auto|]. by apply H3.
  - intros v ->. by destruct (Hcas v).
  - intros w c Hne Hw0. exists c. rewrite Ho. split_and!; [done|lia| |].
    + intros [Hin|[Hin Hno]]; [by apply elem_of_nil in Hin|]. destruct Hno. by apply H3.
    + intros _ H5. left. auto.
  - intros c Hc0. pose proof (i_slot _ Hinv i c x Hc0 Hx). rewrite Ht'. split_and!; [lia|by intros ->|]. intros Hdz Hno. destruct Hno. by apply Hd.
  - intros _ _. left. by rewrite Hcm, Ha.
Qed.

Lemma not_spinning s i x : inv s → threads s !! i = Some x → spins x = false → ¬ in_mask (spinning_workers_ s) i.
Proof. intros Hinv Hx Hs Hin. destruct (i_spinning _ Hinv) as (_ & _ & H). destruct (H i Hin) as (y & Hy & Hs'). rewrite Hx in Hy. injection Hy as <-. congruence. Qed.
Lemma not_sleeping s i x : inv s → threads s !! i = Some x → waits x = false → ¬ in_mask (sleeping_workers_ s) i.
Proof. intros Hinv Hx Hs Hin. destruct (i_sleeping _ Hinv) as (_ & H). destruct (H i Hin) as (y & Hy & Hs'). rewrite Hx in Hy. injection Hy as <-. congruence. Qed.

(** What the masks are before a worker changes its bits. *)
Lemma spinning_same s i x x' : inv s → threads s !! i = Some x → (spins x = true → spins x' = true) →
  0 ≤ spinning_workers_ s ∧ CountNonZeros (spinning_workers_ s) ≤ kMaximumSpinners ∧ ∀ w, in_mask (spinning_workers_ s) w → if decide (w = i) then spins x' = true else in_mask (spinning_workers_ s) w.
Proof.
  intros Hinv Hx Hsp. destruct (i_spinning _ Hinv) as (H0 & H1 & H). split_and!; [done..|]. intros w Hw. destruct (decide (w = i)) as [->|]; [|done].
  apply Hsp. destruct (H i Hw) as (y & Hy & Hs). congruence.
Qed.
Lemma spinning_cleared s i x' : inv s → let m := Z.clearbit (spinning_workers_ s) (Z.of_nat i) in
  0 ≤ m ∧ CountNonZeros m ≤ kMaximumSpinners ∧ ∀ w, in_mask m w → if decide (w = i) then spins x' = true else in_mask (spinning_workers_ s) w.
Proof.
  intros Hinv m. destruct (i_spinning _ Hinv) as (H0 & H1 & _). split_and!; [unfold m; by apply clear_nonneg| |].
  - etransitivity; [|done]. apply count_mono. intros w Hw. by apply (in_clear _ i w) in Hw as [_ ?].
  - intros w [Hne Hw]%in_clear. by rewrite decide_False.
Qed.
Lemma sleeping_same s i x x' : inv s → threads s !! i = Some x → (waits x = true → waits x' = true) →
  0 ≤ sleeping_workers_ s ∧ (∀ w, w ≠ i → in_mask (sleeping_workers_ s) w ↔ in_mask (sleeping_workers_ s) w) ∧ (in_mask (sleeping_workers_ s) i → waits x' = true).
Proof. intros Hinv Hx Hsp. destruct (i_sleeping _ Hinv) as (H0 & H). split_and!; [done..|]. intros Hw. apply Hsp. destruct (H i Hw) as (y & Hy & Hs). congruence. Qed.
Lemma sleeping_cleared s i x' : inv s → let m := Z.clearbit (sleeping_workers_ s) (Z.of_nat i) in
  0 ≤ m ∧ (∀ w, w ≠ i → in_mask m w ↔ in_mask (sleeping_workers_ s) w) ∧ (in_mask m i → waits x' = true).
Proof.
  intros Hinv m. destruct (i_sleeping _ Hinv) as (H0 & _). split_and!; [unfold m; by apply clear_nonneg|intros w Hne; unfold m; rewrite in_clear; tauto|]. intros [? _]%in_clear. done.
Qed.

Lemma Spin_load_inv s i x : inv s → threads s !! i = Some x → (x = Spin_load ∨ ∃ v, x = Spin_cas v) →
  inv (goto i (if CountNonZeros (spinning_workers_ s) <? kMaximumSpinners then Spin_cas (spinning_workers_ s) else Steal) s).
Proof.
  intros Hinv Hx Hor. pose proof (i_place _ Hinv i _ Hx) as Hpl. assert (Hsmall : small s) by apply (i_small _ Hinv). assert (Hno : ¬ in_mask (spinning_workers_ s) i) by (eapply not_spinning; [done..|]; by destruct Hor as [-> | [? ->]]).
  destruct (Z.ltb_spec (CountNonZeros (spinning_workers_ s)) kMaximumSpinners); destruct Hor as [-> | [v ->]]; local_move; by intros ? [= <-].
Qed.

Lemma Spin_cas_inv s i v : inv s → threads s !! i = Some (Spin_cas v) → spinning_workers_ s = v → inv (goto i (Pop At_spin) (set_spinning (Z.setbit v (Z.of_nat i)) s)).
Proof.
  intros Hinv Hx <-. destruct (i_cas _ Hinv i _ Hx) as [Hno Hc]. destruct (i_spinning _ Hinv) as (H0 & H1 & _).
  apply (mask_inv s i (Spin_cas (spinning_workers_ s)) (Pop At_spin) (Z.setbit (spinning_workers_ s) (Z.of_nat i)) (sleeping_workers_ s)); try done; try (by intros ? []).
  - split_and!; [by apply set_nonneg|pose proof (count_set (spinning_workers_ s) i); lia|]. intros w [-> |Hw]%in_set; [by rewrite decide_True|]. by destruct (decide (w = i)).
  - by eapply sleeping_same.
Qed.

Lemma Spin_clear_inv s i r : inv s → threads s !! i = Some (Spin_clear r) →
  inv (goto i (match r with Some a => Spin_count a | None => Pop At_last end) (set_spinning (Z.clearbit (spinning_workers_ s) (Z.of_nat i)) s)).
Proof.
  intros Hinv Hx. pose proof (i_leaves _ Hinv i _ Hx) as Hl. apply (mask_inv s i (Spin_clear r) _ (Z.clearbit (spinning_workers_ s) (Z.of_nat i)) (sleeping_workers_ s)); try done; try (by intros ? []); try (by destruct r as [[]|]).
  - by apply spinning_cleared.
  - by eapply sleeping_same.
Qed.

Lemma Wait_or_inv s i : inv s → threads s !! i = Some Wait_or → inv (goto i (Pop At_wait) (set_sleeping (Z.setbit (sleeping_workers_ s) (Z.of_nat i)) s)).
Proof.
  intros Hinv Hx. destruct (i_sleeping _ Hinv) as (H0 & _). apply (mask_inv s i Wait_or (Pop At_wait) (spinning_workers_ s) (Z.setbit (sleeping_workers_ s) (Z.of_nat i))); try done; try (by intros ? []).
  - by eapply spinning_same.
  - split_and!; [by apply set_nonneg|intros w Hne; rewrite (in_set _ i w); tauto|done].
  - intros _. apply in_set. by left.
Qed.

(** A worker takes its bit back. *)
Lemma Wait_and_inv s i x x' : inv s → threads s !! i = Some x →
  (∃ r, x = Wait_and r ∧ (x' = Wait_defer r ∨ x' = Wait_wake r Spin_mask) ∨ x = Wait_defer r ∧ x' = resume r) ∨ x = Wait_redo ∧ x' = Wait_or →
  inv (goto i x' (set_sleeping (Z.clearbit (sleeping_workers_ s) (Z.of_nat i)) s)).
Proof.
  intros Hinv Hx Hor. pose proof (i_leaves _ Hinv i _ Hx) as Hl. pose proof (sleeping_cleared s i x' Hinv) as Hsl. assert (Hsp : spins x = true → spins x' = true) by (destruct Hor as [(r & [(-> & _)|[-> _]])|[-> _]]; done).
  pose proof (spinning_same s i x x' Hinv Hx Hsp) as Hs. destruct Hor as [(r & [(-> & [-> | ->])|[-> ->]])|[-> ->]]; apply (mask_inv s i _ _ (spinning_workers_ s) (Z.clearbit (sleeping_workers_ s) (Z.of_nat i)) Hinv Hx);
    try done; try (by intros ? []); try (by destruct r); by intros ? [= <-].
Qed.

(** ** Slots *)

Lemma own_slot s i x : inv s → threads s !! i = Some x → calls x = false → ∃ c, wait_slots_ s !! i = Some c ∧ 1 ≤ c + took x ∧ c < 2 ^ 31 - 1.
Proof.
  intros Hinv Hx Hc. destruct (lookup_lt_is_Some_2 (wait_slots_ s) i) as [c Hs]; [by eapply worker_index|]. exists c. split_and!; [done|by apply (i_slot _ Hinv i c x)|].
  by eapply (Forall_lookup_1 _ _ i c (i_small _ Hinv)).
Qed.

Lemma Wait_sub_inv s i : inv s → threads s !! i = Some Wait_sub → ∃ s', (c ←! wakeup_count s i; Ret (goto i (if c =? 1 then Wait_futex else Wait_check) (set_slot i (i32 (c - 1)) s))) = Ret s' ∧ (small s' → inv s').
Proof.
  intros Hinv Hx. destruct (own_slot _ _ _ Hinv Hx eq_refl) as (c & Hc & H1 & H2). cbn [took] in H1. pose proof (i_place _ Hinv i _ Hx) as Hpl. unfold wakeup_count. rewrite Hc. cbn [deref obind].
  rewrite i32_small by lia. eexists. split; [reflexivity|]. intros Hsmall. eapply move_inv; [done| |done]. apply move_quiet; try done; try (by destruct (c =? 1)).
  - cbn. by rewrite length_insert.
  - apply (spinning_same s i _ _ Hinv Hx). by destruct (c =? 1).
  - destruct (i_sleeping _ Hinv) as (H3 & _). split; [done|]. intros w Hw. by destruct (decide (w = i)), (c =? 1).
  - cbn. intros w c' Hne Hw. rewrite list_lookup_insert_ne in Hw by done. exists c'. split_and!; [done|lia|intros [[]%elem_of_nil|[? ?]]; done|]. intros _ ?. left. split; [done|intros []].
  - cbn. intros c' Hw. rewrite list_lookup_insert_eq in Hw by (by eapply lookup_lt_Some). injection Hw as <-. destruct (Z.eqb_spec c 1) as [-> |]; cbn; (split_and!; [lia|done|]); [|done].
    intros _ Hno. right. destruct (i_owed _ Hinv i 1 _ Hc Hx eq_refl Hno) as [?|(j & y & Hj & Hy)]; [cbn in *; lia|]. exists j, y. split; [|done]. intros ->. rewrite Hx in Hj. injection Hj as <-. by apply elem_of_nil in Hy.
  - intros _ _. left. by destruct (c =? 1).
Qed.

Lemma Wait_futex_inv s i : inv s → threads s !! i = Some Wait_futex → ∃ s', (c ←! wakeup_count s i; Ret (goto i (if c =? 0 then Blocked else Wait_load) s)) = Ret s' ∧ (small s' → inv s').
Proof.
  intros Hinv Hx. destruct (own_slot _ _ _ Hinv Hx eq_refl) as (c & Hc & H1 & H2). pose proof (i_place _ Hinv i _ Hx) as Hpl. unfold wakeup_count. rewrite Hc. cbn [deref obind].
  eexists. split; [reflexivity|]. intros Hsmall. destruct (Z.eqb_spec c 0); local_move. intros c' Hc'. assert (c' = c) as -> by congruence. cbn. lia.
Qed.

Lemma Wait_load_inv s i : inv s → threads s !! i = Some Wait_load → ∃ s', (c ←! wakeup_count s i; Ret (goto i (if c =? 0 then Wait_futex else Wait_check) s)) = Ret s' ∧ (small s' → inv s').
Proof.
  intros Hinv Hx. destruct (own_slot _ _ _ Hinv Hx eq_refl) as (c & Hc & H1 & H2). pose proof (i_place _ Hinv i _ Hx) as Hpl. unfold wakeup_count. rewrite Hc. cbn [deref obind].
  eexists. split; [reflexivity|]. intros Hsmall. destruct (Z.eqb_spec c 0); local_move. intros c' Hc'. assert (c' = c) as -> by congruence. cbn in *. split; [lia|done].
Qed.

Lemma Wait_check_inv s i : inv s → threads s !! i = Some Wait_check → ∃ s', (c ←! wakeup_count s i; if 0 <? c then Ret (goto i (Pop At_again) s) else Abort) = Ret s' ∧ (small s' → inv s').
Proof.
  intros Hinv Hx. destruct (own_slot _ _ _ Hinv Hx eq_refl) as (c & Hc & H1 & H2). pose proof (i_place _ Hinv i _ Hx) as Hpl. unfold wakeup_count. rewrite Hc. cbn [deref obind].
  cbn in H1. destruct (Z.ltb_spec 0 c); [|lia]. eexists. split; [reflexivity|]. intros Hsmall. local_move.
Qed.

(** ** Stop *)

Lemma not_worker s i x : inv s → threads s !! i = Some x → works x = false → (group_size_ s ≤ i)%nat ∧ wait_slots_ s !! i = None.
Proof.
  intros Hinv Hx Hw. pose proof (i_place _ Hinv i x Hx) as H. rewrite Hw in H. destruct (Nat.ltb_spec i (group_size_ s)); [done|]. split; [done|]. by apply lookup_ge_None.
Qed.

Lemma Stop_count_inv s i j : inv s → threads s !! i = Some (Stop_count j) → (j < group_size_ s)%nat → let s' := goto i (Stop_wake j) (set_slot j (2 ^ 30) s) in small s' → inv s'.
Proof.
  intros Hinv Hx Hj s' Hsmall. pose proof (i_place _ Hinv i _ Hx) as Hpl. destruct (not_worker _ _ _ Hinv Hx eq_refl) as [Hi Hno]. eapply move_inv; [done| |done]. apply move_quiet; try done.
  - cbn. by rewrite length_insert.
  - by apply (spinning_same s i _ _ Hinv Hx).
  - destruct (i_sleeping _ Hinv) as (H3 & H4). split; [done|]. intros w Hw. destruct (decide (w = i)) as [-> |]; [|done]. destruct (H4 i Hw) as (y & Hy & ?). rewrite Hx in Hy. by injection Hy as <-.
  - cbn. intros w c' Hne Hw. destruct (lookup_lt_is_Some_2 (wait_slots_ s) j) as [c Hc]; [done|]. destruct (decide (w = j)) as [-> |].
    + rewrite list_lookup_insert_eq in Hw by done. injection Hw as <-. exists c. split_and!; [done|left; lia|intros _; right; left; lia|auto].
    + rewrite list_lookup_insert_ne in Hw by done. exists c'. split_and!; [done|lia|intros [[]%elem_of_nil|[? ?]]; done|]. intros _ ?. left. split; [done|intros []].
  - cbn. intros c' Hw. rewrite list_lookup_insert_ne in Hw by lia. congruence.
  - intros _ _. by left.
Qed.

Lemma Stop_wake_inv s i j : inv s → threads s !! i = Some (Stop_wake j) → let s' := goto i (Stop_count (S j)) (futex_wake j s) in small s' → inv s'.
Proof.
  intros Hinv Hx s' Hsmall. destruct (futex_wake_spec s j) as (Hb & Hother & _). pose proof (futex_wake_inv s j Hinv) as Hinv'.
  assert (Hx' : threads (futex_wake j s) !! i = Some (Stop_wake j)) by (rewrite Hother; congruence). pose proof (i_place _ Hinv' i _ Hx') as Hpl. local_move. intros w <-. by right.
Qed.

Lemma Stop_store_inv s i : inv s → threads s !! i = Some Stop_store → let s' := goto i (Stop_count 0) (set_stopped s) in small s' → inv s'.
Proof.
  intros Hinv Hx s' Hsmall. pose proof (i_place _ Hinv i _ Hx) as Hpl. destruct (not_worker _ _ _ Hinv Hx eq_refl) as [Hi Hno]. eapply move_inv; [done| |done].
  split; try done.
  - by apply (spinning_same s i _ _ Hinv Hx).
  - destruct (i_sleeping _ Hinv) as (H3 & H4). split; [done|]. intros w Hw. destruct (decide (w = i)) as [-> |]; [|done]. destruct (H4 i Hw) as (y & Hy & ?). rewrite Hx in Hy. by injection Hy as <-.
  - cbn. intros w c' Hne Hw. exists c'. split_and!; [done|lia|intros [[]%elem_of_nil|[? ?]]; done|]. intros _ ?. left. split; [done|intros []].
  - cbn. congruence.
  - cbn. intros e He Hun. right. split; [by intros []%elem_of_nil|]. eauto.
  - cbn. split; [apply (i_queue _ Hinv)|]. intros f Hin. destruct (i_ready _ Hinv f Hin) as [Hr Hn]. split_and!; [auto|by intros []%elem_of_nil|done].
  - cbn. split_and!; [constructor|by intros f []%elem_of_nil..].
  - intros f. cbn. destruct (decide (f ∈ fiber <$> run_queue_ s)); split; intros Hf; auto; right; try right; split_and!; done || by intros []%elem_of_nil.
Qed.

(** ** Fibers *)

(** Where a thread neither spins nor sleeps nor wakes. *)
Definition plain x : bool := match x with Queue _ _ | Push _ _ | Fill _ _ | Outside | Run _ | Steal | Pop At_proc => true | _ => false end.

Lemma plain_spec x : plain x = true → spins x = false ∧ waits x = false ∧ dozes x = false ∧ asleep x = false ∧ took x = 0 ∧ owed x = [] ∧ leaves x = false ∧ waker_of x = None ∧ x ≠ Blocked ∧
  (∀ w, ¬ rouses x w) ∧ ∀ v, x ≠ Spin_cas v.
Proof. intros Hp. assert (Hr : ∀ w, ¬ rouses x w) by (by intros w Hw; destruct x). destruct x; try done; match goal with H : plain (Pop ?a) = true |- _ => destruct a | _ => idtac end; by split_and!. Qed.

Lemma move_fibers s s' i x x' : inv s → threads s !! i = Some x → plain x = true → plain x' = true → threads s' = <[i := x']> (threads s) →
  wait_slots_ s' = wait_slots_ s → spinning_workers_ s' = spinning_workers_ s → sleeping_workers_ s' = sleeping_workers_ s → stopped_ s' = stopped_ s →
  (if (i <? group_size_ s)%nat then works x' = true else calls x' = true) → batch_ok x' →
  (∀ e, e ∈ run_queue_ s' → filled e = false → fiber e ∈ filling x' ∨ fiber e ∉ filling x ∧ ∃ e0, e0 ∈ run_queue_ s ∧ fiber e0 = fiber e ∧ filled e0 = false) →
  (NoDup (fiber <$> run_queue_ s') ∧ ∀ f, f ∈ fiber <$> run_queue_ s' → (f ∈ fiber <$> run_queue_ s ∨ f ∈ carried x) ∧ f ∉ carried x' ∧ fibers s' !! f = Some Ready) →
  (NoDup (carried x') ∧ (∀ f, f ∈ carried x' → f ∈ carried x ∨ f ∈ fiber <$> run_queue_ s ∨ loose (fibers s !! f)) ∧
    (∀ f, f ∈ held x' → fibers s' !! f = Some Running) ∧ (∀ f, f ∈ unpushed x' → fibers s' !! f = Some Ready)) →
  (∀ f, fibers s' !! f ≠ fibers s !! f → f ∈ carried x ∨ f ∈ fiber <$> run_queue_ s ∨ loose (fibers s !! f)) →
  (committed x' = true ∨ committed x = false ∧ run_queue_ s' = run_queue_ s) →
  (∀ f, (fibers s' !! f = Some Ready → f ∈ fiber <$> run_queue_ s' ∨ f ∈ unpushed x' ∨ fibers s !! f = Some Ready ∧ f ∉ fiber <$> run_queue_ s ∧ f ∉ unpushed x) ∧
    (fibers s' !! f = Some Running → f ∈ held x' ∨ fibers s !! f = Some Running ∧ f ∉ held x)) →
  move s s' i x x'.
Proof.
  intros Hinv Hx Hp Hp' Ht Hsl Hm1 Hm2 Hst Hpl Hb Hfl Hq Hc Hf Haw Hkept. destruct (plain_spec x Hp) as (P1 & P2 & _ & _ & P5 & P6 & _ & _ & _ & P9 & _).
  destruct (plain_spec x' Hp') as (_ & _ & Q3 & Q4 & Q5 & _ & Q7 & Q8 & Q9 & _ & Q11). split; try done; rewrite ?Hsl, ?Hm1, ?Hm2, ?Hst; try done.
  - apply (spinning_same s i _ _ Hinv Hx). by rewrite P1.
  - destruct (sleeping_same s i x x' Hinv Hx) as (H0 & _ & H1); [by rewrite P2|]. split; [done|]. intros w Hw. destruct (decide (w = i)) as [-> |]; auto.
  - intros v Hv. by destruct (Q11 v).
  - rewrite Q8. done.
  - intros w c Hne Hw. exists c. rewrite P6. split_and!; [done|lia|by intros [[]%elem_of_nil|[? ?]]|]. intros _ H1. left. auto.
  - intros c Hc0. pose proof (i_slot _ Hinv i c x Hc0 Hx) as H1. rewrite Q5, Q3. split_and!; [lia|done|done].
  - by rewrite Q7.
  - intros Hs Hne. rewrite Q4. destruct Haw as [Hcm|[Hcm Hqe]].
    + right. right. exists i, x'. split; [|done]. rewrite Ht. apply list_lookup_insert_eq. by eapply lookup_lt_Some.
    + left. rewrite <- Hqe, Hcm. done.
Qed.

Lemma Push_inv s i es l : inv s → threads s !! i = Some (Push es l) → let s' := goto i (Fill es (length es)) (set_queue (run_queue_ s ++ ((λ f, mkEntry f l false) <$> es)) s) in small s' → inv s'.
Proof.
  intros Hinv Hx s' Hsmall. destruct (i_carried _ Hinv i _ Hx) as (Hn & _ & Hr). pose proof (i_batch _ Hinv i _ Hx) as Hes. cbn in Hn, Hr, Hes. pose proof (i_place _ Hinv i _ Hx) as Hpl.
  assert (Hq : fiber <$> run_queue_ s' = (fiber <$> run_queue_ s) ++ es). { cbn. rewrite fmap_app, <- list_fmap_compose. f_equal. by apply list_fmap_id. }
  eapply move_inv; [done| |done]. apply (move_fibers s s' i (Push es l) (Fill es (length es)) Hinv Hx); try done; rewrite ?Hq; auto.
  - cbn. destruct es; [done|cbn; lia].
  - cbn. intros e [He|He]%elem_of_app Hun; [right; split; [by intros []%elem_of_nil|eauto]|]. left. apply list_elem_of_fmap in He as (f & -> & Hf). done.
  - split.
    + apply NoDup_app. split_and!; [apply (i_queue _ Hinv)| |done]. intros f Hf. by apply (proj2 (i_ready _ Hinv f Hf) i _ Hx).
    + intros f [Hf|Hf]%elem_of_app; (split_and!; [auto|by intros []%elem_of_nil|]); [by apply (i_ready _ Hinv)|by apply Hr].
  - cbn. split_and!; [constructor|by intros f []%elem_of_nil..].
  - intros f. cbn. rewrite elem_of_app. split; [destruct (decide (f ∈ fiber <$> run_queue_ s)), (decide (f ∈ es)); tauto|]. right. split; [done|by intros []%elem_of_nil].
Qed.

Lemma fill_fibers f q : fiber <$> fill f q = fiber <$> q.
Proof. unfold fill. rewrite <- list_fmap_compose. apply list_fmap_ext. intros k e _. cbn. by destruct (decide (fiber e = f)). Qed.

Lemma Fill_inv s i f es n : inv s → threads s !! i = Some (Fill (f :: es) n) → let s' := goto i (Fill es n) (set_queue (fill f (run_queue_ s)) s) in small s' → inv s'.
Proof.
  intros Hinv Hx s' Hsmall. pose proof (i_batch _ Hinv i _ Hx) as Hn. pose proof (i_place _ Hinv i _ Hx) as Hpl. assert (Hq : fiber <$> run_queue_ s' = fiber <$> run_queue_ s) by apply fill_fibers.
  eapply move_inv; [done| |done]. apply (move_fibers s s' i (Fill (f :: es) n) (Fill es n) Hinv Hx); try done; rewrite ?Hq; auto.
  - cbn. unfold fill. intros e (e0 & -> & He0)%list_elem_of_fmap Hun. destruct (decide (fiber e0 = f)) as [|Hne]; [done|]. destruct (decide (fiber e0 ∈ es)); [auto|]. right. split; [|eauto]. by intros [?|?]%elem_of_cons.
  - split; [apply (i_queue _ Hinv)|]. intros g Hg. destruct (i_ready _ Hinv g Hg) as [Hr Hno]. split_and!; [auto|by intros []%elem_of_nil|done].
  - cbn. split_and!; [constructor|by intros g []%elem_of_nil..].
  - intros g. cbn. split; intros Hg; [destruct (decide (g ∈ fiber <$> run_queue_ s)); [auto|]; right|]; right; split_and!; done || by intros []%elem_of_nil.
Qed.

(** Fibers become ready that nobody else has. *)
Lemma make_ready_inv s i x x' es fs : (∃ l, x' = Queue es l ∨ x' = Push es l) → inv s → threads s !! i = Some x → (x = Outside ∧ Forall (λ f, loose (fibers s !! f)) es ∨ ∃ f, x = Run f ∧ es = [f]) → NoDup es → es ≠ [] →
  (∀ f, f ∈ es → fs !! f = Some Ready) → (∀ f, f ∉ es → fs !! f = fibers s !! f) → let s' := goto i x' (set_fibers fs s) in small s' → inv s'.
Proof.
  intros Hx' Hinv Hx Hor Hn Hne Hin Hout s' Hsmall. pose proof (i_place _ Hinv i _ Hx) as Hpl.
  assert (Hes : ∀ f, f ∈ es → f ∈ carried x ∨ loose (fibers s !! f)). { intros f Hf. destruct Hor as [[-> Hl]|(g & -> & ->)]; [right; by eapply Forall_forall in Hl|left; done]. }
  assert (Hp : plain x = true ∧ committed x = false ∧ filling x = []) by (by destruct Hor as [[-> _]|(g & -> & _)]). destruct Hp as (Hp & Hcm & Hfl).
  assert (Hp' : plain x' = true ∧ held x' = [] ∧ unpushed x' = es ∧ batch_ok x' ∧ works x' = true ∧ calls x' = true) by (by destruct Hx' as (l & [-> | ->])).
  destruct Hp' as (Hp' & Hh & Hu & Hb & Hw & Hcl). unfold carried in *.
  eapply move_inv; [done| |done]. apply (move_fibers s s' i x x' Hinv Hx); try done; unfold carried; rewrite ?Hh, ?Hu; auto.
  - by destruct (i <? group_size_ s)%nat.
  - cbn. intros e He Hun. right. rewrite Hfl. split; [by intros []%elem_of_nil|eauto].
  - cbn. split; [apply (i_queue _ Hinv)|]. intros f Hf. destruct (i_ready _ Hinv f Hf) as [Hr Hno]. assert (f ∉ es). { intros Hf'. destruct (Hes f Hf') as [Hc|[? | ?]]; [by eapply Hno|congruence..]. }
    split_and!; [auto|done|]. by rewrite Hout.
  - cbn. split_and!; [done| |by intros f []%elem_of_nil|done]. intros f Hf. destruct (Hes f Hf); auto.
  - cbn. intros f Hd. destruct (decide (f ∈ es)) as [Hf|Hf]; [destruct (Hes f Hf); auto|]. by rewrite Hout in Hd.
  - intros f. cbn. destruct (decide (f ∈ es)) as [Hf|Hf]; [split; [auto|by rewrite (Hin f Hf)]|]. rewrite (Hout f Hf). split; intros Hr.
    + destruct (decide (f ∈ fiber <$> run_queue_ s)); [auto|]. right. right. destruct Hor as [[-> _]|(g & -> & _)]; (split_and!; [done..|by intros []%elem_of_nil]).
    + right. split; [done|]. destruct Hor as [[-> _]|(g & -> & ->)]; [by intros []%elem_of_nil|done].
Qed.

(** A worker lets go of its fiber, or gets one of another group. *)
Lemma let_go_inv s i f fs : inv s → threads s !! i = Some (Run f) → fs !! f ≠ Some Ready → fs !! f ≠ Some Running → (∀ g, g ≠ f → fs !! g = fibers s !! g) → let s' := goto i (Pop At_proc) (set_fibers fs s) in small s' → inv s'.
Proof.
  intros Hinv Hx Hn1 Hn2 Hout s' Hsmall. pose proof (i_place _ Hinv i _ Hx) as Hpl. eapply move_inv; [done| |done]. apply (move_fibers s s' i (Run f) (Pop At_proc) Hinv Hx); try done; auto.
  - cbn. intros e He Hun. right. split; [by intros []%elem_of_nil|eauto].
  - cbn. split; [apply (i_queue _ Hinv)|]. intros g Hg. destruct (i_ready _ Hinv g Hg) as [Hr Hno]. split_and!; [auto|by intros []%elem_of_nil|]. rewrite Hout; [done|]. intros ->. apply (Hno i _ Hx). by left.
  - cbn. split_and!; [constructor|by intros g []%elem_of_nil..].
  - cbn. intros g Hd. destruct (decide (g = f)) as [-> |]; [left; by left|]. by rewrite Hout in Hd.
  - intros g. cbn. destruct (decide (g = f)) as [-> |Hne]; [done|]. rewrite (Hout g Hne). split; intros Hg; [destruct (decide (g ∈ fiber <$> run_queue_ s)); [auto|]; right; right|right].
    + split_and!; [done..|by intros []%elem_of_nil].
    + split; [done|]. by intros ?%list_elem_of_singleton.
Qed.

Lemma steal_inv s i f : inv s → threads s !! i = Some Steal → fibers s !! f = None → let s' := goto i (Run f) (set_fibers (<[f := Running]> (fibers s)) s) in small s' → inv s'.
Proof.
  intros Hinv Hx Hf s' Hsmall. pose proof (i_place _ Hinv i _ Hx) as Hpl. eapply move_inv; [done| |done]. apply (move_fibers s s' i Steal (Run f) Hinv Hx); try done; auto.
  - cbn. intros e He Hun. right. split; [by intros []%elem_of_nil|eauto].
  - cbn. split; [apply (i_queue _ Hinv)|]. intros g Hg. destruct (i_ready _ Hinv g Hg) as [Hr Hno]. assert (g ≠ f) by congruence. split_and!; [auto|by intros ?%list_elem_of_singleton|]. by rewrite lookup_insert_ne.
  - cbn. split_and!; [apply NoDup_singleton| |intros g ->%list_elem_of_singleton; by rewrite lookup_insert_eq|by intros g []%elem_of_nil]. intros g ->%list_elem_of_singleton. right. right. by left.
  - cbn. intros g Hd. destruct (decide (g = f)) as [-> |]; [right; right; by left|]. by rewrite lookup_insert_ne in Hd.
  - intros g. cbn. destruct (decide (g = f)) as [-> |Hne]; [rewrite lookup_insert_eq; split; [done|left; by left]|]. rewrite lookup_insert_ne by done.
    split; intros Hg; [destruct (decide (g ∈ fiber <$> run_queue_ s)); [auto|]; right|]; right; split_and!; done || by intros []%elem_of_nil.
Qed.

Lemma remote_inv s e q : inv s → run_queue_ s = e :: q → inv (set_queue q (set_fibers (delete (fiber e) (fibers s)) s)).
Proof.
  intros Hinv Hq. pose proof (i_queue _ Hinv) as Hnd. rewrite Hq in Hnd. apply NoDup_cons in Hnd as [Hnew Hnd].
  assert (Hin : ∀ f, f ∈ fiber <$> q → f ∈ fiber <$> run_queue_ s) by (intros f Hf; rewrite Hq; by right).
  destruct (i_ready _ Hinv (fiber e)) as [_ Hno]; [rewrite Hq; by left|]. split; try apply Hinv; cbn; [|done|..].
  - intros e0 He Hun. apply (i_filling _ Hinv e0); [rewrite Hq; by right|done].
  - intros f Hf. rewrite lookup_delete_ne by (intros Heq; by subst f). by apply (i_ready _ Hinv), Hin.
  - intros i x Hx. destruct (i_carried _ Hinv i x Hx) as (H1 & H2 & H3). split_and!; [done| |]; intros f Hf; (rewrite lookup_delete_ne; [auto|]); intros Heq; subst f; apply (Hno i x Hx), elem_of_app; auto.
  - intros Hs _. apply (i_awake _ Hinv Hs). by rewrite Hq.
  - intros f. destruct (i_kept _ Hinv f) as [H1 H2]. rewrite Hq in H1. destruct (decide (f = fiber e)) as [-> |]; [by rewrite lookup_delete_eq|]. rewrite lookup_delete_ne by done. split; [|done].
    intros Hf. destruct (H1 Hf) as [[?|?]%elem_of_cons|?]; [done|auto..].
Qed.

(** ** All steps *)

Lemma frame_inv b s C i k : inv s → frame C → threads s !! i = Some (C k) → (∀ b, k ≠ Woken b) → ∃ s', ('(k', s1) ←! wake_step b k s; Ret (goto i (C k') s1)) = Ret s' ∧ (small s' → inv s').
Proof. intros Hinv HC Hx Hk. destruct (wake_step_inv b s C i k Hinv HC Hx Hk) as (k' & s1 & -> & H). by eexists. Qed.

Lemma called_inv s i x : inv s → threads s !! i = Some x → ((∃ b, x = Waking (Woken b)) ∨ ∃ j, x = Stop_count j) → inv (goto i (called i s) s).
Proof.
  intros Hinv Hx Hor. pose proof (i_small _ Hinv) as Hsmall. unfold called. assert (Hc : calls x = true) by (by destruct Hor as [[? ->]|[? ->]]).
  destruct (i <? group_size_ s)%nat eqn:Hi; destruct Hor as [[ok ->]|[j ->]]; local_move; rewrite Hi; done.
Qed.

Lemma fill_end_inv s i n : inv s → threads s !! i = Some (Fill [] n) → inv (goto i (Waking (WakeUpWorkers n)) s).
Proof.
  intros Hinv Hx. pose proof (i_small _ Hinv) as Hsmall. pose proof (i_place _ Hinv i _ Hx) as Hpl. pose proof (i_batch _ Hinv i _ Hx) as Hn. cbn in Hn. unfold WakeUpWorkers.
  destruct (Nat.eqb_spec n 1); local_move; intros k [= <-]; cbn; [done|lia].
Qed.

(** A step that needs nothing but the invariant. *)
Ltac by_inv H := intros [= <-]; eexists; split; [reflexivity|]; intros Hsmall; eapply H; eauto.
Ltac by_local := intros [= <-]; eexists; split; [reflexivity|]; intros Hsmall; repeat match goal with |- context [if ?b then _ else _] => destruct b eqn:? end; local_move.

Lemma group_next_inv NDEBUG b i s o : inv s → legal NDEBUG (Go b i) s → next NDEBUG b i s = Some o → ∃ s', o = Ret s' ∧ (small s' → inv s').
Proof.
  intros Hinv Hle. cbn in Hle. unfold next. destruct (threads s !! i) as [x|] eqn:Hx; [|done]. pose proof (i_place _ Hinv i _ Hx) as Hpl. pose proof (i_leaves _ Hinv i _ Hx) as Hlv.
  destruct x; try done; cbn zeta; try (solve [by_local]).
  - intros [= <-]. by apply AcquireFiber_inv.
  - by_inv Load_stopped_inv.
  - by_inv Spin_load_inv.
  - intros [= <-]. destruct (i_cas _ Hinv i _ Hx) as [Hno _]. unfold in_mask in Hno. apply not_true_is_false in Hno as ->. destruct (negb b && _) eqn:Hw; eexists; (split; [reflexivity|]); intros _.
    + apply andb_true_iff in Hw as [_ Hw%Z.eqb_eq]. by apply Spin_cas_inv.
    + eapply Spin_load_inv; eauto.
  - by_local. all: by intros ? [= <-].
  - destruct k; try (intros <-%(inj Some); apply (frame_inv b s Spin_wake); [done|constructor|done|done]). by_local.
  - by_inv Spin_clear_inv.
  - destruct r; by_local.
  - destruct r; by_local.
  - intros [= <-]. pose proof (not_sleeping _ _ _ Hinv Hx eq_refl) as Hno. unfold in_mask in Hno. apply not_true_is_false in Hno as ->. eexists. split; [reflexivity|]. intros _. by apply Wait_or_inv.
  - by_inv Wait_and_inv. destruct (Z.testbit _ _); eauto 6.
  - destruct k; try (intros <-%(inj Some); apply (frame_inv b s (Wait_wake r)); [done|constructor|done|done]). by_local.
  - by_inv Wait_and_inv.
  - intros [= <-]. by apply Wait_sub_inv.
  - intros [= <-]. by apply Wait_futex_inv.
  - intros [= <-]. by apply Wait_load_inv.
  - intros [= <-]. by apply Wait_check_inv.
  - by_inv Wait_and_inv.
  - assert (negb NDEBUG && stopped_ s = false) as -> by (destruct Hle as [-> | ->]; [done|apply andb_false_r]). by_local. apply (i_batch _ Hinv i _ Hx).
  - intros [= <-]. eexists. split; [reflexivity|]. destruct b; [by apply Push_inv|done].
  - destruct es; [by_inv fill_end_inv|by_inv Fill_inv].
  - destruct k; try (intros <-%(inj Some); apply (frame_inv b s Waking); [done|constructor|done|done]). by_inv called_inv.
  - by_inv Stop_store_inv.
  - intros [= <-]. eexists. split; [reflexivity|]. destruct (Nat.ltb_spec i0 (group_size_ s)); [by apply Stop_count_inv|]. intros _. eapply called_inv; eauto.
  - by_inv Stop_wake_inv.
Qed.

Lemma started_lookup (fs : list nat) (m : gmap nat FiberState) f : foldr (λ f fs, <[f := Ready]> fs) m fs !! f = if decide (f ∈ fs) then Some Ready else m !! f.
Proof.
  induction fs as [|g fs IH]; [by rewrite decide_False by (by intros []%elem_of_nil)|]. cbn [foldr]. destruct (decide (g = f)) as [-> |Hne].
  - rewrite lookup_insert_eq, decide_True; [done|by left].
  - rewrite lookup_insert_ne by done. rewrite IH. destruct (decide (f ∈ fs)); [rewrite decide_True; [done|by right]|]. rewrite decide_False; [done|]. by intros [?|?]%elem_of_cons.
Qed.

(** One fiber becomes ready. *)
Lemma one_ready_inv s i x f l : inv s → threads s !! i = Some x → (x = Outside ∧ loose (fibers s !! f) ∨ x = Run f) → let s' := goto i (Queue [f] l) (set_fibers (<[f := Ready]> (fibers s)) s) in small s' → inv s'.
Proof.
  intros Hinv Hx Hor. apply (make_ready_inv s i x _ [f] _ (ex_intro _ l (or_introl eq_refl)) Hinv Hx); [|apply NoDup_singleton|done| |].
  - destruct Hor as [[-> ?]| ->]; [left|right; by exists f]. split; [done|]. by apply Forall_singleton.
  - intros g ->%list_elem_of_singleton. by rewrite lookup_insert_eq.
  - intros g Hg. rewrite lookup_insert_ne; [done|]. intros ->. by destruct Hg; left.
Qed.

Lemma start_fibers_inv s i fs : inv s → threads s !! i = Some Outside → NoDup fs → fs ≠ [] → Forall (λ f, fibers s !! f = None) fs →
  let s' := goto i (Push fs false) (set_fibers (foldr (λ f fs, <[f := Ready]> fs) (fibers s) fs) s) in small s' → inv s'.
Proof.
  intros Hinv Hx Hn Hne Hf. apply (make_ready_inv s i Outside _ fs _ (ex_intro _ false (or_intror eq_refl)) Hinv Hx); [|done..| |].
  - left. split; [done|]. eapply Forall_impl; [exact Hf|]. intros f ?. by left.
  - intros f ?. rewrite started_lookup. by rewrite decide_True.
  - intros f ?. rewrite started_lookup. by rewrite decide_False.
Qed.

Lemma group_step_inv NDEBUG e s o : inv s → legal NDEBUG e s → step NDEBUG e s = Some o → ∃ s', o = Ret s' ∧ (small s' → inv s').
Proof.
  intros Hinv Hle. destruct e as [b i|i|i f l|i fs|i f l|i|i|i l|i|i f| |i|i]; cbn [step]; [by apply group_next_inv|..|destruct (run_queue_ s) as [|e q] eqn:Hq; [done|]|done|done]; try (destruct (threads s !! i) as [[]|] eqn:Hx; try done).
  - by_inv unblock_inv.
  - case_decide; [|done]. by_inv one_ready_inv. left. split; [done|]. by left.
  - case_decide as Hd; [|done]. destruct Hd as (? & ? & ?). by_inv start_fibers_inv.
  - case_decide; [|done]. by_inv one_ready_inv. left. split; [done|]. by right.
  - pose proof (i_place _ Hinv i _ Hx). by_local.
  - rewrite decide_True by (apply (i_carried _ Hinv i _ Hx); by left). by_inv let_go_inv; [by rewrite lookup_insert_eq..|]. intros. by rewrite lookup_insert_ne.
  - by_inv one_ready_inv.
  - by_inv let_go_inv; [by rewrite lookup_insert_eq..|]. intros. by rewrite lookup_insert_ne.
  - case_decide; [|done]. by_inv steal_inv.
  - destruct (filled e && negb (local e)); [|done]. rewrite decide_True by (apply (i_ready _ Hinv); rewrite Hq; by left). by_inv remote_inv.
Qed.

Lemma group_new_inv size others : (1 ≤ size ≤ 31)%nat → inv (SchedulingGroup_new size others).
Proof.
  intros Hsize. set (s := SchedulingGroup_new size others). assert (Hgs : group_size_ s = size) by apply length_replicate.
  assert (Hth : ∀ i x, threads s !! i = Some x → x = if (i <? size)%nat then Pop At_proc else Outside).
  { intros i x. cbn [s SchedulingGroup_new threads]. rewrite lookup_app_Some, !lookup_replicate, length_replicate. destruct (Nat.ltb_spec i size); intros [[-> ?]|[? [-> ?]]]. all: try done. all: lia. }
  assert (Hpc : ∀ i x, threads s !! i = Some x → x = Pop At_proc ∨ x = Outside) by (intros i x ->%Hth; destruct (i <? size)%nat; auto).
  split; rewrite ?Hgs; try done.
  - split; [done|]. cbn. rewrite length_app, !length_replicate. lia.
  - apply Forall_replicate. lia.
  - intros i x ->%Hth. by destruct (i <? size)%nat.
  - split_and!; [done| |by intros w []%in_zero]. vm_compute. done.
  - split; [done|]. by intros w []%in_zero.
  - intros i v Hv. by destruct (Hpc _ _ Hv).
  - intros i x k Hx. by destruct (Hpc _ _ Hx) as [-> | ->].
  - intros i x Hx. by destruct (Hpc _ _ Hx) as [-> | ->].
  - intros w c x Hc Hx. cbn in Hc. apply lookup_replicate in Hc as [-> _]. by destruct (Hpc _ _ Hx) as [-> | ->].
  - intros w c x _ Hx. by destruct (Hpc _ _ Hx) as [-> | ->].
  - intros w c _ Hx. by destruct (Hpc _ _ Hx).
  - by intros e []%elem_of_nil.
  - constructor.
  - by intros f []%elem_of_nil.
  - intros i x Hx. destruct (Hpc _ _ Hx) as [-> | ->]; (split_and!; [constructor|by intros f []%elem_of_nil..]).
  - intros i j x y f Hx _ Hf. destruct (Hpc _ _ Hx) as [-> | ->]; by apply elem_of_nil in Hf.
  - intros i x Hx. by destruct (Hpc _ _ Hx) as [-> | ->].
Qed.

(** What fails ends the program. *)
Lemma returns_legal NDEBUG e s s' : step NDEBUG e s = Some (Ret s') → legal NDEBUG e s.
Proof.
  destruct e as [b i|i|i f l|i fs|i f l|i|i|i l|i|i f| |i|i]; cbn; try done; unfold next; repeat case_match; try done.
  intros _. destruct NDEBUG, (stopped_ s); auto.
Qed.

Lemma group_reachable_inv NDEBUG size s : (1 ≤ size ≤ 31)%nat → reachable NDEBUG size s → inv s.
Proof. intros Hsize. induction 1 as [others|e s s' _ IH Hstep Hsmall]; [by apply group_new_inv|]. destruct (group_step_inv NDEBUG e s _ IH (returns_legal _ _ _ _ Hstep) Hstep) as (s1 & [= <-] & H). auto. Qed.

(** All workers sleep. *)
Lemma all_asleep s : inv s → stopped_ s = false → (∀ i x, threads s !! i = Some x → x = Blocked ∨ x = Outside) → run_queue_ s = [].
Proof.
  intros Hinv Hst Hall. destruct (run_queue_ s) as [|e q] eqn:Hq; [done|]. exfalso.
  destruct (i_awake _ Hinv Hst) as [(w & x & Hw & Hx & Ha)|(i & y & Hy & Hc)]; [by rewrite Hq| |by destruct (Hall _ _ Hy) as [-> | ->]].
  destruct (Hall _ _ Hx) as [-> | ->]; [|pose proof (i_place _ Hinv w _ Hx) as Hpl; by rewrite (proj2 (Nat.ltb_lt _ _) Hw) in Hpl].
  destruct (own_slot _ _ _ Hinv Hx eq_refl) as (c & Hc & _). destruct (i_owed _ Hinv w c _ Hc Hx eq_refl) as [H2|(i & y & Hy & Hin)].
  - intros Hin. by apply Ha.
  - cbn in H2. destruct (i_roused _ Hinv w c Hc Hx) as (i & y & Hy & Hro); [lia|]. by destruct (Hall _ _ Hy) as [-> | ->].
  - destruct (Hall _ _ Hy) as [-> | ->]; by apply elem_of_nil in Hin.
Qed.

(** C27: With at most 31 workers, whatever threads and fibers do and in whatever order: no
    step of the group ends in undefined behaviour or in a failed check, as long as the
    contract of [legal] is kept, at most two workers spin, no fiber is run by two workers
    at once or run while it is in the queue, a fiber that is run is in state Running, and
    the queue holds each fiber once, in state Ready.  The contract is that no fiber is made
    ready when the group was stopped (which [QueueRunnableEntity] checks in a build
    without [NDEBUG], see [ready_after_stop]), that a push which finds no room finds some
    within five seconds, and that the futex system calls do not fail (also not by a
    signal): the program ends otherwise.  The counts of the slots stay below 2^31 - 1. *)
Theorem SchedulingGroup_safe NDEBUG size s : (1 ≤ size ≤ 31)%nat → reachable NDEBUG size s →
  (∀ e o, legal NDEBUG e s → step NDEBUG e s = Some o → ∃ s', o = Ret s') ∧
  CountNonZeros (spinning_workers_ s) ≤ kMaximumSpinners ∧
  (∀ i j f, threads s !! i = Some (Run f) → threads s !! j = Some (Run f) → i = j) ∧
  (∀ i f, threads s !! i = Some (Run f) → fibers s !! f = Some Running ∧ f ∉ fiber <$> run_queue_ s) ∧
  NoDup (fiber <$> run_queue_ s) ∧ ∀ f, f ∈ fiber <$> run_queue_ s → fibers s !! f = Some Ready.
Proof.
  intros Hsize Hr. pose proof (group_reachable_inv NDEBUG size s Hsize Hr) as Hinv. split_and!.
  - intros e o Hle Ho. destruct (group_step_inv NDEBUG e s o Hinv Hle Ho) as (s' & ? & _). eauto.
  - apply (i_spinning _ Hinv).
  - intros i j f Hi Hj. by eapply (i_once _ Hinv i j _ _ f Hi Hj); left.
  - intros i f Hi. split; [apply (i_carried _ Hinv i _ Hi); by left|]. intros Hf. apply (proj2 (i_ready _ Hinv f Hf) i _ Hi). by left.
  - apply (i_queue _ Hinv).
  - intros f Hf. by apply (i_ready _ Hinv).
Qed.

(** C28: The workers, at most 31 of them, never all sleep while a fiber is ready: when the
    group has not been stopped, no call is under way and all workers sleep, the queue is
    empty and every fiber waits for something or has finished.  (A single wake-up can be
    lost while another worker runs, see [StartFibers_wakes_nobody]: the fibers then wait
    for that worker.) *)
Theorem SchedulingGroup_no_lost_wakeup NDEBUG size s : (1 ≤ size ≤ 31)%nat → reachable NDEBUG size s → stopped_ s = false →
  (∀ i x, threads s !! i = Some x → x = Blocked ∨ x = Outside) → run_queue_ s = [] ∧ ∀ f st, fibers s !! f = Some st → st = Waiting ∨ st = Dead.
Proof.
  intros Hsize Hr Hst Hall. pose proof (group_reachable_inv NDEBUG size s Hsize Hr) as Hinv. pose proof (all_asleep s Hinv Hst Hall) as Hq. split; [done|].
  intros f st Hf. destruct (i_kept _ Hinv f) as [H1 H2]. destruct st; [| |auto..].
  - destruct (H1 Hf) as [Hin|(i & x & Hx & Hin)]; [rewrite Hq in Hin|destruct (Hall _ _ Hx) as [-> | ->]]; by apply elem_of_nil in Hin.
  - destruct (H2 Hf) as (i & x & Hx & Hin). destruct (Hall _ _ Hx) as [-> | ->]; by apply elem_of_nil in Hin.
Qed.

(** *** Four workers and one other thread *)

#[export] Instance small_slots_dec s : Decision (small s).
Proof. unfold small. apply _. Defined.

Definition stepped_slots (e : event) s : option state := match step false e s with Some (Ret s') => if decide (small s') then Some s' else None | _ => None end.

Lemma group_run_reachable size es s : reachable false size s → reachable false size (default s (run_steps stepped_slots es s)).
Proof.
  apply run_steps_ind. intros e s1 s2 Hr Hs. unfold stepped_slots in Hs. destruct (step false e s1) as [[s'| | | |]|] eqn:E; try done. case_decide; simplify_eq. by eapply reachable_step.
Qed.

Definition go (b : bool) (n i : nat) : list event := replicate n (Go b i).

(** A worker finds nothing, spins, gives up and sleeps. *)
Definition fall_asleep i : list event := go false 8 i ++ go true 1 i ++ go false 9 i.

(** Worker 1 runs fiber 9, the others sleep. *)
Definition one_runs : state :=
  default (SchedulingGroup_new 4 1) (run_steps stepped_slots
    ([StartFiber 4 9 false] ++ go true 7 4 ++ go false 1 1 ++ fall_asleep 0 ++ fall_asleep 2 ++ fall_asleep 3)%nat (SchedulingGroup_new 4 1)).
(** It halts its fiber and sleeps, too. *)
Definition none_runs : state := default one_runs (run_steps stepped_slots ([Halt 1] ++ fall_asleep 1)%nat one_runs).
(** The fiber is made ready again: worker 0 is woken and runs it. *)
Definition runs_again : state := default none_runs (run_steps stepped_slots ([ReadyFiber 4 9 false] ++ go true 11 4 ++ go false 4 0)%nat none_runs).

Lemma one_runs_reachable : reachable false 4 one_runs.
Proof. apply group_run_reachable, reachable_new. Qed.
Lemma none_runs_reachable : reachable false 4 none_runs.
Proof. apply group_run_reachable, one_runs_reachable. Qed.
Lemma runs_again_reachable : reachable false 4 runs_again.
Proof. apply group_run_reachable, none_runs_reachable. Qed.

Lemma SchedulingGroup_safe_witness :
  threads runs_again = [Run 9; Blocked; Blocked; Blocked; Outside]%nat ∧ fibers runs_again !! 9%nat = Some Running ∧ (∀ j, threads runs_again !! j = Some (Run 9) → 0%nat = j).
Proof.
  destruct (SchedulingGroup_safe false 4 runs_again ltac:(lia) runs_again_reachable) as (_ & _ & H1 & H2 & _).
  assert (H0 : threads runs_again !! 0%nat = Some (Run 9)) by (vm_compute; reflexivity).
  split; [vm_compute; reflexivity|]. split; [apply (H2 0%nat 9%nat H0)|]. intros j. apply (H1 0%nat j 9%nat H0).
Defined.

Lemma SchedulingGroup_no_lost_wakeup_witness :
  threads none_runs = [Blocked; Blocked; Blocked; Blocked; Outside] ∧ fibers none_runs !! 9%nat = Some Waiting ∧ run_queue_ none_runs = [].
Proof.
  assert (H0 : threads none_runs = [Blocked; Blocked; Blocked; Blocked; Outside]) by (vm_compute; reflexivity).
  split; [exact H0|]. split; [vm_compute; reflexivity|].
  assert (H1 : ∀ i x, threads none_runs !! i = Some x → x = Blocked ∨ x = Outside).
  { rewrite H0. intros i x Hx%list_elem_of_lookup_2. rewrite !elem_of_cons, elem_of_nil in Hx. tauto. }
  assert (H2 : stopped_ none_runs = false) by (vm_compute; reflexivity).
  exact (proj1 (SchedulingGroup_no_lost_wakeup false 4 none_runs ltac:(lia) none_runs_reachable H2 H1)).
Defined.

(** [WakeUpWorkers] takes the bit above the lowest one out of the mask: with worker 1 at
    work, two new fibers wake none of the three workers that sleep. *)
Example StartFibers_wakes_nobody :
  let s := default one_runs (run_steps stepped_slots ([StartFibers 4 [10; 11]] ++ go true 4 4 ++ go false 4 4)%nat one_runs) in
  threads s = [Blocked; Run 9; Blocked; Blocked; Outside]%nat ∧ (fiber <$> run_queue_ s) = [10; 11]%nat ∧ (filled <$> run_queue_ s) = [true; true].
Proof. vm_compute. done. Qed.

(** With more than 32 workers [1 << i] is undefined. *)
Example many_workers :
  let s := default (SchedulingGroup_new 33 1) (run_steps stepped_slots ([StartFibers 33 (seq 0 33)] ++ go true 36 33)%nat (SchedulingGroup_new 33 1)) in
  threads s !! 33%nat = Some (Waking Batch_all) ∧ step true (Go false 33) s = Some Undef.
Proof. vm_compute. done. Qed.

(** A fiber that is made ready after [Stop]. *)
Example ready_after_stop :
  let s := default none_runs (run_steps stepped_slots ([Stop 4] ++ go false 10 4 ++ [ReadyFiber 4 9 false])%nat none_runs) in
  stopped_ s = true ∧ threads s !! 4%nat = Some (Queue [9%nat] false) ∧ step false (Go true 4) s = Some Abort.
Proof. vm_compute. done. Qed.

End SchedulingGroup.
