(* ===== verification/Descriptor.v ===== *)
(** * Descriptors and their event loop: flare/io/descriptor.{h,cc}, flare/io/event_loop.{h,cc}

    A descriptor is polled by one event loop.  For each kind of event a fiber is
    started that calls [OnReadable] or [OnWritable] until the events are used up;
    [Kill] may be called by anybody at any time; [OnCleanup] is to be called once,
    when the descriptor is out of the loop and no other callback runs or will run.
    All this is done with counters, without a lock: who finds all of them at zero
    after the descriptor is disabled posts the task that cleans up.

    A step of the model is one operation on memory that several threads access;
    what only the thread of the event loop accesses goes with the step before.
    [threads] has the fibers and the callers of [Kill], [RestartReadIn],
    [RestartWriteIn] and [WaitForCleanup].  What [epoll_wait] reports and what the
    callbacks return is an input.  A delayed restart (by a timer) is a caller that
    takes its time.  The code for reading and for writing is the same up to two
    checks and is written once, with the direction as a parameter.

    The memory of the descriptor goes with the last reference: to touch it
    afterwards is undefined behaviour, and its destructor checks that it is disabled.

    [Descriptor_safe] says that no check fails and no freed descriptor is touched,
    and what holds when [OnCleanup] is called; [Descriptor_progress] that it is
    called. *)

From S2P Require Import Prelude.

Definition EPOLLIN : Z := 1.
Definition EPOLLOUT : Z := 4.
Definition kEpollError : Z := 8.
Definition kExtraEpollFlags : Z := 2 ^ 31.

Module Descriptor.

Inductive CleanupReason := NoReason | HandshakeFailed | Disconnect | UserInitiated | Closing | Error.
Inductive EventAction := Ready | Leaving | Suppress.

#[global] Instance CleanupReason_eq_dec : EqDecision CleanupReason.
Proof. solve_decision. Defined.

(** Reading or writing. *)
Inductive dir := Rd | Wr.
#[global] Instance dir_eq_dec : EqDecision dir.
Proof. solve_decision. Defined.

Definition bit_of (d : dir) : Z := match d with Rd => 0 | Wr => 2 end.

Definition same (d d' : dir) : nat := match d, d' with Rd, Rd | Wr, Wr => 1 | _, _ => 0 end.

(** Where a thread is in [QueueCleanupCallbackCheck]. *)
Inductive check := Q_pending | Q_read | Q_write | Q_error | Q_queue | Q_add.

(** Where a thread is. *)
Inductive pc :=
| F_start (d : dir)            (* started, before the fiber takes a reference *)
| F_call (d : dir)             (* in [OnReadable], [OnWritable] *)
| F_sub (d : dir)              (* before [fetch_sub] *)
| F_leave (d : dir)            (* [Leaving] was returned *)
| F_leave_add (d : dir)
| F_suppress (d : dir)         (* [Suppress] was returned *)
| E_start
| E_call                       (* in [OnError] *)
| E_sub
| F_check (q : check)
| K_cas (reason : CleanupReason)
| K_add
| R_add (d : dir)
| W_wait.

(** The tasks that are posted to the event loop. *)
Inductive task :=
| T_kill
| T_reset (d : dir)
| T_suppress (d : dir)
| T_restart (d : dir)
| T_cleanup.

(** What follows the check in a task. *)
Inductive after := After_kill | After_reset | After_suppress (d : dir).

(** Where the event loop is. *)
Inductive loop_pc :=
| L_wait
| L_fire (err rd wr : bool)
| L_swap
| L_task
| L_disable
| L_pend
| L_store (d : dir) (suppress : bool)
| L_check (q : check) (k : after)
| L_rest (d : dir)
| L_restart (d : dir)
| L_clean_read
| L_clean_write
| L_clean_error
| L_detach
| L_complete.

Record state := mkDesc {
  read_events_ : Z;
  write_events_ : Z;
  restart_read_count_ : Z;
  restart_write_count_ : Z;
  error_events : Z;
  error_seen : bool;
  cleanup_pending_ : bool;
  cleanup_queued : bool;
  cleanup_reason : CleanupReason;
  cleanup_completed : bool;
  event_mask : Z;
  enabled : bool;
  refs : Z;
  tasks_ : list task;
  cbs : list task;
  threads : gmap nat pc;
  loop : loop_pc;
  cleanups : list CleanupReason;    (* the calls of [OnCleanup] *)
}.

Implicit Types (s : state) (i : nat) (d : dir) (q : check).

(** ** Fields *)

Definition events d s : Z := match d with Rd => read_events_ s | Wr => write_events_ s end.
Definition restart_count d s : Z := match d with Rd => restart_read_count_ s | Wr => restart_write_count_ s end.
Definition armed d s : bool := Z.testbit (event_mask s) (bit_of d).

Definition set_events d (v : Z) s : state :=
  match d with
  | Rd => mkDesc v (write_events_ s) (restart_read_count_ s) (restart_write_count_ s) (error_events s) (error_seen s) (cleanup_pending_ s) (cleanup_queued s) (cleanup_reason s) (cleanup_completed s) (event_mask s) (enabled s) (refs s) (tasks_ s) (cbs s) (threads s) (loop s) (cleanups s)
  | Wr => mkDesc (read_events_ s) v (restart_read_count_ s) (restart_write_count_ s) (error_events s) (error_seen s) (cleanup_pending_ s) (cleanup_queued s) (cleanup_reason s) (cleanup_completed s) (event_mask s) (enabled s) (refs s) (tasks_ s) (cbs s) (threads s) (loop s) (cleanups s)
  end.
Definition set_restart_count d (v : Z) s : state :=
  match d with
  | Rd => mkDesc (read_events_ s) (write_events_ s) v (restart_write_count_ s) (error_events s) (error_seen s) (cleanup_pending_ s) (cleanup_queued s) (cleanup_reason s) (cleanup_completed s) (event_mask s) (enabled s) (refs s) (tasks_ s) (cbs s) (threads s) (loop s) (cleanups s)
  | Wr => mkDesc (read_events_ s) (write_events_ s) (restart_read_count_ s) v (error_events s) (error_seen s) (cleanup_pending_ s) (cleanup_queued s) (cleanup_reason s) (cleanup_completed s) (event_mask s) (enabled s) (refs s) (tasks_ s) (cbs s) (threads s) (loop s) (cleanups s)
  end.
Definition set_error (n : Z) (seen : bool) s : state :=
  mkDesc (read_events_ s) (write_events_ s) (restart_read_count_ s) (restart_write_count_ s) n seen (cleanup_pending_ s) (cleanup_queued s) (cleanup_reason s) (cleanup_completed s) (event_mask s) (enabled s) (refs s) (tasks_ s) (cbs s) (threads s) (loop s) (cleanups s).
Definition set_cleanup (pending queued completed : bool) s : state :=
  mkDesc (read_events_ s) (write_events_ s) (restart_read_count_ s) (restart_write_count_ s) (error_events s) (error_seen s) pending queued (cleanup_reason s) completed (event_mask s) (enabled s) (refs s) (tasks_ s) (cbs s) (threads s) (loop s) (cleanups s).
Definition set_reason (r : CleanupReason) s : state :=
  mkDesc (read_events_ s) (write_events_ s) (restart_read_count_ s) (restart_write_count_ s) (error_events s) (error_seen s) (cleanup_pending_ s) (cleanup_queued s) r (cleanup_completed s) (event_mask s) (enabled s) (refs s) (tasks_ s) (cbs s) (threads s) (loop s) (cleanups s).
Definition SetEventMask (mask : Z) s : state :=
  mkDesc (read_events_ s) (write_events_ s) (restart_read_count_ s) (restart_write_count_ s) (error_events s) (error_seen s) (cleanup_pending_ s) (cleanup_queued s) (cleanup_reason s) (cleanup_completed s) mask (enabled s) (refs s) (tasks_ s) (cbs s) (threads s) (loop s) (cleanups s).
Definition SetEnabled (f : bool) s : state :=
  mkDesc (read_events_ s) (write_events_ s) (restart_read_count_ s) (restart_write_count_ s) (error_events s) (error_seen s) (cleanup_pending_ s) (cleanup_queued s) (cleanup_reason s) (cleanup_completed s) (event_mask s) f (refs s) (tasks_ s) (cbs s) (threads s) (loop s) (cleanups s).
Definition set_refs (n : Z) s : state :=
  mkDesc (read_events_ s) (write_events_ s) (restart_read_count_ s) (restart_write_count_ s) (error_events s) (error_seen s) (cleanup_pending_ s) (cleanup_queued s) (cleanup_reason s) (cleanup_completed s) (event_mask s) (enabled s) n (tasks_ s) (cbs s) (threads s) (loop s) (cleanups s).
Definition set_queue (tasks cbs : list task) s : state :=
  mkDesc (read_events_ s) (write_events_ s) (restart_read_count_ s) (restart_write_count_ s) (error_events s) (error_seen s) (cleanup_pending_ s) (cleanup_queued s) (cleanup_reason s) (cleanup_completed s) (event_mask s) (enabled s) (refs s) tasks cbs (threads s) (loop s) (cleanups s).
Definition set_threads (T : gmap nat pc) s : state :=
  mkDesc (read_events_ s) (write_events_ s) (restart_read_count_ s) (restart_write_count_ s) (error_events s) (error_seen s) (cleanup_pending_ s) (cleanup_queued s) (cleanup_reason s) (cleanup_completed s) (event_mask s) (enabled s) (refs s) (tasks_ s) (cbs s) T (loop s) (cleanups s).
Definition set_loop (l : loop_pc) s : state :=
  mkDesc (read_events_ s) (write_events_ s) (restart_read_count_ s) (restart_write_count_ s) (error_events s) (error_seen s) (cleanup_pending_ s) (cleanup_queued s) (cleanup_reason s) (cleanup_completed s) (event_mask s) (enabled s) (refs s) (tasks_ s) (cbs s) (threads s) l (cleanups s).
Definition OnCleanup (r : CleanupReason) s : state :=
  mkDesc (read_events_ s) (write_events_ s) (restart_read_count_ s) (restart_write_count_ s) (error_events s) (error_seen s) (cleanup_pending_ s) (cleanup_queued s) (cleanup_reason s) (cleanup_completed s) (event_mask s) (enabled s) (refs s) (tasks_ s) (cbs s) (threads s) (loop s) (cleanups s ++ [r]).

(** ** Construction *)

Definition Descriptor_new (event_mask : Z) : state :=
  mkDesc 0 0 (if Z.testbit event_mask (bit_of Rd) then 1 else 0) (if Z.testbit event_mask (bit_of Wr) then 1 else 0)
    0 false false false NoReason false event_mask false 0 [] [] ∅ L_wait [].

Definition Ref s : state := set_refs (refs s + 1) s.

(** The last reference is released: the destructor. *)
Definition Deref s : outcome state :=
  if decide (refs s = 1 ∧ enabled s = true) then Abort else Ret (set_refs (refs s - 1) s).

(** The descriptor is used. *)
Definition touch {A} s (m : outcome A) : outcome A := if decide (0 < refs s) then m else Undef.

Definition EnableDescriptor s : outcome state := if enabled s then Abort else Ret (SetEnabled true s).

Definition AttachDescriptor s : outcome state :=
  EnableDescriptor (SetEventMask (Z.lor (Z.lor (event_mask s) kEpollError) kExtraEpollFlags) (Ref s)).

(** ** Operations of the event loop *)

Definition AddTask (t : task) s : state := set_queue (tasks_ s ++ [t]) (cbs s) s.

Definition DisableDescriptor s : outcome state := if enabled s then Ret (SetEnabled false s) else Abort.

(** The new mask is in force at once: [armed] is what is polled for. *)
Definition RearmDescriptor s : outcome state := if enabled s then Ret s else Abort.

Definition DetachDescriptor s : outcome state := if enabled s then Abort else Deref s.

(** ** Events *)

(** A fiber is started, with a number that is free. *)
Definition StartFiber i (x : pc) s : option state :=
  match threads s !! i with None => Some (set_threads (<[i := x]> (threads s)) s) | Some _ => None end.

(** [FireReadEvent], [FireWriteEvent]. *)
Definition FireEvent d i s : option state :=
  let s' := set_events d (u64 (events d s + 1)) s in
  if decide (events d s = 0) then StartFiber i (F_start d) s' else Some s'.

Definition FireErrorEvent i s : option (outcome state) :=
  if error_seen s then Some (Ret s)
  else if decide (error_events s = 0) then Ret <$> StartFiber i E_start (set_error (u64 (error_events s + 1)) true s)
  else Some Abort.

(** One operation of [QueueCleanupCallbackCheck], and the next one. *)
Definition check_step q s : state * option check :=
  match q with
  | Q_pending => (s, if cleanup_pending_ s then Some Q_read else None)
  | Q_read => (s, if decide (read_events_ s = 0) then Some Q_write else None)
  | Q_write => (s, if decide (write_events_ s = 0) then Some Q_error else None)
  | Q_error => (s, if decide (error_events s = 0) then Some Q_queue else None)
  | Q_queue => (set_cleanup (cleanup_pending_ s) true (cleanup_completed s) s, if cleanup_queued s then None else Some Q_add)
  | Q_add => (AddTask T_cleanup s, None)
  end.

(** ** The fibers and the callers *)

Definition goto i (x : pc) s : outcome state := Ret (set_threads (<[i := x]> (threads s)) s).

(** A thread ends, and gives its reference back. *)
Definition leave i s : outcome state := Deref (set_threads (delete i (threads s)) s).

Definition check_thread i q s : outcome state :=
  let '(s', o) := check_step q s in
  match o with Some q' => goto i (F_check q') s' | None => leave i s' end.

(** One step of thread [i]; [action] is what the callback returns. *)
Definition thread_step i (action : EventAction) s : option (outcome state) :=
  match threads s !! i with
  | None => None
  | Some x =>
      match x with
      | W_wait => if cleanup_completed s then Some (touch s (leave i s)) else None
      | _ => Some (touch s
          match x with
          | F_start d => goto i (F_call d) (Ref s)
          | F_call d => goto i (match action with Ready => F_sub d | Leaving => F_leave d | Suppress => F_suppress d end) s
          | F_sub d => goto i (if decide (events d s = 1) then F_check Q_pending else F_call d) (set_events d (u64 (events d s - 1)) s)
          | F_leave d => if decide (cleanup_reason s = NoReason) then Abort else goto i (F_leave_add d) s
          | F_leave_add d => goto i (F_check Q_pending) (AddTask (T_reset d) s)
          | F_suppress d => goto i (F_check Q_pending) (AddTask (T_suppress d) (Ref s))
          | E_start => goto i E_call (Ref s)
          | E_call => goto i E_sub s
          | E_sub => if decide (error_events s = 1) then goto i (F_check Q_pending) (set_error (error_events s - 1) (error_seen s) s) else Abort
          | F_check q => check_thread i q s
          | K_cas r => if decide (cleanup_reason s = NoReason) then goto i K_add (set_reason r s) else leave i s
          | K_add => leave i (AddTask T_kill (Ref s))
          | R_add d => leave i (AddTask (T_restart d) (Ref s))
          | W_wait => Undef
          end)
      end
  end.

(** ** The event loop *)

Definition begin (t : task) : loop_pc :=
  match t with
  | T_kill => L_disable
  | T_reset d => L_store d false
  | T_suppress d => L_store d true
  | T_restart d => L_restart d
  | T_cleanup => L_clean_read
  end.

(** A task ends, and gives the reference in its closure back. *)
Definition finish s : outcome state := Deref (set_loop L_task s).

(** The rest of [SuppressReadAndClearReadEventCount]. *)
Definition suppress_rest d i s : option (outcome state) :=
  if enabled s then
    let reached := u64 (restart_count d s - 1) in
    let s' := set_restart_count d reached s in
    if match d with Rd => bool_decide (reached ≠ u64 (-1)) | Wr => bool_decide (reached = 0 ∨ reached = 1) end then
      if armed d s then
        if decide (reached = 0)
        then Some (s'' ←! RearmDescriptor (SetEventMask (Z.clearbit (event_mask s') (bit_of d)) s'); finish s'')
        else finish <$> FireEvent d i s'
      else Some Abort
    else Some Abort
  else Some (finish s).

(** The task of [RestartReadNow] and [RestartWriteNow]. *)
Definition restart_now d s : outcome state :=
  if enabled s then
    let count := restart_count d s in
    let s' := set_restart_count d (u64 (count + 1)) s in
    if match d with Rd => true | Wr => bool_decide (count = 0 ∨ count = 1) end then
      if decide (count = 0) then
        if armed d s then Abort
        else s'' ←! RearmDescriptor (SetEventMask (Z.setbit (event_mask s') (bit_of d)) s'); finish s''
      else finish s'
    else Abort
  else finish s.

Definition check_loop q (k : after) s : outcome state :=
  let '(s', o) := check_step q s in
  match o with
  | Some q' => Ret (set_loop (L_check q' k) s')
  | None => match k with After_kill => finish s' | After_reset => Ret (set_loop L_task s') | After_suppress d => Ret (set_loop (L_rest d) s') end
  end.

Definition cleanup_check (n : Z) (l : loop_pc) s : outcome state := if decide (n = 0) then Ret (set_loop l s) else Abort.

Definition cleanup_rest s : outcome state :=
  s' ←! DetachDescriptor (Ref s); Ret (set_loop L_complete (OnCleanup (cleanup_reason s') s')).

(** The events of the descriptor in one round of [RunEventHandlers], one after the other. *)
Definition FireEvents i (err rd wr : bool) s : option (outcome state) :=
  if err then (λ o, s' ←! o; Ret (set_loop L_swap s')) <$> FireErrorEvent i s
  else if rd then (λ s', Ret (set_loop (L_fire false false wr) s')) <$> FireEvent Rd i s
  else if wr then (λ s', Ret (set_loop L_swap s')) <$> FireEvent Wr i s
  else Some (Ret (set_loop L_swap s)).

(** One step of the event loop: [i] is for the fiber that it may start, the rest is
    what [epoll_wait] reports. *)
Definition loop_step i (err rd wr : bool) s : option (outcome state) :=
  match loop s with
  | L_wait => Some (Ret (set_loop (if err || rd || wr then L_fire err rd wr else L_swap) s))
  | L_fire e r w => if decide (0 < refs s) then FireEvents i e r w s else Some Undef
  | L_swap => Some (Ret (set_loop L_task (set_queue [] (tasks_ s) s)))
  | L_task => Some (Ret match cbs s with [] => set_loop L_wait s | t :: cbs' => set_loop (begin t) (set_queue (tasks_ s) cbs' s) end)
  | L_disable => Some (touch s (s' ←! DisableDescriptor s; Ret (set_loop L_pend s')))
  | L_pend => Some (touch s (Ret (set_loop (L_check Q_pending After_kill) (set_cleanup true (cleanup_queued s) (cleanup_completed s) s))))
  | L_store d b => Some (touch s (Ret (set_loop (L_check Q_pending (if b : bool then After_suppress d else After_reset)) (set_events d 0 s))))
  | L_check q k => Some (touch s (check_loop q k s))
  | L_rest d => if decide (0 < refs s) then suppress_rest d i s else Some Undef
  | L_restart d => Some (touch s (restart_now d s))
  | L_clean_read => Some (touch s (cleanup_check (read_events_ s) L_clean_write s))
  | L_clean_write => Some (touch s (cleanup_check (write_events_ s) L_clean_error s))
  | L_clean_error => Some (touch s (cleanup_check (error_events s) L_detach s))
  | L_detach => Some (touch s (cleanup_rest s))
  | L_complete => Some (touch s (finish (set_cleanup (cleanup_pending_ s) (cleanup_queued s) true s)))
  end.

(** ** Interleavings *)

Inductive event :=
| Call_Kill i (r : CleanupReason)
| Call_Restart i d
| Call_Wait i
| Go i (action : EventAction)
| Go_loop i (err rd wr : bool).

(** A caller comes, with a reference. *)
Definition call i (x : pc) s : option (outcome state) := Ret <$> StartFiber i x (Ref s).

Definition step (e : event) s : option (outcome state) :=
  match e with
  | Call_Kill i r => if decide (r = NoReason) then Some Abort else call i (K_cas r) s
  | Call_Restart i d => call i (R_add d) s
  | Call_Wait i => call i W_wait s
  | Go i action => thread_step i action s
  | Go_loop i err rd wr => loop_step i err rd wr s
  end.

(** The tasks in the order in which they run. *)
Definition queue s : list task := cbs s ++ tasks_ s.

(** What is counted: the threads, tasks and places of the loop ... *)
Inductive weight :=
| W_run d         (* ... that use up events *)
| W_sup d         (* ... that are to suppress *)
| W_leave         (* ... that are to check that the descriptor was killed *)
| W_bad           (* ... that are to kill the descriptor without a reason *)
| W_err           (* ... that handle an error *)
| W_kill          (* ... that are to disable the descriptor *)
| W_pend          (* ... that are to set [cleanup_pending_] *)
| W_early         (* ... that are to call [OnCleanup] *)
| W_complete      (* ... that are to set [cleanup_completed] *)
| W_check (n : nat)   (* ... that have made [n] checks *)
| W_rest d        (* ... in a suppression, after the counter was reset *)
| W_reset         (* ... in a reset, after the counter was reset *)
| W_hold          (* ... that hold a reference *)
| W_restart d.    (* ... that are to restart *)

Definition rank q : nat := match q with Q_pending => 0 | Q_read => 1 | Q_write => 2 | Q_error => 3 | Q_queue => 4 | Q_add => 5 end.

Definition on_thread (w : weight) (x : pc) : nat :=
  match w, x with
  | W_run d, (F_start d' | F_call d' | F_sub d' | F_leave d' | F_leave_add d' | F_suppress d') => same d d'
  | W_leave, F_leave _ => 1
  | W_bad, K_cas NoReason => 1
  | W_err, (E_start | E_call | E_sub) => 1
  | W_kill, K_add => 1
  | W_early, F_check Q_add => 1
  | W_check n, F_check q => if (n <=? rank q)%nat then 1 else 0
  | W_hold, (F_start _ | E_start) => 0
  | W_hold, _ => 1
  | W_restart d, R_add d' => same d d'
  | _, _ => 0
  end.

Definition on_task (w : weight) (t : task) : nat :=
  match w, t with
  | W_run d, T_reset d' => same d d'
  | W_sup d, T_suppress d' => same d d'
  | W_kill, T_kill => 1
  | W_early, T_cleanup => 1
  | W_hold, (T_kill | T_suppress _ | T_restart _) => 1
  | W_restart d, T_restart d' => same d d'
  | _, _ => 0
  end.

Definition on_loop (w : weight) (l : loop_pc) : nat :=
  match w, l with
  | W_run d, L_store d' false => same d d'
  | W_sup d, L_store d' true => same d d'
  | W_kill, (L_disable | L_pend) => 1
  | W_pend, L_pend => 1
  | W_early, (L_check Q_add _ | L_clean_read | L_clean_write | L_clean_error | L_detach) => 1
  | W_complete, L_complete => 1
  | W_check n, L_check q _ => if (n <=? rank q)%nat then 1 else 0
  | W_rest d, (L_check _ (After_suppress d') | L_rest d') => same d d'
  | W_reset, L_check _ After_reset => 1
  | W_hold, (L_disable | L_pend | L_store _ true | L_check _ (After_kill | After_suppress _) | L_rest _ | L_restart _ | L_complete) => 1
  | W_restart d, L_restart d' => same d d'
  | _, _ => 0
  end.

Definition count s (w : weight) : Z :=
  Z.of_nat (total (on_thread w) (threads s) + sum_list_with (on_task w) (queue s) + on_loop w (loop s)).

(** What the restart counter will be when all the restarts and suppressions that
    are under way are done. *)
Definition credit d s : Z := restart_count d s + count s (W_restart d) - count s (W_sup d) - count s (W_rest d).

(** The contract: a caller has a reference, so the descriptor lives; a callback
    returns [Leaving] only after [Kill]; there is at most one restart of writing
    more than needed; epoll reports what the mask asks for.  The counters do not
    reach the end of their range. *)
Definition legal (e : event) s : Prop :=
  match e with
  | Call_Kill _ r => r ≠ NoReason ∧ 0 < refs s
  | Call_Restart _ d => 0 < refs s ∧ match d with Rd => credit Rd s < 2 ^ 64 - 2 | Wr => credit Wr s ≤ 1 end
  | Call_Wait _ => 0 < refs s
  | Go i Leaving => match threads s !! i with Some (F_call _) => cleanup_reason s ≠ NoReason | _ => True end
  | Go _ _ => True
  | Go_loop _ err rd wr =>
      (err || rd || wr → enabled s) ∧ (rd → armed Rd s) ∧ (wr → armed Wr s) ∧
      read_events_ s < 2 ^ 64 - 1 ∧ write_events_ s < 2 ^ 64 - 1
  end.

Definition initial (event_mask : Z) : state :=
  match AttachDescriptor (Descriptor_new event_mask) with Ret s => s | _ => Descriptor_new event_mask end.

Inductive reachable (event_mask : Z) : state → Prop :=
| Reach_initial : reachable event_mask (initial event_mask)
| Reach_step e s s' : reachable event_mask s → legal e s → step e s = Some (Ret s') → reachable event_mask s'.

(** ** The invariant *)

(** No restart of writing that is to come finds the counter above one. *)
Fixpoint credit_ok (c : Z) (ts : list task) : Prop :=
  match ts with
  | [] => True
  | T_restart Wr :: ts' => c ≤ 1 ∧ credit_ok (c + 1) ts'
  | T_suppress Wr :: ts' => credit_ok (c - 1) ts'
  | _ :: ts' => credit_ok c ts'
  end.

Definition M : Z := 2 ^ 64 - 1.

Definition killed s : bool := bool_decide (cleanup_reason s ≠ NoReason).

Record inv_at (c : weight → Z) s : Prop := {
  iv_events d : c (W_run d) + c (W_sup d) ≤ events d s ≤ (c (W_run d) + c (W_sup d)) * M;
  iv_act d : c (W_run d) + c (W_sup d) + c (W_rest d) ≤ 1;
  iv_error : error_events s = c W_err ∧ c W_err ≤ Z.b2z (error_seen s);
  iv_kill : c W_kill + Z.b2z (cleanup_pending_ s) = Z.b2z (killed s);
  iv_leave : 0 < c W_leave → 1 ≤ Z.b2z (killed s);
  iv_bad : c W_bad ≤ 0;
  iv_enabled : Z.b2z (enabled s) + Z.b2z (cleanup_pending_ s) + c W_pend = 1;
  iv_cleanup : c W_early + c W_complete + Z.b2z (cleanup_completed s) = Z.b2z (cleanup_queued s);
  iv_queued d : Z.b2z (cleanup_queued s) ≤ Z.b2z (cleanup_pending_ s) ∧
    events d s ≤ M * (1 - Z.b2z (cleanup_queued s)) ∧ error_events s ≤ 1 - Z.b2z (cleanup_queued s);
  iv_check1 : 0 < c (W_check 1) → 1 ≤ Z.b2z (cleanup_pending_ s);
  iv_check2 : 0 < c (W_check 2) → 1 ≤ Z.b2z (cleanup_pending_ s) ∧ read_events_ s = 0;
  iv_check3 : 0 < c (W_check 3) → 1 ≤ Z.b2z (cleanup_pending_ s) ∧ write_events_ s = 0;
  iv_check4 : 0 < c (W_check 4) → 1 ≤ Z.b2z (cleanup_pending_ s) ∧ error_events s = 0;
  iv_live : 1 ≤ Z.b2z (cleanup_pending_ s) → read_events_ s = 0 → write_events_ s = 0 → error_events s = 0 →
    0 < c (W_check 0) + Z.b2z (cleanup_queued s);
  iv_refs : refs s = c W_hold + 1 - Z.of_nat (length (cleanups s));
  iv_cleanups : Z.of_nat (length (cleanups s)) = c W_complete + Z.b2z (cleanup_completed s);
  iv_reset : c W_reset + Z.of_nat (length (cleanups s)) ≤ 1;
  iv_reason r : r ∈ cleanups s → r = cleanup_reason s;
  iv_restart d : 1 ≤ Z.b2z (enabled s) →
    Z.b2z (armed d s) ≤ restart_count d s ≤ Z.b2z (armed d s) * M ∧ c (W_run d) + c (W_sup d) + c (W_rest d) ≤ restart_count d s;
  iv_credit d : 1 ≤ Z.b2z (enabled s) →
    restart_count d s + c (W_restart d) - c (W_sup d) - c (W_rest d) ≤ match d with Rd => M - 1 | Wr => 2 end;
}.

Lemma b2z_bounds b : 0 ≤ Z.b2z b ≤ 1.
Proof. by destruct b. Qed.

Lemma inv_ext c c' s : (∀ w, c w = c' w) → inv_at c s → inv_at c' s.
Proof. intros Hc H. split; intros; rewrite <-?Hc in *; by apply H. Qed.

#[local] Arguments Z.testbit : simpl never.
#[local] Arguments Z.clearbit : simpl never.
#[local] Arguments Z.setbit : simpl never.

(** A count that changes. *)
Definition shift (z : Z) (old new : nat) : Z := match old, new with O, O => z | _, _ => z - Z.of_nat old + Z.of_nat new end.

(** The facts that a step needs, as linear arithmetic: what the invariant says of
    the direction, and of the cleanup. *)
Ltac events_facts H d :=
  pose proof (iv_events _ _ H d); pose proof (iv_act _ _ H d).
Ltac restart_facts H d :=
  events_facts H d; pose proof (iv_restart _ _ H d); pose proof (iv_credit _ _ H d).
Ltac bool_facts s :=
  pose proof (b2z_bounds (enabled s)); pose proof (b2z_bounds (cleanup_pending_ s)); pose proof (b2z_bounds (cleanup_queued s));
  pose proof (b2z_bounds (cleanup_completed s)); pose proof (b2z_bounds (error_seen s)); pose proof (b2z_bounds (killed s)).
Ltac cleanup_facts H :=
  lazymatch type of H with inv_at _ ?s => bool_facts s end;
  pose proof (iv_kill _ _ H); pose proof (iv_enabled _ _ H); pose proof (iv_cleanup _ _ H); pose proof (iv_error _ _ H);
  pose proof (iv_queued _ _ H Rd); pose proof (iv_queued _ _ H Wr).
Ltac check_facts H :=
  pose proof (iv_check1 _ _ H); pose proof (iv_check2 _ _ H); pose proof (iv_check3 _ _ H); pose proof (iv_check4 _ _ H).
Ltac end_facts H :=
  pose proof (iv_refs _ _ H); pose proof (iv_cleanups _ _ H); pose proof (iv_reset _ _ H).
Ltac norm := unfold M, killed, armed in *; cbn in *.

Ltac bounds Hx :=
  pose proof (Hx (W_run Rd)); pose proof (Hx (W_run Wr)); pose proof (Hx (W_sup Rd)); pose proof (Hx (W_sup Wr));
  pose proof (Hx (W_rest Rd)); pose proof (Hx (W_rest Wr)); pose proof (Hx W_leave); pose proof (Hx W_bad); pose proof (Hx W_err); pose proof (Hx W_kill); pose proof (Hx W_pend);
  pose proof (Hx W_early); pose proof (Hx W_complete); pose proof (Hx (W_check 0)); pose proof (Hx (W_check 1));
  pose proof (Hx (W_check 2)); pose proof (Hx (W_check 3)); pose proof (Hx (W_check 4)); pose proof (Hx W_reset); pose proof (Hx W_hold);
  pose proof (Hx (W_restart Rd)); pose proof (Hx (W_restart Wr)).

Ltac arith H :=
  lazymatch type of H with inv_at ?c ?s =>
  split;
  [ intros []; [first [exact (iv_events _ _ H Rd)|events_facts H Rd; norm; lia|idtac]|first [exact (iv_events _ _ H Wr)|events_facts H Wr; norm; lia|idtac]]
  | intros []; [first [exact (iv_act _ _ H Rd)|events_facts H Rd; norm; lia|idtac]|first [exact (iv_act _ _ H Wr)|events_facts H Wr; norm; lia|idtac]]
  | first [exact (iv_error _ _ H)|cleanup_facts H; norm; lia|idtac]
  | first [exact (iv_kill _ _ H)|cleanup_facts H; norm; lia|idtac]
  | first [exact (iv_leave _ _ H)|pose proof (iv_leave _ _ H); norm; lia|idtac]
  | first [exact (iv_bad _ _ H)|pose proof (iv_bad _ _ H); norm; lia|idtac]
  | first [exact (iv_enabled _ _ H)|cleanup_facts H; norm; lia|idtac]
  | first [exact (iv_cleanup _ _ H)|cleanup_facts H; norm; lia|idtac]
  | intros []; [first [exact (iv_queued _ _ H Rd)|cleanup_facts H; check_facts H; events_facts H Rd; norm; lia|idtac]|first [exact (iv_queued _ _ H Wr)|cleanup_facts H; check_facts H; events_facts H Wr; norm; lia|idtac]]
  | first [exact (iv_check1 _ _ H)|check_facts H; cleanup_facts H; norm; lia|idtac]
  | first [exact (iv_check2 _ _ H)|check_facts H; cleanup_facts H; events_facts H Rd; norm; lia|idtac]
  | first [exact (iv_check3 _ _ H)|check_facts H; cleanup_facts H; events_facts H Wr; norm; lia|idtac]
  | first [exact (iv_check4 _ _ H)|check_facts H; cleanup_facts H; norm; lia|idtac]
  | first [exact (iv_live _ _ H)|pose proof (iv_live _ _ H); pose proof (iv_cleanup _ _ H); pose proof (iv_enabled _ _ H); bool_facts s; norm; lia|idtac]
  | first [exact (iv_refs _ _ H)|end_facts H; norm; lia|idtac]
  | first [exact (iv_cleanups _ _ H)|end_facts H; cleanup_facts H; norm; lia|idtac]
  | first [exact (iv_reset _ _ H)|end_facts H; cleanup_facts H; norm; lia|idtac]
  | first [exact (iv_reason _ _ H)|idtac]
  | intros []; [first [exact (iv_restart _ _ H Rd)|restart_facts H Rd; norm; lia|idtac]|first [exact (iv_restart _ _ H Wr)|restart_facts H Wr; norm; lia|idtac]]
  | intros []; [first [exact (iv_credit _ _ H Rd)|restart_facts H Rd; norm; lia|idtac]|first [exact (iv_credit _ _ H Wr)|restart_facts H Wr; norm; lia|idtac]] ] end.

(** ** How the counts change *)

Lemma shift_eq (z z' : Z) (old new : nat) : z' + Z.of_nat old = z + Z.of_nat new → z' = shift z old new.
Proof. unfold shift. destruct old, new; lia. Qed.

Lemma count_goto s s' i x y ts w :
  threads s !! i = Some x → threads s' = <[i := y]> (threads s) → queue s' = queue s ++ ts → loop s' = loop s →
  count s' w = shift (count s w) (on_thread w x) (on_thread w y + sum_list_with (on_task w) ts).
Proof.
  intros Hi Ht Hq Hl. apply shift_eq. unfold count. rewrite Ht, Hq, Hl, sum_list_with_app.
  pose proof (total_insert (on_thread w) (threads s) i x y Hi). lia.
Qed.

Lemma count_leave s s' i x ts w :
  threads s !! i = Some x → threads s' = delete i (threads s) → queue s' = queue s ++ ts → loop s' = loop s →
  count s' w = shift (count s w) (on_thread w x) (sum_list_with (on_task w) ts).
Proof.
  intros Hi Ht Hq Hl. apply shift_eq. unfold count. rewrite Ht, Hq, Hl, sum_list_with_app.
  rewrite (total_delete (on_thread w) (threads s) i x Hi). lia.
Qed.

Lemma count_start s s' i y w :
  threads s !! i = None → threads s' = <[i := y]> (threads s) → queue s' = queue s → loop s' = loop s →
  count s' w = shift (count s w) 0 (on_thread w y).
Proof. intros Hi Ht Hq Hl. apply shift_eq. unfold count. rewrite Ht, Hq, Hl, total_new by done. lia. Qed.

Lemma count_loop s s' l l' ts w :
  loop s = l → loop s' = l' → threads s' = threads s → queue s' = queue s ++ ts →
  count s' w = shift (count s w) (on_loop w l) (on_loop w l' + sum_list_with (on_task w) ts).
Proof. intros Hl Hl' Ht Hq. apply shift_eq. unfold count. rewrite Ht, Hq, Hl, Hl', sum_list_with_app. lia. Qed.

Lemma count_loop_start s s' l l' i y w :
  loop s = l → loop s' = l' → threads s !! i = None → threads s' = <[i := y]> (threads s) → queue s' = queue s →
  count s' w = shift (count s w) (on_loop w l) (on_loop w l' + on_thread w y).
Proof. intros Hl Hl' Hi Ht Hq. apply shift_eq. unfold count. rewrite Ht, Hq, Hl, Hl', total_new by done. lia. Qed.

Lemma count_thread_ge s i x w : threads s !! i = Some x → Z.of_nat (on_thread w x) ≤ count s w.
Proof. intros Hi. unfold count. rewrite (total_delete (on_thread w) (threads s) i x Hi). lia. Qed.

Lemma count_loop_ge s l w : loop s = l → Z.of_nat (on_loop w l) ≤ count s w.
Proof. intros <-. unfold count. lia. Qed.

Lemma count_ge s w : 0 ≤ count s w.
Proof. unfold count. lia. Qed.

(** What only the loop does. *)
Definition loop_only (w : weight) : bool := match w with W_pend | W_complete | W_reset | W_rest _ => true | _ => false end.

Lemma no_thread w (T : gmap nat pc) : (∀ x, on_thread w x = 0%nat) → total (on_thread w) T = 0%nat.
Proof.
  intros Hw. destruct (total (on_thread w) T) eqn:E; [done|]. destruct (total_pos (on_thread w) T) as (i & x & _ & Hx); [lia|].
  rewrite Hw in Hx. lia.
Qed.

Lemma count_loop_only s w : loop_only w = true → count s w = Z.of_nat (on_loop w (loop s)).
Proof.
  intros Hw. unfold count. rewrite no_thread by (intros x; by destruct w, x).
  assert (sum_list_with (on_task w) (queue s) = 0%nat) as ->; [|done].
  induction (queue s) as [|t ts IH]; [done|]. cbn. rewrite IH. by destruct w, t.
Qed.

(** ** The rest of the invariant *)

Record loop_ok s : Prop := {
  lo_fire e r w : loop s = L_fire e r w → enabled s = true ∧ (r → armed Rd s) ∧ (w → armed Wr s);
  lo_cbs : match loop s with L_wait | L_fire _ _ _ | L_swap => cbs s = [] | _ => True end;
  lo_order : enabled s = true →
    credit_ok (restart_write_count_ s + Z.of_nat (on_loop (W_restart Wr) (loop s)) - Z.of_nat (on_loop (W_sup Wr) (loop s)) - Z.of_nat (on_loop (W_rest Wr) (loop s))) (queue s)
    ∧ (loop s = L_restart Wr → restart_write_count_ s ≤ 1) ∧ restart_write_count_ s ≤ 2;
}.

Definition inv s : Prop := inv_at (count s) s ∧ loop_ok s.

Definition good (o : outcome state) : Prop := ∃ s', o = Ret s' ∧ inv s'.

Lemma alive_hold s : inv_at (count s) s → 0 < count s W_hold → 0 < refs s.
Proof. intros H Hh. end_facts H. cleanup_facts H. bool_facts s. bounds (count_ge s). norm. lia. Qed.

Lemma alive_queued s : inv_at (count s) s → cleanups s = [] → 0 < refs s.
Proof. intros H Hc. end_facts H. rewrite Hc in *. pose proof (count_ge s W_hold). cbn in *. lia. Qed.

Lemma alive_thread s i x : inv_at (count s) s → threads s !! i = Some x → 0 < refs s.
Proof.
  intros H Hi. pose proof (count_thread_ge s i x) as Hx. end_facts H. cleanup_facts H. events_facts H Rd. events_facts H Wr.
  bool_facts s. bounds (count_ge s). pose proof (Hx W_hold Hi). pose proof (Hx (W_run Rd) Hi). pose proof (Hx (W_run Wr) Hi). pose proof (Hx W_err Hi).
  destruct x as [[]|[]|[]|[]|[]|[]| | | |q|r| |d|]; norm; lia.
Qed.

Lemma touch_ok {A} s (m : outcome A) : 0 < refs s → touch s m = m.
Proof. intros Hr. unfold touch. by rewrite decide_True. Qed.

Lemma Deref_ok s : (enabled s = true → 1 < refs s) → Deref s = Ret (set_refs (refs s - 1) s).
Proof. intros Hr. unfold Deref. rewrite decide_False; [done|]. intros [H1 H2]. specialize (Hr H2). lia. Qed.

(** While the descriptor is enabled the event loop has a reference. *)
Lemma enabled_refs s : inv_at (count s) s → enabled s = true → refs s = count s W_hold + 1.
Proof. intros H He. end_facts H. cleanup_facts H. bool_facts s. bounds (count_ge s). rewrite He in *. norm. lia. Qed.

Lemma credit_ok_eq c c' ts : credit_ok c ts → c = c' → credit_ok c' ts.
Proof. by intros Hok ->. Qed.

Lemma credit_ok_app ts : ∀ c t,
  credit_ok c ts →
  (t = T_restart Wr → c + Z.of_nat (sum_list_with (on_task (W_restart Wr)) ts) - Z.of_nat (sum_list_with (on_task (W_sup Wr)) ts) ≤ 1) →
  credit_ok c (ts ++ [t]).
Proof.
  induction ts as [|t' ts IH]; intros c t Hok Ht.
  - destruct t as [|[]|[]|[]|]; cbn in *; try done. specialize (Ht eq_refl). split; [lia|done].
  - destruct t' as [|[]|[]|[]|]; cbn in *; try (apply IH; [done|]; intros E; specialize (Ht E); lia).
    destruct Hok as [Hc Hok]. split; [done|]. apply IH; [done|]. intros E. specialize (Ht E). lia.
Qed.

(** A thread goes on, and posts tasks. *)
Lemma thread_loop_ok s s' i x ts :
  inv s → threads s !! i = Some x → (ts = [] ∨ ∃ t, ts = [t] ∧ (t = T_restart Wr → x = R_add Wr)) →
  queue s' = queue s ++ ts → loop s' = loop s → enabled s' = enabled s → event_mask s' = event_mask s →
  restart_write_count_ s' = restart_write_count_ s → cbs s' = cbs s → loop_ok s'.
Proof.
  intros [H [Hf Hcb Ho]] Hi Hts Hq Hl He Hm Hw Hcb'. split; rewrite ?Hl, ?He, ?Hw, ?Hq, ?Hcb'; [|done|].
  - intros e r w E. unfold armed. rewrite Hm. by apply (Hf e).
  - intros Hen. destruct (Ho Hen) as (Hok & Hr & H2). split; [|done]. destruct Hts as [->|(t & -> & Ht)]; [by rewrite app_nil_r|].
    apply credit_ok_app; [done|]. intros E. specialize (Ht E) as ->. pose proof (iv_credit _ _ H Wr) as Hc. rewrite Hen in Hc. cbn in Hc.
    rewrite (count_loop_only s (W_rest Wr)) in Hc by done. unfold count in Hc. rewrite (no_thread (W_sup Wr)) in Hc by (by intros []).
    rewrite (total_delete (on_thread (W_restart Wr)) (threads s) i _ Hi) in Hc. cbn -[Z.of_nat on_loop] in Hc. lia.
Qed.

Ltac queue_eq := cbn; unfold queue; cbn; rewrite ?app_assoc, ?app_nil_r; reflexivity.

(** Thread [i] goes to [y] and posts the tasks [ts]; it ends and posts the tasks. *)
Ltac thread_goes H Hi y ts :=
  lazymatch type of Hi with threads ?s !! ?i = Some ?x =>
  eexists; split; [reflexivity|]; split;
  [ eapply inv_ext; [let w := fresh "w" in intros w; symmetry; eapply (count_goto s _ i x y ts w Hi); [reflexivity|queue_eq|reflexivity]|];
    bounds (λ w, count_thread_ge s i x w Hi); bounds (count_ge s); let H1 := fresh "H1" in pose proof (proj1 H) as H1; arith H1
  | eapply (thread_loop_ok s _ i x ts H Hi); [first [by left|right; eexists; split; [reflexivity|congruence]]|queue_eq|reflexivity..] ] end.

Ltac thread_ends H Hi ts :=
  lazymatch type of Hi with threads ?s !! ?i = Some ?x =>
  let H1 := fresh "H1" in let He := fresh "He" in
  pose proof (proj1 H) as H1; unfold leave; rewrite Deref_ok;
  [ eexists; split; [reflexivity|]; split;
    [ eapply inv_ext; [let w := fresh "w" in intros w; symmetry; eapply (count_leave s _ i x ts w Hi); [reflexivity|queue_eq|reflexivity]|];
      bounds (λ w, count_thread_ge s i x w Hi); bounds (count_ge s); arith H1
    | eapply (thread_loop_ok s _ i x ts H Hi); [first [by left|right; eexists; split; [reflexivity|congruence]]|queue_eq|reflexivity..] ]
  | intros He; cbn in He; pose proof (enabled_refs s H1 He); pose proof (count_thread_ge s i x W_hold Hi); cbn in *; lia ] end.

(** *** Fibers that use up events *)

Lemma fiber_sub s i d : inv s → threads s !! i = Some (F_sub d) →
  good (goto i (if decide (events d s = 1) then F_check Q_pending else F_call d) (set_events d (u64 (events d s - 1)) s)).
Proof.
  intros H Hi. pose proof (iv_events _ _ (proj1 H) d) as He. pose proof (iv_act _ _ (proj1 H) d).
  pose proof (count_thread_ge s i _ (W_run d) Hi) as Hr. assert (u64 (events d s - 1) = events d s - 1) as ->.
  { apply u64_small. bounds (count_ge s). unfold M in *. destruct d; cbn in Hr; lia. }
  destruct (decide (events d s = 1)), d; [thread_goes H Hi (F_check Q_pending) (@nil task)..|thread_goes H Hi (F_call Rd) (@nil task)|thread_goes H Hi (F_call Wr) (@nil task)].
Qed.

Lemma fiber_start s i d : inv s → threads s !! i = Some (F_start d) → good (goto i (F_call d) (Ref s)).
Proof. intros H Hi. destruct d; [thread_goes H Hi (F_call Rd) (@nil task)|thread_goes H Hi (F_call Wr) (@nil task)]. Qed.

Lemma fiber_call s i d a : inv s → threads s !! i = Some (F_call d) → (a = Leaving → cleanup_reason s ≠ NoReason) →
  good (goto i (match a with Ready => F_sub d | Leaving => F_leave d | Suppress => F_suppress d end) s).
Proof.
  intros H Hi Ha.
  assert (a = Leaving → Z.b2z (bool_decide (cleanup_reason s ≠ NoReason)) = 1) as Hk by (intros E; by rewrite bool_decide_true by auto).
  destruct d, a; try specialize (Hk eq_refl); [thread_goes H Hi (F_sub Rd) (@nil task)|thread_goes H Hi (F_leave Rd) (@nil task)|thread_goes H Hi (F_suppress Rd) (@nil task)
    |thread_goes H Hi (F_sub Wr) (@nil task)|thread_goes H Hi (F_leave Wr) (@nil task)|thread_goes H Hi (F_suppress Wr) (@nil task)].
Qed.

Lemma fiber_leave s i d : inv s → threads s !! i = Some (F_leave d) →
  good (if decide (cleanup_reason s = NoReason) then Abort else goto i (F_leave_add d) s).
Proof.
  intros H Hi. rewrite decide_False.
  - destruct d; [thread_goes H Hi (F_leave_add Rd) (@nil task)|thread_goes H Hi (F_leave_add Wr) (@nil task)].
  - intros E. pose proof (iv_leave _ _ (proj1 H)) as Hl. pose proof (count_thread_ge s i _ W_leave Hi). unfold killed in Hl.
    rewrite bool_decide_false in Hl by (by intros N). cbn in *. lia.
Qed.

Lemma fiber_leave_add s i d : inv s → threads s !! i = Some (F_leave_add d) → good (goto i (F_check Q_pending) (AddTask (T_reset d) s)).
Proof. intros H Hi. destruct d; [thread_goes H Hi (F_check Q_pending) [T_reset Rd]|thread_goes H Hi (F_check Q_pending) [T_reset Wr]]. Qed.

Lemma fiber_suppress s i d : inv s → threads s !! i = Some (F_suppress d) → good (goto i (F_check Q_pending) (AddTask (T_suppress d) (Ref s))).
Proof. intros H Hi. destruct d; [thread_goes H Hi (F_check Q_pending) [T_suppress Rd]|thread_goes H Hi (F_check Q_pending) [T_suppress Wr]]. Qed.

(** *** The fiber for an error *)

Lemma error_start s i : inv s → threads s !! i = Some E_start → good (goto i E_call (Ref s)).
Proof. intros H Hi. thread_goes H Hi E_call (@nil task). Qed.

Lemma error_call s i : inv s → threads s !! i = Some E_call → good (goto i E_sub s).
Proof. intros H Hi. thread_goes H Hi E_sub (@nil task). Qed.

Lemma error_sub s i : inv s → threads s !! i = Some E_sub →
  good (if decide (error_events s = 1) then goto i (F_check Q_pending) (set_error (error_events s - 1) (error_seen s) s) else Abort).
Proof.
  intros H Hi. rewrite decide_True.
  - thread_goes H Hi (F_check Q_pending) (@nil task).
  - pose proof (iv_error _ _ (proj1 H)). pose proof (b2z_bounds (error_seen s)). pose proof (count_thread_ge s i _ W_err Hi). cbn in *. lia.
Qed.

(** *** The check for a cleanup *)

Lemma thread_check s i q : inv s → threads s !! i = Some (F_check q) → good (check_thread i q s).
Proof.
  intros H Hi. unfold check_thread. destruct q; cbn [check_step].
  - destruct (cleanup_pending_ s) eqn:Hp; apply (f_equal Z.b2z) in Hp; [thread_goes H Hi (F_check Q_read) (@nil task)|thread_ends H Hi (@nil task)].
  - destruct (decide _); [thread_goes H Hi (F_check Q_write) (@nil task)|thread_ends H Hi (@nil task)].
  - destruct (decide _); [thread_goes H Hi (F_check Q_error) (@nil task)|thread_ends H Hi (@nil task)].
  - destruct (decide _); [thread_goes H Hi (F_check Q_queue) (@nil task)|thread_ends H Hi (@nil task)].
  - destruct (cleanup_queued s) eqn:Hq; apply (f_equal Z.b2z) in Hq; [thread_ends H Hi (@nil task)|thread_goes H Hi (F_check Q_add) (@nil task)].
  - thread_ends H Hi [T_cleanup].
Qed.

(** *** The callers *)

Lemma not_killed s : inv_at (count s) s → Z.b2z (killed s) = 0 → cleanups s = [].
Proof.
  intros H Hk. cleanup_facts H. end_facts H. bool_facts s. bounds (count_ge s). apply nil_length_inv. rewrite Hk in *. norm. lia.
Qed.

Lemma caller_kill s i r : inv s → threads s !! i = Some (K_cas r) →
  good (if decide (cleanup_reason s = NoReason) then goto i K_add (set_reason r s) else leave i s).
Proof.
  intros H Hi. assert (r ≠ NoReason) as Hr.
  { intros ->. pose proof (iv_bad _ _ (proj1 H)). pose proof (count_thread_ge s i _ W_bad Hi). cbn in *. lia. }
  destruct (decide _) as [E|]; [|destruct r; [done|thread_ends H Hi (@nil task)..]].
  assert (Z.b2z (killed s) = 0) as Hk by (unfold killed; rewrite bool_decide_false; [done|by intros N]).
  assert (Z.b2z (bool_decide (r ≠ NoReason)) = 1) by (by rewrite bool_decide_true).
  destruct r; [done|thread_goes H Hi K_add (@nil task)..]; cbn; rewrite (not_killed s) by (done || apply H); by intros r' ?%not_elem_of_nil.
Qed.

Lemma caller_kill_add s i : inv s → threads s !! i = Some K_add → good (leave i (AddTask T_kill (Ref s))).
Proof. intros H Hi. thread_ends H Hi [T_kill]. Qed.

Lemma caller_restart s i d : inv s → threads s !! i = Some (R_add d) → good (leave i (AddTask (T_restart d) (Ref s))).
Proof. intros H Hi. destruct d; [thread_ends H Hi [T_restart Rd]|thread_ends H Hi [T_restart Wr]]. Qed.

Lemma caller_wait s i : inv s → threads s !! i = Some W_wait → good (leave i s).
Proof. intros H Hi. thread_ends H Hi (@nil task). Qed.

Lemma thread_step_good s i a o : inv s → legal (Go i a) s → thread_step i a s = Some o → good o.
Proof.
  intros H Hle. unfold thread_step. destruct (threads s !! i) as [x|] eqn:Hi; [|done].
  pose proof (alive_thread s i x (proj1 H) Hi) as Hr. rewrite !touch_ok by done.
  destruct x as [d|d|d|d|d|d| | | |q|r| |d|]; [intros [= <-]..|].
  - by apply fiber_start.
  - apply fiber_call; [done..|]. intros ->. cbn in Hle. by rewrite Hi in Hle.
  - by apply fiber_sub.
  - by apply fiber_leave.
  - by apply fiber_leave_add.
  - by apply fiber_suppress.
  - by apply error_start.
  - by apply error_call.
  - by apply error_sub.
  - by apply thread_check.
  - by apply caller_kill.
  - by apply caller_kill_add.
  - by apply caller_restart.
  - destruct (cleanup_completed s); [|done]. intros [= <-]. by apply caller_wait.
Qed.

(** A caller comes. *)
Lemma call_good s i x : inv s → threads s !! i = None → 0 < refs s →
  (x = R_add Rd ∧ credit Rd s < 2 ^ 64 - 2 ∨ x = R_add Wr ∧ credit Wr s ≤ 1 ∨ x = W_wait ∨ ∃ r, x = K_cas r ∧ r ≠ NoReason) →
  inv (set_threads (<[i := x]> (threads s)) (Ref s)).
Proof.
  intros H Hi Hr Hx. pose proof (proj1 H) as H1. unfold credit in Hx. split.
  - eapply inv_ext; [intros w; symmetry; by apply (count_start s _ i x w)|]. bounds (count_ge s).
    destruct Hx as [[-> Hc]|[[-> Hc]|[->|(r & -> & Hne)]]]; [..|destruct r; [done|..]]; arith H1.
  - destruct H as [_ [Hf Hcb Ho]]. by split.
Qed.

(** *** The event loop *)

(** The loop is not about to fire, and what it is to do for writing stays. *)
Lemma loop_loop_ok s s' ts :
  inv s → queue s' = queue s ++ ts → (ts = [] ∨ ts = [T_cleanup]) → (enabled s' = true → enabled s = true) → event_mask s' = event_mask s →
  restart_write_count_ s' = restart_write_count_ s →
  (on_loop (W_restart Wr) (loop s') = on_loop (W_restart Wr) (loop s)
   ∧ on_loop (W_sup Wr) (loop s') + on_loop (W_rest Wr) (loop s') = on_loop (W_sup Wr) (loop s) + on_loop (W_rest Wr) (loop s))%nat →
  (∀ e r w, loop s' ≠ L_fire e r w) → loop s' ≠ L_restart Wr →
  match loop s' with L_wait | L_swap => cbs s' = [] | _ => True end → loop_ok s'.
Proof.
  intros [H [Hf _ Ho]] Hq Hts He Hm Hw [Hr Hsr] Hnf Hnr Hcb.
  split; [by intros e r w E; destruct (Hnf e r w)|destruct (loop s') eqn:E; try done; by destruct (Hnf err rd wr)|].
  intros Hen. destruct (Ho (He Hen)) as (Hok & _ & H2). rewrite Hw, Hq. split; [|by split; [intros E; by destruct Hnr|]].
  replace (_ - _ - _) with (restart_write_count_ s + Z.of_nat (on_loop (W_restart Wr) (loop s)) - Z.of_nat (on_loop (W_sup Wr) (loop s)) - Z.of_nat (on_loop (W_rest Wr) (loop s))) by lia.
  destruct Hts as [->| ->]; [by rewrite app_nil_r|]. by apply credit_ok_app.
Qed.

(** What the loop alone does is known from where it is. *)
Ltac loop_facts s Hl :=
  pose proof (count_loop_only s W_pend eq_refl); pose proof (count_loop_only s W_complete eq_refl); pose proof (count_loop_only s W_reset eq_refl);
  pose proof (count_loop_only s (W_rest Rd) eq_refl); pose proof (count_loop_only s (W_rest Wr) eq_refl); rewrite Hl in *.

Ltac loop_counts H Hl l' ts :=
  lazymatch type of Hl with loop ?s = ?l =>
  eapply inv_ext; [let w := fresh "w" in intros w; symmetry; eapply (count_loop s _ l l' ts w Hl); [reflexivity|reflexivity|queue_eq]|];
  loop_facts s Hl; bounds (λ w, count_loop_ge s l w Hl); bounds (count_ge s); let H1 := fresh "H1" in pose proof (proj1 H) as H1; arith H1 end.

Ltac loop_same H Hl ts :=
  lazymatch type of Hl with loop ?s = ?l =>
  eapply (loop_loop_ok s _ ts H); [queue_eq|auto|first [done|by cbn]|reflexivity|reflexivity|rewrite Hl; done|done|done|first [exact I|cbn; pose proof (lo_cbs _ (proj2 H)) as Hcb; rewrite Hl in Hcb; exact Hcb]] end.

Ltac loop_goes H Hl l' ts := eexists; split; [reflexivity|]; split; [loop_counts H Hl l' ts|try loop_same H Hl ts].

Lemma loop_disable s : inv s → loop s = L_disable → good (s' ←! DisableDescriptor s; Ret (set_loop L_pend s')).
Proof.
  intros H Hl. unfold DisableDescriptor. destruct (enabled s) eqn:He.
  - apply (f_equal Z.b2z) in He. loop_goes H Hl L_pend (@nil task).
  - exfalso. pose proof (iv_enabled _ _ (proj1 H)) as Hen. pose proof (iv_kill _ _ (proj1 H)). pose proof (count_loop_ge s _ W_kill Hl).
    rewrite (count_loop_only s W_pend eq_refl), Hl, He in Hen. bool_facts s. cbn in *. lia.
Qed.

Lemma loop_pend s : inv s → loop s = L_pend →
  good (Ret (set_loop (L_check Q_pending After_kill) (set_cleanup true (cleanup_queued s) (cleanup_completed s) s))).
Proof. intros H Hl. loop_goes H Hl (L_check Q_pending After_kill) (@nil task).
Qed.

Lemma loop_store s d (b : bool) : inv s → loop s = L_store d b →
  good (Ret (set_loop (L_check Q_pending (if b then After_suppress d else After_reset)) (set_events d 0 s))).
Proof.
  intros H Hl. pose proof (proj1 H) as H1. cleanup_facts H1. events_facts H1 d.
  destruct d, b; [loop_goes H Hl (L_check Q_pending (After_suppress Rd)) (@nil task)|loop_goes H Hl (L_check Q_pending After_reset) (@nil task)
    |loop_goes H Hl (L_check Q_pending (After_suppress Wr)) (@nil task)|loop_goes H Hl (L_check Q_pending After_reset) (@nil task)].
Qed.

(** A task ends. *)
Lemma desc_finish_ok s l : inv s → loop s = l → on_loop W_hold l = 1%nat → ∀ s1, enabled s1 = enabled s → refs s1 = refs s →
  finish s1 = Ret (set_refs (refs s1 - 1) (set_loop L_task s1)).
Proof.
  intros H Hl Hh s1 He Hr. unfold finish. rewrite Deref_ok; [done|]. cbn. rewrite He, Hr. intros Hen. rewrite (enabled_refs s (proj1 H) Hen).
  pose proof (count_loop_ge s l W_hold Hl). lia.
Qed.

Ltac check_on H Hl q' :=
  lazymatch type of Hl with loop _ = L_check _ ?k => loop_goes H Hl (L_check q' k) (@nil task) end.
Ltac check_off H Hl ts :=
  lazymatch type of Hl with loop _ = L_check _ ?k =>
    lazymatch k with After_suppress ?d => loop_goes H Hl (L_rest d) ts | _ => loop_goes H Hl L_task ts end end.

Lemma loop_check s q k : inv s → loop s = L_check q k → good (check_loop q k s).
Proof.
  intros H Hl. unfold check_loop.
  assert (∀ s1, k = After_kill → enabled s1 = enabled s → refs s1 = refs s → finish s1 = Ret (set_refs (refs s1 - 1) (set_loop L_task s1))) as Hfin.
  { intros s1 ->. by apply (desc_finish_ok s _ H Hl). }
  destruct q; cbn [check_step].
  - destruct (cleanup_pending_ s) eqn:Hp; apply (f_equal Z.b2z) in Hp; destruct k as [| |[]]; rewrite ?Hfin by done; [check_on H Hl Q_read..|check_off H Hl (@nil task)|check_off H Hl (@nil task)|check_off H Hl (@nil task)|check_off H Hl (@nil task)].
  - destruct (decide _); destruct k as [| |[]]; rewrite ?Hfin by done; [check_on H Hl Q_write..|check_off H Hl (@nil task)|check_off H Hl (@nil task)|check_off H Hl (@nil task)|check_off H Hl (@nil task)].
  - destruct (decide _); destruct k as [| |[]]; rewrite ?Hfin by done; [check_on H Hl Q_error..|check_off H Hl (@nil task)|check_off H Hl (@nil task)|check_off H Hl (@nil task)|check_off H Hl (@nil task)].
  - destruct (decide _); destruct k as [| |[]]; rewrite ?Hfin by done; [check_on H Hl Q_queue..|check_off H Hl (@nil task)|check_off H Hl (@nil task)|check_off H Hl (@nil task)|check_off H Hl (@nil task)].
  - destruct (cleanup_queued s) eqn:Hq; apply (f_equal Z.b2z) in Hq; destruct k as [| |[]]; rewrite ?Hfin by done;
      [check_off H Hl (@nil task)..|check_on H Hl Q_add|check_on H Hl Q_add|check_on H Hl Q_add|check_on H Hl Q_add].
  - destruct k as [| |[]]; rewrite ?Hfin by done; check_off H Hl [T_cleanup].
Qed.

(** The three counters are zero when the task that cleans up runs. *)
Lemma cleanup_zero s l : inv s → loop s = l → on_loop W_early l = 1%nat → read_events_ s = 0 ∧ write_events_ s = 0 ∧ error_events s = 0.
Proof.
  intros [H _] Hl He. cleanup_facts H. events_facts H Rd. events_facts H Wr. pose proof (count_loop_ge s l W_early Hl). bounds (count_ge s).
  rewrite He in *. norm. lia.
Qed.

Lemma loop_clean s l l' n : inv s → loop s = l →
  (l = L_clean_read ∧ l' = L_clean_write ∧ n = read_events_ s ∨ l = L_clean_write ∧ l' = L_clean_error ∧ n = write_events_ s
   ∨ l = L_clean_error ∧ l' = L_detach ∧ n = error_events s) → good (cleanup_check n l' s).
Proof.
  intros H Hl Hc. destruct (cleanup_zero s l H Hl) as (Hr & Hw & He); [by destruct Hc as [[-> _]|[[-> _]|[-> _]]]|].
  unfold cleanup_check. rewrite decide_True by (destruct Hc as [(_ & _ & ->)|[(_ & _ & ->)|(_ & _ & ->)]]; done).
  destruct Hc as [(-> & -> & _)|[(-> & -> & _)|(-> & -> & _)]];
    [loop_goes H Hl L_clean_write (@nil task)|loop_goes H Hl L_clean_error (@nil task)|loop_goes H Hl L_detach (@nil task)].
Qed.

(** [OnCleanup] is called when the descriptor is disabled. *)
Lemma cleanup_disabled s l : inv s → loop s = l → on_loop W_early l = 1%nat → enabled s = false ∧ cleanups s = [] ∧ 0 < refs s.
Proof.
  intros [H _] Hl He. cleanup_facts H. end_facts H. pose proof (count_loop_ge s l W_early Hl). bounds (count_ge s). rewrite He in *.
  split; [destruct (enabled s); [|done]; norm; lia|]. split; [apply nil_length_inv|]; norm; lia.
Qed.

Lemma loop_detach s : inv s → loop s = L_detach → good (cleanup_rest s).
Proof.
  intros H Hl. destruct (cleanup_disabled s _ H Hl eq_refl) as (He & Hc & Hr). unfold cleanup_rest, DetachDescriptor. cbn [enabled Ref set_refs].
  rewrite He, Deref_ok by (cbn; by rewrite He). cbn [obind].
  pose proof (proj1 H) as Hi. end_facts Hi. cleanup_facts Hi. rewrite Hc in *. loop_goes H Hl L_complete (@nil task); cbn; rewrite Hc; cbn.
  - norm. lia.
  - norm. lia.
  - norm. lia.
  - by intros r ->%list_elem_of_singleton.
Qed.

Lemma loop_complete s : inv s → loop s = L_complete → good (finish (set_cleanup (cleanup_pending_ s) (cleanup_queued s) true s)).
Proof. intros H Hl. rewrite (desc_finish_ok s _ H Hl) by done. loop_goes H Hl L_task (@nil task).
Qed.

(** *** Events *)

Lemma loop_wait s err rd wr : inv s → loop s = L_wait → (err || rd || wr → enabled s) → (rd → armed Rd s) → (wr → armed Wr s) →
  good (Ret (set_loop (if err || rd || wr then L_fire err rd wr else L_swap) s)).
Proof.
  intros H Hl He Hr Hw. destruct (err || rd || wr) eqn:E.
  - loop_goes H Hl (L_fire err rd wr) (@nil task). destruct H as [_ [Hf Hcb Ho]]. rewrite Hl in Ho, Hcb. split; cbn; [|done|intros Hen; by destruct (Ho Hen) as (? & _ & ?)].
    intros e r w [= -> -> ->]. split; [|done]. by apply Is_true_eq_true, He.
  - loop_goes H Hl L_swap (@nil task).
Qed.

(** The loop starts a fiber. *)
Ltac loop_starts H Hl l' Hi x :=
  lazymatch type of Hl with loop ?s = ?l => lazymatch type of Hi with threads s !! ?i = None =>
  eexists; split; [reflexivity|]; split;
  [ eapply inv_ext; [let w := fresh "w" in intros w; symmetry; eapply (count_loop_start s _ l l' i x w Hl); [reflexivity|exact Hi|reflexivity|reflexivity]|];
    loop_facts s Hl; bounds (λ w, count_loop_ge s l w Hl); bounds (count_ge s); let H1 := fresh "H1" in pose proof (proj1 H) as H1; arith H1
  | ] end end.

Lemma fire_facts s d : inv s → armed d s → enabled s = true → count s (W_rest d) = 0 → events d s < M →
  1 ≤ restart_count d s ∧ u64 (events d s + 1) = events d s + 1 ∧ (events d s = 0 → count s (W_run d) = 0 ∧ count s (W_sup d) = 0)
  ∧ (events d s ≠ 0 → count s (W_run d) + count s (W_sup d) = 1).
Proof.
  intros [H _] Ha%Is_true_eq_true He Hr Hev. restart_facts H d. rewrite Ha, He in *. bounds (count_ge s). unfold M in *.
  split; [cbn in *; lia|]. split; [apply u64_small; destruct d; cbn in *; lia|]. destruct d; cbn in *; split; intros; lia.
Qed.

Lemma fire_loop_ok s s' e r w :
  inv s → loop s = L_fire e r w → (loop s' = L_swap ∨ loop s' = L_fire false false w) → queue s' = queue s → enabled s' = enabled s →
  event_mask s' = event_mask s → restart_write_count_ s' = restart_write_count_ s → cbs s' = cbs s → loop_ok s'.
Proof.
  intros [_ [Hf Hcb Ho]] Hl Hl' Hq He Hm Hw Hcb'. rewrite Hl in Ho, Hcb. split; [|rewrite Hcb'; by destruct Hl' as [->| ->]|].
  - intros e' r' w' E. rewrite He. unfold armed. rewrite Hm. destruct (Hf e r w Hl) as (H1 & H2 & H3). destruct Hl' as [Hl'|Hl']; rewrite Hl' in E; [done|].
    injection E as <- <- <-. split; [done|]. by split.
  - rewrite He, Hq, Hw. intros Hen. destruct (Ho Hen) as (H1 & _ & H2). destruct Hl' as [Hl'|Hl']; rewrite Hl'; (split; [done|]; by split).
Qed.

Lemma fire_read s i e w s1 : inv s → loop s = L_fire e true w → read_events_ s < M → FireEvent Rd i s = Some s1 →
  good (Ret (set_loop (L_fire false false w) s1)).
Proof.
  intros H Hl Hev. destruct (lo_fire _ (proj2 H) _ _ _ Hl) as (Hen & Har & _).
  destruct (fire_facts s Rd H (Har I) Hen) as (Hc & Hu & H0 & H1); [by rewrite count_loop_only, Hl|done|]. apply (f_equal Z.b2z) in Hen.
  unfold FireEvent, StartFiber. rewrite Hu. destruct (decide _) as [E|E]; cbn [threads set_events].
  - destruct (H0 E). destruct (threads s !! i) eqn:Hi; [done|]. intros [= <-]. loop_starts H Hl (L_fire false false w) Hi (F_start Rd).
    by eapply (fire_loop_ok s _ _ _ _ H Hl); [by right|..].
  - specialize (H1 E). intros [= <-]. loop_goes H Hl (L_fire false false w) (@nil task). 
    by eapply (fire_loop_ok s _ _ _ _ H Hl); [by right|..].
Qed.

Lemma fire_write s i e r s1 : inv s → loop s = L_fire e r true → write_events_ s < M → FireEvent Wr i s = Some s1 →
  good (Ret (set_loop L_swap s1)).
Proof.
  intros H Hl Hev. destruct (lo_fire _ (proj2 H) _ _ _ Hl) as (Hen & _ & Har).
  destruct (fire_facts s Wr H (Har I) Hen) as (Hc & Hu & H0 & H1); [by rewrite count_loop_only, Hl|done|]. apply (f_equal Z.b2z) in Hen.
  unfold FireEvent, StartFiber. rewrite Hu. destruct (decide _) as [E|E]; cbn [threads set_events].
  - destruct (H0 E). destruct (threads s !! i) eqn:Hi; [done|]. intros [= <-]. loop_starts H Hl L_swap Hi (F_start Wr).
    by eapply (fire_loop_ok s _ _ _ _ H Hl); [by left|..].
  - specialize (H1 E). intros [= <-]. loop_goes H Hl L_swap (@nil task).
Qed.

Lemma fire_error s i r w o : inv s → loop s = L_fire true r w → FireErrorEvent i s = Some o → good (s' ←! o; Ret (set_loop L_swap s')).
Proof.
  intros H Hl. destruct (lo_fire _ (proj2 H) _ _ _ Hl) as (Hen & _). pose proof (iv_error _ _ (proj1 H)) as [He Hs]. unfold FireErrorEvent.
  destruct (error_seen s) eqn:E; [intros [= <-]; loop_goes H Hl L_swap (@nil task)|]. pose proof (count_ge s W_err). cbn in Hs.
  rewrite decide_True by lia. replace (u64 (error_events s + 1)) with 1 by (replace (error_events s + 1) with 1 by lia; done). unfold StartFiber. cbn [threads set_error].
  destruct (threads s !! i) eqn:Hi; [done|]. intros [= <-]. cbn [obind]. apply (f_equal Z.b2z) in Hen, E.
  loop_starts H Hl L_swap Hi E_start. by eapply (fire_loop_ok s _ _ _ _ H Hl); [by left|..].
Qed.

(** *** Tasks *)

Lemma loop_swap s : inv s → loop s = L_swap → good (Ret (set_loop L_task (set_queue [] (tasks_ s) s))).
Proof.
  intros H Hl. pose proof (lo_cbs _ (proj2 H)) as Hcb. rewrite Hl in Hcb.
  assert (queue (set_loop L_task (set_queue [] (tasks_ s) s)) = queue s ++ []) as Hq by (unfold queue; cbn; by rewrite Hcb, !app_nil_r).
  eexists. split; [done|]. split.
  - eapply inv_ext; [intros w; symmetry; by apply (count_loop s _ _ L_task [] w Hl)|]. loop_facts s Hl.
    bounds (λ w, count_loop_ge s _ w Hl). bounds (count_ge s). pose proof (proj1 H) as Hc. arith Hc.
  - eapply (loop_loop_ok s _ [] H Hq); try done; [by left|rewrite Hl; done].
Qed.

Lemma loop_task s t ts : inv s → loop s = L_task → cbs s = t :: ts → good (Ret (set_loop (begin t) (set_queue (tasks_ s) ts s))).
Proof.
  intros [H1 [Hf _ Ho]] Hl Hcb. assert (queue s = t :: queue (set_queue (tasks_ s) ts s)) as Hq by (unfold queue; by rewrite Hcb).
  eexists. split; [done|]. split.
  - assert (∀ w, count (set_loop (begin t) (set_queue (tasks_ s) ts s)) w = count s w) as Hc.
    { intros w. unfold count. rewrite Hl, Hq. cbn. destruct w, t; cbn; lia. }
    eapply inv_ext; [intros w; symmetry; apply Hc|]. arith H1.
  - rewrite Hl in Ho. split; cbn; [by destruct t|by destruct t|]. intros He. destruct (Ho He) as (Hok & _ & H2). rewrite Hq in Hok.
    destruct t as [|[]|[]|[]|]; cbn in Hok |- *; rewrite ?Z.add_0_r, ?Z.sub_0_r in *; try done. by destruct Hok.
Qed.

(** The other direction. *)
Definition other d : dir := match d with Rd => Wr | Wr => Rd end.

Lemma armed_clear m d : Z.b2z (Z.testbit (Z.clearbit m (bit_of d)) (bit_of d)) = 0
  ∧ Z.b2z (Z.testbit (Z.clearbit m (bit_of d)) (bit_of (other d))) = Z.b2z (Z.testbit m (bit_of (other d))).
Proof. split; [by rewrite Z.clearbit_eq|]. by rewrite Z.clearbit_neq by (by destruct d). Qed.

Lemma armed_set m d : Z.b2z (Z.testbit (Z.setbit m (bit_of d)) (bit_of d)) = 1
  ∧ Z.b2z (Z.testbit (Z.setbit m (bit_of d)) (bit_of (other d))) = Z.b2z (Z.testbit m (bit_of (other d))).
Proof. split; [by rewrite Z.setbit_eq by (by destruct d)|]. by rewrite Z.setbit_neq by (by destruct d). Qed.

(** What is known in the rest of a suppression. *)
Lemma rest_facts s d : inv s → loop s = L_rest d → enabled s = true →
  armed d s = true ∧ events d s = 0 ∧ 1 ≤ restart_count d s ≤ match d with Rd => M | Wr => 2 end ∧ u64 (restart_count d s - 1) = restart_count d s - 1.
Proof.
  intros [H [_ _ Ho]] Hl He. restart_facts H d. pose proof (count_loop_only s (W_rest d) eq_refl) as Hr. rewrite Hl in Hr.
  destruct (Ho He) as (_ & _ & Hle). assert (Z.b2z (enabled s) = 1) by (by rewrite He).
  bounds (count_ge s). unfold M in *. destruct d; cbn in *; destruct (armed _ s); cbn in *;
    (split; [lia || done|split; [lia|split; [lia|rewrite u64_small by lia; done]]]).
Qed.

Lemma disabled_loop_ok s : enabled s = false → loop s = L_task → loop_ok s.
Proof. intros He Hl. split; rewrite ?Hl, ?He; done. Qed.

Lemma rest_disabled s d : inv s → loop s = L_rest d → enabled s = false → good (Ret (set_refs (refs s - 1) (set_loop L_task s))).
Proof.
  intros H Hl He. pose proof (f_equal Z.b2z He) as Hb. cbn in Hb.
  destruct d; (eexists; split; [done|]; split; [loop_counts H Hl L_task (@nil task)|by apply disabled_loop_ok]).
Qed.

(** The event is suppressed. *)
Lemma rest_suppressed s d : inv s → loop s = L_rest d → enabled s = true → restart_count d s = 1 →
  good (Ret (set_refs (refs s - 1) (set_loop L_task (SetEventMask (Z.clearbit (event_mask s) (bit_of d)) (set_restart_count d 0 s))))).
Proof.
  intros H Hl He Hc. destruct (rest_facts s d H Hl He) as (Ha & Hev & _ & _). pose proof (armed_clear (event_mask s) d) as Hm.
  destruct (lo_order _ (proj2 H) He) as (Hok & _ & Hle). rewrite Hl in Hok. pose proof (f_equal Z.b2z He) as Hb. cbn in Hb.
  eexists. split; [done|]. split.
  - destruct d; loop_counts H Hl L_task (@nil task).
  - split; [done|done|]. destruct d; cbn in *; intros _; [done|]. by rewrite Hc in Hok.
Qed.

(** The suppression was overtaken by a restart. *)
Lemma rest_overtaken s d i : inv s → loop s = L_rest d → enabled s = true → 1 < restart_count d s → threads s !! i = None →
  good (Ret (set_refs (refs s - 1) (set_loop L_task (set_threads (<[i := F_start d]> (threads s)) (set_events d 1 (set_restart_count d (restart_count d s - 1) s)))))).
Proof.
  intros H Hl He Hc Hi. destruct (rest_facts s d H Hl He) as (Ha & Hev & Hc' & _). apply (f_equal Z.b2z) in Ha.
  destruct (lo_order _ (proj2 H) He) as (Hok & _ & Hle). rewrite Hl in Hok. pose proof (f_equal Z.b2z He) as Hb. cbn in Hb.
  destruct d; [loop_starts H Hl L_task Hi (F_start Rd)|loop_starts H Hl L_task Hi (F_start Wr)]; (split; [done|done|]; cbn in *; intros _).
  - done.
  - split; [eapply credit_ok_eq; [exact Hok|lia]|]. split; [done|lia].
Qed.

Lemma loop_rest s d i o : inv s → loop s = L_rest d → suppress_rest d i s = Some o → good o.
Proof.
  intros H Hl. unfold suppress_rest. cbv zeta. pose proof (desc_finish_ok s _ H Hl eq_refl) as Hfin. destruct (enabled s) eqn:He.
  2:{ intros [= <-]. rewrite Hfin by done. by apply (rest_disabled s d). }
  destruct (rest_facts s d H Hl He) as (-> & Hev & Hc & ->).
  assert (match d with Rd => bool_decide (restart_count d s - 1 ≠ u64 (-1)) | Wr => bool_decide (restart_count d s - 1 = 0 ∨ restart_count d s - 1 = 1) end = true) as ->.
  { destruct d; apply bool_decide_eq_true; [change (u64 (-1)) with M; lia|lia]. }
  destruct (decide _) as [E|E].
  - intros [= <-]. unfold RearmDescriptor. replace (restart_count d s - 1) with 0 by lia.
    assert (enabled (SetEventMask (Z.clearbit (event_mask (set_restart_count d 0 s)) (bit_of d)) (set_restart_count d 0 s)) = true) as ->
      by (by destruct d). cbn [obind]. rewrite Hfin by (by destruct d).
    assert (event_mask (set_restart_count d 0 s) = event_mask s) as -> by (by destruct d). 
    pose proof (rest_suppressed s d H Hl He). destruct d; apply H0; lia.
  - unfold FireEvent. assert (events d (set_restart_count d (restart_count d s - 1) s) = 0) as -> by (by destruct d).
    rewrite decide_True by done. unfold StartFiber. 
    assert (threads (set_events d (u64 (0 + 1)) (set_restart_count d (restart_count d s - 1) s)) = threads s) as -> by (by destruct d).
    destruct (threads s !! i) eqn:Hi; [done|]. intros [= <-]. rewrite Hfin by (by destruct d).
    pose proof (rest_overtaken s d i H Hl He). destruct d; apply H0; (done || lia).
Qed.

(** A restart. *)
Lemma restart_facts s d : inv s → loop s = L_restart d → enabled s = true →
  0 ≤ restart_count d s ≤ match d with Rd => M - 1 | Wr => 1 end ∧ Z.b2z (armed d s) = (if decide (restart_count d s = 0) then 0 else 1)
  ∧ u64 (restart_count d s + 1) = restart_count d s + 1.
Proof.
  intros [H [_ _ Ho]] Hl He. restart_facts H d. pose proof (count_loop_only s (W_rest d) eq_refl) as Hr. pose proof (count_loop_ge s _ (W_restart d) Hl) as Hg.
  rewrite Hl in Hr, Ho. destruct (Ho He) as (_ & Hle & _). assert (Z.b2z (enabled s) = 1) by (by rewrite He). pose proof (b2z_bounds (armed d s)).
  bounds (count_ge s). unfold M in *. destruct d; cbn in *; [clear Hle|specialize (Hle eq_refl)]; (split; [lia|]; split; [case_decide; lia|apply u64_small; lia]).
Qed.

Lemma restart_disabled s d : inv s → loop s = L_restart d → enabled s = false → good (Ret (set_refs (refs s - 1) (set_loop L_task s))).
Proof.
  intros H Hl He. pose proof (f_equal Z.b2z He) as Hb. cbn in Hb.
  destruct d; (eexists; split; [done|]; split; [loop_counts H Hl L_task (@nil task)|by apply disabled_loop_ok]).
Qed.

Lemma restart_armed s d : inv s → loop s = L_restart d → enabled s = true → restart_count d s ≠ 0 →
  good (Ret (set_refs (refs s - 1) (set_loop L_task (set_restart_count d (restart_count d s + 1) s)))).
Proof.
  intros H Hl He Hc. destruct (restart_facts s d H Hl He) as (Hr & Ha & _). rewrite decide_False in Ha by done.
  destruct (lo_order _ (proj2 H) He) as (Hok & _ & Hle). rewrite Hl in Hok. pose proof (f_equal Z.b2z He) as Hb. cbn in Hb.
  eexists. split; [done|]. split.
  - destruct d; loop_counts H Hl L_task (@nil task).
  - split; [done|done|]. destruct d; cbn in *; intros _; [done|]. split; [eapply credit_ok_eq; [exact Hok|lia]|]. split; [done|lia].
Qed.

Lemma restart_suppressed s d : inv s → loop s = L_restart d → enabled s = true → restart_count d s = 0 →
  good (Ret (set_refs (refs s - 1) (set_loop L_task (SetEventMask (Z.setbit (event_mask s) (bit_of d)) (set_restart_count d 1 s))))).
Proof.
  intros H Hl He Hc. destruct (restart_facts s d H Hl He) as (Hr & Ha & _). rewrite decide_True in Ha by done.
  pose proof (armed_set (event_mask s) d) as Hm. destruct (lo_order _ (proj2 H) He) as (Hok & _ & Hle). rewrite Hl in Hok.
  pose proof (f_equal Z.b2z He) as Hb. cbn in Hb. eexists. split; [done|]. split.
  - destruct d; loop_counts H Hl L_task (@nil task).
  - split; [done|done|]. destruct d; cbn in *; intros _; [done|]. split; [eapply credit_ok_eq; [exact Hok|lia]|]. split; [done|lia].
Qed.

Lemma loop_restart s d : inv s → loop s = L_restart d → good (restart_now d s).
Proof.
  intros H Hl. unfold restart_now. cbv zeta. pose proof (desc_finish_ok s _ H Hl eq_refl) as Hfin. destruct (enabled s) eqn:He.
  2:{ rewrite Hfin by done. by apply (restart_disabled s d). }
  destruct (restart_facts s d H Hl He) as (Hc & Ha & ->).
  assert (match d with Rd => true | Wr => bool_decide (restart_count d s = 0 ∨ restart_count d s = 1) end = true) as ->.
  { destruct d; [done|]. apply bool_decide_eq_true. lia. }
  destruct (decide (restart_count d s = 0)) as [E|E].
  - destruct (armed d s); [done|]. unfold RearmDescriptor. rewrite E.
    assert (enabled (SetEventMask (Z.setbit (event_mask (set_restart_count d (0 + 1) s)) (bit_of d)) (set_restart_count d (0 + 1) s)) = true) as ->
      by (by destruct d). cbn [obind]. rewrite Hfin by (by destruct d).
    assert (event_mask (set_restart_count d (0 + 1) s) = event_mask s) as -> by (by destruct d).
    pose proof (restart_suppressed s d H Hl He E) as Hg. by destruct d.
  - rewrite Hfin by (by destruct d). pose proof (restart_armed s d H Hl He E) as Hg. by destruct d.
Qed.

Lemma alive_loop s l : inv s → loop s = l → (match l with L_wait | L_swap | L_task => False | _ => True end) → 0 < refs s.
Proof.
  intros H Hl Hn. pose proof (proj1 H) as H1. destruct l as [|e r w| | | | |d b|q k|d|d| | | | |]; try done.
  1:{ destruct (lo_fire _ (proj2 H) _ _ _ Hl) as (He & _). rewrite (enabled_refs s H1 He). pose proof (count_ge s W_hold). lia. }
  all: pose proof (count_loop_ge s _ W_hold Hl); pose proof (count_loop_ge s _ W_early Hl); pose proof (count_loop_ge s _ W_reset Hl);
    pose proof (count_loop_ge s _ (W_run Rd) Hl); pose proof (count_loop_ge s _ (W_run Wr) Hl);
    cleanup_facts H1; end_facts H1; events_facts H1 Rd; events_facts H1 Wr; bounds (count_ge s); unfold M in *.
  all: try (cbn in *; lia).
  - destruct d, b; cbn in *; lia.
  - destruct k; cbn in *; lia.
Qed.

Lemma loop_step_good s i err rd wr o : inv s → legal (Go_loop i err rd wr) s → loop_step i err rd wr s = Some o → good o.
Proof.
  intros H (He & Hr & Hw & Hre & Hwe). pose proof (alive_loop s (loop s) H eq_refl) as Halive. unfold loop_step.
  destruct (loop s) as [|e r w| | | | |d b|q k|d|d| | | | |] eqn:Hl; rewrite ?touch_ok, ?decide_True by (by apply Halive); try (intros [= <-]).
  - by apply loop_wait.
  - unfold FireEvents. destruct e; [|destruct r; [|destruct w]].
    + destruct (FireErrorEvent i s) as [o'|] eqn:E; [|done]. intros [= <-]. by eapply fire_error.
    + destruct (FireEvent Rd i s) as [s1|] eqn:E; [|done]. intros [= <-]. by eapply fire_read.
    + destruct (FireEvent Wr i s) as [s1|] eqn:E; [|done]. intros [= <-]. by eapply fire_write.
    + intros [= <-]. loop_goes H Hl L_swap (@nil task).
  - by apply loop_swap.
  - destruct (cbs s) as [|t ts] eqn:Hcb; [|by apply loop_task]. loop_goes H Hl L_wait (@nil task).
    eapply (loop_loop_ok s _ [] H); try done; [queue_eq|by left|rewrite Hl; done].
  - by apply loop_disable.
  - by apply loop_pend.
  - by apply loop_store.
  - by apply loop_check.
  - by apply loop_rest.
  - by apply loop_restart.
  - eapply loop_clean; [done..|]. by left.
  - eapply loop_clean; [done..|]. right. by left.
  - eapply loop_clean; [done..|]. right. by right.
  - by apply loop_detach.
  - by apply loop_complete.
Qed.

(** ** Correctness *)

Lemma step_good s e o : inv s → legal e s → step e s = Some o → good o.
Proof.
  intros H Hle. destruct e as [i r|i d|i|i a|i err rd wr]; [| | |by apply thread_step_good|by apply loop_step_good];
    cbn; unfold call, StartFiber; cbn.
  - destruct Hle as [Hr Hp]. rewrite decide_False by done. destruct (threads s !! i) eqn:Hi; [done|]. intros [= <-].
    eexists. split; [done|]. apply call_good; [done..|]. right. right. right. by exists r.
  - destruct (threads s !! i) eqn:Hi; [done|]. intros [= <-]. eexists. split; [done|]. destruct Hle as [Hp Hc].
    apply call_good; [done..|]. destruct d; [by left|right; by left].
  - destruct (threads s !! i) eqn:Hi; [done|]. intros [= <-]. eexists. split; [done|]. apply call_good; [done..|]. right. right. by left.
Qed.

Lemma inv_initial mask : inv (initial mask).
Proof.
  assert (∀ w, 0 = count (initial mask) w) as Hc by (intros w; destruct w; done).
  assert (Harm : ∀ d, armed d (initial mask) = Z.testbit mask (bit_of d)).
  { intros d. unfold armed, initial, AttachDescriptor, EnableDescriptor. cbn [event_mask enabled SetEventMask SetEnabled Ref set_refs Descriptor_new].
    rewrite !Z.lor_spec. destruct d; cbn [bit_of]; change (Z.testbit kEpollError _) with false; change (Z.testbit kExtraEpollFlags _) with false; by rewrite !orb_false_r. }
  split.
  - eapply (inv_ext (λ _, 0)); [done|]. split; try (intros []; cbn; lia); try (cbn; lia).
    + done.
    + intros []; cbn; unfold M; lia.
    + by intros r ?%not_elem_of_nil.
    + intros d _. rewrite Harm. destruct d; cbn; destruct (Z.testbit mask _); unfold M; cbn; lia.
    + intros d _. destruct d; cbn; destruct (Z.testbit mask _); unfold M; cbn; lia.
  - split; cbn; try done. intros _. split; [done|]. split; [done|]. destruct (Z.testbit mask _); lia.
Qed.

Lemma desc_reachable_inv mask s : reachable mask s → inv s.
Proof.
  induction 1 as [|e s s' Hr IH Hle E]; [apply inv_initial|]. destruct (step_good s e _ IH Hle E) as (? & [= <-] & ?). done.
Qed.

(** A thread in a callback of the descriptor, or on its way there. *)
Definition calling (x : pc) : bool :=
  match x with F_start _ | F_call _ | F_sub _ | F_leave _ | F_leave_add _ | F_suppress _ | E_start | E_call | E_sub => true | _ => false end.

Lemma cleaned_up s : inv s → cleanups s ≠ [] →
  cleanups s = [cleanup_reason s] ∧ cleanup_reason s ≠ NoReason ∧ enabled s = false ∧ ∀ i x, threads s !! i = Some x → calling x = false.
Proof.
  intros [H _] Hne. cleanup_facts H. end_facts H. events_facts H Rd. events_facts H Wr. bounds (count_ge s).
  assert (Hr : ∀ r, r ∈ cleanups s → r = cleanup_reason s) by apply (iv_reason _ _ H).
  destruct (cleanups s) as [|r [|r' l]] eqn:Hcl; [done| |cbn in *; lia]. cbn [length] in *. split; [f_equal; apply Hr; by left|].
  split; [intros E; unfold killed in *; rewrite bool_decide_false in * by (by intros N); norm; lia|].
  split; [destruct (enabled s); [norm; lia|done]|]. intros i x Hi.
  pose proof (count_thread_ge s i x (W_run Rd) Hi). pose proof (count_thread_ge s i x (W_run Wr) Hi). pose proof (count_thread_ge s i x W_err Hi).
  destruct x as [[]|[]|[]|[]|[]|[]| | | |q|r0| |d|]; norm; try done; lia.
Qed.

Lemma one_caller s d i j : inv s → threads s !! i = Some (F_call d) → threads s !! j = Some (F_call d) → i = j.
Proof.
  intros [H _] Hi Hj. destruct (decide (i = j)) as [|Hne]; [done|exfalso]. pose proof (iv_act _ _ H d) as Ha. bounds (count_ge s).
  assert (2 ≤ count s (W_run d)); [|destruct d; lia]. unfold count. rewrite (total_delete _ _ i _ Hi), (total_delete _ (delete i (threads s)) j (F_call d)).
  - destruct d; cbn; lia.
  - by rewrite lookup_delete_ne.
Qed.

(** C13: In every interleaving of the event loop, the fibers, and the callers, no check
    of the code fails and no descriptor is used after the last reference to it is
    gone.  [OnReadable] and [OnWritable] each run in one fiber at a time.  [OnCleanup]
    is called at most once, with the reason of the first [Kill], after the descriptor
    was disabled, and from then on no callback runs; the descriptor is destroyed only
    after that. *)
Theorem Descriptor_safe mask s e : reachable mask s → legal e s →
  (∀ o, step e s = Some o → ∃ s', o = Ret s')
  ∧ (∀ d i j, threads s !! i = Some (F_call d) → threads s !! j = Some (F_call d) → i = j)
  ∧ (cleanups s ≠ [] → cleanups s = [cleanup_reason s] ∧ cleanup_reason s ≠ NoReason ∧ enabled s = false
       ∧ ∀ i x, threads s !! i = Some x → calling x = false)
  ∧ (refs s ≤ 0 → cleanups s ≠ []).
Proof.
  intros H%desc_reachable_inv Hle. split; [|split; [|split]].
  - intros o E. destruct (step_good s e o H Hle E) as (s' & -> & _). by exists s'.
  - intros d i j. by apply one_caller.
  - by apply cleaned_up.
  - intros Hr Hc. pose proof (alive_queued s (proj1 H) Hc). lia.
Qed.

Lemma no_weight s w : (∀ i x, threads s !! i = Some x → on_thread w x = 0%nat) → queue s = [] → on_loop w (loop s) = 0%nat → count s w = 0.
Proof.
  intros Ht Hq Hl. unfold count. rewrite Hq, Hl. cbn. destruct (total (on_thread w) (threads s)) eqn:E; [done|].
  destruct (total_pos (on_thread w) (threads s)) as (i & x & Hi & Hx); [lia|]. rewrite (Ht i x Hi) in Hx. lia.
Qed.

Lemma waiters_hold (T : gmap nat pc) : (∀ i x, T !! i = Some x → x = W_wait) → total (on_thread W_hold) T = size T.
Proof.
  induction T as [|i x T Hi IH] using map_ind; intros HT; [done|]. rewrite total_new, map_size_insert_None by done.
  rewrite (HT i x) by apply lookup_insert_eq. cbn [on_thread]. rewrite IH; [lia|].
  intros j y Hj. apply (HT j). rewrite lookup_insert_ne; [done|congruence].
Qed.

(** C14: No cleanup is missed: a thread waits only in [WaitForCleanup], and the event loop
    never waits for a thread; and whenever, after [Kill], no fiber, no other call and no
    task is left to run and the event loop is back at its wait, [OnCleanup] was called
    once, with the reason of the [Kill], every reference to the descriptor was given
    back but those of the threads in [WaitForCleanup], and these can return.  That the
    fibers, calls and tasks come to an end is not part of it: a callback may be called
    for as long as events arrive. *)
Theorem Descriptor_progress mask s : reachable mask s →
  (∀ i x a, threads s !! i = Some x → step (Go i a) s = None → x = W_wait)
  ∧ (∀ i err rd wr, threads s !! i = None → step (Go_loop i err rd wr) s ≠ None)
  ∧ (cleanup_reason s ≠ NoReason → (∀ i x, threads s !! i = Some x → x = W_wait) → loop s = L_wait → tasks_ s = [] →
       cleanups s = [cleanup_reason s] ∧ refs s = Z.of_nat (size (threads s)) ∧ ∀ i a, is_Some (threads s !! i) → step (Go i a) s ≠ None).
Proof.
  intros H%desc_reachable_inv. split; [|split].
  - intros i x a Hi. cbn. unfold thread_step. rewrite Hi. by destruct x.
  - intros i err rd wr Hi. cbn. unfold loop_step. pose proof (alive_loop s (loop s) H eq_refl) as Ha.
    destruct (loop s) as [|e r w| | | | |d b|q k|d|d| | | | |]; try done; rewrite decide_True by (by apply Ha).
    + unfold FireEvents, FireErrorEvent, FireEvent, StartFiber. by repeat case_match; cbn in *; simplify_eq.
    + unfold suppress_rest, FireEvent, StartFiber. assert (∀ v v', threads (set_events d v (set_restart_count d v' s)) = threads s) as Ht by (by destruct d).
      repeat case_match; cbn in *; rewrite ?Ht in *; simplify_eq; done.
  - intros Hk Hthr Hl Hts. pose proof H as Hi. destruct H as [H [_ Hcb _]]. rewrite Hl in Hcb. assert (queue s = []) as Hq by (unfold queue; by rewrite Hcb, Hts).
    assert (∀ w, w ≠ W_hold → count s w = 0) as H0.
    { intros w Hw. apply no_weight; [|done|rewrite Hl; by destruct w]. intros i x ->%Hthr. by destruct w. }
    cleanup_facts H. end_facts H. pose proof (iv_live _ _ H). events_facts H Rd. events_facts H Wr. rewrite !H0 in * by done.
    assert (Z.b2z (killed s) = 1) by (unfold killed; by rewrite bool_decide_true).
    assert (Z.b2z (cleanup_completed s) = 1) as Hc by (norm; lia).
    assert (cleanups s = [cleanup_reason s]) as Hcl by (apply cleaned_up; [done|]; intros E; rewrite E in *; norm; lia).
    split; [done|]. split.
    + rewrite (iv_refs _ _ H), Hcl. unfold count. rewrite Hq, Hl, waiters_hold by done. cbn. lia.
    + intros i a [x Hx]. cbn. unfold thread_step. rewrite Hx, (Hthr i x Hx). by destruct (cleanup_completed s).
Qed.

(** *** A descriptor that is killed while it is read from *)

#[global] Instance legal_dec e s : Decision (legal e s).
Proof. destruct e as [i r|i d|i|i a|i err rd wr]; cbn; try apply _; [destruct d; apply _|destruct a; try apply _; destruct (threads s !! i) as [[]|]; apply _]. Defined.

Definition stepped_legal (e : event) s : option state := if decide (legal e s) then stepped step e s else None.

Lemma Descriptor_run_reachable mask es s : reachable mask s → reachable mask (default s (run_steps stepped_legal es s)).
Proof.
  apply run_steps_ind. intros e s1 s2 Hr Hs. unfold stepped_legal in Hs. case_decide as Hle; [|done].
  apply stepped_Some in Hs. by apply (Reach_step mask e s1).
Qed.

Definition loop_steps (n : nat) : list event := replicate n (Go_loop 9 false false false).
Definition poll_read i : list event := [Go_loop 9 false true false; Go_loop i false false false; Go_loop 9 false false false].

(** [Kill] has stored its reason and not yet posted its task when [OnReadable]
    returns [Leaving]. *)
Definition leaving : state :=
  default (initial EPOLLIN) (run_steps stepped_legal
    (poll_read 1 ++ [Go 1 Ready; Call_Kill 2 UserInitiated; Call_Wait 4; Go 2 Ready; Go 1 Leaving]) (initial EPOLLIN)).

(** The counter is reset while the descriptor is polled: [OnReadable] is called
    again. *)
Definition called_again : state :=
  default leaving (run_steps stepped_legal
    (replicate 3 (Go 1 Ready) ++ loop_steps 5 ++ poll_read 3 ++ [Go 3 Ready]) leaving).

(** In the end [OnCleanup] is called. *)
Definition killed_and_gone : state :=
  default called_again (run_steps stepped_legal
    ([Go 2 Ready; Go 3 Leaving] ++ replicate 3 (Go 3 Ready) ++ loop_steps 24) called_again).

Lemma leaving_reachable : reachable EPOLLIN leaving.
Proof. apply Descriptor_run_reachable, Reach_initial. Qed.
Lemma called_again_reachable : reachable EPOLLIN called_again.
Proof. apply Descriptor_run_reachable, leaving_reachable. Qed.
Lemma killed_and_gone_reachable : reachable EPOLLIN killed_and_gone.
Proof. apply Descriptor_run_reachable, called_again_reachable. Qed.

Example called_after_leaving : threads leaving !! 1%nat = Some (F_leave Rd) ∧ threads called_again !! 3%nat = Some (F_call Rd).
Proof. vm_compute. done. Qed.

Lemma Descriptor_safe_witness :
  (loop killed_and_gone, cleanups killed_and_gone) = (L_wait, [UserInitiated]) ∧
  cleanups killed_and_gone = [cleanup_reason killed_and_gone] ∧ enabled killed_and_gone = false.
Proof.
  split; [vm_compute; reflexivity|].
  destruct (Descriptor_safe EPOLLIN killed_and_gone (Go 0 Ready) killed_and_gone_reachable I) as (_ & _ & Hc & _).
  destruct Hc as (H1 & _ & H2 & _); [vm_compute; discriminate|split; [exact H1|exact H2]].
Defined.

Lemma Descriptor_progress_witness :
  cleanups killed_and_gone = [UserInitiated] ∧ step (Go 4 Ready) killed_and_gone ≠ None.
Proof.
  destruct (Descriptor_progress EPOLLIN killed_and_gone killed_and_gone_reachable) as (_ & _ & Hp).
  destruct Hp as (Hc & _ & Hw); [vm_compute; discriminate| |vm_compute; reflexivity|vm_compute; reflexivity|].
  - assert (map_to_list (threads killed_and_gone) = [(4%nat, W_wait)]) as Hm by (vm_compute; reflexivity).
    intros i x Hi. apply elem_of_map_to_list in Hi. rewrite Hm in Hi. apply list_elem_of_singleton in Hi. by injection Hi.
  - assert (cleanup_reason killed_and_gone = UserInitiated) as Hr by (vm_compute; reflexivity). rewrite Hr in Hc.
    split; [exact Hc|]. apply Hw. vm_compute. eauto.
Defined.
End Descriptor.
