(* ===== verification/HashKv.v ===== *)
(** * The partitioned hash map of cache/storage/memory/concurrent_hash_map.h

    [HashKv<V>] is a vector of [std::unordered_map]s, each with its own lock; a
    key belongs to the partition [Hash(key)].  The vector is stored sparsely: an
    index below [vec_size] with no entry holds an empty map.  [Get] and
    [GetOrCreate] return pointers into the maps, so the values live in cells:
    an entry of a map is the address of its cell, assignment to an existing key
    writes the cell in place, and [erase] frees it.  Each operation takes the
    partition's lock for its whole body, and is one step here; the pointer it
    returns is used after the lock is released.

    [HashKv_refines] relates any sequence of operations to a finite map,
    [pointer_stable] says how long a pointer stays good, and [Del_dangles] that
    a [Del] of the key ends its life. *)

From S2P Require Import Prelude.

(** [std::hash<std::string>]: some function to [size_t]. *)
Class StdHash := std_hash : string → Z.

Class StdHashSpec `{StdHash} : Prop :=
  std_hash_range s : 0 ≤ std_hash s < 2 ^ 64.

Record HashKv (V : Type) := mkHashKv {
  partition_num : option Z;              (* unset before [Init] *)
  vec_size : Z;                          (* [_map_vec.size()] *)
  map_vec : gmap Z (gmap string Z);      (* keys to the addresses of their cells *)
  cells : gmap Z V;
  next_cell : Z;
}.
Arguments mkHashKv {V}.
Arguments partition_num {V}.
Arguments vec_size {V}.
Arguments map_vec {V}.
Arguments cells {V}.
Arguments next_cell {V}.

Section ops.
Context {V : Type} `{StdHash}.
Implicit Types (kv : HashKv V) (k : string) (v : V).

(** [HashKv() = default] leaves [_partition_num] unset. *)
Definition HashKv_default : HashKv V := mkHashKv None 0 ∅ ∅ 0.

(** The [int] is converted to [size_t]; a vector of that size cannot be made
    from a negative number. *)
Definition Init (n : Z) kv : outcome (bool * HashKv V) :=
  if n <? 0 then Throw
  else Ret (true, mkHashKv (Some (u64 n)) n ∅ ∅ (next_cell kv)).

Definition Hash kv k : outcome Z :=
  n ←! deref (partition_num kv);
  if n =? 0 then Undef else Ret (std_hash k mod n).

(** [_map_vec[idx]]. *)
Definition sub_map kv (idx : Z) : outcome (gmap string Z) :=
  if (0 <=? idx) && (idx <? vec_size kv) then Ret (default ∅ (map_vec kv !! idx)) else Undef.

(** A new cell for [v] under [k]. *)
Definition emplace kv (idx : Z) (m : gmap string Z) k v : HashKv V :=
  mkHashKv (partition_num kv) (vec_size kv) (<[idx := <[k := next_cell kv]> m]> (map_vec kv))
    (<[next_cell kv := v]> (cells kv)) (next_cell kv + 1).

Definition Get kv k : outcome (option Z) :=
  idx ←! Hash kv k;
  m ←! sub_map kv idx;
  Ret (m !! k).

(** [try_emplace] leaves the value alone when the key is there. *)
Definition GetOrCreate kv k v : outcome (Z * HashKv V) :=
  idx ←! Hash kv k;
  m ←! sub_map kv idx;
  match m !! k with
  | Some p => Ret (p, kv)
  | None => Ret (next_cell kv, emplace kv idx m k v)
  end.

(** [insert_or_assign] assigns to the cell of a key that is there. *)
Definition Add kv k v : outcome (bool * HashKv V) :=
  idx ←! Hash kv k;
  m ←! sub_map kv idx;
  match m !! k with
  | Some p =>
      Ret (true, mkHashKv (partition_num kv) (vec_size kv) (map_vec kv)
                   (<[p := v]> (cells kv)) (next_cell kv))
  | None => Ret (true, emplace kv idx m k v)
  end.

(** [erase] frees the cell. *)
Definition Del kv k : outcome (bool * HashKv V) :=
  idx ←! Hash kv k;
  m ←! sub_map kv idx;
  match m !! k with
  | Some p =>
      Ret (true, mkHashKv (partition_num kv) (vec_size kv) (<[idx := delete k m]> (map_vec kv))
                   (delete p (cells kv)) (next_cell kv))
  | None => Ret (true, kv)
  end.

(** The use of a pointer the map returned. *)
Definition cell_read kv (p : Z) : outcome V := deref (cells kv !! p).

(** ** Sequences of operations

    The result of an operation: a boolean, or the value a returned pointer
    points to when the operation returns. *)
Inductive op :=
| OGet (k : string)
| OGetOrCreate (k : string) (v : V)
| OAdd (k : string) (v : V)
| ODel (k : string).

Inductive res := RBool (b : bool) | RVal (o : option V).

Definition apply_op kv (o : op) : outcome (res * HashKv V) :=
  match o with
  | OGet k =>
      p ←! Get kv k;
      match p with
      | None => Ret (RVal None, kv)
      | Some p => v ←! cell_read kv p; Ret (RVal (Some v), kv)
      end
  | OGetOrCreate k v =>
      '(p, kv') ←! GetOrCreate kv k v;
      v ←! cell_read kv' p; Ret (RVal (Some v), kv')
  | OAdd k v => '(b, kv') ←! Add kv k v; Ret (RBool b, kv')
  | ODel k => '(b, kv') ←! Del kv k; Ret (RBool b, kv')
  end.

Fixpoint apply_ops kv (os : list op) : outcome (list res * HashKv V) :=
  match os with
  | [] => Ret ([], kv)
  | o :: os' =>
      '(r, kv1) ←! apply_op kv o;
      '(rs, kv2) ←! apply_ops kv1 os';
      Ret (r :: rs, kv2)
  end.

(** ** The abstract map *)

Definition spec_op (M : gmap string V) (o : op) : res * gmap string V :=
  match o with
  | OGet k => (RVal (M !! k), M)
  | OGetOrCreate k v =>
      match M !! k with
      | Some v' => (RVal (Some v'), M)
      | None => (RVal (Some v), <[k := v]> M)
      end
  | OAdd k v => (RBool true, <[k := v]> M)
  | ODel k => (RBool true, delete k M)
  end.

Fixpoint spec_ops (M : gmap string V) (os : list op) : list res * gmap string V :=
  match os with
  | [] => ([], M)
  | o :: os' =>
      let '(r, M1) := spec_op M o in
      let '(rs, M2) := spec_ops M1 os' in
      (r :: rs, M2)
  end.

(** The cell of a key. *)
Definition cell_of kv k : option Z :=
  n ← partition_num kv; m ← map_vec kv !! (std_hash k mod n); m !! k.

(** The representation invariant: the vector has its [_partition_num] entries,
    every entry of a partition has a live cell, no two keys share a cell, and
    the cells in use were handed out before. *)
Record hashkv_inv kv : Prop := {
  hi_size : ∃ n, partition_num kv = Some n ∧ 0 < n ∧ vec_size kv = n;
  hi_live k p : cell_of kv k = Some p → is_Some (cells kv !! p);
  hi_inj k1 k2 p : cell_of kv k1 = Some p → cell_of kv k2 = Some p → k1 = k2;
  hi_fresh p : is_Some (cells kv !! p) → p < next_cell kv;
}.

Definition hashkv_abs kv (M : gmap string V) : Prop :=
  hashkv_inv kv ∧ ∀ k, M !! k = (p ← cell_of kv k; cells kv !! p).
End ops.
Arguments op : clear implicits.
Arguments res : clear implicits.

Section proofs.
Context {V : Type} `{StdHashSpec}.
Implicit Types (kv : HashKv V) (k : string) (v : V) (M : gmap string V).

(** The partition of a key, and what a change of one entry does to the cells of
    all keys. *)
Lemma locate kv k :
  hashkv_inv kv →
  ∃ idx m, Hash kv k = Ret idx ∧ sub_map kv idx = Ret m ∧ m !! k = cell_of kv k ∧
    (∀ f (cs : gmap Z V) nc k', cell_of (mkHashKv (partition_num kv) (vec_size kv)
                       (<[idx := partial_alter f k m]> (map_vec kv)) cs nc) k' =
       if decide (k' = k) then f (cell_of kv k) else cell_of kv k').
Proof.
  intros [(n & Hn & Hpos & Hsz) _ _ _]. exists (std_hash k mod n), (default ∅ (map_vec kv !! (std_hash k mod n))).
  pose proof (Z.mod_pos_bound (std_hash k) n Hpos) as Hb.
  assert (Hm : default ∅ (map_vec kv !! (std_hash k mod n)) !! k = cell_of kv k).
  { unfold cell_of. rewrite Hn. simpl. by destruct (map_vec kv !! _). }
  split_and!.
  - unfold Hash. rewrite Hn. simpl. destruct (Z.eqb_spec n 0); [lia|done].
  - unfold sub_map. rewrite Hsz. destruct (Z.leb_spec 0 (std_hash k mod n)), (Z.ltb_spec (std_hash k mod n) n);
      simpl; lia || done.
  - done.
  - intros f cs nc k'. unfold cell_of at 1. simpl. rewrite Hn. simpl.
    destruct (decide (std_hash k' mod n = std_hash k mod n)) as [Heq|Hne].
    + rewrite Heq, lookup_insert_eq. simpl. destruct (decide (k' = k)) as [->|Hk].
      * by rewrite lookup_partial_alter_eq, Hm.
      * rewrite lookup_partial_alter_ne by done. unfold cell_of. rewrite Hn. simpl.
        rewrite Heq. by destruct (map_vec kv !! _).
    + rewrite lookup_insert_ne by done. rewrite decide_False by congruence.
      unfold cell_of. by rewrite Hn.
Qed.

Lemma abs_cell kv M k : hashkv_abs kv M → cell_of kv k = None ↔ M !! k = None.
Proof.
  intros [Hinv ->]. destruct (cell_of kv k) as [p|] eqn:E; simpl; [|done].
  destruct (hi_live _ Hinv _ _ E) as [v ->]. done.
Qed.

Lemma fresh_cell kv k : hashkv_inv kv → cell_of kv k ≠ Some (next_cell kv).
Proof. intros Hinv Hc. pose proof (hi_fresh _ Hinv _ (hi_live _ Hinv _ _ Hc)). lia. Qed.

(** A new entry. *)
Lemma emplace_abs kv M idx m k v :
  hashkv_abs kv M → cell_of kv k = None →
  (∀ k', cell_of (emplace kv idx m k v) k' =
     if decide (k' = k) then Some (next_cell kv) else cell_of kv k') →
  hashkv_abs (emplace kv idx m k v) (<[k := v]> M).
Proof.
  intros [Hinv HM] Hnone Hc. split; [split|].
  - apply (hi_size _ Hinv).
  - intros k' p. rewrite Hc. simpl. rewrite lookup_insert_is_Some'.
    case_decide; [intros [= <-]; by left|]. intros ?%(hi_live _ Hinv). by right.
  - intros k1 k2 p. rewrite !Hc. pose proof (fresh_cell kv k1 Hinv). pose proof (fresh_cell kv k2 Hinv).
    repeat case_decide; try congruence. apply (hi_inj _ Hinv).
  - intros p. simpl. rewrite lookup_insert_is_Some'. intros [<-|Hp]; [lia|].
    apply (hi_fresh _ Hinv) in Hp. lia.
  - intros k'. rewrite Hc. simpl. destruct (decide (k' = k)) as [->|Hk]; simpl.
    + by rewrite !lookup_insert_eq.
    + rewrite lookup_insert_ne, HM by done. destruct (cell_of kv k') as [p|] eqn:E; simpl; [|done].
      rewrite lookup_insert_ne; [done|]. intros <-. by apply (fresh_cell kv k').
Qed.

(** An assignment to the cell of a key. *)
Lemma assign_abs kv M k p v :
  hashkv_abs kv M → cell_of kv k = Some p →
  hashkv_abs (mkHashKv (partition_num kv) (vec_size kv) (map_vec kv) (<[p := v]> (cells kv)) (next_cell kv))
    (<[k := v]> M).
Proof.
  intros [Hinv HM] Hp. split; [split|].
  - apply (hi_size _ Hinv).
  - intros k' p' Hc. simpl. rewrite lookup_insert_is_Some'. right. by apply (hi_live _ Hinv k').
  - apply (hi_inj _ Hinv).
  - intros p'. simpl. rewrite lookup_insert_is_Some'. intros [<-|?]; apply (hi_fresh _ Hinv); [|done].
    by apply (hi_live _ Hinv k).
  - intros k'. change (cell_of _ k') with (cell_of kv k'). simpl. destruct (decide (k' = k)) as [->|Hk].
    + rewrite lookup_insert_eq, Hp. simpl. by rewrite lookup_insert_eq.
    + rewrite lookup_insert_ne, HM by done. destruct (cell_of kv k') as [p'|] eqn:E; simpl; [|done].
      rewrite lookup_insert_ne; [done|]. intros <-. apply Hk. by eapply (hi_inj _ Hinv).
Qed.

(** The removal of an entry. *)
Lemma erase_abs kv M mv k p :
  hashkv_abs kv M → cell_of kv k = Some p →
  (∀ k', cell_of (mkHashKv (partition_num kv) (vec_size kv) mv (delete p (cells kv)) (next_cell kv)) k' =
     if decide (k' = k) then None else cell_of kv k') →
  hashkv_abs (mkHashKv (partition_num kv) (vec_size kv) mv (delete p (cells kv)) (next_cell kv))
    (delete k M).
Proof.
  intros [Hinv HM] Hp Hc.
  assert (Hother : ∀ k', k' ≠ k → cell_of kv k' ≠ Some p).
  { intros k' Hk ?. apply Hk. by eapply (hi_inj _ Hinv). }
  split; [split|].
  - apply (hi_size _ Hinv).
  - intros k' p'. rewrite Hc. simpl. case_decide as Hk; [done|]. intros Hp'.
    rewrite lookup_delete_ne; [by apply (hi_live _ Hinv k')|]. intros ->. by apply (Hother k').
  - intros k1 k2 p'. rewrite !Hc. repeat case_decide; try done. apply (hi_inj _ Hinv).
  - intros p'. simpl. rewrite lookup_delete_is_Some. intros [_ ?]. by apply (hi_fresh _ Hinv).
  - intros k'. rewrite Hc. simpl. destruct (decide (k' = k)) as [->|Hk]; simpl.
    + by rewrite lookup_delete_eq.
    + rewrite lookup_delete_ne, HM by done. destruct (cell_of kv k') as [p'|] eqn:E; simpl; [|done].
      rewrite lookup_delete_ne; [done|]. intros <-. by apply (Hother k').
Qed.

(** ** The operations *)

Lemma Init_abs n kv :
  0 < n < 2 ^ 31 → ∃ kv', Init n kv = Ret (true, kv') ∧ hashkv_abs kv' ∅.
Proof.
  intros Hn. unfold Init. destruct (Z.ltb_spec n 0); [lia|]. eexists. split; [done|].
  rewrite u64_small by lia. split; [split; unfold cell_of; simpl|].
  - exists n. split_and!; [done|lia|done].
  - intros k p. by rewrite lookup_empty.
  - intros k1 k2 p. by rewrite lookup_empty.
  - intros p. rewrite lookup_empty. by intros [].
  - intros k. unfold cell_of. simpl. by rewrite !lookup_empty.
Qed.

Lemma Get_cell kv k : hashkv_inv kv → Get kv k = Ret (cell_of kv k).
Proof.
  intros Hinv. destruct (locate kv k Hinv) as (idx & m & Hh & Hs & Hm & _).
  unfold Get. by rewrite Hh; cbn [obind]; rewrite Hs; cbn [obind]; rewrite Hm.
Qed.

(** The pointer [Get] returns, and what it points to. *)
Lemma Get_abs kv M k :
  hashkv_abs kv M →
  match M !! k with
  | None => Get kv k = Ret None
  | Some v => ∃ p, Get kv k = Ret (Some p) ∧ cell_read kv p = Ret v
  end.
Proof.
  intros Habs. pose proof Habs as [Hinv HM]. rewrite Get_cell, HM by done.
  destruct (cell_of kv k) as [p|] eqn:E; simpl; [|done].
  destruct (hi_live _ Hinv _ _ E) as [v Hv]. rewrite Hv. exists p. split; [done|].
  unfold cell_read. by rewrite Hv.
Qed.

Lemma GetOrCreate_abs kv M k v :
  hashkv_abs kv M →
  ∃ p kv', GetOrCreate kv k v = Ret (p, kv') ∧ cell_of kv' k = Some p ∧
    hashkv_abs kv' (if M !! k then M else <[k := v]> M) ∧
    (∀ k' p', cell_of kv k' = Some p' → cell_of kv' k' = Some p').
Proof.
  intros Habs. pose proof Habs as [Hinv _]. pose proof (abs_cell kv M k Habs) as Hnone.
  destruct (locate kv k Hinv) as (idx & m & Hh & Hs & Hm & Hc).
  unfold GetOrCreate. rewrite Hh. cbn [obind]. rewrite Hs. cbn [obind]. rewrite Hm.
  destruct (cell_of kv k) as [p|] eqn:E.
  - eexists _, _. split_and!; [done|done| |done]. destruct (M !! k) eqn:EM; [done|].
    by pose proof (proj2 Hnone eq_refl).
  - assert (Hc' : ∀ k', cell_of (emplace kv idx m k v) k' =
      if decide (k' = k) then Some (next_cell kv) else cell_of kv k')
      by (exact (Hc (λ _, Some (next_cell kv)) _ _)).
    eexists _, _. split_and!; [done| | |].
    + by rewrite Hc', decide_True.
    + rewrite (proj1 Hnone eq_refl). by apply emplace_abs.
    + intros k' p' Hp'. rewrite Hc', decide_False; [done|congruence].
Qed.

Lemma Add_abs kv M k v :
  hashkv_abs kv M →
  ∃ kv', Add kv k v = Ret (true, kv') ∧ hashkv_abs kv' (<[k := v]> M) ∧
    (∀ k' p', cell_of kv k' = Some p' → cell_of kv' k' = Some p').
Proof.
  intros Habs. pose proof Habs as [Hinv _].
  destruct (locate kv k Hinv) as (idx & m & Hh & Hs & Hm & Hc).
  unfold Add. rewrite Hh. cbn [obind]. rewrite Hs. cbn [obind]. rewrite Hm.
  destruct (cell_of kv k) as [p|] eqn:E.
  - eexists. split_and!; [done|by apply assign_abs|done].
  - assert (Hc' : ∀ k', cell_of (emplace kv idx m k v) k' =
      if decide (k' = k) then Some (next_cell kv) else cell_of kv k')
      by (exact (Hc (λ _, Some (next_cell kv)) _ _)).
    eexists. split_and!; [done|by apply emplace_abs|].
    intros k' p' Hp'. rewrite Hc', decide_False; [done|congruence].
Qed.

Lemma Del_abs kv M k :
  hashkv_abs kv M →
  ∃ kv', Del kv k = Ret (true, kv') ∧ hashkv_abs kv' (delete k M) ∧
    (∀ k', cell_of kv' k' = if decide (k' = k) then None else cell_of kv k') ∧
    (∀ p, cell_of kv k = Some p → cells kv' !! p = None).
Proof.
  intros Habs. pose proof Habs as [Hinv _].
  destruct (locate kv k Hinv) as (idx & m & Hh & Hs & Hm & Hc).
  unfold Del. rewrite Hh. cbn [obind]. rewrite Hs. cbn [obind]. rewrite Hm.
  destruct (cell_of kv k) as [p|] eqn:E.
  - pose proof (Hc (λ _, None) (delete p (cells kv)) (next_cell kv)) as Hc'.
    eexists. split_and!; [done|by apply erase_abs|exact Hc'|].
    intros ? [= <-]. simpl. apply lookup_delete_eq.
  - eexists. split_and!; [done| | |done].
    + rewrite delete_id; [done|]. by apply (abs_cell kv M k Habs).
    + intros k'. by case_decide; subst.
Qed.

Lemma apply_op_abs kv M o :
  hashkv_abs kv M →
  ∃ kv', apply_op kv o = Ret ((spec_op M o).1, kv') ∧ hashkv_abs kv' (spec_op M o).2 ∧
    (∀ k p, o ≠ ODel k → cell_of kv k = Some p → cell_of kv' k = Some p).
Proof.
  intros Habs. destruct o as [k|k v|k v|k]; cbn [apply_op spec_op].
  - pose proof (Get_abs kv M k Habs) as Hg. exists kv. destruct (M !! k) as [v|].
    + destruct Hg as (p & -> & Hr). cbn [obind]. rewrite Hr. done.
    + by rewrite Hg.
  - destruct (GetOrCreate_abs kv M k v Habs) as (p & kv' & -> & Hp & Habs' & Hk). cbn [obind].
    exists kv'. pose proof Habs' as [_ HM]. specialize (HM k). rewrite Hp in HM. simpl in HM.
    unfold cell_read. rewrite <-HM.
    destruct (M !! k) as [v'|] eqn:EM; [rewrite EM|rewrite lookup_insert_eq]; by split_and!; eauto.
  - destruct (Add_abs kv M k v Habs) as (kv' & -> & Habs' & Hk). exists kv'. by split_and!; eauto.
  - destruct (Del_abs kv M k Habs) as (kv' & -> & Habs' & Hk & _). exists kv'. split_and!; auto.
    intros k' p Hne Hp. rewrite Hk, decide_False; [done|]. congruence.
Qed.

Lemma apply_ops_abs kv M os :
  hashkv_abs kv M →
  ∃ kv', apply_ops kv os = Ret ((spec_ops M os).1, kv') ∧ hashkv_abs kv' (spec_ops M os).2 ∧
    (∀ k p, ODel k ∉ os → cell_of kv k = Some p → cell_of kv' k = Some p).
Proof.
  revert kv M. induction os as [|o os IH]; intros kv M Habs; cbn [apply_ops spec_ops]; [by exists kv|].
  destruct (apply_op_abs kv M o Habs) as (kv1 & -> & Habs1 & Hk1). cbn [obind].
  destruct (spec_op M o) as [r M1]. simpl in Habs1.
  destruct (IH kv1 M1 Habs1) as (kv2 & -> & Habs2 & Hk2). cbn [obind].
  destruct (spec_ops M1 os) as [rs M2]. exists kv2. split_and!; auto.
  intros k p [Ho Hos]%not_elem_of_cons Hp. apply Hk2; [done|]. apply Hk1; congruence.
Qed.

(** A cell that was freed is never handed out again. *)
Definition dead kv (p : Z) : Prop := cells kv !! p = None ∧ p < next_cell kv.

Lemma apply_op_dead kv M o r kv' p :
  hashkv_abs kv M → dead kv p → apply_op kv o = Ret (r, kv') → dead kv' p.
Proof.
  intros [Hinv _] [Hp Hlt] Ho.
  assert (Hne : ∀ k q, cell_of kv k = Some q → q ≠ p).
  { intros k q Hq ->. destruct (hi_live _ Hinv _ _ Hq). congruence. }
  destruct o as [k|k v|k v|k]; cbn [apply_op] in Ho;
    [rewrite Get_cell in Ho by done; cbn [obind] in Ho|
     destruct (locate kv k Hinv) as (idx & m & Hh & Hs & Hm & _);
     unfold GetOrCreate, Add, Del in Ho; rewrite Hh in Ho; cbn [obind] in Ho;
     rewrite Hs in Ho; cbn [obind] in Ho; rewrite Hm in Ho..].
  - destruct (cell_of kv k) as [q|]; [|by injection Ho as <- <-].
    apply obind_Ret_inv in Ho as (? & _ & [= <- <-]). done.
  - destruct (cell_of kv k) as [q|]; cbn [obind] in Ho;
      apply obind_Ret_inv in Ho as (? & _ & [= <- <-]); [done|].
    split; simpl; [|lia]. rewrite lookup_insert_ne by lia. done.
  - destruct (cell_of kv k) as [q|] eqn:E; injection Ho as <- <-; split; simpl; try lia.
    + rewrite lookup_insert_ne; [done|]. by apply (Hne k).
    + by rewrite lookup_insert_ne by lia.
  - destruct (cell_of kv k) as [q|] eqn:E; injection Ho as <- <-; split; simpl; try done.
    rewrite lookup_delete_None. auto.
Qed.

Lemma apply_ops_dead kv M os rs kv' p :
  hashkv_abs kv M → dead kv p → apply_ops kv os = Ret (rs, kv') → dead kv' p.
Proof.
  revert kv M rs. induction os as [|o os IH]; intros kv M rs Habs Hd; cbn [apply_ops].
  { by intros [= _ <-]. }
  destruct (apply_op_abs kv M o Habs) as (kv1 & Ho & Habs1 & _). rewrite Ho. cbn [obind].
  intros ([rs' kv2] & Hos & [= _ <-])%obind_Ret_inv.
  eapply IH; [exact Habs1| |exact Hos]. exact (apply_op_dead _ _ _ _ _ _ Habs Hd Ho).
Qed.

(** An initialised map behaves as a finite map: no operation is undefined,
    and a sequence of [Get], [GetOrCreate], [Add] and [Del] gives the results
    of the corresponding operations on [gmap]. *)
Theorem HashKv_refines n kv0 os :
  0 < n < 2 ^ 31 →
  ∃ kv kv', Init n kv0 = Ret (true, kv) ∧
    apply_ops kv os = Ret ((spec_ops ∅ os).1, kv') ∧ hashkv_abs kv' (spec_ops ∅ os).2.
Proof.
  intros Hn. destruct (Init_abs n kv0 Hn) as (kv & Hi & Habs).
  destruct (apply_ops_abs kv ∅ os Habs) as (kv' & Ho & Habs' & _). eauto.
Qed.

(** A pointer from [Get] stays valid, and follows later assignments to its
    key, across every sequence of operations that does not delete the key. *)
Theorem pointer_stable kv M k p os :
  hashkv_abs kv M → Get kv k = Ret (Some p) → ODel k ∉ os →
  ∃ rs kv' v, apply_ops kv os = Ret (rs, kv') ∧
    (spec_ops M os).2 !! k = Some v ∧ cell_read kv' p = Ret v.
Proof.
  intros Habs Hg Hos. destruct (apply_ops_abs kv M os Habs) as (kv' & Ho & [Hinv HM] & Hk).
  rewrite Get_cell in Hg by apply Habs. injection Hg as Hg.
  specialize (Hk k p Hos Hg). destruct (hi_live _ Hinv _ _ Hk) as [v Hv].
  eexists _, kv', v. split_and!; [exact Ho| |].
  - rewrite HM, Hk. exact Hv.
  - unfold cell_read. by rewrite Hv.
Qed.

(** After [Del] of the key, the pointer a previous [Get] returned is
    dangling, whatever happens next: its use is undefined. *)
Theorem Del_dangles kv M k p os :
  hashkv_abs kv M → Get kv k = Ret (Some p) →
  ∃ kv1 rs kv2, Del kv k = Ret (true, kv1) ∧ apply_ops kv1 os = Ret (rs, kv2) ∧
    cell_read kv2 p = Undef.
Proof.
  intros Habs Hg. pose proof Habs as [Hinv _]. rewrite Get_cell in Hg by done. injection Hg as Hg.
  destruct (Del_abs kv M k Habs) as (kv1 & Hd & Habs1 & _ & Hdead).
  destruct (apply_ops_abs kv1 _ os Habs1) as (kv2 & Ho & _).
  eexists kv1, _, kv2. split_and!; [exact Hd|exact Ho|].
  assert (Hdd : dead kv1 p).
  { split; [by apply Hdead|]. assert (next_cell kv1 = next_cell kv) as ->.
    { destruct (locate kv k Hinv) as (idx & m & Hh & Hs & Hm & _).
      unfold Del in Hd. rewrite Hh in Hd. cbn [obind] in Hd. rewrite Hs in Hd. cbn [obind] in Hd.
      rewrite Hm, Hg in Hd. by injection Hd as <-. }
    apply (hi_fresh _ Hinv), (hi_live _ Hinv k p Hg). }
  unfold cell_read. by destruct (apply_ops_dead _ _ _ _ _ _ Habs1 Hdd Ho) as [-> _].
Qed.

(** Before [Init], or with no partitions, every operation is undefined; a
    negative number of partitions throws. *)
Theorem HashKv_uninit k kv0 n :
  Get (V := V) HashKv_default k = Undef ∧
  (∀ b kv, Init 0 kv0 = Ret (b, kv) → Get (V := V) kv k = Undef) ∧
  (n < 0 → Init (V := V) n kv0 = Throw).
Proof.
  split_and!; [done| |].
  - intros b kv [= _ <-]. done.
  - intros Hn. unfold Init. destruct (Z.ltb_spec n 0); [done|lia].
Qed.
End proofs.

(** ** A concrete map *)

(** Hashes that collide: the length of the string. *)
#[local] Instance length_hash : StdHash := λ s, u64 (Z.of_nat (String.length s)).

#[local] Instance length_hash_spec : StdHashSpec.
Proof. intros s. apply u64_range. Qed.

Definition demo_ops : list (op Z) :=
  [OAdd "a" 1; OAdd "b" 2; OGetOrCreate "a" 7; OGetOrCreate "cc" 3; OAdd "a" 4; ODel "b"; OGet "a"; OGet "b"].

Example demo_results :
  (spec_ops ∅ demo_ops).1 =
  [RBool true; RBool true; RVal (Some 1); RVal (Some 3); RBool true; RBool true; RVal (Some 4); RVal None].
Proof. vm_compute. reflexivity. Qed.

Lemma HashKv_refines_witness :
  ∃ kv kv', Init 17 (HashKv_default (V := Z)) = Ret (true, kv) ∧
    apply_ops kv demo_ops = Ret ((spec_ops ∅ demo_ops).1, kv').
Proof.
  destruct (HashKv_refines (V := Z) 17 HashKv_default demo_ops) as (kv & kv' & H1 & H2 & _); [lia|].
  exists kv, kv'. split; assumption.
Defined.

Definition demo_kv : HashKv Z :=
  match Init 17 HashKv_default with
  | Ret (_, kv) => match apply_ops kv demo_ops with Ret (_, kv') => kv' | _ => kv end
  | _ => HashKv_default
  end.

Lemma demo_kv_abs : hashkv_abs demo_kv (spec_ops ∅ demo_ops).2.
Proof.
  unfold demo_kv. destruct (Init_abs 17 (HashKv_default (V := Z)) ltac:(lia)) as (kv & -> & Habs).
  destruct (apply_ops_abs kv ∅ demo_ops Habs) as (kv' & -> & Habs' & _). exact Habs'.
Qed.

Lemma pointer_stable_witness :
  ∃ p rs kv' v, Get demo_kv "a" = Ret (Some p) ∧
    apply_ops demo_kv [OAdd "a" 9; ODel "cc"] = Ret (rs, kv') ∧ cell_read kv' p = Ret v.
Proof.
  destruct (Get demo_kv "a") as [[p|]| | | |] eqn:E; try (vm_compute in E; discriminate E).
  assert (Hno : ODel "a" ∉ [OAdd "a" 9; ODel "cc"]).
  { rewrite !not_elem_of_cons. split_and!; [discriminate..|apply not_elem_of_nil]. }
  destruct (pointer_stable demo_kv _ "a" p [OAdd "a" 9; ODel "cc"] demo_kv_abs E Hno)
    as (rs & kv' & v & H1 & _ & H2).
  exists p, rs, kv', v. split_and!; [reflexivity|assumption..].
Defined.

Lemma Del_dangles_witness :
  ∃ p kv1 rs kv2, Get demo_kv "a" = Ret (Some p) ∧ Del demo_kv "a" = Ret (true, kv1) ∧
    apply_ops kv1 [OAdd "a" 5] = Ret (rs, kv2) ∧ cell_read kv2 p = Undef.
Proof.
  destruct (Get demo_kv "a") as [[p|]| | | |] eqn:E; try (vm_compute in E; discriminate E).
  destruct (Del_dangles demo_kv _ "a" p [OAdd "a" 5] demo_kv_abs E) as (kv1 & rs & kv2 & H1 & H2 & H3).
  exists p, kv1, rs, kv2. split_and!; [reflexivity|assumption..].
Defined.

Lemma HashKv_uninit_witness :
  Init (V := Z) (-1) HashKv_default = Throw.
Proof. apply (HashKv_uninit (V := Z) "k" HashKv_default (-1)). lia. Defined.
