(* ===== verification/Zset.v ===== *)
(** * Sorted sets: cache/storage/memory/zset.h

    A [Zset] keeps a hash map from a member to its current score and a skip list
    of all (score, member) pairs ever added, ordered by score; [Range] walks the
    skip list and keeps the pairs whose score is the current one.  [Del] removes
    the member from the hash map only.

    What a sorted set is, is in cache/openapi.yaml: each member has one score,
    which adding it again replaces.  [Zset_refines] says that a [Zset] is one as
    long as no pair of score and member is added twice and, in a build with
    assertions, no score; [Range_multiplicity] counts how often a member is
    listed otherwise, and [Zset_equal_score_asserts] is about the assertion.  The
    proofs go through a state that is nearer to the code, the ordered list of
    pairs and the map of current scores. *)

From S2P Require Import Prelude Interfaces Random Arena SkipList SkipListSpec HashKv.

(** ** model/request_model.h *)

Record InsertRequest := mkInsertRequest {
  ins_key : string;
  ins_value : string;
}.

Record ZaddRequest := mkZaddRequest {
  score : Z;
  value : string;
}.

Record ZrangeRequest := mkZrangeRequest {
  min_score : Z;
  max_score : Z;
}.

#[export] Instance ZaddRequest_eq_dec : EqDecision ZaddRequest.
Proof. solve_decision. Defined.

(** [struct Comparator]: by score only. *)
#[export] Instance Zset_Comparator : Comparator ZaddRequest :=
  λ a b, if score a <? score b then -1 else if score a >? score b then 1 else 0.

#[export] Instance Zset_ComparatorSpec : ComparatorSpec ZaddRequest.
Proof.
  split; unfold compare_, Zset_Comparator; [intros a b|intros a b c];
    rewrite ?Z.gtb_ltb; repeat case Z.ltb_spec; lia.
Qed.

(** [Key()]. *)
Definition node0 : ZaddRequest := mkZaddRequest 0 EmptyString.

Record Zset := mkZset {
  value_map : HashKv Z;
  score_range_map : SkipList ZaddRequest;
}.

(** An operation on a sorted set and its result. *)
Inductive zop := ZAdd (sc : Z) (v : string) | ZDel (v : string) | ZRange (lo hi : Z).
Inductive zres := ZBool (b : bool) | ZList (l : list ZaddRequest).

#[export] Instance zop_eq_dec : EqDecision zop.
Proof. solve_decision. Defined.

Section ops.
Context (sizeof_Node : Z) (NDEBUG : bool) `{StdHash}.
Context {S : Type} `{NodeAllocator S}.
Implicit Types (z : Zset) (s : S).

Definition Zset_new s : outcome (Zset * S) :=
  '(sl, s') ←! SkipList_new node0 sizeof_Node NDEBUG s;
  '(_, vm) ←! HashKv.Init 87719 HashKv_default;
  Ret (mkZset vm sl, s').

Definition Zset_Add z (sc : Z) (v : string) s : outcome (bool * Zset * S) :=
  '(_, vm) ←! HashKv.Add (value_map z) v sc;
  '(sl, s') ←! Insert sizeof_Node NDEBUG (mkZaddRequest sc v) (score_range_map z) s;
  Ret (true, mkZset vm sl, s').

(** The test of the loop's body: is this the current score of the member? *)
Definition is_current z (n : ZaddRequest) : outcome bool :=
  p ←! HashKv.Get (value_map z) (value n);
  match p with
  | None => Ret false
  | Some p => sc ←! cell_read (value_map z) p; Ret (sc =? score n)
  end.

Fixpoint range_loop (fuel : nat) z (hi : Z) (it : Iterator) (result : list ZaddRequest) :
    outcome (list ZaddRequest) :=
  match fuel with
  | O => Fuel
  | Datatypes.S fuel' =>
      if Valid it then
        n ←! Iterator_key NDEBUG (score_range_map z) it;
        if score n <=? hi then
          cur ←! is_current z n;
          it' ←! Iterator_Next NDEBUG (score_range_map z) it;
          range_loop fuel' z hi it'
            (if cur : bool then result ++ [mkZaddRequest (score n) (value n)] else result)
        else Ret result
      else Ret result
  end.

Definition Zset_Range z (lo hi : Z) : outcome (list ZaddRequest) :=
  it ←! Seek (score_range_map z) (mkZaddRequest lo EmptyString);
  range_loop (search_fuel (score_range_map z)) z hi it [].

Definition Zset_Del z (v : string) : outcome (bool * Zset) :=
  '(b, vm) ←! HashKv.Del (value_map z) v; Ret (b, mkZset vm (score_range_map z)).

(** ** Sequences of operations *)

Definition apply_zop z s (o : zop) : outcome (zres * Zset * S) :=
  match o with
  | ZAdd sc v => '(b, z', s') ←! Zset_Add z sc v s; Ret (ZBool b, z', s')
  | ZDel v => '(b, z') ←! Zset_Del z v; Ret (ZBool b, z', s)
  | ZRange lo hi => l ←! Zset_Range z lo hi; Ret (ZList l, z, s)
  end.

Fixpoint apply_zops z s (os : list zop) : outcome (list zres * Zset * S) :=
  match os with
  | [] => Ret ([], z, s)
  | o :: os' =>
      '(r, z1, s1) ←! apply_zop z s o;
      '(rs, z2, s2) ←! apply_zops z1 s1 os';
      Ret (r :: rs, z2, s2)
  end.

(** ** The abstract set: the pairs in order and the current scores *)

Definition zstate : Type := list ZaddRequest * gmap string Z.

Definition zrange_spec (t : zstate) (lo hi : Z) : list ZaddRequest :=
  filter (λ n, lo ≤ score n ≤ hi ∧ t.2 !! value n = Some (score n)) t.1.

Definition spec_zop (t : zstate) (o : zop) : zres * zstate :=
  match o with
  | ZAdd sc v => (ZBool true, (ordered_insert (mkZaddRequest sc v) t.1, <[v := sc]> t.2))
  | ZDel v => (ZBool true, (t.1, delete v t.2))
  | ZRange lo hi => (ZList (zrange_spec t lo hi), t)
  end.

Fixpoint spec_zops (t : zstate) (os : list zop) : list zres * zstate :=
  match os with
  | [] => ([], t)
  | o :: os' =>
      let '(r, t1) := spec_zop t o in
      let '(rs, t2) := spec_zops t1 os' in
      (r :: rs, t2)
  end.

Definition zset_rep z (R : list region) (t : zstate) : Prop :=
  represents node0 (score_range_map z) R t.1 ∧ hashkv_abs (value_map z) t.2.

(** The current scores and the number of additions of a pair, from the history
    alone. *)
Definition current (os : list zop) : gmap string Z :=
  foldl (λ M o, match o with
                | ZAdd sc v => <[v := sc]> M
                | ZDel v => delete v M
                | ZRange _ _ => M
                end) ∅ os.

Definition additions (os : list zop) (n : ZaddRequest) : nat :=
  length (filter (λ o, o = ZAdd (score n) (value n)) os).

(** ** Sorted sets, as in cache/openapi.yaml *)

(** The members with a score between the bounds, each once, by ascending score. *)
Definition in_range (M : gmap string Z) (lo hi : Z) (l : list ZaddRequest) : Prop :=
  NoDup (value <$> l) ∧ StronglySorted (λ a b, score a ≤ score b) l ∧
  ∀ n, n ∈ l ↔ lo ≤ score n ≤ hi ∧ M !! value n = Some (score n).

Definition zset_result (M : gmap string Z) (o : zop) (r : zres) : Prop :=
  match o, r with
  | ZAdd _ _, ZBool b | ZDel _, ZBool b => b = true
  | ZRange lo hi, ZList l => in_range M lo hi l
  | _, _ => False
  end.

Definition zset_next (M : gmap string Z) (o : zop) : gmap string Z :=
  match o with ZAdd sc v => <[v := sc]> M | ZDel v => delete v M | ZRange _ _ => M end.

Fixpoint zset_results (M : gmap string Z) (os : list zop) (rs : list zres) : Prop :=
  match os, rs with
  | [], [] => True
  | o :: os', r :: rs' => zset_result M o r ∧ zset_results (zset_next M o) os' rs'
  | _, _ => False
  end.

(** The pairs that a history adds; none may be added twice, and with assertions
    no score. *)
Definition added (os : list zop) : list ZaddRequest :=
  omap (λ o, match o with ZAdd sc v => Some (mkZaddRequest sc v) | _ => None end) os.

Definition history_ok (NDEBUG : bool) (os : list zop) : Prop :=
  NoDup (added os) ∧ (NDEBUG = true ∨ NoDup (score <$> added os)).

(** Every current score has its pair in the list. *)
Definition zstate_ok (t : zstate) : Prop :=
  StronglySorted key_le t.1 ∧ ∀ v sc, t.2 !! v = Some sc → mkZaddRequest sc v ∈ t.1.
End ops.

Section proofs.
Context (sizeof_Node : Z) (NDEBUG : bool) `{StdHashSpec}.
Context {S : Type} `{NodeAllocator S}.
Implicit Types (z : Zset) (s : S) (t : zstate) (R : list region).

#[local] Abbreviation range_loop := (range_loop NDEBUG).
#[local] Abbreviation Zset_Range := (Zset_Range NDEBUG).
#[local] Abbreviation Zset_Add := (Zset_Add sizeof_Node NDEBUG).
#[local] Abbreviation Zset_new := (Zset_new sizeof_Node NDEBUG).
#[local] Abbreviation apply_zops := (apply_zops sizeof_Node NDEBUG).
#[local] Abbreviation apply_zop := (apply_zop sizeof_Node NDEBUG).

Lemma compare_score (a b : ZaddRequest) :
  (compare_ a b < 0 ↔ score a < score b) ∧ (compare_ a b ≤ 0 ↔ score a ≤ score b) ∧
  (compare_ a b = 0 ↔ score a = score b).
Proof.
  unfold compare_, Zset_Comparator. rewrite Z.gtb_ltb. repeat case Z.ltb_spec; lia.
Qed.

Lemma is_current_spec z (M : gmap string Z) n :
  hashkv_abs (value_map z) M →
  is_current z n = Ret (bool_decide (M !! value n = Some (score n))).
Proof.
  intros Habs. unfold is_current. pose proof (Get_abs _ _ (value n) Habs) as Hg.
  destruct (M !! value n) as [sc|].
  - destruct Hg as (p & -> & Hr). cbn [obind]. rewrite Hr. cbn [obind]. f_equal.
    destruct (Z.eqb_spec sc (score n)) as [->|]; [by rewrite bool_decide_true|].
    rewrite bool_decide_false; congruence.
  - rewrite Hg. done.
Qed.

(** The pairs a walk keeps. *)
Definition kept (M : gmap string Z) (hi : Z) (ks : list ZaddRequest) : list ZaddRequest :=
  filter (λ n, score n ≤ hi ∧ M !! value n = Some (score n)) ks.

Lemma kept_beyond M hi n ks :
  StronglySorted key_le (n :: ks) → hi < score n → kept M hi (n :: ks) = [].
Proof.
  intros [_ Hs]%StronglySorted_inv Hn. unfold kept. apply filter_none.
  apply Forall_cons; split; [lia|]. eapply Forall_impl; [exact Hs|].
  intros m Hm. apply compare_score in Hm. lia.
Qed.

Lemma range_loop_spec z l lev (M : gmap string Z) hi fuel a b result :
  sl_inv node0 (score_range_map z) l lev → hashkv_abs (value_map z) M →
  l = a ++ b → (length b < fuel)%nat →
  range_loop fuel z hi (mkIterator (head b)) result =
  Ret (result ++ kept M hi (key_at node0 (score_range_map z) <$> b)).
Proof.
  intros Hinv Habs. revert a b result. induction fuel as [|fuel IH]; intros a b result Hl Hf; [lia|].
  cbn [Zset.range_loop]. destruct b as [|y b]; [by rewrite app_nil_r|].
  cbn [head Valid node_]. cbn [head hd_error Valid node_].
  destruct (Iterator_Next_effect node0 NDEBUG _ l lev a y b Hinv Hl) as [Hn Hk].
  rewrite Hk. cbn [obind]. set (n := key_at node0 (score_range_map z) y).
  destruct (Z.leb_spec (score n) hi) as [Hle|Hgt].
  - rewrite (is_current_spec z M n Habs). cbn [obind]. rewrite Hn. cbn [obind].
    rewrite (IH (a ++ [y]) b); [|by rewrite <-app_assoc|simpl in Hf; lia].
    f_equal. csimpl. fold n. unfold kept. rewrite filter_cons.
    destruct (decide (M !! value n = Some (score n))) as [Hc|Hc].
    + rewrite bool_decide_true, decide_True by done. rewrite <-app_assoc. simpl. by destruct n.
    + rewrite bool_decide_false, decide_False by naive_solver. done.
  - csimpl. fold n. rewrite (kept_beyond M hi n); [by rewrite app_nil_r| |done].
    pose proof (sorted_fmap node0 _ _ (si_sorted _ _ _ _ Hinv)) as Hs.
    rewrite Hl, fmap_app in Hs. by apply StronglySorted_app in Hs as (_ & _ & Hs).
Qed.

Lemma Zset_Range_effect z R t lo hi :
  zset_rep z R t → Zset_Range z lo hi = Ret (zrange_spec t lo hi).
Proof.
  intros [(l & lev & Hinv & Hks & _ & _) Habs]. unfold Zset.Zset_Range.
  destruct (Seek_effect node0 _ l lev (mkZaddRequest lo EmptyString) Hinv) as (a & b & -> & Hl & [Ha Hb]).
  cbn [obind]. pose proof (search_fuel_enough _ _ _ _ Hinv) as Hf.
  rewrite (range_loop_spec z l lev t.2 hi _ a b []); [|done|done|done|].
  2:{ rewrite Hl, length_app in Hf. lia. }
  f_equal. unfold zrange_spec, kept. rewrite Hks, Hl, fmap_app, filter_app. simpl.
  assert (filter (λ n, lo ≤ score n ≤ hi ∧ t.2 !! value n = Some (score n))
    (key_at node0 (score_range_map z) <$> a) = []) as ->.
  { apply filter_none, Forall_fmap. eapply Forall_impl; [exact Ha|].
    intros x Hx. unfold klt in Hx. apply compare_score in Hx. simpl in *. lia. }
  apply filter_ext_Forall. apply Forall_fmap. eapply Forall_impl; [exact Hb|].
  intros x Hx. unfold klt in Hx. simpl. rewrite (proj1 (compare_score _ _)) in Hx. simpl in Hx.
  split; intros [? ?]; (split; [lia|done]).
Qed.

(** ** The operations *)

Lemma Zset_new_effect s R :
  sizeof_ok sizeof_Node → alloc_inv s R →
  safe (Zset_new s) (λ '(z, s'), ∃ reg, alloc_inv s' (reg :: R) ∧ zset_rep z (reg :: R) ([], ∅)).
Proof.
  intros Hsz Hs. unfold Zset.Zset_new. apply safe_bind.
  eapply safe_mono; [by apply (SkipList_new_effect node0 sizeof_Node NDEBUG s R)|].
  intros [sl s'] (reg & Hs' & Hr).
  destruct (Init_abs 87719 (HashKv_default (V := Z)) ltac:(lia)) as (vm & -> & Habs). cbn [obind safe].
  exists reg. split; [done|]. by split.
Qed.

Lemma Zset_Add_effect z R t sc v s :
  sizeof_ok sizeof_Node → zset_rep z R t → alloc_inv s R →
  (NDEBUG = true ∨ Forall (λ n, score n ≠ sc) t.1) →
  safe (Zset_Add z sc v s) (λ '(b, z', s'), ∃ reg, b = true ∧ alloc_inv s' (reg :: R) ∧
    zset_rep z' (reg :: R) (ordered_insert (mkZaddRequest sc v) t.1, <[v := sc]> t.2)).
Proof.
  intros Hsz [Hr Habs] Hs Hdup. unfold Zset.Zset_Add.
  destruct (Add_abs _ _ v sc Habs) as (vm & -> & Habs' & _). cbn [obind]. apply safe_bind.
  eapply safe_mono; [apply (Insert_effect node0 sizeof_Node NDEBUG _ _ _ R t.1); try done|].
  - destruct Hdup as [->|Hall]; [by left|right]. intros (n & Hn & Hc)%Exists_exists.
    apply compare_score in Hc. rewrite Forall_forall in Hall. by apply (Hall n Hn).
  - intros [sl s'] (reg & Hs' & Hr'). cbn [safe]. exists reg. split_and!; [done|done|]. by split.
Qed.

Lemma Zset_Del_effect z R t v :
  zset_rep z R t →
  ∃ z', Zset_Del z v = Ret (true, z') ∧ zset_rep z' R (t.1, delete v t.2).
Proof.
  intros [Hr Habs]. unfold Zset_Del. destruct (Del_abs _ _ v Habs) as (vm & -> & Habs' & _).
  cbn [obind]. eexists. split; [done|]. by split.
Qed.

(** The assertion in the skip list holds. *)
Definition add_ok t (o : zop) : Prop :=
  match o with ZAdd sc _ => NDEBUG = true ∨ Forall (λ n, score n ≠ sc) t.1 | _ => True end.

Lemma apply_zop_effect z R t s o :
  sizeof_ok sizeof_Node → add_ok t o → zset_rep z R t → alloc_inv s R →
  safe (apply_zop z s o) (λ '(r, z', s'), ∃ R', r = (spec_zop t o).1 ∧ alloc_inv s' R' ∧
    zset_rep z' R' (spec_zop t o).2 ∧ R ⊆ R').
Proof.
  intros Hsz HN Hz Hs. destruct o as [sc v|v|lo hi]; cbn [Zset.apply_zop spec_zop].
  - apply safe_bind. eapply safe_mono; [apply (Zset_Add_effect z R t); auto|].
    intros [[b z'] s'] (reg & -> & Hs' & Hz'). exists (reg :: R). split_and!; auto. set_solver.
  - destruct (Zset_Del_effect z R t v Hz) as (z' & -> & Hz'). exists R. by split_and!.
  - rewrite (Zset_Range_effect z R t) by done. exists R. by split_and!.
Qed.

Lemma added_step t o os : (spec_zop t o).2.1 ++ added os ≡ₚ t.1 ++ added (o :: os).
Proof.
  destruct o as [sc v|v|lo hi]; [|done..]. unfold added. cbn [spec_zop fst snd omap list_omap].
  rewrite ordered_insert_perm. cbn [app]. apply Permutation_middle.
Qed.

(** The scores that a history still adds to those that are there. *)
Definition adds_ok t (os : list zop) : Prop := NDEBUG = true ∨ NoDup (score <$> (t.1 ++ added os)).

Lemma adds_ok_cons t o os : adds_ok t (o :: os) → add_ok t o ∧ adds_ok (spec_zop t o).2 os.
Proof.
  intros Hok. split.
  - destruct o as [sc v|v|lo hi]; [|done..]. destruct Hok as [->|Hnd]; [by left|right]. rewrite fmap_app in Hnd.
    apply NoDup_app in Hnd as (_ & Hx & _). apply Forall_forall. intros n Hn Hs. apply (Hx (score n)).
    + by apply list_elem_of_fmap_2.
    + unfold added. csimpl. rewrite Hs. by left.
  - destruct Hok as [->|Hnd]; [by left|right]. by rewrite added_step.
Qed.

Lemma apply_zops_effect z R t s os :
  sizeof_ok sizeof_Node → adds_ok t os → zset_rep z R t → alloc_inv s R →
  safe (apply_zops z s os) (λ '(rs, z', s'), ∃ R', rs = (spec_zops t os).1 ∧ alloc_inv s' R' ∧
    zset_rep z' R' (spec_zops t os).2).
Proof.
  intros Hsz. revert z R t s. induction os as [|o os IH]; intros z R t s HN Hz Hs;
    cbn [Zset.apply_zops spec_zops]; [by exists R|]. apply adds_ok_cons in HN as [Ho HN].
  apply safe_bind. eapply safe_mono; [by apply (apply_zop_effect z R t)|].
  intros [[r z1] s1] (R1 & -> & Hs1 & Hz1 & _). destruct (spec_zop t o) as [r t1].
  apply safe_bind. eapply safe_mono; [by apply (IH z1 R1 t1)|].
  intros [[rs z2] s2] (R2 & -> & Hs2 & Hz2). destruct (spec_zops t1 os) as [rs t2]. by exists R2.
Qed.

(** ** The abstract set *)

Lemma ordered_insert_sorted (n : ZaddRequest) ks :
  StronglySorted key_le ks → StronglySorted key_le (ordered_insert n ks).
Proof.
  induction 1 as [|c ks Hs IH Hc]; simpl; [repeat constructor|].
  destruct (Z.ltb_spec (compare_ c n) 0) as [Hlt|Hge].
  - constructor; [done|]. rewrite ordered_insert_perm. constructor; [unfold key_le; lia|done].
  - assert (Hnc : key_le n c).
    { unfold key_le. pose proof (compare_sym n c). pose proof (compare_sym c n). lia. }
    constructor; [by constructor|]. constructor; [done|]. eapply Forall_impl; [exact Hc|].
    intros m Hm. by apply (compare_trans n c m).
Qed.

Lemma spec_zop_ok t o : zstate_ok t → zstate_ok (spec_zop t o).2.
Proof.
  intros [Hs Hin]. destruct o as [sc v|v|lo hi]; simpl; [..|done]; (split; simpl).
  - by apply ordered_insert_sorted.
  - intros v' sc'. rewrite ordered_insert_perm, elem_of_cons.
    destruct (decide (v' = v)) as [->|]; [rewrite lookup_insert_eq; intros [= ->]; by left|].
    rewrite lookup_insert_ne by done. intros ?%Hin. by right.
  - done.
  - intros v' sc'. rewrite lookup_delete_Some. intros [_ ?]. auto.
Qed.

Lemma spec_zops_ok t os : zstate_ok t → zstate_ok (spec_zops t os).2.
Proof.
  revert t. induction os as [|o os IH]; intros t Ht; simpl; [done|].
  pose proof (spec_zop_ok t o Ht). destruct (spec_zop t o) as [r t1]. specialize (IH t1).
  destruct (spec_zops t1 os) as [rs t2]. auto.
Qed.

Lemma zstate_empty_ok : zstate_ok ([], ∅).
Proof. split; [constructor|]. intros v sc. simpl. by rewrite lookup_empty. Qed.

(** The abstract state, from the history. *)
Lemma spec_zops_current t os :
  (spec_zops t os).2.2 =
  foldl (λ M o, match o with
                | ZAdd sc v => <[v := sc]> M
                | ZDel v => delete v M
                | ZRange _ _ => M
                end) t.2 os.
Proof.
  revert t. induction os as [|o os IH]; intros t; simpl; [done|].
  destruct o; simpl; [specialize (IH (ordered_insert (mkZaddRequest sc v) t.1, <[v := sc]> t.2))|
    specialize (IH (t.1, delete v t.2))|specialize (IH t)];
    destruct (spec_zops _ os) as [rs t2]; done.
Qed.

Lemma additions_cons o os n :
  additions (o :: os) n = ((if decide (o = ZAdd (score n) (value n)) then 1 else 0) + additions os n)%nat.
Proof. unfold additions. rewrite filter_cons. by destruct (decide _). Qed.

Lemma spec_zops_count t os n :
  length (filter (eq n) (spec_zops t os).2.1) = (length (filter (eq n) t.1) + additions os n)%nat.
Proof.
  revert t. induction os as [|o os IH]; intros t.
  { unfold additions. simpl. lia. }
  rewrite additions_cons. cbn [spec_zops].
  assert (Hstep : length (filter (eq n) (spec_zop t o).2.1) =
    (length (filter (eq n) t.1) + if decide (o = ZAdd (score n) (value n)) then 1 else 0)%nat).
  { destruct o as [sc v|v|lo hi]; cbn [spec_zop fst snd]; [|rewrite decide_False by done; lia..].
    rewrite ordered_insert_perm, filter_cons.
    destruct (decide (n = mkZaddRequest sc v)) as [->|Hne]; simpl.
    - rewrite decide_True by done. lia.
    - rewrite decide_False; [lia|]. intros [= -> ->]. apply Hne. by destruct n. }
  destruct (spec_zop t o) as [r t1]. specialize (IH t1). destruct (spec_zops t1 os) as [rs t2].
  simpl in *. lia.
Qed.

Lemma zrange_count t lo hi n :
  n ∈ zrange_spec t lo hi →
  length (filter (eq n) (zrange_spec t lo hi)) = length (filter (eq n) t.1).
Proof.
  intros [Hn _]%list_elem_of_filter. unfold zrange_spec. rewrite list_filter_filter_l; [done|].
  by intros ? <-.
Qed.

(** A set made by a history of operations on an empty one. *)
Definition zset_run (os : list zop) s : outcome (list zres * Zset * S) :=
  '(z, s1) ←! Zset_new s; apply_zops z s1 os.

Lemma zset_run_effect os s R :
  sizeof_ok sizeof_Node → adds_ok ([], ∅) os → alloc_inv s R →
  safe (zset_run os s) (λ '(rs, z, s'), ∃ R', rs = (spec_zops ([], ∅) os).1 ∧
    alloc_inv s' R' ∧ zset_rep z R' (spec_zops ([], ∅) os).2).
Proof.
  intros Hsz HN Hs. unfold zset_run. apply safe_bind.
  eapply safe_mono; [by apply (Zset_new_effect s R)|]. intros [z s1] (reg & Hs1 & Hz).
  by apply (apply_zops_effect z (reg :: R)).
Qed.

(** *** From the list of pairs to the sorted set *)

Lemma zrange_in_range t lo hi : zstate_ok t → NoDup t.1 → in_range t.2 lo hi (zrange_spec t lo hi).
Proof.
  intros [Hs Hin] Hnd. unfold zrange_spec. split_and!.
  - apply NoDup_fmap_2_strong; [|by apply NoDup_filter]. intros x y [[_ Hx] _]%list_elem_of_filter [[_ Hy] _]%list_elem_of_filter Hv.
    destruct x as [sx vx], y as [sy vy]. cbn in *. subst vy. congruence.
  - eapply StronglySorted_impl; [|by apply StronglySorted_filter]. intros a b Hab. by apply compare_score.
  - intros n. rewrite list_elem_of_filter. split; [by intros [? _]|]. intros [Hn Hc]. split; [done|]. destruct n. by apply Hin.
Qed.

Lemma spec_zop_result t o : zstate_ok t → NoDup t.1 → zset_result t.2 o (spec_zop t o).1 ∧ (spec_zop t o).2.2 = zset_next t.2 o.
Proof. intros Ht Hnd. destruct o; cbn; [done..|]. split; [|done]. by apply zrange_in_range. Qed.

Lemma spec_zops_results t os : zstate_ok t → NoDup (t.1 ++ added os) → zset_results t.2 os (spec_zops t os).1.
Proof.
  revert t. induction os as [|o os IH]; intros t Ht Hnd; [done|]. cbn [spec_zops].
  assert (NoDup t.1) as Hnd1 by (by apply NoDup_app in Hnd as [? _]). destruct (spec_zop_result t o Ht Hnd1) as [Hr Hn].
  assert (Hnext := IH (spec_zop t o).2 (spec_zop_ok t o Ht)). rewrite added_step, Hn in Hnext. specialize (Hnext Hnd).
  destruct (spec_zop t o) as [r t1]. cbn [fst snd] in *. by destruct (spec_zops t1 os) as [rs t2].
Qed.

(** C33: a [Zset] is a sorted set as cache/openapi.yaml has it, for every history of
    [Add], [Del] and [Range] that adds no pair of score and member twice, nor, in a
    build with assertions, a score twice: it runs without undefined behaviour or a
    failed assertion and, unless memory runs out, a range lists exactly the members
    whose score is in it, each once and with its latest score, by ascending score. *)
Theorem Zset_refines os s R :
  sizeof_ok sizeof_Node → history_ok NDEBUG os → alloc_inv s R →
  safe (zset_run os s) (λ '(rs, _, _), zset_results ∅ os rs).
Proof.
  intros Hsz [Hnd HN] Hs. eapply safe_mono; [by apply (zset_run_effect os s R)|].
  intros [[rs z] s'] (R' & -> & _). by apply (spec_zops_results ([], ∅) os zstate_empty_ok).
Qed.

(** After any history, [Range] returns exactly the members whose current
    score lies between the bounds, with that score, in ascending order. *)
Theorem Range_correct os s R lo hi :
  sizeof_ok sizeof_Node → NDEBUG = true → alloc_inv s R →
  safe (zset_run os s) (λ '(_, z, _), ∃ l, Zset_Range z lo hi = Ret l ∧
    StronglySorted key_le l ∧
    ∀ sc v, mkZaddRequest sc v ∈ l ↔ lo ≤ sc ≤ hi ∧ current os !! v = Some sc).
Proof.
  intros Hsz HN Hs. eapply safe_mono; [by apply (zset_run_effect os s R); [|left|]|].
  intros [[rs z] s'] (R' & _ & _ & Hz). set (t := (spec_zops ([], ∅) os).2) in *.
  exists (zrange_spec t lo hi). split; [by apply (Zset_Range_effect z R')|].
  destruct (spec_zops_ok ([], ∅) os zstate_empty_ok) as [Hsort Hin].
  split; [by apply StronglySorted_filter|]. intros sc v.
  replace (current os) with t.2 by apply spec_zops_current.
  unfold zrange_spec. rewrite list_elem_of_filter. simpl. split; [naive_solver|].
  intros [? Hc]. split; [done|]. by apply Hin.
Qed.

(** A member of a range occurs as often as it was added with its current
    score, so adding a member twice with the same score lists it twice. *)
Theorem Range_multiplicity os s R lo hi n :
  sizeof_ok sizeof_Node → NDEBUG = true → alloc_inv s R →
  safe (zset_run os s) (λ '(_, z, _), ∃ l, Zset_Range z lo hi = Ret l ∧
    (n ∈ l → length (filter (eq n) l) = additions os n)).
Proof.
  intros Hsz HN Hs. eapply safe_mono; [by apply (zset_run_effect os s R); [|left|]|].
  intros [[rs z] s'] (R' & _ & _ & Hz).
  eexists. split; [by apply (Zset_Range_effect z R')|]. intros Hn.
  rewrite zrange_count by done. rewrite spec_zops_count. simpl. lia.
Qed.

(** In a build with assertions, a second member with a score that is in the
    list kills the process: the skip list does not allow equal keys. *)
Theorem Zset_equal_score_asserts z R t sc v s :
  zset_rep z R t → NDEBUG = false → sc ∈ score <$> t.1 → Zset_Add z sc v s = Abort.
Proof.
  intros [Hr Habs] HN (n & -> & Hn)%list_elem_of_fmap. unfold Zset.Zset_Add.
  destruct (Add_abs _ _ v (score n) Habs) as (vm & -> & _). cbn [obind].
  rewrite (Insert_abort node0 sizeof_Node NDEBUG _ _ s R t.1); [done|done|done|].
  apply Exists_exists. exists n. split; [done|]. by apply compare_score.
Qed.
End proofs.

(** ** Concrete sets *)

#[local] Existing Instance length_hash.
#[local] Existing Instance length_hash_spec.

Definition demo_history : list zop :=
  [ZAdd 3 "bob"; ZAdd 1 "al"; ZAdd 5 "bob"; ZRange 0 9; ZAdd 1 "al"; ZAdd 2 "eve"; ZDel "eve"; ZRange 0 9].

(** A history that adds no score twice, in a build with assertions. *)
Definition plain_history : list zop := [ZAdd 3 "bob"; ZAdd 1 "al"; ZAdd 5 "bob"; ZAdd 2 "eve"; ZDel "eve"; ZRange 0 9].

Lemma Zset_refines_witness :
  zset_results ∅ plain_history [ZBool true; ZBool true; ZBool true; ZBool true; ZBool true; ZList [mkZaddRequest 1 "al"; mkZaddRequest 5 "bob"]] ∧
  safe (zset_run 48 false plain_history demo_alloc) (λ '(rs, _, _), zset_results ∅ plain_history rs).
Proof.
  assert (Hok : history_ok false plain_history) by (split; [|right]; apply (bool_decide_unpack _); vm_compute; exact I). split.
  - apply (spec_zops_results ([], ∅) plain_history zstate_empty_ok). apply Hok.
  - exact (Zset_refines 48 false plain_history demo_alloc [] ltac:(split; lia) Hok demo_alloc_inv).
Defined.

Lemma Range_correct_witness :
  safe (zset_run 48 true demo_history demo_alloc) (λ '(_, z, _), ∃ l,
    Zset_Range true z 1 4 = Ret l ∧ mkZaddRequest 1 "al" ∈ l ∧ mkZaddRequest 5 "bob" ∉ l).
Proof.
  eapply safe_mono;
    [exact (Range_correct 48 true demo_history demo_alloc [] 1 4 ltac:(split; lia) eq_refl demo_alloc_inv)|].
  intros [[rs z] s] (l & H1 & _ & H2). exists l. split_and!; [assumption|..].
  - apply H2. split; [lia|vm_compute; reflexivity].
  - intros Hin. apply H2 in Hin. lia.
Defined.

Lemma Range_multiplicity_witness :
  safe (zset_run 48 true demo_history demo_alloc) (λ '(_, z, _), ∃ l,
    Zset_Range true z 0 9 = Ret l ∧
    (mkZaddRequest 1 "al" ∈ l → length (filter (eq (mkZaddRequest 1 "al")) l) = 2%nat)).
Proof.
  eapply safe_mono;
    [exact (Range_multiplicity 48 true demo_history demo_alloc [] 0 9 (mkZaddRequest 1 "al")
              ltac:(split; lia) eq_refl demo_alloc_inv)|].
  intros [[rs z] s] (l & H1 & H2). exists l. split; [assumption|exact H2].
Defined.

Lemma Zset_equal_score_asserts_witness :
  safe (zset_run 48 true demo_history demo_alloc) (λ '(_, z, _),
    Zset_Add 48 false z 3 "dan" demo_alloc = Abort).
Proof.
  eapply safe_mono;
    [exact (zset_run_effect 48 true demo_history demo_alloc [] ltac:(split; lia) (or_introl eq_refl) demo_alloc_inv)|].
  intros [[rs z] s] (R' & _ & _ & Hz).
  apply (Zset_equal_score_asserts 48 false z R' _ 3 "dan" demo_alloc Hz eq_refl).
  refine (bool_decide_unpack _ _). vm_compute. reflexivity.
Defined.
