(* ===== verification/Managers.v ===== *)
(** * The managers: cache/manager/

    [KvManager] is one [HashKv<std::string>], [ZsetManager] a
    [HashKv<std::shared_ptr<Zset>>] whose sets share one arena, and
    [LocaldbManager] a LevelDB database that is loaded into the [KvManager] when
    it is opened.  The singletons' states are passed explicitly.

    [ZsetManager_refines] relates sequences of operations to a finite map of the
    sorted sets of cache/openapi.yaml; [Localdb_Init_loads] says what a start
    leaves in memory. *)

From S2P Require Import Prelude Interfaces Random Arena SkipList SkipListSpec HashKv Zset.

(** ** KvManager *)

Record KvManager := mkKvManager { memdb : HashKv string }.

Definition KvManager_new : KvManager := mkKvManager HashKv_default.

Section kv.
Context `{StdHash}.

Definition Kv_Init (kv : KvManager) : outcome (bool * KvManager) :=
  '(_, m) ←! HashKv.Init 1403641 (memdb kv); Ret (true, mkKvManager m).

Definition Kv_Query (kv : KvManager) (k : string) : outcome (option Z) :=
  HashKv.Get (memdb kv) k.

Definition Kv_Add (kv : KvManager) (k v : string) : outcome (bool * KvManager) :=
  '(b, m) ←! HashKv.Add (memdb kv) k v; Ret (b, mkKvManager m).

Definition Kv_Del (kv : KvManager) (k : string) : outcome (bool * KvManager) :=
  '(b, m) ←! HashKv.Del (memdb kv) k; Ret (b, mkKvManager m).

(** The string [Query] points to, read at once. *)
Definition Kv_lookup (kv : KvManager) (k : string) : outcome (option string) :=
  p ←! Kv_Query kv k;
  match p with
  | None => Ret None
  | Some p => v ←! cell_read (memdb kv) p; Ret (Some v)
  end.
End kv.

(** ** ZsetManager

    A [std::shared_ptr<Zset>] is the address of its object. *)

Record ZsetManager := mkZsetManager {
  zset_map : HashKv Z;
  zset_objs : gmap Z Zset;
  next_obj : Z;
}.

Definition ZsetManager_new : ZsetManager := mkZsetManager HashKv_default ∅ 0.

Section zm.
Context (sizeof_Node : Z) (NDEBUG : bool) `{StdHash}.
Context {S : Type} `{NodeAllocator S}.
Implicit Types (zm : ZsetManager) (s : S).

(** The assignment to the map drops the sets it held. *)
Definition ZM_Init zm : outcome (bool * ZsetManager) :=
  '(_, m) ←! HashKv.Init 87719 (zset_map zm); Ret (true, mkZsetManager m ∅ (next_obj zm)).

(** [std::make_shared<Zset>(_arena)]. *)
Definition make_zset zm s : outcome (Z * ZsetManager * S) :=
  '(z, s') ←! Zset_new sizeof_Node NDEBUG s;
  Ret (next_obj zm, mkZsetManager (zset_map zm) (<[next_obj zm := z]> (zset_objs zm)) (next_obj zm + 1), s').

(** The set of a key, created when there is none.  The new object dies with its
    temporary [shared_ptr] unless the map took it. *)
Definition find_or_create zm (k : string) s : outcome (Z * ZsetManager * S) :=
  p ←! HashKv.Get (zset_map zm) k;
  match p with
  | Some p => Ret (p, zm, s)
  | None =>
      '(o, zm1, s1) ←! make_zset zm s;
      '(p, m) ←! HashKv.GetOrCreate (zset_map zm1) k o;
      o' ←! cell_read m p;
      Ret (p, mkZsetManager m (if o' =? o then zset_objs zm1 else delete o (zset_objs zm1)) (next_obj zm1), s1)
  end.

Definition ZM_Add zm (k : string) (sc : Z) (v : string) s : outcome (bool * ZsetManager * S) :=
  '(p, zm1, s1) ←! find_or_create zm k s;
  o ←! cell_read (zset_map zm1) p;
  z ←! deref (zset_objs zm1 !! o);
  '(b, z', s2) ←! Zset_Add sizeof_Node NDEBUG z sc v s1;
  Ret (b, mkZsetManager (zset_map zm1) (<[o := z']> (zset_objs zm1)) (next_obj zm1), s2).

Definition ZM_Range zm (k : string) (lo hi : Z) : outcome (bool * list ZaddRequest) :=
  p ←! HashKv.Get (zset_map zm) k;
  match p with
  | None => Ret (false, [])
  | Some p =>
      o ←! cell_read (zset_map zm) p;
      z ←! deref (zset_objs zm !! o);
      l ←! Zset_Range NDEBUG z lo hi;
      Ret (true, l)
  end.

Definition ZM_Del zm (k v : string) : outcome (bool * ZsetManager) :=
  p ←! HashKv.Get (zset_map zm) k;
  match p with
  | None => Ret (true, zm)
  | Some p =>
      o ←! cell_read (zset_map zm) p;
      z ←! deref (zset_objs zm !! o);
      '(b, z') ←! Zset_Del z v;
      Ret (b, mkZsetManager (zset_map zm) (<[o := z']> (zset_objs zm)) (next_obj zm))
  end.

(** ** The abstract manager: a sorted set for each key *)

Definition zempty : zstate := ([], ∅).

Inductive zmop := MAdd (k : string) (sc : Z) (v : string) | MRange (k : string) (lo hi : Z) | MDel (k v : string).
Inductive zmres := MBool (b : bool) | MRange_res (found : bool) (l : list ZaddRequest).

Definition apply_zmop zm s (o : zmop) : outcome (zmres * ZsetManager * S) :=
  match o with
  | MAdd k sc v => '(b, zm', s') ←! ZM_Add zm k sc v s; Ret (MBool b, zm', s')
  | MRange k lo hi => '(b, l) ←! ZM_Range zm k lo hi; Ret (MRange_res b l, zm, s)
  | MDel k v => '(b, zm') ←! ZM_Del zm k v; Ret (MBool b, zm', s)
  end.

Fixpoint apply_zmops zm s (os : list zmop) : outcome (list zmres * ZsetManager * S) :=
  match os with
  | [] => Ret ([], zm, s)
  | o :: os' =>
      '(r, zm1, s1) ←! apply_zmop zm s o;
      '(rs, zm2, s2) ←! apply_zmops zm1 s1 os';
      Ret (r :: rs, zm2, s2)
  end.

Definition spec_zmop (T : gmap string zstate) (o : zmop) : zmres * gmap string zstate :=
  match o with
  | MAdd k sc v =>
      (MBool true, <[k := (spec_zop (default zempty (T !! k)) (ZAdd sc v)).2]> T)
  | MRange k lo hi =>
      match T !! k with
      | None => (MRange_res false [], T)
      | Some t => (MRange_res true (zrange_spec t lo hi), T)
      end
  | MDel k v =>
      (MBool true, match T !! k with
                   | None => T
                   | Some t => <[k := (spec_zop t (ZDel v)).2]> T
                   end)
  end.

Fixpoint spec_zmops (T : gmap string zstate) (os : list zmop) : list zmres * gmap string zstate :=
  match os with
  | [] => ([], T)
  | o :: os' =>
      let '(r, T1) := spec_zmop T o in
      let '(rs, T2) := spec_zmops T1 os' in
      (r :: rs, T2)
  end.

(** ** Sorted sets by key, as in cache/openapi.yaml *)

Definition zm_result (T : gmap string (gmap string Z)) (o : zmop) (r : zmres) : Prop :=
  match o, r with
  | MAdd _ _ _, MBool b | MDel _ _, MBool b => b = true
  | MRange k lo hi, MRange_res found l =>
      match T !! k with None => found = false ∧ l = [] | Some M => found = true ∧ in_range M lo hi l end
  | _, _ => False
  end.

Definition zm_next (T : gmap string (gmap string Z)) (o : zmop) : gmap string (gmap string Z) :=
  match o with
  | MAdd k sc v => <[k := <[v := sc]> (default ∅ (T !! k))]> T
  | MRange _ _ _ => T
  | MDel k v => match T !! k with None => T | Some M => <[k := delete v M]> T end
  end.

Fixpoint zm_results (T : gmap string (gmap string Z)) (os : list zmop) (rs : list zmres) : Prop :=
  match os, rs with
  | [], [] => True
  | o :: os', r :: rs' => zm_result T o r ∧ zm_results (zm_next T o) os' rs'
  | _, _ => False
  end.

(** The pairs that are added, with their keys: none twice, and with assertions no
    score of a key twice. *)
Definition zm_added (os : list zmop) : list (string * ZaddRequest) :=
  omap (λ o, match o with MAdd k sc v => Some (k, mkZaddRequest sc v) | _ => None end) os.

Definition pairs_ok (NDEBUG : bool) (L : list (string * ZaddRequest)) : Prop :=
  NoDup L ∧ (NDEBUG = true ∨ NoDup (prod_map id score <$> L)).

(** [P] maps the keys to their objects. *)
Record zm_rep zm (R : list region) (T : gmap string zstate) : Prop := {
  zr_map : ∃ P, hashkv_abs (zset_map zm) P ∧
    (∀ k1 k2 o, P !! k1 = Some o → P !! k2 = Some o → k1 = k2) ∧
    (∀ k, match P !! k with
          | None => T !! k = None
          | Some o => ∃ z t, zset_objs zm !! o = Some z ∧ T !! k = Some t ∧ zset_rep z R t
          end);
  zr_fresh o : is_Some (zset_objs zm !! o) → o < next_obj zm;
}.
End zm.

(** ** From lists of pairs to sorted sets *)

Section sets.
Context (NDEBUG : bool).
Implicit Types T : gmap string zstate.

(** The assertion in the skip list of the key holds. *)
Definition zm_add_ok T (o : zmop) : Prop :=
  match o with MAdd k sc v => add_ok NDEBUG (default zempty (T !! k)) (ZAdd sc v) | _ => True end.

(** The sets as cache/openapi.yaml has them. *)
Definition current_sets T : gmap string (gmap string Z) := (λ t : zstate, t.2) <$> T.

(** No set has a pair twice. *)
Definition sets_ok T : Prop := ∀ k t, T !! k = Some t → zstate_ok t ∧ NoDup t.1.

(** The pairs of [L] can still be added. *)
Definition addable T (L : list (string * ZaddRequest)) : Prop :=
  pairs_ok NDEBUG L ∧ ∀ k t n, T !! k = Some t → n ∈ t.1 → (k, n) ∉ L ∧ (NDEBUG = true ∨ (k, score n) ∉ prod_map id score <$> L).

Lemma sets_ok_default T k : sets_ok T → zstate_ok (default zempty (T !! k)) ∧ NoDup (default zempty (T !! k)).1.
Proof. intros HT. destruct (T !! k) eqn:E; [by apply (HT k)|]. split; [apply zstate_empty_ok|constructor]. Qed.

Lemma addable_cons T L k sc v :
  addable T ((k, mkZaddRequest sc v) :: L) →
  zm_add_ok T (MAdd k sc v) ∧ mkZaddRequest sc v ∉ (default zempty (T !! k)).1 ∧ addable (spec_zmop T (MAdd k sc v)).2 L.
Proof.
  intros [[Hnd Hsc] Hold]. apply NoDup_cons in Hnd as [Hnew Hnd].
  assert (Hsc' : NDEBUG = true ∨ (k, sc) ∉ prod_map id score <$> L ∧ NoDup (prod_map id score <$> L)).
  { destruct Hsc as [?|Hsc]; [by left|right]. csimpl in Hsc. by apply NoDup_cons in Hsc. } clear Hsc.
  assert (Hdef : ∀ n, n ∈ (default zempty (T !! k)).1 → ∃ t, T !! k = Some t ∧ n ∈ t.1).
  { intros n. destruct (T !! k) as [t|]; [by exists t|]. by intros []%elem_of_nil. }
  split_and!.
  - cbn. destruct Hsc' as [?|_]; [by left|]. destruct (decide (NDEBUG = true)) as [|Hf]; [by left|right]. apply Forall_forall.
    intros n (t & Ht & Hn)%Hdef Hs. destruct (Hold k t n Ht Hn) as [_ [?|Hno]]; [done|]. apply Hno. csimpl. rewrite Hs. by left.
  - intros (t & Ht & Hn)%Hdef. destruct (Hold k t _ Ht Hn) as [Hno _]. apply Hno. by left.
  - split; [by split; [|destruct Hsc' as [?|[_ ?]]; auto]|]. intros k' t n. cbn [spec_zmop snd spec_zop]. rewrite lookup_insert_Some.
    intros [[<- <-]|[Hne Ht]] Hn; [|destruct (Hold k' t n Ht Hn) as [Hz1 Hz2]; split; [set_solver|destruct Hz2; [by left|right; csimpl in *; set_solver]]].
    cbn [fst] in Hn. rewrite ordered_insert_perm in Hn. apply elem_of_cons in Hn as [-> |(t & Ht & Hn)%Hdef].
    + split; [done|]. destruct Hsc' as [?|[? _]]; [by left|by right].
    + destruct (Hold k t n Ht Hn) as [Hz1 Hz2]. split; [set_solver|destruct Hz2; [by left|right; csimpl in *; set_solver]].
Qed.

Lemma addable_del T L k v : addable T L → addable (spec_zmop T (MDel k v)).2 L.
Proof.
  intros [HL Hold]. split; [done|]. intros k' t n. cbn. destruct (T !! k) as [t0|] eqn:E; [|by apply Hold].
  rewrite lookup_insert_Some. intros [[<- <-]|[_ Ht]]; [cbn; by apply Hold|by apply Hold].
Qed.

Lemma sets_ok_step T o : sets_ok T → (match o with MAdd k sc v => mkZaddRequest sc v ∉ (default zempty (T !! k)).1 | _ => True end) → sets_ok (spec_zmop T o).2.
Proof.
  intros HT Ho. destruct o as [k sc v|k lo hi|k v].
  - intros k' t. cbn [spec_zmop snd]. rewrite lookup_insert_Some. intros [[_ <-]|[_ Ht]]; [|by apply (HT k')].
    destruct (sets_ok_default T k HT) as [Hz1 Hz2]. split; [by apply spec_zop_ok|]. cbn [spec_zop snd fst]. rewrite ordered_insert_perm. by constructor.
  - cbn. by destruct (T !! k).
  - intros k' t. cbn. destruct (T !! k) as [t0|] eqn:E; [|apply HT]. rewrite lookup_insert_Some.
    intros [[_ <-]|[_ Ht]]; [|by apply (HT k')]. destruct (HT k t0 E) as [Hz1 Hz2]. split; [|done]. by apply (spec_zop_ok t0 (ZDel v)).
Qed.

Lemma spec_zmop_result T o : sets_ok T → zm_result (current_sets T) o (spec_zmop T o).1 ∧ current_sets (spec_zmop T o).2 = zm_next (current_sets T) o.
Proof.
  intros HT. unfold current_sets. destruct o as [k sc v|k lo hi|k v]; cbn; rewrite ?lookup_fmap.
  - split; [done|]. rewrite fmap_insert. by destruct (T !! k).
  - destruct (T !! k) as [t|] eqn:E; cbn; [|done]. destruct (HT k t E). by split; [split; [|apply zrange_in_range]|].
  - split; [done|]. destruct (T !! k); cbn; [by rewrite fmap_insert|done].
Qed.

(** What a sequence of operations adds. *)
Lemma spec_zmops_results os : ∀ T, sets_ok T → addable T (zm_added os) → zm_results (current_sets T) os (spec_zmops T os).1.
Proof.
  induction os as [|o os IH]; intros T HT HL; [done|]. cbn [spec_zmops]. destruct (spec_zmop_result T o HT) as [Hr Hn].
  assert (Hstep : sets_ok (spec_zmop T o).2 ∧ addable (spec_zmop T o).2 (zm_added os)).
  { destruct o as [k sc v|k lo hi|k v].
    - apply addable_cons in HL as (_ & Hnew & HL). split; [by apply sets_ok_step|done].
    - split; [by apply sets_ok_step|]. cbn. by destruct (T !! k).
    - split; [by apply sets_ok_step|by apply addable_del]. }
  specialize (IH _ (proj1 Hstep) (proj2 Hstep)). rewrite Hn in IH. destruct (spec_zmop T o) as [r T1]. cbn [fst snd] in *. by destruct (spec_zmops T1 os).
Qed.

Lemma addable_start L : pairs_ok NDEBUG L → addable ∅ L.
Proof. intros HL. split; [done|]. intros k t n. by rewrite lookup_empty. Qed.

End sets.

Section zm_proofs.
Context (sizeof_Node : Z) (NDEBUG : bool) `{StdHashSpec}.
Context {S : Type} `{NodeAllocator S}.
Implicit Types (zm : ZsetManager) (s : S) (R : list region) (T : gmap string zstate).

#[local] Abbreviation ZM_Add := (ZM_Add sizeof_Node NDEBUG).
#[local] Abbreviation ZM_Range := (ZM_Range NDEBUG).
#[local] Abbreviation find_or_create := (find_or_create sizeof_Node NDEBUG).
#[local] Abbreviation apply_zmop := (apply_zmop sizeof_Node NDEBUG).
#[local] Abbreviation apply_zmops := (apply_zmops sizeof_Node NDEBUG).

Lemma zset_rep_mono z R R' t : R ⊆ R' → zset_rep z R t → zset_rep z R' t.
Proof. intros HR [? ?]. split; [by eapply represents_mono|done]. Qed.

Lemma zm_rep_mono zm R R' T : R ⊆ R' → zm_rep zm R T → zm_rep zm R' T.
Proof.
  intros HR [(P & Habs & Hinj & Hk) Hf]. split; [|done]. exists P. split_and!; auto.
  intros k. specialize (Hk k). destruct (P !! k) as [o1|]; [|done].
  destruct Hk as (z & t & ? & ? & ?). exists z, t. split_and!; auto. by eapply zset_rep_mono.
Qed.

Lemma ZM_Init_effect zm R : ∃ zm', ZM_Init zm = Ret (true, zm') ∧ zm_rep zm' R ∅.
Proof.
  unfold ZM_Init. destruct (Init_abs 87719 (zset_map zm) ltac:(lia)) as (m & -> & Habs). cbn [obind].
  eexists. split; [done|]. split; simpl.
  - exists ∅. split_and!; [done| |].
    + intros k1 k2 o. by rewrite lookup_empty.
    + intros k. by rewrite !lookup_empty.
  - intros o. rewrite lookup_empty. by intros [].
Qed.

(** The object of a key that has a set. *)
Lemma zm_object zm R T k t :
  zm_rep zm R T → T !! k = Some t →
  ∃ p o z, HashKv.Get (zset_map zm) k = Ret (Some p) ∧ cell_read (zset_map zm) p = Ret o ∧
    zset_objs zm !! o = Some z ∧ zset_rep z R t ∧
    (∀ z' t' R', zset_rep z' R' t' → R ⊆ R' →
       zm_rep (mkZsetManager (zset_map zm) (<[o := z']> (zset_objs zm)) (next_obj zm)) R' (<[k := t']> T)).
Proof.
  intros Hrep Ht. pose proof Hrep as [(P & Habs & Hinj & Hk) Hf].
  pose proof (Hk k) as Hkk. pose proof (Get_abs _ _ k Habs) as Hg.
  destruct (P !! k) as [o|] eqn:EP; [|congruence].
  destruct Hkk as (z & t0 & Hz & Ht0 & Hrz). destruct Hg as (p & Hg & Hr).
  assert (t0 = t) as -> by congruence. exists p, o, z. split_and!; auto.
  intros z' t' R' Hz' HR. split; simpl.
  - exists P. split_and!; auto. intros k'. specialize (Hk k'). destruct (decide (k' = k)) as [->|Hne].
    + rewrite EP, !lookup_insert_eq. by exists z', t'.
    + rewrite (lookup_insert_ne T) by done. destruct (P !! k') as [o'|] eqn:E'; [|done].
      destruct Hk as (z1 & t1 & ? & ? & ?). exists z1, t1. split_and!; [|done|by eapply zset_rep_mono].
      rewrite lookup_insert_ne; [done|]. intros <-. apply Hne. by apply (Hinj k' k o).
  - intros o'. rewrite lookup_insert_is_Some'. intros [<-|?]; apply Hf; eauto.
Qed.

Lemma zm_none zm R T k :
  zm_rep zm R T → T !! k = None → HashKv.Get (zset_map zm) k = Ret None.
Proof.
  intros [(P & Habs & _ & Hk) _] Ht. specialize (Hk k). pose proof (Get_abs _ _ k Habs) as Hg.
  destruct (P !! k) as [o1|]; [|done]. destruct Hk as (z & t & _ & ? & _). congruence.
Qed.

(** After [find_or_create] the key has a set, empty if it had none. *)
Lemma find_or_create_effect zm R T k s :
  sizeof_ok sizeof_Node → zm_rep zm R T → alloc_inv s R →
  safe (find_or_create zm k s) (λ '(p, zm', s'), ∃ R', alloc_inv s' R' ∧ R ⊆ R' ∧
    HashKv.Get (zset_map zm') k = Ret (Some p) ∧
    zm_rep zm' R' (<[k := default zempty (T !! k)]> T)).
Proof.
  intros Hsz Hrep Hs. unfold Managers.find_or_create.
  destruct (T !! k) as [t|] eqn:Et.
  { destruct (zm_object zm R T k t Hrep Et) as (p & o & z & Hg & _). rewrite Hg. cbn [obind safe].
    exists R. split_and!; auto. simpl. by rewrite insert_id. }
  rewrite (zm_none zm R T k Hrep Et). cbn [obind]. unfold make_zset. apply safe_bind, safe_bind.
  eapply safe_mono; [by apply (Zset_new_effect sizeof_Node NDEBUG s R)|].
  intros [z s'] (reg & Hs' & Hz). cbn [obind safe].
  destruct Hrep as [(P & Habs & Hinj & Hk) Hf]. cbn [zset_map zset_objs next_obj].
  set (o := next_obj zm) in *.
  assert (HPo : ∀ k', P !! k' ≠ Some o).
  { intros k' E. specialize (Hk k'). rewrite E in Hk. destruct Hk as (z' & _ & Hz' & _).
    specialize (Hf o (mk_is_Some _ _ Hz')). lia. }
  assert (HPk : P !! k = None).
  { specialize (Hk k). destruct (P !! k) as [o1|]; [|done]. destruct Hk as (z1 & t1 & _ & Ht1 & _). rewrite Et in Ht1. done. }
  destruct (GetOrCreate_abs _ _ k o Habs) as (p & m & -> & Hp & Habs' & _). cbn [obind].
  rewrite HPk in Habs'. pose proof Habs' as [Hinv' HM]. pose proof (HM k) as HMk.
  rewrite lookup_insert_eq, Hp in HMk. simpl in HMk. unfold cell_read. rewrite <-HMk. cbn [deref obind safe].
  rewrite Z.eqb_refl. exists (reg :: R). split_and!; [done|set_solver|cbn [zset_map]; by rewrite Get_cell, Hp|]. simpl.
  split; simpl.
  - exists (<[k := o]> P). split_and!; [done| |].
    + intros k1 k2 o' E1 E2. destruct (decide (k1 = k)) as [->|H1'], (decide (k2 = k)) as [->|H2'].
      * done.
      * rewrite lookup_insert_eq in E1. rewrite lookup_insert_ne in E2 by done. by destruct (HPo k2); congruence.
      * rewrite lookup_insert_eq in E2. rewrite lookup_insert_ne in E1 by done. by destruct (HPo k1); congruence.
      * rewrite lookup_insert_ne in E1, E2 by done. by apply (Hinj k1 k2 o').
    + intros k'. destruct (decide (k' = k)) as [->|Hne].
      * rewrite !lookup_insert_eq. by exists z, zempty.
      * rewrite !(lookup_insert_ne _ k k') by done. specialize (Hk k'). destruct (P !! k') as [o'|] eqn:E'; [|done].
        destruct Hk as (z1 & t1 & ? & ? & ?). exists z1, t1.
        split_and!; [|done|eapply zset_rep_mono; [|done]; set_solver].
        rewrite lookup_insert_ne; [done|]. intros <-. by destruct (HPo k').
  - intros o'. rewrite lookup_insert_is_Some'. intros [<-|Ho']; [lia|]. specialize (Hf o' Ho'). lia.
Qed.

Lemma ZM_Add_effect zm R T k sc v s :
  sizeof_ok sizeof_Node → zm_add_ok NDEBUG T (MAdd k sc v) → zm_rep zm R T → alloc_inv s R →
  safe (ZM_Add zm k sc v s) (λ '(b, zm', s'), ∃ R', b = true ∧ alloc_inv s' R' ∧
    zm_rep zm' R' (<[k := (spec_zop (default zempty (T !! k)) (ZAdd sc v)).2]> T)).
Proof.
  intros Hsz HN Hrep Hs. unfold Managers.ZM_Add. apply safe_bind.
  eapply safe_mono; [by apply (find_or_create_effect zm R T)|].
  intros [[p zm1] s1] (R1 & Hs1 & HR1 & Hg & Hrep1).
  destruct (zm_object zm1 R1 _ k _ Hrep1 (lookup_insert_eq T k _)) as (p' & o & z & Hg' & Hr & Hz & Hzr & Hupd).
  rewrite Hg in Hg'. injection Hg' as <-. rewrite Hr. cbn [obind]. rewrite Hz. cbn [deref obind].
  apply safe_bind. eapply safe_mono; [apply (Zset_Add_effect sizeof_Node NDEBUG z R1 (default zempty (T !! k)) sc v s1); auto|].
  intros [[b z'] s2] (reg & -> & Hs2 & Hz'). cbn [safe]. exists (reg :: R1). split_and!; [done|done|].
  specialize (Hupd z' _ (reg :: R1) Hz' ltac:(set_solver)). by rewrite insert_insert_eq in Hupd.
Qed.

Lemma ZM_Range_effect zm R T k lo hi :
  zm_rep zm R T →
  ZM_Range zm k lo hi = Ret (match T !! k with
                             | None => (false, [])
                             | Some t => (true, zrange_spec t lo hi)
                             end).
Proof.
  intros Hrep. unfold Managers.ZM_Range. destruct (T !! k) as [t|] eqn:Et.
  - destruct (zm_object zm R T k t Hrep Et) as (p & o & z & -> & Hr & Hz & Hzr & _).
    cbn [obind]. rewrite Hr. cbn [obind]. rewrite Hz. cbn [deref obind].
    by rewrite (Zset_Range_effect NDEBUG z R t).
  - by rewrite (zm_none zm R T k).
Qed.

Lemma ZM_Del_effect zm R T k v :
  zm_rep zm R T →
  ∃ zm', ZM_Del zm k v = Ret (true, zm') ∧ zm_rep zm' R (spec_zmop T (MDel k v)).2.
Proof.
  intros Hrep. unfold ZM_Del. simpl. destruct (T !! k) as [t|] eqn:Et.
  - destruct (zm_object zm R T k t Hrep Et) as (p & o & z & -> & Hr & Hz & Hzr & Hupd).
    cbn [obind]. rewrite Hr. cbn [obind]. rewrite Hz. cbn [deref obind].
    destruct (Zset_Del_effect z R t v Hzr) as (z' & -> & Hz'). cbn [obind].
    eexists. split; [done|]. by apply Hupd.
  - rewrite (zm_none zm R T k) by done. by exists zm.
Qed.

Lemma apply_zmop_effect zm R T s o :
  sizeof_ok sizeof_Node → zm_add_ok NDEBUG T o → zm_rep zm R T → alloc_inv s R →
  safe (apply_zmop zm s o) (λ '(r, zm', s'), ∃ R', r = (spec_zmop T o).1 ∧ alloc_inv s' R' ∧
    zm_rep zm' R' (spec_zmop T o).2).
Proof.
  intros Hsz HN Hrep Hs. destruct o as [k sc v|k lo hi|k v]; cbn [Managers.apply_zmop].
  - apply safe_bind. eapply safe_mono; [by apply (ZM_Add_effect zm R T)|].
    intros [[b zm'] s'] (R' & -> & ? & ?). by exists R'.
  - rewrite (ZM_Range_effect zm R T) by done. simpl. destruct (T !! k); by exists R.
  - destruct (ZM_Del_effect zm R T k v Hrep) as (zm' & -> & ?). by exists R.
Qed.

Lemma apply_zmops_effect os : ∀ zm R T s, sizeof_ok sizeof_Node → addable NDEBUG T (zm_added os) → zm_rep zm R T → alloc_inv s R →
  safe (apply_zmops zm s os) (λ '(rs, _, _), rs = (spec_zmops T os).1).
Proof.
  induction os as [|o os IH]; intros zm R T s Hsz HL Hrep Hs; cbn [Managers.apply_zmops spec_zmops]; [done|].
  assert (Hstep : zm_add_ok NDEBUG T o ∧ addable NDEBUG (spec_zmop T o).2 (zm_added os)).
  { destruct o as [k sc v|k lo hi|k v].
    - apply addable_cons in HL as (? & _ & ?). done.
    - split; [done|]. cbn. by destruct (T !! k).
    - split; [done|by apply addable_del]. }
  destruct Hstep as [Hok Hstep]. apply safe_bind. eapply safe_mono; [by apply (apply_zmop_effect zm R T)|].
  intros [[r zm1] s1] (R1 & -> & Hs1 & Hrep1). destruct (spec_zmop T o) as [r T1].
  apply safe_bind. eapply safe_mono; [by apply (IH zm1 R1 T1)|]. intros [[rs zm2] s2] ->. by destruct (spec_zmops T1 os).
Qed.

(** C34: after [Init], the manager keeps for each key a sorted set as cache/openapi.yaml
    has it, for every sequence of [Add], [Range] and [Del] that adds no pair of score
    and member to a key twice, nor, in a build with assertions, a score twice: it
    runs without undefined behaviour or a failed assertion and, unless memory runs
    out, a range is found if something was ever added to its key, and then lists
    exactly the members whose score is in it, each once and with its latest score, by
    ascending score. *)
Theorem ZsetManager_refines zm0 os s R :
  sizeof_ok sizeof_Node → pairs_ok NDEBUG (zm_added os) → alloc_inv s R →
  ∃ zm, ZM_Init zm0 = Ret (true, zm) ∧
    safe (apply_zmops zm s os) (λ '(rs, _, _), zm_results ∅ os rs).
Proof.
  intros Hsz HL%addable_start Hs. destruct (ZM_Init_effect zm0 R) as (zm & Hi & Hrep). exists zm. split; [done|].
  eapply safe_mono; [by eapply (apply_zmops_effect os zm R)|]. intros [[rs z] s'] ->.
  rewrite <-(fmap_empty (λ t : zstate, t.2)). apply (spec_zmops_results NDEBUG); [intros k t; by rewrite lookup_empty|done].
Qed.
End zm_proofs.

(** ** LocaldbManager

    [_db] is not set by the constructor; [DB::Open] stores the database, or a
    null pointer when it fails. *)

Inductive db_ptr := DbUnset | DbNull | DbOpen.

Record LocaldbManager := mkLocaldbManager {
  inited : bool;
  ldb_path : string;
  db : db_ptr;
}.

Definition LocaldbManager_new : LocaldbManager := mkLocaldbManager false EmptyString DbUnset.

Section localdb.
Context `{StdHash} {D : Type} `{LevelDB D}.
Implicit Types (lm : LocaldbManager) (d : D).

(** The loop over the iterator. *)
Fixpoint load_all (kvs : list (string * string)) (kv : KvManager) : outcome KvManager :=
  match kvs with
  | [] => Ret kv
  | (k, v) :: kvs' => '(_, kv') ←! Kv_Add kv k v; load_all kvs' kv'
  end.

Definition Localdb_Init lm (path : string) d (kv : KvManager) :
    outcome (bool * LocaldbManager * D * KvManager) :=
  match ldb_open path d with
  | None => Ret (false, mkLocaldbManager (inited lm) path DbNull, d, kv)
  | Some d' =>
      kv' ←! load_all (ldb_iterate d') kv;
      Ret (true, mkLocaldbManager true path DbOpen, d', kv')
  end.

Definition Localdb_Query lm : bool := inited lm.

(** The statuses are ignored. *)
Definition Localdb_Add lm (k v : string) d : outcome D :=
  match db lm with
  | DbOpen => Ret (ldb_put k v d).2
  | _ => Undef
  end.

Definition Localdb_Batch lm (reqs : list InsertRequest) d : outcome D :=
  match db lm with
  | DbOpen => Ret (ldb_write ((λ r, (ins_key r, ins_value r)) <$> reqs) d).2
  | _ => Undef
  end.
End localdb.

Section localdb_proofs.
Context `{StdHashSpec} {D : Type} `{LevelDBSpec D}.
Implicit Types (lm : LocaldbManager) (d : D).

Lemma Kv_Init_effect kv :
  ∃ kv', Kv_Init kv = Ret (true, kv') ∧ hashkv_abs (memdb kv') ∅.
Proof.
  unfold Kv_Init. destruct (Init_abs 1403641 (memdb kv) ltac:(lia)) as (m & -> & Habs). cbn [obind]. eauto.
Qed.

Lemma Kv_Add_effect kv M k v :
  hashkv_abs (memdb kv) M →
  ∃ kv', Kv_Add kv k v = Ret (true, kv') ∧ hashkv_abs (memdb kv') (<[k := v]> M).
Proof.
  intros Habs. unfold Kv_Add. destruct (Add_abs _ _ k v Habs) as (m & -> & ? & _). cbn [obind]. eauto.
Qed.

Lemma Kv_Del_effect kv M k :
  hashkv_abs (memdb kv) M →
  ∃ kv', Kv_Del kv k = Ret (true, kv') ∧ hashkv_abs (memdb kv') (delete k M).
Proof.
  intros Habs. unfold Kv_Del. destruct (Del_abs _ _ k Habs) as (m & -> & ? & _). cbn [obind]. eauto.
Qed.

Lemma Kv_lookup_effect kv M k : hashkv_abs (memdb kv) M → Kv_lookup kv k = Ret (M !! k).
Proof.
  intros Habs. unfold Kv_lookup, Kv_Query. pose proof (Get_abs _ _ k Habs) as Hg.
  destruct (M !! k) as [v|].
  - destruct Hg as (p & -> & Hr). cbn [obind]. by rewrite Hr.
  - by rewrite Hg.
Qed.

Lemma load_all_effect kvs kv M :
  hashkv_abs (memdb kv) M →
  ∃ kv', load_all kvs kv = Ret kv' ∧ hashkv_abs (memdb kv') (batch_insert M kvs).
Proof.
  revert kv M. induction kvs as [|[k v] kvs IH]; intros kv M Habs; cbn [load_all]; [eauto|].
  destruct (Kv_Add_effect kv M k v Habs) as (kv1 & -> & Habs1). cbn [obind]. by apply IH.
Qed.

(** Entries with distinct keys. *)
Lemma batch_insert_union M kvs :
  NoDup kvs.*1 → batch_insert M kvs = list_to_map kvs ∪ M.
Proof.
  revert M. induction kvs as [|[k v] kvs IH]; intros M Hnd; csimpl in *.
  - by rewrite (left_id_L ∅ (∪)).
  - apply NoDup_cons in Hnd as [Hk Hnd]. unfold batch_insert in *. simpl. rewrite IH by done.
    rewrite <-insert_union_l, insert_union_r; [done|]. by apply not_elem_of_list_to_map_1.
Qed.

Lemma iterate_union d (M : gmap string string) : batch_insert M (ldb_iterate d) = ldb_contents d ∪ M.
Proof.
  pose proof (ldb_iterate_spec d) as Hp.
  assert (Hnd : NoDup (ldb_iterate d).*1) by (rewrite Hp; apply NoDup_fst_map_to_list).
  rewrite batch_insert_union by done. f_equal.
  rewrite <-(list_to_map_to_list (M := gmap string) (ldb_contents d)). by apply list_to_map_proper.
Qed.

Lemma Localdb_Init_effect lm path d kv M :
  hashkv_abs (memdb kv) M →
  match ldb_open path d with
  | None => Localdb_Init lm path d kv = Ret (false, mkLocaldbManager (inited lm) path DbNull, d, kv)
  | Some d' => ∃ kv', Localdb_Init lm path d kv = Ret (true, mkLocaldbManager true path DbOpen, d', kv') ∧
      hashkv_abs (memdb kv') (ldb_contents d ∪ M)
  end.
Proof.
  intros Habs. unfold Localdb_Init. destruct (ldb_open path d) as [d'|] eqn:E; [|done].
  destruct (load_all_effect (ldb_iterate d') kv M Habs) as (kv' & -> & Habs'). cbn [obind].
  exists kv'. split; [done|]. by rewrite iterate_union, (ldb_open_spec path d d') in Habs'.
Qed.

(** Opening the database puts every persisted entry into memory, over an
    entry with the same key, keeps the other entries, and marks the manager as
    initialised; when the database cannot be opened nothing is loaded and the
    manager stays uninitialised. *)
Theorem Localdb_Init_loads lm path d kv M :
  hashkv_abs (memdb kv) M →
  match ldb_open path d with
  | None => ∃ lm', Localdb_Init lm path d kv = Ret (false, lm', d, kv) ∧
      Localdb_Query lm' = Localdb_Query lm
  | Some d' => ∃ lm' kv', Localdb_Init lm path d kv = Ret (true, lm', d', kv') ∧
      Localdb_Query lm' = true ∧
      ∀ k, Kv_lookup kv' k = Ret (match ldb_contents d !! k with Some v => Some v | None => M !! k end)
  end.
Proof.
  intros Habs. pose proof (Localdb_Init_effect lm path d kv M Habs) as Hi.
  destruct (ldb_open path d); [|eauto].
  destruct Hi as (kv' & -> & Habs'). eexists _, kv'. split_and!; [done|done|].
  intros k. rewrite (Kv_lookup_effect _ _ _ Habs'), lookup_union.
  by destruct (ldb_contents d !! k), (M !! k).
Qed.

(** Before the database is open, and for good when it could not be opened,
    the writes that persist an entry dereference a pointer that is unset or
    null. *)
Theorem Localdb_write_before_open k v reqs path (d : D) kv :
  Localdb_Add LocaldbManager_new k v d = Undef ∧ Localdb_Batch LocaldbManager_new reqs d = Undef ∧
  (ldb_open path d = None →
   ∃ lm, Localdb_Init LocaldbManager_new path d kv = Ret (false, lm, d, kv) ∧
     Localdb_Add lm k v d = Undef ∧ Localdb_Batch lm reqs d = Undef).
Proof.
  split_and!; [done..|]. intros Ho. unfold Localdb_Init. rewrite Ho. eexists. by split_and!.
Qed.
End localdb_proofs.

(** ** Concrete managers *)

#[local] Existing Instance length_hash.
#[local] Existing Instance length_hash_spec.

(** The operations of zset_manager_test.cc. *)
Definition zset_test : list zmop :=
  [MAdd "yuwen" 1 "wangzhi"; MAdd "yuwen" 5 "limanting"; MRange "yuwen" 0 10;
   MDel "yuwen" "wangzhi"; MRange "yuwen" 0 10; MRange "shuxue" 0 10].

Lemma ZsetManager_refines_witness :
  ∃ zm, ZM_Init ZsetManager_new = Ret (true, zm) ∧
    safe (apply_zmops 48 false zm demo_alloc zset_test) (λ '(rs, _, _), zm_results ∅ zset_test rs).
Proof.
  assert (Hok : pairs_ok false (zm_added zset_test)) by (split; [|right]; apply (bool_decide_unpack _); vm_compute; exact I).
  exact (ZsetManager_refines 48 false ZsetManager_new zset_test demo_alloc [] ltac:(split; lia) Hok demo_alloc_inv).
Defined.

Definition demo_disk : gmap string string := <["a" := "1"]> (<["b" := "2"]> ∅).

Definition demo_kvm : KvManager :=
  match Kv_Init KvManager_new with
  | Ret (_, kv) => match Kv_Add kv "a" "9" with Ret (_, kv') => kv' | _ => kv end
  | _ => KvManager_new
  end.

Lemma demo_kvm_abs : hashkv_abs (memdb demo_kvm) (<["a" := "9"]> ∅).
Proof.
  unfold demo_kvm. destruct (Kv_Init_effect KvManager_new) as (kv & -> & H1).
  destruct (Kv_Add_effect kv ∅ "a" "9" H1) as (kv' & -> & H2). exact H2.
Qed.

(** A newer value in memory is overwritten by the persisted one. *)
Lemma Localdb_Init_loads_witness :
  ∃ lm' kv', Localdb_Init LocaldbManager_new "/mydata" demo_disk demo_kvm = Ret (true, lm', demo_disk, kv') ∧
    Kv_lookup demo_kvm "a" = Ret (Some "9") ∧ Kv_lookup kv' "a" = Ret (Some "1").
Proof.
  destruct (Localdb_Init_loads LocaldbManager_new "/mydata" demo_disk demo_kvm _ demo_kvm_abs)
    as (lm' & kv' & H1 & _ & H2).
  exists lm', kv'. split_and!; [exact H1|vm_compute; reflexivity|].
  rewrite H2. vm_compute. reflexivity.
Defined.

(** A store that cannot be opened. *)
#[local] Instance broken_LevelDB : LevelDB unit := {
  ldb_contents _ := ∅;
  ldb_open _ _ := None;
  ldb_iterate _ := [];
  ldb_put _ _ d := (false, d);
  ldb_write _ d := (false, d);
}.

Lemma Localdb_write_before_open_witness :
  ∃ lm, Localdb_Init LocaldbManager_new "/mydata" tt demo_kvm = Ret (false, lm, tt, demo_kvm) ∧
    Localdb_Add lm "k" "v" tt = Undef.
Proof.
  destruct (Localdb_write_before_open "k" "v" [] "/mydata" tt demo_kvm) as (_ & _ & H).
  destruct (H eq_refl) as (lm & H1 & H2 & _). exists lm. split; assumption.
Defined.
