(* ===== verification/Regex.v ===== *)
(** * The regular expressions the program uses

    The sources use [std::regex] with its default ECMAScript grammar: in
    cache/utils/param_parse.cc and for the routes of cache/server.cc.  This file
    models the part of the standard library they need: patterns that are a
    sequence of characters, [.], [^], [$], escaped punctuation, a greedy or lazy
    [*] or [+] after a single character, and groups without a quantifier.
    [compile] answers [None] for a pattern outside this part.

    Matching is the backtracking search of the standard: alternatives in order,
    a lazy quantifier trying the shorter match first; [regex_search] tries the
    start positions from left to right. *)

From Stdlib Require Import Ascii.
From S2P Require Import Prelude.

Abbreviation chars := (list ascii).

Definition chars_of (s : string) : chars := String.list_ascii_of_string s.
Definition string_of (cs : chars) : string := String.string_of_list_ascii cs.

Lemma chars_of_string_of cs : chars_of (string_of cs) = cs.
Proof. apply String.list_ascii_of_string_of_list_ascii. Qed.

Lemma string_of_chars_of s : string_of (chars_of s) = s.
Proof. apply String.string_of_list_ascii_of_string. Qed.

Lemma chars_of_app s1 s2 : chars_of (s1 +:+ s2) = chars_of s1 ++ chars_of s2.
Proof. induction s1 as [|c s1 IH]; simpl; [done|]. f_equal. exact IH. Qed.

(** ** Patterns *)

Inductive atom := Chr (c : ascii) | Any.

Inductive item :=
| One (a : atom)
| Star (greedy : bool) (a : atom)
| Open                       (* the next group starts *)
| Close (g : nat)            (* group number [g], from 0, ends *)
| Bol
| Eol.

Definition atom_matches (a : atom) (c : ascii) : bool :=
  match a with
  | Chr c' => bool_decide (c = c')
  | Any => negb (bool_decide (c = "010"%char) || bool_decide (c = "013"%char))
  end.

(** A group's start, and its end once it is closed. *)
Definition capture : Type := nat * option nat.

Definition close_group (caps : list capture) (g pos : nat) : list capture :=
  match caps !! g with
  | Some (b, _) => <[g := (b, Some pos)]> caps
  | None => caps
  end.

(** A match of [items] at [pos], where [s] is the rest of the subject: the end
    of the match and the groups. *)
Fixpoint match_items (items : list item) (pos : nat) (s : chars) (caps : list capture) {struct items} :
    option (nat * list capture) :=
  match items with
  | [] => Some (pos, caps)
  | One a :: items' =>
      match s with
      | c :: s' => if atom_matches a c then match_items items' (S pos) s' caps else None
      | [] => None
      end
  | Star greedy a :: items' =>
      (fix loop (s : chars) (pos : nat) {struct s} : option (nat * list capture) :=
         match s with
         | [] => match_items items' pos s caps
         | c :: s' =>
             if atom_matches a c then
               if greedy then
                 match loop s' (S pos) with
                 | Some r => Some r
                 | None => match_items items' pos s caps
                 end
               else
                 match match_items items' pos s caps with
                 | Some r => Some r
                 | None => loop s' (S pos)
                 end
             else match_items items' pos s caps
         end) s pos
  | Open :: items' => match_items items' pos s (caps ++ [(pos, None)])
  | Close g :: items' => match_items items' pos s (close_group caps g pos)
  | Bol :: items' => if decide (pos = 0%nat) then match_items items' pos s caps else None
  | Eol :: items' => match s with [] => match_items items' pos s caps | _ => None end
  end.

(** The text between two positions. *)
Definition slice (cs : chars) (b e : nat) : chars := take (e - b) (drop b cs).

(** [std::smatch]: the prefix's end, the match's end and the groups' texts. *)
Record smatch := mkSmatch {
  m_begin : nat;
  m_end : nat;
  m_groups : list chars;
}.

Definition group_text (subject : chars) (c : capture) : chars :=
  match c with
  | (b, Some e) => slice subject b e
  | (_, None) => []
  end.

Fixpoint search_from (items : list item) (subject : chars) (pos : nat) (s : chars) : option smatch :=
  match match_items items pos s [] with
  | Some (e, caps) => Some (mkSmatch pos e (group_text subject <$> caps))
  | None =>
      match s with
      | [] => None
      | _ :: s' => search_from items subject (S pos) s'
      end
  end.

Definition regex_search (items : list item) (subject : chars) : option smatch :=
  search_from items subject 0 subject.

(** [regex_match]: the whole subject. *)
Definition regex_match (items : list item) (subject : chars) : bool :=
  match match_items (items ++ [Eol]) 0 subject [] with Some _ => true | None => false end.

(** [regex_replace] with a format that has no [$]: every match that is found
    after the previous one is replaced.  The fuel is the length of the subject
    plus one; an empty match would need the standard's extra rule and gives
    [None]. *)
Fixpoint regex_replace_loop (fuel : nat) (items : list item) (fmt subject : chars) : option chars :=
  match fuel with
  | O => None
  | S fuel' =>
      match regex_search items subject with
      | None => Some subject
      | Some m =>
          if decide (m_begin m < m_end m)%nat then
            rest ← regex_replace_loop fuel' items fmt (drop (m_end m) subject);
            Some (take (m_begin m) subject ++ fmt ++ rest)
          else None
      end
  end.

Definition regex_replace (items : list item) (fmt subject : chars) : option chars :=
  regex_replace_loop (S (length subject)) items fmt subject.

(** ** Reading a pattern

    What the characters read so far leave open: an atom that may get a
    quantifier, a quantifier that may become lazy, an escape. *)
Inductive pending := PNone | PAtom (a : atom) | PStar (a : atom) | PPlus (a : atom) | PEsc (p : list item).

Definition flush (p : pending) : list item :=
  match p with
  | PNone | PEsc _ => []
  | PAtom a => [One a]
  | PStar a => [Star true a]
  | PPlus a => [One a; Star true a]
  end.

Definition is_alnum (c : ascii) : bool :=
  let n := nat_of_ascii c in
  ((48 <=? n) && (n <=? 57) || (65 <=? n) && (n <=? 90) || (97 <=? n) && (n <=? 122))%nat.

(** The characters with a meaning of their own. *)
Definition special (c : ascii) : bool :=
  bool_decide (c ∈ chars_of "^$\.*+?()[]{}|").

Fixpoint parse (cs : chars) (p : pending) (open : list nat) (groups : nat) : option (list item) :=
  match cs with
  | [] =>
      match p, open with
      | PEsc _, _ | _, _ :: _ => None
      | _, [] => Some (flush p)
      end
  | c :: cs' =>
      match p with
      | PEsc before =>
          if is_alnum c then None
          else rest ← parse cs' (PAtom (Chr c)) open groups; Some (before ++ rest)
      | _ =>
          if special c then
            if bool_decide (c = "*"%char) then
              match p with PAtom a => parse cs' (PStar a) open groups | _ => None end
            else if bool_decide (c = "+"%char) then
              match p with PAtom a => parse cs' (PPlus a) open groups | _ => None end
            else if bool_decide (c = "?"%char) then
              match p with
              | PStar a => rest ← parse cs' PNone open groups; Some (Star false a :: rest)
              | PPlus a => rest ← parse cs' PNone open groups; Some (One a :: Star false a :: rest)
              | _ => None
              end
            else if bool_decide (c = "."%char) then
              rest ← parse cs' (PAtom Any) open groups; Some (flush p ++ rest)
            else if bool_decide (c = "\"%char) then parse cs' (PEsc (flush p)) open groups
            else if bool_decide (c = "("%char) then
              rest ← parse cs' PNone (groups :: open) (S groups); Some (flush p ++ Open :: rest)
            else if bool_decide (c = ")"%char) then
              match open with
              | g :: open' =>
                  (* a quantifier after a group is outside the part modelled *)
                  match cs' with
                  | q :: _ => if bool_decide (q ∈ chars_of "*+?{") then None
                              else rest ← parse cs' PNone open' groups; Some (flush p ++ Close g :: rest)
                  | [] => rest ← parse cs' PNone open' groups; Some (flush p ++ Close g :: rest)
                  end
              | [] => None
              end
            else if bool_decide (c = "^"%char) then
              rest ← parse cs' PNone open groups; Some (flush p ++ Bol :: rest)
            else if bool_decide (c = "$"%char) then
              rest ← parse cs' PNone open groups; Some (flush p ++ Eol :: rest)
            else None
          else rest ← parse cs' (PAtom (Chr c)) open groups; Some (flush p ++ rest)
      end
  end.

(** [std::regex(pattern)]. *)
Definition compile (pattern : string) : option (list item) := parse (chars_of pattern) PNone [] 0.

(** ** Facts about reading *)

Definition lit_items (l : chars) : list item := (λ c, One (Chr c)) <$> l.

Definition plain (l : chars) : Prop := Forall (λ c, special c = false) l.

#[export] Instance plain_dec l : Decision (plain l).
Proof. apply _. Defined.

Definition not_esc (p : pending) : Prop := match p with PEsc _ => False | _ => True end.

Lemma parse_plain c cs p o g :
  special c = false → not_esc p →
  parse (c :: cs) p o g = (rest ← parse cs (PAtom (Chr c)) o g; Some (flush p ++ rest)).
Proof. intros Hc Hp. destruct p; try done; simpl; by rewrite Hc. Qed.

Lemma parse_open cs p o g :
  not_esc p →
  parse ("("%char :: cs) p o g = (rest ← parse cs PNone (g :: o) (S g); Some (flush p ++ Open :: rest)).
Proof. by destruct p. Qed.

(** Plain characters before a group, and before the end of the pattern. *)
Lemma parse_lits_open l cs p o g :
  plain l → not_esc p →
  parse (l ++ "("%char :: cs) p o g =
  (rest ← parse cs PNone (g :: o) (S g); Some (flush p ++ lit_items l ++ Open :: rest)).
Proof.
  intros Hl. revert p. induction Hl as [|c l Hc _ IH]; intros p Hp; simpl app; [by apply parse_open|].
  rewrite parse_plain, IH by done. destruct (parse cs PNone _ _); [|done]. csimpl. done.
Qed.

(** ** Facts about matching *)

Definition is_newline (c : ascii) : Prop := c = "010"%char ∨ c = "013"%char.

#[export] Instance is_newline_dec c : Decision (is_newline c).
Proof. apply _. Defined.

Lemma any_matches c : ¬ is_newline c → atom_matches Any c = true.
Proof.
  intros Hc. unfold is_newline in Hc. simpl. by rewrite !bool_decide_false by naive_solver.
Qed.

Lemma chr_matches c : atom_matches (Chr c) c = true.
Proof. simpl. by rewrite bool_decide_true. Qed.

Lemma match_lits l items pos s caps :
  match_items (lit_items l ++ items) pos (l ++ s) caps =
  match_items items (pos + length l) s caps.
Proof.
  revert pos. induction l as [|c l IH]; intros pos; csimpl; [by rewrite Nat.add_0_r|].
  rewrite bool_decide_true, IH by done. f_equal. lia.
Qed.

Lemma match_lits_prefix l items pos s caps r :
  match_items (lit_items l ++ items) pos s caps = Some r → l `prefix_of` s.
Proof.
  revert pos s. induction l as [|c l IH]; intros pos s; csimpl; [intros _; apply prefix_nil|].
  destruct s as [|d s]; [done|]. case_bool_decide; [subst d|done]. intros Hm. by eapply prefix_cons, IH.
Qed.

(** One round of a lazy loop. *)
Lemma match_star_lazy a items pos s caps :
  match_items (Star false a :: items) pos s caps =
  match match_items items pos s caps with
  | Some r => Some r
  | None => match s with
            | c :: s' => if atom_matches a c then match_items (Star false a :: items) (S pos) s' caps else None
            | [] => None
            end
  end.
Proof.
  destruct s as [|c s]; simpl; [by destruct (match_items items pos [] caps)|].
  destruct (atom_matches a c); [done|]. by destruct (match_items items pos (c :: s) caps).
Qed.

(** A lazy loop runs up to the first place where the rest matches. *)
Lemma match_lazy a items pos x s caps r :
  Forall (λ c, atom_matches a c = true) x →
  (∀ y z, x = y ++ z → z ≠ [] → match_items items (pos + length y) (z ++ s) caps = None) →
  match_items items (pos + length x) s caps = Some r →
  match_items (Star false a :: items) pos (x ++ s) caps = Some r.
Proof.
  revert pos. induction x as [|c x IH]; intros pos Hx Hno Hr; rewrite match_star_lazy; csimpl in *.
  { by rewrite Nat.add_0_r in Hr; rewrite Hr. }
  apply Forall_cons in Hx as [Hc Hx].
  pose proof (Hno [] (c :: x) eq_refl ltac:(done)) as Hn0. simpl in Hn0. rewrite Nat.add_0_r in Hn0.
  rewrite Hn0, Hc. apply IH; [done| |].
  - intros y z -> Hz. specialize (Hno (c :: y) z eq_refl Hz). simpl in Hno.
    by replace (S pos + length y)%nat with (pos + S (length y))%nat by lia.
  - by replace (S pos + length x)%nat with (pos + S (length x))%nat by lia.
Qed.

(** [(.*?)$] takes everything. *)
Lemma match_lazy_end g pos v caps :
  Forall (λ c, ¬ is_newline c) v →
  match_items [Star false Any; Close g; Eol] pos v caps =
  Some ((pos + length v)%nat, close_group caps g (pos + length v)).
Proof.
  intros Hv. rewrite <-(app_nil_r v) at 1. apply match_lazy; [|intros y z -> Hz; simpl; by destruct z|done].
  eapply Forall_impl; [exact Hv|]. apply any_matches.
Qed.

(** [(.*?)c] takes what comes before the first [c]. *)
Lemma match_lazy_until g c items pos x s caps r :
  Forall (λ c, ¬ is_newline c) x → c ∉ x →
  match_items items (S (pos + length x)) s (close_group caps g (pos + length x)) = Some r →
  match_items (Star false Any :: Close g :: One (Chr c) :: items) pos (x ++ c :: s) caps = Some r.
Proof.
  intros Hx Hc Hr. apply match_lazy.
  - eapply Forall_impl; [exact Hx|]. apply any_matches.
  - intros y z -> Hz. destruct z as [|d z]; [done|]. simpl.
    rewrite bool_decide_false; [done|]. intros ->. apply Hc, elem_of_app. right. by left.
  - cbn [match_items]. rewrite chr_matches. exact Hr.
Qed.

(** ** Facts about searching *)

Lemma search_skip c items subject pos l s :
  c ∉ l →
  search_from (One (Chr c) :: items) subject pos (l ++ s) =
  search_from (One (Chr c) :: items) subject (pos + length l) s.
Proof.
  revert pos. induction l as [|d l IH]; intros pos Hc; simpl app; [by rewrite Nat.add_0_r|].
  apply not_elem_of_cons in Hc as [Hd Hc]. cbn [search_from match_items atom_matches].
  rewrite bool_decide_false by congruence. rewrite IH by done. simpl. f_equal. lia.
Qed.

Lemma search_none c items subject pos s :
  c ∉ s → search_from (One (Chr c) :: items) subject pos s = None.
Proof.
  intros Hc. rewrite <-(app_nil_r s), search_skip by done. done.
Qed.

Lemma search_hit items subject pos s e caps :
  match_items items pos s [] = Some (e, caps) →
  search_from items subject pos s = Some (mkSmatch pos e (group_text subject <$> caps)).
Proof. intros Hm. destruct s; cbn [search_from]; by rewrite Hm. Qed.

Lemma slice_mid (l v s : chars) : slice (l ++ v ++ s) (length l) (length l + length v) = v.
Proof.
  unfold slice. rewrite drop_app_length, Nat.add_comm, Nat.add_sub. apply take_app_length.
Qed.

(** A pattern that starts with [l] is not found in a text without [l]. *)
Lemma search_absent l items subject pos s :
  (∀ a b, s ≠ a ++ l ++ b) → search_from (lit_items l ++ items) subject pos s = None.
Proof.
  revert pos. induction s as [|c s IH]; intros pos Hno; cbn [search_from];
    destruct (match_items _ _ _ _) as [[e caps]|] eqn:E; try done.
  - apply match_lits_prefix in E as [b Hb]. by destruct (Hno [] b).
  - apply match_lits_prefix in E as [b Hb]. by destruct (Hno [] b).
  - apply IH. intros a b ->. by apply (Hno (c :: a) b).
Qed.

(** [l] does not occur in [pre ++ s] before the end of [pre]. *)
Definition first_at (l pre s : chars) : Prop :=
  ∀ a b, pre = a ++ b → b ≠ [] → ¬ l `prefix_of` (b ++ s).

#[export] Instance first_at_dec l pre s : Decision (first_at l pre s).
Proof.
  induction pre as [|c pre IH].
  - left. intros a b Heq Hb. by destruct a, b.
  - destruct IH as [IH|IH].
    + destruct (decide (l `prefix_of` ((c :: pre) ++ s))) as [Hp|Hp].
      * right. intros Hf. by apply (Hf [] (c :: pre)).
      * left. intros [|d a] b Heq Hb; simplify_eq/=; [done|]. by apply (IH a b).
    + right. intros Hf. apply IH. intros a b -> Hb. by apply (Hf (c :: a) b).
Defined.

Lemma first_at_absent l s : l ≠ [] → first_at l s [] → ∀ a b, s ≠ a ++ l ++ b.
Proof.
  intros Hl Hf a b Heq. apply (Hf a (l ++ b) Heq); [by destruct l|].
  rewrite app_nil_r. by apply prefix_app_r.
Qed.

Lemma search_first l items subject pos pre s :
  first_at l pre s →
  search_from (lit_items l ++ items) subject pos (pre ++ s) =
  search_from (lit_items l ++ items) subject (pos + length pre) s.
Proof.
  revert pos. induction pre as [|c pre IH]; intros pos Hf; simpl app; [by rewrite Nat.add_0_r|].
  cbn [search_from]. destruct (match_items _ _ _ _) as [[e caps]|] eqn:E.
  - apply match_lits_prefix in E. by destruct (Hf [] (c :: pre) eq_refl ltac:(done)).
  - rewrite IH; [simpl; f_equal; lia|]. intros a b -> Hb. by apply (Hf (c :: a) b).
Qed.

(** A pattern that needs the character [c] fails on a text without it. *)
Lemma match_needs c items pos s caps :
  One (Chr c) ∈ items → c ∉ s → match_items items pos s caps = None.
Proof.
  revert pos s caps. induction items as [|it items IH]; intros pos s caps Hin Hs;
    [by apply not_elem_of_nil in Hin|].
  apply elem_of_cons in Hin as [<-|Hin].
  - destruct s as [|d s]; [done|]. apply not_elem_of_cons in Hs as [Hd _]. cbn [match_items atom_matches].
    by rewrite bool_decide_false by congruence.
  - destruct it as [a|greedy a| |g| |]; cbn [match_items]; auto.
    + destruct s as [|d s]; [done|]. destruct (atom_matches a d); [|done].
      apply IH; [done|]. by apply not_elem_of_cons in Hs as [_ ?].
    + revert pos. induction s as [|d s IHs]; intros pos; [by apply IH|].
      pose proof (IH pos (d :: s) caps Hin Hs) as Hnone.
      destruct (atom_matches a d); [|done].
      assert (Hs' : c ∉ s) by (by apply not_elem_of_cons in Hs as [_ ?]).
      specialize (IHs Hs' (S pos)). destruct greedy; by rewrite ?IHs, ?Hnone.
    + by destruct (decide _); auto.
    + destruct s; auto.
Qed.

Lemma search_needs c items subject pos s :
  One (Chr c) ∈ items → c ∉ s → search_from items subject pos s = None.
Proof.
  intros Hin. revert pos. induction s as [|d s IH]; intros pos Hs; cbn [search_from];
    rewrite (match_needs c) by done; [done|]. apply IH. by apply not_elem_of_cons in Hs as [_ ?].
Qed.

(** A greedy group takes everything. *)
Lemma match_greedy_end g pos v caps :
  Forall (λ c, ¬ is_newline c) v →
  match_items [Star true Any; Close g] pos v caps =
  Some ((pos + length v)%nat, close_group caps g (pos + length v)).
Proof.
  intros Hv. revert pos. induction Hv as [|c v Hc Hv IH]; intros pos.
  - cbn. by rewrite Nat.add_0_r.
  - specialize (IH (S pos)). cbn [match_items] in *. rewrite any_matches by done. rewrite IH.
    cbn [length]. by rewrite <-Nat.add_succ_comm.
Qed.
