(* ===== verification/ParamParse.v ===== *)
(** * Parameters of a request: cache/utils/param_parse.cc

    [ParamParse] holds the request's uri.  [Get] looks for a query parameter,
    [GetPathParam] matches the uri against a template such as
    [/room/{roomId}/enter].  Both build regular expressions; the answer is [None]
    when one of them is outside the part of Regex.v, which the theorems show not
    to happen for plain names.

    [GetPathParam_one] and [GetPathParam_two] are round trips: filling a template
    and parsing the result gives the values back. *)

From Stdlib Require Import Ascii.
From S2P Require Import Prelude Regex.

Record ParamParse := mkParamParse { uri_ : string }.

(** The value up to an ampersand, then the value up to the end.  The outer
    [option] is the part of the grammar that is modelled. *)
Definition ParamParse_Get (pp : ParamParse) (key : string) : option (option string) :=
  let uri := chars_of (uri_ pp) in
  r1 ← compile (key +:+ "=(.*?)&");
  match regex_search r1 uri with
  | Some m => v ← m_groups m !! 0%nat; Some (Some (string_of v))
  | None =>
      r2 ← compile (key +:+ "=(.*)");
      match regex_search r2 uri with
      | Some m => v ← m_groups m !! 0%nat; Some (Some (string_of v))
      | None => Some None
      end
  end.

(** [std::vector<std::pair<std::string, std::optional<std::string>>>]. *)
Definition PathParam : Type := list (string * option string).

(** The loop that collects the names; the fuel is the length of the path plus
    one, each match being at least two characters long. *)
Fixpoint param_keys (fuel : nat) (re : list item) (path : chars) : option PathParam :=
  match fuel with
  | O => None
  | S fuel' =>
      match regex_search re path with
      | None => Some []
      | Some m =>
          k ← m_groups m !! 0%nat;
          rest ← param_keys fuel' re (drop (m_end m) path);
          Some ((string_of k, None) :: rest)
      end
  end.

(** The loop that sets the values, up to the shorter of the two lists. *)
Fixpoint set_values (ps : PathParam) (vs : list chars) : PathParam :=
  match ps, vs with
  | (k, _) :: ps', v :: vs' => (k, Some (string_of v)) :: set_values ps' vs'
  | _, _ => ps
  end.

(** [PathParamMap(begin, end)]: the first entry of a name counts. *)
Definition path_param_map (ps : PathParam) : gmap string (option string) :=
  list_to_map ps.

Definition GetPathParam (pp : ParamParse) (path : string) : option (gmap string (option string)) :=
  let uri := chars_of (uri_ pp) in
  re ← compile "\{(.*?)\}";
  ps ← param_keys (S (length (chars_of path))) re (chars_of path);
  regex ← regex_replace re (chars_of "(.*?)") (chars_of path);
  r ← compile (string_of regex);
  match regex_search r uri with
  | Some m => Some (path_param_map (set_values ps (m_groups m)))
  | None => Some (path_param_map ps)
  end.

(** [operator[]]: a name that is not there gives [nullopt]. *)
Definition param_at (m : gmap string (option string)) (k : string) : option string :=
  default None (m !! k).

Example query_param :
  GetPathParam (mkParamParse "/query/abc") "/query/{key}$" = Some {["key" := Some "abc"]}.
Proof. vm_compute. reflexivity. Qed.

Example zrmv_param :
  GetPathParam (mkParamParse "/zrmv/k/v/w") "/zrmv/{key}/{value}$" =
  Some (<["key" := Some "k"]> {["value" := Some "v/w"]}).
Proof. vm_compute. reflexivity. Qed.

Example get_param :
  ParamParse_Get (mkParamParse "/x?a=1&id=2&b=3") "id" = Some (Some "2").
Proof. vm_compute. reflexivity. Qed.

Example get_param_suffix :
  ParamParse_Get (mkParamParse "/x?xid=1&id=2") "id" = Some (Some "1").
Proof. vm_compute. reflexivity. Qed.

(** ** Templates *)

Definition brace_re : list item :=
  [One (Chr "{"); Open; Star false Any; Close 0; One (Chr "}")].

Definition no_newline (s : string) : Prop := Forall (λ c, ¬ is_newline c) (chars_of s).

Definition plain_name (s : string) : Prop := plain (chars_of s) ∧ no_newline s.

#[export] Instance no_newline_dec s : Decision (no_newline s).
Proof. apply _. Defined.

#[export] Instance plain_name_dec s : Decision (plain_name s).
Proof. apply _. Defined.

Lemma plain_not_in c l : special c = true → plain l → c ∉ l.
Proof. intros Hc Hl Hin. rewrite (proj1 (Forall_forall _ _) Hl c Hin) in Hc. done. Qed.

Section template.
Context (l n t : chars).
Hypothesis Hl : plain l.
Hypothesis Hn : plain n.
Hypothesis Hnn : Forall (λ c, ¬ is_newline c) n.

#[local] Abbreviation path := (l ++ "{"%char :: n ++ "}"%char :: t).

Lemma brace_search : regex_search brace_re path = Some (mkSmatch (length l) (length l + length n + 2) [n]).
Proof.
  unfold regex_search, brace_re. rewrite search_skip by (by apply plain_not_in).
  rewrite (search_hit _ _ _ _ (length l + length n + 2) [(S (length l), Some (S (length l) + length n)%nat)]).
  - do 2 f_equal. cbn [fmap list_fmap group_text]. f_equal.
    pose proof (slice_mid (l ++ ["{"%char]) n ("}"%char :: t)) as Hs.
    rewrite <-app_assoc in Hs. simpl app in Hs. rewrite length_app in Hs. simpl in Hs.
    rewrite Nat.add_1_r in Hs. exact Hs.
  - cbn [match_items app]. rewrite chr_matches. cbn [match_items app].
    apply (match_lazy_until 0 "}" [] (S (length l)) n t); [done|by apply plain_not_in|].
    cbn [match_items]. unfold close_group. simpl. do 3 f_equal. lia.
Qed.

Lemma brace_rest : drop (length l + length n + 2) path = t.
Proof.
  replace path with ((l ++ "{"%char :: n ++ ["}"%char]) ++ t) by (by rewrite <-app_assoc, <-app_comm_cons, <-app_assoc).
  apply drop_app_length'. rewrite length_app. simpl. rewrite length_app. simpl. lia.
Qed.

Lemma param_keys_step fuel :
  param_keys (S fuel) brace_re path =
  (rest ← param_keys fuel brace_re t; Some ((string_of n, None) :: rest)).
Proof.
  cbn [param_keys]. rewrite brace_search. cbn [m_groups m_end].
  rewrite brace_rest. done.
Qed.

Lemma replace_step fuel fmt :
  regex_replace_loop (S fuel) brace_re fmt path =
  (rest ← regex_replace_loop fuel brace_re fmt t; Some (l ++ fmt ++ rest)).
Proof.
  cbn [regex_replace_loop]. rewrite brace_search. cbn [m_begin m_end].
  rewrite decide_True by lia. rewrite brace_rest, take_app_length. done.
Qed.
End template.

Lemma param_keys_end fuel t : "{"%char ∉ t → param_keys (S fuel) brace_re t = Some [].
Proof. intros Ht. cbn [param_keys]. unfold regex_search, brace_re. by rewrite search_none. Qed.

Lemma replace_end fuel fmt t :
  "{"%char ∉ t → regex_replace_loop (S fuel) brace_re fmt t = Some t.
Proof. intros Ht. cbn [regex_replace_loop]. unfold regex_search, brace_re. by rewrite search_none. Qed.

(** The expression of a template with one parameter, and with two. *)
Definition one_re (l : chars) : list item :=
  lit_items l ++ [Open; Star false Any; Close 0; Eol].

Definition two_re (l : chars) : list item :=
  lit_items l ++ [Open; Star false Any; Close 0; One (Chr "/"); Open; Star false Any; Close 1; Eol].

Lemma compile_one l : plain l → compile (string_of (l ++ chars_of "(.*?)$")) = Some (one_re l).
Proof.
  intros Hl. unfold compile. rewrite chars_of_string_of.
  change (chars_of "(.*?)$") with ("("%char :: chars_of ".*?)$").
  by rewrite parse_lits_open.
Qed.

Lemma compile_two l :
  plain l → compile (string_of (l ++ chars_of "(.*?)/(.*?)$")) = Some (two_re l).
Proof.
  intros Hl. unfold compile. rewrite chars_of_string_of.
  change (chars_of "(.*?)/(.*?)$") with ("("%char :: chars_of ".*?)/(.*?)$").
  by rewrite parse_lits_open.
Qed.

Lemma search_one l v :
  Forall (λ c, ¬ is_newline c) v →
  regex_search (one_re l) (l ++ v) = Some (mkSmatch 0 (length l + length v) [v]).
Proof.
  intros Hv. unfold regex_search, one_re.
  rewrite (search_hit _ _ _ _ (length l + length v) [(length l, Some (length l + length v)%nat)]).
  - do 2 f_equal. cbn [fmap list_fmap group_text]. f_equal.
    pose proof (slice_mid l v []) as Hs. by rewrite app_nil_r in Hs.
  - rewrite match_lits. etrans; [by apply (match_lazy_end 0 _ v [(length l, None)])|]. done.
Qed.

Lemma search_two l v1 v2 :
  Forall (λ c, ¬ is_newline c) v1 → Forall (λ c, ¬ is_newline c) v2 → "/"%char ∉ v1 →
  regex_search (two_re l) (l ++ v1 ++ "/"%char :: v2) =
  Some (mkSmatch 0 (length l + length v1 + 1 + length v2) [v1; v2]).
Proof.
  intros Hv1 Hv2 Hs1. unfold regex_search, two_re.
  rewrite (search_hit _ _ _ _ (length l + length v1 + 1 + length v2)
    [(length l, Some (length l + length v1)%nat);
     (S (length l + length v1), Some (S (length l + length v1) + length v2)%nat)]).
  - do 2 f_equal. cbn [fmap list_fmap group_text]. f_equal; [apply slice_mid|f_equal].
    pose proof (slice_mid (l ++ v1 ++ ["/"%char]) v2 []) as Hs.
    rewrite app_nil_r, <-!app_assoc in Hs. simpl app in Hs. rewrite !length_app in Hs. simpl in Hs.
    by replace (length l + (length v1 + 1))%nat with (S (length l + length v1)) in Hs by lia.
  - rewrite match_lits. apply (match_lazy_until 0 "/" _ _ v1 v2 [(length l, None)]); [done|done|].
    etrans; [by apply (match_lazy_end 1 _ v2 [(length l, Some (length l + length v1)%nat); (_, None)])|].
    unfold close_group. simpl. do 3 f_equal. lia.
Qed.

(** What the two expressions of a one-parameter template come to. *)
Lemma GetPathParam_template l n uri :
  plain_name l → plain_name n →
  GetPathParam (mkParamParse uri) (l +:+ "{" +:+ n +:+ "}$") =
  Some (path_param_map (match regex_search (one_re (chars_of l)) (chars_of uri) with
                        | Some m => set_values [(n, None)] (m_groups m)
                        | None => [(n, None)]
                        end)).
Proof.
  intros [Hl _] [Hn Hnn]. unfold GetPathParam. change (compile "\{(.*?)\}") with (Some brace_re).
  cbn [mbind option_bind uri_]. rewrite !chars_of_app.
  change (chars_of "{") with ["{"%char]. change (chars_of "}$") with ["}"; "$"]%char. simpl app.
  assert (Hd : "{"%char ∉ ["$"%char]) by (refine (bool_decide_unpack _ _); vm_compute; reflexivity).
  assert (∃ f, length (chars_of l ++ "{"%char :: chars_of n ++ ["}"; "$"]%char) = S f) as [f ->].
  { eexists. rewrite length_app. simpl. apply Nat.add_succ_r. }
  rewrite param_keys_step, param_keys_end by done. cbn [mbind option_bind].
  unfold regex_replace. rewrite length_app, replace_step by done.
  cbn [length]. rewrite Nat.add_succ_r, replace_end by done. cbn [mbind option_bind].
  change (chars_of "(.*?)" ++ ["$"%char]) with (chars_of "(.*?)$").
  rewrite compile_one, string_of_chars_of by done. cbn [mbind option_bind].
  by destruct (regex_search _ _).
Qed.

Lemma GetPathParam_one_effect l n v :
  plain_name l → plain_name n → no_newline v →
  GetPathParam (mkParamParse (l +:+ v)) (l +:+ "{" +:+ n +:+ "}$") = Some {[n := Some v]}.
Proof.
  intros Hl Hn Hv. rewrite GetPathParam_template by done.
  rewrite chars_of_app, search_one by done. cbn [m_groups set_values]. by rewrite string_of_chars_of.
Qed.

(** Filling a one-parameter template and parsing the result gives the value
    back, for every plain literal and name and every value on one line. *)
Theorem GetPathParam_one l n v :
  plain_name l → plain_name n → no_newline v →
  GetPathParam (mkParamParse (l +:+ v)) (l +:+ "{" +:+ n +:+ "}$") = Some {[n := Some v]}.
Proof. apply GetPathParam_one_effect. Qed.

Lemma GetPathParam_two_template l n1 n2 uri :
  plain_name l → plain_name n1 → plain_name n2 →
  GetPathParam (mkParamParse uri) (l +:+ "{" +:+ n1 +:+ "}/{" +:+ n2 +:+ "}$") =
  Some (path_param_map (match regex_search (two_re (chars_of l)) (chars_of uri) with
                        | Some m => set_values [(n1, None); (n2, None)] (m_groups m)
                        | None => [(n1, None); (n2, None)]
                        end)).
Proof.
  intros [Hl _] [Hn1 Hnn1] [Hn2 Hnn2]. unfold GetPathParam.
  change (compile "\{(.*?)\}") with (Some brace_re).
  cbn [mbind option_bind uri_]. rewrite !chars_of_app.
  change (chars_of "{") with ["{"%char]. change (chars_of "}/{") with ["}"; "/"; "{"]%char.
  change (chars_of "}$") with ["}"; "$"]%char. simpl app.
  assert (Hd : "{"%char ∉ ["$"%char]) by (refine (bool_decide_unpack _ _); vm_compute; reflexivity).
  assert (Hp : plain ["/"%char]) by (refine (bool_decide_unpack _ _); vm_compute; reflexivity).
  assert (∃ f, length (chars_of l ++ "{"%char :: chars_of n1 ++ "}"%char :: "/"%char :: "{"%char ::
      chars_of n2 ++ ["}"; "$"]%char) = S (S f)) as [f ->].
  { eexists. rewrite length_app. simpl. rewrite length_app. simpl. rewrite !Nat.add_succ_r. reflexivity. }
  pose proof (param_keys_step ["/"%char] (chars_of n2) ["$"%char] Hp Hn2 Hnn2) as Hk2. cbn [app] in Hk2.
  pose proof (replace_step ["/"%char] (chars_of n2) ["$"%char] Hp Hn2 Hnn2) as Hr2. cbn [app] in Hr2.
  rewrite param_keys_step, Hk2, param_keys_end by done.
  cbn [mbind option_bind]. unfold regex_replace. rewrite length_app, replace_step by done.
  cbn [length]. rewrite length_app. cbn [length]. rewrite !Nat.add_succ_r.
  rewrite Hr2, replace_end by done. cbn [mbind option_bind].
  change (chars_of "(.*?)" ++ _) with (chars_of "(.*?)/(.*?)$").
  rewrite compile_two, !string_of_chars_of by done. cbn [mbind option_bind]. by destruct (regex_search _ _).
Qed.

Lemma GetPathParam_two_effect l n1 n2 v1 v2 :
  plain_name l → plain_name n1 → plain_name n2 → n1 ≠ n2 →
  no_newline v1 → no_newline v2 → "/"%char ∉ chars_of v1 →
  GetPathParam (mkParamParse (l +:+ v1 +:+ "/" +:+ v2)) (l +:+ "{" +:+ n1 +:+ "}/{" +:+ n2 +:+ "}$") =
  Some (<[n1 := Some v1]> {[n2 := Some v2]}).
Proof.
  intros Hl Hn1 Hn2 Hne Hv1 Hv2 Hs. rewrite GetPathParam_two_template by done.
  rewrite !chars_of_app. change (chars_of "/") with ["/"%char]. cbn [app].
  rewrite search_two by done. cbn [m_groups set_values]. by rewrite !string_of_chars_of.
Qed.

(** The same for two parameters separated by a slash, when the first value
    has none. *)
Theorem GetPathParam_two l n1 n2 v1 v2 :
  plain_name l → plain_name n1 → plain_name n2 → n1 ≠ n2 →
  no_newline v1 → no_newline v2 → "/"%char ∉ chars_of v1 →
  GetPathParam (mkParamParse (l +:+ v1 +:+ "/" +:+ v2)) (l +:+ "{" +:+ n1 +:+ "}/{" +:+ n2 +:+ "}$") =
  Some (<[n1 := Some v1]> {[n2 := Some v2]}).
Proof. apply GetPathParam_two_effect. Qed.

(** A uri in which the template's literal does not occur leaves the
    parameter unset. *)
Theorem GetPathParam_mismatch l n uri :
  plain_name l → plain_name n → (∀ a b, chars_of uri ≠ a ++ chars_of l ++ b) →
  GetPathParam (mkParamParse uri) (l +:+ "{" +:+ n +:+ "}$") = Some {[n := None]}.
Proof.
  intros Hl Hn Hno. rewrite GetPathParam_template by done.
  unfold regex_search, one_re. by rewrite search_absent.
Qed.

(** ** Query parameters *)

(** [key=] followed by [c1] is [(.*?)] up to an ampersand. *)
Definition amp_re (k : chars) : list item :=
  lit_items (k ++ ["="%char]) ++ [Open; Star false Any; Close 0; One (Chr "&")].

Definition rest_re (k : chars) : list item :=
  lit_items (k ++ ["="%char]) ++ [Open; Star true Any; Close 0].

Lemma compile_get k suffix items :
  plain k → parse suffix PNone [0%nat] 1 = Some items →
  parse (k ++ "="%char :: "("%char :: suffix) PNone [] 0 =
  Some (lit_items (k ++ ["="%char]) ++ Open :: items).
Proof.
  intros Hk Hs.
  change (k ++ "="%char :: "("%char :: suffix) with (k ++ ["="%char] ++ "("%char :: suffix).
  rewrite app_assoc, parse_lits_open, Hs; [done| |done].
  apply Forall_app. split; [done|]. by repeat constructor.
Qed.

(** The two expressions of [Get]. *)
Lemma Get_search key uri :
  plain (chars_of key) →
  ParamParse_Get (mkParamParse uri) key =
  match regex_search (amp_re (chars_of key)) (chars_of uri) with
  | Some m => v ← m_groups m !! 0%nat; Some (Some (string_of v))
  | None =>
      match regex_search (rest_re (chars_of key)) (chars_of uri) with
      | Some m => v ← m_groups m !! 0%nat; Some (Some (string_of v))
      | None => Some None
      end
  end.
Proof.
  intros Hk. unfold ParamParse_Get, compile. cbn [uri_]. rewrite !chars_of_app.
  change (chars_of "=(.*?)&") with ("="%char :: "("%char :: chars_of ".*?)&").
  change (chars_of "=(.*)") with ("="%char :: "("%char :: chars_of ".*)").
  erewrite !compile_get by done. done.
Qed.

(** The value of a parameter: after the first [key=], up to the ampersand. *)
Lemma search_amp k pre v post :
  first_at (k ++ ["="%char]) pre (k ++ "="%char :: v ++ "&"%char :: post) →
  Forall (λ c, ¬ is_newline c) v → "&"%char ∉ v →
  ∃ b e, regex_search (amp_re k) (pre ++ k ++ "="%char :: v ++ "&"%char :: post) = Some (mkSmatch b e [v]).
Proof.
  intros Hf Hv Ha. unfold regex_search, amp_re. rewrite search_first by done. simpl.
  set (p := (length pre + length (k ++ ["="%char]))%nat).
  eexists _, _. rewrite (search_hit _ _ _ _ (S (p + length v)) [(p, Some (p + length v)%nat)]).
  - do 2 f_equal. cbn [fmap list_fmap group_text]. f_equal.
    pose proof (slice_mid (pre ++ k ++ ["="%char]) v ("&"%char :: post)) as Hs.
    rewrite length_app in Hs. fold p in Hs. by rewrite <-!app_assoc in Hs.
  - replace (k ++ "="%char :: v ++ "&"%char :: post) with ((k ++ ["="%char]) ++ v ++ "&"%char :: post)
      by (by rewrite <-app_assoc).
    rewrite match_lits. fold p.
    apply (match_lazy_until 0 "&" [] p v post [(p, None)]); [done|done|]. done.
Qed.

Lemma search_rest k pre v :
  first_at (k ++ ["="%char]) pre (k ++ "="%char :: v) → Forall (λ c, ¬ is_newline c) v →
  ∃ b e, regex_search (rest_re k) (pre ++ k ++ "="%char :: v) = Some (mkSmatch b e [v]).
Proof.
  intros Hf Hv. unfold regex_search, rest_re. rewrite search_first by done. simpl.
  set (p := (length pre + length (k ++ ["="%char]))%nat).
  eexists _, _. rewrite (search_hit _ _ _ _ (p + length v) [(p, Some (p + length v)%nat)]).
  - do 2 f_equal. cbn [fmap list_fmap group_text]. f_equal.
    pose proof (slice_mid (pre ++ k ++ ["="%char]) v []) as Hs.
    rewrite length_app in Hs. fold p in Hs. by rewrite app_nil_r, <-!app_assoc in Hs.
  - replace (k ++ "="%char :: v) with ((k ++ ["="%char]) ++ v) by (by rewrite <-app_assoc).
    rewrite match_lits. fold p. etrans; [by apply (match_greedy_end 0 p v [(p, None)])|]. done.
Qed.

(** C39: [Get] of a key without an ampersand and without characters that mean
    something in a regular expression returns the text after the first occurrence of
    [key=], up to the next ampersand, or to the end of the uri for the last parameter,
    provided that there is no newline in it; when [key=] does not occur it returns
    nothing.  The conditions on the key are needed since it is put into the two
    expressions as it is. *)
Theorem ParamParse_Get_correct key pre v post :
  plain (chars_of key) → no_newline v → "&"%char ∉ chars_of v → "&"%char ∉ chars_of key →
  (first_at (chars_of (key +:+ "=")) (chars_of pre) (chars_of (key +:+ "=" +:+ v +:+ "&" +:+ post)) →
   ParamParse_Get (mkParamParse (pre +:+ key +:+ "=" +:+ v +:+ "&" +:+ post)) key = Some (Some v)) ∧
  (first_at (chars_of (key +:+ "=")) (chars_of pre) (chars_of (key +:+ "=" +:+ v)) →
   ParamParse_Get (mkParamParse (pre +:+ key +:+ "=" +:+ v)) key = Some (Some v)) ∧
  ((∀ a b, chars_of pre ≠ a ++ chars_of (key +:+ "=") ++ b) →
   ParamParse_Get (mkParamParse pre) key = Some None).
Proof.
  intros Hk Hv Ha Hka. rewrite !Get_search, !chars_of_app by done.
  change (chars_of "=") with ["="%char]. change (chars_of "&") with ["&"%char]. simpl app.
  split_and!; intros Hf.
  - destruct (search_amp _ _ _ _ Hf Hv Ha) as (b & e & ->). cbn. by rewrite string_of_chars_of.
  - destruct (search_rest _ _ _ Hf Hv) as (b & e & ->).
    assert (regex_search (amp_re (chars_of key)) (chars_of pre ++ chars_of key ++ "="%char :: chars_of v) = None) as ->.
    { unfold regex_search, amp_re. rewrite search_first by done. apply (search_needs "&").
      - apply elem_of_app. right. set_solver.
      - rewrite not_elem_of_app, not_elem_of_cons. by split_and!. }
    cbn. by rewrite string_of_chars_of.
  - unfold regex_search, amp_re, rest_re. by rewrite !search_absent.
Qed.

(** ** Concrete uris *)

Lemma GetPathParam_one_witness :
  GetPathParam (mkParamParse "/query/a=1&b") "/query/{key}$" = Some {["key" := Some "a=1&b"]}.
Proof.
  apply (GetPathParam_one "/query/" "key" "a=1&b");
    refine (bool_decide_unpack _ _); vm_compute; reflexivity.
Defined.

Lemma GetPathParam_two_witness :
  GetPathParam (mkParamParse "/zrmv/k/v/w") "/zrmv/{key}/{value}$" =
  Some (<["key" := Some "k"]> {["value" := Some "v/w"]}).
Proof.
  apply (GetPathParam_two "/zrmv/" "key" "value" "k" "v/w");
    refine (bool_decide_unpack _ _); vm_compute; reflexivity.
Defined.

Lemma GetPathParam_mismatch_witness :
  GetPathParam (mkParamParse "/other") "/query/{key}$" = Some {["key" := None]}.
Proof.
  apply (GetPathParam_mismatch "/query/" "key" "/other");
    [refine (bool_decide_unpack _ _); vm_compute; reflexivity..|].
  apply first_at_absent; [discriminate|].
  refine (bool_decide_unpack _ _); vm_compute; reflexivity.
Defined.

(** Also when the name is the end of another one. *)
Lemma ParamParse_Get_correct_witness :
  ParamParse_Get (mkParamParse "/x?a=1&id=2&b=3") "id" = Some (Some "2") ∧
  ParamParse_Get (mkParamParse "/x?xid=2") "id" = Some (Some "2").
Proof.
  split.
  - apply (ParamParse_Get_correct "id" "/x?a=1&" "2" "b=3");
      refine (bool_decide_unpack _ _); vm_compute; reflexivity.
  - apply (ParamParse_Get_correct "id" "/x?x" "2" EmptyString);
      refine (bool_decide_unpack _ _); vm_compute; reflexivity.
Defined.
