(* ===== verification/FlareString.v ===== *)
(** * Strings: flare/base/string.cc

    A [std::string] or [std::string_view] is a list of characters.  A [char] is
    signed, and [ToLower] and [ToUpper] index their tables with it, so they are
    undefined for characters from 128 on.

    [Split_Join] relates splitting and joining, [Trim_spec] says what trimming
    removes, [Replace_spec] what replacing does, and [TryParse_print] that the
    numbers printed in decimal are read back. *)

From Stdlib Require Import Ascii.
From S2P Require Import Prelude Regex.

#[local] Open Scope char_scope.

(** ** Characters *)

(** The index a [char] stands for, as [size_t]. *)
Definition char_index (c : ascii) : Z :=
  let n := Z.of_nat (nat_of_ascii c) in
  if (n <? 128)%Z then n else u64 (n - 256).

Definition kLowerChars : list ascii :=
  (λ i, ascii_of_nat (if decide (65 ≤ i ≤ 90)%nat then i - 65 + 97 else i)%nat) <$> seq 0 256.

Definition kUpperChars : list ascii :=
  (λ i, ascii_of_nat (if decide (97 ≤ i ≤ 122)%nat then i - 97 + 65 else i)%nat) <$> seq 0 256.

Definition table_at (t : list ascii) (i : Z) : outcome ascii :=
  if (i <? 256)%Z then deref (t !! Z.to_nat i) else Undef.

Definition ToLower (c : ascii) : outcome ascii := table_at kLowerChars (char_index c).
Definition ToUpper (c : ascii) : outcome ascii := table_at kUpperChars (char_index c).

Fixpoint map_chars (f : ascii → outcome ascii) (s : chars) : outcome chars :=
  match s with
  | [] => Ret []
  | c :: s' => d ←! f c; r ←! map_chars f s'; Ret (d :: r)
  end.

Definition ToLower_str (s : chars) : outcome chars := map_chars ToLower s.
Definition ToUpper_str (s : chars) : outcome chars := map_chars ToUpper s.

Fixpoint IEquals_loop (s1 s2 : chars) : outcome bool :=
  match s1, s2 with
  | c1 :: s1', c2 :: s2' =>
      l1 ←! ToLower c1; l2 ←! ToLower c2;
      if bool_decide (l1 = l2) then IEquals_loop s1' s2' else Ret false
  | _, _ => Ret true
  end.

Definition IEquals (s1 s2 : chars) : outcome bool :=
  if decide (length s1 = length s2) then IEquals_loop s1 s2 else Ret false.

(** ** Searching *)

Definition StartsWith (s p : chars) : bool :=
  (length p <=? length s)%nat && bool_decide (take (length p) s = p).

Definition EndsWith (s p : chars) : bool :=
  (length p <=? length s)%nat && bool_decide (drop (length s - length p) s = p).

(** [find(needle)]: the first position, [None] for [npos]. *)
Fixpoint find (needle s : chars) : option nat :=
  if bool_decide (take (length needle) s = needle) then Some 0%nat
  else match s with
       | [] => None
       | _ :: s' => p ← find needle s'; Some (S p)
       end.

(** ** Replace

    [str] is kept as the part before the position where the search goes on and
    the rest.  Each round takes at least one character from the rest. *)
Fixpoint Replace_loop (fuel : nat) (from to_ done rest : chars) (count : Z) : outcome chars :=
  match fuel with
  | O => Fuel
  | S fuel' =>
      match find from rest with
      | None => Ret (done ++ rest)
      | Some p =>
          if (count =? 0)%Z then Ret (done ++ rest)
          else Replace_loop fuel' from to_ (done ++ take p rest ++ to_)
                 (drop (p + length from) rest) (count - 1)
      end
  end.

Definition Replace (str from to_ : chars) (count : Z) : outcome chars :=
  match from with
  | [] => Abort
  | _ => Replace_loop (S (length str)) from to_ [] str count
  end.

(** ** Trim *)

Definition is_space (c : ascii) : bool := bool_decide (c = " ").

(** [find_first_not_of(' ')] and [find_last_not_of(' ')]. *)
Fixpoint first_not_space (s : chars) : option nat :=
  match s with
  | [] => None
  | c :: s' => if is_space c then p ← first_not_space s'; Some (S p) else Some 0%nat
  end.

Fixpoint last_not_space (s : chars) : option nat :=
  match s with
  | [] => None
  | c :: s' =>
      match last_not_space s' with
      | Some p => Some (S p)
      | None => if is_space c then None else Some 0%nat
      end
  end.

Definition Trim (str : chars) : chars :=
  match str with
  | [] => []
  | c :: _ =>
      match (if is_space c then first_not_space str else Some 0%nat) with
      | None => []
      | Some s =>
          let e := if bool_decide (last str = Some " ")
                   then default 0%nat (last_not_space str) else length str in
          take (e - s + 1) (drop s str)
      end
  end.

(** ** Split and Join *)

(** The loop; each round drops at least one character. *)
Fixpoint Split_loop (fuel : nat) (current delim : chars) (keep_empty : bool) : outcome (list chars) :=
  match fuel with
  | O => Fuel
  | S fuel' =>
      let pos := find delim current in
      let part := match pos with
                  | Some p => take p current
                  | None => current
                  end in
      let out := if bool_decide (pos ≠ Some 0%nat) || keep_empty then [part] else [] in
      match pos with
      | None => Ret out
      | Some p =>
          let rest := drop (p + length delim) current in
          match rest with
          | [] => Ret (out ++ if keep_empty then [[]] else [])
          | _ => more ←! Split_loop fuel' rest delim keep_empty; Ret (out ++ more)
          end
      end
  end.

Definition Split (s delim : chars) (keep_empty : bool) : outcome (list chars) :=
  match s, delim with
  | [], _ => Ret []
  | _, [] => Abort
  | _, _ => Split_loop (length s) s delim keep_empty
  end.

(** The parts with the delimiter in front of all but the first. *)
Fixpoint join_parts (first : bool) (parts : list chars) (delim : chars) : chars :=
  match parts with
  | [] => []
  | p :: parts' => (if first then [] else delim) ++ p ++ join_parts false parts' delim
  end.

(** The size is computed in an [int]; [reserve] throws for a size that is
    negative, hence huge as [size_t]. *)
Definition Join (parts : list chars) (delim : chars) : outcome chars :=
  let size := foldl (λ n p, i32 (n + Z.of_nat (length p) + Z.of_nat (length delim))) 0%Z parts in
  if (size =? 0)%Z then Ret []
  else
    let size := i32 (size - Z.of_nat (length delim)) in
    if (size <? 0)%Z then Throw else Ret (join_parts true parts delim).

(** ** Numbers

    [strtoll] and [strtoull] in base 10.  [errno] is part of the state; all that
    matters is whether it is [ERANGE]. *)

Definition c_isspace (c : ascii) : bool :=
  let n := nat_of_ascii c in ((9 <=? n) && (n <=? 13) || (n =? 32))%nat.

Fixpoint skip_spaces (s : chars) : chars :=
  match s with
  | c :: s' => if c_isspace c then skip_spaces s' else s
  | [] => []
  end.

Definition digit_of (c : ascii) : option Z :=
  let n := nat_of_ascii c in
  if ((48 <=? n) && (n <=? 57))%nat then Some (Z.of_nat (n - 48)) else None.

(** The value of the leading digits, and what follows them. *)
Fixpoint read_digits (acc : Z) (s : chars) : Z * chars :=
  match s with
  | c :: s' => match digit_of c with Some d => read_digits (acc * 10 + d) s' | None => (acc, s) end
  | [] => (acc, [])
  end.

(** The sign, the absolute value and the rest; [None] when there is no digit. *)
Definition read_number (s : chars) : option (bool * Z * chars) :=
  let s := skip_spaces s in
  let '(neg, s) := match s with
                   | c :: s' => if bool_decide (c = "-") then (true, s')
                                else if bool_decide (c = "+") then (false, s') else (false, s)
                   | [] => (false, s)
                   end in
  match s with
  | c :: _ => match digit_of c with
              | Some _ => let '(n, rest) := read_digits 0 s in Some (neg, n, rest)
              | None => None
              end
  | [] => None
  end.

(** The value, what is left of the string, and [errno == ERANGE]. *)
Definition strtoll (s : chars) (erange : bool) : Z * chars * bool :=
  match read_number s with
  | None => (0, s, erange)
  | Some (neg, n, rest) =>
      let v := if neg then (- n)%Z else n in
      if (v >? 2 ^ 63 - 1)%Z then ((2 ^ 63 - 1)%Z, rest, true)
      else if (v <? - 2 ^ 63)%Z then ((- 2 ^ 63)%Z, rest, true)
      else (v, rest, erange)
  end.

Definition strtoull (s : chars) (erange : bool) : Z * chars * bool :=
  match read_number s with
  | None => (0, s, erange)
  | Some (neg, n, rest) =>
      if (n >? 2 ^ 64 - 1)%Z then ((2 ^ 64 - 1)%Z, rest, true)
      else (if neg then u64 (- n) else n, rest, erange)
  end.

(** The C string in [temp_buffer]: up to the first null character. *)
Fixpoint c_string (s : chars) : chars :=
  match s with
  | c :: s' => if bool_decide (c = "000") then [] else c :: c_string s'
  | [] => []
  end.

Definition TryParseImpl (fptr : chars → bool → Z * chars * bool) (s : chars) (invs : list Z)
    (erange : bool) : option Z * bool :=
  match s with
  | [] => (None, erange)
  | _ =>
      let '(result, rest, erange') := fptr s erange in
      match rest with
      | _ :: _ => (None, erange')
      | [] => if bool_decide (result ∈ invs) && erange' then (None, erange') else (Some result, erange')
      end
  end.

Definition TryNarrowCast (lo hi : Z) (opt : option Z) : option Z :=
  match opt with
  | Some v => if (v >? hi)%Z || (v <? lo)%Z then None else Some v
  | None => None
  end.

(** [TryParse<T>] for a signed [T] with the bounds [lo] and [hi], and for an
    unsigned one. *)
Definition TryParse_int (lo hi : Z) (s : chars) (erange : bool) : option Z * bool :=
  if (128 <? length s)%nat then (None, erange)
  else
    let '(opt, erange') := TryParseImpl strtoll (c_string s) [(- 2 ^ 63)%Z; (2 ^ 63 - 1)%Z] erange in
    (TryNarrowCast lo hi opt, erange').

Definition TryParse_uint (hi : Z) (s : chars) (erange : bool) : option Z * bool :=
  if (128 <? length s)%nat then (None, erange)
  else
    let '(opt, erange') := TryParseImpl strtoull (c_string s) [(2 ^ 64 - 1)%Z] erange in
    (TryNarrowCast 0 hi opt, erange').

Definition TryParse_i32 := TryParse_int (- 2 ^ 31) (2 ^ 31 - 1).
Definition TryParse_size := TryParse_uint (2 ^ 64 - 1).

(** [TryParse<bool>]; the flags are not used. *)
Definition TryParse_bool (s : chars) (erange : bool) : outcome (option bool * bool) :=
  let '(num_opt, erange') := TryParse_i32 s erange in
  match num_opt with
  | Some n => Ret (if (n =? 0)%Z then Some false else if (n =? 1)%Z then Some true else None, erange')
  | None =>
      y ←! IEquals s (chars_of "y");
      yes ←! (if y : bool then Ret true else IEquals s (chars_of "yes"));
      tr ←! (if yes : bool then Ret true else IEquals s (chars_of "true"));
      if tr : bool then Ret (Some true, erange')
      else
        n ←! IEquals s (chars_of "n");
        no ←! (if n : bool then Ret true else IEquals s (chars_of "no"));
        fa ←! (if no : bool then Ret true else IEquals s (chars_of "false"));
        Ret (if fa : bool then Some false else None, erange')
  end.

(** [std::to_string] of an unsigned number. *)
Fixpoint show_digits (fuel : nat) (n : Z) (acc : chars) : chars :=
  match fuel with
  | O => acc
  | S fuel' =>
      let acc := ascii_of_nat (48 + Z.to_nat (n mod 10)) :: acc in
      if (n <? 10)%Z then acc else show_digits fuel' (n / 10) acc
  end.

Definition to_string (n : Z) : chars := show_digits (S (Z.to_nat (Z.log2 n))) n [].

Example to_string_examples : to_string 0 = chars_of "0" ∧ to_string 1230 = chars_of "1230".
Proof. vm_compute. split; reflexivity. Qed.

(** ** Characters *)

Definition is_ascii (c : ascii) : Prop := (nat_of_ascii c < 128)%nat.
Definition all_ascii (s : chars) : Prop := Forall is_ascii s.

#[export] Instance is_ascii_dec c : Decision (is_ascii c).
Proof. apply _. Defined.

#[export] Instance all_ascii_dec s : Decision (all_ascii s).
Proof. apply _. Defined.

Definition lower (c : ascii) : ascii :=
  let n := nat_of_ascii c in ascii_of_nat (if decide (65 ≤ n ≤ 90)%nat then n - 65 + 97 else n)%nat.

(** A property of all characters, by trying them. *)
Lemma forall_ascii (P : ascii → Prop) `{∀ c, Decision (P c)} :
  forallb (λ n, bool_decide (P (ascii_of_nat n))) (seq 0 256) = true → ∀ c, P c.
Proof.
  intros Hall c. rewrite forallb_forall in Hall.
  specialize (Hall (nat_of_ascii c)). rewrite ascii_nat_embedding, bool_decide_eq_true in Hall.
  apply Hall, in_seq. pose proof (nat_ascii_bounded c). lia.
Qed.

#[export] Instance outcome_eq_dec {A} `{EqDecision A} : EqDecision (outcome A).
Proof. solve_decision. Defined.

Lemma ToLower_ascii c : is_ascii c → ToLower c = Ret (lower c).
Proof.
  revert c. refine (forall_ascii (λ c, is_ascii c → ToLower c = Ret (lower c)) _).
  vm_compute. reflexivity.
Qed.

Lemma ToLower_undef c : ¬ is_ascii c → ToLower c = Undef ∧ ToUpper c = Undef.
Proof.
  revert c. refine (forall_ascii (λ c, ¬ is_ascii c → ToLower c = Undef ∧ ToUpper c = Undef) _).
  vm_compute. reflexivity.
Qed.

Lemma IEquals_spec s1 s2 :
  all_ascii s1 → all_ascii s2 →
  IEquals s1 s2 = Ret (bool_decide (lower <$> s1 = lower <$> s2)).
Proof.
  intros H1 H2. unfold IEquals. destruct (decide (length s1 = length s2)) as [Hlen|Hlen].
  - revert s2 H2 Hlen. induction H1 as [|c1 s1 Hc1 _ IH]; intros [|c2 s2] H2 Hlen; try done.
    apply Forall_cons in H2 as [Hc2 H2]. cbn [IEquals_loop].
    rewrite !ToLower_ascii by done. cbn [obind]. case_bool_decide as Hl.
    + rewrite IH by (done || (simpl in Hlen; lia)). f_equal. apply bool_decide_ext. csimpl.
      rewrite Hl. split; [by intros ->|by intros [= ->]].
    + rewrite bool_decide_false; [done|]. csimpl. by intros [= ? _].
  - rewrite bool_decide_false; [done|]. intros Heq. apply Hlen.
    by rewrite <-(length_fmap lower s1), Heq, length_fmap.
Qed.

(** ** Searching *)

Lemma take_prefix (d s : chars) : take (length d) s = d ↔ d `prefix_of` s.
Proof.
  split.
  - intros <-. exists (drop (length (take (length d) s)) s). rewrite length_take.
    destruct (decide (length d ≤ length s)%nat).
    + by rewrite Nat.min_l, take_drop by done.
    + rewrite Nat.min_r, drop_all, app_nil_r, take_ge by lia. done.
  - intros [k ->]. apply take_app_length.
Qed.

(** The first occurrence. *)
Lemma find_Some d s p :
  find d s = Some p →
  s = take p s ++ d ++ drop (p + length d) s ∧
  ∀ a b, s = a ++ d ++ b → (p ≤ length a)%nat.
Proof.
  revert p. induction s as [|c s IH]; intros p; cbn [find]; case_bool_decide as Hd.
  - intros [= <-]. rewrite take_prefix in Hd. apply prefix_nil_inv in Hd as ->. split; [done|lia].
  - done.
  - intros [= <-]. rewrite take_prefix in Hd. destruct Hd as [k Hk]. rewrite Hk. split; [|lia].
    simpl. by rewrite drop_app_length.
  - destruct (find d s) as [q|] eqn:Eq; [|done]. intros [= <-].
    destruct (IH q eq_refl) as [Hs Hmin]. split; [simpl; by rewrite <-Hs|].
    intros [|c' a] b Heq.
    + destruct Hd. rewrite take_prefix, Heq. by exists b.
    + simplify_eq/=. specialize (Hmin a b eq_refl). lia.
Qed.

Lemma find_None d s : find d s = None ↔ ∀ a b, s ≠ a ++ d ++ b.
Proof.
  split.
  - induction s as [|c s IH]; cbn [find]; case_bool_decide as Hd; try done; intros Hf a b Heq.
    + destruct a; [|done]. destruct Hd. rewrite take_prefix, Heq. by exists b.
    + destruct (find d s) eqn:E; [done|]. destruct a as [|c' a].
      * destruct Hd. rewrite take_prefix, Heq. by exists b.
      * simplify_eq/=. by destruct (IH eq_refl a b).
  - intros Hno. destruct (find d s) as [p|] eqn:E; [|done]. apply find_Some in E as [Hs _].
    by destruct (Hno (take p s) (drop (p + length d) s)).
Qed.

Lemma find_bound d s p : find d s = Some p → (p + length d ≤ length s)%nat.
Proof.
  revert p. induction s as [|c s IH]; intros p; cbn [find]; case_bool_decide as Hd; try done.
  - intros [= <-]. rewrite take_prefix in Hd. by apply prefix_length in Hd.
  - intros [= <-]. rewrite take_prefix in Hd. by apply prefix_length in Hd.
  - destruct (find d s) as [q|]; [|done]. intros [= <-]. specialize (IH q eq_refl). simpl. lia.
Qed.

(** [d] is at the position [p]. *)
Definition occurs (d s : chars) (p : nat) : Prop :=
  take (length d) (drop p s) = d ∧ (p + length d ≤ length s)%nat.

Lemma occurs_split d s p : occurs d s p ↔ ∃ a b, s = a ++ d ++ b ∧ length a = p.
Proof.
  split.
  - intros [Hd Hl]. exists (take p s), (drop (length d) (drop p s)). rewrite length_take. split; [|lia].
    rewrite <-Hd at 1. by rewrite !take_drop.
  - intros (a & b & -> & <-). split; [by rewrite drop_app_length, take_app_length|]. rewrite !length_app. lia.
Qed.

Lemma find_iff d s p : find d s = Some p ↔ occurs d s p ∧ ∀ q, occurs d s q → (p ≤ q)%nat.
Proof.
  split.
  - intros Hf. pose proof (find_bound _ _ _ Hf). apply find_Some in Hf as [Hs Hmin]. split.
    + apply occurs_split. eexists _, _. split; [exact Hs|]. rewrite length_take. lia.
    + intros q (a & b & Heq & <-)%occurs_split. eauto.
  - intros [Ho Hmin]. destruct (find d s) as [q|] eqn:E.
    + pose proof (find_bound _ _ _ E). apply find_Some in E as [Hs Hq]. f_equal.
      apply occurs_split in Ho as (a & b & Heq & <-). specialize (Hq a b Heq).
      assert (length a ≤ q)%nat; [|lia]. apply Hmin, occurs_split. eexists _, _. split; [exact Hs|]. rewrite length_take. lia.
    + apply occurs_split in Ho as (a & b & Heq & _). rewrite find_None in E. by destruct (E a b).
Qed.

Lemma find_None_occurs d s : find d s = None ↔ ∀ p, ¬ occurs d s p.
Proof.
  rewrite find_None. split.
  - intros H p (a & b & -> & _)%occurs_split. by apply (H a b).
  - intros H a b ->. apply (H (length a)), occurs_split. eauto.
Qed.

Lemma occurs_app d a b p : (p + length d ≤ length a)%nat → occurs d (a ++ b) p ↔ occurs d a p.
Proof.
  intros Hp. unfold occurs. rewrite drop_app_le, take_app_le by (rewrite ?length_drop; lia).
  rewrite length_app. split; intros []; split; done || lia.
Qed.

(** What is found stays found when the text goes on. *)
Lemma find_app_l d a b p : find d a = Some p → find d (a ++ b) = Some p.
Proof.
  intros Hf. pose proof (find_bound _ _ _ Hf). apply find_iff in Hf as [Ho Hmin]. apply find_iff.
  split; [by apply occurs_app|]. intros q Hq. destruct (decide (q < p)%nat) as [Hlt|]; [|lia].
  apply Hmin. apply occurs_app in Hq; [done|lia].
Qed.

(** The part before the first occurrence has none. *)
Lemma find_take d s p : d ≠ [] → find d s = Some p → find d (take p s) = None.
Proof.
  intros Hd Hf. pose proof (find_bound _ _ _ Hf) as Hb. apply find_Some in Hf as [Hs Hmin].
  apply find_None. intros a b Heq. specialize (Hmin a (b ++ d ++ drop (p + length d) s)).
  rewrite Hs, Heq, <-!app_assoc in Hmin at 1. specialize (Hmin eq_refl).
  apply (f_equal length) in Heq. rewrite !length_app, length_take in Heq.
  destruct d; [done|]. simpl in *. lia.
Qed.

Lemma StartsWith_spec s p : StartsWith s p = bool_decide (p `prefix_of` s).
Proof.
  unfold StartsWith. rewrite (bool_decide_ext _ _ (take_prefix p s)).
  destruct (Nat.leb_spec (length p) (length s)) as [Hle|Hlt]; [done|]. symmetry. simpl.
  apply bool_decide_false. intros Hp%prefix_length. lia.
Qed.

Lemma EndsWith_spec s p : EndsWith s p = bool_decide (p `suffix_of` s).
Proof.
  unfold EndsWith. destruct (Nat.leb_spec (length p) (length s)) as [Hle|Hlt]; simpl.
  - apply bool_decide_ext. split.
    + intros Hd. exists (take (length s - length p) s). by rewrite <-Hd at 2; rewrite take_drop.
    + intros [k ->]. rewrite length_app, Nat.add_sub. apply drop_app_length.
  - symmetry. apply bool_decide_false. intros Hs%suffix_length. lia.
Qed.

(** ** Trim *)

Definition spaces (n : nat) : chars := replicate n " ".

Lemma first_not_space_spec s :
  match first_not_space s with
  | None => s = spaces (length s)
  | Some p => ∃ c t, s = spaces p ++ c :: t ∧ is_space c = false
  end.
Proof.
  induction s as [|c s IH]; simpl; [done|]. destruct (is_space c) eqn:Ec.
  - unfold is_space in Ec. apply bool_decide_eq_true in Ec as ->. destruct (first_not_space s) as [p|]; simpl.
    + destruct IH as (c & t & -> & Hc). by exists c, t.
    + unfold spaces in *. simpl. by f_equal.
  - exists c, s. done.
Qed.

Lemma last_not_space_spec s :
  match last_not_space s with
  | None => s = spaces (length s)
  | Some p => ∃ t c n, s = t ++ [c] ++ spaces n ∧ is_space c = false ∧ length t = p
  end.
Proof.
  induction s as [|c s IH]; simpl; [done|]. destruct (last_not_space s) as [p|].
  - destruct IH as (t & d & n & -> & Hd & <-). by exists (c :: t), d, n.
  - destruct (is_space c) eqn:Ec.
    + unfold is_space in Ec. apply bool_decide_eq_true in Ec as ->. unfold spaces in *. simpl. by f_equal.
    + exists [], c, (length s). by rewrite IH at 1.
Qed.

(** Neither end is a space. *)
Definition trimmed (s : chars) : Prop := head s ≠ Some " " ∧ last s ≠ Some " ".

Lemma in_spaces c n : c ∈ spaces n → c = " ".
Proof. unfold spaces. intros [-> _]%elem_of_replicate. done. Qed.

(** The two ends of a string that is not blank. *)
Lemma trim_ends p c t t1 d n :
  spaces p ++ c :: t = t1 ++ [d] ++ spaces n → is_space c = false → is_space d = false →
  ∃ k, c :: t = k ++ spaces n ∧ t1 ++ [d] = spaces p ++ k ∧ length k = (length t1 - p + 1)%nat ∧
    (p ≤ length t1)%nat ∧ trimmed k.
Proof.
  intros Heq Hc Hd. rewrite app_assoc in Heq. symmetry in Heq.
  assert (Hne : ∀ e, is_space e = false → e ≠ " ") by (by intros e He ->).
  apply app_eq_inv in Heq as [(k & Hk & Hn)|(k & Hk & Hn)].
  - destruct k as [|c' k].
    { simpl in Hn. destruct (Hne c Hc). apply (in_spaces _ n). rewrite <-Hn. by left. }
    injection Hn as <- Hn. exists (c :: k). pose proof (f_equal length Hk) as Hlen.
    rewrite !length_app in Hlen. unfold spaces in Hlen. rewrite length_replicate in Hlen. simpl in Hlen.
    split_and!; [by rewrite Hn|done|simpl; lia|lia|]. split; [simpl; intros [= ->]; by apply (Hne " ")|].
    pose proof (f_equal last Hk) as Hlast. rewrite last_snoc, last_app_cons in Hlast.
    rewrite <-Hlast. intros [= ->]. by apply (Hne " ").
  - destruct (Hne d Hd). apply (in_spaces _ p). rewrite Hk. set_solver.
Qed.

(** [Trim] removes the spaces at both ends, and nothing else. *)
Lemma Trim_effect s : ∃ m n, s = spaces m ++ Trim s ++ spaces n ∧ trimmed (Trim s).
Proof.
  destruct s as [|c0 s0]; [by exists 0%nat, 0%nat|]. set (s := c0 :: s0).
  assert (Hp : match (if is_space c0 then first_not_space s else Some 0%nat) with
               | None => s = spaces (length s)
               | Some p => ∃ c t, s = spaces p ++ c :: t ∧ is_space c = false
               end).
  { destruct (is_space c0) eqn:E; [apply first_not_space_spec|]. by exists c0, s0. }
  unfold Trim. fold s. cbn [s]. fold s. destruct (if is_space c0 then _ else _) as [p|].
  2:{ exists (length s), 0%nat. by rewrite app_nil_r. }
  destruct Hp as (c & t & Hs & Hc).
  assert (Hdrop : drop p s = c :: t).
  { rewrite Hs. apply drop_app_length'. unfold spaces. by rewrite length_replicate. }
  rewrite Hdrop. case_bool_decide as Hl.
  - pose proof (last_not_space_spec s) as Hns. destruct (last_not_space s) as [e|].
    + destruct Hns as (t1 & d & n & Hs2 & Hd & <-). rewrite Hs in Hs2.
      destruct (trim_ends _ _ _ _ _ _ Hs2 Hc Hd) as (k & Hk & _ & Hlen & _ & Ht).
      exists p, n. simpl. rewrite Hk, <-Hlen, take_app_length. split; [|done]. by rewrite Hs, Hk.
    + destruct (proj1 (bool_decide_eq_false _) Hc). apply (in_spaces _ (length s)). rewrite <-Hns, Hs. set_solver.
  - exists p, 0%nat. rewrite take_ge.
    + rewrite app_nil_r. split; [done|]. split.
      * simpl. intros [= ->]. done.
      * intros Hlast. apply Hl. rewrite Hs, last_app_cons. exact Hlast.
    + pose proof (f_equal length Hs) as Hlen. rewrite length_app in Hlen. unfold spaces in Hlen.
      rewrite length_replicate in Hlen. simpl in *. lia.
Qed.

(** What is already trimmed stays as it is. *)
Lemma Trim_id s : trimmed s → Trim s = s.
Proof.
  intros [Hh Hl]. destruct (Trim_effect s) as (m & n & Hs & _).
  assert (m = 0%nat) as ->.
  { destruct m as [|m]; [done|]. exfalso. apply Hh. by rewrite Hs. }
  assert (n = 0%nat) as ->.
  { destruct n as [|n]; [done|]. exfalso. apply Hl. rewrite Hs. simpl. unfold spaces.
    rewrite replicate_S_end, app_assoc, last_snoc. done. }
  rewrite app_nil_r in Hs. by symmetry.
Qed.

Lemma Trim_trimmed s : Trim s = s → trimmed s.
Proof. intros Hs. destruct (Trim_effect s) as (m & n & _ & Ht). by rewrite Hs in Ht. Qed.

(** A field is written with a space in front of its value. *)
Lemma Trim_space v : trimmed v → Trim (" " :: v) = v.
Proof.
  intros [Hh Hl]. destruct v as [|c v]; [done|].
  assert (Hc : is_space c = false) by (apply bool_decide_eq_false_2; intros ->; by apply Hh).
  unfold Trim. change (is_space " ") with true. cbn iota. cbn [first_not_space].
  change (is_space " ") with true. cbn iota. rewrite Hc. cbn [mbind option_bind].
  rewrite bool_decide_eq_false_2 by exact Hl. cbn [drop]. apply take_ge. simpl. lia.
Qed.

(** ** Split and Join *)

Lemma Split_loop_keep fuel current delim :
  delim ≠ [] → current ≠ [] → (length current ≤ fuel)%nat →
  ∃ parts, Split_loop fuel current delim true = Ret parts ∧
    Split_loop fuel current delim false = Ret (filter (λ p, p ≠ []) parts) ∧
    parts ≠ [] ∧ join_parts true parts delim = current ∧ Forall (λ p, find delim p = None) parts.
Proof.
  intros Hd. revert current. induction fuel as [|fuel IH]; intros current Hc Hf.
  { destruct current; [done|]. simpl in Hf. lia. }
  cbn [Split_loop]. destruct (find delim current) as [p|] eqn:Ef.
  2:{ exists [current]. rewrite bool_decide_true by done. cbn [orb]. split_and!; auto.
      - by rewrite filter_cons_True.
      - simpl. by rewrite app_nil_r. }
  pose proof (find_bound _ _ _ Ef) as Hb. pose proof (find_take _ _ _ Hd Ef) as Hpart.
  pose proof (find_Some _ _ _ Ef) as [Hs _]. rewrite orb_true_r, orb_false_r.
  assert (Hout : (if bool_decide (Some p ≠ Some 0%nat) then [take p current] else []) =
                 filter (λ p, p ≠ []) [take p current]).
  { destruct p as [|p]; [done|]. rewrite bool_decide_true by done. rewrite filter_cons_True; [done|].
    destruct current; [done|]. done. }
  rewrite Hout. set (part := take p current) in *. set (rest := drop (p + length delim) current) in *.
  destruct rest as [|c rest'] eqn:Er.
  - exists [part; []]. split_and!; [done|by rewrite app_nil_r, !(filter_cons _ part)|done| |].
    + simpl. rewrite app_nil_r. rewrite app_nil_r in Hs. by symmetry.
    + repeat constructor; [done|]. destruct delim; [done|]. done.
  - rewrite <-Er in *.
    destruct (IH rest) as (parts & -> & -> & Hne & Hj & Hall).
    { by rewrite Er. }
    { unfold rest. rewrite length_drop. destruct delim; [done|]. simpl in *. lia. }
    cbn [obind]. exists (part :: parts). split_and!; auto.
    + f_equal. symmetry. apply (filter_app _ [part] parts).
    + destruct parts as [|q parts]; [done|]. simpl in *. rewrite Hj. by symmetry.
Qed.

Lemma Split_effect s delim :
  s ≠ [] → delim ≠ [] →
  ∃ parts, Split s delim true = Ret parts ∧
    Split s delim false = Ret (filter (λ p, p ≠ []) parts) ∧
    parts ≠ [] ∧ join_parts true parts delim = s ∧ Forall (λ p, find delim p = None) parts.
Proof.
  intros Hs Hd. destruct s as [|c s]; [done|]. destruct delim as [|e d]; [done|].
  by apply (Split_loop_keep (length (c :: s))).
Qed.

(** The parts of a string of parts that do not contain the delimiter's first
    character come back. *)
Lemma Join_effect parts delim :
  Z.of_nat (length (join_parts false parts delim)) < 2 ^ 31 →
  Join parts delim = Ret (join_parts true parts delim).
Proof.
  intros Hlen. unfold Join.
  assert (Hsum : ∀ n, (0 ≤ n)%Z → (n + Z.of_nat (length (join_parts false parts delim)) < 2 ^ 31)%Z →
    foldl (λ n p, i32 (n + Z.of_nat (length p) + Z.of_nat (length delim))) n parts =
    (n + Z.of_nat (length (join_parts false parts delim)))%Z).
  { clear. induction parts as [|p parts IH]; intros n Hn Hb; simpl in *; [lia|].
    rewrite !length_app in *. rewrite i32_small by lia. rewrite IH by lia. lia. }
  rewrite (Hsum 0%Z) by lia. clear Hsum. destruct parts as [|p parts]; [done|].
  assert (Hf : join_parts false (p :: parts) delim = delim ++ join_parts true (p :: parts) delim) by done.
  rewrite Hf, length_app in *. destruct (Z.eqb_spec (0 + Z.of_nat (length delim + length (join_parts true (p :: parts) delim))) 0) as [H0|H0].
  { destruct (join_parts true (p :: parts) delim); [done|]. simpl in *. lia. }
  rewrite i32_small by lia. destruct (Z.ltb_spec (0 + Z.of_nat (length delim + length (join_parts true (p :: parts) delim)) - Z.of_nat (length delim)) 0); [lia|done].
Qed.

Lemma join_parts_length parts delim :
  parts ≠ [] → length (join_parts false parts delim) = (length delim + length (join_parts true parts delim))%nat.
Proof. destruct parts; [done|]. simpl. by rewrite !length_app. Qed.

Lemma find_char c s : find [c] s = None ↔ c ∉ s.
Proof.
  rewrite find_None. split.
  - intros Hno (a & b & ->)%list_elem_of_split. by apply (Hno a b).
  - intros Hc a b ->. apply Hc. set_solver.
Qed.

Lemma join_parts_inj c p1 p2 :
  p1 ≠ [] → p2 ≠ [] → Forall (λ p, c ∉ p) p1 → Forall (λ p, c ∉ p) p2 →
  join_parts true p1 [c] = join_parts true p2 [c] → p1 = p2.
Proof.
  assert (Hsplit : ∀ a b (r1 r2 : chars), c ∉ a → c ∉ b → a ++ c :: r1 = b ++ c :: r2 → a = b ∧ r1 = r2).
  { intros a. induction a as [|x a IH]; intros [|y b] r1 r2 Ha Hb Heq; simplify_eq/=.
    - done.
    - destruct Hb. by left.
    - destruct Ha. by left.
    - destruct (IH b r1 r2) as [-> ->]; set_solver. }
  revert p2. induction p1 as [|a p1 IH]; intros [|b p2] H1 H2 Ha Hb; try done. simpl.
  apply Forall_cons in Ha as [Ha Hp1]. apply Forall_cons in Hb as [Hb Hp2].
  destruct p1 as [|a1 p1], p2 as [|b1 p2]; rewrite ?app_nil_r; intros Heq.
  - by f_equal.
  - destruct Ha. rewrite Heq. simpl. set_solver.
  - destruct Hb. rewrite <-Heq. simpl. set_solver.
  - destruct (Hsplit _ _ _ _ Ha Hb Heq) as [-> Hr]. f_equal. by apply IH.
Qed.

(** The parts of a joined string, when no part has the delimiter in it. *)
Lemma Split_join_char c parts :
  parts ≠ [] → Forall (λ p, c ∉ p) parts → join_parts true parts [c] ≠ [] →
  Split (join_parts true parts [c]) [c] true = Ret parts ∧
  Split (join_parts true parts [c]) [c] false = Ret (filter (λ p, p ≠ []) parts).
Proof.
  intros Hp Hc Hj. destruct (Split_effect (join_parts true parts [c]) [c] Hj ltac:(done))
    as (parts' & -> & -> & Hne & Heq & Hall).
  rewrite (join_parts_inj c parts' parts) by
    (done || (eapply Forall_impl; [exact Hall|]; intros ?; apply find_char)). done.
Qed.

(** Splitting on a delimiter and joining with it gives the string back, no
    part contains the delimiter, and without [keep_empty] the result is the
    parts that are not empty. *)
Theorem Split_Join s delim :
  s ≠ [] → delim ≠ [] → Z.of_nat (length s + length delim) < 2 ^ 31 →
  ∃ parts, Split s delim true = Ret parts ∧ Join parts delim = Ret s ∧
    Forall (λ p, find delim p = None) parts ∧
    Split s delim false = Ret (filter (λ p, p ≠ []) parts).
Proof.
  intros Hs Hd Hlen. destruct (Split_effect s delim Hs Hd) as (parts & H1 & H2 & Hne & Hj & Hall).
  exists parts. split_and!; auto. rewrite Join_effect, Hj; [done|].
  rewrite join_parts_length, Hj by done. lia.
Qed.

(** [Trim] removes the spaces at both ends and nothing else. *)
Theorem Trim_spec s : ∃ m n, s = spaces m ++ Trim s ++ spaces n ∧ trimmed (Trim s).
Proof. apply Trim_effect. Qed.

(** ** Numbers *)

Lemma digit_char d : 0 ≤ d < 10 → digit_of (ascii_of_nat (48 + Z.to_nat d)) = Some d.
Proof.
  intros Hd. unfold digit_of. rewrite nat_ascii_embedding by lia.
  replace (_ && _)%nat with true; [f_equal; lia|].
  symmetry. apply andb_true_iff. split; apply Nat.leb_le; lia.
Qed.

Lemma show_digits_read fuel n acc :
  0 ≤ n < 2 ^ Z.of_nat fuel → (0 < fuel)%nat →
  ∃ k, ∀ a, read_digits a (show_digits fuel n acc) = read_digits (a * 10 ^ k + n) acc ∧ (0 ≤ k)%Z.
Proof.
  revert n acc. induction fuel as [|fuel IH]; intros n acc Hn Hf; [lia|].
  cbn [show_digits]. pose proof (Z.mod_pos_bound n 10 ltac:(lia)) as Hm.
  destruct (Z.ltb_spec n 10) as [Hlt|Hge].
  - exists 1%Z. intros a. cbn [read_digits]. rewrite digit_char by lia. rewrite Z.mod_small by lia. split; [|lia].
    f_equal; lia.
  - destruct fuel as [|fuel]; [lia|].
    destruct (IH (n / 10) (ascii_of_nat (48 + Z.to_nat (n mod 10)) :: acc)) as (k & Hk).
    { rewrite Nat2Z.inj_succ, Z.pow_succ_r in Hn by lia. split; [apply Z.div_pos; lia|].
      apply Z.div_lt_upper_bound; lia. }
    { lia. }
    exists (k + 1)%Z. intros a. destruct (Hk a) as [-> Hk0]. split; [|lia].
    cbn [read_digits]. rewrite digit_char by lia. f_equal.
    rewrite Z.pow_add_r by lia. pose proof (Z.div_mod n 10 ltac:(lia)). lia.
Qed.

Definition is_digit (c : ascii) : Prop := is_Some (digit_of c).

#[export] Instance is_digit_dec c : Decision (is_digit c).
Proof. apply _. Defined.

Lemma show_digits_chars fuel n acc :
  0 ≤ n → Forall is_digit acc →
  Forall is_digit (show_digits fuel n acc) ∧ (length (show_digits fuel n acc) ≤ fuel + length acc)%nat ∧
  ((0 < fuel)%nat → show_digits fuel n acc ≠ []).
Proof.
  revert n acc. induction fuel as [|fuel IH]; intros n acc Hn Hacc; cbn [show_digits].
  { split_and!; [done|lia|lia]. }
  pose proof (Z.mod_pos_bound n 10 ltac:(lia)) as Hm.
  assert (Hd : Forall is_digit (ascii_of_nat (48 + Z.to_nat (n mod 10)) :: acc)).
  { constructor; [|done]. unfold is_digit. rewrite digit_char by lia. eauto. }
  destruct (Z.ltb_spec n 10) as [Hlt|Hge].
  - split_and!; [done|simpl; lia|done].
  - destruct (IH (n / 10) _ (Z.div_pos n 10 Hn ltac:(lia)) Hd) as (H1 & H2 & H3). split_and!; [done|simpl in *; lia|].
    intros _. destruct fuel as [|fuel]; [done|]. apply H3. lia.
Qed.

Lemma to_string_spec n :
  0 ≤ n < 2 ^ 64 →
  Forall is_digit (to_string n) ∧ (length (to_string n) ≤ 64)%nat ∧ to_string n ≠ [] ∧
  read_digits 0 (to_string n) = (n, []).
Proof.
  intros Hn. unfold to_string. set (fuel := S (Z.to_nat (Z.log2 n))).
  destruct (show_digits_chars fuel n [] ltac:(lia) ltac:(constructor)) as (H1 & H2 & H3).
  assert (Hlog : (0 ≤ Z.log2 n < 64)%Z).
  { split; [apply Z.log2_nonneg|]. destruct (decide (n = 0)) as [->|]; [done|].
    apply Z.log2_lt_pow2; lia. }
  split_and!; [done|unfold fuel in *; simpl in *; lia|apply H3; lia|].
  destruct (show_digits_read fuel n []) as (k & Hk).
  - unfold fuel. rewrite Nat2Z.inj_succ, Z2Nat.id by lia. split; [lia|].
    destruct (decide (n = 0)) as [->|]; [done|]. apply Z.log2_spec. lia.
  - lia.
  - rewrite (proj1 (Hk 0)). done.
Qed.

Lemma is_digit_facts c :
  is_digit c → c_isspace c = false ∧ c ≠ "-" ∧ c ≠ "+" ∧ c ≠ "000" ∧ c ≠ " " ∧ is_ascii c.
Proof.
  revert c. refine (forall_ascii (λ c, is_digit c →
    c_isspace c = false ∧ c ≠ "-" ∧ c ≠ "+" ∧ c ≠ "000" ∧ c ≠ " " ∧ is_ascii c) _).
  vm_compute. reflexivity.
Qed.

Lemma c_string_digits s : Forall is_digit s → c_string s = s.
Proof.
  induction 1 as [|c s Hc _ IH]; [done|]. simpl. apply is_digit_facts in Hc as (_ & _ & _ & Hc & _).
  rewrite bool_decide_false by done. by rewrite IH.
Qed.

Lemma read_number_print n :
  0 ≤ n < 2 ^ 64 → read_number (to_string n) = Some (false, n, []).
Proof.
  intros Hn. destruct (to_string_spec n Hn) as (Hd & _ & Hne & Hr).
  destruct (to_string n) as [|c s] eqn:E; [done|]. pose proof (Forall_inv Hd) as Hc.
  pose proof (is_digit_facts c Hc) as (H1 & H2 & H3 & _). unfold read_number. cbn [skip_spaces].
  rewrite H1, !bool_decide_false by done. destruct Hc as [d Hc]. rewrite Hc, Hr. done.
Qed.

(** A number printed in decimal is read back, by the signed and the
    unsigned parser, when it fits the type. *)
Theorem TryParse_print n lo hi :
  lo ≤ 0 ≤ n → n ≤ hi → hi < 2 ^ 63 →
  TryParse_int lo hi (to_string n) false = (Some n, false) ∧
  TryParse_uint hi (to_string n) false = (Some n, false).
Proof.
  intros Hlo Hn Hhi. destruct (to_string_spec n ltac:(lia)) as (Hd & Hlen & Hne & _).
  pose proof (read_number_print n ltac:(lia)) as Hr.
  unfold TryParse_int, TryParse_uint, TryParseImpl. rewrite c_string_digits by done.
  destruct (Nat.ltb_spec 128 (length (to_string n))); [lia|].
  destruct (to_string n) as [|c s] eqn:E; [done|].
  unfold strtoll, strtoull. rewrite Hr. unfold TryNarrowCast. rewrite !Z.gtb_ltb.
  destruct (Z.ltb_spec (2 ^ 63 - 1) n); [lia|]. destruct (Z.ltb_spec n (- 2 ^ 63)); [lia|].
  destruct (Z.ltb_spec (2 ^ 64 - 1) n); [lia|]. rewrite !andb_false_r, ?Z.gtb_ltb.
  destruct (Z.ltb_spec hi n); [lia|]. destruct (Z.ltb_spec n lo); [lia|].
  destruct (Z.ltb_spec n 0); [lia|]. done.
Qed.

Lemma TryParse_size_print n : 0 ≤ n < 2 ^ 63 → TryParse_size (to_string n) false = (Some n, false).
Proof.
  intros Hn. destruct (to_string_spec n ltac:(lia)) as (Hd & Hlen & Hne & _).
  pose proof (read_number_print n ltac:(lia)) as Hr.
  unfold TryParse_size, TryParse_uint, TryParseImpl. rewrite c_string_digits by done.
  destruct (Nat.ltb_spec 128 (length (to_string n))); [lia|].
  destruct (to_string n) as [|c s] eqn:E; [done|].
  unfold strtoull. rewrite Hr. unfold TryNarrowCast. rewrite !Z.gtb_ltb.
  destruct (Z.ltb_spec (2 ^ 64 - 1) n); [lia|]. rewrite !andb_false_r, ?Z.gtb_ltb.
  destruct (Z.ltb_spec (2 ^ 64 - 1) n); [lia|]. destruct (Z.ltb_spec n 0); [lia|]. done.
Qed.

(** A minus sign makes an unsigned number wrap around. *)
Example TryParse_size_negative : TryParse_size (chars_of "-1") false = (Some (2 ^ 64 - 1)%Z, false).
Proof. vm_compute. reflexivity. Qed.

(** [errno] is not reset: after an overflow, the largest number is refused. *)
Example TryParse_stale_errno :
  TryParse_uint (2 ^ 64 - 1) (chars_of "18446744073709551615") false = (Some (2 ^ 64 - 1)%Z, false) ∧
  TryParse_uint (2 ^ 64 - 1) (chars_of "18446744073709551616") false = (None, true) ∧
  TryParse_uint (2 ^ 64 - 1) (chars_of "18446744073709551615") true = (None, true).
Proof. vm_compute. split_and!; reflexivity. Qed.

(** ** Replace *)

Lemma Replace_loop_split fuel from to_ acc rest count parts :
  from ≠ [] → Z.of_nat (length rest) ≤ count → Split_loop fuel rest from true = Ret parts →
  Replace_loop (S fuel) from to_ acc rest count = Ret (acc ++ join_parts true parts to_).
Proof.
  intros Hf. revert acc rest count parts. induction fuel as [|fuel IH]; intros acc rest count parts Hc; [done|].
  cbn [Split_loop]. change (Replace_loop (S (S fuel)) from to_ acc rest count) with
    (match find from rest with
     | None => Ret (acc ++ rest)
     | Some p =>
         if (count =? 0)%Z then Ret (acc ++ rest)
         else Replace_loop (S fuel) from to_ (acc ++ take p rest ++ to_)
                (drop (p + length from) rest) (count - 1)
     end).
  destruct (find from rest) as [p|] eqn:E.
  2:{ rewrite orb_true_r. intros [= <-]. simpl. by rewrite app_nil_r. }
  pose proof (find_bound _ _ _ E) as Hb. assert (0 < length from)%nat by (destruct from; [done|simpl; lia]).
  destruct (Z.eqb_spec count 0) as [->|Hne]; [lia|]. rewrite orb_true_r.
  set (tl := drop (p + length from) rest). assert (Htl : length tl = (length rest - (p + length from))%nat).
  { apply length_drop. }
  destruct tl as [|c tl'] eqn:Et.
  - intros [= <-]. cbn [Replace_loop]. destruct from as [|f from]; [done|]. cbn.
    by rewrite !app_nil_r.
  - intros (more & Hm & [= <-])%obind_Ret_inv. rewrite (IH _ _ _ more); [| |done].
    + f_equal. rewrite <-!app_assoc. cbn [app join_parts]. do 2 f_equal.
      destruct more as [|q more]; [|done]. simpl in Hm.
      destruct fuel; [done|]. cbn [Split_loop] in Hm. rewrite orb_true_r in Hm.
      destruct (find from (c :: tl')) as [q|]; [|done].
      destruct (drop (q + length from) (c :: tl')); [done|].
      apply obind_Ret_inv in Hm as (? & _ & ?). done.
    + lia.
Qed.

(** Replacing all occurrences is splitting on the old text and joining with
    the new one; the loop ends, and an empty old text kills the process. *)
Theorem Replace_spec s from to_ count :
  Z.of_nat (length s) ≤ count →
  match s, from with
  | _, [] => Replace s from to_ count = Abort
  | [], _ => Replace s from to_ count = Ret []
  | _, _ => ∃ parts, Split s from true = Ret parts ∧
      Replace s from to_ count = Ret (join_parts true parts to_)
  end.
Proof.
  intros Hc. destruct s as [|c s], from as [|f from]; try done.
  destruct (Split_effect (c :: s) (f :: from)) as (parts & Hs & _); [done|done|]. exists parts. split; [done|].
  by apply (Replace_loop_split (length (c :: s)) _ to_ []).
Qed.

(** ** Witnesses *)

Lemma Split_Join_witness :
  ∃ parts, Split (chars_of "a,,b") (chars_of ",") true = Ret parts ∧ Join parts (chars_of ",") = Ret (chars_of "a,,b").
Proof.
  destruct (Split_Join (chars_of "a,,b") (chars_of ",")) as (parts & H1 & H2 & _); [discriminate..|vm_compute; reflexivity|].
  exists parts. split; assumption.
Defined.

Lemma TryParse_print_witness :
  TryParse_int (- 2 ^ 31) (2 ^ 31 - 1) (to_string 404) false = (Some 404, false).
Proof. apply (TryParse_print 404 (- 2 ^ 31) (2 ^ 31 - 1)); lia. Defined.

Lemma Replace_spec_witness :
  ∃ parts, Split (chars_of "a+b+c") (chars_of "+") true = Ret parts ∧
    Replace (chars_of "a+b+c") (chars_of "+") (chars_of "%20") (2 ^ 64 - 1) =
      Ret (join_parts true parts (chars_of "%20")).
Proof.
  apply (Replace_spec (chars_of "a+b+c") (chars_of "+") (chars_of "%20") (2 ^ 64 - 1)).
  vm_compute. discriminate.
Defined.
