(* ===== verification/ByteSet.v ===== *)
(** * Sets of bytes: flare/base/experimental/byte_set.h

    A [ByteSet] is four words of 64 bits.  [ByteSet_refines] says that every
    sequence of operations gives the set of bytes it describes, and
    [ByteSet_typed] that the words stay words and [==] decides whether two sets have
    the same bytes.  The parser of URIs ([Uri.v]) is built on these sets. *)

From Stdlib Require Import Ascii.
From S2P Require Import Prelude Regex FlareString.

#[local] Open Scope Z_scope.

(** A [value_type] is a number below 256; a [char] is converted to it. *)
Definition byte_of (c : ascii) : Z := Z.of_nat (nat_of_ascii c).

Record Rep := mkRep { w0 : Z; w1 : Z; w2 : Z; w3 : Z }.

Definition Rep_empty : Rep := mkRep 0 0 0 0.

Definition word (r : Rep) (i : Z) : Z := if i =? 0 then w0 r else if i =? 1 then w1 r else if i =? 2 then w2 r else w3 r.
Definition set_word (r : Rep) (i v : Z) : Rep :=
  if i =? 0 then mkRep v (w1 r) (w2 r) (w3 r) else if i =? 1 then mkRep (w0 r) v (w2 r) (w3 r)
  else if i =? 2 then mkRep (w0 r) (w1 r) v (w3 r) else mkRep (w0 r) (w1 r) (w2 r) v.

Definition Rep_or (a b : Rep) : Rep := mkRep (Z.lor (w0 a) (w0 b)) (Z.lor (w1 a) (w1 b)) (Z.lor (w2 a) (w2 b)) (Z.lor (w3 a) (w3 b)).
Definition Rep_and (a b : Rep) : Rep := mkRep (Z.land (w0 a) (w0 b)) (Z.land (w1 a) (w1 b)) (Z.land (w2 a) (w2 b)) (Z.land (w3 a) (w3 b)).
Definition Rep_eq (a b : Rep) : bool := (w0 a =? w0 b) && (w1 a =? w1 b) && (w2 a =? w2 b) && (w3 a =? w3 b).

Definition FromChar (c : Z) : Rep :=
  if c <? 64 then mkRep (u64 (Z.shiftl 1 c)) 0 0 0
  else if c <? 128 then mkRep 0 (u64 (Z.shiftl 1 (c - 64))) 0 0
  else if c <? 192 then mkRep 0 0 (u64 (Z.shiftl 1 (c - 128))) 0
  else mkRep 0 0 0 (u64 (Z.shiftl 1 (c - 192))).

(** Up to the terminating zero. *)
Fixpoint FromString (s : chars) : Rep :=
  match s with
  | [] => Rep_empty
  | c :: s' => if byte_of c =? 0 then Rep_empty else Rep_or (FromChar (byte_of c)) (FromString s')
  end.

Definition bs_insert (r : Rep) (n : Z) : Rep := set_word r (n / 64) (Z.lor (word r (n / 64)) (u64 (Z.shiftl 1 (n mod 64)))).
Definition bs_erase (r : Rep) (n : Z) : Rep := set_word r (n / 64) (Z.land (word r (n / 64)) (u64 (Z.lnot (u64 (Z.shiftl 1 (n mod 64)))))).
Definition bs_contains (r : Rep) (c : Z) : bool := negb (Z.land (Z.shiftr (word r (c / 64)) (c mod 64)) 1 =? 0).

Definition all_bytes : list Z := Z.of_nat <$> seq 0 256.
Definition insert_if (pred : Z → bool) (r : Rep) : Rep := foldl (λ r c, if pred c then bs_insert r c else r) r all_bytes.
Definition erase_if (pred : Z → bool) (r : Rep) : Rep := foldl (λ r c, if pred c then bs_erase r c else r) r all_bytes.
Definition insert_string (s : chars) (r : Rep) : Rep := foldl (λ r c, bs_insert r (byte_of c)) r s.
Definition erase_string (s : chars) (r : Rep) : Rep := foldl (λ r c, bs_erase r (byte_of c)) r s.

Definition ByteSet_of_pred (pred : Z → bool) : Rep := insert_if pred Rep_empty.

(** The predicates of [<cctype>], in the locale of a program that does not set one. *)
Definition between (a b c : Z) : bool := (a <=? c) && (c <=? b).
Definition c_isdigit (c : Z) : bool := between 48 57 c.
Definition c_isupper (c : Z) : bool := between 65 90 c.
Definition c_islower (c : Z) : bool := between 97 122 c.
Definition c_isalpha (c : Z) : bool := c_isupper c || c_islower c.
Definition c_isalnum (c : Z) : bool := c_isalpha c || c_isdigit c.
Definition c_isxdigit (c : Z) : bool := c_isdigit c || between 65 70 c || between 97 102 c.

Definition alphas : Rep := Eval vm_compute in ByteSet_of_pred c_isalpha.
Definition alpha_nums : Rep := Eval vm_compute in ByteSet_of_pred c_isalnum.
Definition hex : Rep := Eval vm_compute in ByteSet_of_pred c_isxdigit.
Definition digits : Rep := Eval vm_compute in ByteSet_of_pred c_isdigit.

(** ** Sets *)

(** Every word is in range. *)
Definition bs_wf (r : Rep) : Prop := (0 ≤ w0 r < 2 ^ 64 ∧ 0 ≤ w1 r < 2 ^ 64) ∧ (0 ≤ w2 r < 2 ^ 64 ∧ 0 ≤ w3 r < 2 ^ 64).

Definition bs_mem (r : Rep) (c : Z) : bool := Z.testbit (word r (c / 64)) (c mod 64).

Lemma bs_contains_mem r c : bs_contains r c = bs_mem r c.
Proof.
  unfold bs_contains, bs_mem. change 1 with (Z.ones 1). rewrite Z.land_ones by lia. change (2 ^ 1) with 2.
  rewrite <-Z.bit0_mod, Z.shiftr_spec, Z.add_0_l by lia. by destruct (Z.testbit _ _).
Qed.

Lemma testbit_u64 z i : 0 ≤ i → Z.testbit (u64 z) i = (i <? 64) && Z.testbit z i.
Proof.
  intros Hi. unfold u64. destruct (Z.ltb_spec i 64); cbn [andb]; [by rewrite Z.mod_pow2_bits_low by lia|by rewrite Z.mod_pow2_bits_high by lia].
Qed.

Lemma testbit_one n i : 0 ≤ n < 64 → 0 ≤ i → Z.testbit (u64 (Z.shiftl 1 n)) i = (i =? n).
Proof.
  intros Hn Hi. rewrite testbit_u64, Z.shiftl_spec by lia. destruct (Z.ltb_spec i 64), (Z.eqb_spec i n); cbn; try lia; subst.
  - by rewrite Z.sub_diag.
  - destruct (Z.ltb_spec (i - n) 0); [by apply Z.testbit_neg_r|]. apply Z.bits_above_log2; [lia|]. cbn. lia.
Qed.

Lemma word_set r i j v : 0 ≤ i < 4 → 0 ≤ j < 4 → word (set_word r i v) j = if j =? i then v else word r j.
Proof.
  intros Hi Hj. unfold word, set_word. destruct (Z.eqb_spec i 0), (Z.eqb_spec i 1), (Z.eqb_spec i 2); try lia; cbn [w0 w1 w2 w3];
    destruct (Z.eqb_spec j 0), (Z.eqb_spec j 1), (Z.eqb_spec j 2); try lia; cbn [w0 w1 w2 w3]; destruct (Z.eqb_spec j i); try lia; done.
Qed.

Lemma div64 c : 0 ≤ c < 256 → 0 ≤ c / 64 < 4 ∧ 0 ≤ c mod 64 < 64.
Proof. intros Hc. pose proof (Z.mod_pos_bound c 64). split; [|lia]. split; [apply Z.div_pos; lia|apply Z.div_lt_upper_bound; lia]. Qed.

Lemma same_byte c n : c = n ↔ c / 64 = n / 64 ∧ c mod 64 = n mod 64.
Proof. split; [by intros ->|]. intros [Hd Hm]. rewrite (Z.div_mod c 64), (Z.div_mod n 64), Hd, Hm; lia. Qed.

Lemma mem_insert r n c : 0 ≤ n < 256 → 0 ≤ c < 256 → bs_mem (bs_insert r n) c = (c =? n) || bs_mem r c.
Proof.
  intros Hn Hc. destruct (div64 n Hn), (div64 c Hc). unfold bs_mem, bs_insert. rewrite word_set by lia. pose proof (same_byte c n) as Hs.
  destruct (Z.eqb_spec (c / 64) (n / 64)) as [E|]; [|by destruct (Z.eqb_spec c n); [tauto|]].
  rewrite Z.lor_spec, testbit_one, E, orb_comm by lia. destruct (Z.eqb_spec (c mod 64) (n mod 64)), (Z.eqb_spec c n); tauto || done.
Qed.

Lemma mem_erase r n c : 0 ≤ n < 256 → 0 ≤ c < 256 → bs_mem (bs_erase r n) c = negb (c =? n) && bs_mem r c.
Proof.
  intros Hn Hc. destruct (div64 n Hn), (div64 c Hc). unfold bs_mem, bs_erase. rewrite word_set by lia. pose proof (same_byte c n) as Hs.
  destruct (Z.eqb_spec (c / 64) (n / 64)) as [E|]; [|by destruct (Z.eqb_spec c n); [tauto|]].
  rewrite Z.land_spec, testbit_u64, Z.lnot_spec, testbit_one, E, andb_comm by lia. rewrite (proj2 (Z.ltb_lt _ _)) by lia. cbn [andb].
  destruct (Z.eqb_spec (c mod 64) (n mod 64)), (Z.eqb_spec c n); tauto || done.
Qed.

Lemma mem_or a b c : bs_mem (Rep_or a b) c = bs_mem a c || bs_mem b c.
Proof. unfold bs_mem, word, Rep_or. cbn. repeat case_match; apply Z.lor_spec. Qed.
Lemma mem_and a b c : bs_mem (Rep_and a b) c = bs_mem a c && bs_mem b c.
Proof. unfold bs_mem, word, Rep_and. cbn. repeat case_match; apply Z.land_spec. Qed.
Lemma mem_empty c : bs_mem Rep_empty c = false.
Proof. unfold bs_mem, word. cbn. repeat case_match; apply Z.bits_0. Qed.

Lemma mem_FromChar n c : 0 ≤ n < 256 → 0 ≤ c < 256 → bs_mem (FromChar n) c = (c =? n).
Proof.
  intros Hn Hc. destruct (div64 c Hc) as [Hq Hr]. pose proof (Z.div_mod c 64). unfold bs_mem, FromChar, word.
  destruct (Z.ltb_spec n 64), (Z.ltb_spec n 128), (Z.ltb_spec n 192); try lia; cbn [w0 w1 w2 w3];
    destruct (Z.eqb_spec (c / 64) 0), (Z.eqb_spec (c / 64) 1), (Z.eqb_spec (c / 64) 2); try lia; rewrite ?Z.bits_0, ?testbit_one by lia;
    destruct (Z.eqb_spec c n); try destruct (Z.eqb_spec (c mod 64) _); try lia; done.
Qed.

Lemma byte_of_range c : 0 ≤ byte_of c < 256.
Proof. unfold byte_of. pose proof (nat_ascii_bounded c). lia. Qed.

Lemma byte_of_inj c d : byte_of c = byte_of d → c = d.
Proof. unfold byte_of. intros E. apply Nat2Z.inj in E. by rewrite <-(ascii_nat_embedding c), E, ascii_nat_embedding. Qed.

(** Loops that insert or erase the bytes of a list. *)
Lemma fold_insert_mem {A} (f : A → Z) (p : A → bool) l : ∀ r c, Forall (λ x, 0 ≤ f x < 256) l → 0 ≤ c < 256 →
  bs_mem (foldl (λ r x, if p x then bs_insert r (f x) else r) r l) c = bs_mem r c || existsb (λ x, p x && (c =? f x)) l.
Proof.
  induction l as [|x l IH]; intros r c Hl Hc; cbn; [by rewrite orb_false_r|]. apply Forall_cons in Hl as [Hx Hl]. rewrite IH by done.
  destruct (p x); cbn; [|done]. rewrite mem_insert by done. by destruct (c =? f x), (bs_mem r c).
Qed.

Lemma fold_erase {A} (f : A → Z) (p : A → bool) l : ∀ r c, Forall (λ x, 0 ≤ f x < 256) l → 0 ≤ c < 256 →
  bs_mem (foldl (λ r x, if p x then bs_erase r (f x) else r) r l) c = bs_mem r c && negb (existsb (λ x, p x && (c =? f x)) l).
Proof.
  induction l as [|x l IH]; intros r c Hl Hc; cbn; [by rewrite andb_true_r|]. apply Forall_cons in Hl as [Hx Hl]. rewrite IH by done.
  destruct (p x); cbn; [|done]. rewrite mem_erase by done. by destruct (c =? f x), (bs_mem r c).
Qed.

Lemma all_bytes_range : Forall (λ x : Z, 0 ≤ x < 256) all_bytes.
Proof. unfold all_bytes. apply Forall_forall. intros x (n & -> & Hn)%list_elem_of_fmap. apply elem_of_seq in Hn. lia. Qed.

Lemma all_bytes_exists (p : Z → bool) c : 0 ≤ c < 256 → existsb (λ x, p x && (c =? x)) all_bytes = p c.
Proof.
  intros Hc. apply eq_true_iff_eq. rewrite existsb_exists. split.
  - by intros (x & _ & [Hp ->%Z.eqb_eq]%andb_prop).
  - intros Hp. exists c. rewrite Hp, Z.eqb_refl. split; [|done]. unfold all_bytes. apply in_map_iff. exists (Z.to_nat c). split; [lia|]. apply in_seq. lia.
Qed.

Definition in_string (s : chars) (c : Z) : bool := existsb (λ x, c =? byte_of x) s.

Lemma string_range s : Forall (λ x : ascii, 0 ≤ byte_of x < 256) s.
Proof. apply Forall_true. intros x. apply byte_of_range. Qed.

Lemma mem_FromString s c : 0 ≤ c < 256 → Forall (λ x, byte_of x ≠ 0) s → bs_mem (FromString s) c = in_string s c.
Proof.
  intros Hc. induction s as [|x s IH]; intros Hs; cbn; [apply mem_empty|]. apply Forall_cons in Hs as [Hx Hs]. destruct (Z.eqb_spec (byte_of x) 0); [done|].
  rewrite mem_or, mem_FromChar, IH by (done || apply byte_of_range). done.
Qed.

(** ** Operations *)

(** What a [const char*] to [s] stands for: the characters up to the first zero. *)
Fixpoint c_str (s : chars) : chars :=
  match s with
  | [] => []
  | c :: s' => if byte_of c =? 0 then [] else c :: c_str s'
  end.

Inductive bs_op :=
| B_insert (c : ascii)
| B_erase (c : ascii)
| B_clear
| B_insert_if (pred : Z → bool)
| B_erase_if (pred : Z → bool)
| B_insert_string (s : chars)
| B_erase_string (s : chars)
| B_or (r : Rep)
| B_and (r : Rep)
| B_or_string (s : chars).

Definition bs_step (r : Rep) (o : bs_op) : Rep :=
  match o with
  | B_insert c => bs_insert r (byte_of c)
  | B_erase c => bs_erase r (byte_of c)
  | B_clear => Rep_empty
  | B_insert_if pred => insert_if pred r
  | B_erase_if pred => erase_if pred r
  | B_insert_string s => insert_string s r
  | B_erase_string s => erase_string s r
  | B_or r' => Rep_or r r'
  | B_and r' => Rep_and r r'
  | B_or_string s => insert_string (c_str s) r
  end.

(** What the operation does to the set. *)
Definition set_step (m : Z → bool) (o : bs_op) : Z → bool := λ c,
  match o with
  | B_insert x => (c =? byte_of x) || m c
  | B_erase x => negb (c =? byte_of x) && m c
  | B_clear => false
  | B_insert_if pred => m c || pred c
  | B_erase_if pred => m c && negb (pred c)
  | B_insert_string s => m c || in_string s c
  | B_or_string s => m c || in_string (c_str s) c
  | B_erase_string s => m c && negb (in_string s c)
  | B_or r => m c || bs_contains r c
  | B_and r => m c && bs_contains r c
  end.

Lemma step_mem r m o : (∀ c, 0 ≤ c < 256 → bs_mem r c = m c) → ∀ c, 0 ≤ c < 256 → bs_mem (bs_step r o) c = set_step m o c.
Proof.
  intros Hm c Hc. destruct o; cbn [bs_step set_step]; rewrite ?bs_contains_mem, <-?(Hm c Hc).
  - apply mem_insert; [apply byte_of_range|done].
  - apply mem_erase; [apply byte_of_range|done].
  - apply mem_empty.
  - unfold insert_if. rewrite (fold_insert_mem id pred) by (done || apply all_bytes_range). by rewrite all_bytes_exists.
  - unfold erase_if. rewrite (fold_erase id pred) by (done || apply all_bytes_range). by rewrite all_bytes_exists.
  - unfold insert_string. by rewrite (fold_insert_mem byte_of (λ _, true)) by (done || apply string_range).
  - unfold erase_string. by rewrite (fold_erase byte_of (λ _, true)) by (done || apply string_range).
  - apply mem_or.
  - apply mem_and.
  - unfold insert_string. by rewrite (fold_insert_mem byte_of (λ _, true)) by (done || apply string_range).
Qed.

Lemma steps_mem os : ∀ r m c, (∀ c, 0 ≤ c < 256 → bs_mem r c = m c) → 0 ≤ c < 256 → bs_mem (foldl bs_step r os) c = foldl set_step m os c.
Proof. induction os as [|o os IH]; intros r m c Hm Hc; cbn; [by apply Hm|]. apply IH; [|done]. by apply step_mem. Qed.

(** The four words behave as a set of bytes: after any sequence of operations, and
    whatever set it starts with, [contains] answers as the set that the operations
    describe. *)
Theorem ByteSet_refines os r c : 0 ≤ c < 256 → bs_contains (foldl bs_step r os) c = foldl set_step (bs_contains r) os c.
Proof.
  intros Hc. rewrite bs_contains_mem. apply steps_mem; [|done]. intros. by rewrite bs_contains_mem.
Qed.

Lemma ByteSet_refines_witness :
  bs_contains (foldl bs_step alphas [B_erase "a"; B_insert_if c_isdigit; B_or_string (chars_of "+-")]) 43 = true ∧ bs_contains (foldl bs_step alphas [B_erase "a"; B_insert_if c_isdigit]) 97 = false.
Proof. rewrite !ByteSet_refines by lia. split; vm_compute; reflexivity. Defined.

(** Two sets are equal if they have the same bytes. *)
Lemma bs_word_eq a b i : 0 ≤ i < 4 → (∀ c, 0 ≤ c < 256 → bs_mem a c = bs_mem b c) → 0 ≤ word a i < 2 ^ 64 → 0 ≤ word b i < 2 ^ 64 → word a i = word b i.
Proof.
  intros Hi Hm Ha Hb. apply Z.bits_inj'. intros n Hn. destruct (Z.ltb_spec n 64).
  - specialize (Hm (64 * i + n) ltac:(lia)). unfold bs_mem in Hm. rewrite Z.mul_comm, Z.div_add_l, (Z.div_small n 64), Z.add_0_r in Hm by lia.
    by rewrite Z.add_comm, Z_mod_plus_full, (Z.mod_small n 64) in Hm by lia.
  - assert (Hout : ∀ z, 0 ≤ z < 2 ^ 64 → Z.testbit z n = false); [|by rewrite !Hout].
    intros z Hz. destruct (decide (z = 0)) as [->|]; [apply Z.bits_0|]. apply Z.bits_above_log2; [lia|]. apply Z.log2_lt_pow2; [lia|].
    assert (2 ^ 64 ≤ 2 ^ n) by (apply Z.pow_le_mono_r; lia). lia.
Qed.

Lemma ByteSet_eq_spec a b : bs_wf a → bs_wf b → Rep_eq a b = true ↔ ∀ c, 0 ≤ c < 256 → bs_contains a c = bs_contains b c.
Proof.
  intros Ha Hb. unfold Rep_eq. rewrite !andb_true_iff, !Z.eqb_eq. split.
  - intros [[[E0 E1] E2] E3]. destruct a, b; cbn in *; by subst.
  - intros Hm. assert (Hm' : ∀ c, 0 ≤ c < 256 → bs_mem a c = bs_mem b c) by (intros c Hc; specialize (Hm c Hc); by rewrite !bs_contains_mem in Hm).
    destruct Ha as [[? ?] [? ?]], Hb as [[? ?] [? ?]].
    pose proof (bs_word_eq a b 0 ltac:(lia) Hm'). pose proof (bs_word_eq a b 1 ltac:(lia) Hm'). pose proof (bs_word_eq a b 2 ltac:(lia) Hm'). pose proof (bs_word_eq a b 3 ltac:(lia) Hm').
    cbn in *. auto 10.
Qed.

(** ** Words stay words *)

Definition is_word (z : Z) : Prop := 0 ≤ z < 2 ^ 64.

Lemma is_word_u64 z : is_word z ↔ u64 z = z.
Proof. split; [apply u64_small|]. intros <-. apply u64_range. Qed.
Lemma word_lor a b : is_word a → is_word b → is_word (Z.lor a b).
Proof. rewrite !is_word_u64. unfold u64. rewrite <-!Z.land_ones by lia. intros Ha Hb. by rewrite Z.land_lor_distr_l, Ha, Hb. Qed.
Lemma word_land a b : is_word a → is_word (Z.land a b).
Proof. rewrite !is_word_u64. unfold u64. rewrite <-!Z.land_ones by lia. intros Ha. by rewrite <-Z.land_assoc, (Z.land_comm b), Z.land_assoc, Ha. Qed.

Lemma wf_word r i : bs_wf r → is_word (word r i).
Proof. intros [[? ?] [? ?]]. unfold word. by repeat case_match. Qed.
Lemma wf_set_word r i v : bs_wf r → is_word v → bs_wf (set_word r i v).
Proof. intros [[? ?] [? ?]] Hv. unfold set_word. by repeat case_match. Qed.
Lemma wf_insert r n : bs_wf r → bs_wf (bs_insert r n).
Proof. intros Hr. by apply wf_set_word, word_lor; [|apply wf_word|apply u64_range]. Qed.
Lemma wf_erase r n : bs_wf r → bs_wf (bs_erase r n).
Proof. intros Hr. by apply wf_set_word, word_land; [|apply wf_word]. Qed.
Lemma wf_fold {A} (g : Rep → A → Rep) l : (∀ r x, bs_wf r → bs_wf (g r x)) → ∀ r, bs_wf r → bs_wf (foldl g r l).
Proof. intros Hg. induction l as [|x l IH]; cbn; auto. Qed.

(** The sets that an operation is given. *)
Definition op_wf (o : bs_op) : Prop := match o with B_or r | B_and r => bs_wf r | _ => True end.

Lemma wf_step r o : bs_wf r → op_wf o → bs_wf (bs_step r o).
Proof.
  intros Hr Ho. destruct o; cbn [bs_step]; try (apply wf_fold; [|done]; intros r0 x Hr0; try case_match); auto using wf_insert, wf_erase.
  - by repeat split.
  - destruct Hr as [[? ?] [? ?]], Ho as [[? ?] [? ?]]. repeat split; by apply word_lor.
  - destruct Hr as [[? ?] [? ?]]. repeat split; by apply word_land.
Qed.

Lemma wf_steps os : Forall op_wf os → ∀ r, bs_wf r → bs_wf (foldl bs_step r os).
Proof. induction 1 as [|o os Ho _ IH]; intros r Hr; cbn; [done|]. by apply IH, wf_step. Qed.

(** C40: Whatever operations build a set, its four words stay 64-bit words, and [==] on the
    words of two sets says whether the operations describe the same set of bytes. *)
Theorem ByteSet_typed os1 os2 : Forall op_wf os1 → Forall op_wf os2 →
  bs_wf (foldl bs_step Rep_empty os1) ∧
  (Rep_eq (foldl bs_step Rep_empty os1) (foldl bs_step Rep_empty os2) = true ↔ ∀ c, 0 ≤ c < 256 → foldl set_step (λ _, false) os1 c = foldl set_step (λ _, false) os2 c).
Proof.
  intros H1 H2. assert (He : bs_wf Rep_empty) by (by repeat split). split; [by apply wf_steps|]. rewrite ByteSet_eq_spec by (by apply wf_steps).
  assert (Hset : ∀ os c, 0 ≤ c < 256 → bs_contains (foldl bs_step Rep_empty os) c = foldl set_step (λ _, false) os c).
  { intros os c Hc. rewrite bs_contains_mem. assert (H : ∀ c, 0 ≤ c < 256 → bs_mem Rep_empty c = false) by (intros; apply mem_empty). by apply (steps_mem os _ (λ _, false)). }
  split; intros H c Hc; specialize (H c Hc); by rewrite !Hset in *.
Qed.

(** Letters and digits in two ways. *)
Definition in_two_ways : list bs_op * list bs_op := ([B_or alphas; B_insert "+"; B_or_string (chars_of "0123456789"); B_erase "+"], [B_insert_if c_isalnum]).

Lemma ByteSet_typed_witness :
  Rep_eq (foldl bs_step Rep_empty in_two_ways.1) (foldl bs_step Rep_empty in_two_ways.2) = true ∧ foldl set_step (λ _, false) in_two_ways.1 43 = c_isalnum 43.
Proof.
  assert (He : Rep_eq (foldl bs_step Rep_empty in_two_ways.1) (foldl bs_step Rep_empty in_two_ways.2) = true) by (vm_compute; reflexivity). split; [exact He|].
  refine (proj1 (proj2 (ByteSet_typed in_two_ways.1 in_two_ways.2 _ _)) He 43 _); [|repeat constructor|lia].
  repeat constructor; vm_compute; discriminate || reflexivity.
Defined.
