(* ===== verification/Uri.v ===== *)
(** * URIs: flare/base/net/uri.{h,cc}

    [UriParser] is a recursive-descent parser that follows the grammar of RFC 3986.
    It moves a pointer over the text; a [Result] on the stack remembers where it was
    and moves the pointer back if the rule fails.  Where a rule succeeds, the
    receiver is told the place of a component: an offset and a length of 16 bits.

    A rule is a function of the parser's state here, [match_] as in the code.  A loop
    runs once per character that is left, which is enough: it ends when a round reads
    nothing.  [elsewhere] is the distance of the empty literal of [match_path_empty]
    from the text, which is some number.

    [Uri_accepts] says exactly which texts are accepted, [Uri_accessors] that the
    accessors return the parts that the text is made of.  How this relates to the
    grammar of the RFC is in Rfc3986.v. *)

From Stdlib Require Import Ascii.
From S2P Require Import Prelude Regex FlareString ByteSet.

#[local] Open Scope Z_scope.

#[local] Notation size_of s := (Z.of_nat (length s)).

(** ** Sets of characters *)

Definition set_of (s : string) : Rep := FromString (chars_of s).
Definition has (cs : Rep) (c : ascii) : bool := bs_contains cs (byte_of c).

Definition sub_delims : Rep := set_of "!$&'()*+,;=".
Definition unreserved : Rep := Rep_or alpha_nums (set_of "-._~").
Definition userinfo_set : Rep := Rep_or unreserved (set_of ",:&=+$,").
Definition scheme_set : Rep := Rep_or alpha_nums (set_of "+-.").
Definition reg_name_set : Rep := Rep_or unreserved sub_delims.

(** With [--flare_extension_non_conformant_uri_for_gdt]. *)
Definition expansion (gdt : bool) : Rep := if gdt then FromString (chars_of "|{}[]^" ++ ["034"%char]) else Rep_empty.
Definition pchar (gdt : bool) : Rep := Rep_or (Rep_or (Rep_or unreserved sub_delims) (set_of ":@")) (expansion gdt).
Definition query_set (gdt : bool) : Rep := Rep_or (pchar gdt) (set_of "/?").
Definition fragment_set (gdt : bool) : Rep := Rep_or (Rep_or (pchar gdt) (set_of "/?")) (if gdt then set_of "#" else Rep_empty).

(** ** The parser *)

(** Offset and length. *)
Definition view : Type := Z * Z.
Record Components := mkComponents { k_scheme : view; k_userinfo : view; k_host : view; k_port : view; k_path : view; k_query : view; k_fragment : view }.

Definition Components_new : Components := mkComponents (0, 0) (0, 0) (0, 0) (0, 0) (0, 0) (0, 0) (0, 0).

Definition u16 (z : Z) : Z := z mod 2 ^ 16.

(** [cur] is how many characters were read, [rest] what is left. *)
Record UriParser := mkParser { cur : Z; rest : chars; m_result : Components }.
Implicit Types (p : UriParser).

Definition range (from to : Z) : view := (u16 from, u16 (to - from)).
Definition with_result (f : Components → Components) p : UriParser := mkParser (cur p) (rest p) (f (m_result p)).

Definition SetScheme v p := with_result (λ k, mkComponents v (k_userinfo k) (k_host k) (k_port k) (k_path k) (k_query k) (k_fragment k)) p.
Definition SetUserInfo v p := with_result (λ k, mkComponents (k_scheme k) v (k_host k) (k_port k) (k_path k) (k_query k) (k_fragment k)) p.
Definition SetHost v p := with_result (λ k, mkComponents (k_scheme k) (k_userinfo k) v (k_port k) (k_path k) (k_query k) (k_fragment k)) p.
Definition SetPort v p := with_result (λ k, mkComponents (k_scheme k) (k_userinfo k) (k_host k) v (k_path k) (k_query k) (k_fragment k)) p.
Definition SetPath v p := with_result (λ k, mkComponents (k_scheme k) (k_userinfo k) (k_host k) (k_port k) v (k_query k) (k_fragment k)) p.
Definition SetQuery v p := with_result (λ k, mkComponents (k_scheme k) (k_userinfo k) (k_host k) (k_port k) (k_path k) v (k_fragment k)) p.
Definition SetFragment v p := with_result (λ k, mkComponents (k_scheme k) (k_userinfo k) (k_host k) (k_port k) (k_path k) (k_query k) v) p.

(** A rule, and the operators of C++ on what rules return. *)
Definition rule : Type := UriParser → bool * UriParser.

Definition andr (r1 r2 : rule) : rule := λ p, let '(b, p1) := r1 p in if b : bool then r2 p1 else (false, p1).
Definition orr (r1 r2 : rule) : rule := λ p, let '(b, p1) := r1 p in if b : bool then (true, p1) else r2 p1.

(** [Result r(this); r = rule], up to the end of the scope: the pointer goes back,
    what the receiver was told stays. *)
Definition scoped (r : rule) : rule := λ p, let '(b, p1) := r p in if b : bool then (true, p1) else (false, mkParser (cur p) (rest p) (m_result p1)).

(** A rule, and what is done if it succeeds with where it began and ended. *)
Definition told (r : rule) (f : Z → Z → UriParser → UriParser) : rule := λ p, let '(b, p1) := scoped r p in if b : bool then (true, f (cur p) (cur p1) p1) else (false, p1).

(** A rule that may fail. *)
Definition optional (r : rule) : rule := λ p, (true, snd (r p)).

(** [while (rule) {}]. *)
Fixpoint star_loop (fuel : nat) (r : rule) p : UriParser :=
  match fuel with
  | O => p
  | S fuel' => let '(b, p1) := r p in if b : bool then star_loop fuel' r p1 else p1
  end.
Definition star (r : rule) : rule := λ p, (true, star_loop (length (rest p)) r p).

(** The same, counting the rounds. *)
Definition plus (r : rule) : rule := λ p, let '(b, p1) := r p in if b : bool then star r p1 else (false, p1).

Definition match_char (ok : ascii → bool) : rule := λ p,
  match rest p with
  | c :: l => if ok c then (true, mkParser (cur p + 1) l (m_result p)) else (false, p)
  | [] => (false, p)
  end.
Definition match_literal (c : ascii) : rule := match_char (λ x, bool_decide (x = c)).
Definition match_byteset (cs : Rep) : rule := match_char (has cs).
Definition match_slashes : rule := λ p,
  match rest p with
  | c1 :: c2 :: l => if bool_decide (c1 = "/"%char ∧ c2 = "/"%char) then (true, mkParser (cur p + 2) l (m_result p)) else (false, p)
  | _ => (false, p)
  end.

Definition match_pct_encoded : rule := λ p,
  match rest p with
  | c :: a :: b :: l =>
      if bool_decide (c = "%"%char) then
        if has hex a && has hex b then (true, mkParser (cur p + 3) l (m_result p))
        else
          match l with
          | d :: e :: f :: l' =>
              if bool_decide (a = "u"%char) && has hex b && has hex d && has hex e && has hex f then (true, mkParser (cur p + 6) l' (m_result p))
              else (false, p)
          | _ => (false, p)
          end
      else (false, p)
  | _ => (false, p)
  end.

Definition match_alpha : rule := match_byteset alphas.
Definition match_digit : rule := match_byteset digits.

Section parser.
Context (gdt : bool) (elsewhere : Z).

Definition match_pchar : rule := orr (match_byteset (pchar gdt)) match_pct_encoded.
Definition match_segment : rule := star match_pchar.
Definition match_segment_nz : rule := plus match_pchar.
Definition match_segment_nz_nc : rule :=
  plus (scoped (orr (orr (orr (match_byteset unreserved) match_pct_encoded) (match_byteset sub_delims)) (match_literal "@"))).

(** [( "/" segment )], again and again. *)
Definition match_segments : rule := star (scoped (andr (match_literal "/") match_segment)).

Definition set_path (r : rule) : rule := λ p, let '(b, p1) := r p in if b : bool then (true, SetPath (range (cur p) (cur p1)) p1) else (false, p1).
Definition match_path_abempty : rule := set_path match_segments.
Definition match_path_absolute : rule := set_path (andr (match_literal "/") (optional (andr match_segment_nz match_segments))).
Definition match_path_noscheme : rule := set_path (andr match_segment_nz_nc match_segments).
Definition match_path_rootless : rule := set_path (andr match_segment_nz match_segments).
Definition match_path_empty : rule := λ p, (true, SetPath (u16 elsewhere, 0) p).

Definition match_query : rule := star (orr (match_byteset (query_set gdt)) match_pct_encoded).
Definition match_fragment : rule := star (orr (match_byteset (fragment_set gdt)) match_pct_encoded).
Definition match_userinfo : rule := star (orr (match_byteset userinfo_set) match_pct_encoded).
Definition match_port : rule := star (match_byteset digits).

(** Digits and a dot, three times, then digits; a group without digits is skipped. *)
Fixpoint ipv4_groups (n : nat) : rule := λ p,
  match n with
  | O => plus match_digit p
  | S n' =>
      let '(b, p1) := match_digit p in
      if b : bool then andr (match_literal ".") (ipv4_groups n') (snd (star match_digit p1)) else ipv4_groups n' p1
  end.
Definition match_IPv4address : rule := scoped (ipv4_groups 3).
Definition match_IP_literal : rule := λ p, (false, p).
Definition match_reg_name : rule := scoped (plus (orr (match_byteset reg_name_set) match_pct_encoded)).

Definition match_host : rule := λ p,
  let '(b, p1) := orr (orr match_IPv4address match_IP_literal) match_reg_name p in
  if b : bool then (true, SetHost (range (cur p) (cur p1)) p1) else (false, p1).

Fixpoint at_before_slash (l : chars) : bool :=
  match l with
  | [] => false
  | c :: l' => if bool_decide (c = "@"%char) then true else if bool_decide (c = "/"%char) then false else at_before_slash l'
  end.
Definition maybe_contains_userinfo p : bool := at_before_slash (rest p).

Definition match_authority : rule := λ p,
  let p1 := if maybe_contains_userinfo p then snd (told (andr match_userinfo (match_literal "@")) (λ b e, SetUserInfo (range b (e - 1))) p) else p in
  let '(b, p2) := match_host p1 in
  if b : bool then optional (told (andr (match_literal ":") match_port) (λ b e, SetPort (range (b + 1) e))) p2 else (false, p2).

Definition match_scheme_and_colon : rule :=
  told (andr (andr match_alpha (star (match_byteset scheme_set))) (match_literal ":")) (λ b e, SetScheme (range b (e - 1))).

(** The [Result] of the first attempt is still there, and false, when the function
    returns what the other rules say: its destructor moves the pointer back. *)
Definition match_hier_part : rule := λ p,
  let '(b, p1) := scoped (andr (andr match_slashes match_authority) match_path_abempty) p in
  if b : bool then (true, p1)
  else let '(b2, p2) := orr (orr match_path_absolute match_path_rootless) match_path_empty p1 in (b2, mkParser (cur p) (rest p) (m_result p2)).

Definition ask_query : rule := optional (told (andr (match_literal "?") match_query) (λ b e, SetQuery (range (b + 1) e))).
Definition ask_fragment : rule := optional (told (andr (match_literal "#") match_fragment) (λ b e, SetFragment (range (b + 1) e))).

Definition match_URI : rule := λ p,
  let '(b, p1) := scoped (andr match_scheme_and_colon match_hier_part) p in
  if b : bool then ask_fragment (snd (ask_query p1)) else (false, p1).

Definition match_relative_part : rule := λ p,
  let '(b, p1) := scoped (andr (andr match_slashes match_authority) match_path_abempty) p in
  if b : bool then (true, p1) else scoped (orr (orr match_path_absolute match_path_noscheme) match_path_empty) p1.

Definition match_relative_ref : rule := λ p, let '(b, p1) := scoped match_relative_part p in if b : bool then ask_query p1 else (false, p1).

Definition match_URI_reference : rule := orr match_URI match_relative_ref.

Definition Parse (uri : chars) : UriParser := snd (match_URI_reference (mkParser 0 uri Components_new)).
End parser.

(** ** Uri *)

Record Uri := mkUri { uri_ : chars; comps_ : Components; port_ : Z }.

Definition c_tolower (c : ascii) : ascii := if c_isupper (byte_of c) then ascii_of_nat (nat_of_ascii c + 32) else c.

Definition substr (s : chars) (v : view) : outcome chars := if size_of s <? v.1 then Throw else Ret (take (Z.to_nat v.2) (drop (Z.to_nat v.1) s)).

(** The accessors are [noexcept]: an exception of [substr] ends the program. *)
Definition GetComponent (k : Components → view) (u : Uri) : outcome chars := match substr (uri_ u) (k (comps_ u)) with Throw => Abort | o => o end.

Definition lower_range (v : view) (s : chars) : chars :=
  take (Z.to_nat v.1) s ++ (c_tolower <$> take (Z.to_nat v.2) (drop (Z.to_nat v.1) s)) ++ drop (Z.to_nat v.1 + Z.to_nat v.2) s.

Definition TryParse_Uri (gdt : bool) (elsewhere : Z) (s : chars) (erange : bool) : option Uri * bool :=
  if 65535 <? size_of s then (None, erange)
  else
    let p := Parse gdt elsewhere s in
    if negb (cur p =? size_of s) then (None, erange)
    else
      let k := m_result p in
      let possible_port := take (Z.to_nat (k_port k).2) (drop (Z.to_nat (k_port k).1) s) in
      let '(port, erange') := match possible_port with [] => (Some 0, erange) | _ => TryParse_uint 65535 possible_port erange end in
      match port with
      | None => (None, erange')
      | Some n => (Some (mkUri (lower_range (k_scheme k) s) k n), erange')
      end.

Example parse_uri :
  fst (TryParse_Uri false 0 (chars_of "HTTP://me:x@example.com:8080/a/b?q=1#top") false) =
    Some (mkUri (chars_of "http://me:x@example.com:8080/a/b?q=1#top") (mkComponents (0, 4) (7, 4) (12, 11) (24, 4) (28, 4) (33, 3) (37, 3)) 8080).
Proof. vm_compute. reflexivity. Qed.

(** ** Reading as far as possible *)

(** [f] says how many characters a rule reads; [run f] how many it reads when it is
    repeated. *)
Definition reader : Type := chars → option nat.
Implicit Types (f : reader) (l a b : chars).

Fixpoint run_fuel (fuel : nat) f l : nat :=
  match fuel with
  | O => 0
  | S fuel' => match f l with Some n => n + run_fuel fuel' f (drop n l) | None => 0 end
  end.
Definition run f l : nat := run_fuel (length l) f l.
Arguments run : simpl never.

Class Bounded f : Prop := reads_bound l n : f l = Some n → (0 < n ≤ length l)%nat.
Class Reads f : Prop := {
  reads_bounded :: Bounded f;
  reads_app l n b : f l = Some n → f (l ++ b) = Some n;
  reads_take l n : f l = Some n → f (take n l) = Some n;
}.

Definition adv (n : nat) p : UriParser := mkParser (cur p + Z.of_nat n) (drop n (rest p)) (m_result p).

Lemma adv_0 p : adv 0 p = p.
Proof. destruct p. unfold adv. cbn. by rewrite Z.add_0_r. Qed.
Lemma adv_adv m n p : adv m (adv n p) = adv (n + m) p.
Proof. unfold adv. cbn. rewrite drop_drop. f_equal. lia. Qed.

(** A rule that reads what [f] says, and nothing if it fails. *)
Definition reading (r : rule) f : Prop := ∀ p, r p = match f (rest p) with Some n => (true, adv n p) | None => (false, p) end.

Section run.
Context f `{!Bounded f}.

Lemma run_fuel_enough n : ∀ l, (length l ≤ n)%nat → run_fuel n f l = run f l.
Proof.
  unfold run. intros l. remember (length l) as m eqn:E. revert n l E. induction (lt_wf m) as [m _ IH]. intros n l -> Hn.
  destruct n as [|n]; [by replace (length l) with 0%nat by lia|]. destruct (length l) as [|k] eqn:El.
  - cbn. destruct (f l) as [i|] eqn:E; [|done]. apply reads_bound in E. lia.
  - cbn. destruct (f l) as [i|] eqn:E; [|done]. apply reads_bound in E as Hb. f_equal.
    assert (Hlt : (length (drop i l) < S k)%nat) by (rewrite length_drop; lia).
    by rewrite (IH _ Hlt n _ eq_refl), (IH _ Hlt k _ eq_refl) by lia.
Qed.

Lemma run_eq l : run f l = match f l with Some n => (n + run f (drop n l))%nat | None => 0%nat end.
Proof.
  rewrite <-(run_fuel_enough (S (length l))) by lia. cbn. destruct (f l) as [n|] eqn:E; [|done]. by rewrite run_fuel_enough by (rewrite length_drop; lia).
Qed.

Lemma run_le l : (run f l ≤ length l)%nat.
Proof.
  induction (Nat.lt_wf_0_projected length l) as [l _ IH]. rewrite run_eq. destruct (f l) as [n|] eqn:E; [|lia]. apply reads_bound in E.
  specialize (IH (drop n l)). rewrite length_drop in IH. lia.
Qed.

(** What is left cannot be read. *)
Lemma run_stops l : f (drop (run f l) l) = None.
Proof.
  induction (Nat.lt_wf_0_projected length l) as [l _ IH]. rewrite run_eq. destruct (f l) as [n|] eqn:E; [|done]. apply reads_bound in E.
  rewrite <-drop_drop. apply IH. rewrite length_drop. lia.
Qed.

Definition all a : Prop := run f a = length a.

Context `{!Reads f}.

Lemma all_nil : all [].
Proof. done. Qed.

(** A text of which all is read, in front of one that cannot be read. *)
Lemma run_app a b : all a → f b = None → run f (a ++ b) = length a.
Proof.
  induction (Nat.lt_wf_0_projected length a) as [a _ IH]. unfold all. intros Ha Hb. rewrite run_eq in Ha. destruct (f a) as [n|] eqn:E.
  - apply reads_bound in E as Hn. rewrite run_eq, (reads_app _ _ _ E), drop_app_le by lia. rewrite IH; [rewrite length_drop; lia|rewrite length_drop; lia| |done].
    unfold all. rewrite length_drop. lia.
  - destruct a; [|cbn in Ha; lia]. cbn. by rewrite run_eq, Hb.
Qed.

Lemma all_app a b : all a → all b → all (a ++ b).
Proof.
  unfold all. induction (Nat.lt_wf_0_projected length a) as [a _ IH]. intros Ha Hb. rewrite run_eq in Ha. destruct (f a) as [n|] eqn:E.
  - apply reads_bound in E as Hn. rewrite run_eq, (reads_app _ _ _ E), drop_app_le, IH by (rewrite ?length_drop; lia || done). rewrite !length_app, length_drop. lia.
  - destruct a; [done|]. cbn in Ha. lia.
Qed.

Lemma run_all l : all (take (run f l) l).
Proof.
  unfold all. induction (Nat.lt_wf_0_projected length l) as [l _ IH]. rewrite (run_eq l). destruct (f l) as [n|] eqn:E; [|done].
  apply reads_bound in E as Hn. pose proof (run_le (drop n l)) as Hle. rewrite length_drop in Hle.
  assert (Ht : take (n + run f (drop n l)) l = take n l ++ take (run f (drop n l)) (drop n l)).
  { by rewrite take_take_drop. }
  rewrite Ht, run_eq, (reads_app _ _ _ (reads_take _ _ E)), drop_app_length' by (rewrite length_take; lia).
  rewrite IH by (rewrite length_drop; lia). rewrite length_app, !length_take, length_drop. lia.
Qed.
End run.

(** ** The rules that read only *)

Definition char_reader (ok : ascii → bool) : reader := λ l, match l with c :: _ => if ok c then Some 1%nat else None | [] => None end.

Definition pct_reader : reader := λ l,
  match l with
  | c :: a :: b :: l' =>
      if bool_decide (c = "%"%char) then
        if has hex a && has hex b then Some 3%nat
        else match l' with
             | d :: e :: f :: _ => if bool_decide (a = "u"%char) && has hex b && has hex d && has hex e && has hex f then Some 6%nat else None
             | _ => None
             end
      else None
  | _ => None
  end.

Definition or_reader f g : reader := λ l, match f l with Some n => Some n | None => g l end.

(** A character of the set, or an escaped one. *)
Definition item (cs : Rep) : reader := or_reader (char_reader (has cs)) pct_reader.

#[export] Instance char_reads ok : Reads (char_reader ok).
Proof.
  split; intros [|c l] n; cbn; try done; destruct (ok c) eqn:E; try done; intros; simplify_eq; cbn; rewrite ?E; try done; lia.
Qed.

#[export] Instance pct_reads : Reads pct_reader.
Proof.
  split.
  - intros [|c [|x [|y l]]] n; cbn; try done. case_bool_decide; [|done]. destruct (_ && _); [intros [= <-]; lia|].
    destruct l as [|d [|e [|f l]]]; try done. destruct (_ && _); [|done]. intros [= <-]. cbn. lia.
  - intros [|c [|x [|y l]]] n b; cbn; try done. case_bool_decide; [|done]. destruct (_ && _); [done|].
    by destruct l as [|d [|e [|f l]]].
  - intros [|c [|x [|y l]]] n; cbn; try done. case_bool_decide; [|done]. destruct (has hex x && has hex y) eqn:E1.
    + intros [= <-]. cbn. rewrite bool_decide_true by done. by rewrite E1.
    + destruct l as [|d [|e [|f l]]]; try done. destruct (bool_decide (x = "u"%char) && has hex y && has hex d && has hex e && has hex f) eqn:E2; [|done]. intros [= <-]. cbn. rewrite bool_decide_true by done. rewrite E1. by rewrite E2.
Qed.

Lemma or_reads f g : Reads f → Reads g → (∀ l n b, f l = None → g l = Some n → f (l ++ b) = None ∧ f (take n l) = None) → Reads (or_reader f g).
Proof.
  intros Hf Hg Hfg. unfold or_reader. split; intros l n.
  - destruct (f l) eqn:E; [intros [= <-]; by apply Hf|apply Hg].
  - intros b. destruct (f l) eqn:E; [intros [= <-]; by rewrite (reads_app (f := f) _ _ _ E)|]. intros E2. destruct (Hfg l n b E E2) as [-> _]. by apply Hg.
  - destruct (f l) eqn:E; [intros [= <-]; by rewrite (reads_take (f := f) _ _ E)|]. intros E2. destruct (Hfg l n [] E E2) as [_ ->]. by apply Hg.
Qed.

#[export] Instance item_reads cs : Reads (item cs).
Proof.
  apply or_reads; [apply _..|]. intros [|c l] n b; cbn; [done|]. destruct (has cs c) eqn:E; [done|]. intros _ Hp. split; [done|].
  pose proof (reads_bound (f := pct_reader) (c :: l) n Hp). destruct n; [lia|]. cbn. by rewrite E.
Qed.

Lemma read_char ok : reading (match_char ok) (char_reader ok).
Proof. intros p. unfold match_char, char_reader, adv. destruct (rest p); [done|]. by destruct (ok a). Qed.

Lemma read_pct : reading match_pct_encoded pct_reader.
Proof.
  intros p. unfold match_pct_encoded, pct_reader, adv. destruct (rest p) as [|c [|x [|y l]]]; try done. case_bool_decide; [|done].
  destruct (_ && _); [done|]. destruct l as [|d [|e [|f l]]]; try done. by destruct (_ && _).
Qed.

Lemma read_or r1 r2 f g : reading r1 f → reading r2 g → reading (orr r1 r2) (or_reader f g).
Proof. intros H1 H2 p. unfold orr, or_reader. rewrite H1. destruct (f (rest p)); [done|]. apply H2. Qed.

Lemma read_item cs : reading (orr (match_byteset cs) match_pct_encoded) (item cs).
Proof. apply read_or; [apply read_char|apply read_pct]. Qed.

Lemma read_scoped r f : reading r f → reading (scoped r) f.
Proof. intros H p. unfold scoped. rewrite H. destruct (f (rest p)); [done|]. by destruct p. Qed.

Lemma read_star r f p : reading r f → star r p = (true, adv (run f (rest p)) p).
Proof.
  intros Hr. unfold star, run. f_equal. generalize (length (rest p)) as n. intros n. revert p. induction n as [|n IH]; intros p; cbn; [by rewrite adv_0|].
  rewrite Hr. destruct (f (rest p)) as [k|]; [|by rewrite adv_0]. by rewrite IH, adv_adv.
Qed.

(** At least once. *)
Definition some_of f : reader := λ l, match run f l with O => None | n => Some n end.

Lemma read_plus r f : Bounded f → reading r f → reading (plus r) (some_of f).
Proof.
  intros Hf Hr p. unfold plus, some_of. rewrite Hr, run_eq by done. destruct (f (rest p)) as [n|] eqn:E; [|done]. apply reads_bound in E.
  rewrite (read_star _ f) by done. rewrite adv_adv. cbn. by destruct n; [lia|].
Qed.

(** ** Sets and literals *)

Lemma has_or cs cs' c : has (Rep_or cs cs') c = has cs c || has cs' c.
Proof. unfold has. by rewrite !bs_contains_mem, mem_or. Qed.

Lemma no_percent cs : has cs "%" = false → ∀ l n, pct_reader l = Some n → char_reader (has cs) l = None.
Proof. intros Hcs [|c [|x [|y l]]] n; cbn; try done. case_bool_decide as E; [|done]. by rewrite E, Hcs. Qed.

(** The characters of a path. *)
Definition path_set (gdt : bool) : Rep := Rep_or (pchar gdt) (set_of "/").
Definition nc_set : Rep := Rep_or (Rep_or unreserved sub_delims) (set_of "@").

Lemma has_slash c : has (set_of "/") c = bool_decide (c = "/"%char).
Proof. revert c. apply (forall_ascii (λ c, has (set_of "/") c = bool_decide (c = "/"%char))). vm_compute. reflexivity. Qed.
Lemma has_at c : has (set_of "@") c = bool_decide (c = "@"%char).
Proof. revert c. apply (forall_ascii (λ c, has (set_of "@") c = bool_decide (c = "@"%char))). vm_compute. reflexivity. Qed.

Lemma reading_ext r f g : (∀ l, f l = g l) → reading r f → reading r g.
Proof. intros H Hr p. by rewrite Hr, H. Qed.

Lemma read_nc :
  reading (scoped (orr (orr (orr (match_byteset unreserved) match_pct_encoded) (match_byteset sub_delims)) (match_literal "@"))) (item nc_set).
Proof.
  eapply reading_ext; [|apply read_scoped, read_or; [apply read_or; [apply read_or; [apply read_char|apply read_pct]|apply read_char]|apply read_char]].
  intros l. unfold or_reader, item, or_reader. destruct l as [|c l]; [done|]. unfold char_reader at 1 2 3 4. unfold nc_set. rewrite !has_or, has_at.
  destruct (has unreserved c) eqn:E1; cbn [orb]; [done|]. destruct (pct_reader (c :: l)) as [n|] eqn:E2.
  - pose proof (no_percent nc_set ltac:(vm_compute; reflexivity) _ _ E2) as Hn. cbn in Hn. unfold nc_set in Hn. rewrite !has_or, has_at, E1 in Hn. cbn in Hn. by destruct (_ || _).
  - destruct (has sub_delims c); [done|]. cbn. by case_bool_decide.
Qed.

Section paths.
Context (gdt : bool).

Definition segment_reader : reader := λ l, match l with c :: l' => if bool_decide (c = "/"%char) then Some (S (run (item (pchar gdt)) l')) else None | [] => None end.

#[local] Instance segment_bounded : Bounded segment_reader.
Proof. intros [|c l] n; cbn; [done|]. case_bool_decide; [|done]. intros [= <-]. pose proof (run_le (item (pchar gdt)) l). lia. Qed.

Lemma read_segment : reading (scoped (andr (match_literal "/") (match_segment gdt))) segment_reader.
Proof.
  intros p. unfold scoped, andr, match_literal. rewrite read_char. unfold char_reader, segment_reader. destruct (rest p) as [|c l] eqn:E; [destruct p; cbn in E; by subst|].
  destruct (bool_decide _); [|destruct p; cbn in E; by subst]. unfold match_segment. rewrite (read_star (match_pchar gdt) (item (pchar gdt)) _ (read_item _)), adv_adv. cbn. by rewrite E.
Qed.

(** Segments are read as one run of characters of a path. *)
Lemma path_item l : item (path_set gdt) l = match item (pchar gdt) l with Some n => Some n | None => match l with c :: _ => if bool_decide (c = "/"%char) then Some 1%nat else None | [] => None end end.
Proof.
  destruct l as [|c l]; [done|]. unfold item, or_reader. unfold char_reader. unfold path_set. rewrite has_or, has_slash.
  destruct (has (pchar gdt) c); cbn [orb]; [done|]. destruct (pct_reader (c :: l)) as [n|] eqn:E; [|by case_bool_decide].
  case_bool_decide as Hc; [|done]. subst. exfalso. revert E. cbn. by destruct l as [|? [|]].
Qed.

Lemma run_path l : run (item (path_set gdt)) l = (run (item (pchar gdt)) l + run segment_reader (drop (run (item (pchar gdt)) l) l))%nat.
Proof.
  induction (Nat.lt_wf_0_projected length l) as [l _ IH]. rewrite (run_eq (item (path_set gdt))), path_item, (run_eq (item (pchar gdt))).
  destruct (item (pchar gdt) l) as [n|] eqn:E.
  - pose proof (reads_bound (f := item (pchar gdt)) _ _ E). rewrite IH by (rewrite length_drop; lia). rewrite drop_drop. lia.
  - cbn [Nat.add]. rewrite drop_0, run_eq by apply _. destruct l as [|c l]; [done|]. cbn [segment_reader]. case_bool_decide; [|done]. cbn [drop].
    rewrite drop_0, IH by (cbn; lia). lia.
Qed.

Lemma run_segments l : run segment_reader l = match l with c :: _ => if bool_decide (c = "/"%char) then run (item (path_set gdt)) l else 0%nat | [] => 0%nat end.
Proof.
  destruct l as [|c l]; [done|]. case_bool_decide as Hc; [|rewrite run_eq by apply _; cbn; by rewrite bool_decide_false].
  subst. rewrite run_path. assert (E : item (pchar gdt) ("/"%char :: l) = None); [|by rewrite (run_eq (item (pchar gdt))), E].
  unfold item, or_reader, char_reader. assert (has (pchar gdt) "/" = false) as -> by (destruct gdt; vm_compute; reflexivity). cbn. by destruct l as [|? [|]].
Qed.

Lemma read_segments p : match_segments gdt p = (true, adv (run segment_reader (rest p)) p).
Proof. apply read_star, read_segment. Qed.
End paths.

(** ** What the other rules read *)

Notation digit := (char_reader (has digits)).
Definition starts (c : ascii) l : bool := match l with x :: _ => bool_decide (x = c) | [] => false end.

Fixpoint ip4 (n : nat) l : option nat :=
  match n with
  | O => some_of digit l
  | S n' =>
      match run digit l with
      | O => ip4 n' l
      | k => if starts "." (drop k l) then (λ m, S k + m)%nat <$> ip4 n' (drop (S k) l) else None
      end
  end.

Lemma starts_literal c p : match_literal c p = if starts c (rest p) then (true, adv 1 p) else (false, p).
Proof. unfold match_literal. rewrite read_char. unfold char_reader, starts. destruct (rest p) as [|x l]; [done|]. by case_bool_decide. Qed.

Lemma ipv4_read n : ∀ p, ∃ p', ipv4_groups n p = match ip4 n (rest p) with Some k => (true, adv k p) | None => (false, p') end ∧ m_result p' = m_result p.
Proof.
  induction n as [|n IH]; intros p; cbn [ipv4_groups ip4].
  { exists p. split; [|done]. apply (read_plus _ digit); [apply _|apply read_char]. }
  unfold match_digit at 1. unfold match_byteset. rewrite read_char. rewrite (run_eq digit). destruct (digit (rest p)) as [i|] eqn:E; [|apply IH].
  assert (i = 1%nat) as -> by (revert E; unfold char_reader; destruct (rest p); [done|]; destruct (has digits _); [by intros [= <-]|done]).
  rewrite (read_star _ digit) by apply read_char. cbn [snd Nat.add]. rewrite adv_adv. cbn [rest adv]. set (k := S (run digit (drop 1 (rest p)))).
  change (1 + run digit (drop 1 (rest p)))%nat with k. unfold andr. rewrite starts_literal. cbn [rest adv]. destruct (starts "." (drop k (rest p))); [|by exists (adv k p)].
  rewrite adv_adv. destruct (IH (adv (k + 1) p)) as (p' & -> & Hp'). cbn [rest adv] in *. rewrite Nat.add_1_r in *. exists p'. split; [|done].
  destruct (ip4 n (drop (S k) (rest p))) as [m|]; cbn; [|done]. by rewrite adv_adv.
Qed.

Lemma read_IPv4address : reading match_IPv4address (ip4 3).
Proof.
  intros p. unfold match_IPv4address, scoped. destruct (ipv4_read 3 p) as (p' & -> & Hp'). destruct (ip4 3 (rest p)); [done|]. rewrite Hp'. by destruct p.
Qed.

Definition host_reader : reader := or_reader (ip4 3) (some_of (item reg_name_set)).

Lemma read_host p : match_host p = match host_reader (rest p) with Some n => (true, SetHost (range (cur p) (cur p + Z.of_nat n)) (adv n p)) | None => (false, p) end.
Proof.
  unfold match_host, host_reader. rewrite (read_or _ _ (or_reader (ip4 3) (λ _, None)) (some_of (item reg_name_set))).
  - unfold or_reader. destruct (ip4 3 (rest p)); [done|]. by destruct (some_of _ _).
  - apply read_or; [apply read_IPv4address|]. by intros q.
  - apply read_scoped, read_plus; [apply _|apply read_item].
Qed.

Definition scheme_reader : reader := λ l,
  match l with
  | c :: l' => if has alphas c then let n := run (char_reader (has scheme_set)) l' in if starts ":" (drop n l') then Some (n + 2)%nat else None else None
  | [] => None
  end.

Lemma read_scheme p : match_scheme_and_colon p = match scheme_reader (rest p) with Some n => (true, SetScheme (range (cur p) (cur p + Z.of_nat n - 1)) (adv n p)) | None => (false, p) end.
Proof.
  unfold match_scheme_and_colon, told, scoped, andr, match_alpha, match_byteset. rewrite read_char. unfold char_reader, scheme_reader.
  destruct (rest p) as [|c l] eqn:E; [destruct p; cbn in E; by subst|]. destruct (has alphas c); [|destruct p; cbn in E; by subst].
  rewrite (read_star _ (char_reader (has scheme_set))) by apply read_char. rewrite adv_adv, starts_literal. cbn [rest adv]. rewrite E. cbn [drop Nat.add]. rewrite drop_0.
  destruct (starts _ _); [|destruct p; cbn in E; by subst]. rewrite adv_adv. by replace (S (run (char_reader (has scheme_set)) l) + 1)%nat with (run (char_reader (has scheme_set)) l + 2)%nat by lia.
Qed.

Definition userinfo_reader : reader := λ l,
  if at_before_slash l then let n := run (item userinfo_set) l in if starts "@" (drop n l) then Some (S n) else None else None.

(** The optional component behind the character [c]. *)
Definition after_char (c : ascii) f (set : view → UriParser → UriParser) p : UriParser :=
  if starts c (rest p) then let n := run f (drop 1 (rest p)) in set (range (cur p + 1) (cur p + Z.of_nat (S n))) (adv (S n) p) else p.

Lemma read_after c r f set p : reading r f → optional (told (andr (match_literal c) (star r)) (λ from to, set (range (from + 1) to))) p = (true, after_char c f set p).
Proof.
  intros Hr. unfold optional, told, scoped, andr, after_char. rewrite starts_literal. destruct (starts c (rest p)); [|by destruct p].
  rewrite (read_star _ f) by done. by rewrite adv_adv.
Qed.

Lemma read_authority p : match_authority p =
  let p1 := match userinfo_reader (rest p) with Some n => SetUserInfo (range (cur p) (cur p + Z.of_nat n - 1)) (adv n p) | None => p end in
  match host_reader (rest p1) with
  | Some n => (true, after_char ":" digit SetPort (SetHost (range (cur p1) (cur p1 + Z.of_nat n)) (adv n p1)))
  | None => (false, p1)
  end.
Proof.
  unfold match_authority. assert (Hu : (if maybe_contains_userinfo p then snd (told (andr match_userinfo (match_literal "@")) (λ from to, SetUserInfo (range from (to - 1))) p) else p) =
    match userinfo_reader (rest p) with Some n => SetUserInfo (range (cur p) (cur p + Z.of_nat n - 1)) (adv n p) | None => p end).
  { unfold maybe_contains_userinfo, userinfo_reader. destruct (at_before_slash (rest p)); [|done]. unfold told, scoped, andr, match_userinfo.
    rewrite (read_star _ (item userinfo_set)) by apply read_item. rewrite starts_literal. cbn [rest adv]. destruct (starts _ _); [|by destruct p].
    rewrite adv_adv. by rewrite Nat.add_1_r. }
  cbv zeta. rewrite Hu. rewrite read_host. destruct (host_reader _); [|done]. apply (read_after ":" _ digit), read_char.
Qed.

(** ** What the parser accepts *)

(** The parts of a text; an authority has a user, a host and a port. *)
Record parts := mkParts { scheme : option chars; authority : option (option chars * chars * option chars); path : chars; query : option chars; fragment : option chars }.

Definition before (c : ascii) (o : option chars) : chars := match o with Some a => a ++ [c] | None => [] end.
Definition behind (c : ascii) (o : option chars) : chars := match o with Some a => c :: a | None => [] end.

Definition render_authority (x : option chars * chars * option chars) : chars := let '(user, host, port) := x in before "@" user ++ host ++ behind ":" port.
Definition render_net (o : option (option chars * chars * option chars)) : chars := match o with Some x => "/"%char :: "/"%char :: render_authority x | None => [] end.
Definition render (x : parts) : chars := before ":" (scheme x) ++ render_net (authority x) ++ path x ++ behind "?" (query x) ++ behind "#" (fragment x).

Definition on {A} (o : option A) (P : A → Prop) : Prop := match o with Some a => P a | None => True end.

Definition scheme_ok a : Prop := match a with c :: a' => has alphas c = true ∧ all (char_reader (has scheme_set)) a' | [] => False end.
Definition host_ok a : Prop := host_reader a = Some (length a).
Definition authority_ok (x : option chars * chars * option chars) : Prop :=
  let '(user, host, port) := x in on user (all (item userinfo_set)) ∧ host_ok host ∧ on port (all digit).

Section grammar.
Context (gdt : bool).

(** A path behind an authority; one that begins with a single slash; one that does not
    begin with a slash; one whose first segment has no colon. *)
Definition path_chars a : Prop := all (item (path_set gdt)) a.
Definition abempty a : Prop := path_chars a ∧ (a = [] ∨ starts "/" a).
Definition absolute a : Prop := path_chars a ∧ ∃ a', a = "/"%char :: a' ∧ starts "/" a' = false.
Definition rootless a : Prop := path_chars a ∧ a ≠ [] ∧ starts "/" a = false.
Definition noscheme a : Prop := ∃ a1 a2, a = a1 ++ a2 ∧ a1 ≠ [] ∧ all (item nc_set) a1 ∧ abempty a2.

Definition path_ok (x : parts) : Prop :=
  match authority x, scheme x with
  | Some _, _ => abempty (path x)
  | None, Some _ => path x = []
  | None, None => path x = [] ∨ absolute (path x) ∨ noscheme (path x)
  end.

Definition parts_ok (x : parts) : Prop :=
  on (scheme x) scheme_ok ∧ on (authority x) authority_ok ∧ path_ok x ∧ on (query x) (all (item (query_set gdt))) ∧
  on (fragment x) (all (item (fragment_set gdt))) ∧ (fragment x ≠ None → scheme x ≠ None).

(** Where the parts are. *)
Definition at_ (off : nat) (o : option chars) : view := match o with Some a => (Z.of_nat off, size_of a) | None => (0, 0) end.
Definition places (elsewhere : Z) (x : parts) : Components :=
  let s := length (before ":" (scheme x)) in
  let n := (s + length (render_net (authority x)))%nat in
  let q := (n + length (path x))%nat in
  mkComponents (at_ 0 (scheme x))
    (match authority x with Some (user, _, _) => at_ (s + 2) user | None => (0, 0) end)
    (match authority x with Some (user, host, _) => at_ (s + 2 + length (before "@" user)) (Some host) | None => (0, 0) end)
    (match authority x with Some (user, host, port) => at_ (s + 3 + length (before "@" user) + length host) port | None => (0, 0) end)
    (match authority x, path x with None, [] => (u16 elsewhere, 0) | _, _ => at_ n (Some (path x)) end)
    (at_ (q + 1) (query x))
    (at_ (q + length (behind "?" (query x)) + 1) (fragment x)).
End grammar.

(** ** Every text of the grammar is read *)

(** What cannot be read as an item. *)
Definition closed (cs : Rep) l : Prop := match l with c :: _ => has cs c = false ∧ c ≠ "%"%char | [] => True end.

Lemma closed_item cs l : closed cs l → item cs l = None.
Proof.
  destruct l as [|c l]; [done|]. intros [Hc Hp]. unfold item, or_reader, char_reader. rewrite Hc. destruct l as [|x [|y l]]; try done. unfold pct_reader. by rewrite bool_decide_false.
Qed.
Lemma closed_char cs l : closed cs l → char_reader (has cs) l = None.
Proof. destruct l as [|c l]; [done|]. intros [Hc _]. cbn. by rewrite Hc. Qed.

Lemma read_all cs a b : all (item cs) a → closed cs b → run (item cs) (a ++ b) = length a.
Proof. intros Ha Hb. apply (run_app (item cs)); [exact Ha|by apply closed_item]. Qed.

Lemma starts_app c a b : starts c (a ++ c :: b) = match a with x :: _ => bool_decide (x = c) | [] => true end.
Proof. destruct a; cbn; [by rewrite bool_decide_true|done]. Qed.

Lemma scheme_reads a b : scheme_ok a → scheme_reader (a ++ ":"%char :: b) = Some (length a + 1)%nat.
Proof.
  destruct a as [|c a]; [done|]. intros [Hc Ha]. cbn. rewrite Hc. rewrite (run_app (char_reader (has scheme_set)) a (":"%char :: b) Ha) by (vm_compute; reflexivity). rewrite drop_app_length. cbn. f_equal. lia.
Qed.

(** The characters of items. *)
Definition esc (c : ascii) : bool := bool_decide (c = "%"%char) || has hex c || bool_decide (c = "u"%char).

Lemma pct_chars l n : pct_reader l = Some n → Forall (λ c, esc c = true) (take n l).
Proof.
  assert (Hp : ∀ c, c = "%"%char → esc c = true) by (by intros c ->). assert (Hu : ∀ c, c = "u"%char → esc c = true) by (by intros c ->).
  assert (Hh : ∀ c, has hex c = true → esc c = true) by (intros c Hc; unfold esc; rewrite Hc; by destruct (bool_decide _)).
  destruct l as [|c [|x [|y l]]]; try done. cbn. case_bool_decide; [|done]. destruct (has hex x && has hex y) eqn:E1.
  - apply andb_prop in E1 as [? ?]. intros [= <-]. cbn. rewrite take_0. repeat constructor; auto.
  - destruct l as [|d [|e [|f l]]]; try done. destruct (_ && has hex f) eqn:E2; [|done]. apply andb_prop in E2 as [[[[?%bool_decide_eq_true ?]%andb_prop ?]%andb_prop ?]%andb_prop ?].
    intros [= <-]. cbn. rewrite take_0. repeat constructor; auto.
Qed.

Lemma item_chars cs a : all (item cs) a → Forall (λ c, has cs c || esc c = true) a.
Proof.
  unfold all. induction (Nat.lt_wf_0_projected length a) as [a _ IH]. rewrite run_eq by apply _. destruct (item cs a) as [n|] eqn:E.
  - pose proof (reads_bound (f := item cs) _ _ E) as Hn. intros Ha. rewrite <-(take_drop n a). apply Forall_app. split.
    + revert E. unfold item, or_reader. destruct (char_reader (has cs) a) as [m|] eqn:Ec.
      * destruct a as [|c a]; [done|]. revert Ec. cbn. destruct (has cs c) eqn:Hc; [|done]. intros [= <-] [= <-]. cbn. rewrite take_0. constructor; [by rewrite Hc|done].
      * intros Hp%pct_chars. eapply Forall_impl; [exact Hp|]. cbn. intros c ->. apply orb_true_r.
    + apply IH; rewrite length_drop; lia.
  - destruct a; [constructor|]. cbn. lia.
Qed.

Lemma char_chars cs a : all (char_reader (has cs)) a → Forall (λ c, has cs c = true) a.
Proof.
  unfold all. induction a as [|c a IH]; [constructor|]. rewrite run_eq by apply _. cbn. destruct (has cs c) eqn:Hc; [|cbn; lia]. cbn. rewrite drop_0. intros [= Ha]. constructor; auto.
Qed.

Lemma run_char_app cs a b : char_reader (has cs) b = None → run (char_reader (has cs)) (a ++ b) = run (char_reader (has cs)) a.
Proof.
  intros Hb. induction a as [|c a IH]; rewrite run_eq by apply _; [cbn [app]; by rewrite Hb|]. rewrite (run_eq _ (c :: a)). cbn. destruct (has cs c); [|done].
  cbn. by rewrite !drop_0, IH.
Qed.

Lemma starts_cut c a b : starts c b = false → starts c (a ++ b) = starts c a.
Proof. by destruct a. Qed.

Lemma ip4_app n : ∀ a b, digit b = None → starts "." b = false → ip4 n (a ++ b) = ip4 n a.
Proof.
  induction n as [|n IH]; intros a b Hb Hdot; cbn [ip4]; unfold some_of; rewrite run_char_app by done; [done|].
  pose proof (run_le digit a) as Hle. destruct (run digit a) as [|k]; [by apply IH|]. rewrite drop_app_le, starts_cut by done.
  destruct (starts "." (drop (S k) a)) eqn:E; [|done]. assert (S (S k) ≤ length a)%nat.
  { assert (length (drop (S k) a) ≠ 0%nat) as Hne by (by destruct (drop (S k) a)). rewrite length_drop in Hne. lia. }
  by rewrite drop_app_le, IH.
Qed.

(** What may come behind a host. *)
Definition ends (b : chars) : Prop := match b with c :: _ => c ∈ [":"; "/"; "?"; "#"]%char | [] => True end.

Lemma ends_spec b : ends b → digit b = None ∧ starts "." b = false ∧ closed reg_name_set b.
Proof.
  destruct b as [|c b]; [done|]. intros Hc. cbn in Hc. rewrite !elem_of_cons, elem_of_nil in Hc. by destruct Hc as [-> | [-> | [-> | [-> | []]]]].
Qed.

Lemma host_reads a b : host_ok a → ends b → host_reader (a ++ b) = Some (length a).
Proof.
  intros Ha (Hd & Hdot & Hcl)%ends_spec. unfold host_ok, host_reader, or_reader in *. rewrite ip4_app by done. destruct (ip4 3 a); [done|].
  unfold some_of in *. destruct (run (item reg_name_set) a) as [|k] eqn:E; [done|]. injection Ha as Ha. rewrite read_all by (done || (unfold all; congruence)). by rewrite <-Ha.
Qed.

Lemma run_char_chars cs l : Forall (λ c, has cs c = true) (take (run (char_reader (has cs)) l) l).
Proof. apply char_chars, (run_all (char_reader (has cs))). Qed.

Definition host_char (c : ascii) : Prop := has reg_name_set c || esc c = true.

Lemma digit_host c : has digits c = true → host_char c.
Proof. revert c. apply (forall_ascii (λ c, has digits c = true → host_char c)). vm_compute. reflexivity. Qed.

Lemma run_digit_host l : Forall host_char (take (run digit l) l).
Proof. eapply Forall_impl; [apply run_char_chars|]. apply digit_host. Qed.

Lemma ip4_chars n : ∀ l k, ip4 n l = Some k → Forall host_char (take k l).
Proof.
  induction n as [|n IH]; intros l k; cbn [ip4].
  - unfold some_of. pose proof (run_digit_host l) as H. destruct (run digit l); [done|]. by intros [= <-].
  - pose proof (run_digit_host l) as H. destruct (run digit l) as [|i]; [by apply IH|]. destruct (starts "." (drop (S i) l)) eqn:E; [|done].
    destruct (ip4 n (drop (S (S i)) l)) as [m|] eqn:Em; [|done]. intros [= <-]. apply IH in Em.
    replace (S (S (i + m))) with (S i + S m)%nat by lia. rewrite <-take_take_drop. apply Forall_app. split; [done|].
    replace (S (S i)) with (S i + 1)%nat in Em by lia. rewrite <-drop_drop in Em. destruct (drop (S i) l) as [|c l']; [done|]. cbn in *. rewrite drop_0 in Em.
    apply bool_decide_eq_true in E. subst. by constructor.
Qed.

Lemma host_chars a : host_ok a → Forall host_char a.
Proof.
  unfold host_ok, host_reader, or_reader. destruct (ip4 3 a) as [k|] eqn:E.
  - intros [= ->]. apply ip4_chars in E. by rewrite take_ge in E by lia.
  - unfold some_of. destruct (run (item reg_name_set) a) as [|k] eqn:Er; [done|]. intros [= Hk]. apply item_chars. unfold all. lia.
Qed.

(** Users have no slash, hosts and ports no at sign. *)
Lemma user_char c : has userinfo_set c || esc c = true → c ∉ ["/"; "?"; "#"; "@"]%char.
Proof. revert c. apply (forall_ascii (λ c, has userinfo_set c || esc c = true → c ∉ ["/"; "?"; "#"; "@"]%char)). vm_compute. reflexivity. Qed.
Lemma host_char_at c : host_char c → c ≠ "@"%char.
Proof. revert c. apply (forall_ascii (λ c, host_char c → c ≠ "@"%char)). vm_compute. reflexivity. Qed.

Lemma at_before_slash_user a b : all (item userinfo_set) a → at_before_slash (a ++ "@"%char :: b) = true.
Proof.
  intros Ha%item_chars. induction Ha as [|c a Hc _ IH]; cbn; [done|]. apply user_char in Hc. case_bool_decide; [done|]. rewrite bool_decide_false; [done|]. set_solver.
Qed.

Lemma user_reads a b : all (item userinfo_set) a → userinfo_reader (a ++ "@"%char :: b) = Some (length a + 1)%nat.
Proof.
  intros Ha. unfold userinfo_reader. rewrite at_before_slash_user by done. rewrite (read_all userinfo_set a ("@"%char :: b) Ha) by (vm_compute; done).
  rewrite drop_app_length. cbn. f_equal. lia.
Qed.

(** A delimiter that is neither in [a] nor at the front of [b], before which a run of
    other characters cannot end. *)
Lemma no_delimiter (P : ascii → Prop) (d : ascii) a b n : Forall (λ c, c ≠ d) a → match b with c :: _ => ¬ P c ∧ c ≠ d | [] => True end →
  Forall P (take n (a ++ b)) → starts d (drop n (a ++ b)) = false.
Proof.
  intros Ha Hb Hu. destruct (starts d (drop n (a ++ b))) eqn:E; [exfalso|done].
  assert (Hlk : (a ++ b) !! n = Some d).
  { rewrite <-(Nat.add_0_r n), <-lookup_drop. destruct (drop n (a ++ b)) as [|x l]; [done|]. cbn in *. apply bool_decide_eq_true in E. by subst. }
  destruct (decide (n < length a)%nat) as [Hn|Hn].
  - rewrite lookup_app_l in Hlk by done. rewrite Forall_lookup in Ha. by apply Ha in Hlk.
  - rewrite lookup_app_r in Hlk by lia. destruct b as [|c b]; [done|]. destruct Hb as [Hc Hd]. destruct (decide (n = length a)) as [->|].
    + rewrite Nat.sub_diag in Hlk. injection Hlk as ->. done.
    + rewrite Forall_lookup in Hu. specialize (Hu (length a) c). rewrite lookup_take_lt, lookup_app_r, Nat.sub_diag in Hu by lia. by apply Hc, Hu.
Qed.

Lemma no_user a b : Forall (λ c, c ≠ "@"%char) a → match b with c :: _ => c ∈ ["/"; "?"; "#"]%char | [] => True end → userinfo_reader (a ++ b) = None.
Proof.
  intros Ha Hb. unfold userinfo_reader. destruct (at_before_slash _); [|done].
  rewrite (no_delimiter (λ c, has userinfo_set c || esc c = true)); [done|done| |apply item_chars, (run_all (item userinfo_set))].
  destruct b as [|c b]; [done|]. split; [intros Hc%user_char|intros ->]; set_solver.
Qed.

Lemma adv_app a b c k : adv (length a) (mkParser c (a ++ b) k) = mkParser (c + size_of a) b k.
Proof. unfold adv. cbn. by rewrite drop_app_length. Qed.

Lemma after_reads c f (set : view → UriParser → UriParser) o b z k : on o (λ a, run f (a ++ b) = length a) → (o = None → starts c b = false) →
  after_char c f set (mkParser z (behind c o ++ b) k) =
    match o with Some a => set (range (z + 1) (z + 1 + size_of a)) (mkParser (z + size_of (behind c o)) b k) | None => mkParser z b k end.
Proof.
  intros Ho Hn. unfold after_char. destruct o as [a|]; cbn.
  - rewrite bool_decide_true by done. cbn in Ho. rewrite drop_0, Ho. f_equal; [unfold range; f_equal; f_equal; lia|]. unfold adv. cbn. rewrite drop_app_length. done.
  - by rewrite Hn.
Qed.

(** What the authority tells the receiver; it begins at [z]. *)
Definition tell_authority (z : Z) (x : option chars * chars * option chars) (k : Components) : Components :=
  let '(user, host, port) := x in
  let h := z + size_of (before "@" user) in
  mkComponents (k_scheme k)
    (match user with Some a => range z (z + size_of a) | None => k_userinfo k end)
    (range h (h + size_of host))
    (match port with Some a => range (h + size_of host + 1) (h + size_of host + 1 + size_of a) | None => k_port k end)
    (k_path k) (k_query k) (k_fragment k).

Definition path_start (b : chars) : Prop := match b with c :: _ => c ∈ ["/"; "?"; "#"]%char | [] => True end.

Lemma path_start_ends b : path_start b → ends b ∧ digit b = None ∧ starts ":" b = false.
Proof. destruct b as [|c b]; [done|]. intros Hc. cbn in Hc. rewrite !elem_of_cons, elem_of_nil in Hc. by destruct Hc as [-> | [-> | [-> | []]]]; (split; [unfold ends; set_solver|]). Qed.

Lemma digits_at a : all digit a → Forall (λ c, c ≠ "@"%char) a.
Proof. intros Ha%char_chars. eapply Forall_impl; [exact Ha|]. intros c Hc. by apply host_char_at, digit_host. Qed.

Lemma authority_reads x z b k : authority_ok x → path_start b →
  match_authority (mkParser z (render_authority x ++ b) k) = (true, mkParser (z + size_of (render_authority x)) b (tell_authority z x k)).
Proof.
  destruct x as [[user host] port]. intros (Hu & Hh & Hp) Hb. destruct (path_start_ends b Hb) as (He & Hd & Hc). rewrite read_authority. cbn [rest cur].
  set (p1 := mkParser (z + size_of (before "@" user)) (host ++ behind ":" port ++ b)
    (mkComponents (k_scheme k) (match user with Some a => range z (z + size_of a) | None => k_userinfo k end) (k_host k) (k_port k) (k_path k) (k_query k) (k_fragment k))).
  assert (match userinfo_reader (render_authority (user, host, port) ++ b) with
          | Some n => SetUserInfo (range z (z + Z.of_nat n - 1)) (adv n (mkParser z (render_authority (user, host, port) ++ b) k))
          | None => mkParser z (render_authority (user, host, port) ++ b) k end = p1) as ->.
  { unfold render_authority, p1. destruct user as [a|]; cbn [before].
    - rewrite <-!app_assoc. cbn [app]. rewrite user_reads by done. unfold SetUserInfo, with_result. cbn [adv cur rest m_result].
      rewrite cons_middle, app_assoc, drop_app_length' by (rewrite length_app; cbn; lia). rewrite !length_app. cbn.
 by replace (z + Z.of_nat (length a + 1) - 1) with (z + size_of a) by lia.
    - cbn [app]. rewrite <-app_assoc, app_assoc, no_user; [|apply Forall_app; split|done].
      + rewrite <-app_assoc. destruct k. cbn. by rewrite Z.add_0_r.
      + eapply Forall_impl; [by apply host_chars|]. apply host_char_at.
      + destruct port as [a|]; cbn; [|constructor]. constructor; [done|]. by apply digits_at. }
  cbv zeta. unfold p1. cbn [rest cur]. rewrite host_reads; [|done|destruct port; cbn; [set_solver|done]]. rewrite adv_app. unfold SetHost, with_result. cbn [cur rest m_result].
  rewrite after_reads; [|destruct port as [a|]; cbn; [by apply (run_app digit)|done]|done].
  unfold render_authority. rewrite !length_app. destruct port as [a|]; cbn [behind length]; unfold SetPort, with_result; cbn; do 2 f_equal; lia.
Qed.

Definition tell_path (v : view) (k : Components) : Components := mkComponents (k_scheme k) (k_userinfo k) (k_host k) (k_port k) v (k_query k) (k_fragment k).

(** What may come behind a path. *)
Definition path_end (b : chars) : Prop := match b with c :: _ => c ∈ ["?"; "#"]%char | [] => True end.

Section reading_paths.
Context (gdt : bool) (elsewhere : Z).

Lemma path_end_closed b : path_end b → closed (path_set gdt) b ∧ closed (pchar gdt) b ∧ closed nc_set b ∧ starts "/" b = false ∧ path_start b.
Proof.
  destruct b as [|c b]; [done|]. intros Hc. cbn in Hc. rewrite !elem_of_cons, elem_of_nil in Hc.
  destruct Hc as [-> | [-> | []]]; (repeat split; [destruct gdt; vm_compute; reflexivity|done|destruct gdt; vm_compute; reflexivity|done|done|unfold path_start; set_solver]).
Qed.

Lemma segments_read a b : abempty gdt a → path_end b → run (segment_reader gdt) (a ++ b) = length a.
Proof.
  intros [Ha Hs] (Hcl & _ & _ & Hsl & _)%path_end_closed. rewrite run_segments. destruct Hs as [->|Hs].
  - cbn. destruct b; [done|]. cbn in Hsl. by rewrite Hsl.
  - destruct a as [|c a]; [done|]. cbn [app]. cbn in Hs. apply Is_true_true in Hs. rewrite Hs. by apply (read_all (path_set gdt) (c :: a) b).
Qed.

Lemma abempty_reads a b z k : abempty gdt a → path_end b →
  match_path_abempty gdt (mkParser z (a ++ b) k) = (true, mkParser (z + size_of a) b (tell_path (range z (z + size_of a)) k)).
Proof. intros Ha Hb. unfold match_path_abempty, set_path. rewrite read_segments. cbn [rest]. rewrite segments_read by done. by rewrite adv_app. Qed.

(** A segment that is not empty, and more segments. *)
Lemma nz_reads a b p : rootless gdt a → path_end b → rest p = a ++ b → andr (match_segment_nz gdt) (match_segments gdt) p = (true, adv (length a) p).
Proof.
  intros (Ha & Hne & Hs) (Hcl & _)%path_end_closed Hp. unfold andr, match_segment_nz. rewrite (read_plus _ (item (pchar gdt)) ltac:(apply _) (read_item _)), Hp.
  pose proof (read_all (path_set gdt) a b Ha Hcl) as Hrun. rewrite run_path in Hrun. unfold some_of. set (n := run (item (pchar gdt)) (a ++ b)) in *.
  assert (n ≠ 0%nat). { destruct a as [|c a]; [done|]. intros E. rewrite E, drop_0, run_segments in Hrun. cbn [app] in Hrun. cbn in Hs. by rewrite Hs in Hrun. }
  destruct n as [|n]; [done|]. rewrite read_segments. cbn [rest adv]. rewrite Hp, adv_adv, Hrun. done.
Qed.

Lemma slash_path_chars a : path_chars gdt ("/"%char :: a) ↔ path_chars gdt a.
Proof.
  unfold path_chars, all. rewrite run_eq, path_item by apply _. rewrite (closed_item (pchar gdt) ("/"%char :: a)) by (split; [destruct gdt; vm_compute; reflexivity|done]).
  rewrite bool_decide_true by done. cbn [drop length]. rewrite drop_0. lia.
Qed.

Lemma not_slash p : starts "/" (rest p) = false → match_path_absolute gdt p = (false, p).
Proof. intros H. unfold match_path_absolute, set_path, andr. by rewrite starts_literal, H. Qed.

Lemma absolute_reads a b z k : absolute gdt a → path_end b →
  match_path_absolute gdt (mkParser z (a ++ b) k) = (true, mkParser (z + size_of a) b (tell_path (range z (z + size_of a)) k)).
Proof.
  intros (Ha & a' & -> & Hs) Hb. destruct (path_end_closed b Hb) as (Hcl & Hpc & _ & Hsl & _). unfold match_path_absolute, set_path, andr at 1. rewrite starts_literal. cbn [rest app starts].
  rewrite bool_decide_true by done.
  rewrite slash_path_chars in Ha.
  unfold optional. assert (Hopt : snd (andr (match_segment_nz gdt) (match_segments gdt) (adv 1 (mkParser z ("/"%char :: a' ++ b) k))) = mkParser (z + 1 + size_of a') b k).
  { destruct a' as [|c a'].
    - unfold andr, match_segment_nz. rewrite (read_plus _ (item (pchar gdt)) ltac:(apply _) (read_item _)). cbn. unfold some_of. rewrite run_eq, closed_item by (done || apply _).
      unfold adv. cbn. by rewrite Z.add_0_r.
    - rewrite (nz_reads (c :: a') b); [|done|done|done]. rewrite adv_adv. unfold adv. cbn. rewrite drop_app_length. f_equal. lia. }
  rewrite Hopt. cbn [cur]. unfold SetPath, with_result, tell_path. cbn. by replace (z + 1 + size_of a') with (z + Z.pos (Pos.of_succ_nat (length a'))) by lia.
Qed.

Lemma noscheme_reads a b z k : noscheme gdt a → path_end b →
  match_path_noscheme gdt (mkParser z (a ++ b) k) = (true, mkParser (z + size_of a) b (tell_path (range z (z + size_of a)) k)).
Proof.
  intros (a1 & a2 & -> & Hne & Hall & Hab) Hb. unfold match_path_noscheme, set_path, andr, match_segment_nz_nc. rewrite (read_plus _ _ ltac:(apply _) read_nc). cbn [rest].
  rewrite <-app_assoc. unfold some_of. rewrite (read_all nc_set a1 (a2 ++ b) Hall).
  - destruct (length a1) as [|n] eqn:El; [by destruct a1|]. rewrite <-El, adv_app. rewrite read_segments. cbn [rest]. rewrite segments_read by done. rewrite adv_app.
    cbn [cur]. unfold SetPath, with_result, tell_path. cbn [m_result cur rest]. rewrite length_app.
    by replace (z + size_of a1 + size_of a2) with (z + Z.of_nat (length a1 + length a2)) by lia.
  - destruct Hab as [_ [->|Hs]]; [by apply path_end_closed|]. destruct a2 as [|c a2]; [done|]. cbn in Hs. apply Is_true_true, bool_decide_eq_true in Hs. by subst.
Qed.

(** Nothing is a path, too. *)
Lemma no_segment b z k : path_end b → match_segment_nz gdt (mkParser z b k) = (false, mkParser z b k) ∧ match_segment_nz_nc (mkParser z b k) = (false, mkParser z b k).
Proof.
  intros (_ & Hp & Hn & _)%path_end_closed. unfold match_segment_nz, match_segment_nz_nc. rewrite (read_plus _ (item (pchar gdt)) ltac:(apply _) (read_item _)), (read_plus _ _ ltac:(apply _) read_nc).
  cbn [rest]. unfold some_of. by rewrite (run_eq (item (pchar gdt))), (run_eq (item nc_set)), !closed_item by (done || apply _).
Qed.

Lemma empty_reads b z k (r : rule) : path_end b → r = match_path_rootless gdt ∨ r = match_path_noscheme gdt →
  orr (orr (match_path_absolute gdt) r) (match_path_empty elsewhere) (mkParser z b k) = (true, mkParser z b (tell_path (u16 elsewhere, 0) k)).
Proof.
  intros Hb Hr. destruct (no_segment b z k Hb) as [H1 H2]. destruct (path_end_closed b Hb) as (_ & _ & _ & Hs & _). unfold orr. rewrite not_slash by done.
  destruct Hr as [-> | ->]; [unfold match_path_rootless|unfold match_path_noscheme]; unfold set_path, andr; [rewrite H1|rewrite H2]; done.
Qed.
End reading_paths.

Lemma no_slashes p : starts "/" (rest p) = false ∨ starts "/" (drop 1 (rest p)) = false → match_slashes p = (false, p).
Proof.
  unfold match_slashes. destruct (rest p) as [|c1 [|c2 l]]; [done..|]. cbn. rewrite !bool_decide_eq_false. intros H. rewrite bool_decide_false; [done|]. tauto.
Qed.

Lemma scheme_char c : has scheme_set c = true → c ∉ [":"; "/"; "?"; "#"]%char.
Proof. revert c. apply (forall_ascii (λ c, has scheme_set c = true → c ∉ [":"; "/"; "?"; "#"]%char)). vm_compute. reflexivity. Qed.
Lemma nc_char c : has nc_set c || esc c = true → c ∉ [":"; "/"; "?"; "#"]%char.
Proof. revert c. apply (forall_ascii (λ c, has nc_set c || esc c = true → c ∉ [":"; "/"; "?"; "#"]%char)). vm_compute. reflexivity. Qed.

Lemma alpha_scheme c : has alphas c = true → has scheme_set c = true.
Proof. revert c. apply (forall_ascii (λ c, has alphas c = true → has scheme_set c = true)). vm_compute. reflexivity. Qed.

(** A text without a scheme. *)
Lemma no_scheme a b : Forall (λ c, c ≠ ":"%char) a → path_start b → scheme_reader (a ++ b) = None.
Proof.
  intros Ha Hb. unfold scheme_reader. destruct (a ++ b) as [|c l] eqn:E; [done|]. destruct (has alphas c) eqn:Hc; [|done].
  assert (Hstart : ∀ n, Forall (λ c, has scheme_set c = true) (take n l) → starts ":" (drop (S n) (a ++ b)) = false).
  { intros n Hn. apply (no_delimiter (λ c, has scheme_set c = true)); [done| |].
    - destruct b as [|x b]; [done|]. cbn in Hb. split; [intros Hx%scheme_char|intros ->]; set_solver.
    - rewrite E. cbn. constructor; [by apply alpha_scheme|done]. }
  rewrite E in Hstart. cbn in Hstart. cbv zeta. rewrite Hstart; [done|]. apply run_char_chars.
Qed.

Section complete.
Context (gdt : bool) (elsewhere : Z).

Definition tail_of (x : parts) : chars := behind "?" (query x) ++ behind "#" (fragment x).

Lemma tail_path_end x : path_end (tail_of x).
Proof. unfold tail_of. destruct (query x), (fragment x); cbn; set_solver || done. Qed.

Definition tell_query (v : view) (k : Components) : Components := mkComponents (k_scheme k) (k_userinfo k) (k_host k) (k_port k) (k_path k) v (k_fragment k).
Definition tell_fragment (v : view) (k : Components) : Components := mkComponents (k_scheme k) (k_userinfo k) (k_host k) (k_port k) (k_path k) (k_query k) v.

Definition tell_tail (z : Z) (x : parts) (k : Components) : Components :=
  let k1 := match query x with Some a => tell_query (range (z + 1) (z + 1 + size_of a)) k | None => k end in
  let y := z + size_of (behind "?" (query x)) in
  match fragment x with Some a => tell_fragment (range (y + 1) (y + 1 + size_of a)) k1 | None => k1 end.

Lemma read_query p : ask_query gdt p = (true, after_char "?" (item (query_set gdt)) SetQuery p).
Proof. apply (read_after "?" _ (item (query_set gdt))), read_item. Qed.
Lemma read_fragment p : ask_fragment gdt p = (true, after_char "#" (item (fragment_set gdt)) SetFragment p).
Proof. apply (read_after "#" _ (item (fragment_set gdt))), read_item. Qed.

Lemma query_reads x z k : on (query x) (all (item (query_set gdt))) →
  ask_query gdt (mkParser z (tail_of x) k) =
    (true, mkParser (z + size_of (behind "?" (query x))) (behind "#" (fragment x)) (match query x with Some a => tell_query (range (z + 1) (z + 1 + size_of a)) k | None => k end)).
Proof.
  intros Hq. rewrite read_query. unfold tail_of. rewrite after_reads.
  - destruct (query x); cbn; [done|]. by rewrite Z.add_0_r.
  - destruct (query x) as [a|]; [|done]. cbn in *. apply read_all; [done|]. destruct (fragment x); cbn; [|done]. split; [destruct gdt; vm_compute; reflexivity|done].
  - by destruct (fragment x).
Qed.

Lemma tail_reads x z k : on (query x) (all (item (query_set gdt))) → on (fragment x) (all (item (fragment_set gdt))) →
  ask_fragment gdt (snd (ask_query gdt (mkParser z (tail_of x) k))) = (true, mkParser (z + size_of (tail_of x)) [] (tell_tail z x k)).
Proof.
  intros Hq Hf. rewrite query_reads by done. cbn [snd]. rewrite read_fragment. rewrite <-(app_nil_r (behind "#" (fragment x))) at 1. rewrite after_reads.
  - unfold tail_of, tell_tail. rewrite length_app. destruct (fragment x); cbn [behind length app]; unfold SetFragment, with_result; cbn; do 2 f_equal; lia.
  - destruct (fragment x) as [a|]; [|done]. cbn in *. by rewrite app_nil_r.
  - done.
Qed.
(** What the part in front of the query tells the receiver; it begins at [z]. *)
Definition tell_net (z : Z) (x : parts) (k : Components) : Components :=
  let y := z + size_of (render_net (authority x)) in
  tell_path (match authority x, path x with None, [] => (u16 elsewhere, 0) | _, _ => range y (y + size_of (path x)) end)
    (match authority x with Some u => tell_authority (z + 2) u k | None => k end).

Lemma abempty_start a b : abempty gdt a → path_end b → path_start (a ++ b).
Proof.
  intros [_ [->|Hs]] Hb; [by apply (path_end_closed gdt)|]. destruct a as [|c a]; [done|]. cbn in *. apply bool_decide_spec in Hs as ->. set_solver.
Qed.

Lemma net_reads u a b z k : authority_ok u → abempty gdt a → path_end b →
  scoped (andr (andr match_slashes match_authority) (match_path_abempty gdt)) (mkParser z (render_net (Some u) ++ a ++ b) k) =
    (true, mkParser (z + size_of (render_net (Some u)) + size_of a) b
       (tell_path (range (z + size_of (render_net (Some u))) (z + size_of (render_net (Some u)) + size_of a)) (tell_authority (z + 2) u k))).
Proof.
  intros Hu Ha Hb. unfold scoped, andr. cbn [render_net app]. unfold match_slashes. cbn [rest]. rewrite bool_decide_true by done. cbn [cur m_result].
  rewrite authority_reads; [|done|by apply abempty_start]. rewrite abempty_reads by done.
  cbn [length]. by replace (z + Z.of_nat (S (S (length (render_authority u))))) with (z + 2 + size_of (render_authority u)) by lia.
Qed.

Lemma no_net p : starts "/" (rest p) = false ∨ starts "/" (drop 1 (rest p)) = false →
  scoped (andr (andr match_slashes match_authority) (match_path_abempty gdt)) p = (false, p).
Proof. intros H. unfold scoped, andr. rewrite no_slashes by done. by destruct p. Qed.

Lemma absolute_no_net a b : absolute gdt a → path_end b → starts "/" (drop 1 (a ++ b)) = false.
Proof.
  intros (_ & a' & -> & Hs) (_ & _ & _ & Hb & _)%(path_end_closed gdt). cbn. rewrite drop_0. destruct a'; [done|exact Hs].
Qed.

Lemma hier_reads x z k : on (authority x) authority_ok → path_ok gdt x → scheme x ≠ None →
  match_hier_part gdt elsewhere (mkParser z (render_net (authority x) ++ path x ++ tail_of x) k) =
    (true, mkParser (z + size_of (render_net (authority x)) + size_of (path x)) (tail_of x) (tell_net z x k)).
Proof.
  intros Hu Hp Hs. pose proof (tail_path_end x) as Hb. destruct (path_end_closed gdt _ Hb) as (_ & _ & _ & Hsl & _).
  unfold match_hier_part, tell_net, path_ok in *. destruct (authority x) as [u|]; [by rewrite net_reads|].
  destruct (scheme x); [|done]. rewrite Hp. cbn [render_net app length]. rewrite !Z.add_0_r. rewrite no_net by (cbn; auto). rewrite empty_reads by auto. done.
Qed.

Lemma noscheme_slash a b : noscheme gdt a → starts "/" (a ++ b) = false ∧ a ≠ [].
Proof.
  intros (a1 & a2 & -> & Hne & Ha%item_chars & _). destruct a1 as [|c a1]; [done|]. split; [|done]. cbn. apply Forall_cons in Ha as [Hc%nc_char _].
  apply bool_decide_eq_false. set_solver.
Qed.

Lemma relative_reads x z k : on (authority x) authority_ok → path_ok gdt x → scheme x = None →
  match_relative_part gdt elsewhere (mkParser z (render_net (authority x) ++ path x ++ tail_of x) k) =
    (true, mkParser (z + size_of (render_net (authority x)) + size_of (path x)) (tail_of x) (tell_net z x k)).
Proof.
  intros Hu Hp Hs. pose proof (tail_path_end x) as Hb. destruct (path_end_closed gdt _ Hb) as (_ & _ & _ & Hsl & _).
  unfold match_relative_part, tell_net, path_ok in *. rewrite Hs in Hp. destruct (authority x) as [u|]; [by rewrite net_reads|].
  cbn [render_net app length]. rewrite !Z.add_0_r. destruct Hp as [-> | [Ha | Ha]].
  - cbn [app length]. rewrite no_net by (cbn; auto). unfold scoped. rewrite empty_reads by auto. by rewrite Z.add_0_r.
  - rewrite no_net by (right; by apply absolute_no_net). unfold scoped, orr. rewrite absolute_reads by done. by destruct Ha as (_ & ? & -> & _).
  - destruct (noscheme_slash _ (tail_of x) Ha) as [Hsl' Hne]. rewrite no_net by (cbn; auto). unfold scoped, orr. rewrite not_slash by done. rewrite noscheme_reads by done.
    by destruct (path x).
Qed.

Lemma relative_no_scheme x : path_ok gdt x → scheme x = None → scheme_reader (render x) = None.
Proof.
  intros Hp Hs. pose proof (tail_path_end x) as Hb. destruct (path_end_closed gdt _ Hb) as (_ & _ & _ & _ & Hst).
  unfold render, path_ok in *. fold (tail_of x). rewrite Hs in *. cbn [before app]. destruct (authority x) as [u|]; [done|]. cbn [render_net app].
  destruct Hp as [-> | [(_ & a & -> & _) | (a1 & a2 & -> & _ & Ha & Hab)]]; [by apply (no_scheme [])|done|].
  rewrite <-app_assoc. apply no_scheme; [|by apply abempty_start]. eapply Forall_impl; [by apply item_chars|]. cbn. intros c Hc%nc_char. set_solver.
Qed.

Definition tell_scheme (o : option chars) (k : Components) : Components :=
  mkComponents (match o with Some a => range 0 (0 + size_of a) | None => k_scheme k end) (k_userinfo k) (k_host k) (k_port k) (k_path k) (k_query k) (k_fragment k).

Definition tell (x : parts) : Components :=
  let y := size_of (before ":" (scheme x)) in
  tell_tail (y + size_of (render_net (authority x)) + size_of (path x)) x (tell_net y x (tell_scheme (scheme x) Components_new)).

Lemma range_small from n : 0 ≤ from → 0 ≤ n → from + n ≤ 65535 → range from (from + n) = (from, n).
Proof. intros. unfold range, u16. rewrite !Z.mod_small by lia. f_equal. lia. Qed.

Lemma at_range (from : Z) (off : nat) a : from = Z.of_nat off → from + size_of a ≤ 65535 → range from (from + size_of a) = at_ off (Some a).
Proof. intros -> Hle. by rewrite range_small by lia. Qed.

Lemma tell_places x : size_of (render x) ≤ 65535 → tell x = places elsewhere x.
Proof.
  destruct x as [s u a q f]. unfold tell, tell_tail, tell_net, places, render. cbn [scheme authority path query fragment].
  rewrite !length_app. intros Hle. unfold tell_path, tell_query, tell_fragment, tell_scheme.
  assert (Hpath : ∀ y, y = Z.of_nat (length (before ":" s) + length (render_net u)) → range y (y + size_of a) = at_ (length (before ":" s) + length (render_net u)) (Some a)).
  { intros y Hy. apply at_range; [done|lia]. }
  destruct u as [[[user host] port]|].
  - cbn [render_net render_authority length] in *. rewrite !length_app in *. cbn [k_scheme k_userinfo k_host k_port k_path k_query k_fragment tell_authority].
    rewrite Hpath by lia.
    destruct s, user, port, q, f; cbn [before behind length k_scheme k_userinfo k_host k_port k_path k_query k_fragment] in *; rewrite ?length_app in *; cbn [length] in *;
      f_equal; try done; apply at_range; lia.
  - cbn [render_net length] in *. destruct s, q, f, a; cbn [before behind length k_scheme k_userinfo k_host k_port k_path k_query k_fragment] in *; rewrite ?length_app in *; cbn [length] in *;
      f_equal; try done; (apply at_range || apply Hpath); cbn [length]; lia.
Qed.

Lemma scheme_places x z k : on (scheme x) scheme_ok → scheme x ≠ None → z = 0 →
  match_scheme_and_colon (mkParser z (render x) k) =
    (true, mkParser (size_of (before ":" (scheme x))) (render_net (authority x) ++ path x ++ tail_of x) (tell_scheme (scheme x) k)).
Proof.
  intros Ha Hs ->. rewrite read_scheme. unfold render. fold (tail_of x). destruct (scheme x) as [a|]; [|done]. cbn [rest before tell_scheme]. rewrite <-app_assoc. cbn [app].
  rewrite scheme_reads by done. unfold SetScheme, with_result. cbn [adv cur rest m_result]. rewrite cons_middle, app_assoc, drop_app_length' by (rewrite length_app; cbn; lia).
  rewrite length_app. cbn [length]. by replace (0 + Z.of_nat (length a + 1) - 1) with (0 + size_of a) by lia.
Qed.

Lemma Parse_tells x : parts_ok gdt x → Parse gdt elsewhere (render x) = mkParser (size_of (render x)) [] (tell x).
Proof.
  intros (Hs & Hu & Hp & Hq & Hf & Hfs). unfold Parse, match_URI_reference, orr, match_URI.
  assert (Hsize : size_of (render x) = size_of (before ":" (scheme x)) + size_of (render_net (authority x)) + size_of (path x) + size_of (tail_of x)).
  { unfold render, tail_of. rewrite !length_app. lia. }
  destruct (scheme x) as [a|] eqn:E.
  - unfold scoped, andr. rewrite scheme_places by (rewrite ?E; done). rewrite hier_reads by (rewrite ?E; done). rewrite tail_reads by done. cbn [snd]. by rewrite Hsize, <-E.
  - unfold scoped at 1. unfold andr at 1. rewrite read_scheme. cbn [rest]. rewrite relative_no_scheme by done. cbn [cur rest m_result].
    unfold match_relative_ref, scoped. unfold render at 1. fold (tail_of x). rewrite E. cbn [before app]. rewrite relative_reads by done.
    rewrite query_reads by done. assert (fragment x = None) as Ef by (destruct (fragment x); [by destruct Hfs|done]). cbn [snd]. rewrite Hsize. unfold tell, tell_tail, tail_of.
    rewrite Ef, E. cbn [before behind length app]. rewrite app_nil_r. do 2 f_equal.
Qed.

Lemma Parse_render x : parts_ok gdt x → size_of (render x) ≤ 65535 → Parse gdt elsewhere (render x) = mkParser (size_of (render x)) [] (places elsewhere x).
Proof. intros Hx Hle. by rewrite Parse_tells, tell_places. Qed.
End complete.

(** ** Every text that is read is of the grammar *)

Definition took p a p' : Prop := rest p = a ++ rest p' ∧ cur p' = cur p + size_of a.

Lemma took_nil p p' : rest p' = rest p → cur p' = cur p → took p [] p'.
Proof. intros Hr Hc. split; [by rewrite Hr|]. rewrite Hc. cbn. lia. Qed.
Lemma took_app p1 p2 p3 a b : took p1 a p2 → took p2 b p3 → took p1 (a ++ b) p3.
Proof. intros [H1 H2] [H3 H4]. split; [by rewrite H1, H3, app_assoc|]. rewrite length_app. lia. Qed.
Lemma took_adv p n : (n ≤ length (rest p))%nat → took p (take n (rest p)) (adv n p).
Proof. intros Hn. split; cbn; [by rewrite take_drop|]. rewrite length_take. lia. Qed.
Lemma took_char p c : starts c (rest p) = true → took p [c] (adv 1 p).
Proof. unfold took, adv, starts. destruct (rest p) as [|x l]; [done|]. intros ->%bool_decide_eq_true. cbn. by rewrite drop_0. Qed.

(** A character and a run behind it. *)
Lemma took_char_run c f `{!Reads f} p : starts c (rest p) = true → let n := run f (drop 1 (rest p)) in took p (c :: take n (drop 1 (rest p))) (adv (S n) p).
Proof.
  intros Hc n. replace (S n) with (1 + n)%nat by lia. rewrite <-adv_adv. apply (took_app p (adv 1 p) _ [c]); [by apply took_char|]. apply (took_adv (adv 1 p)), run_le, _.
Qed.

Lemma after_sound c f `{!Reads f} (set : view → UriParser → UriParser) p : (∀ v q, rest (set v q) = rest q ∧ cur (set v q) = cur q) →
  ∃ o, on o (all f) ∧ took p (behind c o) (after_char c f set p).
Proof.
  intros Hset. unfold after_char. destruct (starts c (rest p)) eqn:E; [|exists None; split; [done|by apply took_nil]].
  exists (Some (take (run f (drop 1 (rest p))) (drop 1 (rest p)))). split; [cbn; apply (run_all f)|]. cbn [behind].
  destruct (took_char_run c f p E) as [H1 H2]. cbv zeta. edestruct (Hset (range (cur p + 1) (cur p + Z.of_nat (S (run f (drop 1 (rest p)))))) (adv (S (run f (drop 1 (rest p)))) p)) as [Hr Hc].
  split; [by rewrite Hr|by rewrite Hc].
Qed.

Lemma ip4_take n : ∀ l k, ip4 n l = Some k → ip4 n (take k l) = Some k.
Proof.
  induction n as [|n IH]; intros l k; cbn [ip4]; unfold some_of.
  - pose proof (run_all digit l) as Hall. destruct (run digit l) as [|i] eqn:E; [done|]. intros [= <-]. rewrite Hall, length_take. pose proof (run_le digit l). by replace (S i `min` length l)%nat with (S i) by lia.
  - pose proof (run_all digit l) as Hall. pose proof (run_le digit l) as Hle. destruct (run digit l) as [|i] eqn:E.
    + intros Hk%IH. destruct k as [|k]; [by rewrite Hk; destruct (run digit (take 0 l)) eqn:?|].
      assert (run digit (take (S k) l) = 0%nat) as ->; [|done]. revert E. rewrite !(run_eq digit). destruct l as [|c l]; [done|]. cbn. by destruct (has digits c).
    + destruct (starts "." (drop (S i) l)) eqn:Edot; [|done]. destruct (ip4 n (drop (S (S i)) l)) as [m|] eqn:Em; [|done]. intros [= <-].
      apply IH in Em. assert (Hl : l = take (S i) l ++ "."%char :: drop (S (S i)) l).
      { rewrite <-(take_drop (S i) l) at 1. f_equal. replace (S (S i)) with (S i + 1)%nat by lia. rewrite <-drop_drop. destruct (drop (S i) l) as [|c l']; [done|].
        apply bool_decide_eq_true in Edot as ->. cbn. by rewrite drop_0. }
      set (a := take (S i) l) in *. set (b := drop (S (S i)) l) in *. assert (Hlen : length a = S i) by (unfold a; rewrite length_take; lia).
      assert (take (S (S i) + m) l = a ++ "."%char :: take m b) as Ht.
      { rewrite Hl at 1. rewrite take_app_ge by lia. rewrite Hlen. replace (S (S i) + m - S i)%nat with (S m) by lia. done. }
      change (S (S (i + m))) with (S (S i) + m)%nat. rewrite Ht. rewrite (run_app digit a) by (done || (vm_compute; reflexivity)). rewrite Hlen.
      rewrite <-Hlen at 1. rewrite drop_app_length. cbn [starts]. rewrite bool_decide_true by done.
      rewrite cons_middle, app_assoc, drop_app_length' by (rewrite length_app; cbn; lia). by rewrite Em.
Qed.

Lemma starts_length c l n : starts c (drop n l) = true → (S n ≤ length l)%nat.
Proof. destruct (drop n l) eqn:E; [done|]. intros _. apply (f_equal length) in E. rewrite length_drop in E. cbn in E. lia. Qed.

Lemma ip4_le n : ∀ l k, ip4 n l = Some k → (k ≤ length l)%nat.
Proof.
  induction n as [|n IH]; intros l k; cbn [ip4]; unfold some_of; pose proof (run_le digit l); destruct (run digit l) as [|i]; try done.
  - by intros [= <-].
  - apply IH.
  - destruct (starts "." (drop (S i) l)) eqn:E; [|done]. apply starts_length in E. destruct (ip4 n _) as [m|] eqn:Em; [|done]. apply IH in Em. rewrite length_drop in Em. intros [= <-]. lia.
Qed.

Lemma reg_name_digit c : has digits c = true ∨ c = "."%char → has reg_name_set c = true.
Proof. revert c. apply (forall_ascii (λ c, has digits c = true ∨ c = "."%char → has reg_name_set c = true)). vm_compute. reflexivity. Qed.

(** Behind a name that is read as far as possible, no address can go on. *)
Lemma reg_name_stops b : item reg_name_set b = None → digit b = None ∧ starts "." b = false.
Proof.
  destruct b as [|c b]; [done|]. unfold item, or_reader, char_reader. destruct (has reg_name_set c) eqn:E; [done|]. intros _. split.
  - destruct (has digits c) eqn:Ed; [|done]. by rewrite reg_name_digit in E by auto.
  - apply bool_decide_eq_false. intros ->. by rewrite reg_name_digit in E by auto.
Qed.

Lemma host_take l n : host_reader l = Some n → host_ok (take n l) ∧ (n ≤ length l)%nat.
Proof.
  unfold host_ok, host_reader, or_reader. destruct (ip4 3 l) as [k|] eqn:E.
  - intros [= <-]. pose proof (ip4_le _ _ _ E). rewrite (ip4_take _ _ _ E), length_take. split; [f_equal; lia|done].
  - unfold some_of. set (m := run (item reg_name_set) l). assert (Hm : (m ≤ length l)%nat) by apply (run_le (item reg_name_set)).
    intros Hn. assert (n = m) as -> by (destruct m; congruence). split; [|done]. assert (m ≠ 0%nat) by (by destruct m).
    destruct (reg_name_stops (drop m l)) as [Hd Hdot]; [apply (run_stops (item reg_name_set))|].
    rewrite <-(take_drop m l), ip4_app in E by done. rewrite E. pose proof (run_all (item reg_name_set) l) as Hall. fold m in Hall. rewrite Hall, length_take. by replace (m `min` length l)%nat with m by lia; destruct m.
Qed.

Lemma authority_sound p p' : match_authority p = (true, p') → ∃ x, authority_ok x ∧ took p (render_authority x) p'.
Proof.
  rewrite read_authority. cbv zeta.
  assert (∃ user, on user (all (item userinfo_set)) ∧
    took p (before "@" user) (match userinfo_reader (rest p) with Some n => SetUserInfo (range (cur p) (cur p + Z.of_nat n - 1)) (adv n p) | None => p end)) as (user & Hu & H1).
  { unfold userinfo_reader. destruct (at_before_slash _); [|exists None; split; [done|by apply took_nil]]. cbv zeta. destruct (starts "@" _) eqn:E; [|exists None; split; [done|by apply took_nil]].
    set (n := run (item userinfo_set) (rest p)) in *. exists (Some (take n (rest p))). split; [apply (run_all (item userinfo_set))|]. cbn [before].
    apply (took_app p (adv n p)); [apply took_adv, (run_le (item userinfo_set))|]. destruct (took_char (adv n p) "@" E) as [H1 H2]. rewrite adv_adv in H1, H2. rewrite Nat.add_1_r in *. by split. }
  set (p1 := match userinfo_reader (rest p) with Some _ => _ | None => _ end) in *.
  destruct (host_reader (rest p1)) as [n|] eqn:E; [|done]. intros [= <-]. apply host_take in E as [Hh Hle].
  destruct (after_sound ":" digit SetPort (SetHost (range (cur p1) (cur p1 + Z.of_nat n)) (adv n p1))) as (port & Hp & H3); [done|].
  exists (user, take n (rest p1), port). split; [done|]. apply (took_app p p1); [done|]. apply (took_app p1 (SetHost (range (cur p1) (cur p1 + Z.of_nat n)) (adv n p1))); [by apply (took_adv p1)|done].
Qed.

Lemma scheme_sound p p' : match_scheme_and_colon p = (true, p') → ∃ a, scheme_ok a ∧ took p (a ++ [":"%char]) p'.
Proof.
  rewrite read_scheme. unfold scheme_reader. destruct (rest p) as [|c l] eqn:E; [done|]. destruct (has alphas c) eqn:Hc; [|done].
  set (n := run (char_reader (has scheme_set)) l). destruct (starts ":" (drop n l)) eqn:Es; [|done]. intros [= <-].
  exists (c :: take n l). split; [split; [done|apply (run_all (char_reader (has scheme_set)))]|].
  assert (Hn : (n ≤ length l)%nat) by apply (run_le (char_reader (has scheme_set))).
  assert (Ht : took p (c :: take n l) (adv (S n) p)). { pose proof (took_adv p (S n)) as H. rewrite E in H. apply H. cbn. lia. }
  destruct (took_char (adv (S n) p) ":") as [H1 H2]; [cbn; by rewrite E|]. rewrite adv_adv in H1, H2. replace (S n + 1)%nat with (n + 2)%nat in * by lia.
  apply (took_app p (adv (S n) p)); [done|]. by split.
Qed.

Section sound.
Context (gdt : bool) (elsewhere : Z).

Lemma pchar_not_slash l : run (item (pchar gdt)) l ≠ 0%nat → starts "/" l = false.
Proof.
  intros Hn. destruct l as [|c l]; [done|]. apply bool_decide_eq_false. intros ->. apply Hn. rewrite run_eq by apply _.
  rewrite (closed_item (pchar gdt)); [done|]. split; [destruct gdt; vm_compute; reflexivity|done].
Qed.

Lemma starts_take c n l : (0 < n)%nat → starts c (take n l) = starts c l.
Proof. by destruct n; [lia|]; destruct l. Qed.

Lemma nz_sound p p' : andr (match_segment_nz gdt) (match_segments gdt) p = (true, p') → ∃ a, rootless gdt a ∧ took p a p' ∧ m_result p' = m_result p.
Proof.
  unfold andr, match_segment_nz. rewrite (read_plus (match_pchar gdt) (item (pchar gdt)) ltac:(apply _) (read_item _)). unfold some_of.
  destruct (run (item (pchar gdt)) (rest p)) as [|n] eqn:E; [done|]. rewrite read_segments. intros [= <-]. rewrite adv_adv. cbn [rest adv].
  pose proof (run_path gdt (rest p)) as Hrun. rewrite E in Hrun. rewrite <-Hrun. exists (take (run (item (path_set gdt)) (rest p)) (rest p)).
  assert (Hle := run_le (item (path_set gdt)) (rest p)). split_and!; [|by apply took_adv|done]. split_and!.
  - apply (run_all (item (path_set gdt))).
  - intros Hnil%(f_equal length). rewrite length_take in Hnil. cbn in Hnil. lia.
  - rewrite starts_take by lia. apply pchar_not_slash. lia.
Qed.

Lemma segments_sound p p' : match_segments gdt p = (true, p') → ∃ a, abempty gdt a ∧ took p a p'.
Proof.
  rewrite read_segments. intros [= <-]. exists (take (run (segment_reader gdt) (rest p)) (rest p)). rewrite run_segments. destruct (rest p) as [|c l] eqn:E.
  - split; [split; [done|by left]|]. rewrite adv_0. by apply took_nil.
  - case_bool_decide as Hc.
    + pose proof (run_le (item (path_set gdt)) (c :: l)) as Hle. split; [split|]; [apply (run_all (item (path_set gdt)))| |rewrite <-E; apply took_adv; by rewrite E].
      right. subst. rewrite starts_take; [done|]. rewrite (run_eq (item (path_set gdt))), path_item.
      rewrite (closed_item (pchar gdt)) by (split; [destruct gdt; vm_compute; reflexivity|done]). rewrite bool_decide_true by done. lia.
    + split; [split; [done|by left]|]. rewrite adv_0. by apply took_nil.
Qed.

Lemma set_path_sound r p p' (P : chars → Prop) : (∀ q q', r q = (true, q') → ∃ a, P a ∧ took q a q') → set_path r p = (true, p') → ∃ a, P a ∧ took p a p'.
Proof.
  intros Hr. unfold set_path. destruct (r p) as [[] p1] eqn:E; [|done]. intros [= <-]. destruct (Hr _ _ E) as (a & Ha & Ht). exists a. split; [done|]. exact Ht.
Qed.

Lemma absolute_sound p p' : match_path_absolute gdt p = (true, p') → ∃ a, absolute gdt a ∧ took p a p'.
Proof.
  apply set_path_sound. intros q q'. unfold andr at 1. rewrite starts_literal. destruct (starts "/" (rest q)) eqn:E; [|done]. apply took_char in E as Ht.
  unfold optional. intros [= <-]. destruct (andr _ _ (adv 1 q)) as [[] q1] eqn:E1.
  - apply nz_sound in E1 as (a & (Ha & Hne & Hs) & Ht' & _). exists ("/"%char :: a). split; [|by apply (took_app q (adv 1 q) _ ["/"%char])]. split; [by apply slash_path_chars|eauto].
  - exists ["/"%char]. split; [split; [by apply slash_path_chars|by exists []]|]. cbn [snd]. revert E1. unfold andr, match_segment_nz.
    rewrite (read_plus (match_pchar gdt) (item (pchar gdt)) ltac:(apply _) (read_item _)). destruct (some_of _ _); [by rewrite read_segments|]. by intros [= <-].
Qed.

Lemma noscheme_sound p p' : match_path_noscheme gdt p = (true, p') → ∃ a, noscheme gdt a ∧ took p a p'.
Proof.
  apply set_path_sound. intros q q'. unfold andr at 1, match_segment_nz_nc. rewrite (read_plus _ _ ltac:(apply _) read_nc). unfold some_of.
  destruct (run (item nc_set) (rest q)) as [|n] eqn:E; [done|]. intros (a2 & Ha & Ht)%segments_sound. pose proof (run_le (item nc_set) (rest q)) as Hle. rewrite E in Hle.
  exists (take (S n) (rest q) ++ a2). split; [|apply (took_app q (adv (S n) q)); [by apply took_adv|done]].
  exists (take (S n) (rest q)), a2. split_and!; [done| |rewrite <-E; apply (run_all (item nc_set))|done].
  by destruct (rest q); [cbn in Hle; lia|].
Qed.

Lemma net_sound p p' : scoped (andr (andr match_slashes match_authority) (match_path_abempty gdt)) p = (true, p') →
  ∃ u a, authority_ok u ∧ abempty gdt a ∧ took p (render_net (Some u) ++ a) p'.
Proof.
  unfold scoped, andr, match_slashes. destruct (rest p) as [|c1 [|c2 l]] eqn:E; [done..|]. case_bool_decide as Hc; [|done]. destruct Hc as [-> ->].
  destruct (match_authority _) as [[] p2] eqn:E2; [|done]. apply authority_sound in E2 as (u & Hu & Ht).
  destruct (match_path_abempty gdt p2) as [[] p3] eqn:E3; [|done]. intros [= <-]. apply (set_path_sound _ _ _ _ segments_sound) in E3 as (a & Ha & Ht3).
  exists u, a. split_and!; [done..|]. eapply took_app; [|exact Ht3]. cbn [render_net]. destruct Ht as [H1 H2]. cbn in H1, H2. split; [by rewrite E, H1|]. cbn [length]. lia.
Qed.

(** A failing attempt moves the pointer back. *)
Lemma scoped_fails r p p' : scoped r p = (false, p') → rest p' = rest p ∧ cur p' = cur p.
Proof. unfold scoped. by destruct (r p) as [[] ?]; intros [= <-]. Qed.

Lemma took_from p q a p' : rest q = rest p → cur q = cur p → took q a p' → took p a p'.
Proof. intros H1 H2 [H3 H4]. split; congruence. Qed.

Lemma set_path_fails r p p' : (∀ q', r p = (false, q') → q' = p) → set_path r p = (false, p') → p' = p.
Proof. intros Hr. unfold set_path. destruct (r p) as [[] p1]; [done|]. intros [= <-]. by apply Hr. Qed.

Lemma noscheme_fails p p' : match_path_noscheme gdt p = (false, p') → p' = p.
Proof.
  apply set_path_fails. intros q'. unfold andr, match_segment_nz_nc. rewrite (read_plus _ _ ltac:(apply _) read_nc).
  destruct (some_of _ _); [by rewrite read_segments|]. by intros [= <-].
Qed.

(** The part in front of the query: an authority and a path, or a path, or nothing. *)
Lemma paths_sound p p' : orr (orr (match_path_absolute gdt) (match_path_noscheme gdt)) (match_path_empty elsewhere) p = (true, p') →
  ∃ a, (a = [] ∨ absolute gdt a ∨ noscheme gdt a) ∧ took p a p'.
Proof.
  unfold orr. destruct (match_path_absolute gdt p) as [[] p1] eqn:E1.
  - intros [= <-]. apply absolute_sound in E1 as (a & ? & ?). eauto.
  - assert (p1 = p) as ->. { revert E1. unfold match_path_absolute, set_path, andr. rewrite starts_literal. by destruct (starts _ _); [|intros [= <-]]. }
    destruct (match_path_noscheme gdt p) as [[] p2] eqn:E2; intros [= <-]; [apply noscheme_sound in E2 as (a & ? & ?); eauto|].
    apply noscheme_fails in E2 as ->. exists []. split; [auto|]. by apply took_nil.
Qed.

Lemma hier_sound p p' : match_hier_part gdt elsewhere p = (true, p') →
  ∃ u a, on u authority_ok ∧ match u with Some _ => abempty gdt a | None => a = [] end ∧ took p (render_net u ++ a) p'.
Proof.
  unfold match_hier_part. destruct (scoped _ p) as [[] p1] eqn:E.
  - intros [= <-]. apply net_sound in E as (u & a & ? & ? & ?). by exists (Some u), a.
  - destruct (orr _ _ p1) as [b2 p2]. intros [= -> <-]. exists None, []. split_and!; [done..|]. by apply took_nil.
Qed.

Lemma relative_sound p p' : match_relative_part gdt elsewhere p = (true, p') →
  ∃ u a, on u authority_ok ∧ match u with Some _ => abempty gdt a | None => a = [] ∨ absolute gdt a ∨ noscheme gdt a end ∧ took p (render_net u ++ a) p'.
Proof.
  unfold match_relative_part. destruct (scoped (andr _ _) p) as [[] p1] eqn:E.
  - intros [= <-]. apply net_sound in E as (u & a & ? & ? & ?). by exists (Some u), a.
  - apply scoped_fails in E as [H1 H2]. unfold scoped. destruct (orr _ _ p1) as [[] p2] eqn:E2; [|done]. intros [= <-].
    apply paths_sound in E2 as (a & Ha & Ht). exists None, a. split_and!; [done..|]. by apply (took_from _ p1).
Qed.

Lemma Parse_took s : ∃ x, parts_ok gdt x ∧ took (mkParser 0 s Components_new) (render x) (Parse gdt elsewhere s).
Proof.
  unfold Parse, match_URI_reference, orr, match_URI. set (p := mkParser 0 s Components_new).
  destruct (scoped (andr _ _) p) as [[] p2] eqn:E.
  - revert E. unfold scoped, andr. destruct (match_scheme_and_colon p) as [[] p1] eqn:E1; [|done]. destruct (match_hier_part _ _ p1) as [[] p2'] eqn:E2; [|done]. intros [= ->].
    apply scheme_sound in E1 as (a & Ha & H1). apply hier_sound in E2 as (u & b & Hu & Hb & H2).
    rewrite read_query. cbn [snd]. destruct (after_sound "?" (item (query_set gdt)) SetQuery p2) as (q & Hq & H3); [done|]. set (p3 := after_char _ _ _ _) in *.
    rewrite read_fragment. cbn [snd]. destruct (after_sound "#" (item (fragment_set gdt)) SetFragment p3) as (f & Hf & H4); [done|].
    exists (mkParts (Some a) u b q f). split; [split_and!; [done|done|by destruct u|done|done|done]|].
    unfold render. cbn [scheme authority path query fragment before]. rewrite (app_assoc _ b). eauto using took_app.
  - apply scoped_fails in E as [Hr Hc]. unfold match_relative_ref. destruct (scoped _ p2) as [[] p3] eqn:E.
    + revert E. unfold scoped. destruct (match_relative_part _ _ p2) as [[] p3'] eqn:E; [|done]. intros [= ->]. apply relative_sound in E as (u & b & Hu & Hb & H2).
      rewrite read_query. cbn [snd]. destruct (after_sound "?" (item (query_set gdt)) SetQuery p3) as (q & Hq & H3); [done|].
      exists (mkParts None u b q None). split; [split_and!; [done|done|by destruct u|done|done|done]|].
      unfold render. cbn [scheme authority path query fragment before behind app]. rewrite app_nil_r, app_assoc. apply (took_from _ p2); [done..|]. eauto using took_app.
    + apply scoped_fails in E as [Hr' Hc']. exists (mkParts None None [] None None). split; [split_and!; [done..|by left|done|done|done]|].
      apply took_nil; cbn [snd]; congruence.
Qed.

Lemma Parse_sound s : cur (Parse gdt elsewhere s) = size_of s → ∃ x, parts_ok gdt x ∧ s = render x.
Proof.
  intros Hc. destruct (Parse_took s) as (x & Hx & [H1 H2]). exists x. split; [done|]. cbn in H1, H2.
  assert (rest (Parse gdt elsewhere s) = []) as Hnil. { apply length_zero_iff_nil. apply (f_equal length) in H1. rewrite length_app in H1. lia. }
  by rewrite Hnil, app_nil_r in H1.
Qed.
End sound.

(** ** The object *)

Definition port_part (x : parts) : chars := match authority x with Some (_, _, Some a) => a | _ => [] end.

(** No port is port 0; [TryParse] reads at most 128 characters. *)
Definition port_number (x : parts) : option Z :=
  match port_part x with
  | [] => Some 0
  | a => if (128 <? length a)%nat then None else let n := fst (read_digits 0 a) in if n <=? 65535 then Some n else None
  end.

Definition lower_scheme (x : parts) : parts := mkParts (option_map (fmap (M := list) c_tolower) (scheme x)) (authority x) (path x) (query x) (fragment x).

Lemma cut_out (pre a post : chars) : take (length a) (drop (length pre) (pre ++ a ++ post)) = a.
Proof. by rewrite drop_app_length, take_app_length. Qed.

Lemma lower_render x : lower_range (at_ 0 (scheme x)) (render x) = render (lower_scheme x).
Proof.
  unfold lower_range, render, lower_scheme. cbn [scheme authority path query fragment]. destruct (scheme x) as [a|]; cbn [at_ fst snd before fmap option_fmap option_map]; [|done].
  rewrite !Nat2Z.id, <-!app_assoc. cbn [take drop Nat.add app]. rewrite ?drop_0, take_app_length, drop_app_length. done.
Qed.

Lemma digit_is_digit c : has digits c = true → is_digit c.
Proof. revert c. apply (forall_ascii (λ c, has digits c = true → is_digit c)). vm_compute. reflexivity. Qed.

Lemma digit_of_nonneg c d : digit_of c = Some d → 0 ≤ d.
Proof. unfold digit_of. destruct (_ && _)%nat; [|done]. intros [= <-]. lia. Qed.

Lemma read_digits_all a : Forall is_digit a → ∀ acc, 0 ≤ acc → ∃ n, read_digits acc a = (n, []) ∧ 0 ≤ n.
Proof.
  induction 1 as [|c a [d Hc] _ IH]; intros acc Hacc; cbn; [by exists acc|]. rewrite Hc. apply digit_of_nonneg in Hc. apply IH. lia.
Qed.

Lemma port_parses a erange : all digit a → a ≠ [] →
  fst (TryParse_uint 65535 a erange) = if (128 <? length a)%nat then None else let n := fst (read_digits 0 a) in if n <=? 65535 then Some n else None.
Proof.
  intros Ha%char_chars Hne. assert (Hd : Forall is_digit a) by (eapply Forall_impl; [exact Ha|apply digit_is_digit]).
  unfold TryParse_uint, TryParseImpl. destruct (128 <? length a)%nat; [done|]. rewrite c_string_digits by done. destruct (read_digits_all a Hd 0 ltac:(lia)) as (n & Hn & Hpos).
  rewrite Hn. cbn [fst]. destruct a as [|c a]; [done|]. unfold strtoull. assert (read_number (c :: a) = Some (false, n, [])) as ->.
  { apply Forall_inv in Hd as Hc. pose proof (is_digit_facts c Hc) as (H1 & H2 & H3 & _). unfold read_number. cbn [skip_spaces]. rewrite H1, !bool_decide_false by done.
    destruct Hc as [d Hc]. by rewrite Hc, Hn. }
  rewrite Z.gtb_ltb. destruct (Z.ltb_spec (2 ^ 64 - 1) n) as [Hbig|Hsmall].
  - rewrite bool_decide_true by set_solver. cbn. destruct (Z.leb_spec n 65535); [lia|done].
  - destruct (bool_decide _ && erange) eqn:E.
    + apply andb_prop in E as [E _]. apply bool_decide_eq_true, list_elem_of_singleton in E. cbn. destruct (Z.leb_spec n 65535); [lia|done].
    + cbn. rewrite Z.gtb_ltb. destruct (Z.ltb_spec 65535 n), (Z.leb_spec n 65535), (Z.ltb_spec n 0); done || lia.
Qed.

Lemma port_place elsewhere x : take (Z.to_nat (k_port (places elsewhere x)).2) (drop (Z.to_nat (k_port (places elsewhere x)).1) (render x)) = port_part x.
Proof.
  unfold port_part, places, render. cbn [k_port]. destruct (authority x) as [[[user host] [a|]]|]; [|done..]. cbn [at_ fst snd render_net render_authority behind].
  rewrite !Nat2Z.id. set (post := path x ++ _). transitivity (take (length a) (drop (length (before ":" (scheme x) ++ ["/"; "/"]%char ++ before "@" user ++ host ++ [":"%char]))
    ((before ":" (scheme x) ++ ["/"; "/"]%char ++ before "@" user ++ host ++ [":"%char]) ++ a ++ post))); [|apply cut_out].
  f_equal. rewrite <-!app_assoc. cbn [app]. rewrite <-!app_assoc. f_equal. rewrite !length_app. cbn [length]. rewrite !length_app. cbn [length]. lia.
Qed.

Lemma TryParse_render gdt elsewhere x erange : parts_ok gdt x → size_of (render x) ≤ 65535 →
  fst (TryParse_Uri gdt elsewhere (render x) erange) = (λ n, mkUri (render (lower_scheme x)) (places elsewhere x) n) <$> port_number x.
Proof.
  intros Hx Hle. unfold TryParse_Uri. destruct (Z.ltb_spec 65535 (size_of (render x))); [lia|]. rewrite Parse_render by done. cbn [cur m_result]. rewrite Z.eqb_refl. cbn [negb].
  rewrite port_place. unfold port_number. destruct (port_part x) as [|c a] eqn:E; [cbn; by rewrite <-lower_render|].
  assert (Hp : all digit (c :: a)).
  { destruct Hx as (_ & Hu & _). unfold port_part in E. destruct (authority x) as [[[? ?] [?|]]|]; try done. subst. by destruct Hu as (_ & _ & Hu). }
  pose proof (port_parses (c :: a) erange Hp ltac:(done)) as Ht. destruct (TryParse_uint 65535 (c :: a) erange) as [o e]. cbn [fst] in Ht. rewrite Ht.
  destruct (128 <? _)%nat; [done|]. cbv zeta. destruct (_ <=? _); [|done]. cbn. f_equal. by rewrite <-lower_render.
Qed.

(** A text is accepted exactly if its parts are as in [parts_ok], it has at most 65535
    characters, and its port, if there is one, is at most 65535 and has at most 128
    digits.  The object then has the text with the scheme in lower case, the places
    of the parts, and the number of the port. *)
Lemma Uri_accepts gdt elsewhere s erange u :
  fst (TryParse_Uri gdt elsewhere s erange) = Some u ↔
  ∃ x, parts_ok gdt x ∧ s = render x ∧ size_of s ≤ 65535 ∧ port_number x = Some (port_ u) ∧ uri_ u = render (lower_scheme x) ∧ comps_ u = places elsewhere x.
Proof.
  split.
  - intros H. assert (size_of s ≤ 65535 ∧ cur (Parse gdt elsewhere s) = size_of s) as [Hle Hcur].
    { revert H. unfold TryParse_Uri. destruct (Z.ltb_spec 65535 (size_of s)); [done|]. destruct (Z.eqb_spec (cur (Parse gdt elsewhere s)) (size_of s)); done. }
    destruct (Parse_sound gdt elsewhere s Hcur) as (x & Hx & ->). exists x. rewrite TryParse_render in H by done.
    destruct (port_number x) as [n|] eqn:E; [|done]. injection H as <-. done.
  - intros (x & Hx & -> & Hle & Hp & Hu & Hc). rewrite TryParse_render, Hp by done. destruct u. cbn in *. by subst.
Qed.

Lemma get_part (k : Components → view) s comps n pre a post : k comps = (Z.of_nat (length pre), size_of a) → s = pre ++ a ++ post → GetComponent k (mkUri s comps n) = Ret a.
Proof.
  intros Hk ->. unfold GetComponent, substr. cbn [comps_ uri_]. rewrite Hk. cbn [fst snd]. rewrite !length_app. destruct (Z.ltb_spec (Z.of_nat (length pre + (length a + length post))) (Z.of_nat (length pre))); [lia|].
  rewrite !Nat2Z.id, cut_out. done.
Qed.

Lemma get_nothing (k : Components → view) u : k (comps_ u) = (0, 0) → GetComponent k u = Ret [].
Proof. intros Hk. unfold GetComponent, substr. rewrite Hk. cbn. destruct (Z.ltb_spec (size_of (uri_ u)) 0); [lia|done]. Qed.

Lemma get_at (k : Components → view) s comps n (off : nat) o : k comps = at_ off o → (∀ a, o = Some a → ∃ pre post, length pre = off ∧ s = pre ++ a ++ post) →
  GetComponent k (mkUri s comps n) = Ret (default [] o).
Proof.
  intros Hk Ho. destruct o as [a|]; [|by apply get_nothing]. destruct (Ho a eq_refl) as (pre & post & <- & ->). by eapply get_part.
Qed.

Lemma places_lower elsewhere x : places elsewhere (lower_scheme x) = places elsewhere x.
Proof. unfold places, lower_scheme. cbn [scheme authority path query fragment]. destruct (scheme x) as [a|]; [|done]. cbn [before option_map at_]. by rewrite !length_app, !length_fmap. Qed.

(** What the accessors return. *)
Definition accessors (elsewhere : Z) (x : parts) (u : Uri) : Prop :=
  GetComponent k_scheme u = Ret (default [] (scheme x)) ∧
  GetComponent k_userinfo u = Ret (match authority x with Some (user, _, _) => default [] user | None => [] end) ∧
  GetComponent k_host u = Ret (match authority x with Some (_, host, _) => host | None => [] end) ∧
  GetComponent k_path u =
    match authority x, path x with None, [] => if size_of (uri_ u) <? u16 elsewhere then Abort else Ret [] | _, _ => Ret (path x) end ∧
  GetComponent k_query u = Ret (default [] (query x)) ∧
  GetComponent k_fragment u = Ret (default [] (fragment x)).

(** Puts what is in front of the part together. *)
Ltac in_front l := exists l; eexists; split; [|unfold render; cbn [before behind render_net render_authority scheme authority path query fragment]; rewrite <-?app_assoc; cbn [app]; rewrite <-?app_assoc; reflexivity]; rewrite ?length_app; cbn [length]; rewrite ?length_app; cbn [length]; lia.

Lemma parts_at elsewhere x n : accessors elsewhere x (mkUri (render x) (places elsewhere x) n).
Proof.
  destruct x as [s u a q f]. unfold accessors. cbn [scheme authority path query fragment uri_]. split_and!.
  - apply (get_at _ _ _ _ 0); [done|]. intros b ->. in_front (@nil ascii).
  - destruct u as [[[user host] port]|]; [|by apply get_nothing]. eapply get_at; [reflexivity|]. cbn [scheme]. intros b ->. in_front (before ":" s ++ ["/"; "/"]%char).
  - destruct u as [[[user host] port]|]; [|by apply get_nothing]. eapply (get_at _ _ _ _ _ (Some host)); [reflexivity|]. cbn [scheme]. intros b [= <-].
    in_front (before ":" s ++ ["/"; "/"]%char ++ before "@" user).
  - assert (Hin : ∃ pre post, length pre = (length (before ":" s) + length (render_net u))%nat ∧ render (mkParts s u a q f) = pre ++ a ++ post).
    { exists (before ":" s ++ render_net u). eexists. rewrite length_app. split; [done|]. unfold render. cbn [scheme authority path query fragment]. by rewrite <-!app_assoc. }
    destruct u as [v|]; [|destruct a as [|c a]].
    + apply (get_at _ _ _ _ (length (before ":" s) + length (render_net (Some v))) (Some a)); [done|]. by intros b [= <-].
    + unfold GetComponent, substr. cbn. by destruct (_ <? _).
    + apply (get_at _ _ _ _ (length (before ":" s) + length (render_net None)) (Some (c :: a))); [done|]. by intros b [= <-].
  - eapply get_at; [reflexivity|]. cbn [scheme authority path query]. intros b ->. in_front (before ":" s ++ render_net u ++ a ++ ["?"%char]).
  - eapply get_at; [reflexivity|]. cbn [scheme authority path query fragment]. intros b ->. exists (before ":" s ++ render_net u ++ a ++ behind "?" q ++ ["#"%char]), [].
    rewrite app_nil_r, !length_app. cbn [length]. split; [lia|]. unfold render. cbn [scheme authority path query fragment behind]. by rewrite <-!app_assoc.
Qed.

(** The accessors of a URI that was parsed return its parts, the scheme in lower
    case, and nothing for a part that is not there.  The path of a text that has
    neither a path nor an authority is the exception: its place is that of a literal
    of the program, and an accessor that looks for it behind the end of the text ends
    the program. *)
Theorem Uri_accessors gdt elsewhere x erange u :
  parts_ok gdt x → fst (TryParse_Uri gdt elsewhere (render x) erange) = Some u → accessors elsewhere (lower_scheme x) u.
Proof.
  intros Hx Hu. assert (size_of (render x) ≤ 65535) as Hle by (revert Hu; unfold TryParse_Uri; by destruct (Z.ltb_spec 65535 (size_of (render x)))).
  rewrite TryParse_render in Hu by done. destruct (port_number x) as [n|]; [|done]. injection Hu as <-. rewrite <-places_lower. apply parts_at.
Qed.

Definition some_parts : parts :=
  mkParts (Some (chars_of "HTTP")) (Some (Some (chars_of "me"), chars_of "example.com", Some (chars_of "8080"))) (chars_of "/a") (Some (chars_of "q=1")) (Some (chars_of "top")).

Lemma Uri_accessors_witness :
  parts_ok false some_parts ∧ ∃ u, fst (TryParse_Uri false 0 (render some_parts) false) = Some u ∧ accessors 0 (lower_scheme some_parts) u.
Proof.
  assert (Hx : parts_ok false some_parts). { split_and!; vm_compute; try done. split; [done|by right]. }
  split; [exact Hx|]. exists (mkUri (render (lower_scheme some_parts)) (places 0 some_parts) 8080).
  assert (Hu : fst (TryParse_Uri false 0 (render some_parts) false) = Some (mkUri (render (lower_scheme some_parts)) (places 0 some_parts) 8080)) by (vm_compute; reflexivity).
  split; [exact Hu|]. exact (Uri_accessors false 0 some_parts false _ Hx Hu).
Defined.

(** [path()] of [?a=b], with the literal 1000 bytes behind the text. *)
Example path_of_query_only : ∃ u, fst (TryParse_Uri false 1000 (chars_of "?a=b") false) = Some u ∧ GetComponent k_path u = Abort.
Proof. eexists. split; vm_compute; reflexivity. Qed.
