(* ===== verification/Rfc3986.v ===== *)
(** * The grammar of RFC 3986, and what the parser makes of it

    The grammar is that of the RFC, which the comments of flare/base/net/uri.cc repeat,
    with the one extension that the comments have: a character may also be escaped as
    [%uXXXX].  IP literals are left out, as in the code ("We don't accept IPv6 address").
    It is written down from the rules alone and does not mention the parser.

    [Uri_rfc3986] says that the parser accepts only texts of the grammar and reports
    their parts, and that it accepts all of them but those that [supported] excludes;
    the examples at the end show that each of its conditions is needed. *)

From Stdlib Require Import Ascii.
From S2P Require Import Prelude Regex FlareString ByteSet Uri.

#[local] Open Scope Z_scope.

#[local] Notation size_of s := (Z.of_nat (length s)).

Implicit Types (c : ascii) (a b l : chars).

(** ** Characters *)

Definition between (x c y : ascii) : bool := (nat_of_ascii x <=? nat_of_ascii c)%nat && (nat_of_ascii c <=? nat_of_ascii y)%nat.
Definition one_of (s : string) c : bool := bool_decide (c ∈ chars_of s).

Definition ALPHA c : bool := between "A" c "Z" || between "a" c "z".
Definition DIGIT c : bool := between "0" c "9".
Definition HEXDIG c : bool := DIGIT c || between "A" c "F" || between "a" c "f".

Definition rfc_unreserved c : bool := ALPHA c || DIGIT c || one_of "-._~" c.
Definition rfc_sub_delims c : bool := one_of "!$&'()*+,;=" c.
Definition rfc_pchar c : bool := rfc_unreserved c || rfc_sub_delims c || one_of ":@" c.

(** ** Rules *)

Inductive pct_encoded : chars → Prop :=
| Pct_two x y : HEXDIG x = true → HEXDIG y = true → pct_encoded ["%"%char; x; y]
| Pct_four x y z w : HEXDIG x = true → HEXDIG y = true → HEXDIG z = true → HEXDIG w = true → pct_encoded ["%"%char; "u"%char; x; y; z; w].

(** [*( ok / pct-encoded )]. *)
Inductive many (ok : ascii → bool) : chars → Prop :=
| Many_nil : many ok []
| Many_char c a : ok c = true → many ok a → many ok (c :: a)
| Many_pct e a : pct_encoded e → many ok a → many ok (e ++ a).

Definition segment a : Prop := many rfc_pchar a.
Definition segment_nz a : Prop := segment a ∧ a ≠ [].
Definition segment_nz_nc a : Prop := many (λ c, rfc_unreserved c || rfc_sub_delims c || one_of "@" c) a ∧ a ≠ [].

Inductive path_abempty : chars → Prop :=
| Path_end : path_abempty []
| Path_segment a b : segment a → path_abempty b → path_abempty ("/"%char :: a ++ b).

Inductive path_rootless : chars → Prop := Rootless a b : segment_nz a → path_abempty b → path_rootless (a ++ b).
Inductive path_noscheme : chars → Prop := Noscheme a b : segment_nz_nc a → path_abempty b → path_noscheme (a ++ b).
Inductive path_absolute : chars → Prop :=
| Root : path_absolute ["/"%char]
| Absolute a : path_rootless a → path_absolute ("/"%char :: a).

Definition rfc_scheme a : Prop := ∃ c b, a = c :: b ∧ ALPHA c = true ∧ Forall (λ c, ALPHA c || DIGIT c || one_of "+-." c = true) b.
Definition rfc_userinfo a : Prop := many (λ c, rfc_unreserved c || rfc_sub_delims c || one_of ":" c) a.
Definition reg_name a : Prop := many (λ c, rfc_unreserved c || rfc_sub_delims c) a.
Definition rfc_port a : Prop := Forall (λ c, DIGIT c = true) a.
Definition rfc_query a : Prop := many (λ c, rfc_pchar c || one_of "/?" c) a.

(** An IPv4 address is a reg-name, too. *)
Definition rfc_authority (x : option chars * chars * option chars) : Prop :=
  let '(user, host, port) := x in on user rfc_userinfo ∧ reg_name host ∧ on port rfc_port.

(** hier-part and relative-part. *)
Definition rfc_path (x : parts) : Prop :=
  match authority x, scheme x with
  | Some _, _ => path_abempty (path x)
  | None, Some _ => path x = [] ∨ path_absolute (path x) ∨ path_rootless (path x)
  | None, None => path x = [] ∨ path_absolute (path x) ∨ path_noscheme (path x)
  end.

(** URI-reference: the parts of a URI or of a relative reference, the text is
    [render x]. *)
Definition URI_reference (x : parts) : Prop :=
  on (scheme x) rfc_scheme ∧ on (authority x) rfc_authority ∧ rfc_path x ∧ on (query x) rfc_query ∧ on (fragment x) rfc_query.

(** ** What the parser supports *)

Definition IPv4address a : Prop :=
  ∃ w x y z, a = w ++ "."%char :: x ++ "."%char :: y ++ "."%char :: z ∧ Forall (λ d, d ≠ [] ∧ Forall (λ c, DIGIT c = true) d) [w; x; y; z].

(** The host is an IPv4 address, or begins neither with a digit nor with nothing. *)
Definition supported_host a : Prop := IPv4address a ∨ ∃ c b, a = c :: b ∧ DIGIT c = false.
Definition supported_userinfo a : Prop := Forall (λ c, one_of "!'()*;" c = false) a.

Definition supported (x : parts) : Prop :=
  (scheme x ≠ None → authority x = None → path x = []) ∧ (scheme x = None → fragment x = None) ∧
  on (authority x) (λ '(user, host, _), on user supported_userinfo ∧ supported_host host).

(** ** Sets *)

Ltac by_chars P := match goal with c : ascii |- _ => revert c end; apply (forall_ascii P); vm_compute; reflexivity.

Lemma alphas_rfc c : has alphas c = ALPHA c.
Proof. by_chars (λ c, has alphas c = ALPHA c). Qed.
Lemma digits_rfc c : has digits c = DIGIT c.
Proof. by_chars (λ c, has digits c = DIGIT c). Qed.
Lemma hex_rfc c : has hex c = HEXDIG c.
Proof. by_chars (λ c, has hex c = HEXDIG c). Qed.
Lemma scheme_rfc c : has scheme_set c = ALPHA c || DIGIT c || one_of "+-." c.
Proof. by_chars (λ c, has scheme_set c = ALPHA c || DIGIT c || one_of "+-." c). Qed.
Lemma reg_name_rfc c : has reg_name_set c = rfc_unreserved c || rfc_sub_delims c.
Proof. by_chars (λ c, has reg_name_set c = rfc_unreserved c || rfc_sub_delims c). Qed.
Lemma nc_rfc c : has nc_set c = rfc_unreserved c || rfc_sub_delims c || one_of "@" c.
Proof. by_chars (λ c, has nc_set c = rfc_unreserved c || rfc_sub_delims c || one_of "@" c). Qed.
Lemma path_rfc c : has (path_set false) c = rfc_pchar c || bool_decide (c = "/"%char).
Proof. by_chars (λ c, has (path_set false) c = rfc_pchar c || bool_decide (c = "/"%char)). Qed.
Lemma query_rfc c : has (query_set false) c = rfc_pchar c || one_of "/?" c.
Proof. by_chars (λ c, has (query_set false) c = rfc_pchar c || one_of "/?" c). Qed.
Lemma fragment_rfc c : has (fragment_set false) c = rfc_pchar c || one_of "/?" c.
Proof. by_chars (λ c, has (fragment_set false) c = rfc_pchar c || one_of "/?" c). Qed.
Lemma userinfo_rfc c : has userinfo_set c = (rfc_unreserved c || rfc_sub_delims c || one_of ":" c) && negb (one_of "!'()*;" c).
Proof. by_chars (λ c, has userinfo_set c = (rfc_unreserved c || rfc_sub_delims c || one_of ":" c) && negb (one_of "!'()*;" c)). Qed.
Lemma pchar_slash c : rfc_pchar c = true → c ≠ "/"%char.
Proof. by_chars (λ c, rfc_pchar c = true → c ≠ "/"%char). Qed.
Lemma digit_reg_name c : DIGIT c = true → rfc_unreserved c || rfc_sub_delims c = true.
Proof. by_chars (λ c, DIGIT c = true → rfc_unreserved c || rfc_sub_delims c = true). Qed.

(** ** Repetition *)

Lemma many_impl (P Q : ascii → bool) a : (∀ c, P c = true → Q c = true) → many P a → many Q a.
Proof. intros HPQ. induction 1; [constructor|apply Many_char; auto|by apply Many_pct]. Qed.

Lemma many_forall (P : ascii → bool) a : Forall (λ c, P c = true) a → many P a.
Proof. induction 1; [constructor|by apply Many_char]. Qed.

Lemma many_app P a b : many P a → many P b → many P (a ++ b).
Proof. induction 1 as [|c a Hc _ IH|e a He _ IH]; intros Hb; [done|apply Many_char; auto|]. rewrite <-app_assoc. apply Many_pct; auto. Qed.

(** An escaped character, as it is read. *)
Lemma pct_sound l n : pct_reader l = Some n → pct_encoded (take n l).
Proof.
  destruct l as [|c [|x [|y l]]]; try done. cbn. case_bool_decide; [|done]. subst c. destruct (has hex x && has hex y) eqn:E1.
  - apply andb_prop in E1 as [Hx Hy]. rewrite hex_rfc in Hx, Hy. intros [= <-]. cbn. rewrite take_0. by constructor.
  - destruct l as [|d [|e [|f l]]]; try done. destruct (_ && has hex f) eqn:E2; [|done].
    apply andb_prop in E2 as [[[[?%bool_decide_eq_true ?]%andb_prop ?]%andb_prop ?]%andb_prop ?]. rewrite hex_rfc in *. subst x.
    intros [= <-]. cbn. rewrite take_0. by constructor.
Qed.

Lemma pct_complete e : pct_encoded e → pct_reader e = Some (length e).
Proof.
  intros [x y Hx Hy|x y z w Hx Hy Hz Hw]; unfold pct_reader; rewrite bool_decide_true, ?hex_rfc by done; [by rewrite Hx, Hy|].
  change (HEXDIG "u") with false. cbn [andb]. by rewrite bool_decide_true, Hx, Hy, Hz, Hw by done.
Qed.

Lemma all_many (cs : Rep) (P : ascii → bool) a : (∀ c, has cs c = P c) → has cs "%" = false → all (item cs) a ↔ many P a.
Proof.
  intros HP Hpct. split.
  - unfold all. induction (Nat.lt_wf_0_projected length a) as [a _ IH]. rewrite run_eq by apply _. destruct (item cs a) as [n|] eqn:E.
    + pose proof (reads_bound (f := item cs) _ _ E) as Hn. intros Ha. assert (Hd : many P (drop n a)) by (apply IH; rewrite length_drop; lia).
      rewrite <-(take_drop n a). revert E. unfold item, or_reader. destruct (char_reader (has cs) a) as [m|] eqn:Ec.
      * destruct a as [|c a]; [done|]. revert Ec. cbn. destruct (has cs c) eqn:Hc; [|done]. intros [= <-] [= <-]. cbn. rewrite take_0. rewrite HP in Hc. by apply Many_char.
      * intros He%pct_sound. by apply Many_pct.
    + destruct a; [constructor|]. cbn. lia.
  - induction 1 as [|c a Hc _ IH|e a He _ IH]; [done| |].
    + apply (all_app (item cs) [c] a); [|exact IH]. unfold all. rewrite run_eq by apply _. unfold item, or_reader, char_reader. by rewrite HP, Hc.
    + apply (all_app (item cs)); [|exact IH]. pose proof (pct_complete e He) as Hr. unfold all. rewrite run_eq by apply _. unfold item, or_reader.
      rewrite (no_percent cs Hpct _ _ Hr), Hr. rewrite drop_ge by lia. apply Nat.add_0_r.
Qed.

Lemma all_forall (cs : Rep) (P : ascii → bool) a : (∀ c, has cs c = P c) → all (char_reader (has cs)) a ↔ Forall (λ c, P c = true) a.
Proof.
  intros HP. split; [intros Ha%char_chars; eapply Forall_impl; [exact Ha|]; intros c Hc; cbn in *; by rewrite <-HP|].
  unfold all. induction 1 as [|c a Hc _ IH]; [done|]. rewrite run_eq by apply _. cbn. rewrite HP, Hc. cbn. rewrite drop_0. by f_equal.
Qed.

(** ** Paths *)

(** Up to the first slash. *)
Lemma first_segment a : many (λ c, rfc_pchar c || bool_decide (c = "/"%char)) a →
  ∃ a1 a2, a = a1 ++ a2 ∧ segment a1 ∧ many (λ c, rfc_pchar c || bool_decide (c = "/"%char)) a2 ∧ (a2 = [] ∨ starts "/" a2 = true).
Proof.
  induction 1 as [|c a Hc Ha IH|e a He Ha (a1 & a2 & -> & H1 & H2 & H3)].
  - exists [], []. split_and!; [done|apply Many_nil..|by left].
  - destruct (bool_decide (c = "/"%char)) eqn:Hs.
    + exists [], (c :: a). split_and!; [done|apply Many_nil|apply Many_char; [by rewrite Hs, orb_true_r|done]|by right].
    + destruct IH as (a1 & a2 & -> & H1 & H2 & H3). rewrite orb_false_r in Hc. exists (c :: a1), a2. split_and!; [done|by apply Many_char|done|done].
  - exists (e ++ a1), a2. split_and!; [by rewrite app_assoc|by apply Many_pct|done|done].
Qed.

Lemma path_chars_rfc a : path_chars false a ↔ many (λ c, rfc_pchar c || bool_decide (c = "/"%char)) a.
Proof. apply all_many; [apply path_rfc|vm_compute; reflexivity]. Qed.

Lemma slash_off c a : many (λ c, rfc_pchar c || bool_decide (c = "/"%char)) ("/"%char :: a) → many (λ c, rfc_pchar c || bool_decide (c = "/"%char)) a.
Proof. rewrite <-!path_chars_rfc. apply slash_path_chars. Qed.

Lemma abempty_rfc a : abempty false a ↔ path_abempty a.
Proof.
  split.
  - intros [Ha%path_chars_rfc Hs]. induction (Nat.lt_wf_0_projected length a) as [a _ IH]. destruct a as [|c a]; [constructor|].
    destruct Hs as [|Hs%Is_true_true]; [done|]. cbn in Hs. apply bool_decide_eq_true in Hs as ->. apply (slash_off "/") in Ha.
    destruct (first_segment a Ha) as (a1 & a2 & -> & H1 & H2 & H3). constructor; [done|]. apply IH; [|done|].
    + cbn. rewrite length_app. lia.
    + destruct H3 as [?|H3]; [by left|right]. by rewrite H3.
  - induction 1 as [|a b Ha _ [Hb _]]; [split; [done|by left]|]. split; [|by right]. rewrite path_chars_rfc in *.
    apply Many_char; [done|]. apply many_app; [|done]. eapply many_impl; [|exact Ha]. cbn. by intros c ->.
Qed.

Lemma segment_no_slash a b : segment_nz a → starts "/" (a ++ b) = false.
Proof.
  intros [Ha Hne]. destruct Ha as [|c a Hc|e a He]; [done| |by destruct He]. cbn. apply bool_decide_eq_false. by apply pchar_slash.
Qed.

Lemma rootless_rfc a : rootless false a ↔ path_rootless a.
Proof.
  split.
  - intros (Ha%path_chars_rfc & Hne & Hs). destruct (first_segment a Ha) as (a1 & a2 & -> & H1 & H2 & H3).
    constructor; [|apply abempty_rfc; split; [by apply path_chars_rfc|]].
    + split; [done|]. intros ->. cbn in *. destruct H3 as [->|H3]; [done|congruence].
    + destruct H3 as [?|H3]; [by left|right]. by rewrite H3.
  - intros [a1 a2 H1 [H2 _]%abempty_rfc]. split; [|split; [|by apply segment_no_slash]].
    + rewrite path_chars_rfc in *. apply many_app; [|done]. eapply many_impl; [|exact (proj1 H1)]. cbn. by intros c ->.
    + destruct H1 as [_ H1]. intros [? _]%app_eq_nil. done.
Qed.

Lemma absolute_rfc a : absolute false a ↔ path_absolute a.
Proof.
  split.
  - intros (Ha & a' & -> & Hs). apply (proj1 (slash_path_chars false a')) in Ha. destruct a' as [|c a']; [constructor|]. constructor. apply rootless_rfc. by split_and!.
  - intros [|a' (Ha & Hne & Hs)%rootless_rfc]; (split; [|eexists; split; [reflexivity|done]]); [by vm_compute|]. by apply slash_path_chars.
Qed.

Lemma noscheme_rfc a : noscheme false a ↔ path_noscheme a.
Proof.
  assert (Hnc : ∀ a, all (item nc_set) a ↔ many (λ c, rfc_unreserved c || rfc_sub_delims c || one_of "@" c) a)
    by (intros; apply all_many; [apply nc_rfc|vm_compute; reflexivity]).
  split.
  - intros (a1 & a2 & -> & Hne & H1%Hnc & H2%abempty_rfc). by constructor; [split|].
  - intros [a1 a2 [H1%Hnc Hne] H2%abempty_rfc]. by exists a1, a2.
Qed.

(** ** Hosts *)

Definition host_digit c : bool := DIGIT c || bool_decide (c = "."%char).

Lemma run_digit_chars l : Forall (λ c, host_digit c = true) (take (run digit l) l).
Proof. eapply Forall_impl; [apply run_char_chars|]. intros c Hc. cbn in *. rewrite digits_rfc in Hc. unfold host_digit. by rewrite Hc. Qed.

Lemma ip4_digits n : ∀ l k, ip4 n l = Some k → Forall (λ c, host_digit c = true) (take k l).
Proof.
  induction n as [|n IH]; intros l k; cbn [ip4]; pose proof (run_digit_chars l) as H.
  - unfold some_of. destruct (run digit l); [done|]. by intros [= <-].
  - destruct (run digit l) as [|i]; [by apply IH|]. destruct (starts "." (drop (S i) l)) eqn:E; [|done].
    destruct (ip4 n (drop (S (S i)) l)) as [m|] eqn:Em; [|done]. intros [= <-]. apply IH in Em.
    replace (S (S (i + m))) with (S i + S m)%nat by lia. rewrite <-take_take_drop. apply Forall_app. split; [done|].
    replace (S (S i)) with (S i + 1)%nat in Em by lia. rewrite <-drop_drop in Em. destruct (drop (S i) l) as [|c l']; [done|]. cbn in *. rewrite drop_0 in Em.
    apply bool_decide_eq_true in E. subst. by constructor.
Qed.

Lemma host_digit_reg c : host_digit c = true → rfc_unreserved c || rfc_sub_delims c = true.
Proof. by_chars (λ c, host_digit c = true → rfc_unreserved c || rfc_sub_delims c = true). Qed.

Lemma all_reg_name a : all (item reg_name_set) a ↔ reg_name a.
Proof. apply all_many; [apply reg_name_rfc|vm_compute; reflexivity]. Qed.

Lemma host_sound a : host_ok a → reg_name a.
Proof.
  unfold host_ok, host_reader, or_reader. destruct (ip4 3 a) as [k|] eqn:E.
  - intros [= ->]. apply ip4_digits in E. rewrite take_ge in E by lia. apply many_forall. eapply Forall_impl; [exact E|]. apply host_digit_reg.
  - unfold some_of. destruct (run (item reg_name_set) a) as [|k] eqn:Er; [done|]. intros [= Hk]. apply all_reg_name. unfold all. lia.
Qed.

Lemma run_digits d b : Forall (λ c, DIGIT c = true) d → digit b = None → run digit (d ++ b) = length d.
Proof. intros Hd%(all_forall digits _ _ digits_rfc) Hb. by apply (run_app digit). Qed.

Lemma ip4_group n d b : d ≠ [] → Forall (λ c, DIGIT c = true) d → ip4 (S n) (d ++ "."%char :: b) = (λ m, S (length d) + m)%nat <$> ip4 n b.
Proof.
  intros Hne Hd. cbn [ip4]. rewrite run_digits by done. destruct (length d) as [|k] eqn:E; [by destruct d|]. rewrite <-E, drop_app_length. cbn [starts].
  rewrite bool_decide_true by done. replace (S (length d)) with (length d + 1)%nat by lia. by rewrite <-drop_drop, drop_app_length.
Qed.

Lemma IPv4_reads a : IPv4address a → host_ok a.
Proof.
  intros (w & x & y & z & -> & HF). rewrite !Forall_cons in HF. destruct HF as ((? & ?) & (? & ?) & (? & ?) & (Hz & Hd) & _).
  unfold host_ok, host_reader, or_reader. rewrite !ip4_group by done. cbn [ip4]. unfold some_of.
  assert (Hr : run digit z = length z) by (by apply (all_forall digits _ _ digits_rfc)). rewrite Hr. destruct z as [|c z]; [done|]. cbn.
  f_equal. rewrite !length_app. cbn. rewrite !length_app. cbn. rewrite !length_app. cbn. lia.
Qed.

Lemma host_complete a : reg_name a → supported_host a → host_ok a.
Proof.
  intros Ha%all_reg_name [|(c & b & -> & Hc)]; [by apply IPv4_reads|]. unfold host_ok, host_reader, or_reader.
  assert (Hd : run digit (c :: b) = 0%nat) by (rewrite run_eq by apply _; cbn; by rewrite digits_rfc, Hc).
  assert (Hi : ∀ n, ip4 n (c :: b) = None) by (induction n as [|n IH]; cbn [ip4]; unfold some_of; by rewrite Hd). rewrite Hi. unfold some_of. by rewrite Ha.
Qed.

(** ** The parts *)

Lemma on_impl {A} (o : option A) (P Q : A → Prop) : (∀ x, P x → Q x) → on o P → on o Q.
Proof. destruct o; cbn; auto. Qed.

Lemma scheme_ok_rfc a : scheme_ok a ↔ rfc_scheme a.
Proof.
  unfold scheme_ok, rfc_scheme. destruct a as [|c a]; [split; [done|by intros (? & ? & ? & _)]|].
  rewrite alphas_rfc, (all_forall scheme_set _ _ scheme_rfc). split; [intros [? ?]; by exists c, a|]. by intros (? & ? & [= <- <-] & ? & ?).
Qed.

Lemma port_rfc a : all digit a ↔ rfc_port a.
Proof. apply all_forall, digits_rfc. Qed.

Lemma query_ok_rfc a : all (item (query_set false)) a ↔ rfc_query a.
Proof. apply all_many; [apply query_rfc|vm_compute; reflexivity]. Qed.
Lemma fragment_ok_rfc a : all (item (fragment_set false)) a ↔ rfc_query a.
Proof. apply all_many; [apply fragment_rfc|vm_compute; reflexivity]. Qed.

Lemma all_userinfo a : all (item userinfo_set) a ↔ many (λ c, (rfc_unreserved c || rfc_sub_delims c || one_of ":" c) && negb (one_of "!'()*;" c)) a.
Proof. apply all_many; [apply userinfo_rfc|vm_compute; reflexivity]. Qed.

Lemma userinfo_sound a : all (item userinfo_set) a → rfc_userinfo a.
Proof. intros Ha%all_userinfo. eapply many_impl; [|exact Ha]. by intros c [? _]%andb_prop. Qed.

Lemma userinfo_complete a : rfc_userinfo a → supported_userinfo a → all (item userinfo_set) a.
Proof.
  rewrite all_userinfo. induction 1 as [|c a Hc _ IH|e a He _ IH]; intros Hs; [constructor| |].
  - apply Forall_cons in Hs as [Hs Ha]. apply Many_char; [by rewrite Hc, Hs|auto].
  - apply Forall_app in Hs as [_ Ha]. apply Many_pct; auto.
Qed.

Lemma parts_sound x : parts_ok false x → URI_reference x.
Proof.
  intros (Hs & Hu & Hp & Hq & Hf & _). split_and!.
  - eapply on_impl; [|exact Hs]. intros a. apply scheme_ok_rfc.
  - eapply on_impl; [|exact Hu]. intros [[user host] port] (H1 & H2 & H3).
    split_and!; [eapply on_impl; [apply userinfo_sound|done]|by apply host_sound|eapply on_impl; [apply port_rfc|done]].
  - unfold path_ok in Hp. unfold rfc_path. destruct (authority x); [by apply abempty_rfc|]. destruct (scheme x); [by left|].
    destruct Hp as [?|[?%absolute_rfc|?%noscheme_rfc]]; auto.
  - eapply on_impl; [|exact Hq]. intros a. apply query_ok_rfc.
  - eapply on_impl; [|exact Hf]. intros a. apply fragment_ok_rfc.
Qed.

Lemma parts_complete x : URI_reference x → supported x → parts_ok false x.
Proof.
  intros (Hs & Hu & Hp & Hq & Hf) (Sp & Sf & Su). split_and!.
  - eapply on_impl; [|exact Hs]. intros a. apply scheme_ok_rfc.
  - destruct (authority x) as [[[user host] port]|]; [|done]. destruct Hu as (H1 & H2 & H3), Su as [S1 S2]. split_and!.
    + destruct user; [by apply userinfo_complete|done].
    + by apply host_complete.
    + eapply on_impl; [apply port_rfc|done].
  - unfold rfc_path in Hp. unfold path_ok. destruct (authority x); [by apply abempty_rfc|]. destruct (scheme x); [by apply Sp|].
    destruct Hp as [?|[?%absolute_rfc|?%noscheme_rfc]]; auto.
  - eapply on_impl; [|exact Hq]. intros a. apply query_ok_rfc.
  - eapply on_impl; [|exact Hf]. intros a. apply fragment_ok_rfc.
  - intros Hfr Hsc. by rewrite Sf in Hfr.
Qed.

(** ** The theorem *)

(** C30: The parser and the grammar of RFC 3986, with escapes [%uXXXX] as well and
    without IP literals: every text that is accepted is a URI reference of the grammar
    with at most 65535 characters, and the object has the text with the scheme in lower
    case, the places of the parts of the text, and the number of the port; and every URI
    reference with at most 65535 characters and a port of at most 65535 (and 128 digits)
    is accepted, provided that it is [supported]: if it has a scheme then it has an
    authority or its path is empty, if it has no scheme then it has no fragment, there is
    none of the characters [!'()*;] in the userinfo, and the host is an IPv4 address or
    begins with a character that is not a digit.  The parser is the one without the flag
    for non-conformant URIs. *)
Theorem Uri_rfc3986 elsewhere s erange :
  (∀ u, fst (TryParse_Uri false elsewhere s erange) = Some u →
     ∃ x, URI_reference x ∧ s = render x ∧ size_of s ≤ 65535 ∧ port_number x = Some (port_ u) ∧
       uri_ u = render (lower_scheme x) ∧ comps_ u = places elsewhere x) ∧
  (∀ x n, URI_reference x → supported x → s = render x → size_of s ≤ 65535 → port_number x = Some n →
     fst (TryParse_Uri false elsewhere s erange) = Some (mkUri (render (lower_scheme x)) (places elsewhere x) n)).
Proof.
  split.
  - intros u (x & Hx & ?)%Uri_accepts. exists x. split; [by apply parts_sound|done].
  - intros x n Hx Hsup -> Hle Hn. apply Uri_accepts. exists x. split_and!; try done. by apply parts_complete.
Qed.

Definition rfc_parts : parts :=
  mkParts (Some (chars_of "HTTP")) (Some (Some (chars_of "me"), chars_of "example.com", Some (chars_of "8080"))) (chars_of "/a%20b") (Some (chars_of "q=1")) (Some (chars_of "top")).

(** Parts that are given as text. *)
Lemma many_check (ok : ascii → bool) (s : string) : forallb ok (chars_of s) = true → many ok (chars_of s).
Proof. intros Hs. apply many_forall, Forall_forall. intros c Hc. rewrite forallb_forall in Hs. by apply Hs, list_elem_of_In. Qed.

Lemma rfc_parts_reference : URI_reference rfc_parts ∧ supported rfc_parts.
Proof.
  assert (Hp : path_abempty (chars_of "/a%20b")).
  { apply (Path_segment (chars_of "a%20b") []); [|constructor]. apply Many_char; [reflexivity|].
    apply (Many_pct _ (chars_of "%20")); [constructor; reflexivity|by apply (many_check _ "b")]. }
  split; split_and!; try done; cbn.
  - exists "H"%char, (chars_of "TTP"). split_and!; [reflexivity..|]. by repeat constructor.
  - split_and!; [by apply (many_check _ "me")|by apply (many_check _ "example.com")|by repeat constructor].
  - by apply (many_check _ "q=1").
  - by apply (many_check _ "top").
  - split; [by repeat constructor|]. right. by exists "e"%char, (chars_of "xample.com").
Qed.

Lemma Uri_rfc3986_witness :
  render rfc_parts = chars_of "HTTP://me@example.com:8080/a%20b?q=1#top" ∧
  fst (TryParse_Uri false 0 (render rfc_parts) false) = Some (mkUri (render (lower_scheme rfc_parts)) (places 0 rfc_parts) 8080) ∧
  ∃ x, URI_reference x ∧ render rfc_parts = render x.
Proof.
  destruct rfc_parts_reference as [Hx Hs]. destruct (Uri_rfc3986 0 (render rfc_parts) false) as [Hsound Hcomplete].
  assert (Hu := Hcomplete rfc_parts 8080 Hx Hs eq_refl ltac:(vm_compute; discriminate) ltac:(vm_compute; reflexivity)).
  split; [vm_compute; reflexivity|]. split; [exact Hu|]. destruct (Hsound _ Hu) as (x & H1 & H2 & _). exists x. exact (conj H1 H2).
Defined.

(** *** What is not supported *)

(** A scheme and a path, without an authority. *)
Example scheme_and_path :
  fst (TryParse_Uri false 0 (chars_of "mailto:me@example.com") false) = None ∧ fst (TryParse_Uri false 0 (chars_of "file:/etc/hosts") false) = None ∧
  fst (TryParse_Uri false 0 (chars_of "file://localhost/etc/hosts") false) ≠ None.
Proof. by vm_compute. Qed.

(** A fragment without a scheme. *)
Example relative_fragment : fst (TryParse_Uri false 0 (chars_of "/a#b") false) = None ∧ fst (TryParse_Uri false 0 (chars_of "http://h/a#b") false) ≠ None.
Proof. by vm_compute. Qed.

(** A semicolon in the userinfo, which the comment at [match_userinfo] lists. *)
Example userinfo_semicolon : fst (TryParse_Uri false 0 (chars_of "http://a;b@h/") false) = None ∧ fst (TryParse_Uri false 0 (chars_of "http://a,b@h/") false) ≠ None.
Proof. by vm_compute. Qed.

(** No host, and a host that begins with an address. *)
Example empty_host : fst (TryParse_Uri false 0 (chars_of "file:///etc/hosts") false) = None.
Proof. vm_compute. reflexivity. Qed.
Example host_behind_address : fst (TryParse_Uri false 0 (chars_of "http://1.2.3.4.example.com/") false) = None ∧ fst (TryParse_Uri false 0 (chars_of "http://1.2.3.4/") false) ≠ None.
Proof. by vm_compute. Qed.
