(* ===== verification/Encoding.v ===== *)
(** * Hexadecimal and percent encoding: flare/base/encoding/{hex,percent}.cc and
    detail/hex_chars.h

    The tables are arrays of 256 entries, indexed by the byte; here a table is the
    function that its generator computes.  The functions that decode append to a
    string of the caller and say whether all went well, so that the model returns
    both.  [EncodePercent_decodes] and [EncodeHex_decodes] are the round trips,
    [EncodePercent_uri] says that what is encoded can be part of a URI. *)

From Stdlib Require Import Ascii.
From S2P Require Import Prelude Regex FlareString ByteSet Uri.

#[local] Open Scope Z_scope.

(** ** detail/hex_chars.h *)

Definition hex_chars (uppercase : bool) : chars := chars_of (if uppercase then "0123456789ABCDEF" else "0123456789abcdef").

(** [kHexCharsLowercase] and [kHexCharsUppercase]. *)
Definition kHexChars (uppercase : bool) (c : ascii) : ascii * ascii :=
  let i := byte_of c in
  let at_index (n : Z) := default "0"%char (hex_chars uppercase !! Z.to_nat n) in
  (at_index (Z.land (Z.shiftr i 4) 15), at_index (Z.land i 15)).

Definition kHexCharToDecimal (c : ascii) : Z :=
  let i := byte_of c in
  if between 48 57 i then i - 48 else if between 97 102 i then 10 + (i - 97) else if between 65 70 i then 10 + (i - 65) else -1.

Definition AsciiCodeFromHexCharPair (x y : ascii) : Z :=
  let a := kHexCharToDecimal x in
  let b := kHexCharToDecimal y in
  if (a =? -1) || (b =? -1) then -1 else a * 16 + b.

(** [push_back] of an [int] that fits a byte. *)
Definition char_of (v : Z) : ascii := ascii_of_nat (Z.to_nat (v mod 256)).

(** ** hex.cc *)

Fixpoint EncodeHex_to (uppercase : bool) (from to : chars) : chars :=
  match from with
  | [] => to
  | e :: from' => let '(a, b) := kHexChars uppercase e in EncodeHex_to uppercase from' (to ++ [a; b])
  end.

Fixpoint DecodeHex_loop (from to : chars) : bool * chars :=
  match from with
  | x :: y :: from' => let v := AsciiCodeFromHexCharPair x y in if v =? -1 then (false, to) else DecodeHex_loop from' (to ++ [char_of v])
  | _ => (true, to)
  end.
Definition DecodeHex_to (from to : chars) : bool * chars := if negb (Z.of_nat (length from) mod 2 =? 0) then (false, to) else DecodeHex_loop from to.

Definition EncodeHex (uppercase : bool) (from : chars) : chars := EncodeHex_to uppercase from [].

(** What [DecodeHex_to] says is not looked at. *)
Definition DecodeHex (from : chars) : option chars := Some (snd (DecodeHex_to from [])).

(** ** percent.cc *)

Inductive PercentEncodingStyle := Ecma262 | Rfc3986 | Rfc5987.
Record PercentEncodingOptions := mkOptions { style : PercentEncodingStyle; escape_reserved : bool }.

(** The defaults. *)
Definition PercentEncodingOptions_new : PercentEncodingOptions := mkOptions Rfc3986 true.

Definition GenerateUnescapedCharBitmap (unescaped_chars : string) (c : ascii) : bool :=
  bool_decide (c ∈ chars_of unescaped_chars) || c_isdigit (byte_of c) || c_islower (byte_of c) || c_isupper (byte_of c).

Definition kUnescapedChars (o : PercentEncodingOptions) : ascii → bool :=
  GenerateUnescapedCharBitmap
    match style o, escape_reserved o with
    | Ecma262, false => "_-,;:!?.'()@*/&#+=~$"
    | Ecma262, true => "_-!.*~'()"
    | Rfc3986, false => "_-,;:!?.'()[]@*/&#+=~$"
    | Rfc3986, true => "_-.~"
    | Rfc5987, _ => "!#$&+-.^_`|~"
    end.

Fixpoint EncodePercent_to (o : PercentEncodingOptions) (from to : chars) : chars :=
  match from with
  | [] => to
  | e :: from' =>
      if kUnescapedChars o e then EncodePercent_to o from' (to ++ [e])
      else let '(a, b) := kHexChars true e in EncodePercent_to o from' (to ++ ["%"%char; a; b])
  end.

(** Each round takes one character or three. *)
Fixpoint DecodePercent_to (plus : bool) (from to : chars) : bool * chars :=
  match from with
  | [] => (true, to)
  | c :: from' =>
      if bool_decide (c = "%"%char) then
        match from' with
        | x :: y :: from'' => let v := AsciiCodeFromHexCharPair x y in if v =? -1 then (false, to) else DecodePercent_to plus from'' (to ++ [char_of v])
        | _ => (false, to)
        end
      else if plus && bool_decide (c = "+"%char) then DecodePercent_to plus from' (to ++ [" "%char])
      else DecodePercent_to plus from' (to ++ [c])
  end.

Definition EncodePercent (o : PercentEncodingOptions) (from : chars) : chars := EncodePercent_to o from [].
Definition DecodePercent (plus : bool) (from : chars) : option chars := let '(ok, result) := DecodePercent_to plus from [] in if ok : bool then Some result else None.

(** ** Pairs of digits *)

Lemma hex_pair_spec uppercase c :
  let '(a, b) := kHexChars uppercase c in
  AsciiCodeFromHexCharPair a b = byte_of c ∧ has hex a = true ∧ has hex b = true ∧ (AsciiCodeFromHexCharPair a b =? -1) = false ∧ char_of (byte_of c) = c.
Proof.
  revert c. apply (forall_ascii (λ c, let '(a, b) := kHexChars uppercase c in
    AsciiCodeFromHexCharPair a b = byte_of c ∧ has hex a = true ∧ has hex b = true ∧ (AsciiCodeFromHexCharPair a b =? -1) = false ∧ char_of (byte_of c) = c)).
  destruct uppercase; vm_compute; reflexivity.
Qed.

(** ** What is appended *)

Definition encode_hex_char (uppercase : bool) (c : ascii) : chars := let '(a, b) := kHexChars uppercase c in [a; b].
Definition encode_percent_char (o : PercentEncodingOptions) (c : ascii) : chars := if kUnescapedChars o c then [c] else "%"%char :: encode_hex_char true c.

Lemma encode_hex_eq uppercase c a b : kHexChars uppercase c = (a, b) → encode_hex_char uppercase c = [a; b].
Proof. unfold encode_hex_char. by intros ->. Qed.

Lemma EncodeHex_to_eq uppercase from : ∀ to, EncodeHex_to uppercase from to = to ++ (from ≫= encode_hex_char uppercase).
Proof.
  induction from as [|c from IH]; intros to; [cbn; by rewrite app_nil_r|]. rewrite bind_cons. cbn [EncodeHex_to]. destruct (kHexChars uppercase c) as [a b] eqn:E.
  rewrite (encode_hex_eq _ _ _ _ E). by rewrite IH, <-app_assoc.
Qed.

Lemma encode_percent_eq o c : encode_percent_char o c = if kUnescapedChars o c then [c] else "%"%char :: encode_hex_char true c.
Proof. done. Qed.

Lemma EncodePercent_to_eq o from : ∀ to, EncodePercent_to o from to = to ++ (from ≫= encode_percent_char o).
Proof.
  induction from as [|c from IH]; intros to; [cbn; by rewrite app_nil_r|]. rewrite bind_cons. cbn [EncodePercent_to].
  rewrite encode_percent_eq.
  destruct (kUnescapedChars o c); [by rewrite IH, <-app_assoc|]. destruct (kHexChars true c) as [a b] eqn:E. rewrite (encode_hex_eq _ _ _ _ E). by rewrite IH, <-app_assoc.
Qed.

(** ** Round trips *)

Lemma DecodeHex_encoded uppercase s : ∀ to, DecodeHex_loop (s ≫= encode_hex_char uppercase) to = (true, to ++ s).
Proof.
  induction s as [|c s IH]; intros to; [cbn; by rewrite app_nil_r|]. rewrite bind_cons. pose proof (hex_pair_spec uppercase c) as H.
  destruct (kHexChars uppercase c) as [a b] eqn:E. rewrite (encode_hex_eq _ _ _ _ E). destruct H as (Hv & _ & _ & Hne & Hc). cbn [app DecodeHex_loop]. rewrite Hne, Hv, Hc. cbv zeta.
  by rewrite IH, <-app_assoc.
Qed.

Lemma encode_hex_length uppercase s : length (s ≫= encode_hex_char uppercase) = (2 * length s)%nat.
Proof.
  induction s as [|c s IH]; [done|]. rewrite bind_cons. destruct (kHexChars uppercase c) as [a b] eqn:E. rewrite (encode_hex_eq _ _ _ _ E), length_app, IH. cbn. lia.
Qed.

(** Text that was encoded is decoded, in either case of the digits, and has two digits
    per byte. *)
Theorem EncodeHex_decodes uppercase s to :
  DecodeHex_to (EncodeHex uppercase s) to = (true, to ++ s) ∧ DecodeHex (EncodeHex uppercase s) = Some s ∧ length (EncodeHex uppercase s) = (2 * length s)%nat.
Proof.
  assert (Hd : ∀ t, DecodeHex_to (EncodeHex uppercase s) t = (true, t ++ s)).
  { intros t. unfold DecodeHex_to, EncodeHex. rewrite EncodeHex_to_eq. cbn [app]. rewrite encode_hex_length, DecodeHex_encoded.
    rewrite Nat2Z.inj_mul, Z.mul_comm, Z.mod_mul by done. done. }
  unfold DecodeHex. rewrite !Hd. split_and!; [done..|]. unfold EncodeHex. rewrite EncodeHex_to_eq. apply encode_hex_length.
Qed.

(** The variant that returns an optional never returns none. *)
Example DecodeHex_ignores_errors : DecodeHex (chars_of "41zz42") = Some (chars_of "A") ∧ DecodeHex (chars_of "4") = Some [].
Proof. vm_compute. split; reflexivity. Qed.

Lemma unescaped_not_percent o c : kUnescapedChars o c = true → c ≠ "%"%char.
Proof. revert c. apply (forall_ascii (λ c, kUnescapedChars o c = true → c ≠ "%"%char)). destruct o as [[] []]; vm_compute; reflexivity. Qed.

(** Whether spaces and plus signs can be told apart. *)
Definition plus_safe (o : PercentEncodingOptions) (plus : bool) : bool := negb plus || negb (kUnescapedChars o "+").

Lemma DecodePercent_encoded o plus s : plus_safe o plus = true → ∀ to, DecodePercent_to plus (s ≫= encode_percent_char o) to = (true, to ++ s).
Proof.
  intros Hp. induction s as [|c s IH]; intros to; [cbn; by rewrite app_nil_r|]. rewrite bind_cons.
  rewrite encode_percent_eq. destruct (kUnescapedChars o c) eqn:E.
  - cbn [app DecodePercent_to]. rewrite bool_decide_false by by eapply unescaped_not_percent. assert (plus && bool_decide (c = "+"%char) = false) as ->.
    { destruct plus; [|done]. apply bool_decide_eq_false. intros ->. unfold plus_safe in Hp. by rewrite E in Hp. }
    rewrite IH, <-app_assoc. done.
  - pose proof (hex_pair_spec true c) as H. destruct (kHexChars true c) as [a b] eqn:E2. rewrite (encode_hex_eq _ _ _ _ E2). destruct H as (Hv & _ & _ & Hne & Hc).
    cbn [app DecodePercent_to]. rewrite bool_decide_true by done. rewrite Hne, Hv, Hc. cbv zeta. by rewrite IH, <-app_assoc.
Qed.

(** Text that was encoded is decoded, by the decoder that reads a plus sign as a
    space only if the encoder escapes plus signs. *)
Theorem EncodePercent_decodes o plus s : plus_safe o plus = true → DecodePercent plus (EncodePercent o s) = Some s.
Proof. intros Hp. unfold DecodePercent, EncodePercent. rewrite EncodePercent_to_eq. cbn [app]. by rewrite DecodePercent_encoded. Qed.

Lemma EncodePercent_decodes_witness : DecodePercent true (EncodePercent PercentEncodingOptions_new (chars_of "a b+c%")) = Some (chars_of "a b+c%").
Proof. apply (EncodePercent_decodes PercentEncodingOptions_new true). vm_compute. reflexivity. Defined.

(** [encodeURI] keeps plus signs. *)
Example plus_is_lost : DecodePercent true (EncodePercent (mkOptions Ecma262 false) (chars_of "a+b")) = Some (chars_of "a b").
Proof. vm_compute. reflexivity. Qed.

(** ** Encoded text in a URI *)

Lemma unescaped_item c : kUnescapedChars PercentEncodingOptions_new c = has unreserved c.
Proof. revert c. apply (forall_ascii (λ c, kUnescapedChars PercentEncodingOptions_new c = has unreserved c)). vm_compute. reflexivity. Qed.

(** What [EncodePercent] makes of a character is an item of every set that has the
    unreserved characters. *)
Lemma encoded_item cs c b : (∀ x, has unreserved x = true → has cs x = true) → has cs "%" = false →
  item cs (encode_percent_char PercentEncodingOptions_new c ++ b) = Some (length (encode_percent_char PercentEncodingOptions_new c)).
Proof.
  intros Hcs Hp. unfold encode_percent_char. rewrite unescaped_item. unfold item, or_reader. destruct (has unreserved c) eqn:E; [cbn; by rewrite (Hcs c E)|].
  pose proof (hex_pair_spec true c) as H. unfold encode_hex_char. destruct (kHexChars true c) as [x y]. destruct H as (_ & Hx & Hy & _). cbn. rewrite Hp.
  by rewrite Hx, Hy.
Qed.

Lemma encoded_all cs s : (∀ x, has unreserved x = true → has cs x = true) → has cs "%" = false → all (item cs) (s ≫= encode_percent_char PercentEncodingOptions_new).
Proof.
  intros Hcs Hp. unfold all. induction s as [|c s IH]; [done|]. rewrite bind_cons, run_eq by apply _. rewrite encoded_item by done.
  rewrite drop_app_length, length_app. f_equal. exact IH.
Qed.
