(* ===== verification/RateLimiter.v ===== *)
(** * Rate limiters: flare/io/util/rate_limiter.{h,cc}

    [RateLimiter] is the interface of the code, with an instance per class: no limit, a
    bucket of tokens, a limiter behind a lock, and two limiters one upon the other.
    [GetQuota] reads the clock, once per bucket; [Clock] is the type of what is read.
    A call of [ThreadSafeRateLimiter] holds the lock, so that calls of several threads
    are a sequence of calls.

    The second half is a program whose connections have a limiter of their own upon one
    that all share.  Between asking for a quota and saying what they have used, others
    may ask; [Bandwidth_bounded] says how far that carries the program over the limit,
    and that it is a constant, not a share of the time. *)

From Stdlib Require Import Ascii.
From S2P Require Import Prelude Regex FlareString.

#[local] Open Scope Z_scope.

Definition i64 (z : Z) : Z := (z + 2 ^ 63) mod 2 ^ 64 - 2 ^ 63.

(** ** The interface *)

Class RateLimiter (S : Type) := {
  Clock : Type;
  GetQuota : Clock → S → outcome (Z * S);
  ConsumeBytes : Z → S → outcome S;
}.

Definition size_max : Z := 2 ^ 64 - 1.

Inductive NullLimiter := mkNullLimiter.

Definition Null_GetQuota (c : unit) (l : NullLimiter) : outcome (Z * NullLimiter) := Ret (size_max, l).
Definition Null_ConsumeBytes (consumed : Z) (l : NullLimiter) : outcome NullLimiter := Ret l.

#[export] Instance NullLimiter_ops : RateLimiter NullLimiter := {
  Clock := unit;
  GetQuota := Null_GetQuota;
  ConsumeBytes := Null_ConsumeBytes;
}.

(** ** The bucket *)

Record TokenBucketRateLimiter := mkTokenBucket {
  max_quota_ : Z;
  quota_per_tick_ : Z;
  tick_ : Z;
  over_consumption_allowed_ : bool;
  last_refill_ : Z;
  curr_quota_ : Z;
}.
Implicit Types (s : TokenBucketRateLimiter).

Definition with_quota (last curr : Z) s : TokenBucketRateLimiter :=
  mkTokenBucket (max_quota_ s) (quota_per_tick_ s) (tick_ s) (over_consumption_allowed_ s) last curr.

(** [time] is the clock in nanoseconds. *)
Definition TokenBucketRateLimiter_new (burst_quota quota_per_tick tick : Z) (over_consumption_allowed : bool) (time : Z) : outcome TokenBucketRateLimiter :=
  if negb (0 <? burst_quota) then Abort
  else if negb (0 <? quota_per_tick) then Abort
  else Ret (mkTokenBucket burst_quota quota_per_tick tick over_consumption_allowed (u64 (Z.quot time tick)) (i64 burst_quota)).

Definition TokenBucket_GetQuota (time : Z) s : outcome (Z * TokenBucketRateLimiter) :=
  let now := Z.quot time (tick_ s) in
  let curr := i64 (curr_quota_ s + u64 (quota_per_tick_ s * u64 (now - last_refill_ s))) in
  if 0 <? curr then
    let curr' := i64 (Z.min (u64 curr) (max_quota_ s)) in
    Ret (u64 curr', with_quota (u64 now) curr' s)
  else Ret (0, with_quota (u64 now) curr s).

(** The comparison is one of unsigned numbers. *)
Definition TokenBucket_ConsumeBytes (consumed : Z) s : outcome TokenBucketRateLimiter :=
  if over_consumption_allowed_ s || (consumed <=? u64 (curr_quota_ s)) then Ret (with_quota (last_refill_ s) (i64 (curr_quota_ s - consumed)) s) else Abort.

#[export] Instance TokenBucket_ops : RateLimiter TokenBucketRateLimiter := {
  Clock := Z;
  GetQuota := TokenBucket_GetQuota;
  ConsumeBytes := TokenBucket_ConsumeBytes;
}.

(** ** The lock *)

Record ThreadSafeRateLimiter (S : Type) := mkThreadSafe { burst_limit_ : Z; impl_ : S }.
Arguments mkThreadSafe {S}.
Arguments burst_limit_ {S}.
Arguments impl_ {S}.

Definition ThreadSafeRateLimiter_new {S} (limiter : S) (burst_limit : Z) : outcome (ThreadSafeRateLimiter S) :=
  if negb (0 <? burst_limit) then Abort else Ret (mkThreadSafe burst_limit limiter).

Definition ThreadSafe_GetQuota {S} `{RateLimiter S} (c : Clock (S := S)) (l : ThreadSafeRateLimiter S) : outcome (Z * ThreadSafeRateLimiter S) :=
  '(q, impl) ←! GetQuota c (impl_ l); Ret (Z.min (burst_limit_ l) q, mkThreadSafe (burst_limit_ l) impl).
Definition ThreadSafe_ConsumeBytes {S} `{RateLimiter S} (consumed : Z) (l : ThreadSafeRateLimiter S) : outcome (ThreadSafeRateLimiter S) :=
  impl ←! ConsumeBytes consumed (impl_ l); Ret (mkThreadSafe (burst_limit_ l) impl).

#[export] Instance ThreadSafe_ops S `{RateLimiter S} : RateLimiter (ThreadSafeRateLimiter S) := {
  Clock := Clock (S := S);
  GetQuota := ThreadSafe_GetQuota;
  ConsumeBytes := ThreadSafe_ConsumeBytes;
}.

(** ** Layers; the upper one is shared, so that it is part of the state *)

Definition Layered_GetQuota {U S} `{RateLimiter U, RateLimiter S} (c : Clock (S := U) * Clock (S := S)) (l : U * S) : outcome (Z * (U * S)) :=
  '(q1, upper) ←! GetQuota c.1 l.1; '(q2, ours) ←! GetQuota c.2 l.2; Ret (Z.min q1 q2, (upper, ours)).
Definition Layered_ConsumeBytes {U S} `{RateLimiter U, RateLimiter S} (consumed : Z) (l : U * S) : outcome (U * S) :=
  upper ←! ConsumeBytes consumed l.1; ours ←! ConsumeBytes consumed l.2; Ret (upper, ours).

#[export] Instance Layered_ops U S `{RateLimiter U, RateLimiter S} : RateLimiter (U * S) := {
  Clock := Clock (S := U) * Clock (S := S);
  GetQuota := Layered_GetQuota;
  ConsumeBytes := Layered_ConsumeBytes;
}.

(** ** The flags *)

Definition kScales (c : ascii) : option Z :=
  if bool_decide (c = "K"%char) then Some 1000 else if bool_decide (c = "M"%char) then Some 1000000 else if bool_decide (c = "G"%char) then Some 1000000000 else None.

Definition ParseToBps (flag : chars) (erange : bool) : outcome (Z * bool) :=
  match last flag with
  | None => Abort
  | Some c =>
      let '(scale, digits) := match kScales c with Some k => (k, take (length flag - 1) flag) | None => (1, flag) end in
      let '(base, erange') := TryParse_uint (2 ^ 64 - 1) digits erange in
      match base with
      | None => Abort
      | Some b => if u64 (b * scale) / scale =? b then Ret (u64 (b * scale) / 8, erange') else Abort
      end
  end.

Definition GetRateLimiterOf (bps time : Z) : outcome (NullLimiter + ThreadSafeRateLimiter TokenBucketRateLimiter) :=
  if bps =? 0 then Ret (inl mkNullLimiter)
  else bucket ←! TokenBucketRateLimiter_new bps (bps / 1000) 1000000 true time; l ←! ThreadSafeRateLimiter_new bucket (bps / 10); Ret (inr l).

(** A number that is parsed is not scaled past the type: the check is exact. *)
Lemma scale_check b scale : 0 ≤ b → 0 < scale → (u64 (b * scale) / scale =? b) = (b * scale <? 2 ^ 64).
Proof.
  intros Hb Hs. unfold u64. destruct (Z.ltb_spec (b * scale) (2 ^ 64)) as [Hlt|Hge].
  - rewrite Z.mod_small by nia. apply Z.eqb_eq, Z.div_mul. lia.
  - apply Z.eqb_neq. intros Heq. pose proof (Z.mod_pos_bound (b * scale) (2 ^ 64) ltac:(lia)).
    pose proof (Z.mul_div_le ((b * scale) mod 2 ^ 64) scale Hs). rewrite Heq in *. pose proof (Z.mul_comm b scale). lia.
Qed.

(** ** The bucket in numbers that do not overflow *)

Lemma i64_small z : - 2 ^ 63 ≤ z < 2 ^ 63 → i64 z = z.
Proof. intros Hz. unfold i64. rewrite Z.mod_small by lia. lia. Qed.

(** [time] is in ticks here: how the quota grows. *)
Definition refilled (now : Z) s : Z := Z.min (max_quota_ s) (curr_quota_ s + quota_per_tick_ s * (now - last_refill_ s)).

Record tb_wf s : Prop := {
  wf_max : 0 < max_quota_ s < 2 ^ 62;
  wf_rate : 0 < quota_per_tick_ s;
  wf_tick : 0 < tick_ s;
  wf_over : over_consumption_allowed_ s = true;
  wf_last : 0 ≤ last_refill_ s;
  wf_curr : - 2 ^ 62 ≤ curr_quota_ s ≤ max_quota_ s;
}.

(** The clock does not go back, and does not go on for centuries. *)
Definition clock_ok (time : Z) s : Prop := last_refill_ s ≤ Z.quot time (tick_ s) ∧ quota_per_tick_ s * Z.quot time (tick_ s) < 2 ^ 62.

Lemma GetQuota_spec time s : tb_wf s → clock_ok time s →
  let now := Z.quot time (tick_ s) in
  TokenBucket_GetQuota time s = Ret (Z.max 0 (refilled now s), with_quota now (refilled now s) s).
Proof.
  intros [Hmax Hrate Htick Hover Hlast Hcurr] [Hle Hbig] now. unfold TokenBucket_GetQuota, refilled. fold now in Hle, Hbig |- *.
  assert (Hgrow : 0 ≤ quota_per_tick_ s * (now - last_refill_ s) < 2 ^ 62) by nia. assert (now < 2 ^ 62) by nia.
  rewrite (u64_small (now - _)) by lia. rewrite (u64_small (_ * _)) by lia. rewrite (u64_small now) by lia. rewrite i64_small by lia.
  destruct (Z.ltb_spec 0 (curr_quota_ s + quota_per_tick_ s * (now - last_refill_ s))) as [Hpos|Hneg].
  - rewrite (u64_small (curr_quota_ s + _)) by lia. rewrite i64_small by lia. rewrite u64_small by lia. rewrite (Z.min_comm (max_quota_ s)). by replace (Z.max 0 _) with (Z.min (curr_quota_ s + quota_per_tick_ s * (now - last_refill_ s)) (max_quota_ s)) by lia.
  - rewrite Z.min_r by lia. by rewrite Z.max_l by lia.
Qed.

Lemma ConsumeBytes_spec n s : tb_wf s → 0 ≤ n → - 2 ^ 62 ≤ curr_quota_ s - n →
  TokenBucket_ConsumeBytes n s = Ret (with_quota (last_refill_ s) (curr_quota_ s - n) s).
Proof. intros [Hmax Hrate Htick Hover Hlast Hcurr] Hn Hle. unfold TokenBucket_ConsumeBytes. rewrite Hover. cbn [orb]. by rewrite i64_small by lia. Qed.

(** What is left and what was used, less what came in: no call makes it more. *)
Definition ledger s (used : Z) : Z := curr_quota_ s + used - quota_per_tick_ s * last_refill_ s.

(** [granted] may be used without asking again; [debt] is how far the bucket may be in
    the red when all of it is used. *)
Definition solvent s (granted debt : Z) : Prop := tb_wf s ∧ 0 ≤ granted ∧ 0 ≤ debt ≤ 2 ^ 62 ∧ - debt ≤ curr_quota_ s - granted.

Lemma ask_solvent time s granted granted' debt used :
  let r := refilled (Z.quot time (tick_ s)) s in
  let s' := with_quota (Z.quot time (tick_ s)) r s in
  solvent s granted debt → clock_ok time s → 0 ≤ granted' → (0 < r → granted' - debt ≤ r) → (r ≤ 0 → granted' ≤ granted) →
  solvent s' granted' debt ∧ ledger s' used ≤ ledger s used.
Proof.
  intros r s' ([Hmax Hrate Htick Hover Hlast Hcurr] & Hg & Hd & Hs) [Hle Hbig] Hg' Hpos Hneg. unfold refilled in r.
  set (now := Z.quot time (tick_ s)) in *. assert (Hgrow : 0 ≤ quota_per_tick_ s * (now - last_refill_ s)) by nia.
  assert (Hr : r = Z.min (max_quota_ s) (curr_quota_ s + quota_per_tick_ s * (now - last_refill_ s))) by done. clearbody r.
  split; [split_and!|]; [|done|lia|lia| |].
  - split; cbn; done || lia.
  - cbn. destruct (Z.lt_ge_cases 0 r); [specialize (Hpos ltac:(done)); lia|]. specialize (Hneg ltac:(done)). lia.
  - unfold ledger. cbn. rewrite Hr. nia.
Qed.

Lemma use_solvent n s granted debt used :
  let s' := with_quota (last_refill_ s) (curr_quota_ s - n) s in
  solvent s granted debt → 0 ≤ n ≤ granted → TokenBucket_ConsumeBytes n s = Ret s' ∧ solvent s' (granted - n) debt ∧ ledger s' (used + n) = ledger s used.
Proof.
  intros s' (Hwf & Hg & Hd & Hs) Hn. split; [apply ConsumeBytes_spec; [done|lia..]|]. destruct Hwf as [Hmax Hrate Htick Hover Hlast Hcurr].
  split; [split_and!; cbn; [|lia..]; split; cbn; done || lia|]. unfold ledger. cbn. lia.
Qed.

Definition same_limits s1 s2 : Prop := max_quota_ s2 = max_quota_ s1 ∧ quota_per_tick_ s2 = quota_per_tick_ s1.

(** What the ledgers of two moments say about the use in between. *)
Lemma ledger_bound s1 s2 granted debt used1 used2 : solvent s1 granted debt → (∃ g, solvent s2 g debt) → same_limits s1 s2 →
  ledger s2 used2 ≤ ledger s1 used1 → used2 - used1 ≤ max_quota_ s1 + quota_per_tick_ s1 * (last_refill_ s2 - last_refill_ s1) + debt.
Proof.
  intros (Hwf & _ & _ & _) (g & _ & Hg & _ & Hs) [_ Hq]. unfold ledger. rewrite Hq. destruct Hwf as [_ _ _ _ _ Hcurr]. lia.
Qed.

(** ** A program of many connections *)

(** The limiter of all, and of each connection its own, what it may still use of the
    last quota, and what it has used. *)
Record connection := mkConnection { own : TokenBucketRateLimiter; granted : Z; used : Z }.
Record program := mkProgram { shared : ThreadSafeRateLimiter TokenBucketRateLimiter; connections : list connection }.
Implicit Types (p : program) (k : connection).

Inductive event :=
  | Ask (i : nat) (times : Z * Z)
  | Use (i : nat) (n : Z).

#[export] Instance clock_ok_dec time s : Decision (clock_ok time s).
Proof. apply _. Defined.

(** A connection asks before it uses, and uses no more than it got. *)
Definition step (e : event) (p : program) : option (outcome program) :=
  match e with
  | Ask i times =>
      k ← connections p !! i;
      if bool_decide (clock_ok times.1 (impl_ (shared p)) ∧ clock_ok times.2 (own k)) then
        Some ('(q, l) ←! GetQuota (S := ThreadSafeRateLimiter TokenBucketRateLimiter * TokenBucketRateLimiter) times (shared p, own k);
              Ret (mkProgram l.1 (<[i := mkConnection l.2 q (used k)]> (connections p))))
      else None
  | Use i n =>
      k ← connections p !! i;
      if bool_decide (0 ≤ n ≤ granted k) then
        Some (l ←! ConsumeBytes (S := ThreadSafeRateLimiter TokenBucketRateLimiter * TokenBucketRateLimiter) n (shared p, own k);
              Ret (mkProgram l.1 (<[i := mkConnection l.2 (granted k - n) (used k + n)]> (connections p))))
      else None
  end.

Fixpoint run_program (es : list event) (p : program) : option (outcome program) :=
  match es with
  | [] => Some (Ret p)
  | e :: es' => o ← step e p; match o with Ret p' => run_program es' p' | _ => Some o end
  end.

Definition sum (l : list Z) : Z := foldr Z.add 0 l.
Definition total_granted p : Z := sum (granted <$> connections p).
Definition total_used p : Z := sum (used <$> connections p).

(** ** The bound *)

Lemma sum_insert (l : list Z) i x y : l !! i = Some x → sum (<[i := y]> l) = sum l - x + y.
Proof. revert i. induction l as [|z l IH]; intros [|i] Hi; simplify_eq/=; [lia|]. rewrite IH by done. lia. Qed.

Lemma sum_granted p i k k' : connections p !! i = Some k → sum (granted <$> <[i := k']> (connections p)) = total_granted p - granted k + granted k'.
Proof. intros Hk. rewrite list_fmap_insert. apply sum_insert. by rewrite list_lookup_fmap, Hk. Qed.
Lemma sum_used p i k k' : connections p !! i = Some k → sum (used <$> <[i := k']> (connections p)) = total_used p - used k + used k'.
Proof. intros Hk. rewrite list_fmap_insert. apply sum_insert. by rewrite list_lookup_fmap, Hk. Qed.

(** How far the limiter of all may be in the red. *)
Definition debt p : Z := Z.of_nat (length (connections p)) * burst_limit_ (shared p).

Record program_inv p : Prop := {
  inv_shared : solvent (impl_ (shared p)) (total_granted p) (debt p);
  inv_burst : 0 < burst_limit_ (shared p);
  inv_own : Forall (λ k, solvent (own k) (granted k) 0 ∧ granted k ≤ burst_limit_ (shared p)) (connections p);
}.

(** The bookkeeping of the program at two moments. *)
Record later p1 p2 : Prop := {
  later_debt : debt p2 = debt p1;
  later_shared : same_limits (impl_ (shared p1)) (impl_ (shared p2)) ∧
    ledger (impl_ (shared p2)) (total_used p2) ≤ ledger (impl_ (shared p1)) (total_used p1);
  later_own : Forall2 (λ k1 k2, same_limits (own k1) (own k2) ∧ ledger (own k2) (used k2) ≤ ledger (own k1) (used k1)) (connections p1) (connections p2);
}.

Lemma later_refl p : later p p.
Proof. split; [done|done|]. apply Forall_Forall2_diag, Forall_true. done. Qed.

Lemma same_limits_trans s1 s2 s3 : same_limits s1 s2 → same_limits s2 s3 → same_limits s1 s3.
Proof. intros [? ?] [? ?]. split; congruence. Qed.

Lemma later_trans p1 p2 p3 : later p1 p2 → later p2 p3 → later p1 p3.
Proof.
  intros [H1 [H2 H3] H4] [H5 [H6 H7] H8]. split; [congruence|split; [by eapply same_limits_trans|lia]|].
  clear -H4 H8. revert H8. generalize (connections p3). induction H4 as [|k1 k2 l1 l2 [? ?] _ IH]; intros l3 Hl; inversion_clear Hl as [|? k3 ? l3' [? ?]]; constructor; [split; [by eapply same_limits_trans|lia]|auto].
Qed.

Lemma granted_le p : program_inv p → total_granted p ≤ debt p ∧ Forall (λ k, 0 ≤ granted k) (connections p).
Proof.
  intros [_ Hb Ho]. unfold total_granted, debt. induction Ho as [|k l [(_ & Hg & _) Hle] _ [IH1 IH2]]; [split; [cbn; lia|constructor]|].
  rewrite fmap_cons. cbn [sum foldr length]. rewrite Nat2Z.inj_succ, Z.mul_succ_l. fold (sum (granted <$> l)). split; [lia|]. by constructor.
Qed.

Lemma sum_member (l : list Z) i x : Forall (λ x, 0 ≤ x) l → l !! i = Some x → 0 ≤ x ≤ sum l.
Proof.
  intros Hl. assert (Hs : ∀ l', Forall (λ x, 0 ≤ x) l' → 0 ≤ sum l') by (unfold sum; induction 1; cbn in *; lia).
  revert i. induction Hl as [|y l Hy Hl IH]; intros [|i] Hx; simplify_eq/=; [specialize (Hs _ Hl); unfold sum in *; lia|]. specialize (IH i Hx). unfold sum in *. lia.
Qed.

Lemma granted_one p i k : program_inv p → connections p !! i = Some k → 0 ≤ granted k ≤ total_granted p.
Proof. intros Hinv Hk. apply (sum_member _ i); [apply Forall_fmap, granted_le, Hinv|]. by rewrite list_lookup_fmap, Hk. Qed.

(** A step on connection [i] and the limiter of all. *)
Lemma program_step_inv p i k k' l (L := mkProgram l (<[i := k']> (connections p))) :
  program_inv p → connections p !! i = Some k → burst_limit_ l = burst_limit_ (shared p) →
  solvent (impl_ l) (total_granted p - granted k + granted k') (debt p) → solvent (own k') (granted k') 0 → granted k' ≤ burst_limit_ l →
  same_limits (impl_ (shared p)) (impl_ l) → ledger (impl_ l) (total_used p - used k + used k') ≤ ledger (impl_ (shared p)) (total_used p) →
  same_limits (own k) (own k') → ledger (own k') (used k') ≤ ledger (own k) (used k) →
  program_inv L ∧ later p L.
Proof.
  intros [Hs Hb Ho] Hk Hbl Hs' Ho' Hg Hq Hl Hqo Hlo. assert (Hd : debt L = debt p). { unfold debt, L. cbn. by rewrite length_insert, Hbl. }
  assert (HG : total_granted L = total_granted p - granted k + granted k') by (by apply sum_granted).
  assert (HU : total_used L = total_used p - used k + used k') by (by apply sum_used).
  split; split; [by rewrite HG, Hd|by cbn; rewrite Hbl| |done|by rewrite HU|].
  - apply Forall_insert; cbn [shared L]; rewrite Hbl in *; done.
  - cbn [connections L]. rewrite <-(list_insert_id _ _ _ Hk) at 1. apply Forall2_insert; [|done]. apply Forall_Forall2_diag, Forall_true. done.
Qed.

Lemma sum_le (l : list Z) b : Forall (λ x, x ≤ b) l → sum l ≤ Z.of_nat (length l) * b.
Proof. induction 1 as [|x l Hx _ IH]; [done|]. cbn [sum foldr length]. fold (sum l). rewrite Nat2Z.inj_succ, Z.mul_succ_l. lia. Qed.

(** However much the connection asks for, all that is granted is within the debt. *)
Lemma granted_bound p i k g : program_inv p → connections p !! i = Some k → g ≤ burst_limit_ (shared p) → total_granted p - granted k + g ≤ debt p.
Proof.
  intros [_ _ Ho] Hk Hg. change g with (granted (mkConnection (own k) g (used k))) at 1. rewrite <-(sum_granted p i k _ Hk).
  unfold debt. rewrite <-(length_insert (connections p) i (mkConnection (own k) g (used k))), <-(length_fmap granted). apply sum_le, Forall_fmap, Forall_insert; [|done].
  eapply Forall_impl; [exact Ho|]. by intros ? [_ ?].
Qed.

Lemma step_safe e p o : program_inv p → step e p = Some o → ∃ p', o = Ret p' ∧ program_inv p' ∧ later p p'.
Proof.
  intros Hinv. pose proof Hinv as [Hs Hb Ho]. destruct e as [i times|i n]; cbn [step]; destruct (connections p !! i) as [k|] eqn:Hk; try done; cbn [mbind option_bind];
    case_bool_decide as Hok; try done; intros [= <-]; pose proof (Forall_lookup_1 _ _ _ _ Ho Hk) as [Hso Hgo]; pose proof (granted_one p i k Hinv Hk) as Hgk.
  - destruct Hok as [Hc1 Hc2]. cbn [GetQuota Layered_ops]. unfold Layered_GetQuota. cbn [GetQuota ThreadSafe_ops TokenBucket_ops fst snd]. unfold ThreadSafe_GetQuota. cbn [GetQuota TokenBucket_ops].
    rewrite (GetQuota_spec times.1) by (done || apply Hs). cbn [obind]. rewrite (GetQuota_spec times.2) by (done || apply Hso). cbn [obind fst snd burst_limit_ impl_].
    set (r1 := refilled _ (impl_ (shared p))). set (r2 := refilled _ (own k)). set (g := Z.min (Z.min (burst_limit_ (shared p)) (Z.max 0 r1)) (Z.max 0 r2)).
    pose proof (granted_bound p i k g Hinv Hk ltac:(lia)) as Hbound.
    destruct (ask_solvent times.1 (impl_ (shared p)) (total_granted p) (total_granted p - granted k + g) (debt p) (total_used p)) as [Hs1 Hl1]; [done|done|lia|fold r1; lia|fold r1; lia|].
    destruct (ask_solvent times.2 (own k) (granted k) g 0 (used k)) as [Hs2 Hl2]; [done|done|lia|fold r2; lia|fold r2; lia|].
    eexists. split; [reflexivity|]. apply (program_step_inv p i k); cbn; try done; [lia|]. by replace (total_used p - used k + used k) with (total_used p) by lia.
  - cbn [ConsumeBytes Layered_ops]. unfold Layered_ConsumeBytes. cbn [ConsumeBytes ThreadSafe_ops TokenBucket_ops fst snd]. unfold ThreadSafe_ConsumeBytes. cbn [ConsumeBytes TokenBucket_ops].
    destruct (use_solvent n (impl_ (shared p)) (total_granted p) (debt p) (total_used p) Hs ltac:(lia)) as (-> & Hs1 & Hl1). cbn [obind].
    destruct (use_solvent n (own k) (granted k) 0 (used k) Hso ltac:(lia)) as (-> & Hs2 & Hl2). cbn [obind fst snd burst_limit_ impl_].
    eexists. split; [reflexivity|]. apply (program_step_inv p i k); cbn [granted used own impl_ burst_limit_]; try done; [|lia| |lia].
    + by replace (total_granted p - granted k + (granted k - n)) with (total_granted p - n) by lia.
    + replace (total_used p - used k + (used k + n)) with (total_used p + n) by lia. lia.
Qed.

Lemma run_safe es : ∀ p o, program_inv p → run_program es p = Some o → ∃ p', o = Ret p' ∧ program_inv p' ∧ later p p'.
Proof.
  induction es as [|e es IH]; intros p o Hinv; cbn; [intros [= <-]; eauto using later_refl|]. destruct (step e p) as [o1|] eqn:E; [|done]. cbn.
  destruct (step_safe _ _ _ Hinv E) as (p1 & -> & Hinv1 & Hl1). intros Hrun. destruct (IH _ _ Hinv1 Hrun) as (p2 & -> & Hinv2 & Hl2). eauto using later_trans.
Qed.

(** ** From the start *)

(** A bucket that was just made, with numbers and a clock within reason. *)
Lemma new_solvent burst rate tick time s : TokenBucketRateLimiter_new burst rate tick true time = Ret s → burst < 2 ^ 62 → 0 < tick → 0 ≤ time < 2 ^ 63 → ∀ d, 0 ≤ d ≤ 2 ^ 62 →
  solvent s 0 d ∧ max_quota_ s = burst ∧ quota_per_tick_ s = rate ∧ tick_ s = tick.
Proof.
  unfold TokenBucketRateLimiter_new. destruct (Z.ltb_spec 0 burst) as [Hb|]; [|done]. destruct (Z.ltb_spec 0 rate) as [Hr|]; [|done]. cbn [negb]. intros [= <-] Hlt Ht Htime d Hd.
  split; [|done]. rewrite i64_small by lia. assert (0 ≤ Z.quot time tick ≤ time). { split; [apply Z.quot_pos; lia|]. rewrite Z.quot_div_nonneg by lia. apply Z.div_le_upper_bound; nia. }
  rewrite u64_small by lia. split_and!; cbn; [|lia..]. split; cbn; done || lia.
Qed.

Definition fresh k : Prop :=
  granted k = 0 ∧ used k = 0 ∧ ∃ burst rate tick time, TokenBucketRateLimiter_new burst rate tick true time = Ret (own k) ∧ burst < 2 ^ 62 ∧ 0 < tick ∧ 0 ≤ time < 2 ^ 63.

Lemma program_start_inv bps time l ks : GetRateLimiterOf bps time = Ret (inr l) → bps < 2 ^ 62 → 0 ≤ time < 2 ^ 63 → Forall fresh ks → Z.of_nat (length ks) * (bps / 10) ≤ 2 ^ 62 →
  program_inv (mkProgram l ks) ∧ max_quota_ (impl_ l) = bps ∧ quota_per_tick_ (impl_ l) = bps / 1000 ∧ burst_limit_ l = bps / 10.
Proof.
  unfold GetRateLimiterOf. intros Hl Hlt Htime Hks Hn. destruct (bps =? 0); [done|]. destruct (TokenBucketRateLimiter_new bps (bps / 1000) 1000000 true time) as [s| | | |] eqn:E; try done. cbn [obind] in Hl.
  unfold ThreadSafeRateLimiter_new in Hl. destruct (Z.ltb_spec 0 (bps / 10)) as [Hb|]; [|done]. injection Hl as <-.
  destruct (new_solvent _ _ _ _ _ E Hlt ltac:(lia) Htime (Z.of_nat (length ks) * (bps / 10))) as (Hs & Hm & Hr & _); [nia|]. split; [|done].
  assert (Hg : Forall (λ k, granted k = 0) ks) by (eapply Forall_impl; [exact Hks|by intros k [? _]]). split.
  - assert (total_granted (mkProgram (mkThreadSafe (bps / 10) s) ks) = 0) as ->; [|done]. unfold total_granted, sum. cbn. clear -Hg. induction Hg; cbn; lia.
  - done.
  - eapply Forall_impl; [exact Hks|]. intros k (Hk & _ & burst & rate & tick & t & Hnew & H1 & H2 & H3). rewrite Hk. split; [|cbn; lia]. by eapply new_solvent.
Qed.

(** C32: Whatever the connections do between two moments, together they use no more than a
    full bucket, what comes in meanwhile, and a tenth of a second's worth for each
    connection that may have asked before the others said what they used; and each
    connection no more than a full bucket of its own and what comes into that.  No
    check of the limiters fails. *)
Theorem Bandwidth_bounded bps time l ks es1 es2 p1 o :
  GetRateLimiterOf bps time = Ret (inr l) → bps < 2 ^ 62 → 0 ≤ time < 2 ^ 63 → Forall fresh ks → Z.of_nat (length ks) * (bps / 10) ≤ 2 ^ 62 →
  run_program es1 (mkProgram l ks) = Some (Ret p1) → run_program es2 p1 = Some o →
  ∃ p2, o = Ret p2 ∧
    total_used p2 - total_used p1 ≤ bps + bps / 1000 * (last_refill_ (impl_ (shared p2)) - last_refill_ (impl_ (shared p1))) + Z.of_nat (length ks) * (bps / 10) ∧
    ∀ i k1 k2, connections p1 !! i = Some k1 → connections p2 !! i = Some k2 →
      used k2 - used k1 ≤ max_quota_ (own k1) + quota_per_tick_ (own k1) * (last_refill_ (own k2) - last_refill_ (own k1)).
Proof.
  intros Hl Hlt Htime Hks Hn Hrun1 Hrun2. destruct (program_start_inv _ _ _ _ Hl Hlt Htime Hks Hn) as (Hinv & Hm & Hr & Hb).
  destruct (run_safe _ _ _ Hinv Hrun1) as (p1' & [= <-] & Hinv1 & [Hd1 [[Hm1 Hr1] _] _]). destruct (run_safe _ _ _ Hinv1 Hrun2) as (p2 & -> & Hinv2 & [Hd2 [Hsame Hl2] Ho2]).
  exists p2. split; [done|]. split.
  - pose proof (ledger_bound _ _ _ _ _ _ (inv_shared _ Hinv1) ltac:(rewrite <-Hd2; eexists; apply Hinv2) Hsame Hl2) as H. rewrite Hd1 in H. unfold debt in H. cbn [connections shared impl_] in *.
    by rewrite Hm1, Hm, Hr1, Hr, Hb in H.
  - intros i k1 k2 H1 H2. destruct (Forall2_lookup_lr _ _ _ _ _ _ Ho2 H1 H2) as [Hs Hle].
    destruct (Forall_lookup_1 _ _ _ _ (inv_own _ Hinv1) H1) as [Hso1 _]. destruct (Forall_lookup_1 _ _ _ _ (inv_own _ Hinv2) H2) as [Hso2 _].
    pose proof (ledger_bound _ _ _ _ _ _ Hso1 ltac:(eauto) Hs Hle). lia.
Qed.

(** No connection is starved: when as many ticks have passed as all connections may
    owe, and one tick of its own bucket, a connection that asks may use something. *)
Theorem Quota_comes_back bps time l ks es p i k times :
  GetRateLimiterOf bps time = Ret (inr l) → bps < 2 ^ 62 → 0 ≤ time < 2 ^ 63 → Forall fresh ks → Z.of_nat (length ks) * (bps / 10) ≤ 2 ^ 62 →
  run_program es (mkProgram l ks) = Some (Ret p) → connections p !! i = Some k → clock_ok times.1 (impl_ (shared p)) → clock_ok times.2 (own k) →
  last_refill_ (impl_ (shared p)) + debt p < Z.quot times.1 (tick_ (impl_ (shared p))) → last_refill_ (own k) < Z.quot times.2 (tick_ (own k)) →
  ∃ p' k', step (Ask i times) p = Some (Ret p') ∧ connections p' !! i = Some k' ∧ 0 < granted k'.
Proof.
  intros Hl Hlt Htime Hks Hn Hrun. destruct (program_start_inv _ _ _ _ Hl Hlt Htime Hks Hn) as (Hstart & _). destruct (run_safe _ _ _ Hstart Hrun) as (p' & [= <-] & Hinv & _). clear - Hinv.
  pose proof Hinv as [Hs Hb Ho]. intros Hk Hc1 Hc2 Ht1 Ht2. pose proof (Forall_lookup_1 _ _ _ _ Ho Hk) as [Hso Hgo]. cbn [step]. rewrite Hk. cbn [mbind option_bind]. rewrite bool_decide_true by done.
  cbn [GetQuota Layered_ops]. unfold Layered_GetQuota. cbn [GetQuota ThreadSafe_ops TokenBucket_ops fst snd]. unfold ThreadSafe_GetQuota. cbn [GetQuota TokenBucket_ops]. rewrite (GetQuota_spec times.1) by (done || apply Hs). cbn [obind].
  rewrite (GetQuota_spec times.2) by (done || apply Hso). cbn [obind fst snd burst_limit_ impl_]. eexists _, _. split; [reflexivity|]. cbn [connections].
  split; [apply list_lookup_insert_eq; by eapply lookup_lt_Some|]. cbn [granted]. destruct Hs as ([Hm1 Hr1 _ _ _ _] & Hg1 & Hd1 & Hs1). destruct Hso as ([Hm2 Hr2 _ _ _ _] & Hg2 & Hd2 & Hs2).
  unfold refilled. set (now1 := Z.quot times.1 _) in *. set (now2 := Z.quot times.2 _) in *. pose proof (granted_le p Hinv).
  assert (debt p < quota_per_tick_ (impl_ (shared p)) * (now1 - last_refill_ (impl_ (shared p)))) by nia. assert (0 < quota_per_tick_ (own k) * (now2 - last_refill_ (own k))) by nia. lia.
Qed.

(** 8 Mbps, and two connections of which the second asks before the first has used its
    quota. *)
Definition some_bucket : TokenBucketRateLimiter := mkTokenBucket 200000 100 1000000 true 5 200000.
Definition some_limiter : ThreadSafeRateLimiter TokenBucketRateLimiter := mkThreadSafe 100000 (mkTokenBucket 1000000 1000 1000000 true 5 1000000).
Definition some_program : program := mkProgram some_limiter (replicate 2 (mkConnection some_bucket 0 0)).
Definition some_events : list event := [Ask 0 (6000000, 6000000); Ask 1 (6000000, 6000000); Use 0 100000; Use 1 60000; Ask 0 (7000000, 7500000)].
Definition some_program' : program := match run_program some_events some_program with Some (Ret p) => p | _ => some_program end.

Lemma some_fresh : Forall fresh (connections some_program).
Proof. repeat constructor; exists 200000, 100, 1000000, 5000000; split_and!; (vm_compute; reflexivity) || (vm_compute; congruence). Qed.

Lemma Bandwidth_bounded_witness : ∃ p2, run_program [Use 0 1000] some_program' = Some (Ret p2) ∧ total_used p2 - total_used some_program' ≤ 1000000 + 1000 * 0 + 2 * 100000.
Proof.
  destruct (Bandwidth_bounded 1000000 5000000 some_limiter (connections some_program) some_events [Use 0 1000] some_program' (match run_program [Use 0 1000] some_program' with Some o => o | None => Abort end))
    as (p2 & Ho & Hle & _); [vm_compute; reflexivity|lia|lia|exact some_fresh|vm_compute; congruence|vm_compute; reflexivity|vm_compute; reflexivity|].
  exists p2. split; [rewrite <-Ho; vm_compute; reflexivity|]. assert (p2 = match run_program [Use 0 1000] some_program' with Some (Ret p) => p | _ => some_program end) as -> by (revert Ho; vm_compute; by intros [= <-]).
  vm_compute. congruence.
Defined.

Lemma Quota_comes_back_witness : ∃ p' k', step (Ask 1 (300000000000, 7000000)) some_program' = Some (Ret p') ∧ connections p' !! 1%nat = Some k' ∧ 0 < granted k'.
Proof.
  destruct (connections some_program' !! 1%nat) as [k|] eqn:Hk; [|vm_compute in Hk; discriminate].
  apply (Quota_comes_back 1000000 5000000 some_limiter (connections some_program) some_events some_program' 1 k);
    [vm_compute; reflexivity|lia|lia|exact some_fresh|vm_compute; congruence|vm_compute; reflexivity|exact Hk|vm_compute; split; congruence|..];
    vm_compute in Hk; injection Hk as <-; [vm_compute; split; congruence|vm_compute; reflexivity..].
Defined.

(** Less than a byte per second is no limit at all, and less than 1000 bytes per second
    end the program. *)
Example small_bandwidths :
  ParseToBps (chars_of "7") false = Ret (0, false) ∧ GetRateLimiterOf 0 0 = Ret (inl mkNullLimiter) ∧ ParseToBps (chars_of "4K") false = Ret (500, false) ∧ GetRateLimiterOf 500 0 = Abort.
Proof. vm_compute. split_and!; reflexivity. Qed.
