(* ===== verification/FlareHashMap.v ===== *)
(** * The hash map of flare/base/internal/hash_map.h

    [HashMap] is an array of buckets.  A bucket is a node stored in the array,
    which may be empty, followed by a chain of nodes on the heap; it is modelled
    as the list of its entries, the first one being the node in the array.  A
    node that was just created and not filled is at the position after the last
    entry.  Keys are compared with [E] and hashed with [H], which may be coarser
    than equality (the headers of a message use a map that ignores case).

    Growing the map inserts its entries into one of twice the size, which in
    principle may grow in turn; the recursion runs on fuel, and two rounds are
    always enough.  [HashMap_refines] relates all operations, iteration
    included, to a map from classes of keys, and [NextPowerOfTwo_spec] says that
    the bit trick is right. *)

From S2P Require Import Prelude.

(** What the map needs to know of its keys. *)
Class HashKey (K : Type) := {
  H : K → Z;
  E : K → K → bool;
}.

Class HashKeySpec (K : Type) `{HashKey K} : Prop := {
  E_refl x : E x x = true;
  E_sym x y : E x y = true → E y x = true;
  E_trans x y z : E x y = true → E y z = true → E x z = true;
  H_proper x y : E x y = true → H x = H y;
  H_range x : 0 ≤ H x < 2 ^ 64;
}.

(** ** NextPowerOfTwo *)

Definition NextPowerOfTwo (v : Z) : Z :=
  let v := u64 (v - 1) in
  let v := Z.lor v (Z.shiftr v 1) in
  let v := Z.lor v (Z.shiftr v 2) in
  let v := Z.lor v (Z.shiftr v 4) in
  let v := Z.lor v (Z.shiftr v 8) in
  let v := Z.lor v (Z.shiftr v 16) in
  let v := Z.lor v (Z.shiftr v 32) in
  u64 (v + 1).

Record HashMap (K V : Type) := mkHashMap {
  nodes_ : list (list (K * V));
  capacity_ : Z;
  mask_ : Z;
  rehash_threshold_ : Z;
  size_ : Z;
}.
Arguments mkHashMap {K V}.
Arguments nodes_ {K V}.
Arguments capacity_ {K V}.
Arguments mask_ {K V}.
Arguments rehash_threshold_ {K V}.
Arguments size_ {K V}.

Section ops.
Context {K V : Type} `{HashKey K}.
Implicit Types (m : HashMap K V) (k : K) (v : V).

Definition InitializeFor (capacity : Z) : outcome (HashMap K V) :=
  if capacity <? 4 then Abort
  else if negb (Z.land capacity (capacity - 1) =? 0) then Abort
  else Ret (mkHashMap (replicate (Z.to_nat capacity) []) capacity (capacity - 1) (u64 (capacity * 3) / 4) 0).

Definition HashMap_new (initial_capacity : Z) : outcome (HashMap K V) :=
  InitializeFor (NextPowerOfTwo initial_capacity).

Definition HashMap_default : outcome (HashMap K V) := HashMap_new 16.

Definition GetBucket m k : Z := Z.land (H k) (mask_ m).

(** [nodes_[idx]]. *)
Definition bucket m (idx : Z) : outcome (list (K * V)) := deref (nodes_ m !! Z.to_nat idx).

Definition set_bucket m (idx : Z) (b : list (K * V)) (size : Z) : HashMap K V :=
  mkHashMap (<[Z.to_nat idx := b]> (nodes_ m)) (capacity_ m) (mask_ m) (rehash_threshold_ m) size.

(** The position of a key in a bucket. *)
Fixpoint chain_find (k : K) (b : list (K * V)) : option nat :=
  match b with
  | [] => None
  | (k', _) :: b' => if E k' k then Some O else p ← chain_find k b'; Some (S p)
  end.

Definition TryGet m k : outcome (option V) :=
  b ←! bucket m (GetBucket m k);
  Ret (p ← chain_find k b; kv ← b !! p; Some kv.2).

(** *** Cursors *)

Inductive Cursor := Sentinel | At_node (bucket_id : nat) (pos : nat).

#[global] Instance Cursor_eq_dec : EqDecision Cursor.
Proof. solve_decision. Defined.

(** The first bucket from [index] on that is not empty. *)
Fixpoint scan (bs : list (list (K * V))) (index : nat) : Cursor :=
  match bs with
  | [] => Sentinel
  | [] :: bs' => scan bs' (S index)
  | _ :: _ => At_node index 0
  end.

Definition NextCursor m (c : Cursor) (initialized : bool) : outcome Cursor :=
  match c with
  | Sentinel => Undef
  | At_node i p =>
      b ←! deref (nodes_ m !! i);
      if initialized && (S p <? length b)%nat then Ret (At_node i (S p))
      else Ret (scan (drop (S i) (nodes_ m)) (S i))
  end.

Definition FirstNonEmptyCursor m : outcome Cursor :=
  if size_ m =? 0 then Ret Sentinel
  else
    b ←! deref (nodes_ m !! 0%nat);
    match b with
    | [] => NextCursor m (At_node 0 0) false
    | _ => Ret (At_node 0 0)
    end.

(** [*iter]. *)
Definition cursor_kv m (c : Cursor) : outcome (K * V) :=
  match c with
  | Sentinel => Undef
  | At_node i p => b ←! deref (nodes_ m !! i); deref (b !! p)
  end.

(** [for (auto&& [k, v] : m)]. *)
Fixpoint iterate_from (fuel : nat) m (c : Cursor) : outcome (list (K * V)) :=
  match fuel with
  | O => Fuel
  | S fuel' =>
      if decide (c = Sentinel) then Ret []
      else
        kv ←! cursor_kv m c;
        c' ←! NextCursor m c true;
        rest ←! iterate_from fuel' m c';
        Ret (kv :: rest)
  end.

Definition iterate m : outcome (list (K * V)) :=
  c ←! FirstNonEmptyCursor m; iterate_from (S (length (concat (nodes_ m)))) m c.

(** *** Lookup *)

Definition LocateKey m k : outcome Cursor :=
  let idx := GetBucket m k in
  b ←! bucket m idx;
  Ret (match chain_find k b with Some p => At_node (Z.to_nat idx) p | None => Sentinel end).

Definition HashMap_find m k : outcome Cursor := LocateKey m k.

Definition contains m k : outcome bool :=
  c ←! HashMap_find m k; Ret (bool_decide (c ≠ Sentinel)).

(** [at] crashes when the key is not there. *)
Definition HashMap_at m k : outcome V :=
  o ←! TryGet m k; match o with Some v => Ret v | None => Abort end.

(** *** Update

    The part of [CreateOrLocateKey] after growing: the bucket and the position
    of the key, which is new when it is the length of the bucket. *)
Definition locate_or_create m k : outcome (HashMap K V * Z * nat) :=
  let idx := GetBucket m k in
  b ←! bucket m idx;
  match chain_find k b with
  | Some p => Ret (m, idx, p)
  | None => Ret (set_bucket m idx b (size_ m + 1), idx, length b)
  end.

(** [insert_or_assign] once the node is known. *)
Definition fill_node m (idx : Z) (p : nat) k v : outcome (HashMap K V) :=
  b ←! bucket m idx;
  match b !! p with
  | Some (k', _) => Ret (set_bucket m idx (<[p := (k', v)]> b) (size_ m))
  | None => Ret (set_bucket m idx (b ++ [(k, v)]) (size_ m))
  end.

(** [ins] inserts into the new map. *)
Definition Rehash (ins : HashMap K V → K → V → outcome (HashMap K V)) m : outcome (HashMap K V) :=
  doubled ←! HashMap_new (u64 (capacity_ m * 2));
  kvs ←! iterate m;
  doubled ←! foldl (λ o kv, d ←! o; ins d kv.1 kv.2) (Ret doubled) kvs;
  if negb (size_ doubled =? size_ m) then Abort else Ret doubled.

Definition RehashIfNecessary (ins : HashMap K V → K → V → outcome (HashMap K V)) m :
    outcome (HashMap K V) :=
  if rehash_threshold_ m <=? size_ m then Rehash ins m else Ret m.

Fixpoint insert_fuel (fuel : nat) m k v : outcome (HashMap K V) :=
  match fuel with
  | O => Fuel
  | S fuel' =>
      m1 ←! RehashIfNecessary (insert_fuel fuel') m;
      '(m2, idx, p) ←! locate_or_create m1 k;
      fill_node m2 idx p k v
  end.

Definition CreateOrLocateKey m k : outcome (HashMap K V * Z * nat) :=
  m1 ←! RehashIfNecessary (insert_fuel 1) m; locate_or_create m1 k.

Definition insert_or_assign m k v : outcome (HashMap K V) :=
  '(m1, idx, p) ←! CreateOrLocateKey m k; fill_node m1 idx p k v.

(** [operator[]]: a key that is not there gets the value [v0].  The result is
    the value the reference refers to. *)
Definition index_op m k (v0 : V) : outcome (V * HashMap K V) :=
  '(m1, idx, p) ←! CreateOrLocateKey m k;
  b ←! bucket m1 idx;
  match b !! p with
  | Some (_, v) => Ret (v, m1)
  | None => Ret (v0, set_bucket m1 idx (b ++ [(k, v0)]) (size_ m1))
  end.

(** [erase(pos)]: the map and the cursor after the erased entry. *)
Definition erase_cursor m (c : Cursor) : outcome (HashMap K V * Cursor) :=
  match c with
  | Sentinel => Undef
  | At_node i p =>
      b ←! deref (nodes_ m !! i);
      _ ←! deref (b !! p);
      c' ←! (if (S p <? length b)%nat then Ret (At_node i p) else NextCursor m c true);
      Ret (set_bucket m (Z.of_nat i) (delete p b) (size_ m - 1), c')
  end.

Definition erase m k : outcome (Z * HashMap K V) :=
  c ←! HashMap_find m k;
  if decide (c = Sentinel) then Ret (0, m)
  else '(m', _) ←! erase_cursor m c; Ret (1, m').

Definition clear m : HashMap K V :=
  if size_ m =? 0 then m
  else mkHashMap (replicate (length (nodes_ m)) []) (capacity_ m) (mask_ m) (rehash_threshold_ m) 0.

Definition insert_list m (kvs : list (K * V)) : outcome (HashMap K V) :=
  foldl (λ o kv, d ←! o; insert_or_assign d kv.1 kv.2) (Ret m) kvs.

Definition MergeFrom m (other : HashMap K V) : outcome (HashMap K V) :=
  kvs ←! iterate other; insert_list m kvs.

(** The constructors from an initializer list and from another map. *)
Definition HashMap_of_list (init : list (K * V)) : outcome (HashMap K V) :=
  d ←! HashMap_default; insert_list d init.

Definition HashMap_copy (other : HashMap K V) : outcome (HashMap K V) :=
  d ←! HashMap_default; MergeFrom d other.
End ops.

(** ** NextPowerOfTwo *)

(** Bit [i] of [r] is set when one of the bits from [i] to [i + w - 1] of [n] is. *)
Definition smeared (n r w : Z) : Prop :=
  ∀ i, 0 ≤ i → Z.testbit r i = true ↔ ∃ d, 0 ≤ d < w ∧ Z.testbit n (i + d) = true.

Lemma smear_step n r w :
  0 < w → smeared n r w → smeared n (Z.lor r (Z.shiftr r w)) (w + w).
Proof.
  intros Hw Hr i Hi. rewrite Z.lor_spec, Z.shiftr_spec, orb_true_iff by lia.
  rewrite (Hr i Hi), (Hr (i + w) ltac:(lia)). split.
  - intros [(d & ? & Hd)|(d & ? & Hd)]; [exists d|exists (w + d)]; (split; [lia|]); [done|].
    by rewrite Z.add_assoc.
  - intros (d & Hd & Ht). destruct (decide (d < w)); [left; exists d; split; [lia|done]|right; exists (d - w)].
    split; [lia|]. rewrite <-Ht. f_equal. lia.
Qed.

Lemma smear_all n r : 0 < n < 2 ^ 64 → smeared n r 64 → r = Z.ones (Z.log2 n + 1).
Proof.
  intros Hn Hr. assert (Hlog : 0 ≤ Z.log2 n < 64).
  { split; [apply Z.log2_nonneg|]. apply Z.log2_lt_pow2; lia. }
  apply Z.bits_inj'. intros i Hi. apply eq_true_iff_eq. rewrite (Hr i Hi).
  destruct (decide (i ≤ Z.log2 n)) as [Hle|Hgt].
  - rewrite Z.ones_spec_low by lia. split; [done|]. intros _. exists (Z.log2 n - i). split; [lia|].
    replace (i + (Z.log2 n - i)) with (Z.log2 n) by lia. apply Z.bit_log2. lia.
  - rewrite Z.ones_spec_high by lia. split; [|done]. intros (d & Hd & Ht).
    rewrite Z.bits_above_log2 in Ht by lia. done.
Qed.

Lemma NextPowerOfTwo_log2 v : 1 < v ≤ 2 ^ 63 → NextPowerOfTwo v = 2 ^ (Z.log2 (v - 1) + 1).
Proof.
  intros Hv. unfold NextPowerOfTwo. rewrite (u64_small (v - 1)) by lia. set (n := v - 1).
  assert (Hlog : 0 ≤ Z.log2 n < 63).
  { split; [apply Z.log2_nonneg|]. apply Z.log2_lt_pow2; lia. }
  rewrite (smear_all n (Z.lor _ (Z.shiftr _ 32))).
  - rewrite Z.ones_equiv, u64_small; [lia|].
    assert (2 ^ (Z.log2 n + 1) ≤ 2 ^ 63) by (apply Z.pow_le_mono_r; lia).
    pose proof (Z.pow_pos_nonneg 2 (Z.log2 n + 1)). lia.
  - lia.
  - do 6 (apply smear_step; [lia|]). intros i Hi. split.
    + intros Ht. exists 0. split; [lia|]. by rewrite Z.add_0_r.
    + intros (d & Hd & Ht). by replace (i + d) with i in Ht by lia.
Qed.

(** The result is the least power of two that is not below the argument. *)
Theorem NextPowerOfTwo_spec v :
  1 ≤ v ≤ 2 ^ 63 →
  ∃ n, 0 ≤ n ∧ NextPowerOfTwo v = 2 ^ n ∧ v ≤ 2 ^ n ∧ ∀ n', 0 ≤ n' → v ≤ 2 ^ n' → n ≤ n'.
Proof.
  intros Hv. destruct (decide (v = 1)) as [->|Hne].
  { exists 0. split_and!; [lia|reflexivity|lia|lia]. }
  exists (Z.log2 (v - 1) + 1). pose proof (Z.log2_nonneg (v - 1)).
  pose proof (Z.log2_spec (v - 1) ltac:(lia)) as Hlog.
  split_and!; [lia|apply NextPowerOfTwo_log2; lia| |].
  - rewrite Z.add_1_r. lia.
  - intros n' Hn' Hle. destruct (decide (Z.log2 (v - 1) < n')); [lia|exfalso].
    assert (2 ^ n' ≤ 2 ^ Z.log2 (v - 1)) by (apply Z.pow_le_mono_r; lia). lia.
Qed.

Lemma NextPowerOfTwo_spec_witness :
  ∃ n, 0 ≤ n ∧ NextPowerOfTwo 100 = 2 ^ n ∧ 100 ≤ 2 ^ n ∧ ∀ n', 0 ≤ n' → 100 ≤ 2 ^ n' → n ≤ n'.
Proof. apply (NextPowerOfTwo_spec 100). lia. Defined.

Lemma NextPowerOfTwo_pow2 n : 0 ≤ n ≤ 63 → NextPowerOfTwo (2 ^ n) = 2 ^ n.
Proof.
  intros Hn. destruct (decide (n = 0)) as [->|Hne]; [reflexivity|].
  assert (2 ^ 1 ≤ 2 ^ n) by (apply Z.pow_le_mono_r; lia).
  assert (2 ^ n ≤ 2 ^ 63) by (apply Z.pow_le_mono_r; lia).
  rewrite NextPowerOfTwo_log2 by lia. f_equal.
  assert (Z.log2 (2 ^ n - 1) = n - 1); [|lia].
  apply Z.log2_unique; [lia|]. replace (Z.succ (n - 1)) with n by lia. split; [|lia].
  assert (2 ^ n = 2 * 2 ^ (n - 1)) by (rewrite <-Z.pow_succ_r by lia; f_equal; lia).
  assert (0 < 2 ^ (n - 1)) by (apply Z.pow_pos_nonneg; lia). lia.
Qed.

(** ** Chains *)

Section proofs.
Context {K V : Type} `{HashKeySpec K}.
Implicit Types (m : HashMap K V) (k : K) (v : V) (b l : list (K * V)).

(** The value of the first entry whose key equals [k]. *)
Fixpoint assoc k l : option V :=
  match l with
  | [] => None
  | (k', v) :: l' => if E k' k then Some v else assoc k l'
  end.

Lemma assoc_chain_find k l : (p ← chain_find k l; kv ← l !! p; Some kv.2) = assoc k l.
Proof.
  induction l as [|[k' v'] l IH]; simpl; [done|]. destruct (E k' k); [done|].
  rewrite <-IH. by destruct (chain_find k l).
Qed.

Lemma chain_find_None k l : chain_find k l = None ↔ assoc k l = None.
Proof.
  induction l as [|[k' v'] l IH]; simpl; [done|]. destruct (E k' k); [done|].
  rewrite <-IH. by destruct (chain_find k l).
Qed.

Lemma assoc_app k l1 l2 :
  assoc k (l1 ++ l2) = match assoc k l1 with Some v => Some v | None => assoc k l2 end.
Proof. induction l1 as [|[k' v'] l1 IH]; simpl; [done|]. by destruct (E k' k). Qed.

Lemma assoc_None k l : assoc k l = None ↔ Forall (λ kv, E kv.1 k = false) l.
Proof.
  induction l as [|[k' v'] l IH]; simpl; [done|]. rewrite Forall_cons. simpl.
  destruct (E k' k); [naive_solver|]. rewrite IH. naive_solver.
Qed.

Lemma E_comm k1 k2 : E k1 k2 = E k2 k1.
Proof. apply eq_true_iff_eq. split; apply E_sym. Qed.

Lemma E_eq_l k1 k2 k : E k1 k2 = true → E k1 k = E k2 k.
Proof.
  intros Heq. apply eq_true_iff_eq. split; [|by apply E_trans].
  apply E_trans. by apply E_sym.
Qed.

Lemma assoc_proper k1 k2 l : E k1 k2 = true → assoc k1 l = assoc k2 l.
Proof.
  intros Heq. induction l as [|[k' v'] l IH]; simpl; [done|].
  by rewrite (E_comm k' k1), (E_comm k' k2), (E_eq_l k1 k2 k' Heq), IH.
Qed.

(** No two entries have equal keys. *)
Definition distinct l : Prop := StronglySorted (λ x y : K * V, E x.1 y.1 = false) l.

(** What an insertion does to a chain. *)
Fixpoint chain_put k v b : list (K * V) :=
  match b with
  | [] => [(k, v)]
  | (k', v') :: b' => if E k' k then (k', v) :: b' else (k', v') :: chain_put k v b'
  end.

Lemma chain_put_find k v b :
  chain_put k v b = match chain_find k b with
                    | Some p => match b !! p with
                                | Some (k', _) => <[p := (k', v)]> b
                                | None => b ++ [(k, v)]
                                end
                    | None => b ++ [(k, v)]
                    end.
Proof.
  induction b as [|[k' v'] b IH]; simpl; [done|]. destruct (E k' k); [done|]. rewrite IH.
  destruct (chain_find k b) as [p|]; simpl; [|done]. by destruct (b !! p) as [[]|].
Qed.

Lemma chain_find_lookup k b p : chain_find k b = Some p → is_Some (b !! p).
Proof.
  revert p. induction b as [|[k' v'] b IH]; intros p; simpl; [done|]. destruct (E k' k).
  - intros [= <-]. simpl. eauto.
  - destruct (chain_find k b); [|done]. intros [= <-]. simpl. by apply IH.
Qed.

Lemma assoc_put k v b k' : assoc k' (chain_put k v b) = if E k k' then Some v else assoc k' b.
Proof.
  induction b as [|[k1 v1] b IH]; simpl; [done|]. destruct (E k1 k) eqn:E1; simpl.
  - rewrite (E_eq_l k1 k k' E1). by destruct (E k k').
  - rewrite IH. destruct (E k1 k') eqn:E2, (E k k') eqn:E3; auto.
    rewrite (E_trans k1 k' k) in E1; [done..|]. by apply E_sym.
Qed.

Lemma chain_put_Forall (P : K → Prop) k v b :
  P k → Forall (λ kv, P kv.1) b → Forall (λ kv, P kv.1) (chain_put k v b).
Proof.
  intros Hk. induction 1 as [|[k1 v1] b Hk1 Hb IH]; simpl; [by constructor|].
  destruct (E k1 k); by constructor.
Qed.

Lemma chain_put_distinct k v b : distinct b → distinct (chain_put k v b).
Proof.
  induction 1 as [|[k1 v1] b Hs IH Hb]; simpl; [by constructor; [constructor|]|].
  destruct (E k1 k) eqn:E1; constructor; auto.
  apply (chain_put_Forall (λ x, E k1 x = false)); [done|exact Hb].
Qed.

Lemma chain_put_length k v b :
  length (chain_put k v b) = (length b + if assoc k b then 0 else 1)%nat.
Proof.
  induction b as [|[k1 v1] b IH]; simpl; [done|]. destruct (E k1 k); simpl; [lia|]. rewrite IH. lia.
Qed.

(** ** The invariant *)

Definition entries m : list (K * V) := concat (nodes_ m).

(** The capacity is a power of two; every entry is in the bucket of its key; no
    bucket has two entries with equal keys. *)
Record hm_inv m : Prop := {
  hm_cap : ∃ n, 2 ≤ n ∧ capacity_ m = 2 ^ n;
  hm_mask : mask_ m = capacity_ m - 1;
  hm_threshold : rehash_threshold_ m = capacity_ m * 3 / 4;
  hm_nodes : length (nodes_ m) = Z.to_nat (capacity_ m);
  hm_size : size_ m = Z.of_nat (length (entries m));
  hm_chain i b : nodes_ m !! i = Some b →
    Forall (λ kv, Z.to_nat (GetBucket m kv.1) = i) b ∧ distinct b;
}.

Lemma cap_pos m : hm_inv m → 4 ≤ capacity_ m.
Proof.
  intros Hinv. destruct (hm_cap _ Hinv) as (n & Hn & ->).
  change 4 with (2 ^ 2). apply Z.pow_le_mono_r; lia.
Qed.

Lemma GetBucket_range m k : hm_inv m → 0 ≤ GetBucket m k < capacity_ m.
Proof.
  intros Hinv. unfold GetBucket. rewrite (hm_mask _ Hinv).
  destruct (hm_cap _ Hinv) as (n & Hn & ->).
  replace (2 ^ n - 1) with (Z.ones n) by (rewrite Z.ones_equiv; lia). rewrite Z.land_ones by lia.
  apply Z.mod_pos_bound, Z.pow_pos_nonneg; lia.
Qed.

Lemma GetBucket_proper m k1 k2 : E k1 k2 = true → GetBucket m k1 = GetBucket m k2.
Proof. intros Heq. unfold GetBucket. by rewrite (H_proper _ _ Heq). Qed.

(** The bucket of a key among all entries. *)
Lemma bucket_split m k :
  hm_inv m →
  ∃ b pre post, nodes_ m !! Z.to_nat (GetBucket m k) = Some b ∧
    entries m = pre ++ b ++ post ∧
    Forall (λ kv, E kv.1 k = false) (pre ++ post) ∧
    (∀ b' sz, entries (set_bucket m (GetBucket m k) b' sz) = pre ++ b' ++ post).
Proof.
  intros Hinv. set (i := Z.to_nat (GetBucket m k)).
  pose proof (GetBucket_range m k Hinv) as Hr. pose proof (hm_nodes _ Hinv) as Hlen.
  destruct (lookup_lt_is_Some_2 (nodes_ m) i) as [b Hb]; [unfold i; lia|].
  exists b, (concat (take i (nodes_ m))), (concat (drop (S i) (nodes_ m))). split_and!; [done| | |].
  - unfold entries. rewrite <-(take_drop_middle _ _ _ Hb) at 1. by rewrite concat_app.
  - apply Forall_app. assert (Hother : ∀ j b', j ≠ i → nodes_ m !! j = Some b' → Forall (λ kv, E kv.1 k = false) b').
    { intros j b' Hj Hb'. destruct (hm_chain _ Hinv j b' Hb') as [Hf _]. eapply Forall_impl; [exact Hf|].
      intros kv Hkv. destruct (E kv.1 k) eqn:Ek; [|done]. destruct Hj. rewrite <-Hkv. unfold i.
      by rewrite (GetBucket_proper m _ _ Ek). }
    split; apply Forall_concat, Forall_lookup_2; intros j b'.
    + rewrite lookup_take_Some. intros [Hl Hj]. apply (Hother j); [lia|done].
    + rewrite lookup_drop. apply Hother. lia.
  - intros b' sz. unfold entries, set_bucket. cbn [nodes_]. fold i.
    rewrite insert_take_drop, concat_app by (rewrite <-Hlen || idtac; apply lookup_lt_Some in Hb; lia).
    done.
Qed.

Lemma assoc_bucket m k :
  hm_inv m → ∃ b, bucket m (GetBucket m k) = Ret b ∧ assoc k (entries m) = assoc k b.
Proof.
  intros Hinv. destruct (bucket_split m k Hinv) as (b & pre & post & Hb & He & Hf & _).
  exists b. unfold bucket. rewrite Hb. split; [done|]. apply Forall_app in Hf as [H1' H2'].
  rewrite He, !assoc_app, (proj2 (assoc_None k pre) H1'), (proj2 (assoc_None k post) H2').
  by destruct (assoc k b).
Qed.

(** Replacing the bucket of [k] by one that differs at the class of [k] only. *)
Lemma set_bucket_inv m k b b' :
  hm_inv m → nodes_ m !! Z.to_nat (GetBucket m k) = Some b →
  Forall (λ kv, GetBucket m kv.1 = GetBucket m k) b' → distinct b' →
  hm_inv (set_bucket m (GetBucket m k) b' (size_ m + Z.of_nat (length b') - Z.of_nat (length b))).
Proof.
  intros Hinv Hb Hf Hd. destruct (bucket_split m k Hinv) as (b0 & pre & post & Hb0 & He & _ & He').
  assert (b0 = b) as -> by congruence. split; try apply Hinv.
  - unfold set_bucket. simpl. rewrite length_insert. apply Hinv.
  - rewrite He'. simpl. rewrite (hm_size _ Hinv), He, !length_app. lia.
  - intros i c. unfold set_bucket. cbn [nodes_]. rewrite list_lookup_insert_Some.
    intros [(<- & <- & _)|[Hne Hc]].
    + split; [|done]. eapply Forall_impl; [exact Hf|]. intros kv Hkv. unfold GetBucket in *. simpl. by rewrite Hkv.
    + by apply (hm_chain _ Hinv).
Qed.

Lemma bucket_keys m k b :
  hm_inv m → nodes_ m !! Z.to_nat (GetBucket m k) = Some b →
  Forall (λ kv, GetBucket m kv.1 = GetBucket m k) b ∧ distinct b.
Proof.
  intros Hinv Hb. destruct (hm_chain _ Hinv _ _ Hb) as [Hf Hd]. split; [|done].
  eapply Forall_impl; [exact Hf|]. intros kv Hkv. cbv beta in *.
  pose proof (GetBucket_range m kv.1 Hinv). pose proof (GetBucket_range m k Hinv). lia.
Qed.

(** ** Insertion without growing *)

Lemma locate_fill m k v b :
  hm_inv m → nodes_ m !! Z.to_nat (GetBucket m k) = Some b →
  ('(m2, idx, p) ←! locate_or_create m k; fill_node m2 idx p k v) =
  Ret (set_bucket m (GetBucket m k) (chain_put k v b)
         (size_ m + Z.of_nat (length (chain_put k v b)) - Z.of_nat (length b))).
Proof.
  intros Hinv Hb. unfold locate_or_create, bucket. rewrite Hb. cbn [deref obind].
  rewrite chain_put_length. pose proof (chain_put_find k v b) as Hput.
  destruct (chain_find k b) as [p|] eqn:Ef.
  - destruct (chain_find_lookup _ _ _ Ef) as [[k1 v1] Hp]. rewrite Hp in Hput.
    cbn [obind]. unfold fill_node, bucket. rewrite Hb. cbn [deref obind]. rewrite Hp, Hput.
    pose proof (assoc_chain_find k b) as Ha. rewrite Ef in Ha. simpl in Ha. rewrite Hp in Ha. simpl in Ha.
    rewrite <-Ha. f_equal. f_equal. lia.
  - cbn [obind]. unfold fill_node, bucket, set_bucket. cbn [nodes_].
    rewrite list_lookup_insert_eq by (apply lookup_lt_Some in Hb; done). cbn [deref obind].
    rewrite lookup_ge_None_2 by done. rewrite Hput, list_insert_insert_eq. cbn [size_ capacity_ mask_ rehash_threshold_].
    rewrite (proj1 (chain_find_None k b) Ef). f_equal. f_equal. lia.
Qed.

Lemma insert_here m k v :
  hm_inv m →
  ∃ m', ('(m2, idx, p) ←! locate_or_create m k; fill_node m2 idx p k v) = Ret m' ∧ hm_inv m' ∧
    (∀ k', assoc k' (entries m') = if E k k' then Some v else assoc k' (entries m)) ∧
    size_ m' = size_ m + (if assoc k (entries m) then 0 else 1) ∧ capacity_ m' = capacity_ m.
Proof.
  intros Hinv. destruct (bucket_split m k Hinv) as (b & pre & post & Hb & He & Hf & He').
  destruct (bucket_keys m k b Hinv Hb) as [Hk Hd].
  exists (set_bucket m (GetBucket m k) (chain_put k v b)
         (size_ m + Z.of_nat (length (chain_put k v b)) - Z.of_nat (length b))).
  split; [by apply locate_fill|]. split_and!.
  - apply set_bucket_inv; auto; [|by apply chain_put_distinct].
    apply (chain_put_Forall (λ x, GetBucket m x = GetBucket m k)); done.
  - intros k'. rewrite He', He, !assoc_app, assoc_put. destruct (E k k') eqn:Ek; [|done].
    apply Forall_app in Hf as [Hf1 _]. apply assoc_None in Hf1. rewrite (assoc_proper k k' pre Ek) in Hf1.
    by rewrite Hf1.
  - destruct (assoc_bucket m k Hinv) as (b0 & Hb0 & ->). unfold bucket in Hb0. rewrite Hb in Hb0.
    injection Hb0 as <-. simpl. rewrite chain_put_length. destruct (assoc k b); lia.
  - done.
Qed.

(** ** Iteration *)

Lemma scan_spec (bs : list (list (K * V))) index :
  match scan bs index with
  | Sentinel => concat bs = []
  | At_node j p => p = 0%nat ∧ ∃ o b, j = (index + o)%nat ∧ bs !! o = Some b ∧ b ≠ [] ∧
      concat bs = b ++ concat (drop (S o) bs)
  end.
Proof.
  revert index. induction bs as [|b bs IH]; intros index; simpl; [done|].
  destruct b as [|kv b].
  - specialize (IH (S index)). destruct (scan bs (S index)) as [|j p]; [done|].
    destruct IH as (-> & o & b & -> & Ho & Hb & Hc). split; [done|]. exists (S o), b.
    split_and!; [lia|done|done|done].
  - split; [done|]. exists O, (kv :: b). split_and!; [lia|done|done|done].
Qed.

Lemma iterate_from_spec m fuel i p b :
  nodes_ m !! i = Some b → (p < length b)%nat →
  (length (drop p b ++ concat (drop (S i) (nodes_ m))) < fuel)%nat →
  iterate_from fuel m (At_node i p) = Ret (drop p b ++ concat (drop (S i) (nodes_ m))).
Proof.
  revert i p b. induction fuel as [|fuel IH]; intros i p b Hb Hp Hf; [lia|].
  destruct (lookup_lt_is_Some_2 b p Hp) as [kv Hkv].
  cbn [iterate_from]. rewrite decide_False by done. unfold cursor_kv. rewrite Hb. cbn [deref obind].
  rewrite Hkv. cbn [deref obind]. unfold NextCursor. rewrite Hb. cbn [deref obind].
  rewrite (drop_S b kv p Hkv) in *. destruct (Nat.ltb_spec (S p) (length b)) as [Hlt|Hge]; cbn [andb obind].
  - rewrite (IH i (S p) b); auto. cbn [app length] in Hf. lia.
  - rewrite (drop_ge b (S p)) in * by lia. cbn [app length] in Hf.
    pose proof (scan_spec (drop (S i) (nodes_ m)) (S i)) as Hs.
    destruct (scan _ _) as [|j q].
    + rewrite Hs in *. destruct fuel; [cbn [length] in Hf; lia|]. cbn [iterate_from]. by rewrite decide_True.
    + destruct Hs as (-> & o & c & -> & Ho & Hc & Heq). rewrite lookup_drop in Ho.
      rewrite (IH _ 0%nat c Ho).
      * cbn [obind app drop]. by rewrite Heq, drop_drop, Nat.add_succ_r.
      * destruct c; [done|]. simpl. lia.
      * rewrite Heq, drop_drop, Nat.add_succ_r in Hf. rewrite drop_0. lia.
Qed.

Lemma iterate_spec m : hm_inv m → iterate m = Ret (entries m).
Proof.
  intros Hinv. unfold iterate, FirstNonEmptyCursor. pose proof (hm_size _ Hinv) as Hsz.
  pose proof (cap_pos _ Hinv) as Hcap. pose proof (hm_nodes _ Hinv) as Hlen.
  destruct (Z.eqb_spec (size_ m) 0) as [H0'|H0'].
  { cbn [obind iterate_from]. rewrite decide_True by done.
    destruct (entries m) eqn:Ee; [done|]. simpl in Hsz. lia. }
  destruct (lookup_lt_is_Some_2 (nodes_ m) 0) as [b Hb]; [lia|]. rewrite Hb. cbn [deref obind].
  assert (Hsplit : entries m = b ++ concat (drop 1 (nodes_ m))).
  { unfold entries. destruct (nodes_ m) as [|b0 bs]; [done|]. injection Hb as <-. done. }
  destruct b as [|kv b].
  - unfold NextCursor. rewrite Hb. cbn [deref obind andb].
    pose proof (scan_spec (drop 1 (nodes_ m)) 1) as Hs. cbn [app] in Hsplit.
    destruct (scan _ _) as [|j p].
    + cbn [obind iterate_from]. rewrite decide_True by done. by rewrite Hsplit, Hs.
    + destruct Hs as (-> & o & c & -> & Ho & Hc & Heq). rewrite lookup_drop in Ho. cbn [obind].
      rewrite (iterate_from_spec m _ _ 0 c Ho).
      * rewrite Hsplit, Heq, drop_drop. done.
      * destruct c; [done|]. simpl. lia.
      * fold (entries m). rewrite Hsplit, Heq, drop_drop, drop_0, Nat.add_succ_r. lia.
  - cbn [obind]. rewrite (iterate_from_spec m _ 0 0 (kv :: b) Hb).
    + by rewrite Hsplit.
    + simpl. lia.
    + fold (entries m). rewrite Hsplit, drop_0. lia.
Qed.

(** ** Growing *)

Lemma InitializeFor_spec n :
  2 ≤ n ≤ 62 → ∃ m, InitializeFor (2 ^ n) = Ret m ∧ hm_inv m ∧ entries m = [] ∧ capacity_ m = 2 ^ n.
Proof.
  intros Hn. unfold InitializeFor.
  assert (4 ≤ 2 ^ n) by (change 4 with (2 ^ 2); apply Z.pow_le_mono_r; lia).
  assert (2 ^ n ≤ 2 ^ 62) by (apply Z.pow_le_mono_r; lia). rewrite u64_small by lia.
  destruct (Z.ltb_spec (2 ^ n) 4); [lia|].
  assert (Hland : Z.land (2 ^ n) (2 ^ n - 1) = 0).
  { replace (2 ^ n - 1) with (Z.ones n) by (rewrite Z.ones_equiv; lia).
    rewrite Z.land_ones by lia. apply Z.mod_same. lia. }
  rewrite Hland. cbn [Z.eqb negb].
  assert (He : ∀ c, concat (replicate c ([] : list (K * V))) = []).
  { intros c. induction c; simpl; done. }
  eexists. split; [done|]. split_and!; [|apply He|done]. split; simpl; auto.
  - exists n. split; [lia|done].
  - apply length_replicate.
  - unfold entries. simpl. by rewrite He.
  - intros i b Hb. apply lookup_replicate in Hb as [-> _]. split; constructor.
Qed.

Lemma HashMap_new_spec n :
  2 ≤ n ≤ 62 → ∃ m, HashMap_new (2 ^ n) = Ret m ∧ hm_inv m ∧ entries m = [] ∧ capacity_ m = 2 ^ n.
Proof.
  intros Hn. unfold HashMap_new. rewrite NextPowerOfTwo_pow2 by lia. apply InitializeFor_spec. lia.
Qed.

Lemma distinct_concat m (bs : list (list (K * V))) off :
  (∀ i b, bs !! i = Some b → Forall (λ kv, Z.to_nat (GetBucket m kv.1) = (off + i)%nat) b ∧ distinct b) →
  distinct (concat bs).
Proof.
  revert off. induction bs as [|b bs IH]; intros off Hbs; simpl; [constructor|].
  destruct (Hbs 0%nat b eq_refl) as [Hb Hd]. apply StronglySorted_app. split_and!; auto.
  - intros x y Hx (c & Hy & Hc)%elem_of_concat. apply list_elem_of_lookup_1 in Hc as [j Hj].
    destruct (Hbs (S j) c Hj) as [Hc _]. rewrite Forall_forall in Hb, Hc.
    specialize (Hb x Hx). specialize (Hc y Hy). destruct (E x.1 y.1) eqn:Exy; [|done].
    rewrite (GetBucket_proper m _ _ Exy) in Hb. lia.
  - apply (IH (S off)). intros i c Hc. destruct (Hbs (S i) c Hc) as [Hf Hd']. split; [|done].
    eapply Forall_impl; [exact Hf|]. intros kv. simpl. lia.
Qed.

Lemma distinct_entries m : hm_inv m → distinct (entries m).
Proof. intros Hinv. apply (distinct_concat m _ 0). apply Hinv. Qed.

Lemma threshold_pos m : hm_inv m → 3 ≤ rehash_threshold_ m ∧ rehash_threshold_ m < capacity_ m.
Proof.
  intros Hinv. rewrite (hm_threshold _ Hinv). pose proof (cap_pos _ Hinv). split.
  - apply Z.div_le_lower_bound; lia.
  - apply Z.div_lt_upper_bound; lia.
Qed.

Lemma insert_small f m k v :
  size_ m < rehash_threshold_ m →
  insert_fuel (S f) m k v = ('(m2, idx, p) ←! locate_or_create m k; fill_node m2 idx p k v).
Proof.
  intros Hs. cbn [insert_fuel]. unfold RehashIfNecessary.
  destruct (Z.leb_spec (rehash_threshold_ m) (size_ m)); [lia|done].
Qed.

(** Entries with keys that are not in the map yet, as many as fit. *)
Lemma fold_insert f m l :
  hm_inv m → size_ m + Z.of_nat (length l) ≤ rehash_threshold_ m → distinct l →
  Forall (λ kv, assoc kv.1 (entries m) = None) l →
  ∃ m', foldl (λ o kv, d ←! o; insert_fuel (S f) d kv.1 kv.2) (Ret m) l = Ret m' ∧ hm_inv m' ∧
    (∀ k, assoc k (entries m') = match assoc k l with Some v => Some v | None => assoc k (entries m) end) ∧
    size_ m' = size_ m + Z.of_nat (length l) ∧ capacity_ m' = capacity_ m.
Proof.
  intros Hinv Hsz Hd Hno. revert m Hinv Hsz Hno. induction Hd as [|[k v] l Hd IH Hk]; intros m Hinv Hsz Hno.
  { exists m. split_and!; auto. simpl. lia. }
  apply Forall_cons in Hno as [Hno Hrest]. simpl in Hno. cbn [foldl obind fst snd].
  cbn [length] in Hsz. rewrite insert_small by lia. destruct (insert_here m k v Hinv) as (m1 & -> & Hinv1 & Ha1 & Hs1 & Hc1). rewrite Hno in Hs1.
  destruct (IH m1) as (m' & -> & Hinv' & Ha & Hs & Hc).
  - done.
  - rewrite (hm_threshold _ Hinv1), Hc1, <-(hm_threshold _ Hinv). lia.
  - rewrite Forall_forall in Hrest, Hk |- *. intros kv Hkv. pose proof (Hk kv Hkv) as Hx. simpl in Hx. rewrite Ha1, Hx. auto.
  - exists m'. split_and!; [done|done| |cbn [length]; lia|congruence].
    intros k'. rewrite Ha, Ha1. cbn [assoc]. destruct (E k k') eqn:Ek; [|by destruct (assoc k' l)].
    rewrite <-(assoc_proper k k' l Ek), (proj2 (assoc_None k l)); [done|].
    eapply Forall_impl; [exact Hk|]. intros kv. simpl. by rewrite E_comm.
Qed.

Lemma Rehash_spec f m :
  hm_inv m → rehash_threshold_ m ≤ size_ m < 2 ^ 60 → size_ m ≤ capacity_ m →
  ∃ m', Rehash (insert_fuel (S f)) m = Ret m' ∧ hm_inv m' ∧
    (∀ k, assoc k (entries m') = assoc k (entries m)) ∧
    size_ m' = size_ m ∧ capacity_ m' = 2 * capacity_ m.
Proof.
  intros Hinv Hsz Hcap. unfold Rehash. destruct (hm_cap _ Hinv) as (n & Hn & Hc).
  assert (Hn60 : n < 62).
  { destruct (decide (n < 62)); [done|exfalso].
    assert (2 ^ 62 ≤ 2 ^ n) by (apply Z.pow_le_mono_r; lia).
    rewrite (hm_threshold _ Hinv), Hc in Hsz.
    assert (2 ^ 61 ≤ 2 ^ n * 3 / 4) by (apply Z.div_le_lower_bound; lia). lia. }
  assert (2 ^ n ≤ 2 ^ 62) by (apply Z.pow_le_mono_r; lia). rewrite Hc, u64_small by lia.
  replace (2 ^ n * 2) with (2 ^ (n + 1)) by (rewrite Z.pow_add_r by lia; lia).
  destruct (HashMap_new_spec (n + 1) ltac:(lia)) as (d & -> & Hinvd & Hed & Hcd). cbn [obind].
  rewrite (iterate_spec m Hinv). cbn [obind].
  pose proof (hm_size _ Hinv) as Hlen. pose proof (hm_size _ Hinvd) as Hsd. rewrite Hed in Hsd. simpl in Hsd.
  assert (H2c : capacity_ d = 2 * capacity_ m) by (rewrite Hcd, Hc, Z.pow_add_r; lia).
  destruct (fold_insert f d (entries m) Hinvd) as (m' & -> & Hinv' & Ha & Hs & Hc').
  - rewrite (hm_threshold _ Hinvd), H2c, Hsd. pose proof (cap_pos _ Hinv).
    assert (capacity_ m ≤ 2 * capacity_ m * 3 / 4) by (apply Z.div_le_lower_bound; lia). lia.
  - by apply distinct_entries.
  - rewrite Hed. apply Forall_forall. done.
  - cbn [obind]. rewrite Hs, Hsd, <-Hlen, Z.add_0_l, Z.eqb_refl. cbn [negb].
    exists m'. split_and!; [done|done| |lia|lia].
    intros k. rewrite Ha, Hed. simpl. by destruct (assoc k (entries m)).
Qed.

(** ** The operations *)

Lemma CreateOrLocateKey_spec m :
  hm_inv m → size_ m < 2 ^ 60 → size_ m ≤ capacity_ m →
  ∃ m1, RehashIfNecessary (insert_fuel 1) m = Ret m1 ∧ hm_inv m1 ∧
    (∀ k, assoc k (entries m1) = assoc k (entries m)) ∧ size_ m1 = size_ m ∧ size_ m1 < capacity_ m1.
Proof.
  intros Hinv Hsz Hcap. unfold RehashIfNecessary. pose proof (threshold_pos _ Hinv) as Ht.
  destruct (Z.leb_spec (rehash_threshold_ m) (size_ m)) as [Hle|Hgt].
  - destruct (Rehash_spec 0 m Hinv ltac:(lia) Hcap) as (m' & ? & ? & ? & Hs & Hc). exists m'.
    split_and!; auto. pose proof (cap_pos _ Hinv). lia.
  - exists m. split_and!; auto. lia.
Qed.

Lemma insert_or_assign_spec m k v :
  hm_inv m → size_ m < 2 ^ 60 → size_ m ≤ capacity_ m →
  ∃ m', insert_or_assign m k v = Ret m' ∧ hm_inv m' ∧
    (∀ k', assoc k' (entries m') = if E k k' then Some v else assoc k' (entries m)) ∧
    size_ m' = size_ m + (if assoc k (entries m) then 0 else 1) ∧ size_ m' ≤ capacity_ m'.
Proof.
  intros Hinv Hsz Hcap. unfold insert_or_assign, CreateOrLocateKey.
  destruct (CreateOrLocateKey_spec m Hinv Hsz Hcap) as (m1 & -> & Hinv1 & Ha1 & Hs1 & Hc1). cbn [obind].
  destruct (insert_here m1 k v Hinv1) as (m' & -> & Hinv' & Ha & Hs & Hc).
  exists m'. split_and!; auto.
  - intros k'. by rewrite Ha, Ha1.
  - by rewrite Hs, Hs1, Ha1.
  - rewrite Hs, Hc. destruct (assoc k (entries m1)); lia.
Qed.

Lemma TryGet_spec m k : hm_inv m → TryGet m k = Ret (assoc k (entries m)).
Proof.
  intros Hinv. unfold TryGet. destruct (assoc_bucket m k Hinv) as (b & -> & ->). cbn [obind].
  by rewrite assoc_chain_find.
Qed.

Lemma contains_spec m k : hm_inv m → contains m k = Ret (bool_decide (is_Some (assoc k (entries m)))).
Proof.
  intros Hinv. unfold contains, HashMap_find, LocateKey.
  destruct (assoc_bucket m k Hinv) as (b & -> & ->). cbn [obind]. f_equal.
  pose proof (chain_find_None k b) as Hn. apply bool_decide_ext.
  destruct (chain_find k b) as [p|].
  - split; [|done]. intros _. apply not_eq_None_Some. intros Ha. by apply Hn in Ha.
  - rewrite (proj1 Hn eq_refl). split; [done|]. by intros [].
Qed.

(** Removing the entry at a position. *)
Lemma chain_delete k b p :
  distinct b → chain_find k b = Some p →
  distinct (delete p b) ∧ (∀ P : K * V → Prop, Forall P b → Forall P (delete p b)) ∧
  (∀ k', assoc k' (delete p b) = if E k k' then None else assoc k' b) ∧
  S (length (delete p b)) = length b.
Proof.
  intros Hd. revert p. induction Hd as [|[k1 v1] b Hd IH Hb]; intros p; simpl; [done|].
  destruct (E k1 k) eqn:E1.
  - intros [= <-]. simpl. split_and!; [done|by intros P [_ ?]%Forall_cons| |done].
    intros k'. rewrite (E_eq_l k1 k k' E1). destruct (E k k') eqn:Ek; [|done].
    apply assoc_None. eapply Forall_impl; [exact Hb|]. intros kv Hkv. simpl in Hkv.
    destruct (E kv.1 k') eqn:E2; [|done]. rewrite (E_trans k1 k' kv.1) in Hkv; [done| |by apply E_sym].
    by eapply E_trans.
  - destruct (chain_find k b) as [q|]; [|done]. intros [= <-]. destruct (IH q eq_refl) as (H1' & H2' & H3' & H4').
    simpl. split_and!.
    + constructor; auto.
    + intros P [? ?]%Forall_cons. constructor; auto.
    + intros k'. rewrite H3'. destruct (E k1 k') eqn:E2, (E k k') eqn:E3; auto.
      rewrite (E_trans k1 k' k) in E1; [done|done|by apply E_sym].
    + lia.
Qed.

Lemma erase_spec m k :
  hm_inv m →
  ∃ m', erase m k = Ret (if assoc k (entries m) then 1 else 0, m') ∧ hm_inv m' ∧
    (∀ k', assoc k' (entries m') = if E k k' then None else assoc k' (entries m)) ∧
    size_ m' = size_ m - (if assoc k (entries m) then 1 else 0) ∧ capacity_ m' = capacity_ m.
Proof.
  intros Hinv. destruct (bucket_split m k Hinv) as (b & pre & post & Hb & He & Hf & He').
  destruct (bucket_keys m k b Hinv Hb) as [Hk Hd].
  destruct (assoc_bucket m k Hinv) as (b0 & Hb0 & Ha). unfold bucket in Hb0. rewrite Hb in Hb0. injection Hb0 as <-.
  unfold erase, HashMap_find, LocateKey, bucket. rewrite Hb, Ha. cbn [deref obind].
  pose proof (chain_find_None k b) as Hn. destruct (chain_find k b) as [p|] eqn:Ep.
  2:{ rewrite (proj1 Hn eq_refl) in *. cbn [obind]. rewrite decide_True by done. exists m. split_and!; [done|done| |lia|done].
      intros k'. destruct (E k k') eqn:Ek; [|done]. by rewrite <-(assoc_proper k k' _ Ek). }
  assert (Hsome : is_Some (assoc k b)).
  { apply not_eq_None_Some. intros Hx. by apply Hn in Hx. }
  destruct Hsome as [v0 Hv0]. rewrite Hv0. cbn [obind]. rewrite decide_False by done.
  unfold erase_cursor. rewrite Hb. cbn [deref obind].
  destruct (chain_find_lookup _ _ _ Ep) as [kv Hkv]. rewrite Hkv. cbn [deref obind].
  assert (Hnext : ∃ c', (if (S p <? length b)%nat then Ret (At_node (Z.to_nat (GetBucket m k)) p)
                         else NextCursor m (At_node (Z.to_nat (GetBucket m k)) p) true) = Ret c').
  { destruct (S p <? length b)%nat; [eauto|]. unfold NextCursor. rewrite Hb. cbn [deref obind].
    destruct (_ && _); eauto. }
  destruct Hnext as [c' ->]. cbn [obind].
  destruct (chain_delete k b p Hd Ep) as (Hd' & Hfp & Ha' & Hlen).
  rewrite Z2Nat.id by (apply GetBucket_range; done).
  pose proof (set_bucket_inv m k b (delete p b) Hinv Hb (Hfp _ Hk) Hd') as Hinv'.
  replace (size_ m + Z.of_nat (length (delete p b)) - Z.of_nat (length b)) with (size_ m - 1) in Hinv' by lia.
  eexists. split_and!; [done|exact Hinv'| |done|done].
  intros k'. rewrite He', He, !assoc_app, Ha'. destruct (E k k') eqn:Ek; [|done].
  apply Forall_app in Hf as [Hf1 Hf2]. apply assoc_None in Hf1, Hf2.
  by rewrite <-!(assoc_proper k k' _ Ek), Hf1, Hf2.
Qed.

Lemma clear_spec m : hm_inv m → hm_inv (clear m) ∧ entries (clear m) = [] ∧
  size_ (clear m) = 0 ∧ capacity_ (clear m) = capacity_ m.
Proof.
  intros Hinv. unfold clear. pose proof (hm_size _ Hinv) as Hs. destruct (Z.eqb_spec (size_ m) 0) as [H0'|H0'].
  { split_and!; auto. destruct (entries m); [done|]. simpl in Hs. lia. }
  assert (He : ∀ c, concat (replicate c ([] : list (K * V))) = []).
  { intros c. induction c; simpl; done. }
  split_and!; [|apply He|done|done]. split; try apply Hinv.
  - cbn [nodes_ capacity_]. rewrite length_replicate. apply Hinv.
  - unfold entries. cbn [nodes_ size_]. by rewrite He.
  - intros i b Hb. apply lookup_replicate in Hb as [-> _]. split; constructor.
Qed.

Lemma index_op_spec m k v0 :
  hm_inv m → size_ m < 2 ^ 60 → size_ m ≤ capacity_ m →
  ∃ m', index_op m k v0 = Ret (default v0 (assoc k (entries m)), m') ∧ hm_inv m' ∧
    (∀ k', assoc k' (entries m') =
       if E k k' then Some (default v0 (assoc k (entries m))) else assoc k' (entries m)) ∧
    size_ m' = size_ m + (if assoc k (entries m) then 0 else 1) ∧ size_ m' ≤ capacity_ m'.
Proof.
  intros Hinv Hsz Hcap. unfold index_op, CreateOrLocateKey.
  destruct (CreateOrLocateKey_spec m Hinv Hsz Hcap) as (m1 & -> & Hinv1 & Ha1 & Hs1 & Hc1). cbn [obind].
  destruct (bucket_split m1 k Hinv1) as (b & pre & post & Hb & He & _).
  destruct (insert_here m1 k v0 Hinv1) as (m' & Hm' & Hinv' & Ha & Hs & Hc).
  destruct (assoc_bucket m1 k Hinv1) as (b0 & Hb0 & Hab). unfold bucket in Hb0. rewrite Hb in Hb0. injection Hb0 as <-.
  pose proof (chain_find_None k b) as Hn. pose proof (assoc_chain_find k b) as Hcf. rewrite <-Ha1, Hab in *.
  revert Hm'. unfold locate_or_create, fill_node, bucket. rewrite Hb. cbn [deref obind].
  destruct (chain_find k b) as [p|] eqn:Ep; cbn [obind].
  - intros _. rewrite Hb. cbn [deref obind]. destruct (chain_find_lookup _ _ _ Ep) as [[k1 v1] Hp].
    simpl in Hcf. rewrite Hp in Hcf |- *. simpl in Hcf. rewrite <-Hcf. exists m1. cbn [default]. split_and!; auto; [|lia|lia].
    intros k'. destruct (E k k') eqn:Ek; [|by rewrite Ha1].
    rewrite <-(assoc_proper k k' _ Ek), Hab. auto.
  - assert (Hl : nodes_ (set_bucket m1 (GetBucket m1 k) b (size_ m1 + 1)) !! Z.to_nat (GetBucket m1 k) = Some b).
    { apply list_lookup_insert_eq. by eapply lookup_lt_Some. }
    rewrite !Hl. cbn [deref obind]. rewrite !lookup_ge_None_2 by done. intros [= <-].
    rewrite (proj1 Hn eq_refl) in *. eexists. split_and!; [reflexivity|exact Hinv'| |simpl in *; lia|simpl in *; lia].
    intros k'. rewrite Ha. by rewrite Ha1.
Qed.
End proofs.

(** ** Refinement

    A client sees a partial function on keys that respects [E]. *)
Section refinement.
Context {K V : Type} `{HashKeySpec K}.
Implicit Types (m : HashMap K V) (k : K) (v : V).

Inductive hop :=
  | Insert_or_assign (k : K) (v : V) | Index (k : K) (v0 : V) | Try_get (k : K) | Contains (k : K)
  | At (k : K) | Erase (k : K) | Clear | Size.

Inductive hres := Done | Value (o : option V) | Flag (c : bool) | Count (n : Z) | Crash.

(** The operation on the map; [at] on a missing key crashes, and the map is as
    it was when the crash is seen. *)
Definition run_hop (op : hop) m : outcome (hres * HashMap K V) :=
  match op with
  | Insert_or_assign k v => m' ←! insert_or_assign m k v; Ret (Done, m')
  | Index k v0 => '(v, m') ←! index_op m k v0; Ret (Value (Some v), m')
  | Try_get k => o ←! TryGet m k; Ret (Value o, m)
  | Contains k => c ←! contains m k; Ret (Flag c, m)
  | At k => match HashMap_at m k with Ret v => Ret (Value (Some v), m) | Abort => Ret (Crash, m)
            | Undef => Undef | Throw => Throw | Fuel => Fuel end
  | Erase k => '(n, m') ←! erase m k; Ret (Count n, m')
  | Clear => Ret (Done, clear m)
  | Size => Ret (Count (size_ m), m)
  end.

Fixpoint run_hops (ops : list hop) m : outcome (list hres * HashMap K V) :=
  match ops with
  | [] => Ret ([], m)
  | op :: ops' =>
      '(r, m1) ←! run_hop op m;
      '(rs, m2) ←! run_hops ops' m1;
      Ret (r :: rs, m2)
  end.

(** The specification: a function on keys and how many classes it is defined on. *)
Definition fmap_state : Type := (K → option V) * Z.

Definition upd (k : K) (o : option V) (f : K → option V) : K → option V :=
  λ k', if E k k' then o else f k'.

Definition spec_hop (op : hop) (st : fmap_state) : hres * fmap_state :=
  let '(f, n) := st in
  match op with
  | Insert_or_assign k v => (Done, (upd k (Some v) f, n + if f k then 0 else 1))
  | Index k v0 =>
      let v := default v0 (f k) in (Value (Some v), (upd k (Some v) f, n + if f k then 0 else 1))
  | Try_get k => (Value (f k), st)
  | Contains k => (Flag (if f k then true else false), st)
  | At k => (if f k then Value (f k) else Crash, st)
  | Erase k => (Count (if f k then 1 else 0), (upd k None f, n - if f k then 1 else 0))
  | Clear => (Done, (λ _, None, 0))
  | Size => (Count n, st)
  end.

Fixpoint spec_hops (ops : list hop) (st : fmap_state) : list hres * fmap_state :=
  match ops with
  | [] => ([], st)
  | op :: ops' =>
      let '(r, st1) := spec_hop op st in
      let '(rs, st2) := spec_hops ops' st1 in
      (r :: rs, st2)
  end.

(** The map holds the function, and the iterators visit each of its classes once. *)
Record hm_rep m (st : fmap_state) : Prop := {
  rep_inv : hm_inv m;
  rep_cap : size_ m ≤ capacity_ m;
  rep_fun k : assoc k (entries m) = st.1 k;
  rep_size : size_ m = st.2;
}.

Lemma run_hop_effect op m st :
  hm_rep m st → size_ m < 2 ^ 60 →
  ∃ m', run_hop op m = Ret ((spec_hop op st).1, m') ∧ hm_rep m' (spec_hop op st).2 ∧ size_ m' ≤ size_ m + 1.
Proof.
  intros [Hinv Hcap Hf Hn] Hs. destruct st as [f n]. simpl in Hf, Hn.
  destruct op as [k v|k v0|k|k|k|k| |]; cbn [run_hop].
  - destruct (insert_or_assign_spec m k v Hinv Hs Hcap) as (m' & -> & ? & Ha & Hs' & ?). cbn [obind].
    exists m'. rewrite Hf in Hs'. simpl. split_and!; [done| |destruct (f k); lia].
    split; auto; [|by rewrite Hs', Hn]. intros k'. by rewrite Ha, Hf.
  - destruct (index_op_spec m k v0 Hinv Hs Hcap) as (m' & -> & ? & Ha & Hs' & ?). cbn [obind].
    exists m'. rewrite !Hf in *. simpl. split_and!; [done| |destruct (f k); lia].
    split; auto; [|by rewrite Hs', Hn]. intros k'. by rewrite Ha, !Hf.
  - rewrite (TryGet_spec m k Hinv), Hf. exists m. split_and!; [done|by split|lia].
  - rewrite (contains_spec m k Hinv), Hf. exists m. simpl. split_and!; [by destruct (f k)|by split|lia].
  - unfold HashMap_at. rewrite (TryGet_spec m k Hinv), Hf. exists m. simpl.
    destruct (f k); (split_and!; [done|by split|lia]).
  - destruct (erase_spec m k Hinv) as (m' & -> & ? & Ha & Hs' & Hc'). cbn [obind].
    exists m'. rewrite Hf in *. simpl. split_and!; [done| |destruct (f k); lia].
    split; auto; simpl; [destruct (f k); lia| |by rewrite Hs', Hn]. intros k'. by rewrite Ha, Hf.
  - destruct (clear_spec m Hinv) as (? & He & Hs' & Hc'). exists (clear m). pose proof (cap_pos _ Hinv).
    pose proof (hm_size _ Hinv). simpl. split_and!; [done| |lia]. split; auto; simpl; [lia|]. intros k. by rewrite He.
  - exists m. rewrite Hn. split_and!; [done|by split|lia].
Qed.

Lemma run_hops_effect ops m st :
  hm_rep m st → size_ m + Z.of_nat (length ops) ≤ 2 ^ 60 →
  ∃ m', run_hops ops m = Ret ((spec_hops ops st).1, m') ∧ hm_rep m' (spec_hops ops st).2 ∧
    size_ m' ≤ size_ m + Z.of_nat (length ops).
Proof.
  revert m st. induction ops as [|op ops IH]; intros m st Hm Hs; cbn [length] in *.
  { exists m. split_and!; [done|done|lia]. }
  cbn [run_hops spec_hops]. destruct (run_hop_effect op m st Hm ltac:(lia)) as (m1 & -> & Hm1 & Hs1).
  cbn [obind]. destruct (spec_hop op st) as [r st1]. destruct (IH m1 st1 Hm1 ltac:(lia)) as (m2 & -> & Hm2 & Hs2).
  destruct (spec_hops ops st1) as [rs st2]. exists m2. split_and!; [done|done|lia].
Qed.

Lemma HashMap_default_rep : ∃ m, HashMap_default = Ret m ∧ hm_rep m (λ _, None, 0) ∧ size_ m = 0.
Proof.
  destruct (HashMap_new_spec (K:=K) (V:=V) 4 ltac:(lia)) as (m & Hm & Hinv & He & Hc). exists m.
  pose proof (hm_size _ Hinv) as Hs. rewrite He in Hs. simpl in Hs.
  split_and!; [done| |done]. split; auto; [lia|]. intros k. by rewrite He.
Qed.

(** C36: a map that starts empty gives, for any sequence of operations, the
    results that a partial function on the classes of keys gives; it never
    fails, and at the end the iterators visit exactly the entries of that
    function, no two of them with equal keys. *)
Theorem HashMap_refines (ops : list hop) :
  Z.of_nat (length ops) ≤ 2 ^ 60 →
  ∃ m m' kvs, HashMap_default = Ret m ∧ run_hops ops m = Ret ((spec_hops ops (λ _, None, 0)).1, m') ∧
    iterate m' = Ret kvs ∧ distinct kvs ∧ Z.of_nat (length kvs) = (spec_hops ops (λ _, None, 0)).2.2 ∧
    ∀ k, assoc k kvs = (spec_hops ops (λ _, None, 0)).2.1 k.
Proof.
  intros Hlen. destruct HashMap_default_rep as (m & Hd & Hrep & Hs).
  destruct (run_hops_effect ops m _ Hrep ltac:(lia)) as (m' & Hrun & Hrep' & _).
  exists m, m', (entries m'). destruct Hrep' as [Hinv Hcap Hf Hn]. split_and!; auto.
  - by apply iterate_spec.
  - by apply distinct_entries.
  - by rewrite <-(hm_size _ Hinv).
Qed.
End refinement.

(** Keys that count modulo 100, with many collisions. *)
#[local] Instance mod_key : HashKey Z := { H x := (x mod 100) mod 8; E x y := x mod 100 =? y mod 100 }.

#[local] Instance mod_key_spec : HashKeySpec Z.
Proof.
  split; simpl; intros *; rewrite ?Z.eqb_eq; try congruence.
  pose proof (Z.mod_pos_bound (x mod 100) 8). lia.
Qed.

(** Enough insertions to grow the map twice. *)
Definition sample_hops : list (@hop Z Z) :=
  ((λ i, Insert_or_assign (Z.of_nat i) (Z.of_nat i * 10)) <$> seq 0 30) ++
  [Try_get 107; Insert_or_assign 112 5; Try_get 12; Erase 7; Erase 207; Contains 7; Index 40 9; Index 40 1;
   At 77; At 29; Size; Clear; Size].

Lemma HashMap_refines_witness :
  ∃ m m' kvs, HashMap_default = Ret m ∧
    run_hops sample_hops m = Ret (replicate 30 Done ++
      [Value (Some 70); Done; Value (Some 5); Count 1; Count 0; Flag false; Value (Some 9); Value (Some 9);
       Crash; Value (Some 290); Count 30; Done; Count 0], m') ∧
    iterate m' = Ret kvs ∧ distinct kvs ∧ Z.of_nat (length kvs) = 0 ∧ ∀ k, assoc k kvs = None.
Proof.
  assert (Hspec : (spec_hops sample_hops (λ _ : Z, None, 0)).1 = replicate 30 Done ++
      [Value (Some 70); Done; Value (Some 5); Count 1; Count 0; Flag false; Value (Some 9); Value (Some 9);
       Crash; Value (Some 290); Count 30; Done; Count 0]) by (vm_compute; reflexivity).
  destruct (HashMap_refines sample_hops) as (m & m' & kvs & Hm & Hr & Hi & Hd & Hl & Ha).
  { vm_compute. discriminate. }
  rewrite Hspec in Hr. exists m, m', kvs. split_and!; [exact Hm|exact Hr|exact Hi|exact Hd|exact Hl|exact Ha].
Defined.
