(* ===== verification/SinglyLinkedList.v ===== *)
(** * The intrusive list of flare/base/internal/singly_linked_list.h

    The entries are part of the objects they link, so the list works on memory
    that the caller owns: the heap maps the address of an entry to its [next]
    field.  [node_cast] and [object_cast] add and subtract the same offset; an
    object is modelled by the address of its entry.  [FLARE_DCHECK]s are those of
    a debug build and abort.

    [Sll_refines] says that lists that share no entry behave as sequences, moving
    entries between them included. *)

From S2P Require Import Prelude.

Module Sll.

Notation loc := positive (only parsing).

(** The [next] fields; a new entry points to itself, see [new_entry]. *)
Notation heap := (gmap positive (option positive)) (only parsing).

Record SinglyLinkedList := mk {
  size_ : Z;
  next_ : option loc;
  tail_ : option loc;
}.

Definition empty_list : SinglyLinkedList := mk 0 None None.

Definition new_entry (e : loc) (h : heap) : heap := <[e := Some e]> h.

(** [p->next] and [p->next = n]. *)
Definition load (p : option loc) (h : heap) : outcome (option loc) :=
  a ←! deref p; deref (h !! a).

Definition store (p : option loc) (n : option loc) (h : heap) : outcome heap :=
  a ←! deref p; _ ←! deref (h !! a); Ret (<[a := n]> h).

Definition empty (l : SinglyLinkedList) : outcome bool :=
  if bool_decide ((size_ l = 0) ↔ (next_ l = None)) then Ret (size_ l =? 0) else Abort.

Definition front (l : SinglyLinkedList) : outcome loc :=
  e ←! empty l; if e : bool then Abort else deref (next_ l).

Definition back (l : SinglyLinkedList) : outcome loc :=
  e ←! empty l; if e : bool then Abort else deref (tail_ l).

Definition pop_front (l : SinglyLinkedList) (h : heap) : outcome (loc * SinglyLinkedList) :=
  e ←! empty l;
  if e : bool then Abort
  else
    let rc := next_ l in
    next ←! load (next_ l) h;
    let size := size_ l - 1 in
    if size =? 0
    then if decide (next = None) then r ←! deref rc; Ret (r, mk size next None) else Abort
    else r ←! deref rc; Ret (r, mk size next (tail_ l)).

Definition push_front (entry : loc) (l : SinglyLinkedList) (h : heap) : outcome (SinglyLinkedList * heap) :=
  h' ←! store (Some entry) (next_ l) h;
  Ret (mk (u64 (size_ l + 1)) (Some entry) (if size_ l =? 0 then Some entry else tail_ l), h').

Definition push_back (entry : loc) (l : SinglyLinkedList) (h : heap) : outcome (SinglyLinkedList * heap) :=
  h' ←! store (Some entry) None h;
  if size_ l =? 0 then Ret (mk (u64 (size_ l + 1)) (Some entry) (Some entry), h')
  else
    h'' ←! store (tail_ l) (Some entry) h';
    Ret (mk (u64 (size_ l + 1)) (next_ l) (Some entry), h'').

Definition swap (l1 l2 : SinglyLinkedList) : SinglyLinkedList * SinglyLinkedList := (l2, l1).

(** The list, and what is left of [from]. *)
Definition splice (l from : SinglyLinkedList) (h : heap) :
    outcome (SinglyLinkedList * SinglyLinkedList * heap) :=
  e ←! empty l;
  if e : bool then let '(l', from') := swap l from in Ret (l', from', h)
  else
    ef ←! empty from;
    if ef : bool then Ret (l, from, h)
    else
      h' ←! store (tail_ l) (next_ from) h;
      Ret (mk (u64 (size_ l + size_ from)) (next_ l) (tail_ from), empty_list, h').

(** [operator=] from a list that is given up. *)
Definition move_assign (l other : SinglyLinkedList) : outcome (SinglyLinkedList * SinglyLinkedList) :=
  e ←! empty l; if e : bool then Ret (swap l other) else Abort.

(** [for (auto&& e : l)]: [iterator]s from [begin()] to [end()]. *)
Fixpoint iterate_from (fuel : nat) (current : option loc) (h : heap) : outcome (list loc) :=
  match fuel with
  | O => Fuel
  | S fuel' =>
      match current with
      | None => Ret []
      | Some e => n ←! load current h; rest ←! iterate_from fuel' n h; Ret (e :: rest)
      end
  end.

Definition iterate (l : SinglyLinkedList) (h : heap) : outcome (list loc) :=
  iterate_from (S (Z.to_nat (size_ l))) (next_ l) h.

(** ** The list holds a sequence of entries *)

Record sll_rep (h : heap) (l : SinglyLinkedList) (es : list loc) : Prop := {
  r_size : size_ l = Z.of_nat (length es);
  r_next : next_ l = head es;
  r_tail : tail_ l = last es;
  r_nodup : NoDup es;
  r_chain i e : es !! i = Some e → h !! e = Some (es !! S i);
}.

Lemma rep_empty h l es : sll_rep h l es → empty l = Ret (bool_decide (es = [])).
Proof.
  intros [Hs Hn _ _ _]. unfold empty. rewrite bool_decide_eq_true_2.
  - destruct es; simpl in *; rewrite Hs; [done|]. by destruct (Z.eqb_spec (Z.pos (Pos.of_succ_nat (length es))) 0).
  - rewrite Hs, Hn. destruct es; simpl; split; intros; done || lia.
Qed.

Lemma rep_nil h : sll_rep h empty_list [].
Proof. split; try done. constructor. Qed.

(** Memory that is not part of the list does not matter. *)
Lemma rep_frame h h' l es : sll_rep h l es → (∀ e, e ∈ es → h' !! e = h !! e) → sll_rep h' l es.
Proof.
  intros [] Heq. split; auto. intros i e Hi. rewrite Heq; [auto|]. by eapply list_elem_of_lookup_2.
Qed.

Lemma rep_push_front h l es e :
  sll_rep h l es → e ∉ es → is_Some (h !! e) → Z.of_nat (length es) < 2 ^ 63 →
  ∃ l' h', push_front e l h = Ret (l', h') ∧ sll_rep h' l' (e :: es) ∧ h' = <[e := head es]> h.
Proof.
  intros [Hs Hn Ht Hd Hc] He [o Ho] Hlen. unfold push_front, store. cbn [deref obind]. rewrite Ho. cbn [deref obind].
  eexists _, _. split_and!; [done| |by rewrite Hn]. split; simpl; auto.
  - rewrite u64_small; lia.
  - rewrite Hs, Ht. by destruct es.
  - by constructor.
  - intros [|i] x; simpl.
    + intros [= <-]. rewrite lookup_insert_eq, Hn. by destruct es.
    + intros Hi. rewrite lookup_insert_ne; [auto|]. intros ->. apply He. by eapply list_elem_of_lookup_2.
Qed.

Lemma last_chain {A} (es : list A) e : last es = Some e → es !! (length es - 1)%nat = Some e.
Proof. rewrite last_lookup. by replace (Nat.pred (length es)) with (length es - 1)%nat by lia. Qed.

(** Linking the last entry to what comes after it. *)
Lemma chain_link (h : heap) es t n rest :
  NoDup (es ++ rest) → last es = Some t → n = head rest →
  (∀ i e, es !! i = Some e → h !! e = Some (es !! S i)) →
  (∀ i e, rest !! i = Some e → h !! e = Some (rest !! S i)) →
  ∀ i e, (es ++ rest) !! i = Some e → <[t := n]> h !! e = Some ((es ++ rest) !! S i).
Proof.
  intros Hd Ht -> Hes Hrest i e Hi. apply last_chain in Ht as Hti.
  assert (Hlt : (length es - 1 < length es)%nat) by (by eapply lookup_lt_Some).
  destruct (decide (i = length es - 1)%nat) as [->|Hne].
  - rewrite lookup_app_l in Hi by lia. assert (e = t) as -> by congruence.
    rewrite lookup_insert_eq, lookup_app_r by lia.
    replace (S (length es - 1) - length es)%nat with 0%nat by lia. by destruct rest.
  - rewrite lookup_insert_ne.
    + destruct (decide (i < length es)%nat).
      * rewrite lookup_app_l in Hi by lia. rewrite lookup_app_l by lia. auto.
      * rewrite lookup_app_r in Hi by lia. rewrite lookup_app_r by lia.
        replace (S i - length es)%nat with (S (i - length es)) by lia. auto.
    + intros <-. apply Hne. eapply NoDup_lookup; [exact Hd|exact Hi|]. by rewrite lookup_app_l by lia.
Qed.

Lemma last_is_Some {A} (es : list A) : es ≠ [] → is_Some (last es).
Proof. intros Hne. destruct (last es) eqn:E; [eauto|]. by apply last_None in E. Qed.

Lemma rep_push_back h l es e :
  sll_rep h l es → e ∉ es → is_Some (h !! e) → Z.of_nat (length es) < 2 ^ 63 →
  ∃ l' h', push_back e l h = Ret (l', h') ∧ sll_rep h' l' (es ++ [e]) ∧
    ∀ x, x ∉ es → x ≠ e → h' !! x = h !! x.
Proof.
  intros [Hs Hn Ht Hd Hc] He [o Ho] Hlen. unfold push_back, store. cbn [deref obind]. rewrite Ho. cbn [deref obind].
  assert (Hd' : NoDup (es ++ [e])) by (apply NoDup_app; split_and!; [done|set_solver|apply NoDup_singleton]).
  destruct (Z.eqb_spec (size_ l) 0) as [H0|H0].
  - destruct es; [|simpl in Hs; lia]. eexists _, _. split_and!; [done| |].
    + split; simpl; auto; [rewrite u64_small; lia|]. intros [|i] x; [|done]. intros [= <-]. by rewrite lookup_insert_eq.
    + intros x _ Hx. by rewrite lookup_insert_ne.
  - assert (Hne : es ≠ []) by (intros ->; simpl in Hs; lia).
    destruct (last_is_Some es Hne) as [t Hlt]. rewrite Ht, Hlt. cbn [deref obind].
    assert (Hte : t ∈ es) by (eapply list_elem_of_lookup_2, last_chain, Hlt).
    assert (t ≠ e) by (by intros ->). rewrite lookup_insert_ne by done.
    rewrite (Hc _ _ (last_chain _ _ Hlt)). cbn [deref obind].
    eexists _, _. split_and!; [done| |].
    + split; simpl; auto.
      * rewrite u64_small, length_app; simpl; lia.
      * rewrite Hn. by destruct es.
      * by rewrite last_snoc.
      * apply chain_link; auto.
        -- intros i x Hi. rewrite lookup_insert_ne; [auto|]. intros ->. apply He. by eapply list_elem_of_lookup_2.
        -- intros [|i] x; [|done]. intros [= <-]. by rewrite lookup_insert_eq.
    + intros x Hx Hxe. rewrite !lookup_insert_ne by (done || by intros ->). done.
Qed.

Lemma rep_pop_front h l e es :
  sll_rep h l (e :: es) → ∃ l', pop_front l h = Ret (e, l') ∧ sll_rep h l' es.
Proof.
  intros Hrep. pose proof (rep_empty _ _ _ Hrep) as He. destruct Hrep as [Hs Hn Ht Hd Hc]. unfold pop_front. rewrite He.
  rewrite bool_decide_eq_false_2 by done. cbn [obind]. unfold load. rewrite Hn. cbn [head deref obind].
  rewrite (Hc 0%nat e eq_refl). cbn [deref obind]. apply NoDup_cons in Hd as [_ Hd]. cbn [length] in Hs.
  assert (Hchain : ∀ i x, es !! i = Some x → h !! x = Some (es !! S i)) by (intros i x; apply (Hc (S i))).
  destruct (Z.eqb_spec (size_ l - 1) 0) as [H1|H1].
  - assert (es = []) as -> by (destruct es; [done|cbn [length] in Hs; lia]). rewrite decide_True by done.
    eexists. split; [done|]. split; simpl; auto.
  - eexists. split; [done|]. split; simpl; auto; [lia|by destruct es|].
    rewrite Ht. destruct es; [cbn [length] in Hs; lia|done].
Qed.

Lemma rep_splice h l1 es1 l2 es2 :
  sll_rep h l1 es1 → sll_rep h l2 es2 → NoDup (es1 ++ es2) → Z.of_nat (length es1 + length es2) < 2 ^ 64 →
  ∃ l1' l2' h', splice l1 l2 h = Ret (l1', l2', h') ∧ sll_rep h' l1' (es1 ++ es2) ∧ sll_rep h' l2' [] ∧
    ∀ x, x ∉ es1 → h' !! x = h !! x.
Proof.
  intros H1 H2 Hd Hlen. unfold splice. rewrite (rep_empty _ _ _ H1). cbn [obind].
  case_bool_decide as E1; [subst es1; eauto 10|]. rewrite (rep_empty _ _ _ H2). cbn [obind].
  case_bool_decide as E2; [subst es2; rewrite app_nil_r; eauto 10|].
  destruct H1 as [Hs1 Hn1 Ht1 Hd1 Hc1], H2 as [Hs2 Hn2 Ht2 Hd2 Hc2]. unfold store.
  destruct (last_is_Some es1 E1) as [t Ht]. rewrite Ht1, Ht. cbn [deref obind].
  rewrite (Hc1 _ _ (last_chain _ _ Ht)). cbn [deref obind].
  eexists _, _, _. split_and!; [done| |apply rep_nil|].
  - split; simpl; auto.
    + rewrite u64_small, length_app; lia.
    + rewrite Hn1. by destruct es1.
    + rewrite Ht2. destruct (last_is_Some es2 E2) as [t2 Hl2]. rewrite last_app, Hl2. done.
    + by apply chain_link.
  - intros x Hx. rewrite lookup_insert_ne; [done|]. intros <-. apply Hx.
    eapply list_elem_of_lookup_2, last_chain, Ht.
Qed.

Lemma rep_iterate h l es : sll_rep h l es → iterate l h = Ret es.
Proof.
  intros [Hs Hn _ _ Hc]. unfold iterate. rewrite Hs, Hn, Nat2Z.id.
  assert (Hgo : ∀ k rest, drop k es = rest → iterate_from (S (length rest)) (head rest) h = Ret rest).
  { intros k rest. revert k. induction rest as [|e rest IH]; intros k Hk; [done|].
    assert (Hke : es !! k = Some e) by (rewrite <-(Nat.add_0_r k), <-lookup_drop, Hk; done).
    assert (Hrest : drop (S k) es = rest).
    { pose proof (drop_S _ _ _ Hke) as Hd. rewrite Hk in Hd. by injection Hd. }
    specialize (IH _ Hrest). cbn [head length]. remember (S (length rest)) as f. cbn [iterate_from]. unfold load. cbn [deref obind]. rewrite (Hc _ _ Hke). cbn [deref obind].
    assert (es !! S k = head rest) as ->.
    { rewrite <-(Nat.add_0_r (S k)), <-lookup_drop, Hrest. by destruct rest. }
    by rewrite IH. }
  apply (Hgo 0%nat). apply drop_0.
Qed.

(** ** Refinement: lists that share no entry

    The lists have numbers, and the entries are allocated one after the other. *)
Record world := mkWorld { w_heap : heap; w_lists : gmap nat SinglyLinkedList }.

Inductive lop :=
  | Push_front (id : nat) (e : loc) | Push_back (id : nat) (e : loc) | Pop_front (id : nat)
  | Splice (id from : nat) | Swap (id1 id2 : nat) | Iterate (id : nat) | Size (id : nat).

Inductive lres := Unit | Entry (e : loc) | Entries (es : list loc) | Count (n : Z).

Definition run_lop (op : lop) (w : world) : outcome (lres * world) :=
  let '(mkWorld h ls) := w in
  match op with
  | Push_front id e =>
      l ←! deref (ls !! id); '(l', h') ←! push_front e l h; Ret (Unit, mkWorld h' (<[id := l']> ls))
  | Push_back id e =>
      l ←! deref (ls !! id); '(l', h') ←! push_back e l h; Ret (Unit, mkWorld h' (<[id := l']> ls))
  | Pop_front id =>
      l ←! deref (ls !! id); '(e, l') ←! pop_front l h; Ret (Entry e, mkWorld h (<[id := l']> ls))
  | Splice id from =>
      l ←! deref (ls !! id); f ←! deref (ls !! from);
      '(l', f', h') ←! splice l f h; Ret (Unit, mkWorld h' (<[id := l']> (<[from := f']> ls)))
  | Swap id1 id2 =>
      l1 ←! deref (ls !! id1); l2 ←! deref (ls !! id2);
      let '(l1', l2') := swap l1 l2 in Ret (Unit, mkWorld h (<[id1 := l1']> (<[id2 := l2']> ls)))
  | Iterate id => l ←! deref (ls !! id); es ←! iterate l h; Ret (Entries es, w)
  | Size id => l ←! deref (ls !! id); Ret (Count (size_ l), w)
  end.

Notation seqs := (gmap nat (list positive)) (only parsing).

(** The same on sequences; [None] when the caller breaks a precondition: an entry
    that is in a list already, a list that is empty, a list spliced into itself. *)
Definition unlinked (e : loc) (ss : seqs) : Prop := map_Forall (λ _ es, e ∉ es) ss.

Definition spec_lop (op : lop) (ss : seqs) : option (lres * seqs) :=
  match op with
  | Push_front id e => es ← ss !! id; if decide (unlinked e ss) then Some (Unit, <[id := e :: es]> ss) else None
  | Push_back id e => es ← ss !! id; if decide (unlinked e ss) then Some (Unit, <[id := es ++ [e]]> ss) else None
  | Pop_front id => es ← ss !! id; match es with e :: es' => Some (Entry e, <[id := es']> ss) | [] => None end
  | Splice id from =>
      es ← ss !! id; fs ← ss !! from;
      if decide (id = from) then None else Some (Unit, <[id := es ++ fs]> (<[from := []]> ss))
  | Swap id1 id2 => es1 ← ss !! id1; es2 ← ss !! id2; Some (Unit, <[id1 := es2]> (<[id2 := es1]> ss))
  | Iterate id => es ← ss !! id; Some (Entries es, ss)
  | Size id => es ← ss !! id; Some (Count (Z.of_nat (length es)), ss)
  end.

(** No entry is in two lists; entries are numbered up to [n]. *)
Record world_rep (w : world) (ss : seqs) : Prop := {
  wr_lists id : match ss !! id with
                | Some es => ∃ l, w_lists w !! id = Some l ∧ sll_rep (w_heap w) l es
                | None => w_lists w !! id = None
                end;
  wr_disjoint id1 id2 es1 es2 e :
    ss !! id1 = Some es1 → ss !! id2 = Some es2 → e ∈ es1 → e ∈ es2 → id1 = id2;
}.

Definition op_entries (op : lop) : list loc :=
  match op with Push_front _ e | Push_back _ e => [e] | _ => [] end.

Lemma wr_get w ss id es :
  world_rep w ss → ss !! id = Some es → ∃ l, w_lists w !! id = Some l ∧ sll_rep (w_heap w) l es.
Proof. intros Hw Hid. pose proof (wr_lists _ _ Hw id) as H. by rewrite Hid in H. Qed.

(** Changing one list and memory that belongs to it. *)
Lemma wr_update w ss id es es' l' h' :
  world_rep w ss → ss !! id = Some es → sll_rep h' l' es' →
  (∀ e, e ∈ es' → e ∈ es ∨ unlinked e ss) →
  (∀ x, x ∉ es → x ∉ es' → h' !! x = w_heap w !! x) →
  world_rep (mkWorld h' (<[id := l']> (w_lists w))) (<[id := es']> ss).
Proof.
  intros Hw Hid Hl' Hes' Hh. split; simpl.
  - intros id'. destruct (decide (id' = id)) as [->|Hne]; [rewrite !lookup_insert_eq; eauto|].
    rewrite !lookup_insert_ne by done. pose proof (wr_lists _ _ Hw id') as H.
    destruct (ss !! id') as [es0|] eqn:E0; [|done]. destruct H as (l0 & Hl0 & Hr0). exists l0. split; [done|].
    eapply rep_frame; [exact Hr0|]. intros e He. apply Hh.
    + intros He'. destruct Hne. by apply (wr_disjoint _ _ Hw id' id es0 es e).
    + intros He'. destruct (Hes' e He') as [He2|Hun].
      * destruct Hne. by apply (wr_disjoint _ _ Hw id' id es0 es e).
      * by apply (Hun id' es0).
  - assert (Hcross : ∀ id2 es2 e, id2 ≠ id → ss !! id2 = Some es2 → e ∈ es' → e ∈ es2 → False).
    { intros id2 es2 e Hne H2 He1 He2. destruct (Hes' e He1) as [He|Hun].
      - apply Hne. symmetry. by apply (wr_disjoint _ _ Hw id id2 es es2 e).
      - by apply (Hun id2 es2). }
    intros id1 id2 es1 es2 e H1 H2 He1 He2. rewrite lookup_insert_Some in H1, H2.
    destruct H1 as [[<- <-]|[Hn1 H1]], H2 as [[<- <-]|[Hn2 H2]]; [done|exfalso; eauto..|].
    by apply (wr_disjoint _ _ Hw id1 id2 es1 es2 e).
Qed.

(** Changing two lists and memory that belongs to them. *)
Lemma wr_update2 w ss id1 id2 es1 es2 es1' es2' l1' l2' h' :
  world_rep w ss → id1 ≠ id2 → ss !! id1 = Some es1 → ss !! id2 = Some es2 →
  sll_rep h' l1' es1' → sll_rep h' l2' es2' →
  (∀ e, e ∈ es1' ∨ e ∈ es2' → e ∈ es1 ∨ e ∈ es2) → (∀ e, e ∈ es1' → e ∉ es2') →
  (∀ x, x ∉ es1 → x ∉ es2 → h' !! x = w_heap w !! x) →
  world_rep (mkWorld h' (<[id1 := l1']> (<[id2 := l2']> (w_lists w)))) (<[id1 := es1']> (<[id2 := es2']> ss)).
Proof.
  intros Hw H12 H1 H2 Hr1 Hr2 Hsub Hdis Hh.
  assert (Hother : ∀ id es e, id ≠ id1 → id ≠ id2 → ss !! id = Some es → e ∈ es → e ∉ es1 ∧ e ∉ es2).
  { intros id es e Hn1 Hn2 Hid He. split; intros He'; [apply Hn1|apply Hn2].
    - by apply (wr_disjoint _ _ Hw id id1 es es1 e).
    - by apply (wr_disjoint _ _ Hw id id2 es es2 e). }
  split; simpl.
  - intros id. destruct (decide (id = id1)) as [->|Hn1]; [rewrite !lookup_insert_eq; eauto|].
    rewrite !(lookup_insert_ne _ id1) by done.
    destruct (decide (id = id2)) as [->|Hn2]; [rewrite !lookup_insert_eq; eauto|].
    rewrite !lookup_insert_ne by done. pose proof (wr_lists _ _ Hw id) as H.
    destruct (ss !! id) as [es|] eqn:E0; [|done]. destruct H as (l & Hl & Hr). exists l. split; [done|].
    eapply rep_frame; [exact Hr|]. intros e He. destruct (Hother id es e Hn1 Hn2 E0 He). auto.
  - intros i1 i2 s1 s2 e. rewrite !lookup_insert_Some.
    intros [[<- <-]|[Hn1 [[<- <-]|[Hm1 G1]]]] [[<- <-]|[Hn2 [[<- <-]|[Hm2 G2]]]] He1 He2; try done.
    + by destruct (Hdis e He1).
    + destruct (Hother i2 s2 e) as [? ?]; auto. destruct (Hsub e); [auto|done..].
    + by destruct (Hdis e He2).
    + destruct (Hother i2 s2 e) as [? ?]; auto. destruct (Hsub e); [auto|done..].
    + destruct (Hother i1 s1 e) as [? ?]; auto. destruct (Hsub e); [auto|done..].
    + destruct (Hother i1 s1 e) as [? ?]; auto. destruct (Hsub e); [auto|done..].
    + by apply (wr_disjoint _ _ Hw i1 i2 s1 s2 e).
Qed.

(** The bound on the number of entries. *)
Definition few (ss : seqs) : Prop :=
  ∀ id1 id2 es1 es2, ss !! id1 = Some es1 → ss !! id2 = Some es2 → Z.of_nat (length es1 + length es2) < 2 ^ 63.

Lemma rep_dom h l es x : sll_rep h l es → x ∈ es → is_Some (h !! x).
Proof. intros Hr [i Hi]%list_elem_of_lookup_1. rewrite (r_chain _ _ _ Hr i x Hi). eauto. Qed.

(** What is allocated stays the same when only the entries of a list change. *)
Lemma rep_alloc (h h' : heap) l' (es' : list loc) :
  sll_rep h' l' es' → (∀ y, y ∉ es' → h' !! y = h !! y) → (∀ y, y ∈ es' → is_Some (h !! y)) →
  ∀ x, is_Some (h !! x) ↔ is_Some (h' !! x).
Proof.
  intros Hr Hh Hold x. destruct (decide (x ∈ es')) as [Hin|Hin].
  - pose proof (rep_dom _ _ _ _ Hr Hin). by specialize (Hold x Hin).
  - by rewrite Hh.
Qed.

Lemma run_lop_effect op w ss r ss' :
  world_rep w ss → spec_lop op ss = Some (r, ss') → few ss →
  (∀ e, e ∈ op_entries op → is_Some (w_heap w !! e)) →
  ∃ w', run_lop op w = Ret (r, w') ∧ world_rep w' ss' ∧ (∀ e, is_Some (w_heap w !! e) ↔ is_Some (w_heap w' !! e)).
Proof.
  intros Hw Hop Hfew Hents. pose proof Hw as Hw0. destruct w as [h ls]. simpl in *.
  destruct op as [id e|id e|id|id from|id1 id2|id|id]; cbn [run_lop spec_lop op_entries] in *.
  - destruct (ss !! id) as [es|] eqn:Eid; [|done]. simpl in Hop. destruct (decide (unlinked e ss)) as [Hun|]; [|done].
    simplify_eq. destruct (wr_get _ _ _ _ Hw Eid) as (l & Hl & Hr). simpl in Hl, Hr. rewrite Hl. cbn [deref obind].
    assert (e ∉ es) by (by apply (Hun id)). specialize (Hents e ltac:(set_solver)).
    destruct (rep_push_front h l es e Hr) as (l' & h' & -> & Hr' & Hh'); auto; [specialize (Hfew _ _ _ _ Eid Eid); lia|].
    cbn [obind]. eexists. split_and!; [done| |].
    + apply (wr_update _ _ _ es _ _ _ Hw Eid); auto; simpl; [set_solver|]. intros x _ Hx. rewrite Hh', lookup_insert_ne; set_solver.
    + apply (rep_alloc _ _ _ _ Hr'); [intros x Hx; rewrite Hh', lookup_insert_ne; set_solver|].
      intros y [->|Hy]%elem_of_cons; [done|by eapply rep_dom].
  - destruct (ss !! id) as [es|] eqn:Eid; [|done]. simpl in Hop. destruct (decide (unlinked e ss)) as [Hun|]; [|done].
    simplify_eq. destruct (wr_get _ _ _ _ Hw Eid) as (l & Hl & Hr). simpl in Hl, Hr. rewrite Hl. cbn [deref obind].
    assert (e ∉ es) by (by apply (Hun id)). specialize (Hents e ltac:(set_solver)).
    destruct (rep_push_back h l es e Hr) as (l' & h' & -> & Hr' & Hh'); auto; [specialize (Hfew _ _ _ _ Eid Eid); lia|].
    cbn [obind]. eexists. split_and!; [done| |].
    + apply (wr_update _ _ _ es _ _ _ Hw Eid); auto; simpl; [set_solver|]. intros x ? ?. apply Hh'; set_solver.
    + apply (rep_alloc _ _ _ _ Hr'); [intros x Hx; apply Hh'; set_solver|].
      intros y [Hy| ->%list_elem_of_singleton]%elem_of_app; [by eapply rep_dom|done].
  - destruct (ss !! id) as [es|] eqn:Eid; [|done]. simpl in Hop. destruct es as [|e es]; [done|].
    simplify_eq. destruct (wr_get _ _ _ _ Hw Eid) as (l & Hl & Hr). simpl in Hl, Hr. rewrite Hl. cbn [deref obind].
    destruct (rep_pop_front h l e es Hr) as (l' & -> & Hr'). cbn [obind]. eexists. split_and!; [done| |auto].
    apply (wr_update _ _ _ (e :: es) _ _ _ Hw Eid); auto. set_solver.
  - destruct (ss !! id) as [es|] eqn:Eid; [|done]. destruct (ss !! from) as [fs|] eqn:Efr; [|done]. simpl in Hop.
    destruct (decide (id = from)) as [|Hne]; [done|]. simplify_eq.
    destruct (wr_get _ _ _ _ Hw Eid) as (l & Hl & Hr), (wr_get _ _ _ _ Hw Efr) as (f & Hf & Hrf).
    simpl in Hl, Hr, Hf, Hrf. rewrite Hl, Hf. cbn [deref obind].
    destruct (rep_splice h l es f fs Hr Hrf) as (l' & f' & h' & -> & Hr' & Hrf' & Hh').
    + apply NoDup_app. split_and!; [apply Hr| |apply Hrf]. intros e He He'. destruct Hne. by apply (wr_disjoint _ _ Hw id from es fs e).
    + specialize (Hfew _ _ _ _ Eid Efr). lia.
    + cbn [obind]. eexists. split_and!; [done| |].
      * apply (wr_update2 _ _ _ _ es fs _ _ _ _ _ Hw Hne Eid Efr Hr' Hrf'); [set_solver|set_solver|]. intros x Hx _. auto.
      * apply (rep_alloc _ _ _ _ Hr'); [intros x Hx; apply Hh'; set_solver|].
        intros y [Hy|Hy]%elem_of_app; [apply (rep_dom _ _ _ _ Hr Hy)|apply (rep_dom _ _ _ _ Hrf Hy)].
  - destruct (ss !! id1) as [es1|] eqn:E1; [|done]. destruct (ss !! id2) as [es2|] eqn:E2; [|done]. simpl in Hop. simplify_eq.
    destruct (wr_get _ _ _ _ Hw E1) as (l1 & Hl1 & Hr1), (wr_get _ _ _ _ Hw E2) as (l2 & Hl2 & Hr2).
    simpl in Hl1, Hr1, Hl2, Hr2. rewrite Hl1, Hl2. cbn [deref obind swap]. eexists. split_and!; [done| |auto].
    destruct (decide (id1 = id2)) as [->|Hne].
    + simplify_eq. rewrite !insert_insert_eq, !insert_id by done. done.
    + apply (wr_update2 _ _ _ _ es1 es2 _ _ _ _ _ Hw Hne E1 E2 Hr2 Hr1); [set_solver| |done].
      intros e He2 He1. destruct Hne. by apply (wr_disjoint _ _ Hw id1 id2 es1 es2 e).
  - destruct (ss !! id) as [es|] eqn:Eid; [|done]. simpl in Hop. simplify_eq.
    destruct (wr_get _ _ _ _ Hw Eid) as (l & Hl & Hr). simpl in Hl, Hr. rewrite Hl. cbn [deref obind].
    rewrite (rep_iterate h l es Hr). cbn [obind]. eauto.
  - destruct (ss !! id) as [es|] eqn:Eid; [|done]. simpl in Hop. simplify_eq.
    destruct (wr_get _ _ _ _ Hw Eid) as (l & Hl & Hr). simpl in Hl, Hr. rewrite Hl. cbn [deref obind].
    rewrite (r_size _ _ _ Hr). eauto.
Qed.

Fixpoint run_lops (ops : list lop) (w : world) : outcome (list lres * world) :=
  match ops with
  | [] => Ret ([], w)
  | op :: ops' => '(r, w1) ←! run_lop op w; '(rs, w2) ←! run_lops ops' w1; Ret (r :: rs, w2)
  end.

Fixpoint spec_lops (ops : list lop) (ss : seqs) : option (list lres * seqs) :=
  match ops with
  | [] => Some ([], ss)
  | op :: ops' => '(r, ss1) ← spec_lop op ss; '(rs, ss2) ← spec_lops ops' ss1; Some (r :: rs, ss2)
  end.

(** [n] empty lists and the entries [es], not linked yet. *)
Definition init_world (n : nat) (es : list loc) : world :=
  mkWorld (foldr new_entry ∅ es) (list_to_map ((λ i, (i, empty_list)) <$> seq 0 n)).

Definition init_seqs (n : nat) : seqs := list_to_map ((λ i, (i, [])) <$> seq 0 n).

Lemma init_lookup {A} (n : nat) (a : A) i :
  (list_to_map ((λ i, (i, a)) <$> seq 0 n) : gmap nat A) !! i = if decide (i < n)%nat then Some a else None.
Proof.
  assert (Hfst : ((λ i, (i, a)) <$> seq 0 n).*1 = seq 0 n) by (rewrite <-list_fmap_compose; apply list_fmap_id).
  destruct (decide (i < n)%nat) as [Hi|Hi].
  - apply elem_of_list_to_map; [rewrite Hfst; apply NoDup_seq|]. apply list_elem_of_fmap. exists i. split; [done|].
    apply elem_of_seq. lia.
  - apply not_elem_of_list_to_map. rewrite Hfst, elem_of_seq. lia.
Qed.

Lemma init_rep n es : world_rep (init_world n es) (init_seqs n).
Proof.
  unfold init_world, init_seqs. split; cbn [w_lists w_heap].
  - intros id. rewrite !init_lookup. destruct (decide _); [|done]. eauto using rep_nil.
  - intros id1 id2 es1 es2 e. rewrite !init_lookup. destruct (decide _), (decide _); try done.
    intros [= <-] [= <-] He. by apply elem_of_nil in He.
Qed.

Lemma init_heap es x : is_Some (foldr new_entry (∅ : heap) es !! x) ↔ x ∈ es.
Proof.
  unfold new_entry. induction es as [|e es IH]; simpl.
  - rewrite lookup_empty, elem_of_nil. split; [by intros []|done].
  - rewrite lookup_insert_is_Some', elem_of_cons, IH. naive_solver.
Qed.

Lemma world_few (w : world) ss (es : list loc) :
  world_rep w ss → (∀ x, is_Some (w_heap w !! x) ↔ x ∈ es) → Z.of_nat (length es) < 2 ^ 62 → few ss.
Proof.
  intros Hw Hdom Hlen. assert (Hone : ∀ id s, ss !! id = Some s → (length s ≤ length es)%nat).
  { intros id s Hs. destruct (wr_get _ _ _ _ Hw Hs) as (l & _ & Hr).
    apply submseteq_length, NoDup_submseteq; [apply Hr|]. intros x Hx. apply Hdom. by eapply rep_dom. }
  intros id1 id2 s1 s2 H1 H2. apply Hone in H1, H2. lia.
Qed.

Lemma run_lops_effect ops w ss rs ss' (es : list loc) :
  world_rep w ss → spec_lops ops ss = Some (rs, ss') →
  (∀ x, is_Some (w_heap w !! x) ↔ x ∈ es) → Z.of_nat (length es) < 2 ^ 62 →
  Forall (λ op, ∀ e, e ∈ op_entries op → e ∈ es) ops →
  ∃ w', run_lops ops w = Ret (rs, w') ∧ world_rep w' ss'.
Proof.
  intros Hw Hspec Hdom Hlen Hops. revert w ss rs Hw Hspec Hdom.
  induction Hops as [|op ops Hop _ IH]; intros w ss rs Hw Hspec Hdom; cbn [spec_lops run_lops] in *.
  { simplify_eq. by exists w. }
  destruct (spec_lop op ss) as [[r ss1]|] eqn:E1; [|done]. simpl in Hspec.
  destruct (spec_lops ops ss1) as [[rs1 ss2]|] eqn:E2; [|done]. simplify_eq/=.
  destruct (run_lop_effect op w ss r ss1 Hw E1) as (w1 & -> & Hw1 & Hdom1).
  - by eapply world_few.
  - intros e He. apply Hdom. auto.
  - cbn [obind]. destruct (IH w1 ss1 rs1 Hw1 E2) as (w2 & -> & Hw2).
    + intros x. by rewrite <-Hdom1.
    + by exists w2.
Qed.

(** Lists that start empty, and entries that are in no list, behave as
    sequences under any operations that keep the preconditions: pushing at
    either end, popping, swapping, moving all entries of one list to another,
    and iterating. *)
Theorem Sll_refines (n : nat) (es : list loc) (ops : list lop) rs ss :
  Z.of_nat (length es) < 2 ^ 62 → Forall (λ op, ∀ e, e ∈ op_entries op → e ∈ es) ops →
  spec_lops ops (init_seqs n) = Some (rs, ss) →
  ∃ w, run_lops ops (init_world n es) = Ret (rs, w).
Proof.
  intros Hlen Hops Hspec.
  destruct (run_lops_effect ops _ _ rs ss es (init_rep n es) Hspec (init_heap es) Hlen Hops) as (w & Hr & _). eauto.
Qed.

Definition sample_lops : list lop :=
  [Push_back 0 1; Push_back 0 2; Push_front 0 3; Push_back 1 4; Splice 0 1; Iterate 0; Size 1;
   Pop_front 0; Push_back 1 3; Swap 0 1; Iterate 0; Iterate 1].

Lemma Sll_refines_witness : ∃ w, run_lops sample_lops (init_world 2 [1; 2; 3; 4]%positive) =
  Ret ([Unit; Unit; Unit; Unit; Unit; Entries [3; 1; 2; 4]%positive; Count 0; Entry 3; Unit; Unit;
        Entries [3]%positive; Entries [1; 2; 4]%positive], w).
Proof.
  eapply (Sll_refines 2 [1; 2; 3; 4]%positive sample_lops).
  - vm_compute. reflexivity.
  - unfold sample_lops. repeat (constructor; [cbn [op_entries]; set_solver|]). constructor.
  - vm_compute. reflexivity.
Defined.
End Sll.
