(* ===== verification/Buffer.v ===== *)
(** * Buffers: flare/base/buffer.{h,cc}

    A [NoncontiguousBuffer] is a list of blocks (an intrusive list, see
    SinglyLinkedList.v) together with the number of bytes in them.  A block
    ([PolymorphicBuffer]) is a window into reference-counted memory that is not
    written any more once it is in a buffer, so it is modelled by the characters
    in the window.  A [NoncontiguousBufferBuilder] fills blocks of a fixed size,
    which depends on a flag.

    [Buffer_refines] says that a buffer behaves as the string of its characters,
    wherever the blocks end, and that no block is ever empty; [Builder_builds]
    that a builder collects what is appended to it; [FlattenSlowUntil_spec] that
    the search for a delimiter finds the first one, also across blocks. *)

From Stdlib Require Import Ascii.
From S2P Require Import Prelude Regex FlareString.

Notation size_of s := (Z.of_nat (length s)) (only parsing).

(** ** NoncontiguousBuffer *)

Record NoncontiguousBuffer := mkNB { byte_size_ : Z; buffers_ : list chars }.

Definition NB_empty : NoncontiguousBuffer := mkNB 0 [].

Definition ByteSize (nb : NoncontiguousBuffer) : Z := byte_size_ nb.

Definition NB_Empty (nb : NoncontiguousBuffer) : outcome bool :=
  if bool_decide (buffers_ nb = [] ↔ byte_size_ nb = 0) then Ret (byte_size_ nb =? 0) else Abort.

Definition FirstContiguous (nb : NoncontiguousBuffer) : outcome chars := deref (head (buffers_ nb)).

(** The loop of [SkipSlow]. *)
Fixpoint SkipSlow_loop (bufs : list chars) (bytes : Z) : outcome (list chars) :=
  if bytes =? 0 then Ret bufs
  else match bufs with
       | [] => Undef
       | first :: rest =>
           let os := Z.min bytes (size_of first) in
           if os =? size_of first then SkipSlow_loop rest (bytes - os)
           else Ret (drop (Z.to_nat os) first :: rest)
       end.

Definition SkipSlow (nb : NoncontiguousBuffer) (bytes : Z) : outcome NoncontiguousBuffer :=
  bufs ←! SkipSlow_loop (buffers_ nb) bytes; Ret (mkNB (u64 (byte_size_ nb - bytes)) bufs).

Definition Skip (nb : NoncontiguousBuffer) (bytes : Z) : outcome NoncontiguousBuffer :=
  if bytes =? 0 then Ret nb
  else
    first ←! FirstContiguous nb;
    if bytes <? size_of first
    then Ret (mkNB (u64 (byte_size_ nb - bytes)) (drop (Z.to_nat bytes) first :: tail (buffers_ nb)))
    else SkipSlow nb bytes.

(** The loop of [Cut]: the blocks that go to the result, what is left of the
    buffer, and the bytes that are still to be cut. *)
Fixpoint Cut_loop (rc bufs : list chars) (left : Z) : outcome (list chars * list chars * Z) :=
  if left =? 0 then Ret (rc, bufs, left)
  else match bufs with
       | [] => Undef
       | first :: rest =>
           if size_of first <=? left then Cut_loop (rc ++ [first]) rest (left - size_of first)
           else Ret (rc, bufs, left)
       end.

Definition Cut (nb : NoncontiguousBuffer) (bytes : Z) : outcome (NoncontiguousBuffer * NoncontiguousBuffer) :=
  '(rc, bufs, lft) ←! Cut_loop [] (buffers_ nb) bytes;
  '(rc, bufs) ←! (if lft =? 0 then Ret (rc, bufs)
                  else
                    first ←! deref (head bufs);
                    Ret (rc ++ [take (Z.to_nat lft) first], drop (Z.to_nat lft) first :: tail bufs));
  Ret (mkNB bytes rc, mkNB (u64 (byte_size_ nb - bytes)) bufs).

Definition Append_block (nb : NoncontiguousBuffer) (buffer : chars) : NoncontiguousBuffer :=
  match buffer with
  | [] => nb
  | _ => mkNB (u64 (byte_size_ nb + size_of buffer)) (buffers_ nb ++ [buffer])
  end.

Definition Append_nb (nb buffer : NoncontiguousBuffer) : NoncontiguousBuffer :=
  mkNB (u64 (byte_size_ nb + byte_size_ buffer)) (buffers_ nb ++ buffers_ buffer).

Definition NB_Clear (nb : NoncontiguousBuffer) : outcome NoncontiguousBuffer :=
  e ←! NB_Empty nb; Ret (if e : bool then nb else NB_empty).

(** The copy constructor. *)
Definition NB_copy (nb : NoncontiguousBuffer) : NoncontiguousBuffer :=
  mkNB (byte_size_ nb) (foldl (λ acc e, acc ++ [e]) [] (buffers_ nb)).

(** ** Flattening *)

Fixpoint FlattenSlow_loop (rc : chars) (bufs : list chars) (left : Z) : chars :=
  match bufs with
  | [] => rc
  | e :: bufs' =>
      if left =? 0 then rc
      else let len := Z.min left (size_of e) in
           FlattenSlow_loop (rc ++ take (Z.to_nat len) e) bufs' (left - len)
  end.

Definition FlattenSlow (nb : NoncontiguousBuffer) (max_bytes : Z) : chars :=
  FlattenSlow_loop [] (buffers_ nb) (Z.min max_bytes (ByteSize nb)).

(** [rc.find(delim, pos)]. *)
Definition find_from (delim s : chars) (pos : nat) : option nat :=
  p ← find delim (drop pos s); Some (p + pos)%nat.

Fixpoint FlattenSlowUntil_loop (rc : chars) (bufs : list chars) (delim : chars) (max_bytes : Z) : chars :=
  match bufs with
  | [] => rc
  | e :: bufs' =>
      if size_of rc <? max_bytes then
        let old_len := length rc in
        let rc := rc ++ e in
        match find_from delim rc (old_len - Nat.min old_len (length delim)) with
        | Some pos => take (pos + length delim) rc
        | None => FlattenSlowUntil_loop rc bufs' delim max_bytes
        end
      else rc
  end.

Definition FlattenSlowUntil (nb : NoncontiguousBuffer) (delim : chars) (max_bytes : Z) : outcome chars :=
  e ←! NB_Empty nb;
  if e : bool then Ret []
  else
    current ←! FirstContiguous nb;
    match find delim current with
    | Some pos => Ret (take (Z.to_nat (Z.min (Z.of_nat (pos + length delim)) max_bytes)) current)
    | None =>
        let rc := FlattenSlowUntil_loop [] (buffers_ nb) delim max_bytes in
        Ret (if max_bytes <? size_of rc then take (Z.to_nat max_bytes) rc else rc)
    end.

Fixpoint FlattenToSlowSlow_loop (buffer : chars) (bufs : list chars) (size : Z) : chars :=
  match bufs with
  | [] => buffer
  | e :: bufs' =>
      if size_of buffer =? size then buffer
      else let len := Z.min (size - size_of buffer) (size_of e) in
           FlattenToSlowSlow_loop (buffer ++ take (Z.to_nat len) e) bufs' size
  end.

(** The memory at [buffer] up to where it is written. *)
Definition FlattenToSlowSlow (nb : NoncontiguousBuffer) (size : Z) : outcome chars :=
  if size <=? ByteSize nb then Ret (FlattenToSlowSlow_loop [] (buffers_ nb) size) else Abort.

(** The first case copies the bytes too, and then does not return. *)
Definition FlattenToSlow (nb : NoncontiguousBuffer) (size : Z) : outcome chars :=
  _ ←! FirstContiguous nb; FlattenToSlowSlow nb size.

(** ** NoncontiguousBufferBuilder *)

Section builder.
Context (block_size : Z).

(** [current_] is the block with what is written to it, [used_] characters. *)
Record Builder := mkBuilder {
  nb_ : NoncontiguousBuffer;
  used_ : Z;
  current_ : option chars;
}.

Definition SizeAvailable (b : Builder) : outcome Z := _ ←! deref (current_ b); Ret (block_size - used_ b).

Definition InitializeNextBlock (b : Builder) : outcome Builder :=
  match current_ b with
  | Some _ => n ←! SizeAvailable b; if n =? 0 then Abort else Ret b
  | None => Ret (mkBuilder (nb_ b) 0 (Some []))
  end.

Definition Builder_new : outcome Builder := InitializeNextBlock (mkBuilder NB_empty 0 None).

Definition FlushCurrentBlock (b : Builder) : outcome Builder :=
  if used_ b =? 0 then Ret b
  else c ←! deref (current_ b); Ret (mkBuilder (Append_block (nb_ b) c) 0 None).

(** [MarkWritten(s.size())] after [s] was written at [data()]. *)
Definition MarkWritten (b : Builder) (s : chars) : outcome Builder :=
  n ←! SizeAvailable b;
  if n <? size_of s then Abort
  else
    c ←! deref (current_ b);
    let b := mkBuilder (nb_ b) (used_ b + size_of s) (Some (c ++ s)) in
    n ←! SizeAvailable b;
    if n =? 0 then b ←! FlushCurrentBlock b; InitializeNextBlock b else Ret b.

(** [Reserve(s.size())], where [s] is what the caller writes to the block. *)
Definition Reserve (b : Builder) (s : chars) : outcome Builder :=
  if 1024 <? size_of s then Abort
  else
    n ←! SizeAvailable b;
    b ←! (if n <? size_of s then b ←! FlushCurrentBlock b; InitializeNextBlock b else Ret b);
    MarkWritten b s.

Definition Builder_ByteSize (b : Builder) : Z := u64 (ByteSize (nb_ b) + used_ b).

Definition DestructiveGet (b : Builder) : outcome NoncontiguousBuffer :=
  b ←! FlushCurrentBlock b; Ret (nb_ b).

Fixpoint AppendSlow (fuel : nat) (b : Builder) (s : chars) : outcome Builder :=
  match s with
  | [] => Ret b
  | _ =>
      match fuel with
      | O => Fuel
      | S fuel' =>
          n ←! SizeAvailable b;
          let copying := Z.to_nat (Z.min (size_of s) n) in
          b ←! MarkWritten b (take copying s);
          AppendSlow fuel' b (drop copying s)
      end
  end.

Definition Append (b : Builder) (s : chars) : outcome Builder :=
  c ←! deref (current_ b);
  if used_ b + size_of s <? block_size
  then Ret (mkBuilder (nb_ b) (used_ b + size_of s) (Some (c ++ s)))
  else AppendSlow (length s) b s.

Definition kAppendViaCopyThreshold : Z := 128.

Definition flush_if_used (b : Builder) : outcome Builder :=
  if used_ b =? 0 then Ret b else b ←! FlushCurrentBlock b; InitializeNextBlock b.

(** [Append(PolymorphicBuffer)]. *)
Definition Append_buffer (b : Builder) (buffer : chars) : outcome Builder :=
  n ←! SizeAvailable b;
  if (size_of buffer <? kAppendViaCopyThreshold) && (size_of buffer <=? n) then Append b buffer
  else
    b ←! flush_if_used b;
    Ret (mkBuilder (Append_block (nb_ b) buffer) (used_ b) (current_ b)).

Definition AppendCopy (b : Builder) (buffer : NoncontiguousBuffer) : outcome Builder :=
  foldl (λ o e, b ←! o; Append b e) (Ret b) (buffers_ buffer).

(** [Append(NoncontiguousBuffer)]. *)
Definition Append_ncb (b : Builder) (buffer : NoncontiguousBuffer) : outcome Builder :=
  n ←! SizeAvailable b;
  if (ByteSize buffer <? kAppendViaCopyThreshold) && (ByteSize buffer <=? n) then AppendCopy b buffer
  else
    b ←! flush_if_used b;
    Ret (mkBuilder (Append_nb (nb_ b) buffer) (used_ b) (current_ b)).

Definition Append_char (b : Builder) (c : ascii) : outcome Builder := MarkWritten b [c].

(** [Append(const Ts&...)]. *)
Definition Append_many (b : Builder) (buffers : list chars) : outcome Builder :=
  c ←! deref (current_ b);
  let total := size_of (concat buffers) in
  if used_ b + total <? block_size
  then Ret (mkBuilder (nb_ b) (used_ b + total) (Some (c ++ concat buffers)))
  else foldl (λ o e, b ←! o; Append b e) (Ret b) buffers.

Definition CreateBufferSlow (s : chars) : outcome NoncontiguousBuffer :=
  b ←! Builder_new; b ←! Append b s; DestructiveGet b.
End builder.

(** ** What a buffer holds *)

Definition contents (nb : NoncontiguousBuffer) : chars := concat (buffers_ nb).

Record nb_inv (nb : NoncontiguousBuffer) : Prop := {
  nbi_size : byte_size_ nb = size_of (contents nb);
  nbi_blocks : Forall (λ e, e ≠ []) (buffers_ nb);
  nbi_range : byte_size_ nb < 2 ^ 64;
}.

#[global] Instance nb_inv_dec nb : Decision (nb_inv nb).
Proof.
  refine (cast_if (decide (byte_size_ nb = size_of (contents nb) ∧ Forall (λ e, e ≠ []) (buffers_ nb) ∧ byte_size_ nb < 2 ^ 64)));
    [abstract (by split; apply a)|abstract (by intros [Hs Hb Hr]; apply n)].
Defined.

Lemma concat_nil_blocks (bufs : list chars) : Forall (λ e, e ≠ []) bufs → concat bufs = [] → bufs = [].
Proof. intros Hb. destruct Hb as [|e bufs He _]; [done|]. simpl. by intros [-> _]%app_nil. Qed.

Lemma NB_Empty_spec nb : nb_inv nb → NB_Empty nb = Ret (bool_decide (contents nb = [])).
Proof.
  intros [Hs Hb _]. unfold NB_Empty. assert (Hiff : buffers_ nb = [] ↔ byte_size_ nb = 0).
  { rewrite Hs. unfold contents. split; [by intros ->|]. intros H0. apply concat_nil_blocks; [done|].
    apply length_zero_iff_nil. lia. }
  rewrite bool_decide_eq_true_2 by done. f_equal. rewrite Hs.
  destruct (Z.eqb_spec (size_of (contents nb)) 0) as [H0|H0].
  - symmetry. apply bool_decide_eq_true_2, length_zero_iff_nil. lia.
  - symmetry. apply bool_decide_eq_false_2. intros Hc. rewrite Hc in H0. done.
Qed.

Lemma FirstContiguous_spec nb :
  nb_inv nb → contents nb ≠ [] →
  ∃ first rest, buffers_ nb = first :: rest ∧ FirstContiguous nb = Ret first ∧ first ≠ [] ∧
    contents nb = first ++ concat rest.
Proof.
  intros [_ Hb _] Hc. unfold FirstContiguous, contents in *. destruct (buffers_ nb) as [|f r] eqn:E; [done|].
  apply Forall_cons in Hb as [Hf _]. by exists f, r.
Qed.

Lemma SkipSlow_loop_spec bufs n :
  Forall (λ e, e ≠ []) bufs → 0 ≤ n ≤ size_of (concat bufs) →
  ∃ bufs', SkipSlow_loop bufs n = Ret bufs' ∧ Forall (λ e, e ≠ []) bufs' ∧
    concat bufs' = drop (Z.to_nat n) (concat bufs).
Proof.
  intros Hb. revert n. induction Hb as [|e bufs He Hb IH]; intros n Hn; cbn [SkipSlow_loop concat] in *.
  { destruct (Z.eqb_spec n 0); [|simpl in Hn; lia]. exists []. rewrite drop_nil. auto. }
  destruct (Z.eqb_spec n 0) as [->|Hn0]; [exists (e :: bufs); rewrite drop_0; auto|]. rewrite length_app in Hn.
  destruct (Z.eqb_spec (Z.min n (size_of e)) (size_of e)) as [Hm|Hm].
  - destruct (IH (n - Z.min n (size_of e))) as (bufs' & -> & Hb' & Hc); [lia|]. exists bufs'. split_and!; [done|done|].
    rewrite Hc, drop_app_ge by lia. f_equal. lia.
  - eexists. split_and!; [done| |].
    + constructor; [|done]. intros Hd. apply (f_equal length) in Hd. rewrite length_drop in Hd. simpl in Hd. lia.
    + cbn [concat]. rewrite drop_app_le by lia. by replace (Z.to_nat (Z.min n (size_of e))) with (Z.to_nat n) by lia.
Qed.

Lemma Skip_spec nb n :
  nb_inv nb → 0 ≤ n ≤ byte_size_ nb →
  ∃ nb', Skip nb n = Ret nb' ∧ nb_inv nb' ∧ contents nb' = drop (Z.to_nat n) (contents nb).
Proof.
  intros Hinv Hn. unfold Skip. destruct (Z.eqb_spec n 0) as [->|Hn0]; [by exists nb|].
  pose proof (nbi_size _ Hinv) as Hs. pose proof (nbi_range _ Hinv).
  destruct (FirstContiguous_spec nb Hinv) as (first & rest & Hb & -> & Hf & Hc).
  { intros Hc. rewrite Hc in Hs. simpl in Hs. lia. }
  cbn [obind]. pose proof (nbi_blocks _ Hinv) as Hbl. rewrite Hb in Hbl |- *. cbn [tail].
  destruct (Z.ltb_spec n (size_of first)).
  - eexists. split_and!; [done| |].
    + split; cbn [byte_size_ buffers_]; rewrite ?u64_small by lia; [|constructor|lia].
      * unfold contents. cbn [buffers_ concat]. rewrite length_app, length_drop.
        rewrite Hs, Hc, length_app. lia.
      * intros Hd. apply (f_equal length) in Hd. rewrite length_drop in Hd. simpl in Hd. lia.
      * by apply Forall_cons in Hbl as [_ ?].
    + rewrite Hc. unfold contents. cbn [buffers_ concat]. by rewrite drop_app_le by lia.
  - unfold SkipSlow. rewrite Hb. destruct (SkipSlow_loop_spec (first :: rest) n Hbl) as (bufs' & -> & Hb' & Hc').
    { cbn [concat]. rewrite <-Hc. lia. }
    cbn [obind]. cbn [concat] in Hc'. rewrite <-Hc in Hc'. eexists. split_and!; [done| |done].
    split; cbn [byte_size_ buffers_]; rewrite ?u64_small by lia; [|done|lia].
    unfold contents. cbn [buffers_]. rewrite Hc', length_drop. lia.
Qed.

Lemma Cut_loop_spec rc bufs n :
  Forall (λ e, e ≠ []) bufs → 0 ≤ n ≤ size_of (concat bufs) →
  ∃ pre bufs' n', Cut_loop rc bufs n = Ret (rc ++ pre, bufs', n') ∧ bufs = pre ++ bufs' ∧
    n = size_of (concat pre) + n' ∧ 0 ≤ n' ∧ (n' = 0 ∨ ∃ e r, bufs' = e :: r ∧ n' < size_of e).
Proof.
  intros Hb. revert rc n. induction Hb as [|e bufs He Hb IH]; intros rc n Hn; cbn [Cut_loop concat] in *.
  { destruct (Z.eqb_spec n 0); [|simpl in Hn; lia]. exists [], [], n. rewrite app_nil_r. simpl. auto with lia. }
  destruct (Z.eqb_spec n 0) as [->|Hn0].
  { exists [], (e :: bufs), 0. rewrite app_nil_r. simpl. auto with lia. }
  rewrite length_app in Hn. destruct (Z.leb_spec (size_of e) n).
  - destruct (IH (rc ++ [e]) (n - size_of e)) as (pre & bufs' & n' & -> & -> & ? & ? & ?); [lia|].
    exists (e :: pre), bufs', n'. rewrite <-app_assoc. cbn [concat]. rewrite length_app. split_and!; auto with lia.
  - exists [], (e :: bufs), n. rewrite app_nil_r. simpl. split_and!; auto with lia. right. eauto.
Qed.

Lemma Cut_spec nb n :
  nb_inv nb → 0 ≤ n ≤ byte_size_ nb →
  ∃ rc nb', Cut nb n = Ret (rc, nb') ∧ nb_inv rc ∧ nb_inv nb' ∧
    contents rc = take (Z.to_nat n) (contents nb) ∧ contents nb' = drop (Z.to_nat n) (contents nb).
Proof.
  intros Hinv Hn. destruct Hinv as [Hs Hb Hr]. unfold Cut.
  destruct (Cut_loop_spec [] (buffers_ nb) n Hb) as (pre & bufs & n' & -> & Heq & Hn' & H0 & Hcase); [unfold contents in Hs; lia|].
  cbn [obind app]. unfold contents in *. rewrite Heq, concat_app in *. apply Forall_app in Hb as [Hp Hb].
  destruct (Z.eqb_spec n' 0) as [->|Hne].
  - cbn [obind]. eexists _, _. split_and!; [done| | | |]; cbn [buffers_].
    + split; unfold contents; cbn [byte_size_ buffers_]; [lia|done|lia].
    + rewrite length_app in Hs. split; unfold contents; cbn [byte_size_ buffers_]; rewrite ?u64_small by lia; [lia|done|lia].
    + rewrite take_app_le, take_ge by lia. done.
    + rewrite drop_app_ge by lia. replace (Z.to_nat n - length (concat pre))%nat with 0%nat by lia. by rewrite drop_0.
  - destruct Hcase as [|(e & r & -> & Hlt)]; [done|]. cbn [head deref obind tail]. apply Forall_cons in Hb as [He Hb].
    rewrite length_app in Hs. cbn [concat] in Hs |- *. rewrite length_app in Hs.
    assert (Hneq : take (Z.to_nat n') e ≠ [] ∧ drop (Z.to_nat n') e ≠ []).
    { split; intros Hd; apply (f_equal length) in Hd; rewrite ?length_take, ?length_drop in Hd; simpl in Hd; lia. }
    eexists _, _. split_and!; [done| | | |]; cbn [buffers_ concat].
    + split; unfold contents; cbn [byte_size_ buffers_]; [|apply Forall_app; split; [done|apply Forall_singleton, Hneq]|lia].
      rewrite concat_app, length_app. cbn [concat]. rewrite app_nil_r, length_take. lia.
    + split; unfold contents; cbn [byte_size_ buffers_ concat]; rewrite ?u64_small by lia; [|apply Forall_cons; split; [apply Hneq|done]|lia].
      rewrite length_app, length_drop. lia.
    + rewrite concat_app. cbn [concat]. rewrite app_nil_r, take_app_ge, take_app_le by lia. do 2 f_equal. lia.
    + rewrite drop_app_ge, drop_app_le by lia. do 2 f_equal. lia.
Qed.

Lemma NB_empty_inv : nb_inv NB_empty.
Proof. split; [done|constructor|done]. Qed.

Lemma Append_block_spec nb s :
  nb_inv nb → byte_size_ nb + size_of s < 2 ^ 64 →
  nb_inv (Append_block nb s) ∧ contents (Append_block nb s) = contents nb ++ s.
Proof.
  intros [Hs Hb Hr] Hlen. destruct s as [|c s]; [by rewrite app_nil_r|]. unfold contents in *.
  cbn [Append_block buffers_]. rewrite concat_app. cbn [concat]. rewrite app_nil_r. split; [|done].
  split; unfold contents; cbn [byte_size_ buffers_]; rewrite ?u64_small by lia; [|apply Forall_app; auto|lia].
  rewrite concat_app, length_app, Hs. cbn [concat]. rewrite app_nil_r. lia.
Qed.

Lemma Append_nb_spec nb nb2 :
  nb_inv nb → nb_inv nb2 → byte_size_ nb + byte_size_ nb2 < 2 ^ 64 →
  nb_inv (Append_nb nb nb2) ∧ contents (Append_nb nb nb2) = contents nb ++ contents nb2.
Proof.
  intros [Hs Hb Hr] [Hs2 Hb2 Hr2] Hlen. unfold contents in *. cbn [Append_nb buffers_]. rewrite concat_app. split; [|done].
  split; unfold contents; cbn [Append_nb byte_size_ buffers_]; rewrite ?u64_small by lia; [|by apply Forall_app|lia].
  rewrite concat_app, length_app. lia.
Qed.

Lemma NB_Clear_spec nb : nb_inv nb → ∃ nb', NB_Clear nb = Ret nb' ∧ nb_inv nb' ∧ contents nb' = [].
Proof.
  intros Hinv. unfold NB_Clear. rewrite NB_Empty_spec by done. cbn [obind]. case_bool_decide.
  - by exists nb.
  - exists NB_empty. auto using NB_empty_inv.
Qed.

Lemma NB_copy_spec nb : NB_copy nb = nb.
Proof.
  unfold NB_copy. destruct nb as [n bufs]. cbn [byte_size_ buffers_]. f_equal.
  enough (H : ∀ acc, foldl (λ acc e, acc ++ [e]) acc bufs = acc ++ bufs) by apply H.
  induction bufs as [|e bufs IH]; intros acc; simpl; [by rewrite app_nil_r|]. by rewrite IH, <-app_assoc.
Qed.

Lemma FlattenSlow_loop_spec rc bufs n :
  0 ≤ n → FlattenSlow_loop rc bufs n = rc ++ take (Z.to_nat n) (concat bufs).
Proof.
  revert rc n. induction bufs as [|e bufs IH]; intros rc n Hn; cbn [FlattenSlow_loop concat].
  { by rewrite take_nil, app_nil_r. }
  destruct (Z.eqb_spec n 0) as [->|Hne]; [by rewrite app_nil_r|]. rewrite IH, <-app_assoc by lia. f_equal.
  rewrite take_app. f_equal; [|f_equal; lia]. destruct (decide (n ≤ size_of e)).
  - f_equal. lia.
  - rewrite !take_ge by lia. done.
Qed.

Lemma FlattenSlow_spec nb max_bytes :
  nb_inv nb → 0 ≤ max_bytes → FlattenSlow nb max_bytes = take (Z.to_nat max_bytes) (contents nb).
Proof.
  intros [Hs _ _] Hm. unfold FlattenSlow, ByteSize. rewrite FlattenSlow_loop_spec by lia. fold (contents nb). simpl.
  destruct (decide (max_bytes ≤ byte_size_ nb)).
  - f_equal. lia.
  - rewrite !take_ge by lia. done.
Qed.

Lemma FlattenToSlow_spec nb n :
  nb_inv nb → contents nb ≠ [] → 0 ≤ n →
  FlattenToSlow nb n = if n <=? byte_size_ nb then Ret (take (Z.to_nat n) (contents nb)) else Abort.
Proof.
  intros Hinv Hc Hn. unfold FlattenToSlow. destruct (FirstContiguous_spec nb Hinv Hc) as (first & rest & _ & -> & _).
  cbn [obind]. unfold FlattenToSlowSlow, ByteSize. destruct (Z.leb_spec n (byte_size_ nb)) as [Hle|]; [|done]. f_equal.
  assert (Hgo : ∀ bufs buffer, size_of buffer ≤ n →
    FlattenToSlowSlow_loop buffer bufs n = buffer ++ take (Z.to_nat n - length buffer) (concat bufs)).
  { induction bufs as [|e bufs IH]; intros buffer Hb; cbn [FlattenToSlowSlow_loop concat].
    { by rewrite take_nil, app_nil_r. }
    destruct (Z.eqb_spec (size_of buffer) n) as [Heq|Hne].
    { replace (Z.to_nat n - length buffer)%nat with 0%nat by lia. by rewrite app_nil_r. }
    rewrite IH, <-app_assoc; [|rewrite length_app, length_take; lia]. f_equal.
    rewrite take_app, length_app, length_take. f_equal; [|f_equal; lia].
    destruct (decide (n - size_of buffer ≤ size_of e)).
    - f_equal. lia.
    - rewrite !take_ge by lia. done. }
  rewrite Hgo by (simpl; lia). simpl. by rewrite Nat.sub_0_r.
Qed.

(** ** Up to a delimiter *)

(** The text up to and including the first [d]. *)
Definition until (d s : chars) : chars :=
  match find d s with Some p => take (p + length d) s | None => s end.

Lemma find_from_spec d rc e :
  d ≠ [] → find d rc = None →
  find_from d (rc ++ e) (length rc - Nat.min (length rc) (length d)) = find d (rc ++ e).
Proof.
  intros Hd Hno. rewrite find_None_occurs in Hno. set (start := (length rc - _)%nat). unfold find_from.
  assert (Hearly : ∀ q, occurs d (rc ++ e) q → (start ≤ q)%nat).
  { intros q Hq. destruct (decide (start ≤ q)%nat) as [|Hlt]; [done|exfalso]. apply (Hno q).
    apply occurs_app in Hq; [done|]. unfold start in Hlt. lia. }
  assert (Hshift : ∀ q, occurs d (drop start (rc ++ e)) q ↔ occurs d (rc ++ e) (q + start)).
  { intros q. unfold occurs. rewrite drop_drop, length_drop, (Nat.add_comm start q). destruct d; [done|].
    cbn [length]. split; intros [? ?]; (split; [done|lia]). }
  destruct (find d (drop start (rc ++ e))) as [p|] eqn:E; simpl; symmetry.
  - apply find_iff in E as [Ho Hmin]. apply find_iff. split; [by apply Hshift|]. intros q Hq.
    specialize (Hearly q Hq). replace q with (q - start + start)%nat in Hq by lia. apply Hshift, Hmin in Hq. lia.
  - apply find_None_occurs. intros q Hq. rewrite find_None_occurs in E. pose proof (Hearly q Hq).
    replace q with (q - start + start)%nat in Hq by lia. by apply Hshift, E in Hq.
Qed.

Lemma FlattenSlowUntil_loop_spec rc bufs d max_bytes :
  d ≠ [] → find d rc = None → 0 ≤ max_bytes →
  take (Z.to_nat max_bytes) (FlattenSlowUntil_loop rc bufs d max_bytes) =
  take (Z.to_nat max_bytes) (until d (rc ++ concat bufs)).
Proof.
  intros Hd Hno Hmax. revert rc Hno. induction bufs as [|e bufs IH]; intros rc Hno; cbn [FlattenSlowUntil_loop concat].
  { unfold until. by rewrite app_nil_r, Hno. }
  destruct (Z.ltb_spec (size_of rc) max_bytes) as [Hlt|Hge].
  - rewrite find_from_spec by done. rewrite app_assoc. destruct (find d (rc ++ e)) as [p|] eqn:E.
    + unfold until. pose proof (find_bound _ _ _ E). rewrite (find_app_l _ _ (concat bufs) _ E). by rewrite (take_app_le (rc ++ e)) by done.
    + by apply IH.
  - unfold until. destruct (find d (rc ++ e ++ concat bufs)) as [p|] eqn:E.
    + apply find_iff in E as [Ho _].
      assert (length rc < p + length d)%nat.
      { destruct (decide (length rc < p + length d)%nat); [done|exfalso]. rewrite find_None_occurs in Hno. apply (Hno p).
        apply occurs_app in Ho; [done|lia]. }
      rewrite take_take, Nat.min_l by lia. by rewrite take_app_le by lia.
    + by rewrite take_app_le by lia.
Qed.

Lemma FlattenSlowUntil_effect nb d max_bytes :
  nb_inv nb → d ≠ [] → 0 ≤ max_bytes →
  FlattenSlowUntil nb d max_bytes = Ret (take (Z.to_nat max_bytes) (until d (contents nb))).
Proof.
  intros Hinv Hd Hmax. unfold FlattenSlowUntil. rewrite NB_Empty_spec by done. cbn [obind].
  case_bool_decide as Hc.
  { unfold until. rewrite Hc. destruct d; [done|]. simpl. by rewrite take_nil. }
  destruct (FirstContiguous_spec nb Hinv Hc) as (first & rest & Hb & -> & _ & Heq). cbn [obind].
  destruct (find d first) as [p|] eqn:E; f_equal.
  - unfold until. rewrite Heq, (find_app_l _ _ _ _ E). pose proof (find_bound _ _ _ E).
    rewrite take_app_le, take_take by lia. f_equal. lia.
  - pose proof (FlattenSlowUntil_loop_spec [] (buffers_ nb) d max_bytes Hd) as Hl.
    rewrite <-(app_nil_l (contents nb)). unfold contents. rewrite <-Hl; [|by destruct d|done].
    destruct (Z.ltb_spec max_bytes (size_of (FlattenSlowUntil_loop [] (buffers_ nb) d max_bytes))); [done|].
    by rewrite take_ge by lia.
Qed.

(** The characters up to the first delimiter, or all of them, no matter how
    the buffer is divided into blocks, also when the delimiter is in two of
    them; at most [max_bytes]. *)
Theorem FlattenSlowUntil_spec nb d max_bytes :
  nb_inv nb → d ≠ [] → 0 ≤ max_bytes →
  FlattenSlowUntil nb d max_bytes = Ret (take (Z.to_nat max_bytes) (until d (contents nb))).
Proof. apply FlattenSlowUntil_effect. Qed.

Definition CRLFCRLF : chars := ["013"; "010"; "013"; "010"]%char.

(** A header whose end is in three blocks. *)
Definition split_nb : NoncontiguousBuffer :=
  mkNB 12 [chars_of "ab" ++ ["013"]%char; ["010"; "013"]%char; ["010"]%char ++ chars_of "body!!"].

Lemma split_nb_inv : nb_inv split_nb.
Proof. split; [reflexivity|repeat constructor; discriminate|reflexivity]. Qed.

Lemma FlattenSlowUntil_spec_witness :
  FlattenSlowUntil split_nb CRLFCRLF 100 = Ret (chars_of "ab" ++ CRLFCRLF).
Proof. apply (FlattenSlowUntil_spec split_nb CRLFCRLF 100); [apply split_nb_inv|discriminate|lia]. Defined.

(** ** A buffer behaves as a string *)

Inductive buffer_op :=
  | Op_append_block (s : chars) | Op_append_nb (other : NoncontiguousBuffer) | Op_skip (n : Z)
  | Op_cut (n : Z) | Op_clear | Op_size | Op_flatten (max_bytes : Z) | Op_until (d : chars) (max_bytes : Z).

Inductive buffer_res := BUnit | BText (s : chars) | BSize (n : Z).

Definition run_buffer_op (op : buffer_op) (nb : NoncontiguousBuffer) : outcome (buffer_res * NoncontiguousBuffer) :=
  match op with
  | Op_append_block s => Ret (BUnit, Append_block nb s)
  | Op_append_nb other => Ret (BUnit, Append_nb nb (NB_copy other))
  | Op_skip n => nb' ←! Skip nb n; Ret (BUnit, nb')
  | Op_cut n => '(rc, nb') ←! Cut nb n; Ret (BText (FlattenSlow rc (2 ^ 64 - 1)), nb')
  | Op_clear => nb' ←! NB_Clear nb; Ret (BUnit, nb')
  | Op_size => Ret (BSize (ByteSize nb), nb)
  | Op_flatten m => Ret (BText (FlattenSlow nb m), nb)
  | Op_until d m => s ←! FlattenSlowUntil nb d m; Ret (BText s, nb)
  end.

(** The same on a string; [None] when more is taken than there is, when the
    buffer would not fit into the address space, or for an empty delimiter. *)
Definition spec_buffer_op (op : buffer_op) (s : chars) : option (buffer_res * chars) :=
  match op with
  | Op_append_block t => if decide (size_of (s ++ t) < 2 ^ 64) then Some (BUnit, s ++ t) else None
  | Op_append_nb other =>
      if decide (size_of (s ++ contents other) < 2 ^ 64) then Some (BUnit, s ++ contents other) else None
  | Op_skip n => if decide (0 ≤ n ≤ size_of s) then Some (BUnit, drop (Z.to_nat n) s) else None
  | Op_cut n =>
      if decide (0 ≤ n ≤ size_of s) then Some (BText (take (Z.to_nat n) s), drop (Z.to_nat n) s) else None
  | Op_clear => Some (BUnit, [])
  | Op_size => Some (BSize (size_of s), s)
  | Op_flatten m => if decide (0 ≤ m) then Some (BText (take (Z.to_nat m) s), s) else None
  | Op_until d m =>
      if decide (d ≠ [] ∧ 0 ≤ m) then Some (BText (take (Z.to_nat m) (until d s)), s) else None
  end.

Fixpoint run_buffer_ops (ops : list buffer_op) (nb : NoncontiguousBuffer) :
    outcome (list buffer_res * NoncontiguousBuffer) :=
  match ops with
  | [] => Ret ([], nb)
  | op :: ops' => '(r, nb1) ←! run_buffer_op op nb; '(rs, nb2) ←! run_buffer_ops ops' nb1; Ret (r :: rs, nb2)
  end.

Fixpoint spec_buffer_ops (ops : list buffer_op) (s : chars) : option (list buffer_res * chars) :=
  match ops with
  | [] => Some ([], s)
  | op :: ops' => '(r, s1) ← spec_buffer_op op s; '(rs, s2) ← spec_buffer_ops ops' s1; Some (r :: rs, s2)
  end.

(** The buffers that are passed to operations are well formed. *)
Definition buffer_op_ok (op : buffer_op) : Prop :=
  match op with Op_append_nb other => nb_inv other | _ => True end.

Lemma run_buffer_op_effect op nb r s' :
  nb_inv nb → buffer_op_ok op → spec_buffer_op op (contents nb) = Some (r, s') →
  ∃ nb', run_buffer_op op nb = Ret (r, nb') ∧ nb_inv nb' ∧ contents nb' = s'.
Proof.
  intros Hinv Hok Hspec. pose proof (nbi_size _ Hinv) as Hs. pose proof (nbi_range _ Hinv) as Hr.
  destruct op as [t|other|n|n| | |m|d m]; cbn [spec_buffer_op run_buffer_op buffer_op_ok] in *;
    try (destruct (decide _) as [Hd|]; [|done]); simplify_eq.
  - rewrite length_app in Hd. destruct (Append_block_spec nb t Hinv ltac:(lia)). eauto.
  - rewrite NB_copy_spec. rewrite length_app in Hd. pose proof (nbi_size _ Hok).
    destruct (Append_nb_spec nb other Hinv Hok ltac:(lia)). eauto.
  - destruct (Skip_spec nb n Hinv ltac:(lia)) as (nb' & -> & ? & ?). cbn [obind]. eauto.
  - destruct (Cut_spec nb n Hinv ltac:(lia)) as (rc & nb' & -> & Hrc & Hnb' & Hc & Hc'). cbn [obind].
    rewrite FlattenSlow_spec by (done || lia). pose proof (nbi_size _ Hrc). pose proof (nbi_range _ Hrc).
    rewrite take_ge by lia. rewrite Hc. eauto.
  - destruct (NB_Clear_spec nb Hinv) as (nb' & -> & ? & ?). cbn [obind]. eauto.
  - unfold ByteSize. rewrite Hs. eauto.
  - rewrite FlattenSlow_spec by done. eauto.
  - destruct Hd as [Hd0 Hm]. rewrite (FlattenSlowUntil_effect nb d m Hinv Hd0 Hm). cbn [obind]. eauto.
Qed.

Lemma run_buffer_ops_effect ops nb rs s' :
  nb_inv nb → Forall buffer_op_ok ops → spec_buffer_ops ops (contents nb) = Some (rs, s') →
  ∃ nb', run_buffer_ops ops nb = Ret (rs, nb') ∧ nb_inv nb' ∧ contents nb' = s'.
Proof.
  intros Hinv Hok. revert nb rs Hinv. induction Hok as [|op ops Hop _ IH]; intros nb rs Hinv Hspec;
    cbn [run_buffer_ops spec_buffer_ops] in *; [simplify_eq; eauto|].
  destruct (spec_buffer_op op (contents nb)) as [[r s1]|] eqn:E1; [|done]. simpl in Hspec.
  destruct (run_buffer_op_effect op nb r s1 Hinv Hop E1) as (nb1 & -> & Hinv1 & <-). cbn [obind].
  destruct (spec_buffer_ops ops (contents nb1)) as [[rs1 s2]|] eqn:E2; [|done]. simplify_eq/=.
  destruct (IH nb1 rs1 Hinv1 E2) as (nb2 & -> & ? & ?). cbn [obind]. eauto.
Qed.

(** C38: a buffer that starts empty gives, for any sequence of operations within
    its preconditions, the results that a string gives; its size is right and it
    never holds an empty block. *)
Theorem Buffer_refines (ops : list buffer_op) rs s :
  Forall buffer_op_ok ops → spec_buffer_ops ops [] = Some (rs, s) →
  ∃ nb, run_buffer_ops ops NB_empty = Ret (rs, nb) ∧ contents nb = s ∧ byte_size_ nb = size_of s ∧
    Forall (λ e, e ≠ []) (buffers_ nb).
Proof.
  intros Hok Hspec. destruct (run_buffer_ops_effect ops NB_empty rs s NB_empty_inv Hok Hspec) as (nb & ? & Hinv & <-).
  exists nb. split_and!; [done|done|apply Hinv..].
Qed.

Definition sample_buffer_ops : list buffer_op :=
  [Op_append_block (chars_of "hello "); Op_append_nb split_nb; Op_size; Op_cut 8; Op_skip 4; Op_flatten 3;
   Op_until (chars_of "y!") 100].

Lemma Buffer_refines_witness : ∃ nb,
  run_buffer_ops sample_buffer_ops NB_empty =
    Ret ([BUnit; BUnit; BSize 18; BText (chars_of "hello ab"); BUnit; BText (chars_of "bod"); BText (chars_of "body!")], nb) ∧
  contents nb = chars_of "body!!" ∧ byte_size_ nb = 6 ∧ Forall (λ e, e ≠ []) (buffers_ nb).
Proof.
  apply (Buffer_refines sample_buffer_ops).
  - unfold sample_buffer_ops. repeat constructor; try discriminate.
  - vm_compute. reflexivity.
Defined.

(** ** The builder *)

Section builder_proofs.
Context (block_size : Z) (Hblock : 1024 ≤ block_size).

Notation SizeAvailable := (SizeAvailable block_size).
Notation InitializeNextBlock := (InitializeNextBlock block_size).
Notation MarkWritten := (MarkWritten block_size).
Notation Append := (Append block_size).

(** What has been appended so far. *)
Definition built (b : Builder) : chars := contents (nb_ b) ++ match current_ b with Some c => c | None => [] end.

(** There is a block to write to, and it is not full. *)
Record builder_inv (b : Builder) : Prop := {
  bi_nb : nb_inv (nb_ b);
  bi_current : ∃ c, current_ b = Some c ∧ used_ b = size_of c ∧ used_ b < block_size;
}.

(** The appended text still fits into the address space. *)
Notation fits b s := (size_of (built b) + size_of s < 2 ^ 64) (only parsing).

Lemma SizeAvailable_spec b : builder_inv b → SizeAvailable b = Ret (block_size - used_ b) ∧ 0 < block_size - used_ b.
Proof. intros [_ (c & Hc & Hu & Hlt)]. unfold Buffer.SizeAvailable. rewrite Hc. split; [done|lia]. Qed.

Lemma flush_init nb c :
  nb_inv nb → c ≠ [] → size_of (contents nb) + size_of c < 2 ^ 64 →
  ∃ b', (b ←! FlushCurrentBlock (mkBuilder nb (size_of c) (Some c)); InitializeNextBlock b) = Ret b' ∧
    builder_inv b' ∧ built b' = contents nb ++ c ∧ used_ b' = 0.
Proof.
  intros Hnb Hc Hlen. unfold FlushCurrentBlock. cbn [used_ current_ nb_ deref obind].
  destruct (Z.eqb_spec (size_of c) 0) as [H0|_]; [by destruct c|]. cbn [obind]. unfold Buffer.InitializeNextBlock. cbn [current_ nb_].
  destruct (Append_block_spec nb c Hnb) as [Hnb' Hct]; [rewrite (nbi_size _ Hnb); lia|].
  eexists. split_and!; [done| | |done].
  - split; [done|]. exists []. split_and!; [done|done|simpl; lia].
  - unfold built. cbn [nb_ current_]. by rewrite app_nil_r.
Qed.

Lemma MarkWritten_spec b s :
  builder_inv b → size_of s ≤ block_size - used_ b → fits b s →
  ∃ b', MarkWritten b s = Ret b' ∧ builder_inv b' ∧ built b' = built b ++ s.
Proof.
  intros Hinv Hs Hfit. unfold Buffer.MarkWritten. destruct (SizeAvailable_spec b Hinv) as [-> Hpos]. cbn [obind].
  destruct (Z.ltb_spec (block_size - used_ b) (size_of s)); [lia|]. destruct Hinv as [Hnb (c & Hc & Hu & Hlt)].
  rewrite Hc. cbn [deref obind]. unfold Buffer.SizeAvailable. cbn [current_ used_ deref obind].
  unfold built in *. rewrite Hc in *. cbn iota in *. rewrite length_app in Hfit.
  assert (Hlen : used_ b + size_of s = size_of (c ++ s)) by (rewrite length_app; lia). rewrite Hlen.
  destruct (Z.eqb_spec (block_size - size_of (c ++ s)) 0) as [H0|H0].
  - destruct (flush_init (nb_ b) (c ++ s) Hnb) as (b' & -> & Hinv' & Hbt & _).
    + intros He. rewrite He in H0. simpl in H0. lia.
    + rewrite length_app. lia.
    + exists b'. unfold built in Hbt. rewrite Hbt, app_assoc. done.
  - eexists. split_and!; [done| |].
    + split; [done|]. exists (c ++ s). cbn [current_ used_]. split_and!; [done|done|rewrite length_app in *; lia].
    + cbn [nb_ current_]. by rewrite app_assoc.
Qed.

Lemma AppendSlow_spec fuel b s :
  builder_inv b → fits b s → (length s ≤ fuel)%nat →
  ∃ b', AppendSlow block_size fuel b s = Ret b' ∧ builder_inv b' ∧ built b' = built b ++ s.
Proof.
  revert b s. induction fuel as [|fuel IH]; intros b s Hinv Hfit Hf.
  { destruct s; [|simpl in Hf; lia]. exists b. by rewrite app_nil_r. }
  destruct s as [|x s]; [exists b; by rewrite app_nil_r|]. set (t := x :: s) in *. cbn [AppendSlow].
  destruct (SizeAvailable_spec b Hinv) as [-> Hpos]. cbn [obind].
  set (k := Z.to_nat (Z.min (size_of t) (block_size - used_ b))).
  assert (Hk : (0 < k ≤ length t)%nat) by (unfold k, t; cbn [length]; lia).
  assert (Htk : length (take k t) = k) by (rewrite length_take; lia).
  destruct (MarkWritten_spec b (take k t) Hinv) as (b1 & -> & Hinv1 & Hb1); [rewrite Htk; unfold k; lia|rewrite Htk; lia|].
  cbn [obind]. destruct (IH b1 (drop k t) Hinv1) as (b2 & He & Hinv2 & Hb2).
  - rewrite Hb1, length_app, Htk, length_drop. lia.
  - rewrite length_drop. lia.
  - exists b2. split_and!; [done|done|]. by rewrite Hb2, Hb1, <-app_assoc, take_drop.
Qed.

Lemma Append_spec b s :
  builder_inv b → fits b s → ∃ b', Append b s = Ret b' ∧ builder_inv b' ∧ built b' = built b ++ s.
Proof.
  intros Hinv Hfit. unfold Buffer.Append. destruct (bi_current _ Hinv) as (c & Hc & Hu & Hlt). rewrite Hc. cbn [deref obind].
  destruct (Z.ltb_spec (used_ b + size_of s) block_size); [|by apply AppendSlow_spec].
  eexists. split_and!; [done| |].
  - split; [apply Hinv|]. exists (c ++ s). cbn [current_ used_]. rewrite length_app. split_and!; [done|lia|lia].
  - unfold built. rewrite Hc. cbn [nb_ current_]. by rewrite app_assoc.
Qed.

Lemma Append_all_spec l b :
  builder_inv b → fits b (concat l) →
  ∃ b', foldl (λ o e, b ←! o; Append b e) (Ret b) l = Ret b' ∧ builder_inv b' ∧ built b' = built b ++ concat l.
Proof.
  revert b. induction l as [|e l IH]; intros b Hinv Hfit; cbn [foldl concat] in *.
  { exists b. by rewrite app_nil_r. }
  rewrite length_app in Hfit. cbn [obind].
  destruct (Append_spec b e Hinv ltac:(lia)) as (b1 & -> & Hinv1 & Hb1).
  destruct (IH b1 Hinv1) as (b2 & -> & Hinv2 & Hb2); [rewrite Hb1, length_app; lia|].
  exists b2. split_and!; [done|done|]. by rewrite Hb2, Hb1, <-app_assoc.
Qed.

Lemma flush_if_used_spec b :
  builder_inv b → size_of (built b) < 2 ^ 64 →
  ∃ b', flush_if_used block_size b = Ret b' ∧ builder_inv b' ∧ contents (nb_ b') = built b ∧ used_ b' = 0.
Proof.
  intros [Hnb (c & Hc & Hu & Hlt)] Hfit. unfold flush_if_used, built in *. rewrite Hc in *. cbn iota in *.
  rewrite length_app in Hfit. destruct (Z.eqb_spec (used_ b) 0) as [H0|H0].
  - exists b. assert (c = []) as -> by (destruct c; [done|simpl in Hu; lia]). rewrite app_nil_r. split_and!; [done| |done|done].
    split; eauto.
  - destruct b as [nb u cur]. cbn [nb_ used_ current_] in *. subst. destruct (flush_init nb c Hnb) as (b' & -> & Hinv' & Hbt & H0').
    + by intros ->.
    + lia.
    + exists b'. split_and!; [done|done| |done]. rewrite <-Hbt. destruct Hinv' as [_ (c' & Hc' & Hu' & _)]. unfold built.
      rewrite Hc'. cbn iota. destruct c'; [by rewrite app_nil_r|simpl in Hu'; lia].
Qed.

(** With nothing in the current block, what goes to the buffer is what is built. *)
Lemma attach b nb :
  builder_inv b → used_ b = 0 → nb_inv nb →
  builder_inv (mkBuilder nb (used_ b) (current_ b)) ∧ built (mkBuilder nb (used_ b) (current_ b)) = contents nb.
Proof.
  intros [_ (c & Hc & Hu & Hlt)] H0 Hnb. split; [by split; eauto|]. unfold built. cbn [nb_ current_]. rewrite Hc.
  destruct c; [by rewrite app_nil_r|simpl in Hu; lia].
Qed.

Lemma Append_buffer_spec b s :
  builder_inv b → fits b s → ∃ b', Append_buffer block_size b s = Ret b' ∧ builder_inv b' ∧ built b' = built b ++ s.
Proof.
  intros Hinv Hfit. unfold Append_buffer. destruct (SizeAvailable_spec b Hinv) as [-> _]. cbn [obind].
  destruct (_ && _); [by apply Append_spec|].
  destruct (flush_if_used_spec b Hinv ltac:(lia)) as (b1 & -> & Hinv1 & Hc1 & H0). cbn [obind].
  destruct (Append_block_spec (nb_ b1) s (bi_nb _ Hinv1)) as [Hnb Hct].
  { rewrite (nbi_size _ (bi_nb _ Hinv1)), Hc1. lia. }
  destruct (attach b1 _ Hinv1 H0 Hnb) as [? Hb]. eexists. split_and!; [done|done|]. by rewrite Hb, Hct, Hc1.
Qed.

Lemma Append_ncb_spec b nb :
  builder_inv b → nb_inv nb → fits b (contents nb) →
  ∃ b', Append_ncb block_size b nb = Ret b' ∧ builder_inv b' ∧ built b' = built b ++ contents nb.
Proof.
  intros Hinv Hnb Hfit. unfold Append_ncb. destruct (SizeAvailable_spec b Hinv) as [-> _]. cbn [obind].
  destruct (_ && _); [by apply Append_all_spec|].
  destruct (flush_if_used_spec b Hinv ltac:(lia)) as (b1 & -> & Hinv1 & Hc1 & H0). cbn [obind].
  destruct (Append_nb_spec (nb_ b1) nb (bi_nb _ Hinv1) Hnb) as [Hnb' Hct].
  { rewrite (nbi_size _ (bi_nb _ Hinv1)), Hc1, (nbi_size _ Hnb). lia. }
  destruct (attach b1 _ Hinv1 H0 Hnb') as [? Hb]. eexists. split_and!; [done|done|]. by rewrite Hb, Hct, Hc1.
Qed.

Lemma Append_many_spec b l :
  builder_inv b → fits b (concat l) →
  ∃ b', Append_many block_size b l = Ret b' ∧ builder_inv b' ∧ built b' = built b ++ concat l.
Proof.
  intros Hinv Hfit. unfold Append_many. destruct (bi_current _ Hinv) as (c & Hc & Hu & Hlt). rewrite Hc. cbn [deref obind].
  destruct (Z.ltb_spec (used_ b + size_of (concat l)) block_size); [|by apply Append_all_spec].
  eexists. split_and!; [done| |].
  - split; [apply Hinv|]. exists (c ++ concat l). cbn [current_ used_]. rewrite length_app. split_and!; [done|lia|lia].
  - unfold built. rewrite Hc. cbn [nb_ current_]. by rewrite app_assoc.
Qed.

Lemma Append_char_spec b c :
  builder_inv b → fits b [c] → ∃ b', Append_char block_size b c = Ret b' ∧ builder_inv b' ∧ built b' = built b ++ [c].
Proof.
  intros Hinv Hfit. destruct (SizeAvailable_spec b Hinv) as [_ Hpos]. apply MarkWritten_spec; [done|simpl; lia|done].
Qed.

Lemma Reserve_spec b s :
  builder_inv b → size_of s ≤ 1024 → fits b s →
  ∃ b', Reserve block_size b s = Ret b' ∧ builder_inv b' ∧ built b' = built b ++ s.
Proof.
  intros Hinv Hs Hfit. unfold Reserve. destruct (Z.ltb_spec 1024 (size_of s)); [lia|].
  destruct (SizeAvailable_spec b Hinv) as [-> Hpos]. cbn [obind].
  destruct (Z.ltb_spec (block_size - used_ b) (size_of s)) as [Hlt|Hge]; [|cbn [obind]; apply MarkWritten_spec; done || lia].
  destruct (flush_if_used_spec b Hinv ltac:(lia)) as (b1 & Hf & Hinv1 & Hc1 & H0). unfold flush_if_used in Hf.
  destruct (Z.eqb_spec (used_ b) 0); [lia|]. rewrite Hf. cbn [obind].
  assert (Hb1 : built b1 = built b).
  { unfold built at 1. destruct (bi_current _ Hinv1) as (c & -> & Hu & _). destruct c; [by rewrite app_nil_r|simpl in Hu; lia]. }
  rewrite <-Hb1 in *. apply MarkWritten_spec; [done|lia|done].
Qed.

Lemma Builder_new_spec : ∃ b, Builder_new block_size = Ret b ∧ builder_inv b ∧ built b = [].
Proof.
  eexists. split_and!; [done| |done]. split; [apply NB_empty_inv|]. exists []. split_and!; [done|done|simpl; lia].
Qed.

Lemma DestructiveGet_spec b :
  builder_inv b → size_of (built b) < 2 ^ 64 →
  ∃ nb, DestructiveGet b = Ret nb ∧ nb_inv nb ∧ contents nb = built b.
Proof.
  intros Hinv Hfit. destruct (bi_current _ Hinv) as (c & Hc & Hu & Hlt). unfold DestructiveGet, FlushCurrentBlock, built in *.
  rewrite Hc in *. cbn [deref obind] in *. rewrite length_app in Hfit. destruct (Z.eqb_spec (used_ b) 0) as [H0|H0]; cbn [obind nb_].
  - exists (nb_ b). assert (c = []) as -> by (destruct c; [done|simpl in Hu; lia]). rewrite app_nil_r. split_and!; [done|apply Hinv|done].
  - destruct (Append_block_spec (nb_ b) c (bi_nb _ Hinv)) as [? ?]; [rewrite (nbi_size _ (bi_nb _ Hinv)); lia|]. eauto.
Qed.

Inductive build_op :=
  | B_bytes (s : chars) | B_buffer (s : chars) | B_ncb (nb : NoncontiguousBuffer) | B_char (c : ascii)
  | B_many (l : list chars) | B_reserve (s : chars).

Definition run_build_op (op : build_op) (b : Builder) : outcome Builder :=
  match op with
  | B_bytes s => Append b s
  | B_buffer s => Append_buffer block_size b s
  | B_ncb nb => Append_ncb block_size b nb
  | B_char c => Append_char block_size b c
  | B_many l => Append_many block_size b l
  | B_reserve s => Reserve block_size b s
  end.

Definition op_text (op : build_op) : chars :=
  match op with
  | B_bytes s | B_buffer s | B_reserve s => s
  | B_ncb nb => contents nb
  | B_char c => [c]
  | B_many l => concat l
  end.

Definition build_op_ok (op : build_op) : Prop :=
  match op with B_ncb nb => nb_inv nb | B_reserve s => size_of s ≤ 1024 | _ => True end.

Definition run_build (ops : list build_op) : outcome NoncontiguousBuffer :=
  b ←! Builder_new block_size;
  b ←! foldl (λ o op, b ←! o; run_build_op op b) (Ret b) ops;
  DestructiveGet b.

Lemma run_build_op_effect op b :
  builder_inv b → build_op_ok op → fits b (op_text op) →
  ∃ b', run_build_op op b = Ret b' ∧ builder_inv b' ∧ built b' = built b ++ op_text op.
Proof.
  intros Hinv Hok Hfit. destruct op; cbn [run_build_op op_text build_op_ok] in *.
  - by apply Append_spec.
  - by apply Append_buffer_spec.
  - by apply Append_ncb_spec.
  - by apply Append_char_spec.
  - by apply Append_many_spec.
  - by apply Reserve_spec.
Qed.

Lemma run_build_ops_effect ops b :
  builder_inv b → Forall build_op_ok ops → fits b (concat (op_text <$> ops)) →
  ∃ b', foldl (λ o op, b ←! o; run_build_op op b) (Ret b) ops = Ret b' ∧ builder_inv b' ∧
    built b' = built b ++ concat (op_text <$> ops).
Proof.
  intros Hinv Hok. revert b Hinv. induction Hok as [|op ops Hop _ IH]; intros b Hinv Hfit; csimpl in *.
  { exists b. by rewrite app_nil_r. }
  rewrite length_app in Hfit. destruct (run_build_op_effect op b Hinv Hop ltac:(lia)) as (b1 & -> & Hinv1 & Hb1).
  destruct (IH b1 Hinv1) as (b2 & -> & Hinv2 & Hb2); [rewrite Hb1, length_app; lia|].
  exists b2. split_and!; [done|done|]. by rewrite Hb2, Hb1, <-app_assoc.
Qed.

(** A builder collects what is appended to it, in order, by any of its
    methods and across any number of blocks. *)
Theorem Builder_builds (ops : list build_op) :
  Forall build_op_ok ops → size_of (concat (op_text <$> ops)) < 2 ^ 64 →
  ∃ nb, run_build ops = Ret nb ∧ nb_inv nb ∧ contents nb = concat (op_text <$> ops).
Proof.
  intros Hok Hfit. unfold run_build. destruct Builder_new_spec as (b & -> & Hinv & Hb). cbn [obind].
  destruct (run_build_ops_effect ops b Hinv Hok) as (b' & -> & Hinv' & Hb'); [rewrite Hb; simpl; lia|].
  cbn [obind]. rewrite Hb in Hb'. simpl in Hb'. rewrite <-Hb' in *. by apply DestructiveGet_spec.
Qed.
End builder_proofs.

(** The size of a block of 4K: the header of a block takes 16 bytes. *)
Definition kBufferSize : Z := 4096 - 16.

Definition sample_build : list build_op :=
  [B_bytes (chars_of "GET "); B_char "/"; B_many [chars_of " "; chars_of "HTTP/1.1"]; B_reserve (replicate 1024 "x");
   B_bytes (replicate 5000 "y"); B_ncb split_nb; B_buffer (replicate 200 "z")]%char.

Lemma Builder_builds_witness : ∃ nb, run_build kBufferSize sample_build = Ret nb ∧ nb_inv nb ∧
  contents nb = chars_of "GET / HTTP/1.1" ++ replicate 1024 "x"%char ++ replicate 5000 "y"%char ++
                contents split_nb ++ replicate 200 "z"%char.
Proof.
  apply (Builder_builds kBufferSize ltac:(vm_compute; discriminate) sample_build).
  - unfold sample_build. repeat (apply Forall_cons; split).
    all: try exact I; try apply split_nb_inv; try (vm_compute; discriminate). apply Forall_nil. exact I.
  - vm_compute. reflexivity.
Defined.
