(* ===== verification/WritingBufferList.v ===== *)
(** * The queue of buffers to be written: flare/io/detail/writing_buffer_list.{h,cc}

    Every response of the server goes through this list.  Any number of threads
    append buffers; one thread at a time writes them out.  A thread appends by an
    atomic exchange of [tail_], and links its node to the one it found there
    afterwards, so that for a while the list may be broken in several places; who
    finds the list empty has to start writing ([Append] returns true), and who
    empties it stops.

    A step of the model is one operation on shared memory.  The nodes come from a
    pool: a node that is freed is not in [heap] any more, its number may be used
    again, and to touch it is undefined behaviour.  [order] has the nodes in the
    order of the exchanges, [appended], [sent] and [completed] are the history of
    what was appended, of the bytes that the socket took, and of the contexts that
    [FlushTo] returned.  How much the socket takes is an input of the model.

    [WritingBufferList_fifo] says that what is sent is what was appended, in this
    order and without a gap; [WritingBufferList_progress] that nothing is left
    behind. *)

From Stdlib Require Import Ascii.
From S2P Require Import Prelude Regex FlareString Buffer.

Definition IOV_MAX : Z := 1024.

Module WritingBufferList.

Record Node := mkNode {
  next : option nat;
  buffer : NoncontiguousBuffer;
  ctx : Z;
}.

(** Where a thread that appends is. *)
Inductive append_pc :=
| A_exchange (node : nat)             (* the node is filled in; before [tail_.exchange] *)
| A_head (node : nat)                 (* [prev] was null; before [head_.store] *)
| A_check (prev node : nat)           (* before [prev->next] is checked *)
| A_link (prev node : nat).           (* before [prev->next] is set *)

(** Where the thread that writes is. *)
Inductive flush_pc :=
| F_idle
| F_head (max_bytes : Z)                                            (* before [head_.load] *)
| F_tail (max_bytes : Z) (head : nat)                               (* before [tail_.load] *)
| F_gather (max_bytes : Z) (head current : nat) (iov : list chars) (flushing : Z)
| F_write (head : nat) (iov : list chars) (flushing : Z)            (* before [io->WriteV] *)
| F_rewind (current : nat) (flushed rc flushing : Z)
| F_skip (current : nat) (rc flushing : Z)                          (* before [head_.store(current)] *)
| F_next (current : nat) (flushed rc flushing : Z)                  (* before [current->next] is loaded *)
| F_cas (current : nat) (rc flushing : Z)
| F_spin (current : nat) (rc flushing : Z)
| F_store (current ptr : nat) (rc flushing : Z).                    (* before [head_.store(ptr)] *)

Record state := mkList {
  head_ : option nat;
  tail_ : option nat;
  heap : gmap nat Node;
  threads : gmap nat append_pc;
  flusher : flush_pc;
  writing : bool;             (* somebody was told to write *)
  order : list nat;
  appended : list (chars * Z);
  sent : chars;
  completed : list Z;
}.

Definition WritingBufferList_new : state := mkList None None ∅ ∅ F_idle false [] [] [] [].

(** What [Append] and [FlushTo] return. *)
Inductive result :=
| Appended (started : bool)
| Flushed (rc : Z) (emptied short_write : bool).

Implicit Types (s : state) (i node current : nat) (n : Node).

Definition set_threads f s : state :=
  mkList (head_ s) (tail_ s) (heap s) (f (threads s)) (flusher s) (writing s) (order s) (appended s) (sent s) (completed s).
Definition set_flusher (x : flush_pc) s : state :=
  mkList (head_ s) (tail_ s) (heap s) (threads s) x (writing s) (order s) (appended s) (sent s) (completed s).
Definition set_head (o : option nat) s : state :=
  mkList o (tail_ s) (heap s) (threads s) (flusher s) (writing s) (order s) (appended s) (sent s) (completed s).
Definition set_tail (o : option nat) s : state :=
  mkList (head_ s) o (heap s) (threads s) (flusher s) (writing s) (order s) (appended s) (sent s) (completed s).
Definition set_heap (h : gmap nat Node) s : state :=
  mkList (head_ s) (tail_ s) h (threads s) (flusher s) (writing s) (order s) (appended s) (sent s) (completed s).
Definition set_writing (b : bool) s : state :=
  mkList (head_ s) (tail_ s) (heap s) (threads s) (flusher s) b (order s) (appended s) (sent s) (completed s).
Definition set_order (o : list nat) s : state :=
  mkList (head_ s) (tail_ s) (heap s) (threads s) (flusher s) (writing s) o (appended s) (sent s) (completed s).
Definition log_appended n s : state :=
  mkList (head_ s) (tail_ s) (heap s) (threads s) (flusher s) (writing s) (order s)
    (appended s ++ [(contents (buffer n), ctx n)]) (sent s) (completed s).
Definition log_sent (bytes : chars) s : state :=
  mkList (head_ s) (tail_ s) (heap s) (threads s) (flusher s) (writing s) (order s) (appended s) (sent s ++ bytes) (completed s).
Definition log_completed (c : Z) s : state :=
  mkList (head_ s) (tail_ s) (heap s) (threads s) (flusher s) (writing s) (order s) (appended s) (sent s) (completed s ++ [c]).

Definition outcome_of := outcome (state * option result).

(** ** Append *)

(** A thread goes on in [Append], or returns from it. *)
Definition go i (x : append_pc) s : outcome_of := Ret (set_threads (<[i := x]>) s, None).
Definition return_ i (started : bool) s : outcome_of :=
  Ret (set_threads (delete i) (if started then set_writing true s else s), Some (Appended started)).

(** [object_pool::Get], and the node's fields. *)
Definition append_new i (node : nat) (buffer : NoncontiguousBuffer) (ctx : Z) s : outcome_of :=
  go i (A_exchange node) (set_heap (<[node := mkNode None buffer ctx]> (heap s)) s).

Definition append_exchange i node s : outcome_of :=
  n ←! deref (heap s !! node);
  let s' := log_appended n (set_order (order s ++ [node]) (set_tail (Some node) s)) in
  go i (match tail_ s with None => A_head node | Some prev => A_check prev node end) s'.

Definition append_check i (prev node : nat) s : outcome_of :=
  n ←! deref (heap s !! prev);
  if decide (next n = None) then go i (A_link prev node) s else Abort.

Definition append_link i (prev node : nat) s : outcome_of :=
  n ←! deref (heap s !! prev);
  return_ i false (set_heap (<[prev := mkNode (Some node) (buffer n) (ctx n)]> (heap s)) s).

Definition append_step i s : option outcome_of :=
  match threads s !! i with
  | None => None
  | Some (A_exchange node) => Some (append_exchange i node s)
  | Some (A_head node) => Some (return_ i true (set_head (Some node) s))
  | Some (A_check prev node) => Some (append_check i prev node s)
  | Some (A_link prev node) => Some (append_link i prev node s)
  end.

(** ** FlushTo *)

Definition goto (x : flush_pc) s : outcome_of := Ret (set_flusher x s, None).

Definition flush_return (rc : Z) (emptied short_write : bool) s : outcome_of :=
  Ret (set_flusher F_idle (if emptied then set_writing false s else s), Some (Flushed rc emptied short_write)).

Definition free (node : nat) s : state := set_order (tail (order s)) (set_heap (delete node (heap s)) s).

(** The loop over the blocks of a node. *)
Fixpoint gather_blocks (blocks : list chars) (max_bytes : Z) (iov : list chars) (flushing : Z) : list chars * Z :=
  match blocks with
  | [] => (iov, flushing)
  | e :: blocks' =>
      if decide (Z.of_nat (length iov) ≠ IOV_MAX ∧ flushing < max_bytes)
      then gather_blocks blocks' max_bytes (iov ++ [e]) (flushing + Z.of_nat (length e))
      else (iov, flushing)
  end.

(** The last block is cut down to what may be written. *)
Definition revise (max_bytes : Z) (iov : list chars) (flushing : Z) : outcome (list chars * Z) :=
  if decide (max_bytes < flushing) then
    match last iov with
    | None => Undef
    | Some e =>
        let diff := flushing - max_bytes in
        Ret (removelast iov ++ [take (Z.to_nat (Z.of_nat (length e) - diff)) e], flushing - diff)
    end
  else Ret (iov, flushing).

Definition flush_gather (max_bytes : Z) (head current : nat) (iov : list chars) (flushing : Z) s : outcome_of :=
  n ←! deref (heap s !! current);
  let '(iov, flushing) := gather_blocks (buffers_ (buffer n)) max_bytes iov flushing in
  match next n with
  | Some current' => goto (F_gather max_bytes head current' iov flushing) s
  | None => '(iov, flushing) ←! revise max_bytes iov flushing; goto (F_write head iov flushing) s
  end.

(** [WriteV] returned [rc]; the socket has taken as many bytes. *)
Definition flush_write (rc : Z) (head : nat) (iov : list chars) (flushing : Z) s : outcome_of :=
  if decide (rc ≤ 0) then flush_return rc false false s
  else if decide (rc ≤ flushing) then goto (F_rewind head rc rc flushing) (log_sent (take (Z.to_nat rc) (concat iov)) s)
  else Abort.

Definition flush_rewind (current : nat) (flushed rc flushing : Z) s : outcome_of :=
  n ←! deref (heap s !! current);
  let b := ByteSize (buffer n) in
  if decide (b ≤ flushed) then goto (F_next current (flushed - b) rc flushing) (log_completed (ctx n) s)
  else
    buffer' ←! Skip (buffer n) flushed;
    goto (F_skip current rc flushing) (set_heap (<[current := mkNode (next n) buffer' (ctx n)]> (heap s)) s).

Definition flush_next (current : nat) (flushed rc flushing : Z) s : outcome_of :=
  n ←! deref (heap s !! current);
  match next n with
  | None => if decide (flushed = 0) then goto (F_cas current rc flushing) s else Abort
  | Some next => goto (F_rewind next flushed rc flushing) (free current s)
  end.

Definition flush_cas (current : nat) (rc flushing : Z) s : outcome_of :=
  if decide (tail_ s = Some current)
  then flush_return rc true (bool_decide (rc ≠ flushing)) (free current (set_tail None s))
  else goto (F_spin current rc flushing) s.

Definition flush_step (input : Z) s : option outcome_of :=
  match flusher s with
  | F_idle => None
  | F_head max_bytes => Some (h ←! (match head_ s with Some h => Ret h | None => Abort end); goto (F_tail max_bytes h) s)
  | F_tail max_bytes h => Some (match tail_ s with Some _ => goto (F_gather max_bytes h h [] 0) s | None => Abort end)
  | F_gather max_bytes h current iov flushing => Some (flush_gather max_bytes h current iov flushing s)
  | F_write h iov flushing => Some (flush_write input h iov flushing s)
  | F_rewind current flushed rc flushing => Some (flush_rewind current flushed rc flushing s)
  | F_skip current rc flushing => Some (flush_return rc false (bool_decide (rc ≠ flushing)) (set_head (Some current) s))
  | F_next current flushed rc flushing => Some (flush_next current flushed rc flushing s)
  | F_cas current rc flushing => Some (flush_cas current rc flushing s)
  | F_spin current rc flushing =>
      match heap s !! current with
      | None => Some Undef
      | Some n => match next n with None => None | Some ptr => Some (goto (F_store current ptr rc flushing) s) end
      end
  | F_store current ptr rc flushing => Some (flush_return rc false (bool_decide (rc ≠ flushing)) (free current (set_head (Some ptr) s)))
  end.

(** ** Interleavings *)

(** [Append] is called by any thread, with a node from the pool; [FlushTo] by who
    was told to write. *)
Inductive event :=
| Call_Append i (node : nat) (buffer : NoncontiguousBuffer) (ctx : Z)
| Call_FlushTo (max_bytes : Z)
| Go_append i
| Go_flush (input : Z).

Definition step (e : event) s : option outcome_of :=
  match e with
  | Call_Append i node buffer ctx =>
      match threads s !! i, heap s !! node with None, None => Some (append_new i node buffer ctx s) | _, _ => None end
  | Call_FlushTo max_bytes =>
      match flusher s, writing s with F_idle, true => Some (goto (F_head max_bytes) s) | _, _ => None end
  | Go_append i => append_step i s
  | Go_flush input => flush_step input s
  end.

(** The buffers are well formed, and [WriteV] does not return more than it was
    given. *)
Definition legal (e : event) s : Prop :=
  match e with
  | Call_Append _ _ buffer _ => nb_inv buffer
  | Call_FlushTo max_bytes => 0 ≤ max_bytes
  | Go_append _ => True
  | Go_flush input => match flusher s with F_write _ _ flushing => input ≤ flushing | _ => True end
  end.

Inductive reachable : state → Prop :=
| Reach_new : reachable WritingBufferList_new
| Reach_step e s s' r : reachable s → legal e s → step e s = Some (Ret (s', r)) → reachable s'.

(** ** Construction and destruction *)

(** [Append], when no other thread comes in between. *)
Fixpoint append_run (fuel : nat) i s : outcome (state * bool) :=
  match fuel with
  | O => Fuel
  | S fuel' =>
      match append_step i s with
      | None => Fuel
      | Some o =>
          '(s', r) ←! o;
          match r with Some (Appended started) => Ret (s', started) | _ => append_run fuel' i s' end
      end
  end.

Definition Append i (node : nat) (buffer : NoncontiguousBuffer) (ctx : Z) s : outcome (state * bool) :=
  '(s', _) ←! append_new i node buffer ctx s; append_run 3 i s'.

(** The destructor appends once more, for [head_] to be valid, and frees the nodes. *)
Fixpoint destroy_loop (fuel : nat) (current : option nat) (h : gmap nat Node) : outcome (gmap nat Node) :=
  match current with
  | None => Ret h
  | Some c =>
      match fuel with
      | O => Fuel
      | S fuel' => n ←! deref (h !! c); destroy_loop fuel' (next n) (delete c h)
      end
  end.

Definition Destroy (fuel : nat) i (node : nat) s : outcome (gmap nat Node) :=
  '(s', _) ←! Append i node NB_empty 0 s; destroy_loop fuel (head_ s') (heap s').

(** ** The invariant *)

Definition node_bytes (h : gmap nat Node) (x : nat) : chars := from_option (contents ∘ buffer) [] (h !! x).
Definition node_ctx (h : gmap nat Node) (x : nat) : Z := from_option ctx 0 (h !! x).
Definition bytes_of (h : gmap nat Node) (xs : list nat) : chars := concat (node_bytes h <$> xs).

(** The node of a thread, and the gap in the list that it is to close. *)
Definition own (x : append_pc) : nat :=
  match x with A_exchange node | A_head node | A_check _ node | A_link _ node => node end.
Definition links (x : append_pc) (a b : nat) : Prop := x = A_check a b ∨ x = A_link a b.

Definition adjacent (o : list nat) (a b : nat) : Prop := ∃ k, o !! k = Some a ∧ o !! S k = Some b.

Definition append_ok s (x : append_pc) : Prop :=
  match x with
  | A_exchange node => node ∉ order s ∧ ∃ n, heap s !! node = Some n ∧ next n = None ∧ nb_inv (buffer n)
  | A_head node => head (order s) = Some node ∧ writing s = false ∧ flusher s = F_idle
  | A_check a b | A_link a b => adjacent (order s) a b ∧ ∃ n, heap s !! a = Some n ∧ next n = None
  end.

(** The blocks that were collected from nodes with these bytes. *)
Definition gathered (bytes : chars) (max_bytes : Z) (iov : list chars) (flushing : Z) : Prop :=
  flushing = Z.of_nat (length (concat iov))
  ∧ (concat iov = bytes ∨ concat iov `prefix_of` bytes ∧ (Z.of_nat (length iov) = IOV_MAX ∨ max_bytes ≤ flushing))
  ∧ (max_bytes < flushing → ∃ pre e, iov = pre ++ [e] ∧ Z.of_nat (length (concat pre)) < max_bytes).

(** There is no gap between these nodes. *)
Definition linked (h : gmap nat Node) (xs : list nat) : Prop :=
  ∀ a b, adjacent xs a b → ∃ n, h !! a = Some n ∧ next n = Some b.

(** The nodes that are written come before the first gap; [flushed] bytes of them
    are to be taken off the list, and [flushing - rc] more were not written. *)
Definition flush_ok s : Prop :=
  match flusher s with
  | F_idle => writing s = true → head_ s = head (order s)
  | F_head max_bytes => head_ s = head (order s) ∧ 0 ≤ max_bytes
  | F_tail max_bytes h => (head_ s = Some h ∧ head (order s) = Some h) ∧ 0 ≤ max_bytes
  | F_gather max_bytes h current iov flushing => (head_ s = Some h ∧ head (order s) = Some h) ∧ 0 ≤ max_bytes ∧
      ∃ xs ys, order s = xs ++ current :: ys ∧ linked (heap s) (xs ++ [current]) ∧ gathered (bytes_of (heap s) xs) max_bytes iov flushing
  | F_write h iov flushing => head_ s = Some h ∧ flushing = Z.of_nat (length (concat iov)) ∧
      ∃ xs ys, order s = h :: xs ++ ys ∧ linked (heap s) (h :: xs) ∧ concat iov `prefix_of` bytes_of (heap s) (h :: xs)
  | F_rewind current flushed rc flushing => 0 ≤ flushed ∧ rc ≤ flushing ∧
      ∃ xs ys, order s = current :: xs ++ ys ∧ linked (heap s) (current :: xs) ∧
        flushed + (flushing - rc) ≤ Z.of_nat (length (bytes_of (heap s) (current :: xs)))
  | F_skip current rc flushing => head (order s) = Some current
  | F_next current flushed rc flushing => 0 ≤ flushed ∧ rc ≤ flushing ∧
      ∃ xs ys, order s = current :: xs ++ ys ∧ linked (heap s) (current :: xs) ∧
        flushed + (flushing - rc) ≤ Z.of_nat (length (bytes_of (heap s) xs))
  | F_cas current rc flushing => head (order s) = Some current ∧ rc = flushing
  | F_spin current rc flushing => (∃ x o, order s = current :: x :: o) ∧ rc = flushing
  | F_store current ptr rc flushing =>
      (∃ o, order s = current :: ptr :: o) ∧ (∃ n, heap s !! current = Some n ∧ next n = Some ptr) ∧ rc = flushing
  end.

(** What is appended and not yet sent, and the contexts not yet returned. *)
Definition pending s : chars :=
  match flusher s with
  | F_rewind _ flushed _ _ => drop (Z.to_nat flushed) (bytes_of (heap s) (order s))
  | F_next _ flushed _ _ => drop (Z.to_nat flushed) (bytes_of (heap s) (tail (order s)))
  | F_cas _ _ _ | F_spin _ _ _ | F_store _ _ _ _ => bytes_of (heap s) (tail (order s))
  | _ => bytes_of (heap s) (order s)
  end.
Definition pending_ctxs s : list Z :=
  node_ctx (heap s) <$>
  match flusher s with
  | F_next _ _ _ _ | F_cas _ _ _ | F_spin _ _ _ | F_store _ _ _ _ => tail (order s)
  | _ => order s
  end.

Record inv s : Prop := {
  iv_nodup : NoDup (order s);
  iv_tail : tail_ s = last (order s);
  iv_alive x : x ∈ order s → ∃ n, heap s !! x = Some n ∧ nb_inv (buffer n);
  iv_last x : last (order s) = Some x → ∃ n, heap s !! x = Some n ∧ next n = None;
  iv_chain a b : adjacent (order s) a b → ∃ n, heap s !! a = Some n ∧
    (next n = Some b ∨ next n = None ∧ ∃ i x, threads s !! i = Some x ∧ links x a b);
  iv_threads i x : threads s !! i = Some x → append_ok s x;
  iv_own i j x y : threads s !! i = Some x → threads s !! j = Some y → own x = own y → i = j;
  iv_started : order s ≠ [] → writing s = true ∨ ∃ i node, threads s !! i = Some (A_head node);
  iv_empty : order s = [] → writing s = false;
  iv_writing : flusher s ≠ F_idle → writing s = true;
  iv_flush : flush_ok s;
  iv_bytes : sent s ++ pending s = concat (fst <$> appended s);
  iv_ctxs : completed s ++ pending_ctxs s = snd <$> appended s;
}.

(** ** Lists of nodes *)

Lemma adjacent_app o x a b : adjacent (o ++ [x]) a b ↔ adjacent o a b ∨ last o = Some a ∧ b = x.
Proof.
  unfold adjacent. split.
  - intros (k & Ha & Hb). apply lookup_lt_Some in Hb as Hlt. rewrite length_app in Hlt. cbn in Hlt.
    destruct (decide (S k < length o)%nat) as [Hk|Hk].
    + left. exists k. rewrite lookup_app_l in Ha, Hb by lia. done.
    + right. assert (S k = length o) as Heq by lia. rewrite lookup_app_l in Ha by lia. rewrite lookup_app_r in Hb by lia.
      rewrite Heq, Nat.sub_diag in Hb. injection Hb as <-. split; [|done]. by rewrite last_lookup, <-Heq.
  - intros [(k & Ha & Hb)|[Hl ->]].
    + exists k. by rewrite !lookup_app_l by (by eapply lookup_lt_Some).
    + rewrite last_lookup in Hl. exists (pred (length o)). apply lookup_lt_Some in Hl as Hlt. rewrite lookup_app_l by done. split; [done|].
      rewrite lookup_app_r by lia. by replace (S (pred (length o)) - length o)%nat with 0%nat by lia.
Qed.

Lemma adjacent_tail o a b : adjacent (tail o) a b → adjacent o a b.
Proof. destruct o as [|x o]; [done|]. intros (k & Ha & Hb). by exists (S k). Qed.

Lemma adjacent_cons x o a b : NoDup (x :: o) → adjacent (x :: o) a b → a ≠ x → adjacent o a b.
Proof. intros Hnd ([|k] & Ha & Hb) Hne; [cbn in Ha; congruence|]. by exists k. Qed.

Lemma adjacent_ne o a b : NoDup o → adjacent o a b → head o ≠ Some b.
Proof.
  intros Hnd (k & Ha & Hb) Hh. rewrite head_lookup in Hh. pose proof (NoDup_lookup _ _ _ _ Hnd Hh Hb). lia.
Qed.

Lemma adjacent_fun o a b c : NoDup o → adjacent o a b → adjacent o a c → b = c.
Proof. intros Hnd (k & Ha & Hb) (j & Ha' & Hc). rewrite (NoDup_lookup _ _ _ _ Hnd Ha Ha') in Hb. congruence. Qed.

Lemma adjacent_last o a b : NoDup o → adjacent o a b → last o ≠ Some a.
Proof.
  intros Hnd (k & Ha & Hb) Hl. rewrite last_lookup in Hl. pose proof (NoDup_lookup _ _ _ _ Hnd Ha Hl). apply lookup_lt_Some in Hb. lia.
Qed.

Lemma bytes_of_app h xs ys : bytes_of h (xs ++ ys) = bytes_of h xs ++ bytes_of h ys.
Proof. unfold bytes_of. by rewrite fmap_app, concat_app. Qed.

Lemma bytes_of_ext h h' xs : (∀ x, x ∈ xs → node_bytes h x = node_bytes h' x) → bytes_of h xs = bytes_of h' xs.
Proof. intros Hext. unfold bytes_of. f_equal. apply list_fmap_ext. intros k x Hx. apply Hext. by eapply list_elem_of_lookup_2. Qed.

Lemma bytes_of_cons h x xs n : h !! x = Some n → bytes_of h (x :: xs) = contents (buffer n) ++ bytes_of h xs.
Proof. intros Hx. unfold bytes_of, node_bytes. cbn. by rewrite Hx. Qed.

(** ** The threads that append *)

(** A step that leaves the data of the nodes in the list as it is. *)
Definition same_data s (h' : gmap nat Node) : Prop :=
  ∀ x n, x ∈ order s → heap s !! x = Some n →
    ∃ n', h' !! x = Some n' ∧ buffer n' = buffer n ∧ ctx n' = ctx n ∧ ∀ y, next n = Some y → next n' = Some y.

Section frame.
Context s s' (Ho : order s' = order s) (Hf : flusher s' = flusher s) (Hh : head_ s' = head_ s) (Hw : writing s' = writing s).
Context (Hinv : inv s) (Hdata : same_data s (heap s')).

Lemma frame_node x : x ∈ order s → node_bytes (heap s') x = node_bytes (heap s) x ∧ node_ctx (heap s') x = node_ctx (heap s) x.
Proof.
  intros Hx. destruct (iv_alive _ Hinv x Hx) as (n & Hn & _). destruct (Hdata x n Hx Hn) as (n' & Hn' & Hb & Hc & _).
  unfold node_bytes, node_ctx. rewrite Hn, Hn'. cbn. by rewrite Hb, Hc.
Qed.

Lemma frame_bytes xs : xs ⊆ order s → bytes_of (heap s') xs = bytes_of (heap s) xs.
Proof. intros Hxs. apply bytes_of_ext. intros x Hx. by apply frame_node, Hxs. Qed.

Lemma frame_tail_bytes : bytes_of (heap s') (tail (order s)) = bytes_of (heap s) (tail (order s)).
Proof. apply frame_bytes. destruct (order s); set_solver. Qed.

Lemma frame_pending : pending s' = pending s.
Proof. unfold pending. rewrite Hf, Ho, frame_tail_bytes, frame_bytes by done. done. Qed.

Lemma frame_ctxs : pending_ctxs s' = pending_ctxs s.
Proof.
  unfold pending_ctxs. rewrite Hf, Ho. apply list_fmap_ext. intros k x Hx. apply frame_node. apply list_elem_of_lookup_2 in Hx.
  destruct (flusher s), (order s); set_solver.
Qed.

Lemma frame_linked xs : xs ⊆ order s → linked (heap s) xs → linked (heap s') xs.
Proof.
  intros Hxs Hl a b Hab. destruct (Hl a b Hab) as (n & Hn & Hnx).
  destruct (Hdata a n) as (n' & Hn' & _ & _ & Hy); [|done|exists n'; auto].
  destruct Hab as (k & Ha & _). apply Hxs. by eapply list_elem_of_lookup_2.
Qed.

Lemma frame_flush_ok : flush_ok s'.
Proof.
  pose proof (iv_flush _ Hinv) as Hok. revert Hok. unfold flush_ok, gathered. rewrite Hf, Ho, Hh, Hw. destruct (flusher s); try done.
  1-4: intros (Hhd & Hm & xs & ys & Hoo & Hl & Hg); split; [done|]; split; [done|]; exists xs, ys;
    rewrite frame_bytes by (rewrite Hoo; set_solver); split; [done|]; split; [|done]; apply frame_linked; [|done]; rewrite Hoo; set_solver.
  - intros ((o & Hoo) & (n & Hn & Hnx) & Hrc). split; [by exists o|]. split; [|done].
    destruct (Hdata current n) as (n' & Hn' & _ & _ & Hy); [rewrite Hoo; by left|done|]. exists n'. auto.
Qed.
End frame.

Lemma thread_inv s h' T' :
  let s' := set_threads (λ _, T') (set_heap h' s) in
  inv s → same_data s h' →
  (∀ x, last (order s) = Some x → ∃ n, h' !! x = Some n ∧ next n = None) →
  (∀ a b, adjacent (order s) a b → ∃ n, h' !! a = Some n ∧ (next n = Some b ∨ next n = None ∧ ∃ i x, T' !! i = Some x ∧ links x a b)) →
  (∀ i x, T' !! i = Some x → append_ok s' x) →
  (∀ i j x y, T' !! i = Some x → T' !! j = Some y → own x = own y → i = j) →
  (order s ≠ [] → writing s = true ∨ ∃ i node, T' !! i = Some (A_head node)) →
  inv s'.
Proof.
  intros s' Hinv Hdata Hlast Hchain Hthr Hown Hst. pose proof Hinv as [Hnd Htl Hal Hla Hch Hth Hown' Hst' Hem Hwr Hfl Hby Hct].
  split; try done.
  - intros x Hx. destruct (Hal x Hx) as (n & Hn & Hnb). destruct (Hdata x n Hx Hn) as (n' & Hn' & Hb & _). exists n'. by rewrite Hb.
  - by apply (frame_flush_ok s).
  - by rewrite (frame_pending s).
  - by rewrite (frame_ctxs s).
Qed.

(** The node of a thread is alive. *)
Lemma own_alive s i x : inv s → threads s !! i = Some x → is_Some (heap s !! own x).
Proof.
  intros Hinv Hx. pose proof (iv_threads _ Hinv i x Hx) as Hok. destruct x as [nd|nd|a b|a b]; cbn in *.
  - destruct Hok as (_ & n & Hn & _). eauto.
  - destruct Hok as [Hhd _]. rewrite head_lookup in Hhd. apply list_elem_of_lookup_2, (iv_alive _ Hinv) in Hhd as (n & Hn & _). eauto.
  - destruct Hok as [(k & _ & Hb) _]. apply list_elem_of_lookup_2, (iv_alive _ Hinv) in Hb as (n & Hn & _). eauto.
  - destruct Hok as [(k & _ & Hb) _]. apply list_elem_of_lookup_2, (iv_alive _ Hinv) in Hb as (n & Hn & _). eauto.
Qed.

(** What a thread relies on, when only other nodes change. *)
Lemma append_ok_frame s s' x :
  order s' = order s → writing s' = writing s → flusher s' = flusher s →
  (∀ y n, heap s !! y = Some n → (x = A_exchange y ∨ ∃ b, links x y b) → heap s' !! y = Some n) →
  append_ok s x → append_ok s' x.
Proof.
  intros Ho Hw Hf Hh. destruct x as [nd|nd|a b|a b]; cbn; rewrite Ho; rewrite ?Hw, ?Hf; [|done|..].
  - intros (Hno & n & Hn & Hn'). split; [done|]. exists n. rewrite (Hh nd n Hn); [done|by left].
  - intros (Hadj & n & Hn & Hn'). split; [done|]. exists n. rewrite (Hh a n Hn); [done|]. right. exists b. by left.
  - intros (Hadj & n & Hn & Hn'). split; [done|]. exists n. rewrite (Hh a n Hn); [done|]. right. exists b. by right.
Qed.

Lemma append_new_inv s i node buffer ctx :
  inv s → threads s !! i = None → heap s !! node = None → nb_inv buffer →
  inv (set_threads (<[i := A_exchange node]>) (set_heap (<[node := mkNode None buffer ctx]> (heap s)) s)).
Proof.
  intros Hinv Hi Hnode Hnb.
  assert (Hnew : node ∉ order s). { intros (n & Hn & _)%(iv_alive _ Hinv). congruence. }
  assert (Hsame : ∀ x n, heap s !! x = Some n → <[node := mkNode None buffer ctx]> (heap s) !! x = Some n).
  { intros x n Hx. rewrite lookup_insert_ne; congruence. }
  apply (thread_inv s _ (<[i := A_exchange node]> (threads s)) Hinv).
  - intros x n Hx Hn. exists n. by rewrite (Hsame x n).
  - intros x Hx. destruct (iv_last _ Hinv x Hx) as (n & Hn & Hnx). exists n. by rewrite (Hsame x n).
  - intros a b Hab. destruct (iv_chain _ Hinv a b Hab) as (n & Hn & Hnx). exists n. rewrite (Hsame a n Hn). split; [done|].
    destruct Hnx as [|(Hnx & j & x & Hj & Hl)]; [by left|right]. split; [done|]. exists j, x. by rewrite lookup_insert_ne by congruence.
  - intros j x [[-> ->]|[Hj Hx]]%lookup_goto.
    + split; [done|]. exists (mkNode None buffer ctx). cbn. by rewrite lookup_insert_eq.
    + apply (append_ok_frame s); [done..| |by apply (iv_threads _ Hinv j)]. intros y n Hn _. by apply Hsame.
  - assert (Hfresh : ∀ j x, threads s !! j = Some x → own x ≠ node).
    { intros j x Hx Heq. destruct (own_alive s j x Hinv Hx) as [n Hn]. congruence. }
    intros j1 j2 x y [[-> ->]|[Hj1 Hx]]%lookup_goto [[-> ->]|[Hj2 Hy]]%lookup_goto Hxy; [done|cbn in Hxy..|].
    + by destruct (Hfresh j2 y Hy).
    + by destruct (Hfresh j1 x Hx).
    + by apply (iv_own _ Hinv j1 j2 x y).
  - intros Ho. destruct (iv_started _ Hinv Ho) as [|(j & nd & Hj)]; [by left|right]. exists j, nd. by rewrite lookup_insert_ne by congruence.
Qed.

Lemma append_check_inv s i a b : inv s → threads s !! i = Some (A_check a b) →
  ∃ s', append_check i a b s = Ret (s', None) ∧ inv s'.
Proof.
  intros Hinv Hi. pose proof (iv_threads _ Hinv i _ Hi) as (Hadj & n & Hn & Hnx).
  unfold append_check. rewrite Hn. cbn [deref obind]. rewrite decide_True by done. eexists. split; [done|].
  apply (thread_inv s (heap s) (<[i := A_link a b]> (threads s)) Hinv).
  - intros x m Hx Hm. by exists m.
  - apply (iv_last _ Hinv).
  - intros a' b' Hab. destruct (iv_chain _ Hinv a' b' Hab) as (n' & Hn' & Hnx'). exists n'. split; [done|].
    destruct Hnx' as [|(Hnx' & j & x & Hj & Hl)]; [by left|right]. split; [done|]. destruct (decide (j = i)) as [->|].
    + exists i, (A_link a b). rewrite lookup_insert_eq. split; [done|]. simplify_eq. destruct Hl as [[= -> ->]|]; [by right|done].
    + exists j, x. by rewrite lookup_insert_ne.
  - intros j x [[-> ->]|[Hj Hx]]%lookup_goto; [by split; [|exists n]|]. by apply (append_ok_frame s), (iv_threads _ Hinv j).
  - intros j1 j2 x y [[-> ->]|[Hj1 Hx]]%lookup_goto [[-> ->]|[Hj2 Hy]]%lookup_goto Hxy; [done|..].
    + by apply (iv_own _ Hinv i j2 (A_check a b) y).
    + by apply (iv_own _ Hinv j1 i x (A_check a b)).
    + by apply (iv_own _ Hinv j1 j2 x y).
  - intros Ho. destruct (iv_started _ Hinv Ho) as [|(j & nd & Hj)]; [by left|right]. exists j, nd. by rewrite lookup_insert_ne by congruence.
Qed.

Lemma append_link_inv s i a b : inv s → threads s !! i = Some (A_link a b) →
  ∃ s', append_link i a b s = Ret (s', Some (Appended false)) ∧ inv s'.
Proof.
  intros Hinv Hi. pose proof (iv_threads _ Hinv i _ Hi) as (Hadj & n & Hn & Hnx). pose proof (iv_nodup _ Hinv) as Hnd.
  assert (a ∈ order s) as Ha by (destruct Hadj as (k & Ha & _); by eapply list_elem_of_lookup_2).
  unfold append_link. rewrite Hn. cbn [deref obind]. eexists. split; [done|]. unfold return_.
  apply (thread_inv s _ (delete i (threads s)) Hinv).
  - intros x m Hx Hm. destruct (decide (x = a)) as [->|].
    + rewrite lookup_insert_eq. simplify_eq. eexists. split; [done|]. cbn. split; [done|]. split; [done|]. congruence.
    + rewrite lookup_insert_ne by done. by exists m.
  - intros x Hx. rewrite lookup_insert_ne; [by apply (iv_last _ Hinv)|]. intros ->. eapply adjacent_last; eauto.
  - intros a' b' Hab. destruct (decide (a' = a)) as [->|].
    + rewrite lookup_insert_eq. eexists. split; [done|]. left. cbn. f_equal. eapply adjacent_fun; eauto.
    + rewrite lookup_insert_ne by done. destruct (iv_chain _ Hinv a' b' Hab) as (n' & Hn' & Hnx'). exists n'. split; [done|].
      destruct Hnx' as [|(Hnx' & j & x & Hj & Hl)]; [by left|right]. split; [done|]. exists j, x.
      rewrite lookup_delete_ne; [done|]. intros ->. simplify_eq. destruct Hl as [|[= -> ->]]; congruence.
  - intros j x [Hj Hx]%lookup_delete_Some. apply (append_ok_frame s); [done..| |by apply (iv_threads _ Hinv j)].
    cbn. intros y m Hy Hyx. rewrite lookup_insert_ne; [done|]. intros ->. pose proof (iv_threads _ Hinv j _ Hx) as Hok.
    destruct Hyx as [->|(b' & Hl)]; [by destruct Hok|]. assert (adjacent (order s) y b') as Hab' by (destruct Hl as [->| ->]; apply Hok).
    apply Hj. apply (iv_own _ Hinv i j _ x Hi Hx). destruct Hl as [->| ->]; cbn; eapply adjacent_fun; eauto.
  - intros j1 j2 x y [_ Hx]%lookup_delete_Some [_ Hy]%lookup_delete_Some. by apply (iv_own _ Hinv).
  - intros Ho. destruct (iv_started _ Hinv Ho) as [|(j & nd & Hj)]; [by left|right]. exists j, nd. by rewrite lookup_delete_ne by congruence.
Qed.

Lemma append_head_inv s i node : inv s → threads s !! i = Some (A_head node) →
  inv (set_threads (delete i) (set_writing true (set_head (Some node) s))).
Proof.
  intros Hinv Hi. pose proof (iv_threads _ Hinv i _ Hi) as (Hhd & Hw & Hf).
  destruct Hinv as [Hnd Htl Hal Hla Hch Hth Hown Hst Hem Hwr Hfl Hby Hct]. split; cbn; try done.
  - intros a b Hab. destruct (Hch a b Hab) as (n & Hn & Hnx). exists n. split; [done|].
    destruct Hnx as [|(Hnx & j & x & Hj & Hl)]; [by left|right]. split; [done|]. exists j, x.
    rewrite lookup_delete_ne; [done|]. intros ->. simplify_eq. by destruct Hl.
  - intros j x [Hj Hx]%lookup_delete_Some. pose proof (Hth j x Hx) as Hok. destruct x as [nd|nd|a b|a b]; try done.
    destruct Hok as (Hhd' & _). destruct Hj. apply (Hown i j _ _ Hi Hx). cbn. congruence.
  - intros j1 j2 x y [_ Hx]%lookup_delete_Some [_ Hy]%lookup_delete_Some. by apply Hown.
  - by left.
  - intros Ho. by rewrite Ho in Hhd.
  - unfold flush_ok. cbn. by rewrite Hf.
Qed.

(** One more node at the end of the list. *)
Section grow.
Context s s' (node : nat) (n : Node).
Context (Hinv : inv s) (Hn : heap s !! node = Some n) (Ho : order s' = order s ++ [node]).
Context (Hh : heap s' = heap s) (Hhd : head_ s' = head_ s) (Hf : flusher s' = flusher s) (Hw : writing s' = writing s).

Lemma grow_bytes xs : bytes_of (heap s) (xs ++ [node]) = bytes_of (heap s) xs ++ contents (buffer n).
Proof. rewrite bytes_of_app, (bytes_of_cons _ _ _ n) by done. cbn. by rewrite app_nil_r. Qed.

Lemma grow_flush_ok : flush_ok s'.
Proof.
  pose proof (iv_flush _ Hinv) as Hok. pose proof (iv_empty _ Hinv) as Hem. pose proof (iv_writing _ Hinv) as Hwr. revert Hok.
  assert (Hhead : writing s = true → head (order s') = head (order s)).
  { rewrite Ho. destruct (order s); [|done]. intros Hws. by rewrite Hem in Hws. }
  unfold flush_ok. rewrite Hf, Hhd, Hw, Hh. destruct (flusher s); [by intros H Hws; rewrite Hhead by done; apply H|..];
    rewrite ?Hhead by (by apply Hwr); try done; rewrite Ho.
  - intros (H1 & H2 & xs & ys & Hoo & H3). split; [done|]. split; [done|]. exists xs, (ys ++ [node]). by rewrite Hoo, <-app_assoc.
  - intros (H1 & H2 & xs & ys & -> & H3). split; [done|]. split; [done|]. exists xs, (ys ++ [node]). cbn. by rewrite app_assoc.
  - intros (H1 & H2 & xs & ys & -> & H3). split; [done|]. split; [done|]. exists xs, (ys ++ [node]). cbn. by rewrite app_assoc.
  - intros (H1 & H2 & xs & ys & -> & H3). split; [done|]. split; [done|]. exists xs, (ys ++ [node]). cbn. by rewrite app_assoc.
  - intros ((x & o & ->) & Hrc). split; [by exists x, (o ++ [node])|done].
  - intros ((o & ->) & H). split; [by exists (o ++ [node])|done].
Qed.

Lemma grow_tail : flusher s ≠ F_idle → tail (order s') = tail (order s) ++ [node].
Proof.
  intros Hfi. rewrite Ho. pose proof (iv_empty _ Hinv) as Hem. pose proof (iv_writing _ Hinv Hfi).
  destruct (order s); [|done]. rewrite Hem in *; done.
Qed.

Lemma grow_pending : pending s' = pending s ++ contents (buffer n).
Proof.
  pose proof (iv_flush _ Hinv) as Hok. pose proof grow_tail as Htl. revert Hok Htl. unfold flush_ok, pending. rewrite Hf, Hh.
  destruct (flusher s) eqn:Ef; intros Hok Htl; try (by rewrite Ho, grow_bytes); rewrite ?Htl by done; try (by rewrite grow_bytes).
  - destruct Hok as (H1 & H2 & xs & ys & Hoo & _ & H3). rewrite Ho, grow_bytes, drop_app_le; [done|].
    rewrite Hoo, app_comm_cons, bytes_of_app, length_app. lia.
  - destruct Hok as (H1 & H2 & xs & ys & Hoo & _ & H3). rewrite grow_bytes, drop_app_le; [done|].
    rewrite Hoo. cbn [tail]. rewrite bytes_of_app, length_app. lia.
Qed.

Lemma grow_ctxs : pending_ctxs s' = pending_ctxs s ++ [ctx n].
Proof.
  pose proof grow_tail as Htl. assert (node_ctx (heap s) node = ctx n) as Hc by (unfold node_ctx; by rewrite Hn).
  unfold pending_ctxs. rewrite Hf, Hh. destruct (flusher s); rewrite ?Htl, ?Ho, fmap_app by done; cbn; by rewrite Hc.
Qed.
End grow.

Lemma append_exchange_inv s i node : inv s → threads s !! i = Some (A_exchange node) →
  ∃ s', append_exchange i node s = Ret (s', None) ∧ inv s'.
Proof.
  intros Hinv Hi. pose proof (iv_threads _ Hinv i _ Hi) as (Hno & n & Hn & Hnx & Hnb).
  unfold append_exchange. rewrite Hn. cbn [deref obind]. unfold go. eexists. split; [done|].
  pose proof Hinv as [Hnd Htl Hal Hla Hch Hth Hown Hst Hem Hwr _ Hby Hct].
  split; cbn [order tail_ heap threads flusher writing set_threads log_appended set_order set_tail head_ sent completed appended].
  - apply NoDup_app. split; [done|]. split; [set_solver|by apply NoDup_singleton].
  - by rewrite last_snoc.
  - intros x [Hx| ->%list_elem_of_singleton]%elem_of_app; [by apply Hal|]. by exists n.
  - intros x. rewrite last_snoc. intros [= <-]. by exists n.
  - intros a b [Hab|[Hl ->]]%adjacent_app.
    + destruct (Hch a b Hab) as (m & Hm & Hmx). exists m. split; [done|]. destruct Hmx as [|(Hmx & j & x & Hj & Hl)]; [by left|right].
      split; [done|]. exists j, x. rewrite lookup_insert_ne; [done|]. intros ->. simplify_eq. by destruct Hl.
    + destruct (Hla a Hl) as (m & Hm & Hmx). exists m. split; [done|]. right. split; [done|].
      exists i, (A_check a node). rewrite lookup_insert_eq, Htl, Hl. split; [done|]. by left.
  - intros j x [[-> ->]|[Hj Hx]]%lookup_goto.
    + rewrite Htl. destruct (last (order s)) as [prev|] eqn:Hl; cbn.
      * split; [apply adjacent_app; by right|]. by apply Hla.
      * apply last_None in Hl. rewrite Hl. split; [done|]. split; [by apply Hem|].
        destruct (flusher s) eqn:Ef; [done|..]; by rewrite Hem in Hwr by done; discriminate Hwr.
    + pose proof (Hth j x Hx) as Hok. destruct x as [nd|nd|a b|a b]; cbn in *.
      * destruct Hok as (Hnd' & Hok). split; [|done]. intros [?| ->%list_elem_of_singleton]%elem_of_app; [done|].
        by destruct Hj; apply (Hown j i _ _ Hx Hi).
      * destruct Hok as (Hhd & Hok). split; [|done]. by destruct (order s).
      * destruct Hok as (Hab & Hok). split; [|done]. apply adjacent_app. by left.
      * destruct Hok as (Hab & Hok). split; [|done]. apply adjacent_app. by left.
  - assert (own (match tail_ s with Some prev => A_check prev node | None => A_head node end) = node) as Hi' by (by destruct (tail_ s)).
    intros j1 j2 x y [[-> ->]|[Hj1 Hx]]%lookup_goto [[-> ->]|[Hj2 Hy]]%lookup_goto Hxy; [done|rewrite Hi' in Hxy..|].
    + by apply (Hown i j2 _ y Hi Hy).
    + by apply (Hown j1 i x _ Hx Hi).
    + by apply (Hown j1 j2 x y).
  - intros _. rewrite Htl. destruct (last (order s)) eqn:Hl.
    + destruct Hst as [|(j & nd & Hj)]; [by intros Ho; rewrite Ho in Hl|by left|right]. exists j, nd. by rewrite lookup_insert_ne by congruence.
    + right. exists i, node. by rewrite lookup_insert_eq.
  - by destruct (order s).
  - done.
  - by eapply grow_flush_ok.
  - erewrite grow_pending; [|done..]. by rewrite app_assoc, Hby, fmap_app, concat_app; cbn; rewrite app_nil_r.
  - erewrite grow_ctxs; [|done..]. by rewrite app_assoc, Hct, fmap_app.
Qed.

(** ** The thread that writes *)

Lemma no_head s i node : inv s → writing s = true → threads s !! i = Some (A_head node) → False.
Proof. intros Hinv Hw Hi. pose proof (iv_threads _ Hinv i _ Hi) as (_ & Hw' & _). congruence. Qed.

(** A step that takes no node off the list. *)
Lemma flush_inv s s' :
  inv s → writing s = true →
  order s' = order s → tail_ s' = tail_ s → threads s' = threads s → writing s' = true → appended s' = appended s →
  (∀ x n, heap s !! x = Some n → ∃ n', heap s' !! x = Some n' ∧ next n' = next n ∧ (nb_inv (buffer n) → nb_inv (buffer n'))) →
  flush_ok s' → sent s' ++ pending s' = sent s ++ pending s → completed s' ++ pending_ctxs s' = completed s ++ pending_ctxs s →
  inv s'.
Proof.
  intros Hinv Hw Ho Ht Hthr Hw' Happ Hh Hok Hb Hc.
  pose proof (λ i node, no_head s i node Hinv Hw) as Hnh.
  destruct Hinv as [Hnd Htl Hal Hla Hch Hth Hown Hst Hem Hwr Hfl Hby Hct].
  split; rewrite ?Ho, ?Ht, ?Hthr, ?Hw', ?Happ, ?Hb, ?Hc; try done.
  - intros x (n & Hn & Hnb)%Hal. destruct (Hh x n Hn) as (n' & Hn' & _ & Hnb'). exists n'. auto.
  - intros x (n & Hn & Hnx)%Hla. destruct (Hh x n Hn) as (n' & Hn' & Hnx' & _). exists n'. by rewrite Hnx'.
  - intros a b (n & Hn & Hnx)%Hch. destruct (Hh a n Hn) as (n' & Hn' & Hnx' & _). exists n'. by rewrite Hnx'.
  - intros i x Hx. pose proof (Hth i x Hx) as Hok'. destruct x as [nd|nd|a b|a b]; cbn in *; [|by destruct (Hnh i nd)|..]; rewrite Ho.
    + destruct Hok' as (? & n & Hn & Hnx & Hnb). split; [done|]. destruct (Hh nd n Hn) as (n' & Hn' & Hnx' & Hnb').
      exists n'. rewrite Hnx'. auto.
    + destruct Hok' as (? & n & Hn & Hnx). split; [done|]. destruct (Hh a n Hn) as (n' & Hn' & Hnx' & _). exists n'. by rewrite Hnx'.
    + destruct Hok' as (? & n & Hn & Hnx). split; [done|]. destruct (Hh a n Hn) as (n' & Hn' & Hnx' & _). exists n'. by rewrite Hnx'.
  - by left.
  - intros Hoo. rewrite Hem in Hw; done.
Qed.

(** A step that frees the first node, which is linked to the second one. *)
Lemma free_inv s s' c o n :
  inv s → writing s = true → order s = c :: o → o ≠ [] → heap s !! c = Some n → next n ≠ None →
  order s' = o → heap s' = delete c (heap s) → tail_ s' = tail_ s → threads s' = threads s → writing s' = true → appended s' = appended s →
  flush_ok s' → sent s' ++ pending s' = sent s ++ pending s → completed s' ++ pending_ctxs s' = completed s ++ pending_ctxs s →
  inv s'.
Proof.
  intros Hinv Hw Hoc Hne Hn Hnx Ho Hh Ht Hthr Hw' Happ Hok Hb Hc.
  pose proof (λ i node, no_head s i node Hinv Hw) as Hnh.
  destruct Hinv as [Hnd Htl Hal Hla Hch Hth Hown Hst Hem Hwr Hfl Hby Hct]. rewrite Hoc in Hnd, Htl, Hal, Hla, Hch.
  apply NoDup_cons in Hnd as Hnd'. destruct Hnd' as [Hco Hndo].
  assert (Hlo : last (c :: o) = last o) by (by destruct o). rewrite Hlo in Htl, Hla.
  assert (Hsub : ∀ x, x ∈ o → heap s' !! x = heap s !! x). { intros x Hx. rewrite Hh, lookup_delete_ne; [done|]. by intros ->. }
  split; rewrite ?Ho, ?Ht, ?Hthr, ?Hw', ?Happ, ?Hb, ?Hc; try done.
  - intros x Hx. rewrite Hsub by done. apply Hal. by right.
  - intros x Hx. rewrite Hsub; [by apply Hla|]. apply last_Some_elem_of in Hx. done.
  - intros a b Hab. rewrite Hsub; [|destruct Hab as (k & Ha & _); by eapply list_elem_of_lookup_2]. by apply Hch, (adjacent_tail (c :: o)).
  - intros i x Hx. pose proof (Hth i x Hx) as Hok'. destruct x as [nd|nd|a b|a b]; cbn in *; [|by destruct (Hnh i nd)|..]; rewrite Ho, Hh; rewrite Hoc in Hok'.
    + destruct Hok' as (Hnot & Hnode). split; [set_solver|]. rewrite lookup_delete_ne; [done|]. intros ->. set_solver.
    + destruct Hok' as (Hab & m & Hm & Hmx). assert (a ≠ c) by (intros ->; congruence). split; [by eapply adjacent_cons|]. by rewrite lookup_delete_ne; eauto.
    + destruct Hok' as (Hab & m & Hm & Hmx). assert (a ≠ c) by (intros ->; congruence). split; [by eapply adjacent_cons|]. by rewrite lookup_delete_ne; eauto.
  - by left.
Qed.

(** The last node is freed. *)
Lemma drained_inv s s' c :
  inv s → writing s = true → order s = [c] → pending s = [] → pending_ctxs s = [] →
  order s' = [] → heap s' = delete c (heap s) → tail_ s' = None → threads s' = threads s → writing s' = false → flusher s' = F_idle →
  appended s' = appended s → sent s' = sent s → completed s' = completed s → inv s'.
Proof.
  intros Hinv Hw Hoc Hp Hpc Ho Hh Ht Hthr Hw' Hf Happ Hs Hc. pose proof (λ i node, no_head s i node Hinv Hw) as Hnh.
  destruct Hinv as [Hnd Htl Hal Hla Hch Hth Hown Hst Hem Hwr Hfl Hby Hct].
  split; rewrite ?Ho, ?Ht, ?Hthr, ?Hw', ?Happ, ?Hs, ?Hc; try done.
  - apply NoDup_nil_2.
  - intros x Hx. by apply not_elem_of_nil in Hx.
  - by intros a b ([|k] & ? & ?).
  - intros i x Hx. pose proof (Hth i x Hx) as Hok'. destruct x as [nd|nd|a b|a b]; cbn in *; [|by destruct (Hnh i nd)|..]; rewrite Ho, Hh; rewrite Hoc in Hok'.
    + destruct Hok' as (Hnot & Hnode). split; [apply not_elem_of_nil|]. rewrite lookup_delete_ne; [done|]. intros ->. set_solver.
    + by destruct Hok' as (([|k] & ? & ?) & _).
    + by destruct Hok' as (([|k] & ? & ?) & _).
  - unfold flush_ok. by rewrite Hf, Hw'.
  - unfold pending. rewrite Hf, Ho, <-Hby, Hp. done.
  - unfold pending_ctxs. rewrite Hf, Ho, <-Hct, Hpc. done.
Qed.

Lemma gather_blocks_spec blocks : ∀ bytes max_bytes iov flushing,
  gathered bytes max_bytes iov flushing →
  let r := gather_blocks blocks max_bytes iov flushing in gathered (bytes ++ concat blocks) max_bytes r.1 r.2.
Proof.
  induction blocks as [|e blocks IH]; intros bytes max_bytes iov flushing Hg; cbn; [by rewrite app_nil_r|].
  pose proof Hg as (Hfl & Hpre & Hrev). destruct (decide _) as [[Hiov Hmax]|Hstop]; cbn.
  - rewrite app_assoc. apply IH. unfold gathered. rewrite concat_app, length_app. cbn. rewrite app_nil_r. split; [lia|]. split.
    + left. destruct Hpre as [->|[_ [?|?]]]; [done|lia..].
    + intros _. exists iov, e. split; [done|lia].
  - split; [done|]. split; [|done]. right. split; [|lia].
    destruct Hpre as [->|[Hp _]]; [by apply prefix_app_r|]. etransitivity; [exact Hp|by apply prefix_app_r].
Qed.

Lemma revise_spec bytes max_bytes iov flushing : 0 ≤ max_bytes → gathered bytes max_bytes iov flushing →
  ∃ iov' flushing', revise max_bytes iov flushing = Ret (iov', flushing') ∧
    flushing' = Z.of_nat (length (concat iov')) ∧ concat iov' `prefix_of` bytes ∧ flushing' = Z.min max_bytes flushing.
Proof.
  intros Hm (Hfl & Hpre & Hrev).
  assert (concat iov `prefix_of` bytes) as Hp by (destruct Hpre as [->|[? _]]; done). clear Hpre.
  unfold revise. destruct (decide _) as [Hlt|]; [|eexists _, _; split; [done|]; split; [done|]; split; [done|lia]].
  destruct (Hrev Hlt) as (pre & e & -> & Hlen). rewrite last_snoc, removelast_last. eexists _, _. split; [done|].
  rewrite concat_app in Hfl, Hp |- *. rewrite length_app in Hfl |- *. cbn in *. rewrite app_nil_r in Hfl, Hp |- *.
  rewrite length_take. split; [lia|]. split; [|lia]. etransitivity; [|exact Hp]. apply prefix_app. apply prefix_take.
Qed.

(** The successor of a node. *)
Lemma next_order s xs c ys n d : inv s → order s = xs ++ c :: ys → heap s !! c = Some n → next n = Some d → ∃ ys', ys = d :: ys'.
Proof.
  intros Hinv Ho Hn Hd. destruct ys as [|y ys].
  - destruct (iv_last _ Hinv c) as (m & Hm & Hmx); [by rewrite Ho, last_snoc|]. congruence.
  - destruct (iv_chain _ Hinv c y) as (m & Hm & Hmx).
    { exists (length xs). rewrite Ho. split; [by apply list_lookup_middle|]. rewrite lookup_app_r by lia. by replace (S (length xs) - length xs)%nat with 1%nat by lia. }
    exists ys. destruct Hmx as [|[? _]]; congruence.
Qed.

Lemma linked_cons h x xs n : linked h (x :: xs) → h !! x = Some n → next n = head xs ∨ xs = [].
Proof.
  intros Hl Hn. destruct xs as [|y xs]; [by right|left]. destruct (Hl x y) as (m & Hm & Hmx); [by exists 0%nat|]. cbn. congruence.
Qed.

Lemma linked_tail h x xs : linked h (x :: xs) → linked h xs.
Proof. intros Hl a b Hab. by apply Hl, (adjacent_tail (x :: xs)). Qed.

Lemma order_ne s : inv s → writing s = true → ∃ x o, order s = x :: o.
Proof. intros Hinv Hw. destruct (order s) as [|x o] eqn:Ho; [|eauto]. rewrite (iv_empty _ Hinv Ho) in Hw. done. Qed.

Lemma flush_at s x : inv s → flusher s = x → x ≠ F_idle → writing s = true.
Proof. intros Hinv <- Hne. by apply (iv_writing _ Hinv). Qed.

(** What the flusher knows where it is. *)
Ltac flush_at Hinv Hf :=
  let Hw := fresh "Hw" in let Hok := fresh "Hok" in
  pose proof (flush_at _ _ Hinv Hf) as Hw; specialize (Hw ltac:(done));
  pose proof (iv_flush _ Hinv) as Hok; unfold flush_ok in Hok; rewrite Hf in Hok.

(** A step of the flusher that changes no node. *)
Ltac same_nodes s Hf :=
  eapply (flush_inv s); try done;
  [by intros; eexists| |try (by unfold pending; cbn; rewrite Hf)|try (by unfold pending_ctxs; cbn; rewrite Hf)].

Lemma first_node_of s : inv s → writing s = true → ∃ c n, head (order s) = Some c ∧ heap s !! c = Some n.
Proof.
  intros Hinv Hw. destruct (order_ne _ Hinv Hw) as (c & o & Ho). destruct (iv_alive _ Hinv c) as (n & Hn & _); [rewrite Ho; by left|].
  exists c, n. by rewrite Ho.
Qed.

Lemma flush_gather_inv s max_bytes h current iov flushing :
  inv s → flusher s = F_gather max_bytes h current iov flushing →
  ∃ s', flush_gather max_bytes h current iov flushing s = Ret (s', None) ∧ inv s'.
Proof.
  intros Hinv Hf. flush_at Hinv Hf.
  destruct Hok as ((Hhd & Hho) & Hm & xs & ys & Ho & Hl & Hg).
  destruct (iv_alive _ Hinv current) as (n & Hn & Hnb); [rewrite Ho; set_solver|].
  apply (gather_blocks_spec (buffers_ (buffer n))) in Hg.
  assert (Hb : bytes_of (heap s) xs ++ concat (buffers_ (buffer n)) = bytes_of (heap s) (xs ++ [current])).
  { rewrite bytes_of_app, (bytes_of_cons _ _ _ n) by done. cbn. by rewrite app_nil_r. }
  unfold flush_gather. rewrite Hn. cbn [deref obind]. destruct (gather_blocks _ _ _ _) as [iov' flushing']. cbn in Hg. rewrite Hb in Hg.
  destruct (next n) as [current'|] eqn:Hnx.
  - eexists. split; [done|]. destruct (next_order s xs current ys n current') as [ys' ->]; [done..|].
    same_nodes s Hf.
    split; [done|]. split; [done|]. exists (xs ++ [current]), ys'. cbn. rewrite <-app_assoc. split; [done|]. split; [|done].
    intros a b [Hab|[Ha ->]]%adjacent_app; [by apply Hl|]. rewrite last_snoc in Ha. injection Ha as <-. by exists n.
  - destruct (revise_spec _ _ _ _ Hm Hg) as (iov2 & fl2 & -> & Hfl & Hp & _). cbn [obind]. eexists. split; [done|].
    same_nodes s Hf.
    split; [done|]. split; [done|]. cbn. rewrite Ho in Hho |- *. destruct xs as [|x xs]; cbn in Hho; injection Hho as ->.
    + by exists [], ys.
    + exists (xs ++ [current]), ys. by rewrite <-app_assoc.
Qed.

Lemma flush_write_inv s rc h iov flushing :
  inv s → flusher s = F_write h iov flushing → rc ≤ flushing →
  ∃ s', flush_write rc h iov flushing s = Ret (s', if decide (rc ≤ 0) then Some (Flushed rc false false) else None) ∧ inv s'.
Proof.
  intros Hinv Hf Hrc. flush_at Hinv Hf. destruct Hok as (Hhd & Hfl & xs & ys & Ho & Hl & Hp).
  unfold flush_write. destruct (decide (rc ≤ 0)); [|rewrite decide_True by done]; (eexists; split; [done|]).
  - same_nodes s Hf.
    unfold flush_ok. cbn. by rewrite Ho.
  - same_nodes s Hf.
    + split; [lia|]. split; [done|]. exists xs, ys. split; [done|]. split; [done|]. apply prefix_length in Hp. cbn [heap log_sent set_flusher]. lia.
    + unfold pending. cbn [flusher log_sent set_flusher order heap sent]. rewrite Hf, <-app_assoc. f_equal. rewrite Ho, app_comm_cons, bytes_of_app. destruct Hp as [q ->].
      rewrite <-app_assoc. rewrite drop_app_le by lia. rewrite app_assoc, take_drop. done.
Qed.

Lemma bytes_of_other h x n xs : x ∉ xs → bytes_of (<[x := n]> h) xs = bytes_of h xs.
Proof. intros Hx. apply bytes_of_ext. intros y Hy. unfold node_bytes. rewrite lookup_insert_ne; [done|]. by intros ->. Qed.

Lemma bytes_of_deleted h x xs : x ∉ xs → bytes_of (delete x h) xs = bytes_of h xs.
Proof. intros Hx. apply bytes_of_ext. intros y Hy. unfold node_bytes. rewrite lookup_delete_ne; [done|]. by intros ->. Qed.

Lemma ctxs_deleted h x (xs : list nat) : x ∉ xs → node_ctx (delete x h) <$> xs = node_ctx h <$> xs.
Proof.
  intros Hx. apply list_fmap_ext. intros k y Hy. unfold node_ctx. rewrite lookup_delete_ne; [done|]. intros ->.
  by apply list_elem_of_lookup_2 in Hy.
Qed.

Lemma linked_deleted h x xs : x ∉ xs → linked h xs → linked (delete x h) xs.
Proof.
  intros Hx Hl a b Hab. rewrite lookup_delete_ne; [by apply Hl|]. intros ->. destruct Hab as (k & Ha & _).
  by apply list_elem_of_lookup_2 in Ha.
Qed.

(** The first node of the list. *)
Lemma first_node s c o : inv s → order s = c :: o →
  ∃ n, heap s !! c = Some n ∧ nb_inv (buffer n) ∧ ByteSize (buffer n) = Z.of_nat (length (contents (buffer n))) ∧ c ∉ o.
Proof.
  intros Hinv Ho. destruct (iv_alive _ Hinv c) as (n & Hn & Hnb); [rewrite Ho; by left|]. exists n. split; [done|]. split; [done|].
  split; [apply (nbi_size _ Hnb)|]. pose proof (iv_nodup _ Hinv) as Hnd. rewrite Ho in Hnd. by apply NoDup_cons in Hnd as [? _].
Qed.

Lemma flush_rewind_inv s current flushed rc flushing :
  inv s → flusher s = F_rewind current flushed rc flushing →
  ∃ s', flush_rewind current flushed rc flushing s = Ret (s', None) ∧ inv s'.
Proof.
  intros Hinv Hf. flush_at Hinv Hf. destruct Hok as (Hfl & Hrc & xs & ys & Ho & Hl & Hlen).
  destruct (first_node _ _ _ Hinv Ho) as (n & Hn & Hnb & Hsize & Hnin). unfold flush_rewind. rewrite Hn. cbn [deref obind].
  rewrite (bytes_of_cons _ _ _ n Hn), length_app in Hlen. destruct (decide (ByteSize (buffer n) ≤ flushed)) as [Hle|Hgt].
  - eexists. split; [done|]. same_nodes s Hf.
    + split; [lia|]. split; [done|]. exists xs, ys. split; [done|]. split; [done|]. cbn [heap log_completed set_flusher]. lia.
    + unfold pending. cbn [flusher set_flusher order heap log_completed sent]. rewrite Hf, Ho. cbn [tail]. f_equal.
      rewrite (bytes_of_cons _ _ _ n Hn), drop_app_ge by lia. f_equal. lia.
    + unfold pending_ctxs. cbn. rewrite Hf, Ho, <-app_assoc. cbn. do 2 f_equal. unfold node_ctx. by rewrite Hn.
  - destruct (Skip_spec (buffer n) flushed Hnb) as (b' & -> & Hnb' & Hc'); [unfold ByteSize in *; lia|]. cbn [obind].
    eexists. split; [done|]. eapply (flush_inv s); try done.
    + cbn. intros x m Hx. destruct (decide (x = current)) as [->|]; [|rewrite lookup_insert_ne by done; by exists m].
      rewrite lookup_insert_eq. simplify_eq. by eexists.
    + unfold flush_ok. cbn. by rewrite Ho.
    + unfold pending. cbn [flusher set_flusher order heap set_heap sent]. rewrite Hf, Ho. f_equal.
      rewrite (bytes_of_cons _ _ _ n Hn). rewrite (bytes_of_cons _ _ _ (mkNode (next n) b' (ctx n))) by (by rewrite lookup_insert_eq).
      rewrite bytes_of_other by done. cbn [buffer]. by rewrite Hc', drop_app_le by lia.
    + unfold pending_ctxs. cbn. rewrite Hf. f_equal. apply list_fmap_ext. intros k x _. unfold node_ctx.
      destruct (decide (x = current)) as [->|]; [|by rewrite lookup_insert_ne by done]. by rewrite lookup_insert_eq, Hn.
Qed.

Lemma flush_skip_inv s current rc flushing :
  inv s → flusher s = F_skip current rc flushing → inv (set_flusher F_idle (set_head (Some current) s)).
Proof. intros Hinv Hf. flush_at Hinv Hf. same_nodes s Hf. unfold flush_ok. cbn. by rewrite Hok. Qed.

Lemma flush_next_inv s current flushed rc flushing :
  inv s → flusher s = F_next current flushed rc flushing →
  ∃ s', flush_next current flushed rc flushing s = Ret (s', None) ∧ inv s'.
Proof.
  intros Hinv Hf. flush_at Hinv Hf. destruct Hok as (Hfl & Hrc & xs & ys & Ho & Hl & Hlen).
  destruct (first_node _ _ _ Hinv Ho) as (n & Hn & Hnb & Hsize & Hnin). unfold flush_next. rewrite Hn. cbn [deref obind].
  destruct (next n) as [d|] eqn:Hnx.
  - eexists. split; [done|]. destruct (next_order s [] current (xs ++ ys) n d) as [o' Ho']; [done..|].
    assert (∃ xs' ys', o' = xs' ++ ys' ∧ linked (heap s) (d :: xs') ∧ bytes_of (heap s) xs `prefix_of` bytes_of (heap s) (d :: xs')) as (xs' & ys' & -> & Hl' & Hp').
    { destruct xs as [|x xs]; cbn in Ho'.
      - exists [], o'. split; [done|]. split; [by intros a b ([|k] & ? & ?)|]. apply prefix_nil.
      - injection Ho' as -> <-. exists xs, ys. split; [done|]. split; [by eapply linked_tail|done]. }
    apply prefix_length in Hp'. rewrite Ho' in Ho, Hnin.
    assert (current ∉ d :: xs') by set_solver.
    eapply (free_inv s _ current (d :: xs' ++ ys') n); try done.
    + by rewrite Hnx.
    + cbn. by rewrite Ho.
    + split; [done|]. split; [done|]. exists xs', ys'. cbn [order free set_order set_heap heap set_flusher]. rewrite Ho.
      split; [done|]. split; [by apply linked_deleted|]. rewrite bytes_of_deleted by done. lia.
    + unfold pending. cbn [order free set_order set_heap heap set_flusher flusher sent]. rewrite Hf, Ho. cbn [tail]. by rewrite bytes_of_deleted.
    + unfold pending_ctxs. cbn [order free set_order set_heap heap set_flusher flusher completed]. rewrite Hf, Ho. cbn [tail]. by rewrite ctxs_deleted.
  - destruct (linked_cons _ _ _ _ Hl Hn) as [Hh| ->]; [rewrite Hnx in Hh; destruct xs; [|done]|]; cbn in Hlen;
      (rewrite decide_True by lia; eexists; split; [done|]; same_nodes s Hf;
       [split; [cbn; by rewrite Ho|lia]|unfold pending; cbn; rewrite Hf; by replace (Z.to_nat flushed) with 0%nat by lia]).
Qed.

Lemma flush_cas_inv s current rc flushing :
  inv s → flusher s = F_cas current rc flushing →
  (∃ s', flush_cas current rc flushing s = Ret (s', Some (Flushed rc true false)) ∧ inv s' ∧ order s' = [])
  ∨ ∃ s', flush_cas current rc flushing s = Ret (s', None) ∧ inv s'.
Proof.
  intros Hinv Hf. flush_at Hinv Hf. destruct Hok as [Hhd ->]. pose proof (iv_nodup _ Hinv) as Hnd. pose proof (iv_tail _ Hinv) as Htl.
  unfold flush_cas. destruct (order s) as [|c o] eqn:Ho; [done|]. injection Hhd as ->. destruct (decide _) as [Ht|Ht].
  - left. rewrite bool_decide_false by (intros H; by apply H). eexists. split; [done|].
    assert (o = []) as ->.
    { destruct o as [|x o]; [done|]. rewrite Ht in Htl. symmetry in Htl. apply last_Some_elem_of in Htl as Hin.
      apply NoDup_cons in Hnd as [Hnin _]. destruct Hnin. destruct o; [by injection Htl as <-; left|].
      cbn in Htl. by apply (last_Some_elem_of (x :: n :: o)). }
    split; [|cbn; by rewrite Ho]. eapply (drained_inv s _ current); try done; [| |cbn; by rewrite Ho].
    + unfold pending. by rewrite Hf, Ho.
    + unfold pending_ctxs. by rewrite Hf, Ho.
  - right. eexists. split; [done|]. same_nodes s Hf. split; [|done]. cbn. rewrite Ho. destruct o as [|x o]; [by rewrite Htl in Ht|eauto].
Qed.

Lemma flush_spin_inv s current rc flushing n ptr :
  inv s → flusher s = F_spin current rc flushing → heap s !! current = Some n → next n = Some ptr →
  inv (set_flusher (F_store current ptr rc flushing) s).
Proof.
  intros Hinv Hf Hn Hp. flush_at Hinv Hf. destruct Hok as [(x & o & Ho) Hrc].
  destruct (next_order s [] current (x :: o) n ptr) as [o' Ho']; [done..|]. same_nodes s Hf. rewrite Ho' in Ho.
  split; [by exists o'|]. split; [by exists n|done].
Qed.

Lemma flush_store_inv s current ptr rc flushing :
  inv s → flusher s = F_store current ptr rc flushing →
  inv (set_flusher F_idle (free current (set_head (Some ptr) s))).
Proof.
  intros Hinv Hf. flush_at Hinv Hf. destruct Hok as ((o & Ho) & (n & Hn & Hnx) & _).
  destruct (first_node _ _ _ Hinv Ho) as (_ & _ & _ & _ & Hnin).
  eapply (free_inv s _ current (ptr :: o) n); try done.
  - by rewrite Hnx.
  - cbn. by rewrite Ho.
  - unfold flush_ok. cbn. by rewrite Ho.
  - unfold pending. cbn [order free set_order set_heap set_head heap set_flusher flusher sent]. rewrite Hf, Ho. cbn [tail]. by rewrite bytes_of_deleted.
  - unfold pending_ctxs. cbn [order free set_order set_heap set_head heap set_flusher flusher completed]. rewrite Hf, Ho. cbn [tail]. by rewrite ctxs_deleted.
Qed.

Lemma flush_start_inv s max_bytes : inv s → flusher s = F_idle → writing s = true → 0 ≤ max_bytes → inv (set_flusher (F_head max_bytes) s).
Proof.
  intros Hinv Hf Hw Hm. pose proof (iv_flush _ Hinv) as Hok. unfold flush_ok in Hok. rewrite Hf in Hok. same_nodes s Hf. split; [by apply Hok|done].
Qed.

Lemma flush_head_inv s max_bytes : inv s → flusher s = F_head max_bytes → ∃ h, head_ s = Some h ∧ inv (set_flusher (F_tail max_bytes h) s).
Proof.
  intros Hinv Hf. flush_at Hinv Hf. destruct (order_ne _ Hinv Hw) as (x & o & Ho). rewrite Ho in Hok. destruct Hok as [Hh Hm].
  exists x. split; [done|]. same_nodes s Hf. split; [|done]. cbn. by rewrite Ho.
Qed.

Lemma flush_tail_inv s max_bytes h : inv s → flusher s = F_tail max_bytes h →
  is_Some (tail_ s) ∧ inv (set_flusher (F_gather max_bytes h h [] 0) s).
Proof.
  intros Hinv Hf. flush_at Hinv Hf. destruct Hok as [Hh Hm]. split.
  - rewrite (iv_tail _ Hinv). destruct (order_ne _ Hinv Hw) as (x & o & ->). by rewrite last_cons; destruct (last o); eexists.
  - same_nodes s Hf. split; [done|]. split; [done|]. destruct Hh as [_ Hh]. cbn. destruct (order s) as [|x o] eqn:Ho; [done|]. injection Hh as ->.
    exists [], o. split; [done|]. split; [by intros a b ([|k] & ? & ?)|]. split; [done|]. split; [by left|lia].
Qed.

(** What the operations promise when they return. *)
Definition result_ok s s' (r : option result) : Prop :=
  match r with
  | None => writing s' = writing s
  | Some (Appended started) => (started = true → writing s = false ∧ flusher s = F_idle) ∧ writing s' = (started || writing s)
  | Some (Flushed rc emptied short_write) =>
      writing s = true ∧ writing s' = negb emptied ∧
      (emptied = true → short_write = false ∧ tail_ s' = None ∧ pending s' = [] ∧ pending_ctxs s' = [])
  end.

Lemma append_step_inv s i o : inv s → append_step i s = Some o → ∃ s' r, o = Ret (s', r) ∧ inv s' ∧ result_ok s s' r.
Proof.
  intros Hinv. unfold append_step. destruct (threads s !! i) as [[nd|nd|a b|a b]|] eqn:Hi; [..|done]; intros [= <-].
  - destruct (append_exchange_inv s i nd Hinv Hi) as (s' & E & Hinv'). rewrite E. eexists _, _. split; [done|]. split; [done|].
    unfold append_exchange in E. destruct (heap s !! nd); [|done]. by injection E as <-.
  - eexists _, _. split; [done|]. split; [by apply append_head_inv|]. pose proof (iv_threads _ Hinv i _ Hi) as (_ & Hw & Hf). done.
  - destruct (append_check_inv s i a b Hinv Hi) as (s' & E & Hinv'). rewrite E. eexists _, _. split; [done|]. split; [done|].
    unfold append_check in E. destruct (heap s !! a) as [n|]; [|done]. cbn in E. destruct (decide _); [|done]. by injection E as <-.
  - destruct (append_link_inv s i a b Hinv Hi) as (s' & E & Hinv'). rewrite E. eexists _, _. split; [done|]. split; [done|].
    unfold append_link in E. destruct (heap s !! a) as [n|]; [|done]. injection E as <-. done.
Qed.

Lemma flush_step_inv s input o : inv s → legal (Go_flush input) s → flush_step input s = Some o →
  ∃ s' r, o = Ret (s', r) ∧ inv s' ∧ result_ok s s' r.
Proof.
  intros Hinv Hle. cbn in Hle. unfold flush_step. destruct (flusher s) eqn:Hf; [done|..]; pose proof (flush_at _ _ Hinv Hf ltac:(done)) as Hw.
  - destruct (flush_head_inv _ _ Hinv Hf) as (h & -> & Hinv'). intros [= <-]. by eexists _, _.
  - destruct (flush_tail_inv _ _ _ Hinv Hf) as ([t ->] & Hinv'). intros [= <-]. by eexists _, _.
  - destruct (flush_gather_inv _ _ _ _ _ _ Hinv Hf) as (s' & E & Hinv'). rewrite E. intros [= <-]. eexists _, _. split; [done|]. split; [done|].
    revert E. unfold flush_gather. destruct (heap s !! current); [|done]. cbn. destruct (gather_blocks _ _ _ _) as [iov' fl']. destruct (next n); [by intros [= <-]|].
    destruct (revise _ _ _) as [[? ?]| | | |]; try done. by intros [= <-].
  - destruct (flush_write_inv _ _ _ _ _ Hinv Hf Hle) as (s' & E & Hinv'). rewrite E. intros [= <-]. eexists _, _. split; [done|]. split; [done|].
    revert E. unfold flush_write. destruct (decide (input ≤ 0)); [by intros [= <-]|]. destruct (decide _); [|done]. by intros [= <-].
  - destruct (flush_rewind_inv _ _ _ _ _ Hinv Hf) as (s' & E & Hinv'). rewrite E. intros [= <-]. eexists _, _. split; [done|]. split; [done|].
    revert E. unfold flush_rewind. destruct (heap s !! current); [|done]. cbn. destruct (decide _); [by intros [= <-]|].
    destruct (Skip _ _); try done. by intros [= <-].
  - intros [= <-]. eexists _, _. split; [done|]. split; [by eapply flush_skip_inv|]. done.
  - destruct (flush_next_inv _ _ _ _ _ Hinv Hf) as (s' & E & Hinv'). rewrite E. intros [= <-]. eexists _, _. split; [done|]. split; [done|].
    revert E. unfold flush_next. destruct (heap s !! current); [|done]. cbn. destruct (next _); [by intros [= <-]|]. destruct (decide _); [|done]. by intros [= <-].
  - intros [= <-]. destruct (flush_cas_inv _ _ _ _ Hinv Hf) as [(s' & E & Hinv' & Ho)|(s' & E & Hinv')]; rewrite E; eexists _, _; (split; [done|]; split; [done|]); revert E; unfold flush_cas.
    + destruct (decide _); [|done]. intros [= <-]. cbn in *. unfold pending, pending_ctxs, bytes_of. cbn. by rewrite Ho.
    + destruct (decide _); [done|]. by intros [= <-].
  - destruct (first_node_of _ Hinv Hw) as (c & n & Hc & Hn).
    pose proof (iv_flush _ Hinv) as Hok. unfold flush_ok in Hok. rewrite Hf in Hok. destruct Hok as [(x & o' & Ho) Hrc]. rewrite Ho in Hc. injection Hc as <-.
    rewrite Hn. destruct (next n) eqn:Hnx; [|done]. intros [= <-]. eexists _, _. split; [done|]. split; [by eapply flush_spin_inv|done].
  - intros [= <-]. eexists _, _. split; [done|]. split; [by eapply flush_store_inv|done].
Qed.

Lemma list_step_inv e s o : inv s → legal e s → step e s = Some o → ∃ s' r, o = Ret (s', r) ∧ inv s' ∧ result_ok s s' r.
Proof.
  intros Hinv Hle. destruct e as [i node b c|m|i|input]; cbn.
  - destruct (threads s !! i) eqn:Hi; [done|]. destruct (heap s !! node) eqn:Hn; [done|]. intros [= <-]. eexists _, _. split; [done|].
    split; [by apply append_new_inv|done].
  - destruct (flusher s) eqn:Hf; try done. destruct (writing s) eqn:Hw; [|done]. intros [= <-]. eexists _, _. split; [done|].
    split; [by apply flush_start_inv|done].
  - by apply append_step_inv.
  - by apply flush_step_inv.
Qed.

Lemma inv_new : inv WritingBufferList_new.
Proof.
  split; cbn; try done; [apply NoDup_nil_2|by intros x Hx%not_elem_of_nil|by intros a b ([|k] & ? & ?)].
Qed.

Lemma list_reachable_inv s : reachable s → inv s.
Proof.
  induction 1 as [|e s s' r Hr IH Hle E]; [apply inv_new|]. destruct (list_step_inv e s _ IH Hle E) as (? & ? & [= <- <-] & ? & _). done.
Qed.

(** ** Correctness *)

(** How many steps the flusher has before it, if nobody appends: the rest of the
    walk over the list, and two for each node that is taken off. *)
Fixpoint behind (current : nat) (o : list nat) : nat :=
  match o with [] => 0 | x :: o' => if decide (x = current) then length o' else behind current o' end.

Definition steps_left s : nat :=
  let l := length (order s) in
  match flusher s with
  | F_idle => 0
  | F_head _ => 3 * l + 7
  | F_tail _ _ => 3 * l + 6
  | F_gather _ _ current _ _ => behind current (order s) + 2 * l + 5
  | F_write _ _ _ => 2 * l + 4
  | F_rewind _ _ _ _ => 2 * l + 3
  | F_next _ _ _ _ => 2 * l + 2
  | F_cas _ _ _ => 3
  | F_spin _ _ _ => 2
  | F_skip _ _ _ | F_store _ _ _ _ => 1
  end.

Lemma behind_middle xs c ys : c ∉ xs → behind c (xs ++ c :: ys) = length ys.
Proof.
  induction xs as [|x xs IH]; cbn; intros Hc; [by rewrite decide_True|].
  rewrite decide_False by (intros ->; set_solver). apply IH. set_solver.
Qed.

Lemma behind_at s xs c ys : inv s → order s = xs ++ c :: ys → behind c (order s) = length ys.
Proof.
  intros Hinv Ho. rewrite Ho. apply behind_middle. pose proof (iv_nodup _ Hinv) as Hnd. rewrite Ho in Hnd.
  apply NoDup_app in Hnd as (_ & Hnd & _). intros Hc. apply (Hnd c Hc). by left.
Qed.

Lemma gather_steps s max_bytes h current iov flushing s' r :
  inv s → flusher s = F_gather max_bytes h current iov flushing →
  flush_gather max_bytes h current iov flushing s = Ret (s', r) → (steps_left s' < steps_left s)%nat.
Proof.
  intros Hinv Hf. flush_at Hinv Hf. destruct Hok as (_ & _ & xs & ys & Ho & _). unfold flush_gather.
  destruct (heap s !! current) as [n|] eqn:Hn; [|done]. cbn [deref obind]. destruct (gather_blocks _ _ _ _) as [iov' fl'].
  destruct (next n) as [d|] eqn:Hnx.
  - intros [= <- _]. destruct (next_order _ _ _ _ _ _ Hinv Ho Hn Hnx) as [ys' ->]. unfold steps_left. cbn -[Nat.mul]. rewrite Hf.
    rewrite (behind_at s xs current (d :: ys')), (behind_at s (xs ++ [current]) d ys') by (by rewrite <-?app_assoc). cbn -[Nat.mul]. lia.
  - destruct (revise _ _ _) as [[? ?]| | | |]; try done. intros [= <- _]. unfold steps_left. cbn -[Nat.mul]. rewrite Hf. lia.
Qed.

(** The flusher comes nearer to its end with every step. *)
Lemma flush_steps s input s' r : inv s → flush_step input s = Some (Ret (s', r)) → (steps_left s' < steps_left s)%nat.
Proof.
  intros Hinv. unfold flush_step. destruct (flusher s) eqn:Hf; [done|..]; flush_at Hinv Hf; pose proof (order_ne _ Hinv Hw) as (c & o & Ho).
  - destruct (head_ s); [|done]. intros [= <- _]. unfold steps_left. cbn -[Nat.mul]. rewrite Hf. lia.
  - destruct (tail_ s); [|done]. intros [= <- _]. unfold steps_left. cbn -[Nat.mul]. rewrite Hf. destruct Hok as [[_ Hh] _].
    rewrite Ho in Hh. injection Hh as ->. rewrite (behind_at s [] head o), Ho by done. cbn -[Nat.mul]. lia.
  - intros [= E]. by eapply gather_steps.
  - unfold flush_write. destruct (decide _); [intros [= <- _]|destruct (decide _); [intros [= <- _]|done]]; unfold steps_left; cbn -[Nat.mul]; rewrite Hf; lia.
  - unfold flush_rewind. destruct (heap s !! current); [|done]. cbn [deref obind]. destruct (decide _); [|destruct (Skip _ _); try done];
      intros [= <- _]; unfold steps_left; cbn -[Nat.mul]; rewrite Hf; lia.
  - intros [= <- _]. unfold steps_left. cbn. rewrite Hf. lia.
  - unfold flush_next. destruct (heap s !! current); [|done]. cbn [deref obind]. destruct (next _); [|destruct (decide _); [|done]];
      intros [= <- _]; unfold steps_left; cbn -[Nat.mul]; rewrite Hf, Ho; cbn -[Nat.mul]; lia.
  - unfold flush_cas. destruct (decide _); intros [= <- _]; unfold steps_left; cbn; rewrite Hf; lia.
  - destruct (heap s !! current) as [n|]; [|done]. destruct (next n); [|done]. intros [= <- _]. unfold steps_left. cbn. rewrite Hf. lia.
  - intros [= <- _]. unfold steps_left. cbn. rewrite Hf. lia.
Qed.

(** Only the exchange of an [Append] gives it more to do. *)
Lemma behind_snoc c o x : (behind c (o ++ [x]) ≤ behind c o + 1)%nat.
Proof. induction o as [|y o IH]; cbn; [case_decide; lia|]. case_decide; [rewrite length_app; cbn; lia|lia]. Qed.

Lemma append_steps e s s' r :
  step e s = Some (Ret (s', r)) → match e with Call_Append _ _ _ _ | Go_append _ => True | _ => False end →
  (steps_left s' + 3 * length (appended s) ≤ steps_left s + 3 * length (appended s'))%nat.
Proof.
  destruct e as [i node b c|m|i|input]; cbn [step]; intros E He; try done.
  - destruct (threads s !! i), (heap s !! node); try done. revert E. unfold append_new, go, steps_left. intros [= <- _]. cbn -[Nat.mul]. lia.
  - revert E. unfold append_step, append_exchange, append_check, append_link, return_, go.
    destruct (threads s !! i) as [[node|node|prev node|prev node]|]; [..|done].
    + destruct (heap s !! node) as [n|]; cbn [deref obind]; [|done]. intros [= <- _]. unfold steps_left. cbn -[Nat.mul].
      rewrite !length_app. cbn -[Nat.mul]. destruct (flusher s); try lia. pose proof (behind_snoc current (order s) node). lia.
    + intros [= <- _]. unfold steps_left. cbn -[Nat.mul]. lia.
    + destruct (heap s !! prev); cbn [deref obind]; [|done]. destruct (decide _); [|done]. intros [= <- _]. unfold steps_left. cbn -[Nat.mul]. lia.
    + destruct (heap s !! prev); cbn [deref obind]; [|done]. intros [= <- _]. unfold steps_left. cbn -[Nat.mul]. lia.
Qed.

Lemma flush_appended s input s' r : flush_step input s = Some (Ret (s', r)) → appended s' = appended s.
Proof.
  unfold flush_step, flush_gather, flush_write, flush_rewind, flush_next, flush_cas, flush_return, goto. intros E.
  repeat match goal with
         | E : Some _ = Some _ |- _ => apply (inj Some) in E
         | E : obind _ _ = Ret _ |- _ => apply obind_Ret_inv in E as (? & _ & E)
         | E : Ret _ = Ret _ |- _ => injection E as <- _
         | E : context [match ?x with _ => _ end] |- _ => destruct x; try done
         end; try done.
Qed.

(** A run of the threads and of one call of [FlushTo]. *)
Inductive list_run : state → list event → state → Prop :=
| Run_nil s : list_run s [] s
| Run_cons e s r s1 es s' :
    legal e s → (∀ max_bytes, e ≠ Call_FlushTo max_bytes) → step e s = Some (Ret (s1, r)) → list_run s1 es s' → list_run s (e :: es) s'.

Definition is_flush (e : event) : bool := match e with Go_flush _ => true | _ => false end.

Lemma run_bounded s es s' : list_run s es s' → inv s →
  (length (List.filter is_flush es) + steps_left s' + 3 * length (appended s) ≤ steps_left s + 3 * length (appended s'))%nat.
Proof.
  induction 1 as [s|e s r s1 es s' Hle Hne E _ IH]; intros Hinv; [cbn; lia|].
  destruct (list_step_inv e s _ Hinv Hle E) as (? & ? & [= <- <-] & Hinv1 & _). specialize (IH Hinv1). cbn -[Nat.mul] in *.
  destruct e as [i node b c|m|i|input]; cbn [is_flush].
  - pose proof (append_steps _ _ _ _ E I). lia.
  - by destruct (Hne m).
  - pose proof (append_steps _ _ _ _ E I). lia.
  - cbn in E. pose proof (flush_steps _ _ _ _ Hinv E). pose proof (flush_appended _ _ _ _ E) as Ha. rewrite Ha in IH. cbn -[Nat.mul]. lia.
Qed.

Lemma behind_le c o : (behind c o ≤ length o)%nat.
Proof. induction o as [|y o IH]; cbn; [lia|]. case_decide; lia. Qed.

Lemma steps_left_le s : (steps_left s ≤ 3 * length (order s) + 7)%nat.
Proof. unfold steps_left. destruct (flusher s); try lia. pose proof (behind_le current (order s)). lia. Qed.

Lemma list_stuck_spin s input : inv s → flusher s ≠ F_idle → flush_step input s = None →
  ∃ current rc flushing n, flusher s = F_spin current rc flushing ∧ heap s !! current = Some n ∧ next n = None.
Proof.
  intros Hinv Hne. unfold flush_step. destruct (flusher s) eqn:Hf; try done. destruct (heap s !! current) as [n|] eqn:Hn; [|done].
  destruct (next n) eqn:Hnx; [done|]. intros _. by eexists _, _, _, n.
Qed.

(** C11: What goes out is what was appended: whatever the threads that append and
    the thread that writes do, no check of the code fails, no freed node is touched,
    the bytes sent are a prefix of the bytes appended and the contexts returned a
    prefix of the contexts appended, both in the order of the exchanges.  [Append]
    tells a thread to write only if nobody writes.  If [FlushTo] says that it emptied
    the list then everything that was appended is sent, every context is returned
    and the write was not short; if it does not, whoever called it is still to write. *)
Theorem WritingBufferList_fifo s e o : reachable s → legal e s → step e s = Some o →
  ∃ s' r, o = Ret (s', r) ∧
    sent s' `prefix_of` concat (fst <$> appended s') ∧ completed s' `prefix_of` (snd <$> appended s') ∧
    match r with
    | Some (Appended true) => writing s = false ∧ flusher s = F_idle ∧ writing s' = true
    | Some (Flushed _ true short_write) => short_write = false ∧ writing s' = false ∧ tail_ s' = None ∧
        sent s' = concat (fst <$> appended s') ∧ completed s' = snd <$> appended s'
    | Some (Flushed _ false _) => writing s' = true
    | _ => writing s' = writing s
    end.
Proof.
  intros Hr Hle E. destruct (list_step_inv e s o (list_reachable_inv s Hr) Hle E) as (s' & r & -> & Hinv & Hres). exists s', r. split; [done|].
  pose proof (iv_bytes _ Hinv) as Hb. pose proof (iv_ctxs _ Hinv) as Hc. split; [eexists; by symmetry|]. split; [eexists; by symmetry|].
  destruct r as [[[|]|rc [|] short]|]; cbn in *; [destruct Hres as [Hs Hw]; destruct Hs; [done|tauto]|tauto| |tauto|done].
  destruct Hres as (_ & Hw & He). destruct (He eq_refl) as (-> & Ht & Hp & Hpc). rewrite Hp, app_nil_r in Hb. rewrite Hpc, app_nil_r in Hc. done.
Qed.

(** C12: Nothing is left behind: a thread in [Append] never waits; the flusher waits only
    for a thread that has appended a node behind the last one it knows and is to link
    it; whatever the socket does, a call of [FlushTo] makes at most three steps for each
    node in the list and for each one that is appended in the meantime, and seven more
    (it follows the nodes that are appended while it gathers, so that no number of
    steps bounds it alone); and whenever the list is not empty somebody was told to
    write, or is about to be, and will find the head of the list where [FlushTo] looks
    for it. *)
Theorem WritingBufferList_progress s : reachable s →
  (∀ i x, threads s !! i = Some x → step (Go_append i) s ≠ None)
  ∧ (∀ input, flusher s ≠ F_idle → step (Go_flush input) s = None →
       ∃ current rc flushing i x node, flusher s = F_spin current rc flushing ∧ threads s !! i = Some x ∧ links x current node)
  ∧ (∀ es s', list_run s es s' →
       (length (List.filter is_flush es) ≤ 3 * (length (order s) + (length (appended s') - length (appended s))) + 7)%nat)
  ∧ (order s ≠ [] → writing s = true ∨ ∃ i node, threads s !! i = Some (A_head node))
  ∧ (writing s = true → flusher s = F_idle → is_Some (head_ s) ∧ head_ s = head (order s)).
Proof.
  intros Hinv%list_reachable_inv. split; [|split; [|split; [|split]]].
  - intros i x Hi. cbn. unfold append_step. rewrite Hi. by destruct x.
  - intros input Hne Hstep. destruct (list_stuck_spin _ _ Hinv Hne Hstep) as (current & rc & flushing & n & Hf & Hn & Hnx).
    pose proof (iv_flush _ Hinv) as Hok. unfold flush_ok in Hok. rewrite Hf in Hok. destruct Hok as [(x & o & Ho) _].
    destruct (iv_chain _ Hinv current x) as (n' & Hn' & Hgap); [rewrite Ho; by exists 0%nat|]. simplify_eq.
    destruct Hgap as [|(_ & i & y & Hi & Hl)]; [congruence|]. by exists current, rc, flushing, i, y, x.
  - intros es s' Hrun. pose proof (run_bounded s es s' Hrun Hinv). pose proof (steps_left_le s). lia.
  - apply (iv_started _ Hinv).
  - intros Hw Hf. pose proof (iv_flush _ Hinv) as Hok. unfold flush_ok in Hok. rewrite Hf in Hok. specialize (Hok Hw).
    destruct (order_ne _ Hinv Hw) as (x & o & Ho). rewrite Ho in *. cbn in Hok. rewrite Hok. by split.
Qed.

Lemma append_exchange_alone s i node n : inv s → threads s !! i = Some (A_exchange node) → heap s !! node = Some n →
  ∃ s1, append_exchange i node s = Ret (s1, None) ∧ inv s1 ∧ order s1 = order s ++ [node] ∧ flusher s1 = flusher s ∧ dom (heap s1) = dom (heap s) ∧
    threads s1 = <[i := match last (order s) with None => A_head node | Some prev => A_check prev node end]> (threads s) ∧
    appended s1 = appended s ++ [(contents (buffer n), ctx n)] ∧ sent s1 = sent s ∧ writing s1 = writing s.
Proof.
  intros Hinv Hi Hn. destruct (append_exchange_inv s i node Hinv Hi) as (s1 & E & Hinv1). exists s1. split; [done|]. split; [done|].
  revert E. unfold append_exchange. rewrite Hn. intros [= <-]. cbn. by rewrite (iv_tail _ Hinv).
Qed.

(** [Append] tells the caller to write exactly if the list was empty. *)
Lemma Append_alone s i node b c : inv s → threads s = ∅ → heap s !! node = None → nb_inv b →
  ∃ s' started, Append i node b c s = Ret (s', started) ∧ inv s' ∧ threads s' = ∅ ∧ flusher s' = flusher s ∧
    order s' = order s ++ [node] ∧ dom (heap s') = {[node]} ∪ dom (heap s) ∧
    appended s' = appended s ++ [(contents b, c)] ∧ sent s' = sent s ∧ writing s' = started || writing s ∧ (started = true ↔ order s = []).
Proof.
  intros Hinv Hthr Hnode Hnb. unfold Append, append_new, go. cbn [obind].
  pose proof (append_new_inv s i node b c Hinv ltac:(by rewrite Hthr) Hnode Hnb) as Hinv0. cbn [append_run].
  set (s0 := set_threads _ _) in *. assert (threads s0 !! i = Some (A_exchange node)) as Hi0 by apply lookup_insert_eq.
  destruct (append_exchange_alone s0 i node (mkNode None b c) Hinv0 Hi0) as (s1 & E1 & Hinv1 & Ho1 & Hf1 & Hd1 & Ht1 & Ha1 & Hs1 & Hw1); [apply lookup_insert_eq|].
  unfold append_step at 1. rewrite Hi0, E1. cbn [obind]. unfold append_step at 1. rewrite Ht1, lookup_insert_eq.
  assert (Hgone : ∀ x, delete i (<[i := x]> (threads s0)) = ∅).
  { intros x. change (threads s0) with (<[i := A_exchange node]> (threads s)). rewrite Hthr, insert_insert_eq, delete_insert_id; [done|]. apply lookup_empty. }
  assert (Hdom : dom (heap s0) = {[node]} ∪ dom (heap s)) by apply dom_insert_L.
  destruct (last (order s0)) as [prev|] eqn:Hl; change (order s0) with (order s) in Hl, Ho1.
  - assert (threads s1 !! i = Some (A_check prev node)) as Hi1 by (rewrite Ht1; apply lookup_insert_eq).
    destruct (append_check_inv s1 i prev node Hinv1 Hi1) as (s2 & E2 & Hinv2). rewrite E2. cbn [obind].
    unfold append_check in E2. destruct (heap s1 !! prev) as [n|] eqn:Hp; [|done]. cbn [deref obind] in E2. destruct (decide _); [|done].
    injection E2 as <-. unfold append_step at 1. cbn [threads set_threads]. rewrite lookup_insert_eq.
    destruct (append_link_inv _ i prev node Hinv2 (lookup_insert_eq _ _ _)) as (s3 & E3 & Hinv3). rewrite E3. cbn [obind].
    eexists s3, false. split; [done|]. split; [done|]. unfold append_link in E3. cbn in E3. rewrite Hp in E3. injection E3 as <-.
    cbn [threads flusher order heap appended sent writing set_threads set_heap orb].
    rewrite Ht1, !insert_insert_eq, Hgone, Ho1, Hf1, dom_insert_L, Hd1, Hdom. split; [done|]. split; [done|]. split; [done|]. split.
    { apply elem_of_dom_2 in Hp. rewrite Hd1, Hdom in Hp. set_solver. }
    split; [done|]. split; [done|]. split; [done|]. split; [done|]. intros Ho. by rewrite Ho in Hl.
  - eexists _, true. split; [reflexivity|]. split; [apply append_head_inv; [done|]; by rewrite Ht1, lookup_insert_eq|].
    cbn [threads flusher order heap appended sent writing set_threads set_heap set_head set_writing orb].
    rewrite Ht1, Hgone, Ho1, Hf1, Hd1, Hdom. do 6 (split; [done|]). split; [done|]. apply last_None in Hl. by rewrite Hl.
Qed.

Lemma destroy_loop_spec fuel : ∀ o h, (length o ≤ fuel)%nat → NoDup o → linked h o →
  (∀ x, last o = Some x → ∃ n, h !! x = Some n ∧ next n = None) →
  ∃ h', destroy_loop fuel (head o) h = Ret h' ∧ dom h' = dom h ∖ list_to_set o.
Proof.
  induction fuel as [|fuel IH]; intros o h Hlen Hnd Hl Hlast; destruct o as [|c o]; cbn in Hlen; try lia;
    try (eexists; split; [done|set_solver]).
  apply NoDup_cons in Hnd as [Hc Hnd]. cbn.
  assert (∃ n, h !! c = Some n ∧ next n = head o) as (n & Hn & Hnx).
  { destruct o as [|d o]; [by apply Hlast|]. destruct (Hl c d) as (n & Hn & Hnx); [by exists 0%nat|eauto]. }
  rewrite Hn. cbn [deref obind]. rewrite Hnx.
  destruct (IH o (delete c h)) as (h' & -> & Hd); [lia|done|by apply linked_deleted; [|eapply linked_tail]| |].
  - intros x Hx. rewrite lookup_delete_ne by (intros ->; by apply last_Some_elem_of in Hx). apply Hlast. by destruct o.
  - exists h'. split; [done|]. rewrite Hd, dom_delete_L. set_solver.
Qed.

(** The destructor frees every node of the list once, whatever was left in it. *)
Lemma Destroy_frees s i node : reachable s → threads s = ∅ → flusher s = F_idle → heap s !! node = None →
  ∃ h, Destroy (S (length (order s))) i node s = Ret h ∧ dom h = dom (heap s) ∖ list_to_set (order s).
Proof.
  intros Hinv%list_reachable_inv Hthr Hf Hnode.
  destruct (Append_alone s i node NB_empty 0) as (s' & b & E & Hinv' & Ht' & Hf' & Ho & Hd & _); [done..|apply NB_empty_inv|].
  unfold Destroy. rewrite E. cbn [obind].
  assert (head_ s' = head (order s')) as ->.
  { pose proof (iv_flush _ Hinv') as Hok. unfold flush_ok in Hok. rewrite Hf', Hf in Hok. apply Hok.
    destruct (iv_started _ Hinv') as [|(j & nd & Hj)]; [rewrite Ho; by destruct (order s)|done|]. by rewrite Ht', lookup_empty in Hj. }
  destruct (destroy_loop_spec (S (length (order s))) (order s') (heap s')) as (h & -> & Hdh).
  - rewrite Ho, length_app. cbn. lia.
  - apply (iv_nodup _ Hinv').
  - intros a c Hac. destruct (iv_chain _ Hinv' a c Hac) as (n & Hn & [|(_ & j & x & Hj & _)]); [by exists n|]. by rewrite Ht', lookup_empty in Hj.
  - apply (iv_last _ Hinv').
  - exists h. split; [done|]. rewrite Hdh, Hd, Ho, list_to_set_app_L. apply not_elem_of_dom in Hnode. set_solver.
Qed.

(** ** [FlushTo], when nobody appends *)

(** How much is appended and not yet given to the socket. *)
Definition backlog s : Z := size_of (concat (fst <$> appended s)) - size_of (sent s).

(** What the flusher remembers of the call: how much it may write, how many contexts
    were returned and how much was to be sent before. *)
Definition tracks (max_bytes : Z) (k0 : nat) (b0 : Z) s : Prop :=
  (k0 ≤ length (completed s))%nat ∧
  match flusher s with
  | F_idle => True
  | F_head m | F_tail m _ | F_gather m _ _ _ _ => m = max_bytes ∧ backlog s = b0
  | F_write _ _ flushing => flushing ≤ max_bytes ∧ backlog s = b0
  | F_rewind _ _ rc flushing | F_skip _ rc flushing => 0 < rc ∧ rc ≤ flushing ∧ flushing ≤ max_bytes ∧ backlog s = b0 - rc
  | F_next _ _ rc flushing | F_cas _ rc flushing | F_spin _ rc flushing | F_store _ _ rc flushing =>
      0 < rc ∧ rc ≤ flushing ∧ flushing ≤ max_bytes ∧ backlog s = b0 - rc ∧ (k0 < length (completed s))%nat
  end.

Lemma revise_le max_bytes iov flushing iov' flushing' : revise max_bytes iov flushing = Ret (iov', flushing') → flushing' ≤ max_bytes.
Proof. unfold revise. destruct (decide _); [destruct (last iov); [|done]|]; intros [= _ <-]; lia. Qed.

Lemma flush_step_tracks max_bytes k0 b0 input s s' r :
  inv s → 0 ≤ max_bytes → tracks max_bytes k0 b0 s → flush_step input s = Some (Ret (s', r)) →
  tracks max_bytes k0 b0 s' ∧
  match r with
  | Some (Flushed rc emptied _) => rc ≤ max_bytes ∧ backlog s' = b0 - Z.max 0 rc ∧ (emptied = true → 0 < rc ∧ (k0 < length (completed s'))%nat)
  | _ => True
  end.
Proof.
  intros Hinv Hm [Hn Ht]. pose proof (iv_flush _ Hinv) as Hok. revert Hok. unfold flush_ok, flush_step, tracks, backlog in *. destruct (flusher s) eqn:Hf; [done|..]; intros Hok.
  - destruct (head_ s); [|done]. by intros [= <- <-].
  - destruct (tail_ s); [|done]. by intros [= <- <-].
  - unfold flush_gather. destruct (heap s !! current); [|done]. cbn [deref obind]. destruct (gather_blocks _ _ _ _) as [iov' fl'].
    destruct (next n); [by intros [= <- <-]|]. destruct (revise _ _ _) as [[iov2 fl2]| | | |] eqn:E; try done. intros [= <- <-]. destruct Ht as [-> Hb]. by apply revise_le in E.
  - unfold flush_write. destruct (decide _); [intros [= <- <-]; cbn; split; [done|]; split; [lia|split; [lia|done]]|]. destruct (decide _); [|done].
    intros [= <- <-]. cbn. destruct Hok as (_ & Hlen & _). rewrite length_app, length_take. split; [|done]. split; [done|]. lia.
  - unfold flush_rewind. destruct (heap s !! current); [|done]. cbn [deref obind]. destruct (decide _).
    + intros [= <- <-]. cbn. rewrite length_app. cbn. split; [|done]. split; [lia|]. repeat split; lia.
    + destruct (Skip _ _); try done. by intros [= <- <-].
  - intros [= <- <-]. cbn. split; [done|]. split; [lia|]. split; [lia|done].
  - unfold flush_next. destruct (heap s !! current); [|done]. cbn [deref obind]. destruct (next _); [|destruct (decide _); [|done]];
      intros [= <- <-]; cbn; (split; [|done]; split; [done|]; repeat split; lia).
  - unfold flush_cas. destruct (decide _); intros [= <- <-]; cbn; [split; [done|]; split; [lia|split; [lia|intros _; split; lia]]|tauto].
  - destruct (heap s !! current) as [n|]; [|done]. destruct (next n); [|done]. by intros [= <- <-].
  - intros [= <- <-]. cbn. split; [done|]. split; [lia|]. split; [lia|done].
Qed.

Lemma flush_step_threads input s s' r : flush_step input s = Some (Ret (s', r)) →
  threads s' = threads s ∧
  match r with None => flusher s' ≠ F_idle | Some (Flushed _ _ _) => flusher s' = F_idle | Some (Appended _) => False end.
Proof.
  unfold flush_step. destruct (flusher s); [done|..].
  - destruct (head_ s); [|done]. by intros [= <- <-].
  - destruct (tail_ s); [|done]. by intros [= <- <-].
  - unfold flush_gather. destruct (heap s !! current); [|done]. cbn [deref obind]. destruct (gather_blocks _ _ _ _) as [iov' fl'].
    destruct (next n); [by intros [= <- <-]|]. destruct (revise _ _ _) as [[? ?]| | | |]; try done. by intros [= <- <-].
  - unfold flush_write. destruct (decide _); [by intros [= <- <-]|]. destruct (decide _); [|done]. by intros [= <- <-].
  - unfold flush_rewind. destruct (heap s !! current); [|done]. cbn [deref obind]. destruct (decide _); [by intros [= <- <-]|].
    destruct (Skip _ _); try done. by intros [= <- <-].
  - by intros [= <- <-].
  - unfold flush_next. destruct (heap s !! current); [|done]. cbn [deref obind]. destruct (next _); [by intros [= <- <-]|].
    destruct (decide _); [|done]. by intros [= <- <-].
  - unfold flush_cas. destruct (decide _); by intros [= <- <-].
  - destruct (heap s !! current) as [n|]; [|done]. destruct (next n); [|done]. by intros [= <- <-].
  - by intros [= <- <-].
Qed.

(** [FlushTo] to its end; [answer] is what [WriteV] would return, if it could write
    that much. *)
Definition answer_of (answer : Z) s : Z := match flusher s with F_write _ _ flushing => Z.min answer flushing | _ => answer end.

Fixpoint flush_run (fuel : nat) (answer : Z) s : outcome (state * result) :=
  match fuel with
  | O => Fuel
  | S fuel' =>
      match flush_step (answer_of answer s) s with
      | None => Fuel
      | Some o => '(s', r) ←! o; match r with Some r' => Ret (s', r') | None => flush_run fuel' answer s' end
      end
  end.

Definition FlushTo (max_bytes answer : Z) s : outcome (state * result) := flush_run (3 * length (order s) + 8) answer (set_flusher (F_head max_bytes) s).

Lemma flush_run_spec fuel : ∀ answer max_bytes k0 b0 s,
  inv s → threads s = ∅ → flusher s ≠ F_idle → (steps_left s < fuel)%nat → 0 ≤ max_bytes → tracks max_bytes k0 b0 s →
  ∃ s' rc emptied short_write, flush_run fuel answer s = Ret (s', Flushed rc emptied short_write) ∧ inv s' ∧ threads s' = ∅ ∧ flusher s' = F_idle ∧
    rc ≤ max_bytes ∧ backlog s' = b0 - Z.max 0 rc ∧ writing s' = negb emptied ∧
    (emptied = true → short_write = false ∧ 0 < rc ∧ (k0 < length (completed s'))%nat).
Proof.
  induction fuel as [|fuel IH]; intros answer max_bytes k0 b0 s Hinv Hthr Hne Hfuel Hm Htr; [lia|]. cbn [flush_run].
  destruct (flush_step (answer_of answer s) s) as [o|] eqn:E.
  2:{ exfalso. destruct (list_stuck_spin s _ Hinv Hne E) as (c & rc & fl & n & Hf & Hn & Hnx). pose proof (iv_flush _ Hinv) as Hok. unfold flush_ok in Hok.
      rewrite Hf in Hok. destruct Hok as [(x & o & Ho) _]. destruct (iv_chain _ Hinv c x) as (n' & Hn' & [|(_ & i & y & Hi & _)]); [rewrite Ho; by exists 0%nat|congruence|].
      by rewrite Hthr, lookup_empty in Hi. }
  destruct (flush_step_inv s (answer_of answer s) o Hinv) as (s' & r & -> & Hinv' & Hres); [unfold legal, answer_of; destruct (flusher s); done || lia|done|].
  cbn [obind]. pose proof (flush_steps _ _ _ _ Hinv E) as Hdec. destruct (flush_step_threads _ _ _ _ E) as [Hthr' Hfl].
  destruct (flush_step_tracks max_bytes k0 b0 _ _ _ _ Hinv Hm Htr E) as [Htr' Hr]. destruct r as [[started|rc emptied short]|]; [done|..].
  - destruct Hres as (_ & Hw & He). destruct Hr as (Hrc & Hbl & Hk). eexists _, _, _, _. split; [done|]. split; [done|]. split; [by rewrite Hthr'|].
    split; [done|]. split; [done|]. split; [done|]. split; [done|]. intros He'. split; [by apply He|by apply Hk].
  - apply IH; [done|by rewrite Hthr'|done|lia|done|done].
Qed.

(** A list that a thread was told to write out, and nobody is in. *)
Record quiet s : Prop := { qu_inv : inv s; qu_threads : threads s = ∅; qu_flusher : flusher s = F_idle }.

(** Called by who was told to write, [FlushTo] writes at most what it was asked to,
    and has emptied the list only if it wrote all it had gathered and returned the
    context of a buffer. *)
Lemma FlushTo_spec max_bytes answer s :
  quiet s → writing s = true → 0 ≤ max_bytes →
  ∃ s' rc emptied short_write, FlushTo max_bytes answer s = Ret (s', Flushed rc emptied short_write) ∧
    quiet s' ∧ rc ≤ max_bytes ∧ backlog s' = backlog s - Z.max 0 rc ∧ writing s' = negb emptied ∧
    (emptied = true → short_write = false ∧ 0 < rc ∧ (length (completed s) < length (completed s'))%nat).
Proof.
  intros [Hinv Hthr Hf] Hw Hm. unfold FlushTo.
  destruct (list_step_inv (Call_FlushTo max_bytes) s (goto (F_head max_bytes) s) Hinv Hm) as (s0 & r & [= <- <-] & Hinv0 & _); [cbn; by rewrite Hf, Hw|].
  destruct (flush_run_spec (3 * length (order s) + 8) answer max_bytes (length (completed s)) (backlog s) (set_flusher (F_head max_bytes) s))
    as (s' & rc & emptied & short & -> & Hinv' & Ht' & Hf' & Hrest); [done..|cbn; lia|done|by split|].
  eexists _, _, _, _. split; [done|]. by split.
Qed.

(** *** Two threads append, and the flusher meets the gap between their nodes *)

#[global] Instance legal_dec e s : Decision (legal e s).
Proof. destruct e; cbn; try apply _. destruct (flusher s); apply _. Defined.

Definition stepped_legal (e : event) s : option state :=
  if decide (legal e s) then match step e s with Some (Ret (s', _)) => Some s' | _ => None end else None.

Lemma WritingBufferList_run_reachable es s : reachable s → reachable (default s (run_steps stepped_legal es s)).
Proof.
  apply run_steps_ind. intros e s1 s2 Hr Hs. unfold stepped_legal in Hs. case_decide as Hle; [|done].
  destruct (step e s1) as [[[s' r]| | | |]|] eqn:E; try done. injection Hs as <-. by apply (Reach_step e s1 s' r).
Qed.

Definition gap : state :=
  default WritingBufferList_new (run_steps stepped_legal
    ([Call_Append 0 10 split_nb 1; Go_append 0; Go_append 0; Call_Append 1 11 split_nb 2; Go_append 1; Call_FlushTo 100]%nat
      ++ replicate 7 (Go_flush 12)) WritingBufferList_new).
Definition nearly_empty : state :=
  default gap (run_steps stepped_legal
    ([Go_append 1; Go_append 1; Go_flush 0; Go_flush 0; Call_FlushTo 100]%nat ++ replicate 6 (Go_flush 12)) gap).

Lemma gap_reachable : reachable gap.
Proof. apply WritingBufferList_run_reachable, Reach_new. Qed.
Lemma nearly_empty_reachable : reachable nearly_empty.
Proof. apply WritingBufferList_run_reachable, gap_reachable. Qed.

Lemma WritingBufferList_fifo_witness :
  flusher nearly_empty = F_cas 11 12 12 ∧
  ∃ s' r, step (Go_flush 0) nearly_empty = Some (Ret (s', r)) ∧ r = Some (Flushed 12 true false)
    ∧ sent s' = contents split_nb ++ contents split_nb ∧ completed s' = [1; 2].
Proof.
  split; [vm_compute; reflexivity|].
  destruct (WritingBufferList_fifo nearly_empty (Go_flush 0) (flush_cas 11 12 12 nearly_empty) nearly_empty_reachable)
    as (s' & r & E & _); [vm_compute; reflexivity..|].
  exists s', r. vm_compute in E. injection E as <- <-. vm_compute. auto.
Defined.

Lemma WritingBufferList_progress_witness :
  flusher gap = F_spin 10 12 12 ∧ step (Go_flush 0) gap = None ∧
  ∃ current rc flushing i x node, flusher gap = F_spin current rc flushing ∧ threads gap !! i = Some x ∧ links x current node.
Proof.
  split; [vm_compute; reflexivity|]. split; [vm_compute; reflexivity|].
  apply (WritingBufferList_progress gap gap_reachable) with (input := 0); vm_compute; congruence.
Defined.
End WritingBufferList.
