(* ===== verification/HttpHeaders.v ===== *)
(** * Header fields: flare/net/http/http_headers.{h,cc}

    The fields of a message are a sequence, in which a name may occur more than
    once and the order matters; for lookup there is an index, a
    [CaseInsensitiveHashMap] (flare/base/internal/case_insensitive_hash_map.h)
    from a name to the position of the first field with that name.  The storage
    the string views refer to ([header_block_], [owning_strs_2_]) only grows
    while fields refer to it, so a view is modelled by its characters.

    [Headers_refines] says that the index always agrees with the sequence: all
    operations behave as operations on the plain list of fields. *)

From Stdlib Require Import Ascii.
From S2P Require Import Prelude Regex FlareString FlareHashMap.

(** ** Keys that ignore case *)

(** [hash += ((hash << 5) + hash) + ToLower(c)], on [uint64_t]. *)
Definition djb_step (hash : Z) (c : ascii) : Z :=
  u64 (hash + (u64 (u64 (Z.shiftl hash 5) + hash) + Z.of_nat (nat_of_ascii c))).

Fixpoint CaseInsensitiveHash_loop (hash : Z) (s : chars) : outcome Z :=
  match s with
  | [] => Ret hash
  | c :: s' => l ←! ToLower c; CaseInsensitiveHash_loop (djb_step hash l) s'
  end.

Definition CaseInsensitiveHash (s : chars) : outcome Z := CaseInsensitiveHash_loop 5381 s.

(** The loop is that of [IEquals]. *)
Definition CaseInsensitiveEqualTo (x y : chars) : outcome bool :=
  if decide (length x = length y) then IEquals_loop x y else Ret false.

(** What the two compute when all characters are in range.  Every operation of
    the map begins by hashing its key, see [keyed], so the map never holds or
    compares any other key. *)
#[export] Instance ci_key : HashKey chars := {
  H s := foldl djb_step 5381 (lower <$> s);
  E x y := bool_decide (lower <$> x = lower <$> y);
}.

Definition keyed {A} (key : chars) (m : outcome A) : outcome A :=
  _ ←! CaseInsensitiveHash key; m.

(** ** The fields *)

Notation field := (chars * chars)%type (only parsing).

Record HttpHeaders := mkHttpHeaders {
  header_idx_ : HashMap chars nat;
  fields_ : list field;
}.

Definition HttpHeaders_new : outcome HttpHeaders :=
  idx ←! HashMap_default; Ret (mkHttpHeaders idx []).

Definition Headers_contains (h : HttpHeaders) (key : chars) : outcome bool :=
  keyed key (contains (header_idx_ h) key).

Definition Headers_TryGet (h : HttpHeaders) (key : chars) : outcome (option chars) :=
  idx_opt ←! keyed key (TryGet (header_idx_ h) key);
  match idx_opt with
  | Some i => f ←! deref (fields_ h !! i); Ret (Some f.2)
  | None => Ret None
  end.

Definition Headers_clear (h : HttpHeaders) : HttpHeaders :=
  mkHttpHeaders (clear (header_idx_ h)) [].

Fixpoint TryGetMultiple_loop (key : chars) (fs : list field) : outcome (list chars) :=
  match fs with
  | [] => Ret []
  | (k, v) :: fs' =>
      e ←! CaseInsensitiveEqualTo k key;
      values ←! TryGetMultiple_loop key fs';
      Ret (if e : bool then v :: values else values)
  end.

Definition TryGetMultiple (h : HttpHeaders) (key : chars) : outcome (list chars) :=
  TryGetMultiple_loop key (fields_ h).

(** [if (!header_idx_.contains(k)) header_idx_[k] = i;] *)
Definition index_field (idx : HashMap chars nat) (k : chars) (i : nat) : outcome (HashMap chars nat) :=
  c ←! keyed k (contains idx k);
  if c : bool then Ret idx else keyed k (insert_or_assign idx k i).

Definition Append (h : HttpHeaders) (key value : chars) : outcome HttpHeaders :=
  if negb (bool_decide (Trim key = key)) then Abort
  else if negb (bool_decide (Trim value = value)) then Abort
  else
    idx ←! index_field (header_idx_ h) key (length (fields_ h));
    Ret (mkHttpHeaders idx (fields_ h ++ [(key, value)])).

Fixpoint Append_all (h : HttpHeaders) (fs : list field) : outcome HttpHeaders :=
  match fs with
  | [] => Ret h
  | (k, v) :: fs' => h' ←! Append h k v; Append_all h' fs'
  end.

Definition Headers_Set (h : HttpHeaders) (key value : chars) : outcome HttpHeaders :=
  if negb (bool_decide (Trim key = key)) then Abort
  else if negb (bool_decide (Trim value = value)) then Abort
  else
    idx_opt ←! keyed key (TryGet (header_idx_ h) key);
    match idx_opt with
    | None => Append h key value
    | Some i =>
        f ←! deref (fields_ h !! i);
        Ret (mkHttpHeaders (header_idx_ h) (<[i := (f.1, value)]> (fields_ h)))
    end.

(** The copy constructor. *)
Definition HttpHeaders_copy (other : HttpHeaders) : outcome HttpHeaders :=
  h ←! HttpHeaders_new; Append_all h (fields_ other).

(** The loop of [Remove]: [kept] are the fields before [it], of which there are [i]. *)
Fixpoint Remove_loop (key : chars) (idx : HashMap chars nat) (i : nat) (kept rest : list field) :
    outcome HttpHeaders :=
  match rest with
  | [] => Ret (mkHttpHeaders idx kept)
  | f :: rest' =>
      e ←! CaseInsensitiveEqualTo f.1 key;
      if e : bool then Remove_loop key idx i kept rest'
      else
        idx' ←! index_field idx f.1 i;
        Remove_loop key idx' (S i) (kept ++ [f]) rest'
  end.

Definition Remove (h : HttpHeaders) (key : chars) : outcome (bool * HttpHeaders) :=
  o ←! Headers_TryGet h key;
  match o with
  | None => Ret (false, h)
  | Some _ =>
      h' ←! Remove_loop key (clear (header_idx_ h)) 0 [] (fields_ h);
      Ret (true, h')
  end.

Definition Headers_ToString (h : HttpHeaders) : chars :=
  concat ((λ f : field, f.1 ++ chars_of ": " ++ f.2 ++ ["013"; "010"]%char) <$> fields_ h).

(** [RetrieveHeaderStorage] drops the old storage, so that the old fields must
    not be used any more; [RetrieveFields] replaces them. *)
Definition RetrieveHeaderStorage (h : HttpHeaders) : HttpHeaders :=
  mkHttpHeaders (clear (header_idx_ h)) (fields_ h).

Fixpoint RetrieveFields_loop (idx : HashMap chars nat) (index : nat) (fs : list field) :
    outcome (HashMap chars nat) :=
  match fs with
  | [] => Ret idx
  | f :: fs' => idx' ←! index_field idx f.1 index; RetrieveFields_loop idx' (S index) fs'
  end.

Definition RetrieveFields (h : HttpHeaders) (fields : list field) : outcome HttpHeaders :=
  idx ←! RetrieveFields_loop (header_idx_ h) 0 fields;
  Ret (mkHttpHeaders idx fields).

(** ** Lemmas on keys *)

#[export] Instance ci_key_spec : HashKeySpec chars.
Proof.
  split; simpl.
  - intros x. by apply bool_decide_eq_true_2.
  - intros x y. rewrite !bool_decide_eq_true. done.
  - intros x y z. rewrite !bool_decide_eq_true. congruence.
  - intros x y. rewrite bool_decide_eq_true. by intros ->.
  - intros x. destruct (lower <$> x) as [|c s] using rev_ind; [simpl; lia|].
    rewrite foldl_snoc. apply u64_range.
Qed.

Lemma Hash_ascii s : all_ascii s → CaseInsensitiveHash s = Ret (H s).
Proof.
  unfold CaseInsensitiveHash. simpl. generalize 5381. intros h Hs. revert h.
  induction Hs as [|c s Hc _ IH]; intros h; [done|]. cbn [CaseInsensitiveHash_loop].
  rewrite ToLower_ascii by done. cbn [obind]. by rewrite IH.
Qed.

(** A name with a character that is not ASCII reads outside of the table. *)
Lemma Hash_undef s : ¬ all_ascii s → CaseInsensitiveHash s = Undef.
Proof.
  unfold CaseInsensitiveHash. generalize 5381. induction s as [|c s IH]; intros h Hs.
  { destruct Hs. constructor. }
  cbn [CaseInsensitiveHash_loop]. destruct (decide (is_ascii c)) as [Hc|Hc].
  - rewrite ToLower_ascii by done. cbn [obind]. apply IH. intros Hs'. apply Hs. by constructor.
  - by rewrite (proj1 (ToLower_undef c Hc)).
Qed.

Lemma keyed_ascii {A} key (m : outcome A) : all_ascii key → keyed key m = m.
Proof. intros Hk. unfold keyed. by rewrite Hash_ascii. Qed.

Lemma EqualTo_ascii x y : all_ascii x → all_ascii y → CaseInsensitiveEqualTo x y = Ret (E x y).
Proof. apply IEquals_spec. Qed.

(** ** The index agrees with the fields *)

(** The position of the first field with the name [k]. *)
Definition first_index (k : chars) (fs : list field) : option nat :=
  fst <$> list_find (λ f, E f.1 k = true) fs.

Record idx_rep (idx : HashMap chars nat) (fs : list field) : Prop := {
  ir_inv : hm_inv idx;
  ir_cap : size_ idx ≤ capacity_ idx;
  ir_size : size_ idx ≤ Z.of_nat (length fs);
  ir_ascii : Forall (λ f, all_ascii f.1) fs;
  ir_assoc k : assoc k (entries idx) = first_index k fs;
}.

Definition hd_inv (h : HttpHeaders) : Prop := idx_rep (header_idx_ h) (fields_ h).

Lemma first_index_snoc k fs f :
  first_index k (fs ++ [f]) =
  match first_index k fs with
  | Some i => Some i
  | None => if E f.1 k then Some (length fs) else None
  end.
Proof.
  unfold first_index. destruct (list_find (λ f, E f.1 k = true) fs) as [[i x]|] eqn:Ef.
  - by rewrite (list_find_app_l _ _ _ _ _ Ef).
  - rewrite list_find_app_r by done. cbn [list_find].
    destruct (decide (E f.1 k = true)) as [->|Hn]; cbn [fmap option_fmap option_map prod_map fst].
    + cbn. done.
    + by rewrite (not_true_is_false _ Hn).
Qed.

Lemma first_index_proper k1 k2 fs : E k1 k2 = true → first_index k1 fs = first_index k2 fs.
Proof.
  intros Hk. unfold first_index. f_equal. apply list_find_ext. intros f.
  rewrite (E_comm f.1 k1), (E_comm f.1 k2). by rewrite (E_eq_l k1 k2 f.1 Hk).
Qed.

Lemma index_field_spec idx fs f :
  idx_rep idx fs → all_ascii f.1 → Z.of_nat (length fs) < 2 ^ 60 →
  ∃ idx', index_field idx f.1 (length fs) = Ret idx' ∧ idx_rep idx' (fs ++ [f]).
Proof.
  intros [Hinv Hcap Hsz Hasc Ha] Hk Hlen. unfold index_field. rewrite !keyed_ascii by done.
  rewrite contains_spec, Ha by done. cbn [obind].
  assert (Hasc' : Forall (λ f, all_ascii f.1) (fs ++ [f])) by (apply Forall_app; auto).
  destruct (first_index f.1 fs) as [i|] eqn:Ei.
  - rewrite bool_decide_eq_true_2 by done. exists idx. split; [done|]. split; auto.
    + rewrite length_app. simpl. lia.
    + intros k. rewrite first_index_snoc, Ha. destruct (first_index k fs) eqn:Ek; [done|].
      destruct (E f.1 k) eqn:Ef; [|done]. rewrite (first_index_proper _ _ fs Ef) in Ei. congruence.
  - rewrite bool_decide_eq_false_2 by (by intros []).
    destruct (insert_or_assign_spec idx f.1 (length fs) Hinv ltac:(lia) Hcap) as (idx' & -> & Hinv' & Ha' & Hs' & Hc').
    rewrite Ha, Ei in Hs'. exists idx'. split; [done|]. split; auto.
    + rewrite length_app. simpl. lia.
    + intros k. rewrite first_index_snoc, Ha', Ha. destruct (E f.1 k) eqn:Ef; [|by destruct (first_index k fs)].
      by rewrite <-(first_index_proper _ _ fs Ef), Ei.
Qed.

Lemma idx_clear idx : hm_inv idx → idx_rep (clear idx) [].
Proof.
  intros Hinv. destruct (clear_spec idx Hinv) as (? & He & Hs & Hc). pose proof (cap_pos _ Hinv).
  split; auto; [lia|simpl; lia|]. intros k. by rewrite He.
Qed.

Lemma RetrieveFields_loop_spec idx fs rest :
  idx_rep idx fs → Forall (λ f, all_ascii f.1) rest → Z.of_nat (length fs + length rest) ≤ 2 ^ 60 →
  ∃ idx', RetrieveFields_loop idx (length fs) rest = Ret idx' ∧ idx_rep idx' (fs ++ rest).
Proof.
  intros Hidx Hrest. revert idx fs Hidx. induction Hrest as [|f rest Hf _ IH]; intros idx fs Hidx Hlen.
  { exists idx. by rewrite app_nil_r. }
  cbn [RetrieveFields_loop length] in *.
  destruct (index_field_spec idx fs f Hidx Hf ltac:(lia)) as (idx1 & -> & Hidx1). cbn [obind].
  destruct (IH idx1 (fs ++ [f]) Hidx1) as (idx2 & He & Hidx2); [rewrite length_app; simpl; lia|].
  exists idx2. rewrite length_app, Nat.add_1_r in He. rewrite <-app_assoc in Hidx2. done.
Qed.

Lemma Remove_loop_spec key idx kept rest :
  all_ascii key → idx_rep idx kept → Forall (λ f, all_ascii f.1) rest →
  Z.of_nat (length kept + length rest) ≤ 2 ^ 60 →
  ∃ h', Remove_loop key idx (length kept) kept rest = Ret h' ∧ hd_inv h' ∧
    fields_ h' = kept ++ filter (λ f, E f.1 key = false) rest.
Proof.
  intros Hkey Hidx Hrest. revert idx kept Hidx. induction Hrest as [|f rest Hf _ IH]; intros idx kept Hidx Hlen.
  { eexists. split; [done|]. by rewrite app_nil_r. }
  cbn [Remove_loop length] in *. rewrite EqualTo_ascii by done. cbn [obind].
  destruct (E f.1 key) eqn:Ef.
  - rewrite filter_cons_False by congruence. apply IH; auto. lia.
  - destruct (index_field_spec idx kept f Hidx Hf ltac:(lia)) as (idx1 & -> & Hidx1). cbn [obind].
    destruct (IH idx1 (kept ++ [f]) Hidx1) as (h' & He & Hinv & Hfs); [rewrite length_app; simpl; lia|].
    rewrite length_app, Nat.add_1_r in He. exists h'. split_and!; [done|done|].
    by rewrite Hfs, filter_cons_True, <-app_assoc by done.
Qed.

Lemma TryGetMultiple_loop_spec key fs :
  all_ascii key → Forall (λ f, all_ascii f.1) fs →
  TryGetMultiple_loop key fs = Ret (snd <$> filter (λ f, E f.1 key = true) fs).
Proof.
  intros Hkey. induction 1 as [|[k v] fs Hk _ IH]; [done|]. cbn [TryGetMultiple_loop].
  rewrite EqualTo_ascii, IH by done. cbn [obind]. rewrite filter_cons.
  destruct (decide (E (k, v).1 key = true)) as [Hd|Hd]; cbn [fst] in Hd.
  - by rewrite Hd.
  - by rewrite (not_true_is_false _ Hd).
Qed.

(** ** The list of fields as the specification *)

Inductive header_op :=
  | Op_Append (key value : chars) | Op_Set (key value : chars) | Op_Remove (key : chars)
  | Op_TryGet (key : chars) | Op_TryGetMultiple (key : chars) | Op_contains (key : chars)
  | Op_clear | Op_parsed (fs : list field).

Inductive header_res := RUnit | RBool (c : bool) | RValue (o : option chars) | RValues (vs : list chars).

Definition run_header_op (op : header_op) (h : HttpHeaders) : outcome (header_res * HttpHeaders) :=
  match op with
  | Op_Append k v => h' ←! Append h k v; Ret (RUnit, h')
  | Op_Set k v => h' ←! Headers_Set h k v; Ret (RUnit, h')
  | Op_Remove k => '(c, h') ←! Remove h k; Ret (RBool c, h')
  | Op_TryGet k => o ←! Headers_TryGet h k; Ret (RValue o, h)
  | Op_TryGetMultiple k => vs ←! TryGetMultiple h k; Ret (RValues vs, h)
  | Op_contains k => c ←! Headers_contains h k; Ret (RBool c, h)
  | Op_clear => Ret (RUnit, Headers_clear h)
  | Op_parsed fs => h' ←! RetrieveFields (RetrieveHeaderStorage h) fs; Ret (RUnit, h')
  end.

(** The first field of a name is the one that is read and overwritten. *)
Definition same_name (k : chars) (f : field) : Prop := lower <$> f.1 = lower <$> k.

#[export] Instance same_name_dec k f : Decision (same_name k f).
Proof. unfold same_name. apply _. Defined.

Fixpoint set_first (k v : chars) (fs : list field) : list field :=
  match fs with
  | [] => [(k, v)]
  | f :: fs' => if decide (same_name k f) then (f.1, v) :: fs' else f :: set_first k v fs'
  end.

Definition spec_header_op (op : header_op) (fs : list field) : header_res * list field :=
  match op with
  | Op_Append k v => (RUnit, fs ++ [(k, v)])
  | Op_Set k v => (RUnit, set_first k v fs)
  | Op_Remove k => (RBool (bool_decide (Exists (same_name k) fs)), filter (λ f, ¬ same_name k f) fs)
  | Op_TryGet k => (RValue (snd <$> head (filter (same_name k) fs)), fs)
  | Op_TryGetMultiple k => (RValues (snd <$> filter (same_name k) fs), fs)
  | Op_contains k => (RBool (bool_decide (Exists (same_name k) fs)), fs)
  | Op_clear => (RUnit, [])
  | Op_parsed fs' => (RUnit, fs')
  end.

(** Names are ASCII; what is added is trimmed. *)
Definition header_op_ok (op : header_op) : Prop :=
  match op with
  | Op_Append k v | Op_Set k v => all_ascii k ∧ Trim k = k ∧ Trim v = v
  | Op_Remove k | Op_TryGet k | Op_TryGetMultiple k | Op_contains k => all_ascii k
  | Op_clear => True
  | Op_parsed fs => Forall (λ f, all_ascii f.1) fs
  end.

Definition op_fields (op : header_op) : nat :=
  match op with Op_Append _ _ | Op_Set _ _ => 1 | Op_parsed fs => length fs | _ => 0 end.

Fixpoint run_header_ops (ops : list header_op) (h : HttpHeaders) : outcome (list header_res * HttpHeaders) :=
  match ops with
  | [] => Ret ([], h)
  | op :: ops' =>
      '(r, h1) ←! run_header_op op h;
      '(rs, h2) ←! run_header_ops ops' h1;
      Ret (r :: rs, h2)
  end.

Fixpoint spec_header_ops (ops : list header_op) (fs : list field) : list header_res * list field :=
  match ops with
  | [] => ([], fs)
  | op :: ops' =>
      let '(r, fs1) := spec_header_op op fs in
      let '(rs, fs2) := spec_header_ops ops' fs1 in
      (r :: rs, fs2)
  end.

(** *** What the index says of the list *)

Lemma E_same k f : E f.1 k = true ↔ same_name k f.
Proof. apply bool_decide_eq_true. Qed.

Lemma first_index_cons k f fs :
  first_index k (f :: fs) = if decide (same_name k f) then Some 0%nat else S <$> first_index k fs.
Proof.
  unfold first_index. cbn [list_find]. pose proof (E_same k f) as He.
  destruct (decide (E f.1 k = true)), (decide (same_name k f)); try tauto;
    destruct (list_find (λ f, E f.1 k = true) fs) as [[]|]; done.
Qed.

Lemma first_index_value k fs :
  (i ← first_index k fs; f ← fs !! i; Some f.2) = (snd <$> head (filter (same_name k) fs)).
Proof.
  induction fs as [|f fs IH]; [done|]. rewrite first_index_cons, filter_cons.
  destruct (decide (same_name k f)); [done|]. rewrite <-IH. by destruct (first_index k fs).
Qed.

Lemma first_index_lookup k fs i : first_index k fs = Some i → is_Some (fs !! i).
Proof.
  revert i. induction fs as [|f fs IH]; intros i; [done|]. rewrite first_index_cons.
  destruct (decide _); [intros [= <-]; simpl; eauto|].
  destruct (first_index k fs); [|done]. intros [= <-]. simpl. auto.
Qed.

Lemma first_index_set k v fs :
  set_first k v fs =
  match first_index k fs with
  | Some i => match fs !! i with Some f => <[i := (f.1, v)]> fs | None => fs end
  | None => fs ++ [(k, v)]
  end.
Proof.
  induction fs as [|f fs IH]; [done|]. rewrite first_index_cons. cbn [set_first].
  destruct (decide _); [done|]. rewrite IH. destruct (first_index k fs) as [i|]; [|done].
  simpl. by destruct (fs !! i).
Qed.

Lemma first_index_Exists k fs : is_Some (first_index k fs) ↔ Exists (same_name k) fs.
Proof.
  induction fs as [|f fs IH].
  - rewrite Exists_nil. split; [by intros []|done].
  - rewrite first_index_cons, Exists_cons, <-IH. destruct (decide (same_name k f)).
    + split; eauto.
    + rewrite fmap_is_Some. naive_solver.
Qed.

(** Overwriting a value does not change where names are. *)
Lemma first_index_insert k fs i f v :
  fs !! i = Some f → first_index k (<[i := (f.1, v)]> fs) = first_index k fs.
Proof.
  revert i. induction fs as [|g fs IH]; intros [|i] Hi; try done; simplify_eq/=.
  - by rewrite !first_index_cons.
  - by rewrite !first_index_cons, IH.
Qed.

(** *** Each operation *)

Lemma Append_effect h k v :
  hd_inv h → all_ascii k → Trim k = k → Trim v = v → Z.of_nat (length (fields_ h)) < 2 ^ 60 →
  ∃ h', Append h k v = Ret h' ∧ hd_inv h' ∧ fields_ h' = fields_ h ++ [(k, v)].
Proof.
  intros Hinv Hk Htk Htv Hlen. unfold Append. rewrite !bool_decide_eq_true_2 by done. cbn [negb].
  destruct (index_field_spec _ _ (k, v) Hinv Hk Hlen) as (idx & He & Hidx). cbn [fst] in He. rewrite He.
  eexists. split; [done|]. by split.
Qed.

Lemma Headers_TryGet_effect h k :
  hd_inv h → all_ascii k →
  Headers_TryGet h k = Ret (snd <$> head (filter (same_name k) (fields_ h))).
Proof.
  intros Hinv Hk. unfold Headers_TryGet. rewrite keyed_ascii by done.
  rewrite (TryGet_spec _ k (ir_inv _ _ Hinv)), (ir_assoc _ _ Hinv). cbn [obind].
  rewrite <-first_index_value. destruct (first_index k (fields_ h)) as [i|] eqn:Ei; [|done].
  destruct (first_index_lookup _ _ _ Ei) as [f Hf]. cbn [mbind option_bind]. by rewrite !Hf.
Qed.

Lemma Headers_contains_effect h k :
  hd_inv h → all_ascii k →
  Headers_contains h k = Ret (bool_decide (Exists (same_name k) (fields_ h))).
Proof.
  intros Hinv Hk. unfold Headers_contains. rewrite keyed_ascii, contains_spec, (ir_assoc _ _ Hinv) by apply Hinv || done.
  f_equal. apply bool_decide_ext, first_index_Exists.
Qed.

Lemma Headers_Set_effect h k v :
  hd_inv h → all_ascii k → Trim k = k → Trim v = v → Z.of_nat (length (fields_ h)) < 2 ^ 60 →
  ∃ h', Headers_Set h k v = Ret h' ∧ hd_inv h' ∧ fields_ h' = set_first k v (fields_ h).
Proof.
  intros Hinv Hk Htk Htv Hlen. unfold Headers_Set. rewrite !bool_decide_eq_true_2, keyed_ascii by done. cbn [negb].
  rewrite (TryGet_spec _ k (ir_inv _ _ Hinv)), (ir_assoc _ _ Hinv), first_index_set. cbn [obind].
  destruct (first_index k (fields_ h)) as [i|] eqn:Ei; [|by apply Append_effect].
  destruct (first_index_lookup _ _ _ Ei) as [f Hf]. rewrite Hf. cbn [deref obind].
  eexists. split_and!; [done| |done]. destruct Hinv as [Hi Hc Hs Ha Has]. split; auto; simpl.
  - by rewrite length_insert.
  - apply Forall_insert; [done|]. simpl. rewrite Forall_lookup in Ha. by apply (Ha i).
  - intros k'. by rewrite Has, first_index_insert.
Qed.

Lemma Remove_effect h k :
  hd_inv h → all_ascii k → Z.of_nat (length (fields_ h)) ≤ 2 ^ 60 →
  ∃ h', Remove h k = Ret (bool_decide (Exists (same_name k) (fields_ h)), h') ∧ hd_inv h' ∧
    fields_ h' = filter (λ f, ¬ same_name k f) (fields_ h).
Proof.
  intros Hinv Hk Hlen. unfold Remove. rewrite Headers_TryGet_effect by done. cbn [obind].
  destruct (filter (same_name k) (fields_ h)) as [|f fs] eqn:Ef.
  - assert (Hno : Forall (λ f, ¬ same_name k f) (fields_ h)).
    { apply Forall_forall. intros g Hg Hs. assert (Hin : g ∈ filter (same_name k) (fields_ h)) by (by apply list_elem_of_filter).
      rewrite Ef in Hin. by apply elem_of_nil in Hin. }
    exists h. simpl. split_and!; [|done|by rewrite filter_all].
    rewrite bool_decide_eq_false_2; [done|]. by apply Forall_not_Exists.
  - destruct (Remove_loop_spec k (clear (header_idx_ h)) [] (fields_ h) Hk) as (h' & He & Hinv' & Hfs).
    + apply idx_clear, Hinv.
    + apply Hinv.
    + simpl. lia.
    + simpl in He |- *. rewrite He. cbn [obind]. exists h'. split_and!; [|done|].
      * rewrite bool_decide_eq_true_2; [done|]. apply Exists_exists. exists f.
        assert (Hin : f ∈ filter (same_name k) (fields_ h)) by (rewrite Ef; by left).
        apply list_elem_of_filter in Hin as [? ?]. done.
      * rewrite Hfs. simpl. apply filter_ext_Forall, Forall_forall. intros g _. by rewrite <-E_same, not_true_iff_false.
Qed.

Lemma RetrieveFields_effect h fs :
  hd_inv h → Forall (λ f, all_ascii f.1) fs → Z.of_nat (length fs) ≤ 2 ^ 60 →
  ∃ h', RetrieveFields (RetrieveHeaderStorage h) fs = Ret h' ∧ hd_inv h' ∧ fields_ h' = fs.
Proof.
  intros Hinv Hfs Hlen. unfold RetrieveFields.
  destruct (RetrieveFields_loop_spec _ [] fs (idx_clear _ (ir_inv _ _ Hinv)) Hfs) as (idx & He & Hidx); [simpl; lia|].
  simpl in He |- *. rewrite He. eexists. split; [done|]. by split.
Qed.

Lemma run_header_op_effect op h :
  hd_inv h → header_op_ok op → Z.of_nat (length (fields_ h) + op_fields op) ≤ 2 ^ 60 →
  ∃ h', run_header_op op h = Ret ((spec_header_op op (fields_ h)).1, h') ∧ hd_inv h' ∧
    fields_ h' = (spec_header_op op (fields_ h)).2.
Proof.
  intros Hinv Hok Hlen. destruct op as [k v|k v|k|k|k|k| |fs]; cbn [run_header_op spec_header_op op_fields header_op_ok] in *.
  - destruct Hok as (? & ? & ?). destruct (Append_effect h k v) as (h' & -> & ?); auto; [lia|]. by exists h'.
  - destruct Hok as (? & ? & ?). destruct (Headers_Set_effect h k v) as (h' & -> & ?); auto; [lia|]. by exists h'.
  - destruct (Remove_effect h k) as (h' & -> & ?); auto; [lia|]. by exists h'.
  - rewrite Headers_TryGet_effect by done. by exists h.
  - unfold TryGetMultiple. rewrite TryGetMultiple_loop_spec by (done || apply Hinv). exists h. split_and!; [|done|done].
    cbn [obind fst]. do 4 f_equal. apply filter_ext_Forall, Forall_forall. intros f _. apply E_same.
  - rewrite Headers_contains_effect by done. by exists h.
  - eexists. split_and!; [done| |done]. apply idx_clear, Hinv.
  - destruct (RetrieveFields_effect h fs) as (h' & -> & ?); auto; [lia|]. by exists h'.
Qed.

Lemma spec_header_op_length op fs :
  (length (spec_header_op op fs).2 ≤ length fs + op_fields op)%nat.
Proof.
  destruct op as [k v|k v|k|k|k|k| |fs']; cbn; rewrite ?length_app; simpl; try lia.
  - induction fs as [|f fs IH]; simpl; [lia|]. destruct (decide _); simpl; lia.
  - pose proof (length_filter (λ f, ¬ same_name k f) fs). lia.
Qed.

Lemma run_header_ops_effect ops h :
  hd_inv h → Forall header_op_ok ops →
  Z.of_nat (length (fields_ h) + sum_list (op_fields <$> ops)) ≤ 2 ^ 60 →
  ∃ h', run_header_ops ops h = Ret ((spec_header_ops ops (fields_ h)).1, h') ∧ hd_inv h' ∧
    fields_ h' = (spec_header_ops ops (fields_ h)).2.
Proof.
  intros Hinv Hok. revert h Hinv. induction Hok as [|op ops Hop _ IH]; intros h Hinv Hlen; [by exists h|].
  cbn [run_header_ops spec_header_ops]. csimpl in Hlen.
  destruct (run_header_op_effect op h Hinv Hop ltac:(lia)) as (h1 & -> & Hinv1 & Hf1). cbn [obind].
  pose proof (spec_header_op_length op (fields_ h)) as Hl.
  destruct (spec_header_op op (fields_ h)) as [r fs1]. simpl in Hf1, Hl |- *. subst fs1.
  destruct (IH h1 Hinv1 ltac:(lia)) as (h2 & -> & Hinv2 & Hf2). cbn [obind].
  destruct (spec_header_ops ops (fields_ h1)) as [rs fs2]. by exists h2.
Qed.

Lemma HttpHeaders_new_inv : ∃ h, HttpHeaders_new = Ret h ∧ hd_inv h ∧ fields_ h = [].
Proof.
  unfold HttpHeaders_new. destruct (HashMap_default_rep (K:=chars) (V:=nat)) as (m & -> & [Hi Hc Hf Hs] & Hz).
  eexists. split_and!; [done| |done]. split; auto; simpl; lia.
Qed.

(** C37: any sequence of operations on header fields with ASCII names, starting from
    none and with at most 2^60 fields, gives the results that the same operations give
    on the plain list of fields: a name is found regardless of case, the first field
    with it is the one that is read and overwritten, and removing takes all of them.
    The names and values that are given to [Append] and [Set] have no white space at
    their ends: a check of these functions ends the program otherwise.  A name with a
    byte from 128 on leads to undefined behaviour in the table of characters that the
    comparison uses, see [non_ascii_name_undefined] of HttpIoProofs.v. *)
Theorem Headers_refines (ops : list header_op) :
  Forall header_op_ok ops → Z.of_nat (sum_list (op_fields <$> ops)) ≤ 2 ^ 60 →
  ∃ h h', HttpHeaders_new = Ret h ∧
    run_header_ops ops h = Ret ((spec_header_ops ops []).1, h') ∧ fields_ h' = (spec_header_ops ops []).2.
Proof.
  intros Hok Hlen. destruct HttpHeaders_new_inv as (h & Hh & Hinv & Hf).
  destruct (run_header_ops_effect ops h Hinv Hok) as (h' & Hr & _ & Hf'); [by rewrite Hf|].
  rewrite Hf in *. eauto.
Qed.

Definition sample_header_ops : list header_op :=
  [Op_parsed [(chars_of "Host", chars_of "a"); (chars_of "x-y", chars_of "1"); (chars_of "X-Y", chars_of "2")];
   Op_TryGet (chars_of "X-y"); Op_Set (chars_of "X-Y") (chars_of "3"); Op_TryGetMultiple (chars_of "x-Y");
   Op_Remove (chars_of "HOST"); Op_contains (chars_of "host"); Op_Append (chars_of "Date") (chars_of "now");
   Op_TryGet (chars_of "date")].

Lemma Headers_refines_witness : ∃ h h', HttpHeaders_new = Ret h ∧
  run_header_ops sample_header_ops h =
    Ret ([RUnit; RValue (Some (chars_of "1")); RUnit; RValues [chars_of "3"; chars_of "2"]; RBool true;
          RBool false; RUnit; RValue (Some (chars_of "now"))], h') ∧
  fields_ h' = [(chars_of "x-y", chars_of "3"); (chars_of "X-Y", chars_of "2"); (chars_of "Date", chars_of "now")].
Proof.
  apply (Headers_refines sample_header_ops).
  - unfold sample_header_ops. repeat constructor; refine (bool_decide_unpack _ _); vm_compute; reflexivity.
  - vm_compute. discriminate.
Defined.

Lemma Append_all_effect fs h :
  hd_inv h → Forall (λ f, Trim f.1 = f.1 ∧ Trim f.2 = f.2) fs → Forall (λ f, all_ascii f.1) fs →
  Z.of_nat (length (fields_ h) + length fs) ≤ 2 ^ 60 →
  ∃ h', Append_all h fs = Ret h' ∧ hd_inv h' ∧ fields_ h' = fields_ h ++ fs.
Proof.
  revert h. induction fs as [|[k v] fs IH]; intros h Hinv Ht Ha Hl.
  - exists h. by rewrite app_nil_r.
  - apply Forall_cons in Ht as [[Hk Hv] Ht]. apply Forall_cons in Ha as [Hka Ha]. cbn [Append_all length] in *.
    destruct (Append_effect h k v Hinv Hka Hk Hv ltac:(lia)) as (h1 & -> & Hinv1 & Hf1). cbn [obind].
    destruct (IH h1 Hinv1 Ht Ha) as (h2 & ? & ? & Hf2); [rewrite Hf1, length_app; simpl; lia|].
    exists h2. split_and!; [done|done|]. by rewrite Hf2, Hf1, <-app_assoc.
Qed.

(** A copy has the same fields, when they are trimmed. *)
Lemma HttpHeaders_copy_effect h :
  hd_inv h → Forall (λ f, Trim f.1 = f.1 ∧ Trim f.2 = f.2) (fields_ h) → Z.of_nat (length (fields_ h)) ≤ 2 ^ 60 →
  ∃ h', HttpHeaders_copy h = Ret h' ∧ hd_inv h' ∧ fields_ h' = fields_ h.
Proof.
  intros Hinv Htr Hlen. unfold HttpHeaders_copy. destruct HttpHeaders_new_inv as (h0 & -> & Hinv0 & Hf0). cbn [obind].
  destruct (Append_all_effect (fields_ h) h0 Hinv0 Htr (ir_ascii _ _ Hinv)) as (h' & ? & ? & Hf); [rewrite Hf0; simpl; lia|].
  exists h'. split_and!; [done|done|]. by rewrite Hf, Hf0.
Qed.
