(* ===== verification/HttpTypes.v ===== *)
(** * HTTP messages: flare/net/http/types.{h,cc}, http_message.{h,cc},
      http_request.{h,cc}, http_response.{h,cc}

    The version, method and status of a message with their texts, and the body,
    which is kept as a string, as a buffer, or as both once it was flattened.

    [status_tables_agree] relates the two tables of status texts,
    [TryParse_method_roundtrip] the printing and parsing of methods, and
    [Message_body] says which body a reader gets after any sequence of updates. *)

From Stdlib Require Import Ascii.
From S2P Require Import Prelude Regex FlareString Buffer FlareHashMap HttpHeaders.

#[local] Open Scope string_scope.
#[local] Open Scope list_scope.
#[local] Open Scope Z_scope.

(** ** Enumerations *)

Inductive HttpVersion := Version_Unspecified | V_1_0 | V_1_1 | V_2 | V_3.

Inductive HttpMethod :=
  | Unspecified | Head | Get | Post | Put | Delete | Options | Trace | Connect | Patch.

#[global] Instance HttpVersion_eq_dec : EqDecision HttpVersion.
Proof. solve_decision. Defined.

#[global] Instance HttpMethod_eq_dec : EqDecision HttpMethod.
Proof. solve_decision. Defined.

(** A status that was received can be any [int]. *)
Notation HttpStatus := Z (only parsing).

Definition HttpStatus_Continue : HttpStatus := 100.
Definition HttpStatus_SwitchingProtocols : HttpStatus := 101.
Definition HttpStatus_EarlyHints : HttpStatus := 103.
Definition HttpStatus_OK : HttpStatus := 200.
Definition HttpStatus_Created : HttpStatus := 201.
Definition HttpStatus_Accepted : HttpStatus := 202.
Definition HttpStatus_NonAuthoritativeInformation : HttpStatus := 203.
Definition HttpStatus_NoContent : HttpStatus := 204.
Definition HttpStatus_ResetContent : HttpStatus := 205.
Definition HttpStatus_PartialContent : HttpStatus := 206.
Definition HttpStatus_MultipleChoices : HttpStatus := 300.
Definition HttpStatus_MovedPermanently : HttpStatus := 301.
Definition HttpStatus_Found : HttpStatus := 302.
Definition HttpStatus_SeeOther : HttpStatus := 303.
Definition HttpStatus_NotModified : HttpStatus := 304.
Definition HttpStatus_TemporaryRedirect : HttpStatus := 307.
Definition HttpStatus_PermanentRedirect : HttpStatus := 308.
Definition HttpStatus_BadRequest : HttpStatus := 400.
Definition HttpStatus_Unauthorized : HttpStatus := 401.
Definition HttpStatus_PaymentRequired : HttpStatus := 402.
Definition HttpStatus_Forbidden : HttpStatus := 403.
Definition HttpStatus_NotFound : HttpStatus := 404.
Definition HttpStatus_MethodNotAllowed : HttpStatus := 405.
Definition HttpStatus_NotAcceptable : HttpStatus := 406.
Definition HttpStatus_ProxyAuthenticationRequired : HttpStatus := 407.
Definition HttpStatus_RequestTimeout : HttpStatus := 408.
Definition HttpStatus_Conflict : HttpStatus := 409.
Definition HttpStatus_Gone : HttpStatus := 410.
Definition HttpStatus_LengthRequired : HttpStatus := 411.
Definition HttpStatus_PreconditionFailed : HttpStatus := 412.
Definition HttpStatus_PayloadTooLarge : HttpStatus := 413.
Definition HttpStatus_URITooLong : HttpStatus := 414.
Definition HttpStatus_UnsupportedMediaType : HttpStatus := 415.
Definition HttpStatus_RangeNotSatisfiable : HttpStatus := 416.
Definition HttpStatus_ExpectationFailed : HttpStatus := 417.
Definition HttpStatus_ImATeapot : HttpStatus := 418.
Definition HttpStatus_UnprocessableEntity : HttpStatus := 422.
Definition HttpStatus_TooEarly : HttpStatus := 425.
Definition HttpStatus_UpgradeRequired : HttpStatus := 426.
Definition HttpStatus_PreconditionRequired : HttpStatus := 428.
Definition HttpStatus_TooManyRequests : HttpStatus := 429.
Definition HttpStatus_RequestHeaderFieldsTooLarge : HttpStatus := 431.
Definition HttpStatus_UnavailableForLegalReasons : HttpStatus := 451.
Definition HttpStatus_InternalServerError : HttpStatus := 500.
Definition HttpStatus_NotImplemented : HttpStatus := 501.
Definition HttpStatus_BadGateway : HttpStatus := 502.
Definition HttpStatus_ServiceUnavailable : HttpStatus := 503.
Definition HttpStatus_GatewayTimeout : HttpStatus := 504.
Definition HttpStatus_HTTPVersionNotSupported : HttpStatus := 505.
Definition HttpStatus_VariantAlsoNegotiates : HttpStatus := 506.
Definition HttpStatus_InsufficientStorage : HttpStatus := 507.
Definition HttpStatus_LoopDetected : HttpStatus := 508.
Definition HttpStatus_NotExtended : HttpStatus := 510.
Definition HttpStatus_NetworkAuthenticationRequired : HttpStatus := 511.

(** The underlying values. *)
Definition version_value (v : HttpVersion) : Z :=
  match v with Version_Unspecified => 0 | V_1_0 => 1 | V_1_1 => 2 | V_2 => 3 | V_3 => 4 end.

Definition method_value (m : HttpMethod) : Z :=
  match m with
  | Unspecified => 0 | Head => 1 | Get => 2 | Post => 3 | Put => 4 | Delete => 5 | Options => 6
  | Trace => 7 | Connect => 8 | Patch => 9
  end.

(** ** Texts *)

(** An array of 600 texts, empty but for the assigned ones. *)
Definition status_array (descs : list (nat * string)) : list chars :=
  foldl (λ a d, <[d.1 := chars_of d.2]> a) (replicate 600 []) descs.

Definition status_descs : list (nat * string) :=
  [(100%nat, "Continue"); (101%nat, "Switching Protocols");
   (103%nat, "Early Hints"); (200%nat, "OK");
   (201%nat, "Created"); (202%nat, "Accepted");
   (203%nat, "Non-Authoritative Information"); (204%nat, "No Content");
   (205%nat, "Reset Content"); (206%nat, "Partial Content");
   (300%nat, "Multiple Choices"); (301%nat, "Moved Permanently");
   (302%nat, "Found"); (303%nat, "See Other");
   (304%nat, "Not Modified"); (307%nat, "Temporary Redirect");
   (308%nat, "Permanent Redirect"); (400%nat, "Bad Request");
   (401%nat, "Unauthorized"); (402%nat, "Payment Required");
   (403%nat, "Forbidden"); (404%nat, "Not Found");
   (405%nat, "Method Not Allowed"); (406%nat, "Not Acceptable");
   (407%nat, "Proxy Authentication Required"); (408%nat, "Request Timeout");
   (409%nat, "Conflict"); (410%nat, "Gone");
   (411%nat, "Length Required"); (412%nat, "Precondition Failed");
   (413%nat, "Payload Too Large"); (414%nat, "URI Too Long");
   (415%nat, "Unsupported Media Type"); (416%nat, "Range Not Satisfiable");
   (417%nat, "Expectation Failed"); (418%nat, "I'm a teapot");
   (422%nat, "Unprocessable Entity"); (425%nat, "Too Early");
   (426%nat, "Upgrade Required"); (428%nat, "Precondition Required");
   (429%nat, "Too Many Requests"); (431%nat, "Request Header Fields Too Large");
   (451%nat, "Unavailable For Legal Reasons"); (500%nat, "Internal Server Error");
   (501%nat, "Not Implemented"); (502%nat, "Bad Gateway");
   (503%nat, "Service Unavailable"); (504%nat, "Gateway Timeout");
   (505%nat, "HTTP Version Not Supported"); (506%nat, "Variant Also Negotiates");
   (507%nat, "Insufficient Storage"); (508%nat, "Loop Detected");
   (510%nat, "Not Extended"); (511%nat, "Network Authentication Required")].

Definition kStatusCodes : list chars := status_array status_descs.

Definition status_with_descs : list (nat * string) :=
  [(100%nat, "100 Continue"); (101%nat, "101 Switching Protocols");
   (103%nat, "103 Early Hints"); (200%nat, "200 OK");
   (201%nat, "201 Created"); (202%nat, "202 Accepted");
   (203%nat, "203 Non-Authoritative Information"); (204%nat, "204 No Content");
   (205%nat, "205 Reset Content"); (206%nat, "206 Partial Content");
   (300%nat, "300 Multiple Choices"); (301%nat, "301 Moved Permanently");
   (302%nat, "302 Found"); (303%nat, "303 See Other");
   (304%nat, "304 Not Modified"); (307%nat, "307 Temporary Redirect");
   (308%nat, "308 Permanent Redirect"); (400%nat, "400 Bad Request");
   (401%nat, "401 Unauthorized"); (402%nat, "402 Payment Required");
   (403%nat, "403 Forbidden"); (404%nat, "404 Not Found");
   (405%nat, "405 Method Not Allowed"); (406%nat, "406 Not Acceptable");
   (407%nat, "407 Proxy Authentication Required"); (408%nat, "408 Request Timeout");
   (409%nat, "409 Conflict"); (410%nat, "410 Gone");
   (411%nat, "411 Length Required"); (412%nat, "412 Precondition Failed");
   (413%nat, "413 Payload Too Large"); (414%nat, "414 URI Too Long");
   (415%nat, "415 Unsupported Media Type"); (416%nat, "416 Range Not Satisfiable");
   (417%nat, "417 Expectation Failed"); (418%nat, "418 I'm a teapot");
   (422%nat, "422 Unprocessable Entity"); (425%nat, "425 Too Early");
   (426%nat, "426 Upgrade Required"); (428%nat, "428 Precondition Required");
   (429%nat, "429 Too Many Requests"); (431%nat, "431 Request Header Fields Too Large");
   (451%nat, "451 Unavailable For Legal Reasons"); (500%nat, "500 Internal Server Error");
   (501%nat, "501 Not Implemented"); (502%nat, "502 Bad Gateway");
   (503%nat, "503 Service Unavailable"); (504%nat, "504 Gateway Timeout");
   (505%nat, "505 HTTP Version Not Supported"); (506%nat, "506 Variant Also Negotiates");
   (507%nat, "507 Insufficient Storage"); (508%nat, "508 Loop Detected");
   (510%nat, "510 Not Extended"); (511%nat, "511 Network Authentication Required")].

Definition kStatusCodeWithDesc : list chars := status_array status_with_descs.

Definition kStringizedVersion : list chars :=
  chars_of <$> ["(Unspecified)"; "HTTP/1.0"; "HTTP/1.1"; "HTTP/2"; "HTTP/3"].

Definition kStringifiedMethods : list chars :=
  chars_of <$> ["UNSPECIFIED"; "HEAD"; "GET"; "POST"; "PUT"; "DELETE"; "OPTIONS"; "TRACE"; "CONNECT"; "PATCH"].

Definition kMethodEnumerators : list (chars * HttpMethod) :=
  [(chars_of "UNSPECIFIED", Unspecified); (chars_of "HEAD", Head); (chars_of "GET", Get);
   (chars_of "POST", Post); (chars_of "PUT", Put); (chars_of "DELETE", Delete); (chars_of "TRACE", Trace);
   (chars_of "CONNECT", Connect); (chars_of "PATCH", Patch)].

(** The bounds check that all of the functions make: one past the end passes. *)
Definition checked_at (t : list chars) (v : Z) : outcome chars :=
  if (v <? 0) || (Z.of_nat (length t) <? v) then Ret [] else deref (t !! Z.to_nat v).

Definition ToStringView_status (status : HttpStatus) : outcome chars := checked_at kStatusCodes status.

Definition ToStringView_version (version : HttpVersion) : outcome chars :=
  checked_at kStringizedVersion (version_value version).

Definition ToStringView_method (method : HttpMethod) : outcome chars :=
  checked_at kStringifiedMethods (method_value method).

Definition GetStatusCodeWithDescString (status : HttpStatus) : outcome chars :=
  checked_at kStatusCodeWithDesc status.

Definition TryParse_method (s : chars) : option HttpMethod :=
  snd <$> head (filter (λ e, e.1 = s) kMethodEnumerators).

(** ** Messages *)

Record HttpMessage := mkMessage {
  version_ : HttpVersion;
  headers_ : HttpHeaders;
  body_str_ : option chars;
  body_ : option NoncontiguousBuffer;
}.

Definition HttpMessage_new : outcome HttpMessage :=
  h ←! HttpHeaders_new; Ret (mkMessage Version_Unspecified h None None).

Definition npos : Z := 2 ^ 64 - 1.

Definition StringifyBody (m : HttpMessage) : HttpMessage :=
  mkMessage (version_ m) (headers_ m)
    (Some match body_ m with None => [] | Some nb => FlattenSlow nb npos end) (body_ m).

(** [body()]: the text, and the message with the text kept. *)
Definition body (m : HttpMessage) : chars * HttpMessage :=
  match body_str_ m with
  | Some s => (s, m)
  | None => let m' := StringifyBody m in
            (match body_str_ m' with Some s => s | None => [] end, m')
  end.

Definition set_body_buffer (nb : NoncontiguousBuffer) (m : HttpMessage) : HttpMessage :=
  mkMessage (version_ m) (headers_ m) None (Some nb).

Definition set_body_string (s : chars) (m : HttpMessage) : HttpMessage :=
  mkMessage (version_ m) (headers_ m) (Some s) None.

(** [body()->assign(s)]: writing through the pointer [body()] returned. *)
Definition write_body (s : chars) (m : HttpMessage) : HttpMessage :=
  let m' := (body m).2 in mkMessage (version_ m') (headers_ m') (Some s) (body_ m').

Definition body_size (m : HttpMessage) : Z :=
  match body_str_ m, body_ m with
  | Some s, _ => Z.of_nat (length s)
  | None, Some nb => ByteSize nb
  | None, None => 0
  end.

Definition noncontiguous_body (m : HttpMessage) : option NoncontiguousBuffer := body_ m.

Definition set_headers (h : HttpHeaders) (m : HttpMessage) : HttpMessage :=
  mkMessage (version_ m) h (body_str_ m) (body_ m).

Definition set_version (v : HttpVersion) (m : HttpMessage) : HttpMessage :=
  mkMessage v (headers_ m) (body_str_ m) (body_ m).

Definition Message_clear (m : HttpMessage) : HttpMessage :=
  mkMessage (version_ m) (Headers_clear (headers_ m)) None None.

Record HttpRequest := mkRequest { req_msg : HttpMessage; method_ : HttpMethod; uri_ : chars }.

Record HttpResponse := mkResponse { resp_msg : HttpMessage; status_ : HttpStatus }.

Definition HttpRequest_new : outcome HttpRequest := m ←! HttpMessage_new; Ret (mkRequest m Unspecified []).

Definition HttpResponse_new : outcome HttpResponse := m ←! HttpMessage_new; Ret (mkResponse m HttpStatus_OK).

Definition Request_clear (r : HttpRequest) : HttpRequest := mkRequest (Message_clear (req_msg r)) Unspecified [].

Definition Response_clear (r : HttpResponse) : HttpResponse :=
  mkResponse (Message_clear (resp_msg r)) HttpStatus_OK.

Definition CRLF : chars := ["013"; "010"]%char.

(** The fields and the body, as both [ToString]s print them. *)
Definition message_text (m : HttpMessage) : chars :=
  concat ((λ f : chars * chars, f.1 ++ chars_of ": " ++ f.2 ++ CRLF) <$> fields_ (headers_ m)) ++ CRLF ++
  match noncontiguous_body m with Some nb => FlattenSlow nb npos | None => (body m).1 end.

Definition Request_ToString (r : HttpRequest) : outcome chars :=
  method ←! ToStringView_method (method_ r);
  version ←! ToStringView_version (version_ (req_msg r));
  Ret (method ++ chars_of " " ++ uri_ r ++ chars_of " " ++ version ++ CRLF ++ message_text (req_msg r)).

(** A negative status is printed with its sign. *)
Definition show_int (z : Z) : chars := if z <? 0 then "-"%char :: to_string (- z) else to_string z.

Definition Response_ToString (r : HttpResponse) : outcome chars :=
  version ←! ToStringView_version (version_ (resp_msg r));
  desc ←! ToStringView_status (status_ r);
  Ret (version ++ chars_of " " ++ show_int (status_ r) ++ chars_of " " ++ desc ++ CRLF ++ message_text (resp_msg r)).

Definition LF : chars := ["010"]%char.

Definition GenerateDefaultResponsePage (status : HttpStatus) (response : HttpResponse) (title text : chars) :
    outcome HttpResponse :=
  h ←! Append (headers_ (resp_msg response)) (chars_of "Content-Type") (chars_of "text/html");
  title' ←! (if decide (title = []) then d ←! GetStatusCodeWithDescString status; Ret (chars_of "HTTP " ++ d)
             else Ret title);
  text' ←! (if decide (text = []) then GetStatusCodeWithDescString status else Ret text);
  let html_body :=
    chars_of "<html>" ++ LF ++ chars_of "<head>" ++ LF ++ chars_of "<title>" ++ title' ++
    chars_of "</title>" ++ LF ++ chars_of "</head>" ++ LF ++ chars_of "<body>" ++ text' ++
    chars_of "</body>" ++ LF ++ chars_of "</html>" ++ LF in
  Ret (mkResponse (set_body_string html_body (set_headers h (resp_msg response))) status).

(** ** The texts *)

Definition with_desc (v : nat) (d : chars) : chars :=
  if decide (d = []) then [] else to_string (Z.of_nat v) ++ chars_of " " ++ d.

Definition tables_agree_at (v : nat) : bool :=
  match kStatusCodes !! v with
  | Some d => bool_decide (kStatusCodeWithDesc !! v = Some (with_desc v d))
  | None => true
  end.

(** The status line has the number of the status and the text that is used
    elsewhere, for every status that has a text, and the tables have no others. *)
Theorem status_tables_agree (v : nat) d :
  kStatusCodes !! v = Some d → kStatusCodeWithDesc !! v = Some (with_desc v d).
Proof.
  intros Hv. assert (Hlen : (v < 600)%nat).
  { apply lookup_lt_Some in Hv. by replace (length kStatusCodes) with 600%nat in Hv by (vm_compute; reflexivity). }
  assert (Hall : forallb tables_agree_at (seq 0 600) = true) by (vm_compute; reflexivity).
  rewrite forallb_forall in Hall. specialize (Hall v ltac:(apply in_seq; lia)).
  unfold tables_agree_at in Hall. rewrite Hv in Hall. by apply bool_decide_eq_true in Hall.
Qed.

Lemma status_tables_agree_witness : kStatusCodeWithDesc !! 404%nat = Some (chars_of "404 Not Found").
Proof.
  refine (eq_trans (status_tables_agree 404 (chars_of "Not Found") _) _); vm_compute; reflexivity.
Defined.

(** The method is read back from its text, but for [Options], which is missing in
    the table. *)
Lemma TryParse_method_spec m :
  ∃ s, ToStringView_method m = Ret s ∧ TryParse_method s = if decide (m = Options) then None else Some m.
Proof. destruct m; eexists; (split; [vm_compute; reflexivity|vm_compute; reflexivity]). Qed.

(** A method that is printed is read back, and OPTIONS is not recognised. *)
Theorem TryParse_method_roundtrip m s :
  ToStringView_method m = Ret s → TryParse_method s = if decide (m = Options) then None else Some m.
Proof. intros Hs. destruct (TryParse_method_spec m) as (s' & Hs' & Hp). congruence. Qed.

Lemma TryParse_method_roundtrip_witness : TryParse_method (chars_of "DELETE") = Some Delete.
Proof. apply (TryParse_method_roundtrip Delete). vm_compute. reflexivity. Defined.

(** The status 600 reads one past the end of the table. *)
Example ToStringView_status_600 : ToStringView_status 600 = Undef ∧ ToStringView_status 601 = Ret [].
Proof. vm_compute. done. Qed.

(** ** The body *)

(** The body a reader gets. *)
Definition body_text (m : HttpMessage) : chars := (body m).1.

Definition message_inv (m : HttpMessage) : Prop :=
  match body_ m with Some nb => nb_inv nb | None => True end.

Inductive body_op :=
  | Set_buffer (nb : NoncontiguousBuffer) | Set_string (s : chars) | Write (s : chars) | Read | Clear_message.

Definition run_body_op (op : body_op) (m : HttpMessage) : HttpMessage :=
  match op with
  | Set_buffer nb => set_body_buffer nb m
  | Set_string s => set_body_string s m
  | Write s => write_body s m
  | Read => (body m).2
  | Clear_message => Message_clear m
  end.

(** The text of the body after an operation. *)
Definition spec_body_op (op : body_op) (s : chars) : chars :=
  match op with
  | Set_buffer nb => contents nb
  | Set_string s' | Write s' => s'
  | Read => s
  | Clear_message => []
  end.

Definition body_op_ok (op : body_op) : Prop := match op with Set_buffer nb => nb_inv nb | _ => True end.

Lemma flatten_all nb : nb_inv nb → FlattenSlow nb npos = contents nb.
Proof.
  intros Hinv. unfold npos. rewrite FlattenSlow_spec by (done || lia).
  pose proof (nbi_size _ Hinv). pose proof (nbi_range _ Hinv). by rewrite take_ge by lia.
Qed.

Lemma run_body_op_effect op m :
  message_inv m → body_op_ok op →
  message_inv (run_body_op op m) ∧ body_text (run_body_op op m) = spec_body_op op (body_text m).
Proof.
  intros Hinv Hok. destruct op; cbn [run_body_op spec_body_op body_op_ok] in *; unfold message_inv, body_text, body in *; simpl.
  - split; [done|]. by apply flatten_all.
  - done.
  - unfold write_body, body. destruct (body_str_ m); done.
  - destruct (body_str_ m) eqn:E; simpl; by rewrite ?E.
  - done.
Qed.

Lemma body_size_spec m : message_inv m → body_size m = Z.of_nat (length (body_text m)).
Proof.
  unfold message_inv, body_size, body_text, body. intros Hinv. destruct (body_str_ m) eqn:E; [done|]. simpl.
  destruct (body_ m) as [nb|]; [|done]. by rewrite flatten_all, <-(nbi_size _ Hinv) by done.
Qed.

(** After any sequence of updates the body, whether kept as a string or as a
    buffer, is the one that was set last, and its size is known without
    flattening it. *)
Theorem Message_body (ops : list body_op) (m : HttpMessage) :
  message_inv m → Forall body_op_ok ops →
  body_text (foldl (λ m op, run_body_op op m) m ops) = foldl (λ s op, spec_body_op op s) (body_text m) ops ∧
  body_size (foldl (λ m op, run_body_op op m) m ops) =
    Z.of_nat (length (foldl (λ s op, spec_body_op op s) (body_text m) ops)).
Proof.
  intros Hinv Hok. revert m Hinv. induction Hok as [|op ops Hop _ IH]; intros m Hinv; cbn [foldl].
  { split; [done|by apply body_size_spec]. }
  destruct (run_body_op_effect op m Hinv Hop) as [Hinv' <-]. by apply IH.
Qed.

(** What is written through [body()] is not what is sent when the body was set
    from a buffer: the buffer is still there, and it comes first. *)
Example written_body_is_not_sent h :
  let m := write_body (chars_of "new") (set_body_buffer (mkNB 3 [chars_of "old"]) (mkMessage V_1_1 h None None)) in
  body_text m = chars_of "new" ∧ noncontiguous_body m = Some (mkNB 3 [chars_of "old"]).
Proof. done. Qed.

Definition no_headers : HttpHeaders := mkHttpHeaders (mkHashMap [] 0 0 0 0) [].

Lemma Message_body_witness :
  let m := foldl (λ m op, run_body_op op m) (mkMessage V_1_1 no_headers None None)
             [Set_string (chars_of "a"); Set_buffer split_nb; Read; Write (chars_of "xyz"); Read] in
  body_text m = chars_of "xyz" ∧ body_size m = 3.
Proof.
  apply (Message_body [Set_string (chars_of "a"); Set_buffer split_nb; Read; Write (chars_of "xyz"); Read]).
  - exact I.
  - repeat (constructor; [exact I || exact split_nb_inv|]). constructor.
Defined.
