(* ===== verification/QueryString.v ===== *)
(** * Query strings: flare/net/http/query_string.{h,cc}

    A query is split at the ampersands and each part at its first equals sign; keys
    and values are decoded.  The query of a request is that of its URI, and that of
    its body if the body is a form.

    [QueryString_of_request] takes the way of a query through all of that: the pairs
    that a client encodes into the URI and the body of a request are the pairs that
    the server finds, in order. *)

From Stdlib Require Import Ascii.
From S2P Require Import Prelude Regex FlareString ByteSet Uri Encoding Buffer HttpHeaders HttpTypes.

#[local] Open Scope Z_scope.

Record QueryString := mkQueryString { original_ : chars; pairs_ : list (chars * chars) }.

Fixpoint TryGet_loop (key : chars) (pairs : list (chars * chars)) : option chars :=
  match pairs with
  | [] => None
  | (k, v) :: pairs' => if bool_decide (k = key) then Some v else TryGet_loop key pairs'
  end.
Definition QueryString_TryGet (q : QueryString) (key : chars) : option chars := TryGet_loop key (pairs_ q).

Fixpoint TryGetMultiple_query (key : chars) (pairs : list (chars * chars)) (result : list chars) : list chars :=
  match pairs with
  | [] => result
  | (k, v) :: pairs' => TryGetMultiple_query key pairs' (if bool_decide (k = key) then result ++ [v] else result)
  end.
Definition QueryString_TryGetMultiple (q : QueryString) (key : chars) : list chars := TryGetMultiple_query key (pairs_ q) [].

Fixpoint parse_parts (parts : list chars) (pairs : list (chars * chars)) : option (list (chars * chars)) :=
  match parts with
  | [] => Some pairs
  | e :: parts' =>
      match find ["="%char] e with
      | Some sep =>
          match DecodePercent false (take sep e), DecodePercent false (drop (sep + 1) e) with
          | Some key, Some value => parse_parts parts' (pairs ++ [(key, value)])
          | _, _ => None
          end
      | None => match DecodePercent true e with Some decoded => parse_parts parts' (pairs ++ [(decoded, [])]) | None => None end
      end
  end.

Definition TryParse_QueryString (s : chars) : outcome (option QueryString) :=
  parts ←! Split s ["&"%char] false;
  Ret (match parse_parts parts [] with Some pairs => Some (mkQueryString s pairs) | None => None end).

Section uri.
Context (gdt : bool) (elsewhere : Z).

(** With [errno == ERANGE]. *)
Definition TryParseQueryStringFromUri (uri : chars) (erange : bool) : outcome (option QueryString * bool) :=
  let '(uri_opt, erange') := TryParse_Uri gdt elsewhere uri erange in
  match uri_opt with
  | None => Ret (None, erange')
  | Some u => q ←! GetComponent k_query u; r ←! TryParse_QueryString q; Ret (r, erange')
  end.

(** [body()] would keep the text it makes, but [body_] is null where it is called. *)
Definition body_text (m : HttpMessage) : chars := match noncontiguous_body m with Some nb => FlattenSlow nb npos | None => fst (body m) end.

Definition TryParseQueryStringFromHttpRequest (req : HttpRequest) (force_parse_body : bool) (erange : bool) : outcome (option QueryString * bool) :=
  let '(uri_opt, erange') := TryParse_Uri gdt elsewhere (HttpTypes.uri_ req) erange in
  match uri_opt with
  | None => Ret (None, erange')
  | Some u =>
      all_queries ←! GetComponent k_query u;
      form ←! (if force_parse_body then Ret true
               else t ←! Headers_TryGet (headers_ (req_msg req)) (chars_of "Content-Type"); Ret (bool_decide (t = Some (chars_of "application/x-www-form-urlencoded"))));
      let all_queries := if form : bool then (match all_queries with [] => [] | _ => all_queries ++ ["&"%char] end) ++ body_text (req_msg req) else all_queries in
      r ←! TryParse_QueryString all_queries; Ret (r, erange')
  end.
End uri.

(** ** Looking for a key *)

Definition values (key : chars) (pairs : list (chars * chars)) : list chars := snd <$> filter (λ p, p.1 = key) pairs.

Lemma TryGet_loop_spec key pairs : TryGet_loop key pairs = head (values key pairs).
Proof. unfold values. induction pairs as [|[k v] pairs IH]; [done|]. cbn [TryGet_loop]. rewrite filter_cons. cbn [fst]. case_bool_decide; [by rewrite decide_True|by rewrite decide_False]. Qed.

Lemma TryGetMultiple_query_spec key pairs : ∀ result, TryGetMultiple_query key pairs result = result ++ values key pairs.
Proof.
  unfold values. induction pairs as [|[k v] pairs IH]; intros result; [cbn; by rewrite app_nil_r|]. cbn [TryGetMultiple_query]. rewrite IH, filter_cons. cbn [fst].
  case_bool_decide; [rewrite decide_True by done; by rewrite fmap_cons, <-app_assoc|by rewrite decide_False].
Qed.

(** ** What a client sends *)

Definition encode (s : chars) : chars := EncodePercent PercentEncodingOptions_new s.
Definition render_pair (p : chars * chars) : chars := encode p.1 ++ "="%char :: encode p.2.
Definition render_query (ps : list (chars * chars)) : chars := join_parts true (render_pair <$> ps) ["&"%char].

Lemma encode_eq s : encode s = s ≫= encode_percent_char PercentEncodingOptions_new.
Proof. unfold encode, EncodePercent. by rewrite EncodePercent_to_eq. Qed.

Lemma encoded_char c : has unreserved c || esc c = true → c ∉ ["&"; "="]%char.
Proof. revert c. apply (forall_ascii (λ c, has unreserved c || esc c = true → c ∉ ["&"; "="]%char)). vm_compute. reflexivity. Qed.

(** No delimiter is in an encoded text. *)
Lemma encode_clean s : Forall (λ c, c ∉ ["&"; "="]%char) (encode s).
Proof.
  rewrite encode_eq. eapply Forall_impl; [apply (item_chars unreserved), encoded_all; [done|by vm_compute]|]. intros c. apply encoded_char.
Qed.

Lemma clean_free s c : c ∈ ["&"; "="]%char → c ∉ encode s.
Proof. intros Hc Hin. pose proof (encode_clean s) as H. rewrite Forall_forall in H. by destruct (H c Hin). Qed.

Lemma render_pair_free p : "&"%char ∉ render_pair p.
Proof. unfold render_pair. rewrite elem_of_app, elem_of_cons. intros [H | [H | H]]; [|done|]; revert H; apply clean_free; set_solver. Qed.

Lemma find_at (c : ascii) a b : c ∉ a → find [c] (a ++ c :: b) = Some (length a).
Proof.
  induction a as [|x a IH]; intros Hc; cbn; rewrite take_0.
  - by rewrite bool_decide_true.
  - rewrite bool_decide_false by (intros [= ->]; set_solver). rewrite IH by set_solver. done.
Qed.

Lemma encode_decodes s : DecodePercent false (encode s) = Some s.
Proof. unfold DecodePercent. rewrite encode_eq, DecodePercent_encoded by done. done. Qed.

Lemma parse_parts_render ps : ∀ acc, parse_parts (render_pair <$> ps) acc = Some (acc ++ ps).
Proof.
  induction ps as [|[k v] ps IH]; intros acc; [cbn; by rewrite app_nil_r|]. rewrite fmap_cons. cbn [parse_parts]. unfold render_pair at 1 2 3. cbn [fst snd].
  rewrite find_at by (apply clean_free; set_solver). rewrite take_app_length, cons_middle, app_assoc, drop_app_length' by (rewrite length_app; cbn; lia).
  rewrite !encode_decodes, IH, <-app_assoc. done.
Qed.

(** Empty parts, like the one behind an ampersand at the end, are dropped. *)
Lemma parse_joined parts : Forall (λ p, "&"%char ∉ p) parts → parts ≠ [] → join_parts true parts ["&"%char] ≠ [] →
  TryParse_QueryString (join_parts true parts ["&"%char]) =
    Ret ((λ pairs, mkQueryString (join_parts true parts ["&"%char]) pairs) <$> parse_parts (filter (λ p, p ≠ []) parts) []).
Proof.
  intros Hp Hne Hj. unfold TryParse_QueryString. destruct (Split_join_char "&" parts Hne Hp Hj) as [_ ->]. cbn [obind]. by destruct (parse_parts _ _).
Qed.

Lemma render_pairs_free (ps : list (chars * chars)) : Forall (λ p, "&"%char ∉ p) (render_pair <$> ps).
Proof. apply Forall_fmap, Forall_true. intros p. apply render_pair_free. Qed.

Lemma render_pairs_filter (ps : list (chars * chars)) : filter (λ p : chars, p ≠ []) (render_pair <$> ps) = render_pair <$> ps.
Proof.
  induction ps as [|p ps IH]; [done|]. rewrite fmap_cons, filter_cons_True, IH; [done|]. unfold render_pair. by destruct (encode p.1).
Qed.

Lemma render_query_nil ps : render_query ps = [] → ps = [].
Proof. destruct ps as [|p ps]; [done|]. unfold render_query. rewrite fmap_cons. cbn. unfold render_pair at 1. by destruct (encode p.1). Qed.

Lemma query_roundtrip ps : TryParse_QueryString (render_query ps) = Ret (Some (mkQueryString (render_query ps) ps)).
Proof.
  destruct ps as [|p ps]; [done|]. unfold render_query. rewrite parse_joined; [|apply render_pairs_free|done|by intros H%(render_query_nil (p :: ps))].
  rewrite render_pairs_filter, parse_parts_render. done.
Qed.

Lemma join_app parts1 parts2 delim : parts1 ≠ [] → join_parts true (parts1 ++ parts2) delim = join_parts true parts1 delim ++ join_parts false parts2 delim.
Proof.
  assert (Hf : ∀ l, join_parts false (l ++ parts2) delim = join_parts false l delim ++ join_parts false parts2 delim).
  { induction l as [|p l IH]; cbn; [done|]. rewrite IH, <-!app_assoc. done. }
  destruct parts1 as [|p parts1]; [done|]. intros _. cbn. by rewrite Hf, <-app_assoc.
Qed.

(** Two queries with an ampersand in between, of which either may be empty. *)
Lemma query_both ps1 ps2 :
  let s := (match render_query ps1 with [] => [] | _ => render_query ps1 ++ ["&"%char] end) ++ render_query ps2 in TryParse_QueryString s = Ret (Some (mkQueryString s (ps1 ++ ps2))).
Proof.
  cbv zeta. destruct (render_query ps1) as [|c q] eqn:E.
  { apply render_query_nil in E as ->. apply query_roundtrip. }
  assert (ps1 ≠ []) by (by intros ->). set (parts := (render_pair <$> ps1) ++ match ps2 with [] => [[]] | _ => render_pair <$> ps2 end).
  assert (Hs : (c :: q) ++ ["&"%char] ++ render_query ps2 = join_parts true parts ["&"%char]).
  { unfold parts. rewrite join_app by (by destruct ps1). rewrite <-E. f_equal. by destruct ps2. }
  rewrite <-app_assoc, Hs. rewrite parse_joined.
  - unfold parts. rewrite filter_app, render_pairs_filter. assert (filter (λ p : chars, p ≠ []) (match ps2 with [] => [[]] | _ => render_pair <$> ps2 end) = render_pair <$> ps2) as ->.
    { destruct ps2; [done|]. apply render_pairs_filter. }
    rewrite <-fmap_app, parse_parts_render. done.
  - apply Forall_app. split; [apply render_pairs_free|]. destruct ps2; [|apply render_pairs_free]. constructor; [|done]. set_solver.
  - by destruct ps1.
  - by rewrite <-Hs.
Qed.

(** ** The way of a query *)

Lemma query_set_spec gdt : (∀ x, has unreserved x = true → has (query_set gdt) x = true) ∧ has (query_set gdt) "%" = false ∧ all (item (query_set gdt)) ["="%char] ∧ all (item (query_set gdt)) ["&"%char].
Proof.
  split_and!; [|destruct gdt; vm_compute; reflexivity..]. intros x Hx. unfold query_set, pchar. by rewrite !has_or, Hx.
Qed.

Lemma render_query_ok gdt ps : all (item (query_set gdt)) (render_query ps).
Proof.
  destruct (query_set_spec gdt) as (Hu & Hp & Heq & Hamp). assert (He : ∀ s, all (item (query_set gdt)) (encode s)) by (intros s; rewrite encode_eq; by apply encoded_all).
  assert (Hpair : ∀ p, all (item (query_set gdt)) (render_pair p)).
  { intros p. unfold render_pair. apply (all_app (item (query_set gdt))); [apply He|]. apply (all_app (item (query_set gdt)) ["="%char]); [done|apply He]. }
  assert (Hj : ∀ first, all (item (query_set gdt)) (join_parts first (render_pair <$> ps) ["&"%char])); [|apply Hj].
  induction ps as [|p ps IH]; intros first; [apply (all_nil (item (query_set gdt)))|]. rewrite fmap_cons. cbn [join_parts].
  apply (all_app (item (query_set gdt))); [destruct first; [apply (all_nil (item (query_set gdt)))|exact Hamp]|]. apply (all_app (item (query_set gdt))); [apply Hpair|apply IH].
Qed.

(** A request whose URI and body carry pairs. *)
Definition with_query (x : parts) (ps : list (chars * chars)) : parts := mkParts (scheme x) (authority x) (path x) (Some (render_query ps)) (fragment x).

Lemma uri_query gdt elsewhere x ps erange : parts_ok gdt x → (Z.of_nat (length (render (with_query x ps))) ≤ 65535)%Z → port_number x ≠ None →
  ∃ u, fst (TryParse_Uri gdt elsewhere (render (with_query x ps)) erange) = Some u ∧ GetComponent k_query u = Ret (render_query ps).
Proof.
  intros (Hs & Hu & Hp & Hq & Hf & Hfs) Hle Hport.
  assert (Hx : parts_ok gdt (with_query x ps)). { split_and!; [done|done|exact Hp|apply render_query_ok|done|done]. }
  rewrite TryParse_render by done. change (port_number (with_query x ps)) with (port_number x). destruct (port_number x) as [n|]; [|done].
  eexists. split; [reflexivity|]. rewrite <-places_lower. apply (parts_at elsewhere (lower_scheme (with_query x ps)) n).
Qed.

(** C31: The pairs that are encoded into the URI of a request, and into its body if it is
    sent as a form, come back as they were and in order; [TryGet] returns the first
    value of a key and [TryGetMultiple] all of them. *)
Theorem QueryString_of_request gdt elsewhere req x ps1 ps2 force erange :
  parts_ok gdt x → port_number x ≠ None →
  HttpTypes.uri_ req = render (with_query x ps1) → (Z.of_nat (length (HttpTypes.uri_ req)) ≤ 65535)%Z →
  (force = true ∨ Headers_TryGet (headers_ (req_msg req)) (chars_of "Content-Type") = Ret (Some (chars_of "application/x-www-form-urlencoded"))) →
  body_text (req_msg req) = render_query ps2 →
  ∃ q erange', TryParseQueryStringFromHttpRequest gdt elsewhere req force erange = Ret (Some q, erange') ∧ pairs_ q = ps1 ++ ps2 ∧
    ∀ key, QueryString_TryGet q key = head (values key (ps1 ++ ps2)) ∧ QueryString_TryGetMultiple q key = values key (ps1 ++ ps2).
Proof.
  intros Hx Hport Huri Hle Hform Hbody. rewrite Huri in Hle. destruct (uri_query gdt elsewhere x ps1 erange Hx Hle Hport) as (u & Hu & Hq).
  unfold TryParseQueryStringFromHttpRequest. rewrite Huri. destruct (TryParse_Uri gdt elsewhere (render (with_query x ps1)) erange) as [o erange']. cbn [fst] in Hu. subst o.
  rewrite Hq. cbn [obind]. assert ((if force then Ret true else t ←! Headers_TryGet (headers_ (req_msg req)) (chars_of "Content-Type");
    Ret (bool_decide (t = Some (chars_of "application/x-www-form-urlencoded")))) = Ret true) as ->.
  { destruct Hform as [-> | ->]; [done|]. destruct force; [done|]. cbn [obind]. by rewrite bool_decide_true. }
  cbn [obind]. cbv zeta. rewrite Hbody. rewrite (query_both ps1 ps2). cbn [obind]. eexists _, _. split; [reflexivity|]. cbn [pairs_]. split; [done|].
  intros key. unfold QueryString_TryGet, QueryString_TryGetMultiple. cbn [pairs_]. by rewrite TryGet_loop_spec, TryGetMultiple_query_spec.
Qed.

Definition form_type : chars := chars_of "application/x-www-form-urlencoded".
Definition some_fields : outcome HttpHeaders := h ←! HttpHeaders_new; Append h (chars_of "Content-Type") form_type.
Definition some_request (h : HttpHeaders) : HttpRequest := mkRequest (mkMessage V_1_1 h (Some (chars_of "k=1%2B1")) None) Post (chars_of "/find?q=a%20b&k=").

Lemma some_fields_spec : ∃ h, some_fields = Ret h ∧ Headers_TryGet h (chars_of "Content-Type") = Ret (Some form_type).
Proof.
  destruct HttpHeaders_new_inv as (h & Hnew & Hinv & Hf). destruct (Append_effect h (chars_of "Content-Type") form_type) as (h' & Ha & Hinv' & Hf');
    [done|vm_compute; repeat constructor|vm_compute; reflexivity..|rewrite Hf; vm_compute; reflexivity|].
  exists h'. unfold some_fields. rewrite Hnew. cbn [obind]. split; [done|]. rewrite Headers_TryGet_effect; [|done|vm_compute; repeat constructor]. by rewrite Hf', Hf.
Qed.

Lemma QueryString_of_request_witness : ∃ h q erange',
  some_fields = Ret h ∧ TryParseQueryStringFromHttpRequest false 0 (some_request h) false false = Ret (Some q, erange') ∧
  pairs_ q = [(chars_of "q", chars_of "a b"); (chars_of "k", []); (chars_of "k", chars_of "1+1")].
Proof.
  destruct some_fields_spec as (h & E & Htype). exists h.
  destruct (QueryString_of_request false 0 (some_request h) (mkParts None None (chars_of "/find") None None) [(chars_of "q", chars_of "a b"); (chars_of "k", [])] [(chars_of "k", chars_of "1+1")] false false)
    as (q & e & H1 & H2 & _).
  - split_and!; [done|done| |done|done|done]. right. left. split; [vm_compute; reflexivity|]. eexists. split; [reflexivity|vm_compute; reflexivity].
  - vm_compute. discriminate.
  - vm_compute. reflexivity.
  - vm_compute. discriminate.
  - right. exact Htype.
  - vm_compute. reflexivity.
  - exists q, e. split; [done|]. split; [exact H1|exact H2].
Defined.

(** A plus sign is a space only in a part without a value. *)
Example plus_in_values :
  ∃ q, TryParse_QueryString (chars_of "a+b&k=a+b") = Ret (Some q) ∧ pairs_ q = [(chars_of "a b", []); (chars_of "k", chars_of "a+b")].
Proof. eexists. split; vm_compute; reflexivity. Qed.
