(* ===== verification/HttpIo.v ===== *)
(** * HTTP/1.1 on the wire: flare/rpc/protocol/http/buffer_io.cc and
      http11_protocol.cc

    Reading: [ReadHeader] copies the header block out of the received buffer,
    [ReadFieldFromRawBytes] looks for Content-Length in it,
    [Http11Protocol::TryCutMessage] cuts a message off the buffer once all of it
    is there, and [TryParse] parses it.  Writing: [WriteMessage].  The buffer is
    that of Buffer.v, so the theorems hold however the bytes are divided into
    blocks.

    [errno], which the number parser reads, is passed as a flag. *)

From Stdlib Require Import Ascii.
From S2P Require Import Prelude Regex FlareString Buffer FlareHashMap HttpHeaders HttpTypes.

#[local] Open Scope string_scope.
#[local] Open Scope list_scope.
#[local] Open Scope Z_scope.

(** ** buffer_io.cc *)

Inductive ReadStatus := RS_OK | NoEnoughData | UnexpectedFormat | RS_Error.

Definition FLAGS_flare_http_max_header_size : Z := 8192.

Definition kEndOfHeaderMarker : chars := CRLFCRLF.

Definition nl : ascii := "010".
Definition cr : ascii := "013".

Definition kLeadingWords : list chars :=
  chars_of <$> ["HTTP/1.1"; "HEAD"; "GET "; "POST"; "PUT "; "DELETE"; "TRACE"; "CONNECT"; "PATCH"].

Definition kMinLength : nat := foldl (λ r e, Nat.max r (length e)) 0%nat kLeadingWords.

Definition EasyDetectHttp (data : chars) : bool :=
  if (length data <? kMinLength)%nat then false
  else existsb (λ e, bool_decide (take 4 data = take 4 e)) kLeadingWords.

(** [p] is a position in [s]; [None] for [-1]. *)
Fixpoint DetermineHeaderSizeFast_loop (fuel : nat) (s : chars) (p : nat) : outcome (option nat) :=
  match fuel with
  | O => Fuel
  | S fuel' =>
      match find_from [nl] s p with
      | None => Ret None
      | Some p =>
          if (length s - p <? 3)%nat then Ret None
          else if bool_decide (s !! (p + 2)%nat = Some nl) then
            if bool_decide (take 4 (drop (p - 1) s) = kEndOfHeaderMarker) then Ret (Some (p + 3)%nat) else Ret None
          else DetermineHeaderSizeFast_loop fuel' s (p + 1)
      end
  end.

(** For an empty block [ep - p] is negative. *)
Definition DetermineHeaderSizeFast (s : chars) : outcome (option nat) :=
  match s with
  | [] => Undef
  | _ => DetermineHeaderSizeFast_loop (length s) s 1
  end.

(** The status and the header, when it is [RS_OK] or the format is unexpected. *)
Definition ReadHeader (buffer : NoncontiguousBuffer) : outcome (ReadStatus * chars) :=
  first_block ←! FirstContiguous buffer;
  size ←! DetermineHeaderSizeFast first_block;
  let detect header := Ret (if EasyDetectHttp header then RS_OK else UnexpectedFormat, header) in
  match size with
  | Some n => detect (take n first_block)
  | None =>
      if (10 <=? length first_block)%nat && negb (EasyDetectHttp first_block) then Ret (UnexpectedFormat, [])
      else if ByteSize buffer =? size_of first_block then
        Ret (if size_of first_block <? FLAGS_flare_http_max_header_size then NoEnoughData else RS_Error, [])
      else
        slow_buffer ←! FlattenSlowUntil buffer kEndOfHeaderMarker npos;
        if negb (EndsWith slow_buffer kEndOfHeaderMarker) then
          Ret (if size_of slow_buffer <? FLAGS_flare_http_max_header_size then NoEnoughData else RS_Error, [])
        else detect slow_buffer
  end.

Fixpoint ReadFieldFromRawBytes_loop (fuel : nat) (view key : chars) (pos : nat) : outcome chars :=
  match fuel with
  | O => Fuel
  | S fuel' =>
      let field := drop pos view in
      let next :=
        match find_from [nl] view (pos + 1) with
        | None => Ret []
        | Some p => ReadFieldFromRawBytes_loop fuel' view key (p + 1)
        end in
      eq ←! IEquals (take (length key) field) key;
      if eq : bool then
        if (length field =? length key)%nat then Ret []
        else
          c ←! deref (field !! length key);
          if bool_decide (c = ":"%char) then
            match find [cr] field with
            | None => Abort
            | Some last_pos =>
                if (last_pos <=? length key + 1)%nat then Abort
                else Ret (Trim (take (last_pos - (length key + 1)) (drop (length key + 1) field)))
            end
          else next
      else next
  end.

Definition ReadFieldFromRawBytes (view key : chars) : outcome chars :=
  ReadFieldFromRawBytes_loop (S (length view)) view key 0.

(** The loop over the fields; [None] for a malformed one. *)
Fixpoint ParseFields (fuel : nat) (view : chars) (fields : list (chars * chars)) :
    outcome (option (list (chars * chars))) :=
  match view with
  | [] => Ret (Some fields)
  | _ =>
      match fuel with
      | O => Fuel
      | S fuel' =>
          match find [nl] view with
          | None => Abort
          | Some pos =>
              if (pos <? 2)%nat || negb (bool_decide (view !! (pos - 1)%nat = Some cr)) then Ret None
              else
                let current := take (pos - 1) view in
                match find [":"%char] current with
                | None => Ret None
                | Some pcolon =>
                    let name := take pcolon current in
                    let value := drop (pcolon + 1) current in
                    match name with
                    | [] => Ret None
                    | _ => ParseFields fuel' (drop (pos + 1) view) (fields ++ [(name, Trim value)])
                    end
                end
          end
      end
  end.

(** The start line ([None] when the result is false) and the headers.  A block
    that begins with a newline makes the start line run to the end. *)
Definition ParseMessagePartial (storage : chars) (headers : HttpHeaders) :
    outcome (option chars * HttpHeaders) :=
  let headers := RetrieveHeaderStorage headers in
  if negb (EndsWith storage kEndOfHeaderMarker) then Abort
  else
    let view := take (length storage - 2) storage in
    match find [nl] view with
    | None => Abort
    | Some pos =>
        if (pos =? 1)%nat then Ret (None, headers)
        else
          let start_line := if (pos =? 0)%nat then view else take (pos - 1) view in
          fs ←! ParseFields (length view) (drop (pos + 1) view) [];
          match fs with
          | None => Ret (None, headers)
          | Some fields => h ←! RetrieveFields headers fields; Ret (Some start_line, h)
          end
    end.

Definition ParseRequestStartLine (s : chars) : outcome (option (HttpVersion * HttpMethod * chars)) :=
  splitted ←! Split s (chars_of " ") false;
  Ret match splitted with
      | [m; uri; v] =>
          version ← (if decide (v = chars_of "HTTP/1.1") then Some V_1_1
                     else if decide (v = chars_of "HTTP/1.0") then Some V_1_0 else None);
          method ← TryParse_method m;
          Some (version, method, uri)
      | _ => None
      end.

Definition ParseResponseStartLine (s : chars) (erange : bool) : outcome (option Z * bool) :=
  splitted ←! Split s (chars_of " ") false;
  Ret match splitted with
      | _ :: code :: _ => TryParse_i32 code erange
      | _ => (None, erange)
      end.

Section writing.
Context (block_size : Z).

Definition WriteHeader (headers : HttpHeaders) (builder : Builder) : outcome Builder :=
  foldl (λ o f, b ←! o; Append_many block_size b [f.1; chars_of ": "; f.2; CRLF]) (Ret builder) (fields_ headers).

(** The fields, the empty line and the body. *)
Definition write_rest (msg : HttpMessage) (builder : Builder) : outcome Builder :=
  builder ←! WriteHeader (headers_ msg) builder;
  builder ←! Buffer.Append block_size builder CRLF;
  match noncontiguous_body msg with
  | Some nb => Append_ncb block_size builder nb
  | None => Buffer.Append block_size builder (body_text msg)
  end.

Definition WriteMessage_request (msg : HttpRequest) (builder : Builder) : outcome Builder :=
  method ←! ToStringView_method (method_ msg);
  version ←! ToStringView_version (version_ (req_msg msg));
  builder ←! Append_many block_size builder [method; chars_of " "; uri_ msg; chars_of " "; version; CRLF];
  write_rest (req_msg msg) builder.

Definition WriteMessage_response (msg : HttpResponse) (builder : Builder) : outcome Builder :=
  version ←! ToStringView_version (version_ (resp_msg msg));
  desc ←! GetStatusCodeWithDescString (status_ msg);
  builder ←! Append_many block_size builder [version; chars_of " "; desc; CRLF];
  write_rest (resp_msg msg) builder.
End writing.

(** ** http11_protocol.cc *)

Record OnWireMessage := mkOnWire { header_block : chars; wire_body : NoncontiguousBuffer }.

Inductive Message := HttpRequestMessage (r : HttpRequest) | HttpResponseMessage (r : HttpResponse).

Inductive MessageCutStatus := ProtocolMismatch | Cut_Error | NotIdentified | NeedMore | Cut_OK.

Record Http11Protocol := mkProtocol { server_side_ : bool; parsed_header_block_ : option chars }.

Definition kClobberedStartLines : list chars := chars_of <$> ["POST /rpc/"; "POST /__rpc_service__"].

Definition IsMessageClobbered (view : chars) : bool := existsb (StartsWith view) kClobberedStartLines.

Definition kHttpResponsePrefix : chars := chars_of "HTTP/1.1 ".

Definition ExpectingContentLength (view : chars) (erange : bool) : bool * bool :=
  if StartsWith view (chars_of "GET") || StartsWith view (chars_of "HEAD") ||
     StartsWith view (chars_of "PUT") || StartsWith view (chars_of "POST") then (false, erange)
  else if StartsWith view kHttpResponsePrefix then
    let status_sv := take 3 (drop (length kHttpResponsePrefix) view) in
    let '(status_opt, erange) := TryParse_i32 status_sv erange in
    match status_opt with
    | Some n => (negb ((n =? HttpStatus_NoContent) || ((100 <=? n) && (n <? 200))), erange)
    | None => (true, erange)
    end
  else (true, erange).

(** What [TryCutMessage] leaves: the protocol object, the buffer and [errno]. *)
Record cut_result := mkCut {
  cut_status : MessageCutStatus;
  cut_protocol : Http11Protocol;
  cut_buffer : NoncontiguousBuffer;
  cut_message : option OnWireMessage;
  cut_errno : bool;
}.

(** The part that looks for the header: [inl] for an early return. *)
Definition cut_header (self : Http11Protocol) (buffer : NoncontiguousBuffer) :
    outcome (MessageCutStatus + chars) :=
  match parsed_header_block_ self with
  | Some h => Ret (inr h)
  | None =>
      '(status, h) ←! ReadHeader buffer;
      Ret match status with
          | UnexpectedFormat => inl ProtocolMismatch
          | RS_Error => inl Cut_Error
          | NoEnoughData => inl NotIdentified
          | RS_OK => if IsMessageClobbered h then inl ProtocolMismatch else inr h
          end
  end.

Definition TryCutMessage (self : Http11Protocol) (buffer : NoncontiguousBuffer) (erange : bool) :
    outcome cut_result :=
  r ←! cut_header self buffer;
  match r with
  | inl status => Ret (mkCut status self buffer None erange)
  | inr header_view =>
      let self := mkProtocol (server_side_ self) (Some header_view) in
      value ←! ReadFieldFromRawBytes header_view (chars_of "Content-Length");
      let '(body_size, erange) := TryParse_size value erange in
      let '(body_size, erange) :=
        match body_size with
        | Some n => (Some n, erange)
        | None => let '(expecting, erange) := ExpectingContentLength header_view erange in
                  (if expecting then None else Some 0, erange)
        end in
      match body_size with
      | None => Ret (mkCut Cut_Error self buffer None erange)
      | Some n =>
          if ByteSize buffer <? u64 (size_of header_view + n) then Ret (mkCut NeedMore self buffer None erange)
          else
            buffer ←! Skip buffer (size_of header_view);
            '(msg_body, buffer) ←! Cut buffer n;
            Ret (mkCut Cut_OK (mkProtocol (server_side_ self) None) buffer (Some (mkOnWire header_view msg_body)) erange)
      end
  end.

(** [None] when the result is false. *)
Definition TryParse (self : Http11Protocol) (msg : OnWireMessage) (erange : bool) :
    outcome (option Message * bool) :=
  if server_side_ self then
    parsed ←! HttpRequest_new;
    '(start_line, h) ←! ParseMessagePartial (header_block msg) (headers_ (req_msg parsed));
    match start_line with
    | None => Ret (None, erange)
    | Some line =>
        p ←! ParseRequestStartLine line;
        match p with
        | None => Ret (None, erange)
        | Some (version, method, uri) =>
            let m := set_body_buffer (wire_body msg) (set_version version (set_headers h (req_msg parsed))) in
            Ret (Some (HttpRequestMessage (mkRequest m method uri)), erange)
        end
    end
  else
    parsed ←! HttpResponse_new;
    '(start_line, h) ←! ParseMessagePartial (header_block msg) (headers_ (resp_msg parsed));
    match start_line with
    | None => Ret (None, erange)
    | Some line =>
        '(code, erange) ←! ParseResponseStartLine line erange;
        match code with
        | None => Ret (None, erange)
        | Some status =>
            let m := set_body_buffer (wire_body msg) (set_headers h (resp_msg parsed)) in
            Ret (Some (HttpResponseMessage (mkResponse m status)), erange)
        end
    end.

Definition WriteMessage (block_size : Z) (message : Message) : outcome NoncontiguousBuffer :=
  builder ←! Builder_new block_size;
  builder ←! match message with
             | HttpRequestMessage r => WriteMessage_request block_size r builder
             | HttpResponseMessage r => WriteMessage_response block_size r builder
             end;
  DestructiveGet builder.
