(* ===== verification/HttpIoProofs.v ===== *)
(** * Reading back what was written

    A header block is a list of lines; the lemmas here follow the code over the
    lines.  [http_request_roundtrip] and [http_response_roundtrip] say that a
    message that was written is cut off the received bytes and parsed to the same
    message, whatever follows it and however the bytes are divided into blocks;
    [http_stream] that it does not matter in how many pieces it arrives. *)

From Stdlib Require Import Ascii.
From S2P Require Import Prelude Regex FlareString Buffer FlareHashMap HttpHeaders HttpTypes HttpIo.

#[local] Open Scope string_scope.
#[local] Open Scope list_scope.
#[local] Open Scope Z_scope.

(** ** Searching in lines *)

Lemma find_cons_ne c d s : head d ≠ Some c → d ≠ [] → find d (c :: s) = S <$> find d s.
Proof.
  intros Hh Hd. cbn [find]. case_bool_decide as He.
  - destruct d as [|e d]; [done|]. simpl in *. congruence.
  - by destruct (find d s).
Qed.

Lemma find_skip a d s : d ≠ [] → (∀ c, head d = Some c → c ∉ a) → find d (a ++ s) = (λ p, length a + p)%nat <$> find d s.
Proof.
  intros Hd Ha. induction a as [|c a IH]; cbn [app length].
  { by destruct (find d s). }
  rewrite find_cons_ne; [|intros Hc; apply (Ha c Hc); by left|done].
  rewrite IH; [by destruct (find d s)|]. intros e He Hin. apply (Ha e He). by right.
Qed.

Lemma find_char_here c s : find [c] (c :: s) = Some 0%nat.
Proof. cbn [find length take]. by rewrite bool_decide_eq_true_2. Qed.

(** The first [c] after a text without it. *)
Lemma find_char_app c a s : c ∉ a → find [c] (a ++ c :: s) = Some (length a).
Proof.
  intros Ha. rewrite find_skip, find_char_here; [simpl; f_equal; lia|done|]. by intros e [= <-].
Qed.

Lemma find_from_char c s p a b :
  drop p s = a ++ c :: b → c ∉ a → find_from [c] s p = Some (length a + p)%nat.
Proof. intros Hd Ha. unfold find_from. by rewrite Hd, find_char_app. Qed.

(** ** Header blocks *)

Definition line_ok (l : chars) : Prop := l ≠ [] ∧ nl ∉ l ∧ cr ∉ l.

Definition unlines (ls : list chars) : chars := concat ((λ l, l ++ CRLF) <$> ls).

(** The block with these lines. *)
Definition block (ls : list chars) : chars := unlines ls ++ CRLF.

Lemma unlines_cons l ls : unlines (l :: ls) = l ++ cr :: nl :: unlines ls.
Proof. unfold unlines. csimpl. by rewrite <-app_assoc. Qed.

Lemma block_cons l ls rest : block (l :: ls) ++ rest = l ++ cr :: nl :: block ls ++ rest.
Proof. unfold block. rewrite unlines_cons, <-!app_assoc. done. Qed.

Lemma marker_head c : head kEndOfHeaderMarker = Some c → c = cr.
Proof. by intros [= <-]. Qed.

(** The marker is at the end of the block and nowhere before. *)
Lemma find_marker_line l t : cr ∉ l → find kEndOfHeaderMarker (l ++ t) = (λ p, length l + p)%nat <$> find kEndOfHeaderMarker t.
Proof. intros Hl. apply find_skip; [done|]. by intros c ->%marker_head. Qed.

Lemma find_marker ls rest :
  ls ≠ [] → Forall line_ok ls → find kEndOfHeaderMarker (block ls ++ rest) = Some (length (block ls) - 4)%nat.
Proof.
  intros Hne Hls. induction Hls as [|l ls (Hl & Hnl & Hcr) Hls IH]; [done|]. rewrite block_cons, find_marker_line by done.
  replace (length (block (l :: ls))) with (length l + 2 + length (block ls))%nat
    by (pose proof (block_cons l ls []) as H; rewrite !app_nil_r in H; rewrite H, length_app; simpl; lia).
  destruct ls as [|l2 ls].
  - assert (find kEndOfHeaderMarker (cr :: nl :: block [] ++ rest) = Some 0%nat) as ->.
    { cbn [find]. rewrite bool_decide_eq_true_2; [done|]. unfold block, unlines. simpl. by destruct rest. }
    simpl. f_equal. lia.
  - pose proof Hls as Hls'. apply Forall_cons in Hls' as [(Hl2 & Hnl2 & Hcr2) _].
    assert (find kEndOfHeaderMarker (cr :: nl :: block (l2 :: ls) ++ rest) =
            S <$> (S <$> find kEndOfHeaderMarker (block (l2 :: ls) ++ rest))) as ->.
    { rewrite <-(find_cons_ne nl) by done. set (t := nl :: _). cbn [find]. case_bool_decide as Hb; [|by destruct (find _ _)].
      exfalso. unfold t in Hb. rewrite block_cons in Hb. destruct l2 as [|c2 l2]; [done|]. simpl in Hb. injection Hb as Hb _. set_solver. }
    rewrite (IH ltac:(done)). simpl. f_equal.
    assert (4 ≤ length (block (l2 :: ls)))%nat.
    { pose proof (block_cons l2 ls []) as H. rewrite !app_nil_r in H. rewrite H, length_app. unfold block. cbn [length]. rewrite length_app. simpl. lia. }
    lia.
Qed.

(** ** ReadHeader *)

Lemma drop_more {A} (s a b : list A) p : drop p s = a ++ b → drop (p + length a) s = b.
Proof. intros Hd. by rewrite <-drop_drop, Hd, drop_app_length. Qed.

Lemma drop_length_le {A} (s t : list A) p : drop p s = t → t ≠ [] → (p + length t = length s)%nat.
Proof.
  intros <- Hne. rewrite length_drop. destruct (decide (p ≤ length s)%nat); [lia|].
  destruct Hne. apply drop_ge. lia.
Qed.

(** At [p] in a line of which [a] is left. *)
Lemma DetermineHeaderSizeFast_loop_spec fuel s p a ls rest :
  drop p s = a ++ cr :: nl :: block ls ++ rest → nl ∉ a → Forall line_ok ls →
  (length s - p < fuel)%nat →
  DetermineHeaderSizeFast_loop fuel s p = Ret (Some (p + length a + 2 + length (block ls))%nat).
Proof.
  revert p a ls. induction fuel as [|fuel IH]; intros p a ls Hd Ha Hls Hf; [lia|].
  cbn [DetermineHeaderSizeFast_loop].
  rewrite (find_from_char nl s p (a ++ [cr]) (block ls ++ rest)); [|rewrite Hd, <-app_assoc; done|set_solver].
  rewrite length_app. cbn [length].
  assert (Hlen : length s = (p + length a + 2 + length (block ls ++ rest))%nat).
  { pose proof (drop_length_le _ _ _ Hd ltac:(by destruct a)) as H. rewrite length_app in H. cbn [length] in H. lia. }
  assert (Hq : drop (length a + 1 + p) s = nl :: block ls ++ rest).
  { replace (length a + 1 + p)%nat with (p + length (a ++ [cr]))%nat by (rewrite length_app; simpl; lia).
    apply drop_more. rewrite Hd, <-app_assoc. done. }
  assert (Hq' : drop (length a + 1 + p - 1) s = cr :: nl :: block ls ++ rest).
  { replace (length a + 1 + p - 1)%nat with (p + length a)%nat by lia. by apply drop_more. }
  assert (Hl2 : s !! (length a + 1 + p + 2)%nat = (block ls ++ rest) !! 1%nat).
  { rewrite <-lookup_drop, Hq. done. }
  assert (Hb2 : (2 ≤ length (block ls))%nat) by (unfold block; rewrite length_app; simpl; lia).
  rewrite length_app in Hlen. destruct (Nat.ltb_spec (length s - (length a + 1 + p)) 3); [lia|]. rewrite Hl2, Hq'.
  destruct ls as [|l ls].
  - rewrite bool_decide_eq_true_2 by done. rewrite bool_decide_eq_true_2 by done. do 2 f_equal. unfold block, unlines. simpl. lia.
  - apply Forall_cons in Hls as [(Hne & Hnl & Hcr) Hls]. rewrite block_cons.
    rewrite bool_decide_eq_false_2.
    2:{ destruct l as [|c [|c2 l]]; [done|done|]. simpl. intros [= ->]. set_solver. }
    rewrite (IH (length a + 1 + p + 1)%nat l ls).
    + do 2 f_equal. pose proof (block_cons l ls []) as Hbc. rewrite !app_nil_r in Hbc. rewrite Hbc, length_app. cbn [length]. lia.
    + rewrite <-block_cons. replace (length a + 1 + p + 1)%nat with (length a + 1 + p + length [nl])%nat by done.
      by apply drop_more.
    + done.
    + done.
    + lia.
Qed.

Lemma DetermineHeaderSizeFast_full ls rest :
  ls ≠ [] → Forall line_ok ls → DetermineHeaderSizeFast (block ls ++ rest) = Ret (Some (length (block ls))).
Proof.
  intros Hne Hls. destruct ls as [|l ls]; [done|]. apply Forall_cons in Hls as [(Hl & Hnl & Hcr) Hls].
  destruct l as [|c l]; [done|]. pose proof (block_cons (c :: l) ls []) as H. rewrite !app_nil_r in H.
  unfold DetermineHeaderSizeFast. destruct (block ((c :: l) :: ls) ++ rest) as [|x t] eqn:E.
  { rewrite block_cons in E. done. }
  rewrite <-E. rewrite (DetermineHeaderSizeFast_loop_spec _ _ 1 l ls rest).
  - do 2 f_equal. rewrite H, length_app. cbn [length]. lia.
  - by rewrite block_cons.
  - set_solver.
  - done.
  - rewrite E. cbn [length]. lia.
Qed.

(** The fast search always ends, and what it finds is a marker. *)
Lemma DetermineHeaderSizeFast_loop_sound fuel s p :
  (1 ≤ p ≤ length s)%nat → (length s < fuel + p)%nat →
  ∃ r, DetermineHeaderSizeFast_loop fuel s p = Ret r ∧
    ∀ n, r = Some n → (4 ≤ n)%nat ∧ occurs kEndOfHeaderMarker s (n - 4).
Proof.
  revert p. induction fuel as [|fuel IH]; intros p Hp Hf; [lia|].
  cbn [DetermineHeaderSizeFast_loop].
  destruct (find_from [nl] s p) as [q|] eqn:Eq; [|by exists None].
  assert (Hq : (p ≤ q < length s)%nat).
  { unfold find_from in Eq. destruct (find [nl] (drop p s)) as [j|] eqn:Ej; [|done]. simplify_eq/=.
    apply find_bound in Ej. rewrite length_drop in Ej. simpl in Ej. lia. }
  destruct (Nat.ltb_spec (length s - q) 3); [by exists None|]. case_bool_decide as H2; [|apply IH; lia].
  case_bool_decide as H4; [|by exists None]. eexists. split; [done|]. intros n [= <-]. split; [lia|].
  replace (q + 3 - 4)%nat with (q - 1)%nat by lia. split; [done|]. simpl. lia.
Qed.

Lemma DetermineHeaderSizeFast_none s :
  s ≠ [] → find kEndOfHeaderMarker s = None → DetermineHeaderSizeFast s = Ret None.
Proof.
  intros Hs Hno. rewrite find_None_occurs in Hno. unfold DetermineHeaderSizeFast. destruct s as [|c s]; [done|].
  destruct (DetermineHeaderSizeFast_loop_sound (length (c :: s)) (c :: s) 1) as (r & -> & Hr); [simpl; lia|simpl; lia|].
  destruct r as [n|]; [|done]. destruct (Hr n eq_refl) as [_ Ho]. by destruct (Hno (n - 4)%nat).
Qed.

Lemma EasyDetect_prefix f h : f `prefix_of` h → (8 ≤ length f)%nat → EasyDetectHttp h = true → EasyDetectHttp f = true.
Proof.
  intros [k ->] Hf. unfold EasyDetectHttp. change kMinLength with 8%nat.
  destruct (Nat.ltb_spec (length (f ++ k)) 8); [done|]. destruct (Nat.ltb_spec (length f) 8); [lia|].
  by rewrite take_app_le by lia.
Qed.

Lemma EasyDetect_length h : EasyDetectHttp h = true → (8 ≤ length h)%nat.
Proof. unfold EasyDetectHttp. change kMinLength with 8%nat. by destruct (Nat.ltb_spec (length h) 8). Qed.

(** A proper prefix of a block has no marker. *)
Lemma prefix_no_marker ls s t :
  ls ≠ [] → Forall line_ok ls → block ls = s ++ t → t ≠ [] → find kEndOfHeaderMarker s = None.
Proof.
  intros Hne Hls Heq Ht. destruct (find kEndOfHeaderMarker s) as [p|] eqn:E; [|done].
  pose proof (find_bound _ _ _ E) as Hb. apply (find_app_l _ _ t) in E.
  pose proof (find_marker ls [] Hne Hls) as Hm. rewrite app_nil_r, Heq, E in Hm.
  apply (f_equal length) in Heq. rewrite length_app in Heq, Hm. destruct t; [done|]. simpl in *.
  injection Hm as Hm. lia.
Qed.

Lemma block_ends ls : ∃ k, block ls = k ++ CRLF.
Proof. by exists (unlines ls). Qed.

Lemma block_marker ls : ls ≠ [] → kEndOfHeaderMarker `suffix_of` block ls.
Proof.
  intros Hne. destruct (exists_last Hne) as (ls' & l & ->). unfold block, unlines. rewrite fmap_app, concat_app.
  exists (concat ((λ l, l ++ CRLF) <$> ls') ++ l). csimpl. by rewrite app_nil_r, <-!app_assoc.
Qed.

Lemma until_marker ls rest :
  ls ≠ [] → Forall line_ok ls → until kEndOfHeaderMarker (block ls ++ rest) = block ls.
Proof.
  intros Hne Hls. unfold until. rewrite find_marker by done.
  assert (4 ≤ length (block ls))%nat by (by apply block_marker, suffix_length in Hne).
  change (length kEndOfHeaderMarker) with 4%nat. rewrite take_app_le by lia. by rewrite take_ge by lia.
Qed.

(** The first block has no marker and does not look wrong. *)
Lemma ReadHeader_slow nb f :
  nb_inv nb → FirstContiguous nb = Ret f → f ≠ [] → find kEndOfHeaderMarker f = None →
  ((10 ≤ length f)%nat → EasyDetectHttp f = true) →
  ReadHeader nb =
  let s := until kEndOfHeaderMarker (contents nb) in
  if byte_size_ nb =? size_of f then
    Ret (if size_of f <? FLAGS_flare_http_max_header_size then NoEnoughData else RS_Error, [])
  else if negb (EndsWith s kEndOfHeaderMarker) then
    Ret (if size_of s <? FLAGS_flare_http_max_header_size then NoEnoughData else RS_Error, [])
  else Ret (if EasyDetectHttp s then RS_OK else UnexpectedFormat, s).
Proof.
  intros Hnb Hff Hf Hno Hdet. unfold ReadHeader. rewrite Hff. cbn [obind].
  rewrite DetermineHeaderSizeFast_none by done. cbn [obind].
  assert ((10 <=? length f)%nat && negb (EasyDetectHttp f) = false) as ->.
  { destruct (Nat.leb_spec 10 (length f)); [|done]. by rewrite Hdet. }
  unfold ByteSize, npos. destruct (byte_size_ nb =? size_of f); [done|].
  rewrite FlattenSlowUntil_effect by (done || lia). cbn [obind].
  rewrite take_ge; [done|]. pose proof (nbi_size _ Hnb). pose proof (nbi_range _ Hnb). unfold until.
  destruct (find kEndOfHeaderMarker (contents nb)); rewrite ?length_take; lia.
Qed.

(** The whole header is there. *)
Lemma ReadHeader_full nb ls rest :
  nb_inv nb → contents nb = block ls ++ rest → ls ≠ [] → Forall line_ok ls → EasyDetectHttp (block ls) = true →
  ReadHeader nb = Ret (RS_OK, block ls).
Proof.
  intros Hnb Hc Hne Hls Hdet. pose proof (EasyDetect_length _ Hdet) as H8.
  destruct (FirstContiguous_spec nb Hnb) as (f & bufs & Hb & Hff & Hf & Hcf).
  { rewrite Hc. destruct (block ls); [simpl in H8; lia|done]. }
  pose proof Hc as Hc'. rewrite Hcf in Hc'. symmetry in Hc'. apply app_eq_inv in Hc' as [(k & Heq & Heq2)|(k & Heq & Hrest)].
  2:{ unfold ReadHeader. rewrite Hff. cbn [obind]. rewrite Heq, DetermineHeaderSizeFast_full by done.
      cbn [obind]. by rewrite take_app_length, Hdet. }
  destruct k as [|c k].
  { rewrite app_nil_r in Heq. unfold ReadHeader. rewrite Hff. cbn [obind].
    rewrite <-(app_nil_r f), <-Heq, DetermineHeaderSizeFast_full by done. cbn [obind]. by rewrite take_app_length, Hdet. }
  rewrite (ReadHeader_slow nb f Hnb Hff Hf).
  - rewrite (nbi_size _ Hnb), Hc, until_marker, Heq, !length_app by done. cbn zeta.
    destruct (Z.eqb_spec (Z.of_nat (length f + length (c :: k) + length rest)) (size_of f)); [simpl in *; lia|].
    rewrite <-Heq, Hdet, EndsWith_spec, bool_decide_eq_true_2; [done|]. by apply block_marker.
  - by apply (prefix_no_marker ls _ (c :: k)).
  - intros H10. apply (EasyDetect_prefix f (block ls)); [by exists (c :: k)|lia|done].
Qed.

(** Only a part of it is there. *)
Lemma ReadHeader_partial nb ls t :
  nb_inv nb → contents nb ≠ [] → block ls = contents nb ++ t → t ≠ [] → ls ≠ [] → Forall line_ok ls →
  EasyDetectHttp (block ls) = true → size_of (block ls) ≤ FLAGS_flare_http_max_header_size →
  ReadHeader nb = Ret (NoEnoughData, []).
Proof.
  intros Hnb Hc Heq Ht Hne Hls Hdet Hmax. destruct (FirstContiguous_spec nb Hnb Hc) as (f & bufs & Hb & Hff & Hf & Hcf).
  assert (Hlt : (length (contents nb) < length (block ls))%nat) by (rewrite Heq, length_app; destruct t; [done|simpl; lia]).
  rewrite (ReadHeader_slow nb f Hnb Hff Hf).
  - assert (Hu : until kEndOfHeaderMarker (contents nb) = contents nb).
    { unfold until. by rewrite (prefix_no_marker ls _ t). }
    rewrite Hu. cbn zeta. assert (length f ≤ length (contents nb))%nat by (rewrite Hcf, length_app; lia).
    destruct (byte_size_ nb =? size_of f); [destruct (Z.ltb_spec (size_of f) FLAGS_flare_http_max_header_size); [done|lia]|].
    rewrite EndsWith_spec, bool_decide_eq_false_2.
    + destruct (Z.ltb_spec (size_of (contents nb)) FLAGS_flare_http_max_header_size); [done|lia].
    + intros [k Hk]. pose proof (prefix_no_marker ls _ t Hne Hls Heq Ht) as Hno. rewrite find_None in Hno.
      apply (Hno k []). by rewrite app_nil_r.
  - apply (prefix_no_marker ls _ (concat bufs ++ t)); [done|done| |by destruct (concat bufs)].
    by rewrite Heq, Hcf, app_assoc.
  - intros H10. apply (EasyDetect_prefix f (block ls)); [|lia|done]. exists (concat bufs ++ t). by rewrite Heq, Hcf, app_assoc.
Qed.

(** ** The fields *)

Definition field_line (f : chars * chars) : chars := f.1 ++ chars_of ": " ++ f.2.

(** What a field must be to be sent. *)
Record field_ok (f : chars * chars) : Prop := {
  fo_name : f.1 ≠ [];
  fo_ascii : all_ascii f.1 ∧ all_ascii f.2;
  fo_colon : ":"%char ∉ f.1;
  fo_nl : nl ∉ f.1 ∧ nl ∉ f.2;
  fo_cr : cr ∉ f.1 ∧ cr ∉ f.2;
  fo_trim : Trim f.2 = f.2;
}.

Lemma field_line_ok f : field_ok f → line_ok (field_line f).
Proof.
  intros [Hn _ _ [? ?] [? ?] _]. unfold field_line. split_and!.
  - destruct f.1; done.
  - rewrite !not_elem_of_app. split_and!; [done|set_solver|done].
  - rewrite !not_elem_of_app. split_and!; [done|set_solver|done].
Qed.

Lemma ascii_app s t : all_ascii (s ++ t) ↔ all_ascii s ∧ all_ascii t.
Proof. apply Forall_app. Qed.

Lemma ascii_take n s : all_ascii s → all_ascii (take n s).
Proof. apply Forall_take. Qed.

Lemma ascii_of (s : string) : forallb (λ c, bool_decide (is_ascii c)) (chars_of s) = true → all_ascii (chars_of s).
Proof. intros Hall. apply Forall_forall. intros c Hc. rewrite forallb_forall in Hall. by apply (bool_decide_eq_true_1 _), Hall, list_elem_of_In. Qed.

(** Only the colon is lowered to a colon, and only the space to a space. *)
Lemma lower_colon c : lower c = lower ":"%char → c = ":"%char.
Proof. revert c. refine (forall_ascii (λ c, lower c = lower ":"%char → c = ":"%char) _). vm_compute. reflexivity. Qed.

Lemma lower_space c : lower c = lower " "%char → c = " "%char.
Proof. revert c. refine (forall_ascii (λ c, lower c = lower " "%char → c = " "%char) _). vm_compute. reflexivity. Qed.

(** A key without the separator [c] that matches a text matches before [c]. *)
Lemma match_before_sep c k t key :
  (∀ d, lower d = lower c → d = c) → c ∉ key →
  lower <$> take (length key) (k ++ c :: t) = lower <$> key → (length key ≤ length k)%nat.
Proof.
  intros Hc Hkey Heq. destruct (decide (length key ≤ length k)%nat) as [|Hlt]; [done|exfalso].
  assert (Hlt' : (length k < length key)%nat) by lia.
  destruct (lookup_lt_is_Some_2 key (length k) Hlt') as [d Hd].
  assert (Hl : (lower <$> take (length key) (k ++ c :: t)) !! length k = Some (lower c)).
  { rewrite list_lookup_fmap, lookup_take_lt, lookup_app_r, Nat.sub_diag by lia. done. }
  rewrite Heq, list_lookup_fmap, Hd in Hl. injection Hl as Hl. apply Hc in Hl. subst d.
  apply Hkey. by eapply list_elem_of_lookup_2.
Qed.

(** *** ReadFieldFromRawBytes *)

Record key_ok (key : chars) : Prop := {
  ko_ascii : all_ascii key;
  ko_colon : ":"%char ∉ key;
  ko_space : " "%char ∉ key;
  ko_long : (2 < length key)%nat;
}.

Lemma next_line view pos l t :
  drop pos view = l ++ cr :: nl :: t → l ≠ [] → nl ∉ l →
  find_from [nl] view (pos + 1) = Some (pos + length l + 1)%nat ∧ drop (pos + length l + 1 + 1) view = t.
Proof.
  intros Hd Hl Hnl. destruct l as [|c l]; [done|]. split.
  - rewrite (find_from_char nl view (pos + 1) (l ++ [cr]) t).
    + rewrite length_app. simpl. f_equal. lia.
    + replace (pos + 1)%nat with (pos + length [c])%nat by done. apply (drop_more _ [c]). rewrite Hd, <-app_assoc. done.
    + set_solver.
  - replace (pos + length (c :: l) + 1 + 1)%nat with (pos + length ((c :: l) ++ [cr; nl]))%nat by (rewrite length_app; simpl; lia).
    apply drop_more. by rewrite Hd, <-app_assoc.
Qed.

Lemma IEquals_short s key : length s ≠ length key → IEquals s key = Ret false.
Proof. intros Hl. unfold IEquals. by rewrite decide_False. Qed.

(** The end of the block. *)
Lemma read_end fuel view key pos :
  drop pos view = CRLF → key_ok key → ReadFieldFromRawBytes_loop (S (S fuel)) view key pos = Ret [].
Proof.
  intros Hd [_ _ _ Hk]. pose proof (drop_length_le _ _ _ Hd ltac:(done)) as Hlen. simpl in Hlen.
  cbn [ReadFieldFromRawBytes_loop]. rewrite Hd, IEquals_short by (rewrite length_take; simpl; lia). cbn [obind].
  rewrite (find_from_char nl view (pos + 1) [] []); [|by apply (drop_more _ [cr])|set_solver].
  rewrite drop_ge, IEquals_short by (rewrite ?length_take; simpl; lia). cbn [obind].
  unfold find_from. by rewrite drop_ge by (simpl; lia).
Qed.

(** A line that does not have the name. *)
Lemma read_skip fuel view key pos l t :
  drop pos view = l ++ cr :: nl :: t → l ≠ [] → nl ∉ l → all_ascii (take (length key) (drop pos view)) → key_ok key →
  (lower <$> take (length key) (drop pos view) = lower <$> key →
     ∃ c, drop pos view !! length key = Some c ∧ c ≠ ":"%char) →
  ReadFieldFromRawBytes_loop (S fuel) view key pos =
  ReadFieldFromRawBytes_loop fuel view key (pos + length l + 1 + 1).
Proof.
  intros Hd Hl Hnl Hasc Hk Hno. destruct (next_line _ _ _ _ Hd Hl Hnl) as [Hnext _].
  cbn [ReadFieldFromRawBytes_loop]. rewrite IEquals_spec, Hnext by (done || apply Hk). cbn [obind].
  case_bool_decide as Heq; [|done]. destruct (Hno Heq) as (c & Hc & Hne). pose proof (lookup_lt_Some _ _ _ Hc).
  destruct (Nat.eqb_spec (length (drop pos view)) (length key)); [lia|]. rewrite Hc. cbn [deref obind].
  by rewrite bool_decide_eq_false_2.
Qed.

(** A line with the name. *)
Lemma read_hit fuel view key pos f t :
  drop pos view = field_line f ++ cr :: nl :: t → field_ok f → key_ok key → same_name key f →
  ReadFieldFromRawBytes_loop (S fuel) view key pos = Ret f.2.
Proof.
  intros Hd Hf Hk Hsame. unfold same_name in Hsame.
  assert (Hlen : length f.1 = length key) by (by rewrite <-(length_fmap lower f.1), Hsame, length_fmap).
  assert (Hfield : drop pos view = f.1 ++ ":"%char :: " "%char :: f.2 ++ cr :: nl :: t).
  { rewrite Hd. unfold field_line. by rewrite <-!app_assoc. }
  cbn [ReadFieldFromRawBytes_loop]. rewrite Hfield. rewrite <-Hlen at 1. rewrite take_app_length.
  rewrite IEquals_spec, bool_decide_eq_true_2 by (done || apply Hf || apply Hk). cbn [obind].
  rewrite length_app. cbn [length]. destruct (Nat.eqb_spec (length f.1 + S (S (length (f.2 ++ cr :: nl :: t)))) (length key)); [lia|].
  rewrite <-Hlen at 1. rewrite list_lookup_middle by done. cbn [deref obind]. rewrite bool_decide_eq_true_2 by done.
  assert (find [cr] (f.1 ++ ":"%char :: " "%char :: f.2 ++ cr :: nl :: t) = Some (length f.1 + 2 + length f.2)%nat) as ->.
  { replace (f.1 ++ ":"%char :: " "%char :: f.2 ++ cr :: nl :: t) with ((f.1 ++ chars_of ": " ++ f.2) ++ cr :: nl :: t) by (by rewrite <-!app_assoc).
    rewrite find_char_app; [rewrite !length_app; simpl; f_equal; lia|]. destruct (fo_cr _ Hf). rewrite !not_elem_of_app. split_and!; [done|set_solver|done]. }
  destruct (Nat.leb_spec (length f.1 + 2 + length f.2) (length key + 1)); [lia|]. f_equal.
  assert (drop (length key + 1) (f.1 ++ ":"%char :: " "%char :: f.2 ++ cr :: nl :: t) = (" "%char :: f.2) ++ cr :: nl :: t) as ->.
  { rewrite drop_app_ge by lia. by replace (length key + 1 - length f.1)%nat with 1%nat by lia. }
  rewrite take_app_length' by (simpl; lia). apply Trim_space, Trim_trimmed, Hf.
Qed.

(** A field line that does not have the name. *)
Lemma read_miss fuel view key pos f t :
  drop pos view = field_line f ++ cr :: nl :: t → field_ok f → key_ok key → ¬ same_name key f →
  all_ascii (take (length key) (drop pos view)) →
  ReadFieldFromRawBytes_loop (S fuel) view key pos =
  ReadFieldFromRawBytes_loop fuel view key (pos + length (field_line f) + 1 + 1).
Proof.
  intros Hd Hf Hk Hno Hasc. destruct (field_line_ok f Hf) as (Hne & Hnl & _).
  apply (read_skip fuel view key pos (field_line f) t Hd Hne Hnl Hasc Hk). intros Heq.
  assert (Hfield : drop pos view = f.1 ++ ":"%char :: " "%char :: f.2 ++ cr :: nl :: t).
  { rewrite Hd. unfold field_line. by rewrite <-!app_assoc. }
  rewrite Hfield in *. pose proof (match_before_sep _ _ _ _ lower_colon (ko_colon _ Hk) Heq) as Hle.
  rewrite take_app_le in Heq by done. destruct (decide (length key = length f.1)) as [Hlen|Hlen].
  - destruct Hno. unfold same_name. by rewrite <-Heq, Hlen, firstn_all.
  - destruct (lookup_lt_is_Some_2 f.1 (length key)) as [c Hc]; [lia|]. exists c. rewrite lookup_app_l by lia. split; [done|].
    intros ->. apply (fo_colon _ Hf). by eapply list_elem_of_lookup_2.
Qed.

Lemma read_fields fuel view key pos fs :
  drop pos view = block (field_line <$> fs) → Forall field_ok fs → key_ok key →
  (length fs + 2 ≤ fuel)%nat →
  ReadFieldFromRawBytes_loop fuel view key pos =
  Ret (default [] (snd <$> head (filter (same_name key) fs))).
Proof.
  intros Hd Hfs Hk. revert fuel pos Hd. induction Hfs as [|f fs Hf Hfs IH]; intros fuel pos Hd Hfuel.
  { destruct fuel as [|[|fuel]]; [simpl in Hfuel; lia..|]. by apply read_end. }
  destruct fuel as [|fuel]; [simpl in Hfuel; lia|]. cbn [length] in Hfuel. rewrite fmap_cons in Hd.
  pose proof (block_cons (field_line f) (field_line <$> fs) []) as Hbc. rewrite !app_nil_r in Hbc. rewrite Hbc in Hd.
  rewrite filter_cons. destruct (decide (same_name key f)) as [Hs|Hs]; [by eapply read_hit|].
  assert (Hasc : all_ascii (drop pos view)).
  { rewrite <-Hbc in Hd. change (field_line f :: (field_line <$> fs)) with (field_line <$> (f :: fs)) in Hd. rewrite Hd.
    unfold block, unlines. rewrite ascii_app. split; [|repeat constructor]. apply Forall_concat, Forall_fmap, Forall_fmap.
    apply Forall_cons. assert (Hone : ∀ g, field_ok g → all_ascii ((λ l, l ++ CRLF) (field_line g))).
    { intros g [_ [? ?] _ _ _ _]. unfold field_line. rewrite !ascii_app. split_and!; [done|repeat constructor|done|repeat constructor]. }
    split; [by apply Hone|]. eapply Forall_impl; [exact Hfs|]. exact Hone. }
  rewrite (read_miss fuel view key pos f _ Hd Hf Hk Hs (ascii_take _ _ Hasc)).
  apply IH; [|lia]. destruct (field_line_ok f Hf) as (Hne & Hnl & _). by apply (next_line _ _ _ _ Hd).
Qed.

(** A start line has a word and a space. *)
Record start_ok (start : chars) : Prop := {
  so_line : line_ok start;
  so_ascii : all_ascii start;
  so_word : ∃ k t, start = k ++ " "%char :: t ∧ (length k < 14)%nat;
}.

(** The block of a message. *)
Definition message_block (start : chars) (fs : list (chars * chars)) : chars := block (start :: (field_line <$> fs)).

Lemma message_lines start fs : start_ok start → Forall field_ok fs → Forall line_ok (start :: (field_line <$> fs)).
Proof.
  intros [Hs _ _] Hfs. constructor; [done|]. apply Forall_fmap. eapply Forall_impl; [exact Hfs|]. apply field_line_ok.
Qed.

Lemma message_ascii start fs : start_ok start → Forall field_ok fs → all_ascii (message_block start fs).
Proof.
  intros [_ Hs _] Hfs. unfold message_block, block, unlines. rewrite ascii_app. split; [|repeat constructor].
  apply Forall_concat, Forall_fmap. assert (Hone : ∀ l, all_ascii l → all_ascii ((λ l, l ++ CRLF) l)).
  { intros l Hl. rewrite ascii_app. split; [done|repeat constructor]. }
  constructor; [by apply Hone|]. apply Forall_fmap. eapply Forall_impl; [exact Hfs|].
  intros f [_ [? ?] _ _ _ _]. apply Hone. unfold field_line. rewrite !ascii_app. split_and!; [done|repeat constructor|done].
Qed.

(** The value of the first field with the name. *)
Definition field_value (key : chars) (fs : list (chars * chars)) : option chars :=
  snd <$> head (filter (same_name key) fs).

Lemma ReadFieldFromRawBytes_spec start fs key :
  start_ok start → Forall field_ok fs → key_ok key → length key = 14%nat →
  ReadFieldFromRawBytes (message_block start fs) key = Ret (default [] (field_value key fs)).
Proof.
  intros Hs Hfs Hk H14. unfold ReadFieldFromRawBytes. pose proof (message_ascii _ _ Hs Hfs) as Hasc.
  destruct Hs as [(Hne & Hnl & Hcr) _ (k & t & Heq & Hlen)].
  pose proof (block_cons start (field_line <$> fs) []) as Hbc. rewrite !app_nil_r in Hbc.
  assert (Hfuel : (length fs + 2 ≤ length (message_block start fs))%nat).
  { unfold message_block. rewrite Hbc, length_app. unfold block, unlines. cbn [length]. rewrite length_app.
    assert (length fs ≤ length (concat ((λ l, l ++ CRLF) <$> (field_line <$> fs))))%nat; [|destruct start; [done|simpl; lia]].
    clear. induction fs as [|f fs IH]; csimpl; [lia|]. rewrite !length_app. simpl. lia. }
  rewrite (read_skip _ _ _ 0 start (block (field_line <$> fs))); try done.
  - destruct (next_line (message_block start fs) 0 start (block (field_line <$> fs))) as [_ Hd]; try done.
    by apply read_fields.
  - rewrite drop_0. by apply ascii_take.
  - rewrite drop_0. unfold message_block. rewrite Hbc, Heq, <-app_assoc. cbn [app]. intros Hm.
    pose proof (match_before_sep _ _ _ _ lower_space (ko_space _ Hk) Hm). lia.
Qed.

(** *** Parsing *)

Lemma ParseFields_spec fuel fs acc :
  Forall field_ok fs → (length (unlines (field_line <$> fs)) ≤ fuel)%nat →
  ParseFields fuel (unlines (field_line <$> fs)) acc = Ret (Some (acc ++ fs)).
Proof.
  intros Hfs. revert fuel acc. induction Hfs as [|f fs Hf Hfs IH]; intros fuel acc Hfuel.
  { by destruct fuel; cbn; rewrite app_nil_r. }
  rewrite fmap_cons, unlines_cons in *. rewrite length_app in Hfuel. cbn [length] in Hfuel.
  destruct (field_line_ok f Hf) as (Hne & Hnl & Hcr). set (l := field_line f) in *.
  destruct fuel as [|fuel]; [lia|].
  destruct (l ++ cr :: nl :: unlines (field_line <$> fs)) as [|x y] eqn:E; [by destruct l|].
  cbn [ParseFields]. rewrite <-E. clear E.
  replace (l ++ cr :: nl :: unlines (field_line <$> fs)) with ((l ++ [cr]) ++ nl :: unlines (field_line <$> fs)) by (by rewrite <-app_assoc).
  rewrite find_char_app by set_solver. rewrite length_app. cbn [length].
  destruct (Nat.ltb_spec (length l + 1) 2); [destruct l; [done|simpl in *; lia]|]. cbn [orb].
  replace (length l + 1 - 1)%nat with (length l) by lia. rewrite <-app_assoc. cbn [app].
  rewrite list_lookup_middle, bool_decide_eq_true_2 by done. cbn [negb]. rewrite take_app_length.
  assert (Hl : l = f.1 ++ ":"%char :: " "%char :: f.2) by (unfold l, field_line; done).
  rewrite Hl at 1. rewrite find_char_app by apply Hf.
  assert (take (length f.1) l = f.1) as -> by (rewrite Hl; apply take_app_length).
  assert (drop (length f.1 + 1) l = " "%char :: f.2) as ->.
  { rewrite Hl, drop_app_ge by lia. by replace (length f.1 + 1 - length f.1)%nat with 1%nat by lia. }
  rewrite Trim_space by apply Trim_trimmed, Hf. pose proof (fo_name _ Hf). destruct f as [[|c k] v]; [done|]. cbn [fst snd].
  rewrite drop_app_ge by lia. replace (length l + 1 + 1 - length l)%nat with 2%nat by lia. cbn [drop].
  rewrite IH by lia. by rewrite <-app_assoc.
Qed.

Lemma ParseMessagePartial_spec h start fs :
  hd_inv h → start_ok start → Forall field_ok fs → Z.of_nat (length fs) ≤ 2 ^ 60 →
  ∃ h', ParseMessagePartial (message_block start fs) h = Ret (Some start, h') ∧ fields_ h' = fs ∧ hd_inv h'.
Proof.
  intros Hh Hs Hfs Hlen. unfold ParseMessagePartial.
  rewrite EndsWith_spec, bool_decide_eq_true_2 by (by apply block_marker). cbn [negb].
  assert (take (length (message_block start fs) - 2) (message_block start fs) =
          unlines (start :: (field_line <$> fs))) as ->.
  { unfold message_block, block. rewrite length_app, take_app_length'; [done|]. change (length CRLF) with 2%nat. lia. }
  rewrite unlines_cons. destruct Hs as [(Hne & Hnl & Hcr) _ _].
  replace (start ++ cr :: nl :: unlines (field_line <$> fs)) with ((start ++ [cr]) ++ nl :: unlines (field_line <$> fs)) by (by rewrite <-app_assoc).
  rewrite find_char_app by set_solver. rewrite (length_app start [cr]). cbn [length].
  destruct (Nat.eqb_spec (length start + 1) 1); [destruct start; [done|simpl in *; lia]|].
  destruct (Nat.eqb_spec (length start + 1) 0); [lia|].
  replace (length start + 1 - 1)%nat with (length start) by lia. rewrite <-!app_assoc. cbn [app]. rewrite take_app_length.
  rewrite drop_app_ge by lia. replace (length start + 1 + 1 - length start)%nat with 2%nat by lia. cbn [drop].
  rewrite drop_0, ParseFields_spec by (done || (rewrite length_app; cbn [length]; lia)). cbn [obind app].
  destruct (RetrieveFields_effect h fs Hh) as (h' & -> & Hinv & Hf); [|done|].
  - eapply Forall_impl; [exact Hfs|]. intros f Hf. apply Hf.
  - cbn [obind]. eauto.
Qed.

(** ** Cutting a message off the buffer *)

Definition content_length : chars := chars_of "Content-Length".

Lemma content_length_ok : key_ok content_length.
Proof.
  split; [apply ascii_of; vm_compute; reflexivity| | |simpl; lia];
    apply (bool_decide_unpack _); vm_compute; exact I.
Qed.

(** What a block must be for its message to be cut off. *)
Record block_ok (start : chars) (fs : list (chars * chars)) (n : Z) : Prop := {
  bo_start : start_ok start;
  bo_fields : Forall field_ok fs;
  bo_detect : EasyDetectHttp (message_block start fs) = true;
  bo_clobbered : IsMessageClobbered (message_block start fs) = false;
  bo_length : field_value content_length fs = Some (to_string n);
  bo_range : 0 ≤ n < 2 ^ 63;
}.

Section cutting.
Context (start : chars) (fs : list (chars * chars)) (n : Z) (Hok : block_ok start fs n).
Notation hblock := (message_block start fs).

Lemma block_lines : Forall line_ok (start :: (field_line <$> fs)).
Proof. apply message_lines; apply Hok. Qed.

(** The header was not read yet, or it was read by an earlier call. *)
Definition header_state (st : option chars) : Prop := st = None ∨ st = Some hblock.

(** Once the header is known. *)
Lemma TryCut_body side st nb :
  cut_header (mkProtocol side st) nb = Ret (inr hblock) →
  TryCutMessage (mkProtocol side st) nb false =
  if byte_size_ nb <? u64 (size_of hblock + n) then Ret (mkCut NeedMore (mkProtocol side (Some hblock)) nb None false)
  else
    buffer ←! Skip nb (size_of hblock);
    '(msg_body, buffer) ←! Cut buffer n;
    Ret (mkCut Cut_OK (mkProtocol side None) buffer (Some (mkOnWire hblock msg_body)) false).
Proof.
  intros Hh. unfold TryCutMessage. rewrite Hh. cbn [obind]. destruct Hok as [Hs Hfs _ _ Hl Hr].
  change (chars_of "Content-Length") with content_length.
  rewrite ReadFieldFromRawBytes_spec, Hl by (done || apply content_length_ok). cbn [obind default server_side_ id].
  rewrite TryParse_size_print by done. done.
Qed.

Lemma cut_header_full side st nb rest :
  nb_inv nb → contents nb = hblock ++ rest → header_state st → cut_header (mkProtocol side st) nb = Ret (inr hblock).
Proof.
  intros Hnb Hc [->| ->]; [|done]. unfold cut_header. cbn [parsed_header_block_].
  rewrite (ReadHeader_full nb _ rest Hnb Hc); [|done|apply block_lines|apply Hok].
  cbn [obind]. fold hblock. by rewrite (bo_clobbered _ _ _ Hok).
Qed.

(** The whole message is there. *)
Lemma TryCut_complete side st nb bd rest :
  nb_inv nb → contents nb = hblock ++ bd ++ rest → size_of bd = n → header_state st →
  ∃ msg nb', TryCutMessage (mkProtocol side st) nb false =
      Ret (mkCut Cut_OK (mkProtocol side None) nb' (Some (mkOnWire hblock msg)) false) ∧
    nb_inv msg ∧ nb_inv nb' ∧ contents msg = bd ∧ contents nb' = rest.
Proof.
  intros Hnb Hc Hn Hst. rewrite TryCut_body by (by eapply cut_header_full).
  pose proof (nbi_size _ Hnb) as Hs. pose proof (nbi_range _ Hnb). rewrite Hc, !length_app in Hs. pose proof (bo_range _ _ _ Hok).
  rewrite u64_small by lia. destruct (Z.ltb_spec (byte_size_ nb) (size_of hblock + n)); [lia|].
  destruct (Skip_spec nb (size_of hblock) Hnb) as (nb1 & -> & Hnb1 & Hc1); [lia|]. cbn [obind].
  rewrite Hc, Nat2Z.id, drop_app_length in Hc1. pose proof (nbi_size _ Hnb1) as Hs1. rewrite Hc1, length_app in Hs1.
  destruct (Cut_spec nb1 n Hnb1) as (msg & nb2 & -> & Hm & Hnb2 & Hcm & Hc2); [lia|]. cbn [obind].
  rewrite Hc1 in Hcm, Hc2. rewrite take_app_length' in Hcm by lia. rewrite drop_app_length' in Hc2 by lia.
  exists msg, nb2. done.
Qed.

(** A part of it is there: the call asks for more and leaves the buffer alone. *)
Lemma TryCut_partial side st nb bd t :
  nb_inv nb → contents nb ≠ [] → hblock ++ bd = contents nb ++ t → t ≠ [] → size_of bd = n → header_state st →
  size_of hblock ≤ FLAGS_flare_http_max_header_size →
  ∃ status st', TryCutMessage (mkProtocol side st) nb false = Ret (mkCut status (mkProtocol side st') nb None false) ∧
    (status = NotIdentified ∨ status = NeedMore) ∧ header_state st'.
Proof.
  intros Hnb Hne Heq Ht Hn Hst Hmax. pose proof (bo_range _ _ _ Hok). pose proof (nbi_size _ Hnb) as Hs.
  assert (Hlen : (length (contents nb) + length t = length hblock + length bd)%nat) by (rewrite <-!length_app; by rewrite Heq).
  assert (0 < length t)%nat by (destruct t; [done|simpl; lia]).
  assert (Hmore : cut_header (mkProtocol side st) nb = Ret (inr hblock) →
    ∃ status st', TryCutMessage (mkProtocol side st) nb false = Ret (mkCut status (mkProtocol side st') nb None false) ∧
      (status = NotIdentified ∨ status = NeedMore) ∧ header_state st').
  { intros Hh. rewrite TryCut_body by done. unfold FLAGS_flare_http_max_header_size in Hmax. rewrite u64_small by lia.
    destruct (Z.ltb_spec (byte_size_ nb) (size_of hblock + n)); [|lia].
    eexists _, _. split_and!; [done|by right|by right]. }
  destruct Hst as [->| ->]; [|by apply Hmore].
  apply app_eq_inv in Heq as [(k & HH & Hk)|(k & Hc & Hbd)].
  - destruct k as [|c k].
    { apply Hmore. apply (cut_header_full side None nb []); [done|by rewrite HH, !app_nil_r|by left]. }
    unfold TryCutMessage, cut_header. cbn [parsed_header_block_].
    rewrite (ReadHeader_partial nb (start :: (field_line <$> fs)) (c :: k)); try done; [|apply block_lines|apply Hok].
    cbn [obind]. eexists _, _. split_and!; [done|by left|by left].
  - apply Hmore. apply (cut_header_full side None nb k Hnb Hc). by left.
Qed.
End cutting.

(** ** Writing *)

(** What is sent as the body: the buffer when there is one. *)
Definition sent_body (m : HttpMessage) : chars :=
  match noncontiguous_body m with Some nb => contents nb | None => body_text m end.

Section written.
Context (block_size : Z) (Hblock : 1024 ≤ block_size).
Notation builder_inv := (builder_inv block_size).
Notation fits b s := (size_of (built b) + size_of s < 2 ^ 64) (only parsing).

Lemma WriteHeader_spec h b :
  builder_inv b → fits b (unlines (field_line <$> fields_ h)) →
  ∃ b', WriteHeader block_size h b = Ret b' ∧ builder_inv b' ∧ built b' = built b ++ unlines (field_line <$> fields_ h).
Proof.
  unfold WriteHeader. generalize (fields_ h). intros fs. revert b. induction fs as [|f fs IH]; intros b Hinv Hfit.
  { exists b. by rewrite app_nil_r. }
  rewrite fmap_cons, unlines_cons in Hfit |- *. cbn [foldl obind].
  assert (Hl : concat [f.1; chars_of ": "; f.2; CRLF] = field_line f ++ CRLF).
  { unfold field_line. cbn [concat]. by rewrite app_nil_r, <-!app_assoc. }
  assert (Hlen : length (field_line f ++ CRLF) = (length (field_line f) + 2)%nat) by (rewrite length_app; done).
  rewrite length_app in Hfit. cbn [length] in Hfit.
  edestruct (Append_many_spec block_size) as (b1 & -> & Hinv1 & Hb1); [done|exact Hinv|rewrite Hl, Hlen; lia|].
  rewrite Hl in Hb1. destruct (IH b1 Hinv1) as (b2 & He & Hinv2 & Hb2).
  - rewrite Hb1, length_app, Hlen. lia.
  - exists b2. split_and!; [done|done|]. by rewrite Hb2, Hb1, <-!app_assoc.
Qed.

Lemma write_rest_spec m b :
  builder_inv b → message_inv m → fits b (unlines (field_line <$> fields_ (headers_ m)) ++ CRLF ++ sent_body m) →
  ∃ b', write_rest block_size m b = Ret b' ∧ builder_inv b' ∧
    built b' = built b ++ block (field_line <$> fields_ (headers_ m)) ++ sent_body m.
Proof.
  intros Hinv Hm Hfit. unfold write_rest. rewrite !length_app in Hfit. change (length CRLF) with 2%nat in Hfit.
  destruct (WriteHeader_spec (headers_ m) b Hinv) as (b1 & -> & Hinv1 & Hb1); [lia|]. cbn [obind].
  edestruct (Append_spec block_size) as (b2 & -> & Hinv2 & Hb2); [done|exact Hinv1| |].
  { rewrite Hb1, length_app. simpl. lia. }
  cbn [obind]. unfold block, sent_body, message_inv in *. destruct (noncontiguous_body m) as [nb|] eqn:Eb.
  - unfold noncontiguous_body in Eb. rewrite Eb in Hm. edestruct (Append_ncb_spec block_size) as (b3 & -> & Hinv3 & Hb3); [done|exact Hinv2|exact Hm| |].
    { rewrite Hb2, Hb1, !length_app. simpl. lia. }
    exists b3. split_and!; [done|done|]. by rewrite Hb3, Hb2, Hb1, <-!app_assoc.
  - edestruct (Append_spec block_size) as (b3 & -> & Hinv3 & Hb3); [done|exact Hinv2| |].
    { rewrite Hb2, Hb1, !length_app. simpl. lia. }
    exists b3. split_and!; [done|done|]. by rewrite Hb3, Hb2, Hb1, <-!app_assoc.
Qed.

(** The start line and the rest. *)
Lemma write_message_spec line m parts :
  message_inv m → concat parts = line ++ CRLF →
  size_of (message_block line (fields_ (headers_ m))) + size_of (sent_body m) < 2 ^ 64 →
  ∃ w, (builder ←! Builder_new block_size;
        builder ←! (b ←! Append_many block_size builder parts; write_rest block_size m b);
        DestructiveGet builder) = Ret w ∧ nb_inv w ∧
    contents w = message_block line (fields_ (headers_ m)) ++ sent_body m.
Proof.
  intros Hm Hparts Hfit. unfold message_block in *. pose proof (block_cons line (field_line <$> fields_ (headers_ m)) []) as Hbc.
  rewrite !app_nil_r in Hbc. rewrite Hbc in *. unfold block in *. rewrite !length_app in Hfit. cbn [length] in Hfit. rewrite length_app in Hfit.
  change (length CRLF) with 2%nat in Hfit.
  destruct (Builder_new_spec block_size) as (b0 & -> & Hinv0 & Hb0); [done|]. cbn [obind].
  edestruct (Append_many_spec block_size) as (b1 & -> & Hinv1 & Hb1); [done|exact Hinv0| |].
  { rewrite Hb0, Hparts, length_app. simpl. lia. }
  cbn [obind]. destruct (write_rest_spec m b1 Hinv1 Hm) as (b2 & -> & Hinv2 & Hb2).
  { rewrite Hb1, Hb0, Hparts, !length_app. simpl. lia. }
  cbn [obind]. edestruct (DestructiveGet_spec block_size) as (w & -> & Hw & Hc); [exact Hinv2| |].
  { rewrite Hb2, Hb1, Hb0, Hparts. unfold block. rewrite !length_app. simpl. lia. }
  exists w. split_and!; [done|done|]. rewrite Hc, Hb2, Hb1, Hb0, Hparts, app_nil_l. unfold block.
  rewrite <-!app_assoc. cbn [app]. by rewrite <-!app_assoc.
Qed.
End written.

(** ** Requests *)

Definition method_text (m : HttpMethod) : chars := match ToStringView_method m with Ret s => s | _ => [] end.
Definition version_text (v : HttpVersion) : chars := match ToStringView_version v with Ret s => s | _ => [] end.

Definition request_line (r : HttpRequest) : chars :=
  method_text (method_ r) ++ " "%char :: uri_ r ++ " "%char :: version_text (version_ (req_msg r)).

(** A request that can be sent and received by this implementation. *)
Record request_ok (r : HttpRequest) : Prop := {
  ro_method : method_ r ≠ Unspecified ∧ method_ r ≠ Options;
  ro_version : version_ (req_msg r) = V_1_0 ∨ version_ (req_msg r) = V_1_1;
  ro_uri : uri_ r ≠ [] ∧ all_ascii (uri_ r) ∧ " "%char ∉ uri_ r ∧ nl ∉ uri_ r ∧ cr ∉ uri_ r;
  ro_clobbered : method_ r = Post → ¬ chars_of "/rpc/" `prefix_of` uri_ r ∧ ¬ chars_of "/__rpc_service__" `prefix_of` uri_ r;
  ro_fields : Forall field_ok (fields_ (headers_ (req_msg r)));
  ro_body : message_inv (req_msg r);
  ro_length : field_value content_length (fields_ (headers_ (req_msg r))) = Some (to_string (size_of (sent_body (req_msg r))));
  ro_size : size_of (message_block (request_line r) (fields_ (headers_ (req_msg r)))) + size_of (sent_body (req_msg r)) < 2 ^ 63;
}.

(** A word of a start line. *)
Definition word (s : chars) : Prop := s ≠ [] ∧ all_ascii s ∧ " "%char ∉ s ∧ nl ∉ s ∧ cr ∉ s.

#[local] Instance word_dec s : Decision (word s).
Proof. unfold word. apply _. Defined.

(** The first four characters of a start line. *)
Definition lead (m : HttpMethod) : chars := take 4 (method_text m ++ [" "%char]).

Record method_facts (m : HttpMethod) : Prop := {
  mf_text : ToStringView_method m = Ret (method_text m);
  mf_word : word (method_text m);
  mf_length : (3 ≤ length (method_text m) < 14)%nat;
  mf_parse : TryParse_method (method_text m) = Some m;
  mf_lead : existsb (λ e, bool_decide (lead m = take 4 e)) kLeadingWords = true;
  mf_post : lead m = chars_of "POST" → m = Post;
}.

Lemma method_ok m : m ≠ Unspecified → m ≠ Options → method_facts m.
Proof.
  intros Hu Ho. destruct m; try done; (split; [vm_compute; reflexivity|apply (bool_decide_unpack _); vm_compute; exact I|
    vm_compute; lia|vm_compute; reflexivity|vm_compute; reflexivity|by vm_compute]).
Qed.

Lemma lead_spec m t : method_facts m → take 4 (method_text m ++ " "%char :: t) = lead m.
Proof.
  intros Hm. pose proof (mf_length _ Hm). unfold lead.
  replace (method_text m ++ " "%char :: t) with ((method_text m ++ [" "%char]) ++ t) by (by rewrite <-app_assoc).
  by rewrite take_app_le by (rewrite length_app; simpl; lia).
Qed.

Lemma method_detect m t : method_facts m → (4 ≤ length t)%nat → EasyDetectHttp (method_text m ++ " "%char :: t) = true.
Proof.
  intros Hm Ht. pose proof (mf_length _ Hm). unfold EasyDetectHttp. change kMinLength with 8%nat.
  destruct (Nat.ltb_spec (length (method_text m ++ " "%char :: t)) 8) as [Hlt|_]; [rewrite length_app in Hlt; simpl in Hlt; lia|].
  rewrite lead_spec by done. apply Hm.
Qed.

Lemma version_facts v :
  v = V_1_0 ∨ v = V_1_1 →
  ToStringView_version v = Ret (version_text v) ∧ word (version_text v) ∧ length (version_text v) = 8%nat ∧
  (if decide (version_text v = chars_of "HTTP/1.1") then Some V_1_1
   else if decide (version_text v = chars_of "HTTP/1.0") then Some V_1_0 else None) = Some v.
Proof.
  intros [->| ->]; (split_and!; [vm_compute; reflexivity|apply (bool_decide_unpack _); vm_compute; exact I|reflexivity|vm_compute; reflexivity]).
Qed.

Lemma prefix_before_sep (x a b : chars) c : x `prefix_of` a ++ c :: b → c ∉ x → x `prefix_of` a.
Proof.
  intros [k Hk] Hc. symmetry in Hk. apply app_eq_inv in Hk as [(j & Hx & Hj)|(j & -> & _)].
  - destruct j as [|d j]; [rewrite app_nil_r in Hx; subst; done|]. simplify_eq/=. set_solver.
  - by exists j.
Qed.

Lemma not_clobbered m uri t :
  method_facts m → " "%char ∉ uri →
  (m = Post → ¬ chars_of "/rpc/" `prefix_of` uri ∧ ¬ chars_of "/__rpc_service__" `prefix_of` uri) →
  IsMessageClobbered (method_text m ++ " "%char :: uri ++ " "%char :: t) = false.
Proof.
  intros Hm Hsp Hpost.
  assert (Hone : ∀ e, " "%char ∉ e → ¬ (m = Post ∧ e `prefix_of` uri) →
    StartsWith (method_text m ++ " "%char :: uri ++ " "%char :: t) (chars_of "POST " ++ e) = false).
  { intros e He Hno. rewrite StartsWith_spec. apply bool_decide_eq_false_2. intros Hp.
    assert (m = Post) as ->.
    { apply (mf_post _ Hm). rewrite <-(lead_spec m (uri ++ " "%char :: t)) by done. destruct Hp as [k ->]. done. }
    apply Hno. split; [done|]. change (method_text Post) with (chars_of "POST") in Hp.
    destruct Hp as [k Hk]. injection Hk as Hk. eapply prefix_before_sep; [by exists k|done]. }
  set (line := method_text m ++ _) in *.
  change (IsMessageClobbered line) with (StartsWith line (chars_of "POST " ++ chars_of "/rpc/") ||
    (StartsWith line (chars_of "POST " ++ chars_of "/__rpc_service__") || false)).
  rewrite !Hone; [done|apply (bool_decide_unpack _); vm_compute; exact I|naive_solver|
    apply (bool_decide_unpack _); vm_compute; exact I|naive_solver].
Qed.

Lemma request_start_ok r : request_ok r → start_ok (request_line r).
Proof.
  intros [[? ?] Hv (Hu & Hua & Hus & Hun & Huc) _ _ _ _ _].
  destruct (method_ok (method_ r)) as [_ (Hm & Hma & Hms & Hmn & Hmc) Hml _ _ _]; [done..|].
  destruct (version_facts _ Hv) as (_ & (Hve & Hva & Hvs & Hvn & Hvc) & _ & _). unfold request_line. split.
  - split_and!; [by destruct (method_text (method_ r))| |];
      rewrite not_elem_of_app, not_elem_of_cons, not_elem_of_app, not_elem_of_cons; (split_and!; done).
  - rewrite ascii_app. split; [done|]. constructor; [vm_compute; lia|]. rewrite ascii_app. split; [done|].
    constructor; [vm_compute; lia|done].
  - eexists _, _. split; [done|lia].
Qed.

Lemma request_block_ok r :
  request_ok r → block_ok (request_line r) (fields_ (headers_ (req_msg r))) (size_of (sent_body (req_msg r))).
Proof.
  intros Hr. pose proof (request_start_ok r Hr) as Hs. destruct Hr as [[Hmu Hmo] Hv (_ & _ & Hus & _) Hcl Hf _ Hl Hsz].
  pose proof (method_ok _ Hmu Hmo) as Hm. destruct (version_facts _ Hv) as (_ & _ & Hvl & _).
  pose proof (block_cons (request_line r) (field_line <$> fields_ (headers_ (req_msg r))) []) as Hbc. rewrite !app_nil_r in Hbc.
  split; try done.
  - unfold message_block. rewrite Hbc. unfold request_line. rewrite <-app_assoc. cbn [app]. apply method_detect; [done|].
    rewrite !length_app. cbn [length]. lia.
  - unfold message_block. rewrite Hbc. unfold request_line. rewrite <-app_assoc. cbn [app]. rewrite <-app_assoc. by apply not_clobbered.
  - lia.
Qed.

Lemma ParseRequestStartLine_spec r :
  request_ok r → ParseRequestStartLine (request_line r) = Ret (Some (version_ (req_msg r), method_ r, uri_ r)).
Proof.
  intros [[Hmu Hmo] Hv (Hu & _ & Hus & _) _ _ _ _ _].
  destruct (method_ok _ Hmu Hmo) as [_ (Hm & _ & Hms & _) _ Hp _ _].
  destruct (version_facts _ Hv) as (_ & (Hve & _ & Hvs & _) & _ & Hver).
  unfold ParseRequestStartLine. assert (Hj : request_line r =
    join_parts true [method_text (method_ r); uri_ r; version_text (version_ (req_msg r))] [" "%char]).
  { unfold request_line. cbn [join_parts app]. by rewrite app_nil_r. }
  change (chars_of " ") with [" "%char]. rewrite Hj.
  destruct (Split_join_char " "%char [method_text (method_ r); uri_ r; version_text (version_ (req_msg r))]) as [_ ->].
  - done.
  - repeat (constructor; [done|]). constructor.
  - rewrite <-Hj. unfold request_line. by destruct (method_text (method_ r)).
  - rewrite !filter_cons_True by done. cbn [obind filter list_filter]. rewrite Hver, Hp. done.
Qed.

Lemma WriteMessage_request_spec block_size r :
  1024 ≤ block_size → request_ok r →
  ∃ w, WriteMessage block_size (HttpRequestMessage r) = Ret w ∧ nb_inv w ∧
    contents w = message_block (request_line r) (fields_ (headers_ (req_msg r))) ++ sent_body (req_msg r).
Proof.
  intros Hbs [[Hmu Hmo] Hv _ _ _ Hb _ Hsz]. unfold WriteMessage, WriteMessage_request.
  rewrite (mf_text _ (method_ok _ Hmu Hmo)), (proj1 (version_facts _ Hv)). cbn [obind].
  eapply write_message_spec; [done|done| |lia]. unfold request_line.
  cbn [concat]. rewrite app_nil_r, <-!app_assoc. cbn [app]. by rewrite <-!app_assoc.
Qed.

(** What a receiver sees of a request. *)
Definition same_request (r r' : HttpRequest) : Prop :=
  method_ r' = method_ r ∧ uri_ r' = uri_ r ∧ version_ (req_msg r') = version_ (req_msg r) ∧
  fields_ (headers_ (req_msg r')) = fields_ (headers_ (req_msg r)) ∧ body_text (req_msg r') = sent_body (req_msg r).

Lemma fields_bound start fs : (length fs ≤ length (message_block start fs))%nat.
Proof.
  unfold message_block, block, unlines. rewrite length_app. csimpl. rewrite length_app.
  enough (length fs ≤ length (concat ((λ l, l ++ CRLF) <$> (field_line <$> fs))))%nat by lia.
  induction fs as [|f fs IH]; csimpl; [lia|]. rewrite !length_app. simpl. lia.
Qed.

Lemma HttpMessage_new_spec : ∃ m, HttpMessage_new = Ret m ∧ hd_inv (headers_ m).
Proof.
  unfold HttpMessage_new. destruct HttpHeaders_new_inv as (h & -> & Hh & _). cbn [obind]. eauto.
Qed.

Lemma parse_request_wf r msg :
  request_ok r → nb_inv msg → contents msg = sent_body (req_msg r) →
  size_of (message_block (request_line r) (fields_ (headers_ (req_msg r)))) < 2 ^ 60 →
  ∃ r', TryParse (mkProtocol true None)
      (mkOnWire (message_block (request_line r) (fields_ (headers_ (req_msg r)))) msg) false =
    Ret (Some (HttpRequestMessage r'), false) ∧ same_request r r' ∧ hd_inv (headers_ (req_msg r')).
Proof.
  intros Hr Hmsg Hc Hsz. unfold TryParse, HttpRequest_new. cbn [server_side_ header_block wire_body].
  destruct HttpMessage_new_spec as (m & -> & Hh). cbn [obind req_msg].
  destruct (ParseMessagePartial_spec (headers_ m) (request_line r) (fields_ (headers_ (req_msg r))) Hh) as (h' & -> & Hf & Hh').
  - by apply request_start_ok.
  - apply Hr.
  - pose proof (fields_bound (request_line r) (fields_ (headers_ (req_msg r)))). lia.
  - cbn [obind]. rewrite ParseRequestStartLine_spec by done. cbn [obind]. eexists. split; [done|]. split; [|exact Hh'].
    split_and!; try done. unfold body_text, body. simpl. rewrite <-Hc. by apply flatten_all.
Qed.

Lemma parse_request r msg :
  request_ok r → nb_inv msg → contents msg = sent_body (req_msg r) →
  size_of (message_block (request_line r) (fields_ (headers_ (req_msg r)))) < 2 ^ 60 →
  ∃ r', TryParse (mkProtocol true None)
      (mkOnWire (message_block (request_line r) (fields_ (headers_ (req_msg r)))) msg) false =
    Ret (Some (HttpRequestMessage r'), false) ∧ same_request r r'.
Proof. intros Hr Hmsg Hc Hsz. destruct (parse_request_wf r msg Hr Hmsg Hc Hsz) as (r' & ? & ? & _). eauto. Qed.

(** C16: a request that is written is received as it was: from a buffer that
    begins with its bytes, divided into blocks in any way, exactly these bytes are
    cut off, and they parse to a request with the same method, URI, version,
    fields and body.  This is for the requests of [request_ok]: any known method but
    OPTIONS, which the parser does not know, version 1.0 or 1.1, a URI that is not empty
    and of ASCII characters other than spaces and line ends, that is not below /rpc/ or
    /__rpc_service__ in a POST, fields of ASCII characters without leading or trailing
    white space and line ends, one of them a Content-Length that is that of the body, and
    a size below 2^63, the header below 2^60. *)
Theorem http_request_roundtrip block_size r nb w rest :
  1024 ≤ block_size → request_ok r →
  size_of (message_block (request_line r) (fields_ (headers_ (req_msg r)))) < 2 ^ 60 →
  WriteMessage block_size (HttpRequestMessage r) = Ret w → nb_inv nb → contents nb = contents w ++ rest →
  ∃ msg nb' r', TryCutMessage (mkProtocol true None) nb false =
      Ret (mkCut Cut_OK (mkProtocol true None) nb' (Some msg) false) ∧ contents nb' = rest ∧
    TryParse (mkProtocol true None) msg false = Ret (Some (HttpRequestMessage r'), false) ∧ same_request r r'.
Proof.
  intros Hbs Hr Hsz Hw Hnb Hc. destruct (WriteMessage_request_spec block_size r Hbs Hr) as (w' & Hw' & _ & Hcw).
  assert (w' = w) as -> by congruence. rewrite Hcw, <-app_assoc in Hc.
  destruct (TryCut_complete _ _ _ (request_block_ok r Hr) true None nb _ rest Hnb Hc eq_refl (or_introl eq_refl))
    as (msg & nb' & -> & Hmsg & _ & Hcm & Hcr).
  destruct (parse_request r msg Hr Hmsg Hcm Hsz) as (r' & Hp & Hsame). eauto 10.
Qed.

(** ** Responses *)

Definition status_text (c : Z) : chars := match GetStatusCodeWithDescString c with Ret s => s | _ => [] end.

Definition response_line (r : HttpResponse) : chars :=
  version_text (version_ (resp_msg r)) ++ " "%char :: status_text (status_ r).

(** A status that has a text. *)
Definition known_status (c : Z) : Prop := c ∈ ((λ d, Z.of_nat d.1) <$> status_descs).

Record response_ok (r : HttpResponse) : Prop := {
  po_version : version_ (resp_msg r) = V_1_0 ∨ version_ (resp_msg r) = V_1_1;
  po_status : known_status (status_ r);
  po_fields : Forall field_ok (fields_ (headers_ (resp_msg r)));
  po_body : message_inv (resp_msg r);
  po_length : field_value content_length (fields_ (headers_ (resp_msg r))) = Some (to_string (size_of (sent_body (resp_msg r))));
  po_size : size_of (message_block (response_line r) (fields_ (headers_ (resp_msg r)))) + size_of (sent_body (resp_msg r)) < 2 ^ 63;
}.

(** What the code relies on for each status. *)
Record status_facts (c : Z) : Prop := {
  sf_text : GetStatusCodeWithDescString c = Ret (status_text c);
  sf_line : all_ascii (status_text c) ∧ nl ∉ status_text c ∧ cr ∉ status_text c;
  sf_length : (3 < length (status_text c))%nat;
  sf_parse : ∀ v, v = V_1_0 ∨ v = V_1_1 →
    ParseResponseStartLine (version_text v ++ " "%char :: status_text c) false = Ret (Some c, false);
}.

Definition status_check (c : Z) : bool :=
  bool_decide (GetStatusCodeWithDescString c = Ret (status_text c)) &&
  bool_decide (all_ascii (status_text c) ∧ nl ∉ status_text c ∧ cr ∉ status_text c) &&
  bool_decide (3 < length (status_text c))%nat &&
  forallb (λ v, bool_decide (ParseResponseStartLine (version_text v ++ " "%char :: status_text c) false =
                             Ret (Some c, false))) [V_1_0; V_1_1].

Lemma status_ok c : known_status c → status_facts c.
Proof.
  intros Hc. assert (Hall : forallb status_check ((λ d, Z.of_nat d.1) <$> status_descs) = true) by (vm_compute; reflexivity).
  rewrite forallb_forall in Hall. specialize (Hall c ltac:(by apply list_elem_of_In)). unfold status_check in Hall.
  rewrite !andb_true_iff, !bool_decide_eq_true in Hall. destruct Hall as [[[H1 H2] H3] H4]. split; [done|done|done|].
  rewrite forallb_forall in H4. intros v Hv. specialize (H4 v). apply bool_decide_eq_true in H4; [done|].
  destruct Hv as [->| ->]; simpl; auto.
Qed.

Lemma version_detect v t : v = V_1_0 ∨ v = V_1_1 → EasyDetectHttp (version_text v ++ t) = true.
Proof. intros [->| ->]; reflexivity. Qed.

Lemma response_not_clobbered v t : v = V_1_0 ∨ v = V_1_1 → IsMessageClobbered (version_text v ++ t) = false.
Proof.
  intros Hv. unfold IsMessageClobbered, kClobberedStartLines. cbn [fmap list_fmap existsb]. rewrite !StartsWith_spec.
  destruct Hv as [->| ->]; rewrite !bool_decide_eq_false_2; try done; intros [k Hk]; discriminate Hk.
Qed.

Lemma response_block_ok r :
  response_ok r → block_ok (response_line r) (fields_ (headers_ (resp_msg r))) (size_of (sent_body (resp_msg r))).
Proof.
  intros [Hv Hst Hf _ Hl Hsz]. destruct (status_ok _ Hst) as [_ (Ha & Hn & Hc) _ _].
  destruct (version_facts _ Hv) as (_ & (Hve & Hva & Hvs & Hvn & Hvc) & Hvl & _).
  pose proof (block_cons (response_line r) (field_line <$> fields_ (headers_ (resp_msg r))) []) as Hbc. rewrite !app_nil_r in Hbc.
  split; try done.
  - unfold response_line. split.
    + split_and!; [by destruct (version_text _)| |]; rewrite not_elem_of_app, not_elem_of_cons; (split_and!; done).
    + rewrite ascii_app. split; [done|]. constructor; [vm_compute; lia|done].
    + eexists _, _. split; [done|lia].
  - unfold message_block. rewrite Hbc. unfold response_line. rewrite <-app_assoc. by apply version_detect.
  - unfold message_block. rewrite Hbc. unfold response_line. rewrite <-app_assoc. by apply response_not_clobbered.
  - lia.
Qed.

Lemma WriteMessage_response_any block_size r :
  1024 ≤ block_size → (version_ (resp_msg r) = V_1_0 ∨ version_ (resp_msg r) = V_1_1) → known_status (status_ r) →
  message_inv (resp_msg r) →
  size_of (message_block (response_line r) (fields_ (headers_ (resp_msg r)))) + size_of (sent_body (resp_msg r)) < 2 ^ 63 →
  ∃ w, WriteMessage block_size (HttpResponseMessage r) = Ret w ∧ nb_inv w ∧
    contents w = message_block (response_line r) (fields_ (headers_ (resp_msg r))) ++ sent_body (resp_msg r).
Proof.
  intros Hbs Hv Hst Hb Hsz. unfold WriteMessage, WriteMessage_response.
  rewrite (sf_text _ (status_ok _ Hst)), (proj1 (version_facts _ Hv)). cbn [obind].
  eapply write_message_spec; [done|done| |lia]. unfold response_line. cbn [concat]. rewrite app_nil_r, <-!app_assoc. done.
Qed.

Lemma WriteMessage_response_spec block_size r :
  1024 ≤ block_size → response_ok r →
  ∃ w, WriteMessage block_size (HttpResponseMessage r) = Ret w ∧ nb_inv w ∧
    contents w = message_block (response_line r) (fields_ (headers_ (resp_msg r))) ++ sent_body (resp_msg r).
Proof. intros Hbs [Hv Hst _ Hb _ Hsz]. by apply WriteMessage_response_any. Qed.

(** The version of a response is not kept. *)
Definition same_response (r r' : HttpResponse) : Prop :=
  status_ r' = status_ r ∧ fields_ (headers_ (resp_msg r')) = fields_ (headers_ (resp_msg r)) ∧
  body_text (resp_msg r') = sent_body (resp_msg r).

Lemma parse_response r msg :
  response_ok r → nb_inv msg → contents msg = sent_body (resp_msg r) →
  size_of (message_block (response_line r) (fields_ (headers_ (resp_msg r)))) < 2 ^ 60 →
  ∃ r', TryParse (mkProtocol false None)
      (mkOnWire (message_block (response_line r) (fields_ (headers_ (resp_msg r)))) msg) false =
    Ret (Some (HttpResponseMessage r'), false) ∧ same_response r r'.
Proof.
  intros Hr Hmsg Hc Hsz. unfold TryParse, HttpResponse_new. cbn [server_side_ header_block wire_body].
  destruct HttpMessage_new_spec as (m & -> & Hh). cbn [obind resp_msg].
  destruct (ParseMessagePartial_spec (headers_ m) (response_line r) (fields_ (headers_ (resp_msg r))) Hh) as (h' & -> & Hf & _).
  - by apply (response_block_ok r Hr).
  - apply Hr.
  - pose proof (fields_bound (response_line r) (fields_ (headers_ (resp_msg r)))). lia.
  - cbn [obind]. unfold response_line at 1. rewrite (sf_parse _ (status_ok _ (po_status _ Hr)) _ (po_version _ Hr)). cbn [obind]. eexists. split; [done|].
    split_and!; try done. unfold body_text, body. simpl. rewrite <-Hc. by apply flatten_all.
Qed.

(** What a client makes of bytes that begin with those of [w]. *)
Definition client_reads (r : HttpResponse) (w : NoncontiguousBuffer) : Prop :=
  ∀ nb rest, nb_inv nb → contents nb = contents w ++ rest →
  ∃ msg nb' r', TryCutMessage (mkProtocol false None) nb false =
      Ret (mkCut Cut_OK (mkProtocol false None) nb' (Some msg) false) ∧ contents nb' = rest ∧
    TryParse (mkProtocol false None) msg false = Ret (Some (HttpResponseMessage r'), false) ∧ same_response r r'.

Lemma response_read block_size r w :
  1024 ≤ block_size → response_ok r →
  size_of (message_block (response_line r) (fields_ (headers_ (resp_msg r)))) < 2 ^ 60 →
  WriteMessage block_size (HttpResponseMessage r) = Ret w → client_reads r w.
Proof.
  intros Hbs Hr Hsz Hw nb rest Hnb Hc. destruct (WriteMessage_response_spec block_size r Hbs Hr) as (w' & Hw' & _ & Hcw).
  assert (w' = w) as -> by congruence. rewrite Hcw, <-app_assoc in Hc.
  destruct (TryCut_complete _ _ _ (response_block_ok r Hr) false None nb _ rest Hnb Hc eq_refl (or_introl eq_refl))
    as (msg & nb' & -> & Hmsg & _ & Hcm & Hcr).
  destruct (parse_response r msg Hr Hmsg Hcm Hsz) as (r' & Hp & Hsame). eauto 10.
Qed.

(** A response that is written is received as it was, from any buffer that
    begins with its bytes. *)
Theorem http_response_roundtrip block_size r nb w rest :
  1024 ≤ block_size → response_ok r →
  size_of (message_block (response_line r) (fields_ (headers_ (resp_msg r)))) < 2 ^ 60 →
  WriteMessage block_size (HttpResponseMessage r) = Ret w → nb_inv nb → contents nb = contents w ++ rest →
  ∃ msg nb' r', TryCutMessage (mkProtocol false None) nb false =
      Ret (mkCut Cut_OK (mkProtocol false None) nb' (Some msg) false) ∧ contents nb' = rest ∧
    TryParse (mkProtocol false None) msg false = Ret (Some (HttpResponseMessage r'), false) ∧ same_response r r'.
Proof. intros Hbs Hr Hsz Hw. by apply (response_read block_size r w). Qed.

(** ** Arrival in pieces

    Each element is the buffer at the time of a call; the calls go on while the
    message is not complete. *)
Fixpoint feed (arrivals : list NoncontiguousBuffer) (self : Http11Protocol) : outcome (option cut_result) :=
  match arrivals with
  | [] => Ret None
  | nb :: arrivals' =>
      r ←! TryCutMessage self nb false;
      match cut_status r with
      | NotIdentified | NeedMore => feed arrivals' (cut_protocol r)
      | _ => Ret (Some r)
      end
  end.

(** A non-empty proper prefix of [s]. *)
Definition part_of (s : chars) (nb : NoncontiguousBuffer) : Prop :=
  nb_inv nb ∧ contents nb ≠ [] ∧ ∃ t, t ≠ [] ∧ s = contents nb ++ t.

Lemma feed_spec start fs bd side st parts nb rest :
  block_ok start fs (size_of bd) → header_state start fs st →
  size_of (message_block start fs) ≤ FLAGS_flare_http_max_header_size →
  Forall (part_of (message_block start fs ++ bd)) parts →
  nb_inv nb → contents nb = message_block start fs ++ bd ++ rest →
  ∃ msg nb', feed (parts ++ [nb]) (mkProtocol side st) =
      Ret (Some (mkCut Cut_OK (mkProtocol side None) nb' (Some (mkOnWire (message_block start fs) msg)) false)) ∧
    nb_inv msg ∧ contents msg = bd ∧ contents nb' = rest.
Proof.
  intros Hok Hst Hmax Hparts Hnb Hc. revert st Hst. induction Hparts as [|p parts (Hp & Hne & t & Ht & Heq) _ IH]; intros st Hst.
  - destruct (TryCut_complete start fs _ Hok side st nb bd rest Hnb Hc eq_refl Hst) as (msg & nb' & He & Hm & _ & Hcm & Hcr).
    cbn [feed app]. rewrite He. eauto 10.
  - destruct (TryCut_partial start fs _ Hok side st p bd t Hp Hne Heq Ht eq_refl Hst Hmax) as (status & st' & He & Hs & Hst').
    cbn [feed app]. rewrite He. cbn [obind cut_status cut_protocol]. destruct Hs as [->| ->]; by apply IH.
Qed.

(** C17: a request can arrive at a server in any number of pieces: while it is
    incomplete the protocol asks for more, and when the last byte is there the request is
    cut off and parsed, as if it had arrived at once.  This is for the requests of
    [request_ok], as in the round trip above, whose header has at most 8192 bytes
    ([FLAGS_flare_http_max_header_size]). *)
Theorem http_stream r (parts : list NoncontiguousBuffer) nb rest :
  request_ok r →
  size_of (message_block (request_line r) (fields_ (headers_ (req_msg r)))) ≤ FLAGS_flare_http_max_header_size →
  Forall (part_of (message_block (request_line r) (fields_ (headers_ (req_msg r))) ++ sent_body (req_msg r))) parts →
  nb_inv nb →
  contents nb = message_block (request_line r) (fields_ (headers_ (req_msg r))) ++ sent_body (req_msg r) ++ rest →
  ∃ res msg r', feed (parts ++ [nb]) (mkProtocol true None) = Ret (Some res) ∧ cut_status res = Cut_OK ∧
    cut_protocol res = mkProtocol true None ∧ contents (cut_buffer res) = rest ∧ cut_message res = Some msg ∧
    TryParse (mkProtocol true None) msg false = Ret (Some (HttpRequestMessage r'), false) ∧ same_request r r'.
Proof.
  intros Hr Hmax Hparts Hnb Hc.
  destruct (feed_spec _ _ _ true None parts nb rest (request_block_ok r Hr) (or_introl eq_refl) Hmax Hparts Hnb Hc)
    as (msg & nb' & He & Hmsg & Hcm & Hcr).
  unfold FLAGS_flare_http_max_header_size in Hmax.
  destruct (parse_request r msg Hr Hmsg Hcm ltac:(lia)) as (r' & Hp & Hsame).
  eexists _, _, r'. split_and!; [exact He|done|done|exact Hcr|done|exact Hp|done..|exact Hsame].
Qed.

(** ** Examples *)

Definition sample_headers (fs : list (chars * chars)) : HttpHeaders :=
  match (h ←! HttpHeaders_new; Append_all h fs) with Ret h => h | _ => no_headers end.

Definition sample_request : HttpRequest :=
  mkRequest (mkMessage V_1_1 (sample_headers [(chars_of "Host", chars_of "localhost:8080"); (content_length, chars_of "12")])
               None (Some split_nb)) Post (chars_of "/add?x=1").

Lemma sample_fields_ok : Forall field_ok [(chars_of "Host", chars_of "localhost:8080"); (content_length, chars_of "12")].
Proof.
  repeat (apply Forall_cons; split); [| |apply Forall_nil; exact I];
    (split; [discriminate|split; apply ascii_of; vm_compute; reflexivity|..];
     try split; try (apply (bool_decide_unpack _); vm_compute; exact I); vm_compute; reflexivity).
Qed.

Lemma sample_request_ok : request_ok sample_request.
Proof.
  split.
  - split; discriminate.
  - by right.
  - split_and!; [discriminate|apply ascii_of; vm_compute; reflexivity|..]; apply (bool_decide_unpack _); vm_compute; exact I.
  - intros _. split; apply (bool_decide_unpack _); vm_compute; exact I.
  - apply sample_fields_ok.
  - apply split_nb_inv.
  - vm_compute. reflexivity.
  - vm_compute. reflexivity.
Qed.

Definition wire (s : chars) : NoncontiguousBuffer := match CreateBufferSlow kBufferSize s with Ret nb => nb | _ => NB_empty end.

Lemma wire_inv s : size_of s < 2 ^ 64 → nb_inv (wire s) ∧ contents (wire s) = s.
Proof.
  intros Hs. unfold wire, CreateBufferSlow. destruct (Builder_new_spec kBufferSize) as (b & -> & Hinv & Hb); [vm_compute; discriminate|].
  cbn [obind]. edestruct (Append_spec kBufferSize) as (b' & -> & Hinv' & Hb'); [vm_compute; discriminate|exact Hinv|rewrite Hb; simpl; lia|].
  cbn [obind]. edestruct (DestructiveGet_spec kBufferSize) as (nb & -> & Hnb & Hc); [exact Hinv'|rewrite Hb', Hb; done|].
  split; [done|]. by rewrite Hc, Hb', Hb.
Qed.

Definition sample_bytes : chars :=
  message_block (request_line sample_request) (fields_ (headers_ (req_msg sample_request))) ++ sent_body (req_msg sample_request).

(** The bytes of the request in two blocks, followed by the beginning of another. *)
Definition sample_received : NoncontiguousBuffer :=
  mkNB 83 [take 7 sample_bytes; drop 7 sample_bytes ++ chars_of "GET"].

Lemma sample_received_inv : nb_inv sample_received ∧ contents sample_received = sample_bytes ++ chars_of "GET".
Proof.
  split; [split|]; [vm_compute; reflexivity| |vm_compute; reflexivity|vm_compute; reflexivity].
  repeat constructor; vm_compute; discriminate.
Qed.

Lemma http_request_roundtrip_witness : ∃ msg nb' r',
  TryCutMessage (mkProtocol true None) sample_received false =
    Ret (mkCut Cut_OK (mkProtocol true None) nb' (Some msg) false) ∧ contents nb' = chars_of "GET" ∧
  TryParse (mkProtocol true None) msg false = Ret (Some (HttpRequestMessage r'), false) ∧ same_request sample_request r'.
Proof.
  destruct (WriteMessage_request_spec kBufferSize sample_request ltac:(vm_compute; discriminate) sample_request_ok)
    as (w & Hw & _ & Hc).
  apply (http_request_roundtrip kBufferSize sample_request sample_received w (chars_of "GET")).
  - vm_compute. discriminate.
  - apply sample_request_ok.
  - vm_compute. reflexivity.
  - exact Hw.
  - apply sample_received_inv.
  - rewrite Hc. apply sample_received_inv.
Defined.

Definition sample_response : HttpResponse :=
  mkResponse (mkMessage V_1_1 (sample_headers [(chars_of "Host", chars_of "localhost:8080"); (content_length, chars_of "12")])
                (Some (chars_of "hello, world")) None) HttpStatus_NotFound.

Lemma sample_response_ok : response_ok sample_response.
Proof.
  split.
  - by right.
  - apply (bool_decide_unpack _). vm_compute. exact I.
  - apply sample_fields_ok.
  - exact I.
  - vm_compute. reflexivity.
  - vm_compute. reflexivity.
Qed.

Lemma http_response_roundtrip_witness : ∃ w msg nb' r',
  WriteMessage kBufferSize (HttpResponseMessage sample_response) = Ret w ∧
  TryCutMessage (mkProtocol false None) w false =
    Ret (mkCut Cut_OK (mkProtocol false None) nb' (Some msg) false) ∧ contents nb' = [] ∧
  TryParse (mkProtocol false None) msg false = Ret (Some (HttpResponseMessage r'), false) ∧ same_response sample_response r'.
Proof.
  destruct (WriteMessage_response_spec kBufferSize sample_response ltac:(vm_compute; discriminate) sample_response_ok)
    as (w & Hw & Hinv & Hc).
  destruct (http_response_roundtrip kBufferSize sample_response w w []) as (msg & nb' & r' & Hr).
  - vm_compute. discriminate.
  - apply sample_response_ok.
  - vm_compute. reflexivity.
  - exact Hw.
  - exact Hinv.
  - by rewrite app_nil_r.
  - exists w, msg, nb', r'. exact (conj Hw Hr).
Defined.

(** Four pieces: within the first word, within the fields, within the end of the
    header, and within the body. *)
Lemma http_stream_witness : ∃ res msg r',
  feed (((λ n, wire (take n sample_bytes)) <$> [2; 30; 66; 75]%nat) ++ [wire (take 80 sample_bytes)]) (mkProtocol true None) = Ret (Some res) ∧
  cut_status res = Cut_OK ∧ cut_protocol res = mkProtocol true None ∧ contents (cut_buffer res) = [] ∧
  cut_message res = Some msg ∧
  TryParse (mkProtocol true None) msg false = Ret (Some (HttpRequestMessage r'), false) ∧ same_request sample_request r'.
Proof.
  apply (http_stream sample_request ((λ n, wire (take n sample_bytes)) <$> [2; 30; 66; 75]%nat) (wire (take 80 sample_bytes)) []).
  - apply sample_request_ok.
  - vm_compute. discriminate.
  - assert (Hpart : ∀ n, (0 < n < 80)%nat → part_of sample_bytes (wire (take n sample_bytes))).
    { intros n Hn. assert (Hlen : length sample_bytes = 80%nat) by (vm_compute; reflexivity).
      destruct (wire_inv (take n sample_bytes)) as [Hinv Hc]; [rewrite length_take, Hlen; lia|]. unfold part_of. rewrite Hc.
      split_and!; [done| |].
      - intros He. apply (f_equal length) in He. rewrite length_take, Hlen in He. simpl in He. lia.
      - exists (drop n sample_bytes). split; [|by rewrite take_drop].
        intros He. apply (f_equal length) in He. rewrite length_drop, Hlen in He. simpl in He. lia. }
    repeat (apply Forall_cons; split; [apply Hpart; lia|]). apply Forall_nil. exact I.
  - apply wire_inv. vm_compute. reflexivity.
  - rewrite app_nil_r. change (contents (wire (take 80 sample_bytes)) = sample_bytes).
    rewrite (proj2 (wire_inv (take 80 sample_bytes) ltac:(vm_compute; reflexivity))). vm_compute. reflexivity.
Defined.

(** *** What a client can do

    A Content-Length that makes the sum wrap around is taken for a complete
    message, and the cut goes beyond the end of the buffer. *)
Definition overflow_bytes : chars :=
  chars_of "GET / HTTP/1.1" ++ CRLF ++ chars_of "Content-Length: 18446744073709551600" ++ CRLFCRLF.

Example content_length_overflow : TryCutMessage (mkProtocol true None) (wire overflow_bytes) false = Undef.
Proof. vm_compute. reflexivity. Qed.

(** A field without a value trips an assertion. *)
Example empty_content_length_aborts :
  TryCutMessage (mkProtocol true None)
    (wire (chars_of "GET / HTTP/1.1" ++ CRLF ++ chars_of "Content-Length:" ++ CRLFCRLF)) false = Abort.
Proof. vm_compute. reflexivity. Qed.

(** A field name that is not ASCII reads outside of the table when the name is
    indexed. *)
Example non_ascii_name_undefined :
  TryParse (mkProtocol true None)
    (mkOnWire (chars_of "GET / HTTP/1.1" ++ CRLF ++ ["233"]%char ++ chars_of ": 1" ++ CRLFCRLF) NB_empty) false = Undef.
Proof. vm_compute. reflexivity. Qed.
