(* ===== verification/HttpService.v ===== *)
(** * The HTTP service: flare/rpc/protocol/http/service.cc, http_handler.{h,cc},
      http_filter.h

    A service routes a request to a handler and completes the response.  A
    handler reads the request, fills the response and changes the state [G] of
    the program around it; a filter may change the request as well, and decide
    whether the handler is called.

    The compression libraries are not part of the repository's sources; what is
    registered for a name is a parameter, the class [Compressors].  The
    [HttpServerContext] and the binary log are left out: no handler here reads
    the former, and the latter is off unless a dumper is configured.

    [FindHandler_spec] says which handler a path is routed to,
    [FastCall_answers] that every request that is not dropped is answered by a
    response that the peer can read. *)

From Stdlib Require Import Ascii.
From S2P Require Import Prelude Regex FlareString Buffer FlareHashMap HttpHeaders HttpTypes HttpIo HttpIoProofs.

#[local] Open Scope string_scope.
#[local] Open Scope list_scope.
#[local] Open Scope Z_scope.

(** ** Compression *)

Record Compressor := mkCompressor {
  compress_string : chars → option NoncontiguousBuffer;
  compress_buffer : NoncontiguousBuffer → option NoncontiguousBuffer;
}.

Class Compressors := MakeCompressor : chars → option Compressor.

(** The names are tokens, and what is produced is a buffer. *)
Class CompressorsSpec `{Compressors} : Prop := {
  compressor_name e c : MakeCompressor e = Some c → all_ascii e ∧ nl ∉ e ∧ cr ∉ e;
  compress_string_inv e c s nb : MakeCompressor e = Some c → compress_string c s = Some nb → nb_inv nb;
  compress_buffer_inv e c s nb : MakeCompressor e = Some c → compress_buffer c s = Some nb → nb_inv nb;
}.

Definition kAcceptEncoding : chars := chars_of "Accept-Encoding".
Definition kContentLength : chars := chars_of "Content-Length".
Definition kContentEncoding : chars := chars_of "Content-Encoding".
Definition kConnection : chars := chars_of "Connection".

(** ** Completing a response *)

Definition resp_headers (r : HttpResponse) : HttpHeaders := headers_ (resp_msg r).

Definition with_headers (h : HttpHeaders) (r : HttpResponse) : HttpResponse :=
  mkResponse (set_headers h (resp_msg r)) (status_ r).

Section compress.
Context `{Compressors}.

(** The text before a semicolon, trimmed. *)
Definition encoding_of (encoding_and_q : chars) : chars :=
  Trim match find (chars_of ";") encoding_and_q with
       | Some pos => take pos encoding_and_q
       | None => encoding_and_q
       end.

Definition compress_body (c : Compressor) (response : HttpResponse) : outcome (option NoncontiguousBuffer * HttpResponse) :=
  match noncontiguous_body (resp_msg response) with
  | Some nb => Ret (compress_buffer c nb, response)
  | None =>
      let '(s, m) := body (resp_msg response) in
      match s with
      | [] => Abort
      | _ => Ret (compress_string c s, mkResponse m (status_ response))
      end
  end.

Fixpoint try_encodings (encodings : list chars) (response : HttpResponse) : outcome HttpResponse :=
  match encodings with
  | [] => Ret response
  | encoding_and_q :: encodings' =>
      let encoding := encoding_of encoding_and_q in
      match MakeCompressor encoding with
      | None => try_encodings encodings' response
      | Some c =>
          '(compressed, response') ←! compress_body c response;
          match compressed with
          | Some nb =>
              let m := set_body_buffer nb (resp_msg response') in
              h ←! Headers_Set (headers_ m) kContentLength (to_string (body_size m));
              h' ←! Append h kContentEncoding encoding;
              Ret (mkResponse (set_headers h' m) (status_ response'))
          | None => try_encodings encodings' response'
          end
      end
  end.

Definition CompressResponseIfNecessary (request : HttpRequest) (response : HttpResponse) : outcome HttpResponse :=
  if body_size (resp_msg response) =? 0 then Ret response
  else
    opt ←! Headers_TryGet (headers_ (req_msg request)) kAcceptEncoding;
    match opt with
    | None => Ret response
    | Some accepted =>
        already ←! Headers_TryGet (resp_headers response) kContentEncoding;
        match already with
        | Some _ => Ret response
        | None =>
            encodings ←! Split accepted (chars_of ",") false;
            try_encodings encodings response
        end
    end.

(** The Connection field is taken from the request, or chosen by its version. *)
Definition fill_connection (request : HttpRequest) (response : HttpResponse) : outcome HttpResponse :=
  present ←! Headers_TryGet (resp_headers response) kConnection;
  match present with
  | Some _ => Ret response
  | None =>
      opt ←! Headers_TryGet (headers_ (req_msg request)) kConnection;
      h ←! Append (resp_headers response) kConnection
             match opt with
             | Some v => v
             | None => if decide (version_ (req_msg request) = V_1_1) then chars_of "keep-alive" else chars_of "close"
             end;
      Ret (with_headers h response)
  end.

(** A status that has no Content-Length. *)
Definition bodiless (status : HttpStatus) : bool :=
  (status =? HttpStatus_NoContent) || (100 <=? status) && (status <? 200).

Definition fill_content_length (response : HttpResponse) : outcome HttpResponse :=
  if bodiless (status_ response) then
    if negb (body_size (resp_msg response) =? 0) then Abort
    else
      present ←! Headers_TryGet (resp_headers response) kContentLength;
      match present with
      | Some _ => '(_, h) ←! Remove (resp_headers response) kContentLength; Ret (with_headers h response)
      | None => Ret response
      end
  else
    present ←! Headers_TryGet (resp_headers response) kContentLength;
    match present with
    | Some _ => Ret response
    | None =>
        h ←! Append (resp_headers response) kContentLength (to_string (body_size (resp_msg response)));
        Ret (with_headers h response)
    end.

Definition FillMissingHeaders (request : HttpRequest) (response : HttpResponse) : outcome HttpResponse :=
  r1 ←! fill_connection request response;
  r2 ←! fill_content_length r1;
  CompressResponseIfNecessary request r2.
End compress.

Definition GetUriPath (uri : chars) : chars :=
  match find (chars_of "?") uri with Some pos => take pos uri | None => uri end.

(** ** Handlers and filters *)

Section service.
Context {G : Type} `{Compressors}.

(** A virtual method of a handler. *)
Definition method_fn : Type := HttpRequest → HttpResponse → G → outcome (HttpResponse * G).

Definition MethodNotAllowed_page : method_fn := λ _ response g,
  r ←! GenerateDefaultResponsePage HttpStatus_MethodNotAllowed response [] []; Ret (r, g).

Record HttpMethods := mkMethods {
  OnGet : method_fn; OnHead : method_fn; OnPost : method_fn; OnPut : method_fn; OnDelete : method_fn;
  OnConnect : method_fn; OnOptions : method_fn; OnTrace : method_fn; OnPatch : method_fn;
}.

(** The class [HttpHandler] itself, whose methods all answer 405. *)
Definition default_methods : HttpMethods :=
  mkMethods MethodNotAllowed_page MethodNotAllowed_page MethodNotAllowed_page MethodNotAllowed_page
    MethodNotAllowed_page MethodNotAllowed_page MethodNotAllowed_page MethodNotAllowed_page MethodNotAllowed_page.

(** A class that overrides one method. *)
Definition with_OnGet (f : method_fn) : HttpMethods :=
  mkMethods f MethodNotAllowed_page MethodNotAllowed_page MethodNotAllowed_page MethodNotAllowed_page
    MethodNotAllowed_page MethodNotAllowed_page MethodNotAllowed_page MethodNotAllowed_page.

Definition with_OnPost (f : method_fn) : HttpMethods :=
  mkMethods MethodNotAllowed_page MethodNotAllowed_page f MethodNotAllowed_page MethodNotAllowed_page
    MethodNotAllowed_page MethodNotAllowed_page MethodNotAllowed_page MethodNotAllowed_page.

(** A handler overrides the methods, or [HandleRequest]. *)
Inductive HttpHandler := Methods (m : HttpMethods) | Functor (f : method_fn).

Definition kHandlers (m : HttpMethods) : list (HttpMethod * method_fn) :=
  [(Get, OnGet m); (Head, OnHead m); (Post, OnPost m); (Put, OnPut m); (Delete, OnDelete m);
   (Connect, OnConnect m); (Options, OnOptions m); (Trace, OnTrace m); (Patch, OnPatch m)].

Definition HandleRequest (h : HttpHandler) : method_fn := λ request response g,
  match h with
  | Functor f => f request response g
  | Methods m =>
      match list_find (λ e, e.1 = method_ request) (kHandlers m) with
      | Some (_, (_, f)) => f request response g
      | None => MethodNotAllowed_page request response g
      end
  end.

Inductive Action := KeepProcessing | Drop_ | EarlyReturn.

Definition HttpFilter : Type := HttpRequest → HttpResponse → G → outcome (Action * HttpRequest * HttpResponse * G).

(** ** The service *)

Record Service := mkService {
  filters_ : list HttpFilter;
  exact_paths_ : gmap chars HttpHandler;
  prefix_paths_ : list (chars * HttpHandler);
  regex_paths_ : list (list item * HttpHandler);
  default_handler_ : HttpHandler;
}.

Definition NotFound_page : method_fn := λ _ response g,
  r ←! GenerateDefaultResponsePage HttpStatus_NotFound response [] []; Ret (r, g).

Definition Service_new : Service := mkService [] ∅ [] [] (Functor NotFound_page).

Definition AddFilter (f : HttpFilter) (s : Service) : Service :=
  mkService (filters_ s ++ [f]) (exact_paths_ s) (prefix_paths_ s) (regex_paths_ s) (default_handler_ s).

Definition AddHandler (path : chars) (h : HttpHandler) (s : Service) : outcome Service :=
  match exact_paths_ s !! path with
  | Some _ => Abort
  | None => Ret (mkService (filters_ s) (<[path := h]> (exact_paths_ s)) (prefix_paths_ s) (regex_paths_ s) (default_handler_ s))
  end.

Definition AddHandler_regex (path_regex : list item) (h : HttpHandler) (s : Service) : Service :=
  mkService (filters_ s) (exact_paths_ s) (prefix_paths_ s) (regex_paths_ s ++ [(path_regex, h)]) (default_handler_ s).

Definition AddPrefixHandler (path_prefix : chars) (h : HttpHandler) (s : Service) : Service :=
  mkService (filters_ s) (exact_paths_ s) (prefix_paths_ s ++ [(path_prefix, h)]) (regex_paths_ s) (default_handler_ s).

Definition SetDefaultHandler (h : HttpHandler) (s : Service) : Service :=
  mkService (filters_ s) (exact_paths_ s) (prefix_paths_ s) (regex_paths_ s) h.

Fixpoint find_prefix (path : chars) (l : list (chars * HttpHandler)) : outcome (option HttpHandler) :=
  match l with
  | [] => Ret None
  | (prefix, h) :: l' =>
      if StartsWith path prefix then
        if decide (length path = length prefix) then Ret (Some h)
        else if negb (length prefix <? length path)%nat then Abort
        else
          ch ←! deref (path !! length prefix);
          if bool_decide (ch ∈ chars_of "/?#") then Ret (Some h) else find_prefix path l'
      else find_prefix path l'
  end.

Fixpoint find_regex (path : chars) (l : list (list item * HttpHandler)) : option HttpHandler :=
  match l with
  | [] => None
  | (regex, h) :: l' => if regex_match regex path then Some h else find_regex path l'
  end.

Definition FindHandler (s : Service) (uri : chars) : outcome (option HttpHandler) :=
  let path := GetUriPath uri in
  match exact_paths_ s !! path with
  | Some h => Ret (Some h)
  | None =>
      o ←! find_prefix path (prefix_paths_ s);
      match o with
      | Some h => Ret (Some h)
      | None => Ret (find_regex path (regex_paths_ s))
      end
  end.

Fixpoint run_filters (fs : list HttpFilter) (request : HttpRequest) (response : HttpResponse) (g : G) :
    outcome (Action * HttpRequest * HttpResponse * G) :=
  match fs with
  | [] => Ret (KeepProcessing, request, response, g)
  | f :: fs' =>
      '(action, request', response', g') ←! f request response g;
      match action with
      | KeepProcessing => run_filters fs' request' response' g'
      | _ => Ret (action, request', response', g')
      end
  end.

Definition RunFilters (s : Service) := run_filters (filters_ s).

Definition RunHandler (s : Service) : method_fn := λ request response g,
  handler ←! FindHandler s (uri_ request);
  match handler with
  | None => HandleRequest (default_handler_ s) request response g
  | Some h => HandleRequest h request response g
  end.

Inductive ProcessingStatus := Processed | Completed | Overloaded | Dropped | Corrupted | Unexpected.

(** The status, and the response that is handed to the writer. *)
Definition FastCall (s : Service) (request : HttpRequest) (g : G) :
    outcome (ProcessingStatus * option HttpResponse * G) :=
  r0 ←! HttpResponse_new;
  let r1 := mkResponse (set_version (version_ (req_msg request)) (resp_msg r0)) HttpStatus_OK in
  '(action, request', r2, g2) ←! RunFilters s request r1 g;
  match action with
  | Drop_ => Ret (Dropped, None, g2)
  | _ =>
      '(r3, g3) ←! (match action with KeepProcessing => RunHandler s request' r2 g2 | _ => Ret (r2, g2) end);
      r4 ←! FillMissingHeaders request' r3;
      connection ←! Headers_TryGet (resp_headers r4) kConnection;
      alive ←! IEquals match connection with Some c => c | None => [] end (chars_of "keep-alive");
      Ret (if alive then Processed else Completed, Some r4, g3)
  end.
End service.
Arguments HttpHandler : clear implicits.
Arguments Service : clear implicits.

(** ** Routing *)

(** The path continues behind the prefix with a separator, or ends there. *)
Definition at_boundary (path prefix : chars) : Prop :=
  ∃ t, path = prefix ++ t ∧ match t with [] => True | c :: _ => c ∈ chars_of "/?#" end.

Inductive routes {G} (s : Service G) (path : chars) : HttpHandler G → Prop :=
| By_exact h : exact_paths_ s !! path = Some h → routes s path h
| By_prefix l1 p h l2 :
    exact_paths_ s !! path = None → prefix_paths_ s = l1 ++ (p, h) :: l2 →
    at_boundary path p → Forall (λ e, ¬ at_boundary path e.1) l1 → routes s path h
| By_regex l1 re h l2 :
    exact_paths_ s !! path = None → Forall (λ e, ¬ at_boundary path e.1) (prefix_paths_ s) →
    regex_paths_ s = l1 ++ (re, h) :: l2 → regex_match re path = true →
    Forall (λ e, regex_match e.1 path = false) l1 → routes s path h.

Section routing.
Context {G : Type}.
Implicit Types (s : Service G) (path : chars).

Lemma boundary_head path prefix :
  StartsWith path prefix = true → length path ≠ length prefix →
  ∃ c t, path = prefix ++ c :: t ∧ path !! length prefix = Some c ∧ (length prefix < length path)%nat.
Proof.
  rewrite StartsWith_spec, bool_decide_eq_true. intros [[|c t] ->] Hlen.
  - by rewrite app_nil_r in Hlen.
  - exists c, t. rewrite length_app. split_and!; [done|by apply list_lookup_middle|simpl; lia].
Qed.

Lemma find_prefix_spec path (l : list (chars * HttpHandler G)) :
  ∃ o, find_prefix path l = Ret o ∧
    match o with
    | Some h => ∃ l1 p l2, l = l1 ++ (p, h) :: l2 ∧ at_boundary path p ∧ Forall (λ e, ¬ at_boundary path e.1) l1
    | None => Forall (λ e, ¬ at_boundary path e.1) l
    end.
Proof.
  induction l as [|[p h] l (o & Ho & IH)]; [by exists None|]. cbn [find_prefix].
  assert (Hskip : ¬ at_boundary path p →
    match o with
    | Some h' => ∃ l1 p' l2, (p, h) :: l = l1 ++ (p', h') :: l2 ∧ at_boundary path p' ∧ Forall (λ e, ¬ at_boundary path e.1) l1
    | None => Forall (λ e, ¬ at_boundary path e.1) ((p, h) :: l)
    end).
  { intros Hn. destruct o as [h'|]; [|by constructor]. destruct IH as (l1 & p' & l2 & -> & ? & ?).
    exists ((p, h) :: l1), p', l2. split_and!; [done|done|by constructor]. }
  destruct (StartsWith path p) eqn:Es.
  - destruct (decide (length path = length p)) as [Hlen|Hlen].
    + exists (Some h). split; [done|]. exists [], p, l. split_and!; [done| |done]. exists [].
      rewrite StartsWith_spec, bool_decide_eq_true in Es. destruct Es as [t ->].
      rewrite length_app in Hlen. destruct t; [done|]. simpl in Hlen. lia.
    + destruct (boundary_head _ _ Es Hlen) as (c & t & -> & Hc & Hlt). rewrite (proj2 (Nat.ltb_lt _ _) Hlt). cbn [negb].
      rewrite Hc. cbn [deref obind]. case_bool_decide as Hb.
      * exists (Some h). split; [done|]. exists [], p, l. split_and!; [done| |done]. by exists (c :: t).
      * exists o. split; [done|]. apply Hskip. intros (t' & Ht & Hm). apply app_inv_head in Ht as <-. done.
  - exists o. split; [done|]. apply Hskip. intros (t & -> & _). rewrite StartsWith_spec in Es.
    apply bool_decide_eq_false in Es. apply Es. by exists t.
Qed.

Lemma find_regex_spec path (l : list (list item * HttpHandler G)) :
  match find_regex path l with
  | Some h => ∃ l1 re l2, l = l1 ++ (re, h) :: l2 ∧ regex_match re path = true ∧ Forall (λ e, regex_match e.1 path = false) l1
  | None => Forall (λ e, regex_match e.1 path = false) l
  end.
Proof.
  induction l as [|[re h] l IH]; [apply Forall_nil; exact I|]. cbn [find_regex]. destruct (regex_match re path) eqn:E.
  - by exists [], re, l.
  - destruct (find_regex path l) as [h'|]; [|by constructor]. destruct IH as (l1 & re' & l2 & -> & ? & ?).
    exists ((re, h) :: l1), re', l2. split_and!; [done|done|by constructor].
Qed.

(** The first place of a property in a list determines its element. *)
Lemma first_unique {A B} (P : A → Prop) (l1 l1' : list (A * B)) a b a' b' l2 l2' :
  l1 ++ (a, b) :: l2 = l1' ++ (a', b') :: l2' → P a → P a' →
  Forall (λ e, ¬ P e.1) l1 → Forall (λ e, ¬ P e.1) l1' → b = b'.
Proof.
  intros Heq Ha Ha' H1. revert l1' Heq. induction H1 as [|e l1 He _ IH]; intros [|e' l1'] Heq H1'; simplify_eq/=.
  - done.
  - by apply Forall_inv in H1'.
  - done.
  - apply Forall_cons in H1' as [_ ?]. eauto.
Qed.

Lemma GetUriPath_spec uri : ∃ q, uri = GetUriPath uri ++ q ∧ "?"%char ∉ GetUriPath uri ∧ (q = [] ∨ head q = Some "?"%char).
Proof.
  unfold GetUriPath. change (chars_of "?") with ["?"%char]. destruct (find ["?"%char] uri) as [p|] eqn:E.
  - exists (drop p uri). rewrite take_drop. split_and!; [done| |].
    + apply find_char. by apply find_take.
    + right. pose proof (find_bound _ _ _ E) as Hb. apply find_Some in E as [Hs _]. rewrite Hs.
      rewrite drop_app_length'; [done|]. rewrite length_take. simpl in Hb. lia.
  - exists []. rewrite app_nil_r. split_and!; [done|by apply find_char|by left].
Qed.

(** A request is routed by the part of its uri before a question mark: to the
    handler of exactly this path, or else to the first registered prefix that
    ends at a separator of the path, or else to the first regular expression
    that matches it; the look-up always comes back, and finds no other handler. *)
Theorem FindHandler_spec s uri :
  ∃ o path q, FindHandler s uri = Ret o ∧ uri = path ++ q ∧ "?"%char ∉ path ∧ (q = [] ∨ head q = Some "?"%char) ∧
    ∀ h, o = Some h ↔ routes s path h.
Proof.
  destruct (GetUriPath_spec uri) as (q & Huri & Hq1 & Hq2). unfold FindHandler.
  set (path := GetUriPath uri) in *.
  destruct (exact_paths_ s !! path) as [h|] eqn:Ee.
  { exists (Some h), path, q. split_and!; auto. intros h'. split; [intros [= <-]; by apply By_exact|].
    intros [h1 ?|l1 p h1 l2 ?|l1 re h1 l2 ?]; congruence. }
  destruct (find_prefix_spec path (prefix_paths_ s)) as ([h|] & -> & Ho); cbn [obind].
  { exists (Some h), path, q. split_and!; auto. intros h'. destruct Ho as (l1 & p & l2 & Hl & Hb & Hf).
    split; [intros [= <-]; by eapply By_prefix|]. intros [h1 ?|l1' p' h1 l2' _ Hl' Hb' Hf'|l1' re h1 l2' _ Hn]; [congruence| |].
    - f_equal. rewrite Hl in Hl'. by eapply (first_unique (at_boundary path)).
    - rewrite Hl in Hn. apply Forall_app in Hn as [_ Hn]. by apply Forall_inv in Hn. }
  pose proof (find_regex_spec path (regex_paths_ s)) as Hr.
  exists (find_regex path (regex_paths_ s)), path, q. split_and!; auto. intros h'.
  destruct (find_regex path (regex_paths_ s)) as [h|].
  - destruct Hr as (l1 & re & l2 & Hl & Hm & Hf). split; [intros [= <-]; by eapply By_regex|].
    intros [h1 ?|l1' p' h1 l2' _ Hl' Hb' Hf'|l1' re' h1 l2' _ Hn Hl' Hm' Hf']; [congruence| |].
    + rewrite Hl' in Ho. apply Forall_app in Ho as [_ Hn]. by apply Forall_inv in Hn.
    + f_equal. rewrite Hl in Hl'. eapply (first_unique (λ re, regex_match re path = true)); [done..| |];
        eapply Forall_impl; try done; by intros ? ->.
  - split; [done|]. intros [h1 ?|l1' p' h1 l2' _ Hl' Hb' Hf'|l1' re' h1 l2' _ Hn Hl' Hm' Hf']; [congruence| |].
    + rewrite Hl' in Ho. apply Forall_app in Ho as [_ Hn]. by apply Forall_inv in Hn.
    + rewrite Hl' in Hr. apply Forall_app in Hr as [_ Hn']. apply Forall_inv in Hn'. simpl in Hn'. congruence.
Qed.
End routing.

(** ** The response that is sent *)

#[local] Abbreviation resp_fields r := (fields_ (resp_headers r)).

(** A response to which [n] fields can be added. *)
Record response_wf (n : Z) (r : HttpResponse) : Prop := {
  rw_headers : hd_inv (resp_headers r);
  rw_fields : Forall field_ok (resp_fields r);
  rw_count : Z.of_nat (length (resp_fields r)) + n < 2 ^ 60;
  rw_body : message_inv (resp_msg r);
  rw_sent : sent_body (resp_msg r) = body_text (resp_msg r);
}.

(** The same response but for its fields. *)
Definition same_but_fields (r r' : HttpResponse) : Prop :=
  status_ r' = status_ r ∧ version_ (resp_msg r') = version_ (resp_msg r) ∧
  body_text (resp_msg r') = body_text (resp_msg r).

(** The fields with other names are kept. *)
Definition keeps (names : list chars) (r r' : HttpResponse) : Prop :=
  ∀ k, Forall (λ n, lower <$> k ≠ lower <$> n) names → field_value k (resp_fields r') = field_value k (resp_fields r).

Lemma field_value_snoc k fs f :
  field_value k (fs ++ [f]) =
  match field_value k fs with Some v => Some v | None => if decide (same_name k f) then Some f.2 else None end.
Proof.
  unfold field_value. rewrite filter_app. destruct (filter (same_name k) fs); [|done].
  rewrite (filter_cons _ f []). by destruct (decide (same_name k f)).
Qed.

Lemma field_value_set_first k k' v fs :
  field_value k (set_first k' v fs) = if decide (lower <$> k = lower <$> k') then Some v else field_value k fs.
Proof.
  unfold field_value. induction fs as [|f fs IH]; simpl.
  - rewrite (filter_cons _ (k', v)). unfold same_name. simpl.
    destruct (decide (_ = lower <$> k)), (decide (lower <$> k = _)); congruence || done.
  - destruct (decide (same_name k' f)) as [Hs|Hs]; rewrite !filter_cons.
    + unfold same_name in *. simpl. destruct (decide (_ = lower <$> k)), (decide (lower <$> k = _)); congruence || done.
    + destruct (decide (same_name k f)) as [Hk|Hk]; [|done]. unfold same_name in *. rewrite decide_False by congruence. done.
Qed.

Lemma set_first_ok k v fs : Forall field_ok fs → field_ok (k, v) → Forall field_ok (set_first k v fs).
Proof.
  intros Hfs Hv. induction Hfs as [|f fs Hf Hfs IH]; simpl; [by constructor|].
  destruct (decide _); constructor; auto. destruct Hf as [? [? _] ? [? _] [? _] _], Hv as [_ [_ ?] _ [_ ?] [_ ?] ?]. by split.
Qed.

Lemma set_first_length k v fs : (length (set_first k v fs) ≤ S (length fs))%nat.
Proof. induction fs as [|f fs IH]; simpl; [lia|]. destruct (decide _); simpl; lia. Qed.

(** The names that are added. *)
Lemma known_name (k : string) v :
  k ∈ ["Content-Length"; "Content-Encoding"; "Connection"; "Content-Type"] →
  all_ascii v → nl ∉ v → cr ∉ v → Trim v = v → field_ok (chars_of k, v) ∧ Trim (chars_of k) = chars_of k.
Proof.
  intros Hk Ha Hn Hc Ht. rewrite !elem_of_cons, elem_of_nil in Hk.
  destruct Hk as [->|[->|[->|[->|[]]]]];
    (split; [|vm_compute; reflexivity]); (split; cbn [fst snd]; [done|split; [by apply ascii_of|done]|..]; try split; try done;
     apply (bool_decide_unpack _); vm_compute; exact I).
Qed.

Lemma digits_value n : 0 ≤ n → all_ascii (to_string n) ∧ nl ∉ to_string n ∧ cr ∉ to_string n ∧ Trim (to_string n) = to_string n.
Proof.
  intros Hn. assert (Hd : Forall is_digit (to_string n)) by (apply show_digits_chars; [lia|by constructor]).
  assert (Hno : ∀ c, ¬ is_digit c → c ∉ to_string n) by (intros c Hc Hin; rewrite Forall_forall in Hd; by apply Hc, Hd).
  split_and!.
  - eapply Forall_impl; [exact Hd|]. intros c Hc. by apply is_digit_facts.
  - apply Hno. apply (bool_decide_unpack _). vm_compute. exact I.
  - apply Hno. apply (bool_decide_unpack _). vm_compute. exact I.
  - assert (Hsp : " "%char ∉ to_string n) by (apply Hno, (bool_decide_unpack _); vm_compute; exact I).
    apply Trim_id. split; intros He; apply Hsp.
    + by apply head_Some_elem_of.
    + by apply last_Some_elem_of.
Qed.

Lemma field_value_ok k fs v :
  Forall field_ok fs → field_value k fs = Some v → all_ascii v ∧ nl ∉ v ∧ cr ∉ v ∧ Trim v = v.
Proof.
  intros Hfs Hv. unfold field_value in Hv. destruct (filter (same_name k) fs) as [|f l] eqn:E; [done|].
  simplify_eq/=. assert (Hf : f ∈ fs) by (apply (list_elem_of_filter (same_name k)); rewrite E; by left).
  rewrite Forall_forall in Hfs. destruct (Hfs f Hf) as [_ [_ ?] _ [_ ?] [_ ?] ?]. done.
Qed.

Lemma try_get_value h k : hd_inv h → all_ascii k → Headers_TryGet h k = Ret (field_value k (fields_ h)).
Proof. apply Headers_TryGet_effect. Qed.

Lemma name_ascii (k : string) :
  k ∈ ["Content-Length"; "Content-Encoding"; "Connection"; "Accept-Encoding"] → all_ascii (chars_of k).
Proof.
  rewrite !elem_of_cons, elem_of_nil. intros [->|[->|[->|[->|[]]]]]; by apply ascii_of.
Qed.

Ltac known := set_solver.

Lemma try_get_resp (k : string) n r :
  response_wf n r → k ∈ ["Content-Length"; "Content-Encoding"; "Connection"; "Accept-Encoding"] →
  Headers_TryGet (resp_headers r) (chars_of k) = Ret (field_value (chars_of k) (resp_fields r)).
Proof. intros Hr Hk. apply try_get_value; [apply Hr|by apply name_ascii]. Qed.

Lemma with_headers_body h r : body_text (resp_msg (with_headers h r)) = body_text (resp_msg r).
Proof. unfold body_text, body. simpl. by destruct (body_str_ (resp_msg r)). Qed.

Lemma with_headers_same h r : same_but_fields r (with_headers h r).
Proof. split_and!; [done|done|]. apply with_headers_body. Qed.

Lemma with_headers_wf n m h r :
  response_wf n r → hd_inv h → Forall field_ok (fields_ h) → Z.of_nat (length (fields_ h)) + m < 2 ^ 60 →
  response_wf m (with_headers h r).
Proof.
  intros [_ _ _ Hb Hs] Hh Hf Hc. split; [done|done|done|exact Hb|].
  rewrite with_headers_body. unfold sent_body, noncontiguous_body in *. simpl in *. destruct (body_ (resp_msg r)); [done|]. apply with_headers_body.
Qed.

(** Adding a field. *)
Lemma append_wf (k : string) n v r :
  response_wf (n + 1) r → 0 ≤ n → k ∈ ["Content-Length"; "Content-Encoding"; "Connection"; "Content-Type"] →
  all_ascii v → nl ∉ v → cr ∉ v → Trim v = v →
  ∃ h, Append (resp_headers r) (chars_of k) v = Ret h ∧ response_wf n (with_headers h r) ∧
    fields_ h = resp_fields r ++ [(chars_of k, v)].
Proof.
  intros Hr Hn Hk Ha Hnl Hcr Ht. pose proof Hr as [Hh Hf Hc _ _]. destruct (known_name k v Hk Ha Hnl Hcr Ht) as [Hok Hkt].
  destruct (Append_effect (resp_headers r) (chars_of k) v Hh) as (h & He & Hinv & Hfs); [apply Hok|done|done|lia|].
  exists h. split_and!; [done| |done]. eapply with_headers_wf; [done|done|..].
  - rewrite Hfs. apply Forall_app. split; [done|]. by apply Forall_singleton.
  - rewrite Hfs, length_app. simpl. lia.
Qed.

Lemma response_wf_le n m r : m ≤ n → response_wf n r → response_wf m r.
Proof. intros Hle [? ? ? ? ?]. split; auto. lia. Qed.

Lemma snoc_keeps (k : string) v h r :
  fields_ h = resp_fields r ++ [(chars_of k, v)] → keeps [chars_of k] r (with_headers h r).
Proof.
  intros Hf k' Hk'. apply Forall_inv in Hk'. change (resp_fields (with_headers h r)) with (fields_ h). rewrite Hf, field_value_snoc. unfold same_name. simpl.
  rewrite decide_False by congruence. by destruct (field_value k' (resp_fields r)).
Qed.

Lemma snoc_value (k : string) v h r :
  fields_ h = resp_fields r ++ [(chars_of k, v)] → field_value (chars_of k) (resp_fields r) = None →
  field_value (chars_of k) (fields_ h) = Some v.
Proof. intros -> Hn. rewrite field_value_snoc, Hn. unfold same_name. simpl. by rewrite decide_True. Qed.

(** The request that is answered. *)
Record request_wf (q : HttpRequest) : Prop := {
  qw_headers : hd_inv (headers_ (req_msg q));
  qw_fields : Forall field_ok (fields_ (headers_ (req_msg q)));
}.

Definition connection_of (q : HttpRequest) : chars :=
  match field_value kConnection (fields_ (headers_ (req_msg q))) with
  | Some v => v
  | None => if decide (version_ (req_msg q) = V_1_1) then chars_of "keep-alive" else chars_of "close"
  end.

Lemma connection_value q :
  request_wf q → all_ascii (connection_of q) ∧ nl ∉ connection_of q ∧ cr ∉ connection_of q ∧
  Trim (connection_of q) = connection_of q.
Proof.
  intros [_ Hf]. unfold connection_of. destruct (field_value _ _) as [v|] eqn:E; [by eapply field_value_ok|].
  destruct (decide _); (split_and!; [by apply ascii_of|..]); apply (bool_decide_unpack _); vm_compute; exact I.
Qed.

Lemma fill_connection_effect n q r :
  request_wf q → response_wf (n + 1) r → 0 ≤ n →
  ∃ r', fill_connection q r = Ret r' ∧ response_wf n r' ∧ same_but_fields r r' ∧ keeps [kConnection] r r' ∧
    field_value kConnection (resp_fields r') =
      Some match field_value kConnection (resp_fields r) with Some v => v | None => connection_of q end.
Proof.
  intros Hq Hr Hn. unfold fill_connection, kConnection. rewrite (try_get_resp _ (n + 1)) by (done || known). cbn [obind].
  fold kConnection. destruct (field_value kConnection (resp_fields r)) as [v|] eqn:E.
  - exists r. split_and!; try done. apply (response_wf_le (n + 1)); [lia|done].
  - rewrite try_get_value by (apply Hq || (apply name_ascii; known)). cbn [obind].
    destruct (connection_value q Hq) as (Ha & Hnl & Hcr & Ht). unfold connection_of in *.
    destruct (append_wf "Connection" n _ r Hr Hn ltac:(known) Ha Hnl Hcr Ht) as (h & He & Hwf & Hf).
    unfold kConnection in *. rewrite He. cbn [obind]. eexists. split_and!; [done|done|apply with_headers_same|by eapply snoc_keeps|].
    by eapply snoc_value.
Qed.

Lemma body_size_wf n r : response_wf n r → body_size (resp_msg r) = size_of (body_text (resp_msg r)).
Proof. intros Hr. apply body_size_spec, Hr. Qed.

(** The Content-Length is that of the body, and absent where there must be none. *)
Definition length_right (r : HttpResponse) : Prop :=
  if bodiless (status_ r) then field_value kContentLength (resp_fields r) = None ∧ body_text (resp_msg r) = []
  else field_value kContentLength (resp_fields r) = Some (to_string (size_of (body_text (resp_msg r)))).

(** What a handler may leave to be filled in. *)
Definition length_fillable (r : HttpResponse) : Prop :=
  if bodiless (status_ r) then body_text (resp_msg r) = []
  else field_value kContentLength (resp_fields r) = None ∨
       field_value kContentLength (resp_fields r) = Some (to_string (size_of (body_text (resp_msg r)))).

Lemma remove_wf n r :
  response_wf n r → 0 ≤ n →
  ∃ b h, Remove (resp_headers r) kContentLength = Ret (b, h) ∧ response_wf n (with_headers h r) ∧
    fields_ h = filter (λ f, ¬ same_name kContentLength f) (resp_fields r).
Proof.
  intros Hr Hn. pose proof Hr as [Hh Hf Hc _ _].
  destruct (Remove_effect (resp_headers r) kContentLength Hh) as (h & He & Hinv & Hfs); [by apply name_ascii; known|lia|].
  eexists _, h. split_and!; [done| |done]. eapply with_headers_wf; [done|done|..].
  - rewrite Hfs. apply Forall_forall. intros f Hin. apply list_elem_of_filter in Hin as [_ Hin].
    rewrite Forall_forall in Hf. by apply Hf.
  - rewrite Hfs. pose proof (length_filter (λ f, ¬ same_name kContentLength f) (resp_fields r)). lia.
Qed.

Lemma filter_keeps k fs :
  lower <$> k ≠ lower <$> kContentLength →
  field_value k (filter (λ f, ¬ same_name kContentLength f) fs) = field_value k fs.
Proof.
  intros Hk. unfold field_value. rewrite list_filter_filter_l; [done|]. intros f. unfold same_name. congruence.
Qed.

Lemma filter_gone fs : field_value kContentLength (filter (λ f, ¬ same_name kContentLength f) fs) = None.
Proof.
  unfold field_value. rewrite filter_none; [done|]. apply Forall_forall.
  intros f Hf. apply list_elem_of_filter in Hf. tauto.
Qed.

Lemma fill_content_length_effect n r :
  response_wf (n + 1) r → 0 ≤ n → length_fillable r →
  ∃ r', fill_content_length r = Ret r' ∧ response_wf n r' ∧ same_but_fields r r' ∧ keeps [kContentLength] r r' ∧
    length_right r'.
Proof.
  intros Hr Hn Hfill. pose proof (response_wf_le (n + 1) n r ltac:(lia) Hr) as Hr'.
  unfold fill_content_length, length_fillable in *. rewrite (body_size_wf _ _ Hr). destruct (bodiless (status_ r)) eqn:Eb.
  - rewrite Hfill. cbn [length]. change (negb (Z.of_nat 0 =? 0)) with false. cbn iota.
    unfold kContentLength at 1. rewrite (try_get_resp _ (n + 1)) by (done || known). cbn [obind]. fold kContentLength.
    destruct (field_value kContentLength (resp_fields r)) eqn:E.
    + destruct (remove_wf n r Hr' Hn) as (b & h & -> & Hwf & Hfs). cbn [obind]. eexists. split_and!; [done|done|apply with_headers_same| |].
      * intros k Hk. change (resp_fields (with_headers h r)) with (fields_ h). rewrite Hfs. apply filter_keeps. by apply Forall_inv in Hk.
      * unfold length_right. rewrite with_headers_body. change (resp_fields (with_headers h r)) with (fields_ h).
        by rewrite Hfs, filter_gone; simpl; rewrite Eb.
    + exists r. split_and!; try done. unfold length_right. by rewrite Eb.
  - unfold kContentLength at 1. rewrite (try_get_resp _ (n + 1)) by (done || known). cbn [obind]. fold kContentLength.
    destruct (field_value kContentLength (resp_fields r)) as [v|] eqn:E.
    + exists r. split_and!; try done. unfold length_right. rewrite Eb, E. by destruct Hfill.
    + destruct (digits_value (size_of (body_text (resp_msg r)))) as (Ha & Hnl & Hcr & Ht); [lia|].
      destruct (append_wf "Content-Length" n _ r Hr Hn ltac:(known) Ha Hnl Hcr Ht) as (h & He & Hwf & Hf).
      unfold kContentLength in *. rewrite He. cbn [obind]. eexists. split_and!; [done|done|apply with_headers_same|by eapply snoc_keeps|].
      unfold length_right. rewrite with_headers_body. simpl. rewrite Eb. by eapply snoc_value.
Qed.

Section compress_proofs.
Context `{CompressorsSpec}.

(** The body of [r'] is that of [r] in an encoding from the list. *)
Definition compressed_from (parts : list chars) (r r' : HttpResponse) : Prop :=
  ∃ part c nb, part ∈ parts ∧ MakeCompressor (encoding_of part) = Some c ∧
    (compress_string c (body_text (resp_msg r)) = Some nb ∨
     ∃ nb0, contents nb0 = body_text (resp_msg r) ∧ compress_buffer c nb0 = Some nb) ∧
    body_text (resp_msg r') = contents nb ∧
    field_value kContentEncoding (resp_fields r') = Some (encoding_of part).

Lemma compress_body_effect n c e r :
  MakeCompressor e = Some c → response_wf n r → body_text (resp_msg r) ≠ [] →
  ∃ o r', compress_body c r = Ret (o, r') ∧ response_wf n r' ∧ same_but_fields r r' ∧
    resp_headers r' = resp_headers r ∧
    match o with
    | None => True
    | Some nb => nb_inv nb ∧
        (compress_string c (body_text (resp_msg r)) = Some nb ∨
         ∃ nb0, contents nb0 = body_text (resp_msg r) ∧ compress_buffer c nb0 = Some nb)
    end.
Proof.
  intros Hc Hr Hne. unfold compress_body. pose proof Hr as [Hh Hf Hn Hb Hs].
  destruct (noncontiguous_body (resp_msg r)) as [nb|] eqn:En.
  - exists (compress_buffer c nb), r. split_and!; [done..|]. destruct (compress_buffer c nb) as [nb'|] eqn:Ec; [|done].
    split; [by eapply compress_buffer_inv|]. right. exists nb. split; [|done].
    rewrite <-Hs. unfold sent_body. by rewrite En.
  - destruct (body (resp_msg r)) as [s m] eqn:Eb.
    assert (Hs' : body_text (resp_msg r) = s) by (unfold body_text; by rewrite Eb).
    assert (Hm : body_text m = s ∧ body_ m = None ∧ headers_ m = headers_ (resp_msg r) ∧ version_ m = version_ (resp_msg r)).
    { unfold noncontiguous_body in En. unfold body_text, body in *.
      destruct (body_str_ (resp_msg r)) eqn:E; simplify_eq/=; by rewrite ?E. }
    destruct Hm as (Hm1 & Hm2 & Hm3 & Hm4). rewrite Hs' in *. destruct s as [|a s]; [done|].
    exists (compress_string c (a :: s)), (mkResponse m (status_ r)). split_and!; [done| |unfold same_but_fields; split_and!; simpl; congruence|by unfold resp_headers|].
    + unfold resp_headers in *. split; unfold resp_headers; cbn [resp_msg]; rewrite ?Hm3, ?Hm1; auto.
      * unfold message_inv. by rewrite Hm2.
      * unfold sent_body, noncontiguous_body. by rewrite Hm2.
    + destruct (compress_string c (a :: s)) as [nb'|] eqn:Ec; [|done]. split; [by eapply compress_string_inv|by left].
Qed.

Lemma set_wf n v r :
  response_wf (n + 1) r → 0 ≤ n → all_ascii v → nl ∉ v → cr ∉ v → Trim v = v →
  ∃ h, Headers_Set (resp_headers r) kContentLength v = Ret h ∧ response_wf n (with_headers h r) ∧
    fields_ h = set_first kContentLength v (resp_fields r).
Proof.
  intros Hr Hn Ha Hnl Hcr Ht. pose proof Hr as [Hh Hf Hc _ _].
  destruct (known_name "Content-Length" v ltac:(known) Ha Hnl Hcr Ht) as [Hok Hkt].
  destruct (Headers_Set_effect (resp_headers r) kContentLength v Hh) as (h & He & Hinv & Hfs); [apply Hok|done|done|lia|].
  exists h. split_and!; [done| |done]. eapply with_headers_wf; [done|done|..]; rewrite Hfs.
  - by apply set_first_ok.
  - pose proof (set_first_length kContentLength v (resp_fields r)). lia.
Qed.

(** Putting a compressed body into the response. *)
Lemma replace_body n r nb e :
  response_wf (n + 2) r → 0 ≤ n → nb_inv nb → bodiless (status_ r) = false →
  all_ascii e → nl ∉ e → cr ∉ e → Trim e = e → field_value kContentEncoding (resp_fields r) = None →
  let m := set_body_buffer nb (resp_msg r) in
  ∃ r', (h ←! Headers_Set (headers_ m) kContentLength (to_string (body_size m));
         h' ←! Append h kContentEncoding e; Ret (mkResponse (set_headers h' m) (status_ r))) = Ret r' ∧
    response_wf n r' ∧ status_ r' = status_ r ∧ version_ (resp_msg r') = version_ (resp_msg r) ∧
    keeps [kContentLength; kContentEncoding] r r' ∧ length_right r' ∧
    body_text (resp_msg r') = contents nb ∧ field_value kContentEncoding (resp_fields r') = Some e.
Proof.
  intros [Hh Hf Hc Hb Hs] Hn Hnb Hst Ha Hnl Hcr Ht Hnone m.
  assert (Hm : body_text m = contents nb) by (unfold body_text, body; simpl; by apply flatten_all).
  assert (Hr : response_wf (n + 1 + 1) (mkResponse m (status_ r))).
  { split; [exact Hh|exact Hf|simpl; unfold resp_headers in *; simpl; lia|exact Hnb|by simpl; rewrite Hm]. }
  replace (body_size m) with (size_of (contents nb)) by (rewrite <-Hm; symmetry; exact (body_size_wf _ _ Hr)).
  destruct (digits_value (size_of (contents nb))) as (Da & Dn & Dc & Dt); [lia|].
  destruct (set_wf (n + 1) _ _ Hr ltac:(lia) Da Dn Dc Dt) as (h & He & Hwf & Hfs).
  change (headers_ m) with (resp_headers (mkResponse m (status_ r))). rewrite He. cbn [obind].
  destruct (append_wf "Content-Encoding" n e _ Hwf Hn ltac:(known) Ha Hnl Hcr Ht) as (h' & He' & Hwf' & Hfs').
  change (resp_headers (with_headers h _)) with h in He', Hfs'. unfold kContentEncoding at 1. rewrite He'. cbn [obind].
  change (resp_headers (mkResponse m (status_ r))) with (resp_headers r) in Hfs.
  assert (Hval : ∀ k, field_value k (fields_ h') =
    match (if decide (lower <$> k = lower <$> kContentLength) then Some (to_string (size_of (contents nb)))
           else field_value k (resp_fields r)) with
    | Some v => Some v
    | None => if decide (same_name k (kContentEncoding, e)) then Some e else None
    end) by (intros k; rewrite Hfs', field_value_snoc, Hfs, field_value_set_first; done).
  eexists. split; [done|]. unfold resp_headers. cbn [resp_msg status_ headers_ set_headers version_ set_body_buffer m].
  split_and!; [exact Hwf'|done|done| | |exact (eq_trans (with_headers_body h' (mkResponse m 200)) Hm)|].
  - intros k Hk. apply Forall_cons in Hk as [Hk1 Hk2]. apply Forall_inv in Hk2. unfold resp_headers. cbn [resp_msg headers_ set_headers].
    rewrite Hval, decide_False by done. unfold same_name. cbn [fst]. rewrite decide_False by congruence.
    by destruct (field_value k _).
  - unfold length_right. cbn [status_]. rewrite Hst. unfold resp_headers. cbn [resp_msg headers_ set_headers].
    rewrite Hval, decide_True by done. f_equal.
    by rewrite (eq_trans (with_headers_body h' (mkResponse m 200)) Hm : body_text (set_headers h' m) = contents nb).
  - rewrite Hval, decide_False by (vm_compute; discriminate). rewrite Hnone. unfold same_name. by rewrite decide_True.
Qed.

(** The result of trying encodings: the response as it was, or with a compressed
    body. *)
Record encoded (parts : list chars) (n : Z) (r r' : HttpResponse) : Prop := {
  en_wf : response_wf n r';
  en_status : status_ r' = status_ r;
  en_version : version_ (resp_msg r') = version_ (resp_msg r);
  en_keeps : keeps [kContentLength; kContentEncoding] r r';
  en_length : length_right r';
  en_body : (body_text (resp_msg r') = body_text (resp_msg r) ∧
             field_value kContentEncoding (resp_fields r') = field_value kContentEncoding (resp_fields r)) ∨
            compressed_from parts r r';
}.

Lemma encoded_same parts n r r' :
  response_wf n r' → same_but_fields r r' → resp_headers r' = resp_headers r → length_right r → encoded parts n r r'.
Proof.
  intros Hr (Hs & Hv & Hb) Hh Hl. split; auto.
  - intros k _. by rewrite Hh.
  - unfold length_right in *. by rewrite Hs, Hh, Hb.
  - left. by rewrite Hh.
Qed.

Lemma encoded_trans parts n r r1 r' :
  same_but_fields r r1 → resp_headers r1 = resp_headers r → encoded parts n r1 r' → encoded parts n r r'.
Proof.
  intros (Hs & Hv & Hb) Hh [? ? ? Hk ? He]. split; [done|congruence|congruence| |done|].
  - intros k Hn. rewrite Hk by done. by rewrite Hh.
  - rewrite Hh, Hb in He. unfold compressed_from in *. by rewrite Hb in He.
Qed.

Lemma encoded_mono parts parts' n r r' : parts ⊆ parts' → encoded parts n r r' → encoded parts' n r r'.
Proof.
  intros Hp [? ? ? ? ? He]. split; auto. destruct He as [?|(p & c & nb & Hin & ?)]; [by left|right].
  exists p, c, nb. split; [by apply Hp|done].
Qed.

Lemma encoding_trimmed p : Trim (encoding_of p) = encoding_of p.
Proof. unfold encoding_of. apply Trim_id. destruct (Trim_effect match find (chars_of ";") p with Some pos => take pos p | None => p end) as (?&?&?&?). done. Qed.

Lemma try_encodings_effect parts n r :
  response_wf (n + 2) r → 0 ≤ n → bodiless (status_ r) = false → body_text (resp_msg r) ≠ [] → length_right r →
  field_value kContentEncoding (resp_fields r) = None →
  ∃ r', try_encodings parts r = Ret r' ∧ encoded parts n r r'.
Proof.
  revert r. induction parts as [|p parts IH]; intros r Hr Hn Hst Hne Hl Hnone; cbn [try_encodings].
  { exists r. split; [done|]. apply encoded_same; try done. by apply (response_wf_le (n + 2)); [lia|]. }
  assert (Hsub : parts ⊆ p :: parts) by set_solver.
  destruct (MakeCompressor (encoding_of p)) as [c|] eqn:Ec.
  2:{ destruct (IH r) as (r' & -> & He); auto. exists r'. split; [done|by eapply encoded_mono]. }
  destruct (compress_body_effect (n + 2) c _ r Ec Hr Hne) as (o & r1 & -> & Hr1 & Hs1 & Hh1 & Ho). cbn [obind].
  pose proof Hs1 as (Hst1 & Hv1 & Hb1). destruct o as [nb|].
  - destruct Ho as [Hnb Hfrom]. destruct (compressor_name _ _ Ec) as (Ha & Hnl & Hcr).
    destruct (replace_body n r1 nb (encoding_of p)) as (r' & -> & Hwf & Hs & Hv & Hk & Hlen & Hb & Henc);
      try done; [by rewrite Hst1|by apply encoding_trimmed|by rewrite Hh1|].
    exists r'. split; [done|]. eapply encoded_trans; [done|done|]. split; try done. right.
    exists p, c, nb. rewrite Hb1. split_and!; [by left|done|done|done|done].
  - destruct (IH r1) as (r' & -> & He); auto.
    + by rewrite Hst1.
    + by rewrite Hb1.
    + unfold length_right in *. by rewrite Hst1, Hh1, Hb1.
    + by rewrite Hh1.
    + exists r'. split; [done|]. eapply encoded_mono, encoded_trans; done.
Qed.

(** The encodings the request accepts. *)
Definition accepted (q : HttpRequest) (parts : list chars) : Prop :=
  ∃ a, field_value kAcceptEncoding (fields_ (headers_ (req_msg q))) = Some a ∧ Split a (chars_of ",") false = Ret parts.

Lemma Split_total s : ∃ parts, Split s (chars_of ",") false = Ret parts.
Proof.
  destruct s as [|c s]; [by exists []|]. destruct (Split_effect (c :: s) (chars_of ",")) as (parts & _ & -> & _); [done|done|]. eauto.
Qed.

Lemma CompressResponseIfNecessary_effect n q r :
  request_wf q → response_wf (n + 2) r → 0 ≤ n → length_right r →
  ∃ r' parts, CompressResponseIfNecessary q r = Ret r' ∧ encoded parts n r r' ∧ (parts = [] ∨ accepted q parts).
Proof.
  intros Hq Hr Hn Hl. unfold CompressResponseIfNecessary. rewrite (body_size_wf _ _ Hr).
  assert (Hsame : encoded [] n r r) by (apply encoded_same; try done; apply (response_wf_le (n + 2)); [lia|done]).
  destruct (Z.eqb_spec (size_of (body_text (resp_msg r))) 0) as [|Hne]; [exists r, []; auto|].
  rewrite try_get_value by (apply Hq || (apply name_ascii; known)). cbn [obind].
  destruct (field_value kAcceptEncoding _) as [a|] eqn:Ea; [|exists r, []; auto].
  unfold kContentEncoding at 1. rewrite (try_get_resp _ (n + 2)) by (done || known). cbn [obind].
  destruct (field_value (chars_of "Content-Encoding") (resp_fields r)) eqn:En; [exists r, []; auto|].
  destruct (Split_total a) as (parts & Hsp). rewrite Hsp. cbn [obind].
  assert (Hb : body_text (resp_msg r) ≠ []) by (intros E; by rewrite E in Hne).
  destruct (try_encodings_effect parts n r) as (r' & -> & He); try done.
  - unfold length_right in Hl. destruct (bodiless (status_ r)); [|done]. by destruct Hl.
  - exists r', parts. split_and!; [done|done|]. right. by exists a.
Qed.

(** What is sent for a response that a handler made. *)
Record completed (q : HttpRequest) (r r' : HttpResponse) : Prop := {
  cp_wf : response_wf 0 r';
  cp_status : status_ r' = status_ r;
  cp_version : version_ (resp_msg r') = version_ (resp_msg r);
  cp_keeps : keeps [kConnection; kContentLength; kContentEncoding] r r';
  cp_connection : field_value kConnection (resp_fields r') =
    Some match field_value kConnection (resp_fields r) with Some v => v | None => connection_of q end;
  cp_length : length_right r';
  cp_body : (body_text (resp_msg r') = body_text (resp_msg r) ∧
             field_value kContentEncoding (resp_fields r') = field_value kContentEncoding (resp_fields r)) ∨
            ∃ parts, accepted q parts ∧ compressed_from parts r r';
}.

Lemma FillMissingHeaders_effect q r :
  request_wf q → response_wf 4 r → length_fillable r →
  ∃ r', FillMissingHeaders q r = Ret r' ∧ completed q r r'.
Proof.
  intros Hq Hr Hfill. unfold FillMissingHeaders.
  destruct (fill_connection_effect 3 q r Hq Hr) as (r1 & -> & Hr1 & (Hs1 & Hv1 & Hb1) & Hk1 & Hc1); [lia|]. cbn [obind].
  destruct (fill_content_length_effect 2 r1 Hr1) as (r2 & -> & Hr2 & (Hs2 & Hv2 & Hb2) & Hk2 & Hl2); [lia| |].
  { unfold length_fillable in *. rewrite Hs1, Hb1, Hk1; [done|]. repeat constructor. vm_compute. discriminate. }
  cbn [obind]. destruct (CompressResponseIfNecessary_effect 0 q r2 Hq Hr2) as (r3 & parts & -> & He & Hp); [lia|done|].
  exists r3. split; [done|]. destruct He as [Hwf Hs3 Hv3 Hk3 Hl3 Hb3].
  assert (Hce : field_value kContentEncoding (resp_fields r2) = field_value kContentEncoding (resp_fields r)).
  { rewrite Hk2, Hk1; [done|..]; (repeat constructor); vm_compute; discriminate. }
  split; [done|congruence|congruence| | |done|].
  - intros k Hk. pose proof Hk as [Hk' (Hk'' & _)%Forall_cons]%Forall_cons. rewrite Hk3, Hk2, Hk1; [done|by constructor..|].
    by apply Forall_cons in Hk as [_ ?].
  - rewrite Hk3, Hk2; [done|..]; (repeat constructor); vm_compute; discriminate.
  - rewrite Hce in Hb3. destruct Hb3 as [[? ?]|Hcf]; [left; split; congruence|]. right. exists parts.
    destruct Hp as [->|Hp]; [by destruct Hcf as (p & _ & _ & Hin & _); apply elem_of_nil in Hin|].
    split; [done|]. unfold compressed_from in *. by rewrite Hb2, Hb1 in Hcf.
Qed.
End compress_proofs.

(** ** Handling a request

    What a handler promises to the service: it finds the response empty, and
    leaves one that can be completed and sent.  [good] is what the handlers rely
    on in requests, and [inv] an invariant of the program around them. *)

Record fresh_response (q : HttpRequest) (r : HttpResponse) : Prop := {
  fr_wf : response_wf 5 r;
  fr_version : version_ (resp_msg r) = version_ (req_msg q);
  fr_length : field_value kContentLength (resp_fields r) = None;
  fr_status : status_ r = HttpStatus_OK;
  fr_body : body_text (resp_msg r) = [];
}.

Record answerable (q : HttpRequest) (r : HttpResponse) : Prop := {
  an_wf : response_wf 4 r;
  an_version : version_ (resp_msg r) = version_ (req_msg q);
  an_status : known_status (status_ r);
  an_length : length_fillable r;
}.

Section serving.
Context {G : Type} `{CompressorsSpec} (good : HttpRequest → Prop) (inv : G → Prop).
Implicit Types (s : Service G) (q : HttpRequest) (r : HttpResponse) (g : G).

Definition request_good q : Prop :=
  request_wf q ∧ (version_ (req_msg q) = V_1_0 ∨ version_ (req_msg q) = V_1_1) ∧ good q.

Definition method_promise (f : method_fn) : Prop :=
  ∀ q r g, request_good q → fresh_response q r → inv g →
    safe (f q r g) (λ '(r', g'), answerable q r' ∧ inv g').

Definition filter_promise (f : HttpFilter) : Prop :=
  ∀ q r g, request_good q → fresh_response q r → inv g →
    safe (f q r g) (λ '(action, q', r', g'), request_good q' ∧ inv g' ∧ version_ (req_msg q') = version_ (req_msg q) ∧
      match action with
      | KeepProcessing => fresh_response q' r'
      | EarlyReturn => answerable q' r'
      | Drop_ => True
      end).

Definition handler_promise (h : HttpHandler G) : Prop :=
  match h with
  | Functor f => method_promise f
  | Methods m => Forall method_promise (snd <$> kHandlers m)
  end.

Record service_promise s : Prop := {
  sp_filters : Forall filter_promise (filters_ s);
  sp_exact : map_Forall (λ _, handler_promise) (exact_paths_ s);
  sp_prefix : Forall (λ e, handler_promise e.2) (prefix_paths_ s);
  sp_regex : Forall (λ e, handler_promise e.2) (regex_paths_ s);
  sp_default : handler_promise (default_handler_ s);
}.

Lemma default_page_effect c q r :
  c = HttpStatus_NotFound ∨ c = HttpStatus_MethodNotAllowed → fresh_response q r →
  ∃ r', GenerateDefaultResponsePage c r [] [] = Ret r' ∧ answerable q r'.
Proof.
  intros Hc [Hwf Hv Hl _ _].
  destruct (append_wf "Content-Type" 4 (chars_of "text/html") r Hwf) as (h & He & Hwf' & Hf);
    [lia|known|by apply ascii_of|apply (bool_decide_unpack _); vm_compute; exact I..|].
  unfold GenerateDefaultResponsePage. change (headers_ (resp_msg r)) with (resp_headers r). rewrite He. cbn [obind].
  assert (Hcl : field_value kContentLength (fields_ h) = None).
  { rewrite Hf, field_value_snoc, Hl. unfold same_name. by rewrite decide_False by (vm_compute; discriminate). }
  destruct Hwf' as [Hh' Hf' Hc' _ _].
  assert (Hst : known_status c) by (destruct Hc as [->| ->]; apply (bool_decide_unpack _); vm_compute; exact I).
  rewrite !decide_True by done. rewrite (sf_text _ (status_ok _ Hst)). cbn [obind]. eexists. split; [done|].
  split; [|exact Hv|exact Hst|].
  - split; [exact Hh'|exact Hf'|exact Hc'|exact I|done].
  - unfold length_fillable. replace (bodiless _) with false by (by destruct Hc as [->| ->]). by left.
Qed.

Lemma page_promise c :
  c = HttpStatus_NotFound ∨ c = HttpStatus_MethodNotAllowed →
  method_promise (λ _ r g, r' ←! GenerateDefaultResponsePage c r [] []; Ret (r', g)).
Proof.
  intros Hc q r g _ Hr Hg. destruct (default_page_effect c q r Hc Hr) as (r' & -> & Ha). done.
Qed.

Lemma MethodNotAllowed_promise : method_promise MethodNotAllowed_page.
Proof. apply page_promise. by right. Qed.

Lemma NotFound_promise : method_promise NotFound_page.
Proof. apply page_promise. by left. Qed.

Lemma Service_new_promise : service_promise Service_new.
Proof.
  split; simpl; [apply Forall_nil; exact I|apply map_Forall_empty|apply Forall_nil; exact I|apply Forall_nil; exact I|].
  exact NotFound_promise.
Qed.

Lemma with_OnGet_promise f : method_promise f → handler_promise (Methods (with_OnGet f)).
Proof.
  intros Hf. pose proof MethodNotAllowed_promise. cbn. repeat (apply Forall_cons; split; [assumption|]).
  apply Forall_nil. exact I.
Qed.

Lemma with_OnPost_promise f : method_promise f → handler_promise (Methods (with_OnPost f)).
Proof.
  intros Hf. pose proof MethodNotAllowed_promise. cbn. repeat (apply Forall_cons; split; [assumption|]).
  apply Forall_nil. exact I.
Qed.

Lemma HandleRequest_promise h : handler_promise h → method_promise (HandleRequest h).
Proof.
  destruct h as [m|f]; [|done]. intros Hm q r g. unfold HandleRequest.
  destruct (list_find _ (kHandlers m)) as [[i [m' f]]|] eqn:E; [|apply MethodNotAllowed_promise].
  apply list_find_Some in E as (Hi & _). cbn [handler_promise] in Hm. rewrite Forall_fmap, Forall_lookup in Hm. exact (Hm i _ Hi q r g).
Qed.

Lemma routes_promise s path h : service_promise s → routes s path h → handler_promise h.
Proof.
  intros [_ He Hp Hr _] [h' Hl|l1 p h' l2 _ Hl _ _|l1 re h' l2 _ _ Hl _ _].
  - by apply (He path).
  - rewrite Hl in Hp. apply Forall_app in Hp as [_ Hp]. by apply Forall_inv in Hp.
  - rewrite Hl in Hr. apply Forall_app in Hr as [_ Hr]. by apply Forall_inv in Hr.
Qed.

Lemma FindHandler_effect s uri :
  ∃ o, FindHandler s uri = Ret o ∧ ∀ h, o = Some h → routes s (GetUriPath uri) h.
Proof.
  unfold FindHandler. destruct (exact_paths_ s !! GetUriPath uri) as [h|] eqn:Ee.
  { eexists. split; [done|]. intros ? [= <-]. by apply By_exact. }
  destruct (find_prefix_spec (GetUriPath uri) (prefix_paths_ s)) as ([h|] & -> & Ho); cbn [obind].
  { eexists. split; [done|]. intros ? [= <-]. destruct Ho as (l1 & p & l2 & ? & ? & ?). by eapply By_prefix. }
  eexists. split; [done|]. intros h Hh. pose proof (find_regex_spec (GetUriPath uri) (regex_paths_ s)) as Hr.
  rewrite Hh in Hr. destruct Hr as (l1 & re & l2 & ? & ? & ?). by eapply By_regex.
Qed.

Lemma RunHandler_promise s : service_promise s → method_promise (RunHandler s).
Proof.
  intros Hs q r g Hq Hr Hg. unfold RunHandler. destruct (FindHandler_effect s (uri_ q)) as (o & -> & Ho). cbn [obind].
  destruct o as [h|]; apply HandleRequest_promise; auto.
  - eapply routes_promise; [done|]. by apply Ho.
  - apply Hs.
Qed.

Lemma run_filters_promise fs : Forall filter_promise fs → filter_promise (run_filters fs).
Proof.
  induction 1 as [|f fs Hf _ IH]; intros q r g Hq Hr Hg; cbn [run_filters].
  { done. }
  apply safe_bind. eapply safe_mono; [by apply Hf|]. intros [[[action q'] r'] g'] (Hq' & Hg' & Hv & Ha).
  destruct action; [|done|done]. eapply safe_mono; [by apply IH|]. intros [[[a2 q2] r2] g2] (? & ? & Hv2 & ?). by rewrite Hv2.
Qed.

(** A response the service sends. *)
Record sendable q r : Prop := {
  sn_wf : response_wf 0 r;
  sn_version : version_ (resp_msg r) = version_ (req_msg q);
  sn_status : known_status (status_ r);
  sn_length : length_right r;
  sn_ok : bodiless (status_ r) = false →
    size_of (message_block (response_line r) (resp_fields r)) + size_of (sent_body (resp_msg r)) < 2 ^ 63 →
    response_ok r;
}.

Lemma completed_sendable q r r' :
  request_good q → answerable q r → completed q r r' → sendable q r'.
Proof.
  intros (_ & Hv & _) [_ Hrv Hst _] [Hwf Hs Hv' _ _ Hl _]. split; [done|congruence|by rewrite Hs|done|].
  intros Hb Hsz. split; [|by rewrite Hs|apply Hwf|apply Hwf| |done].
  - rewrite Hv', Hrv. done.
  - rewrite (rw_sent _ _ Hwf). unfold length_right in Hl. by rewrite Hb in Hl.
Qed.

Lemma fresh_new q :
  ∃ r0, HttpResponse_new = Ret r0 ∧
    fresh_response q (mkResponse (set_version (version_ (req_msg q)) (resp_msg r0)) HttpStatus_OK).
Proof.
  unfold HttpResponse_new, HttpMessage_new. destruct HttpHeaders_new_inv as (h & -> & Hinv & Hf). cbn [obind].
  eexists. split; [done|]. split; unfold resp_headers; simpl; try done; [|by rewrite Hf].
  split; unfold resp_headers; simpl; rewrite ?Hf; try done; by constructor.
Qed.

(** What the filters make of a request. *)
Definition filtered s q g q' : Prop :=
  ∃ r action r' g', fresh_response q r ∧ RunFilters s q r g = Ret (action, q', r', g').

Lemma FastCall_effect s q g :
  service_promise s → request_good q → inv g →
  safe (FastCall s q g) (λ '(status, o, g'), inv g' ∧
    match o with
    | None => status = Dropped
    | Some r => ∃ q' c, request_good q' ∧ sendable q' r ∧ field_value kConnection (resp_fields r) = Some c ∧
        status = (if decide (lower <$> c = chars_of "keep-alive") then Processed else Completed) ∧
        filtered s q g q' ∧ version_ (resp_msg r) = version_ (req_msg q)
    end).
Proof.
  intros Hs Hq Hg. unfold FastCall. destruct (fresh_new q) as (r0 & -> & Hfresh). cbn [obind].
  assert (Hf := run_filters_promise _ (sp_filters _ Hs) _ _ _ Hq Hfresh Hg). fold (RunFilters s) in Hf.
  destruct (RunFilters s q _ g) as [[[[action q'] r2] g2]| | | |] eqn:Ef; [|exact Hf|exact Hf|exact I|exact Hf].
  destruct Hf as (Hq' & Hg2 & Hv & Ha). cbn [obind].
  assert (Hfd : filtered s q g q') by (eexists _, _, _, _; split; [exact Hfresh|exact Ef]).
  assert (Hrest : safe (match action with KeepProcessing => RunHandler s q' r2 g2 | _ => Ret (r2, g2) end)
                    (λ '(r', g'), match action with Drop_ => True | _ => answerable q' r' end ∧ inv g')).
  { destruct action; [by apply RunHandler_promise|done|done]. }
  assert (Hfill : ∀ r3 g3, answerable q' r3 → inv g3 →
    safe (r4 ←! FillMissingHeaders q' r3; connection ←! Headers_TryGet (resp_headers r4) kConnection;
          alive ←! IEquals match connection with Some c => c | None => [] end (chars_of "keep-alive");
          Ret (if alive then Processed else Completed, Some r4, g3))
      (λ '(status, o, g'), inv g' ∧
        match o with
        | None => status = Dropped
        | Some r => ∃ q' c, request_good q' ∧ sendable q' r ∧ field_value kConnection (resp_fields r) = Some c ∧
            status = (if decide (lower <$> c = chars_of "keep-alive") then Processed else Completed) ∧
            filtered s q g q' ∧ version_ (resp_msg r) = version_ (req_msg q)
        end)).
  { intros r3 g3 Ha3 Hg3. destruct (FillMissingHeaders_effect q' r3) as (r4 & -> & Hc); [apply Hq'|apply Ha3..|]. cbn [obind].
    unfold kConnection at 1. rewrite (try_get_resp _ 0) by (apply Hc || known). fold kConnection.
    set (c := match field_value kConnection (resp_fields r3) with Some v => v | None => connection_of q' end).
    assert (Hcc : field_value kConnection (resp_fields r4) = Some c) by apply (cp_connection _ _ _ Hc).
    rewrite Hcc. cbn [obind]. destruct (field_value_ok _ _ _ (rw_fields _ _ (cp_wf _ _ _ Hc)) Hcc) as (Hasc & _).
    rewrite IEquals_spec by (done || by apply ascii_of). cbn [obind safe]. split; [done|].
    assert (Hsn : sendable q' r4) by (by eapply completed_sendable).
    exists q', c. split_and!; [done|done|done| |done|by rewrite (sn_version _ _ Hsn)].
    change (lower <$> chars_of "keep-alive") with (chars_of "keep-alive"). by rewrite <-decide_bool_decide. }
  destruct action; [|exact (conj Hg2 eq_refl)|].
  - apply safe_bind. eapply safe_mono; [exact Hrest|]. intros [r3 g3] [Ha3 Hg3]. by apply Hfill.
  - cbn [obind]. by apply Hfill.
Qed.

(** Without a filter the request is the one that arrived, and is not dropped. *)
Lemma FastCall_unfiltered s q g :
  service_promise s → filters_ s = [] → request_good q → inv g →
  safe (FastCall s q g) (λ '(_, o, g'), inv g' ∧ ∃ r, o = Some r ∧ sendable q r).
Proof.
  intros Hs Hf Hq Hg. unfold FastCall, RunFilters. destruct (fresh_new q) as (r0 & -> & Hfresh). rewrite Hf. cbn [run_filters obind].
  apply safe_bind. eapply safe_mono; [by apply RunHandler_promise|]. intros [r3 g3] [Ha3 Hg3].
  destruct (FillMissingHeaders_effect q r3) as (r4 & -> & Hc); [apply Hq|apply Ha3..|]. cbn [obind].
  unfold kConnection at 1. rewrite (try_get_resp _ 0) by (apply Hc || known). fold kConnection.
  pose proof (cp_connection _ _ _ Hc) as Hcc. rewrite Hcc. cbn [obind].
  destruct (field_value_ok _ _ _ (rw_fields _ _ (cp_wf _ _ _ Hc)) Hcc) as (Hasc & _).
  rewrite IEquals_spec by (exact Hasc || by apply ascii_of). cbn [obind safe]. split; [exact Hg3|].
  exists r4. split; [reflexivity|]. exact (completed_sendable q r3 r4 Hq Ha3 Hc).
Qed.

End serving.

(** ** Examples *)

(** A compressor under the name gzip that makes any body a fixed one. *)
#[local] Instance toy_compressors : Compressors := λ e,
  if decide (e = chars_of "gzip") then Some (mkCompressor (λ _, Some split_nb) (λ _, Some split_nb)) else None.

#[local] Instance toy_compressors_spec : CompressorsSpec.
Proof.
  split; unfold MakeCompressor, toy_compressors; intros e c; destruct (decide (e = chars_of "gzip")) as [->|]; try done.
  - intros _. split_and!; [by apply ascii_of|..]; apply (bool_decide_unpack _); vm_compute; exact I.
  - intros s nb [= <-] [= <-]. apply split_nb_inv.
  - intros s nb [= <-] [= <-]. apply split_nb_inv.
Qed.

Definition compressed_request : HttpRequest :=
  mkRequest (mkMessage V_1_1 (sample_headers [(chars_of "accept-encoding", chars_of "br;q=1, gzip;q=0.5")]) None None)
    Get (chars_of "/missing?x=1").

Lemma sample_headers_inv fs :
  Forall field_ok fs → Forall (λ f, Trim f.1 = f.1) fs → Z.of_nat (length fs) ≤ 2 ^ 59 →
  hd_inv (sample_headers fs) ∧ fields_ (sample_headers fs) = fs.
Proof.
  intros Hok Htr Hlen. unfold sample_headers. destruct HttpHeaders_new_inv as (h & -> & Hinv & Hf). cbn [obind].
  destruct (Append_all_effect fs h Hinv) as (h' & -> & Hinv' & Hf').
  - apply Forall_forall. intros f Hin. rewrite Forall_forall in Hok, Htr. split; [by apply Htr|by apply (Hok f Hin)].
  - eapply Forall_impl; [exact Hok|]. intros f [? [? ?] ? ? ? ?]. done.
  - rewrite Hf. simpl. lia.
  - by rewrite Hf', Hf.
Qed.


(** The page for a path that is not registered, compressed, on a connection that
    is kept. *)
Example missing_page_is_compressed :
  match FastCall (G:=unit) Service_new compressed_request tt with
  | Ret (status, Some r, _) =>
      status = Processed ∧ status_ r = HttpStatus_NotFound ∧ sent_body (resp_msg r) = contents split_nb ∧
      fields_ (resp_headers r) =
        [(chars_of "Content-Type", chars_of "text/html"); (kConnection, chars_of "keep-alive");
         (kContentLength, chars_of "12"); (kContentEncoding, chars_of "gzip")]
  | _ => False
  end.
Proof. vm_compute. split_and!; reflexivity. Qed.
