(* ===== verification/Handlers.v ===== *)
(** * The handlers of the cache: cache/handler/, cache/model/request_model.h

    A handler reads the path parameters or the JSON body of a request, calls the
    managers and fills the response.  The state [world] has the three managers,
    the arena of the sorted sets, the disk, and the fibers that were started with
    [flare::fiber::Async] and have not run yet.

    JSON is read and written by xpack, whose reader throws on malformed input:
    the class [Json].  The order in which the fibers of one request run is the
    scheduler's: the class [FiberOrder].  A handler runs without interruption by
    other requests; what can go wrong otherwise is in [query_race].

    There are two abstractions of this state.  A [cache] has, besides the values,
    the pairs that were ever added to each sorted set, and [handler_effect] says
    that every handler does what [spec_api] does on it.  An [api_state] is what
    cache/openapi.yaml describes, values and sorted sets whose members have one
    score each: [handler_refines] says that the handlers answer as it does, as
    long as no pair of score and member is added twice. *)

From Stdlib Require Import Ascii.
From S2P Require Import Prelude Interfaces Random Arena SkipList SkipListSpec HashKv Zset Managers Regex ParamParse.
From S2P Require Import FlareString Buffer FlareHashMap HttpHeaders HttpTypes HttpIo HttpIoProofs HttpService.

#[local] Open Scope string_scope.
#[local] Open Scope list_scope.
#[local] Open Scope Z_scope.

(** ** Parameters *)

(** [xpack::json::decode] into a fresh object, [None] for an exception, and
    [xpack::json::encode]. *)
Class Json := {
  decode_insert : chars → option InsertRequest;
  decode_inserts : chars → option (list InsertRequest);
  decode_keys : chars → option (list string);
  decode_zadd : chars → option ZaddRequest;
  decode_zrange : chars → option ZrangeRequest;
  encode_inserts : list InsertRequest → chars;
  encode_zadds : list ZaddRequest → chars;
}.

Definition decoded {A} (o : option A) : outcome A := match o with Some a => Ret a | None => Throw end.

(** Fibers that are started together and awaited together run in some order. *)
Class FiberOrder := {
  fiber_order : ∀ {A}, list A → list A;
  fiber_order_perm {A} (l : list A) : fiber_order l ≡ₚ l;
}.

(** ** The state *)

(** A fiber that was started and not awaited. *)
Inductive task := Persist (k v : string) | Persist_batch (reqs : list InsertRequest).

Record world {S D : Type} := mkWorld {
  kv_manager : KvManager;
  zset_manager : ZsetManager;
  arena : S;
  localdb_manager : LocaldbManager;
  disk : D;
  tasks : list task;
}.
Arguments world : clear implicits.

Definition set_status (c : HttpStatus) (r : HttpResponse) : HttpResponse := mkResponse (resp_msg r) c.
Definition set_body (s : chars) (r : HttpResponse) : HttpResponse := mkResponse (set_body_string s (resp_msg r)) (status_ r).

(** [GetPathParam(template)[name]] of the request's uri; a template outside the
    regular expressions that are modelled has no result. *)
Definition path_param (request : HttpRequest) (template : string) : outcome (gmap string (option string)) :=
  match GetPathParam (mkParamParse (string_of (HttpTypes.uri_ request))) template with
  | Some m => Ret m
  | None => Fuel
  end.

Section handlers.
Context {S D : Type} (sizeof_Node : Z) (NDEBUG : bool) `{StdHash} `{NodeAllocator S} `{LevelDB D} `{Json} `{FiberOrder}.
#[local] Abbreviation W := (world S D).
Implicit Types (request : HttpRequest) (response : HttpResponse) (g : W).

#[local] Abbreviation method := (HttpRequest → HttpResponse → W → outcome (HttpResponse * W)).

Definition with_kv (kv : KvManager) g : W :=
  mkWorld _ _ kv (zset_manager g) (arena g) (localdb_manager g) (disk g) (tasks g).
Definition with_zset (zm : ZsetManager) (s : S) g : W :=
  mkWorld _ _ (kv_manager g) zm s (localdb_manager g) (disk g) (tasks g).
Definition async (t : task) g : W :=
  mkWorld _ _ (kv_manager g) (zset_manager g) (arena g) (localdb_manager g) (disk g) (tasks g ++ [t]).

(** ** init_handler.cc *)

Definition InitQueryHandler_OnGet : method := λ request response g,
  if negb (Localdb_Query (localdb_manager g)) then Ret (set_status HttpStatus_BadRequest response, g)
  else Ret (set_status HttpStatus_OK (set_body (chars_of "ok") response), g).

(** ** kv_handler.cc *)

Definition QueryKeyHandler_OnGet : method := λ request response g,
  path_param_map ←! path_param request "/query/{key}$";
  match param_at path_param_map "key" with
  | None => Ret (set_status HttpStatus_BadRequest response, g)
  | Some key =>
      value ←! Kv_Query (kv_manager g) key;
      match value with
      | None => Ret (set_status HttpStatus_NotFound response, g)
      | Some p =>
          v ←! cell_read (memdb (kv_manager g)) p;
          Ret (set_status HttpStatus_OK (set_body (chars_of v) response), g)
      end
  end.

Definition empty_string (s : string) : bool := bool_decide (s = EmptyString).

Definition AddKeyHandler_OnPost : method := λ request response g,
  insert_req ←! decoded (decode_insert (body_text (req_msg request)));
  if empty_string (ins_key insert_req) || empty_string (ins_value insert_req)
  then Ret (set_status HttpStatus_BadRequest response, g)
  else
    '(added, kv) ←! Kv_Add (kv_manager g) (ins_key insert_req) (ins_value insert_req);
    let g1 := with_kv kv g in
    if negb added then Ret (set_status HttpStatus_BadRequest response, g1)
    else Ret (set_status HttpStatus_OK response, async (Persist (ins_key insert_req) (ins_value insert_req)) g1).

Definition DelKeyHandler_OnGet : method := λ request response g,
  path_param_map ←! path_param request "/del/{key}$";
  match param_at path_param_map "key" with
  | None => Ret (set_status HttpStatus_BadRequest response, g)
  | Some key =>
      '(_, kv) ←! Kv_Del (kv_manager g) key;
      Ret (set_status HttpStatus_OK response, with_kv kv g)
  end.

(** The fibers look the keys up in some order; the results are those of the
    futures, in the order of the keys. *)
Fixpoint query_fibers (kv : KvManager) (indexed : list (nat * string)) : outcome (list (nat * option Z)) :=
  match indexed with
  | [] => Ret []
  | (i, key) :: rest =>
      p ←! Kv_Query kv key;
      ps ←! query_fibers kv rest;
      Ret ((i, p) :: ps)
  end.

(** [BlockingGet] of the future of each key. *)
Fixpoint collect (kv : KvManager) (futures : list (nat * option Z)) (indexed : list (nat * string)) :
    outcome (list InsertRequest) :=
  match indexed with
  | [] => Ret []
  | (i, key) :: rest =>
      value ←! deref (snd <$> head (filter (λ f, f.1 = i) futures));
      match value with
      | None => collect kv futures rest
      | Some p =>
          v ←! cell_read (memdb kv) p;
          results ←! collect kv futures rest;
          Ret (mkInsertRequest key v :: results)
      end
  end.

Definition BatchQueryKeyHandler_OnPost : method := λ request response g,
  key_vec ←! decoded (decode_keys (body_text (req_msg request)));
  match key_vec with
  | [] => Ret (set_status HttpStatus_BadRequest response, g)
  | _ =>
      let indexed := imap pair key_vec in
      futures ←! query_fibers (kv_manager g) (fiber_order indexed);
      result_vec ←! collect (kv_manager g) futures indexed;
      match result_vec with
      | [] => Ret (set_status HttpStatus_NotFound response, g)
      | _ => Ret (set_status HttpStatus_OK (set_body (encode_inserts result_vec) response), g)
      end
  end.

Fixpoint add_fibers (reqs : list InsertRequest) (kv : KvManager) : outcome KvManager :=
  match reqs with
  | [] => Ret kv
  | r :: rest => '(_, kv') ←! Kv_Add kv (ins_key r) (ins_value r); add_fibers rest kv'
  end.

Definition BatchAddKeyHandler_OnPost : method := λ request response g,
  insert_req_vec ←! decoded (decode_inserts (body_text (req_msg request)));
  kv ←! add_fibers (fiber_order insert_req_vec) (kv_manager g);
  Ret (set_status HttpStatus_OK response, async (Persist_batch insert_req_vec) (with_kv kv g)).

(** ** zsert_handler.cc *)

Definition ZaddHandler_OnPost : method := λ request response g,
  path_param_map ←! path_param request "/zadd/{key}$";
  match param_at path_param_map "key" with
  | None => Ret (set_status HttpStatus_BadRequest response, g)
  | Some key =>
      zadd_request ←! decoded (decode_zadd (body_text (req_msg request)));
      '(added, zm, s) ←! ZM_Add sizeof_Node NDEBUG (zset_manager g) key (score zadd_request) (value zadd_request) (arena g);
      let g1 := with_zset zm s g in
      if negb added then Ret (set_status HttpStatus_BadRequest response, g1)
      else Ret (set_status HttpStatus_OK response, g1)
  end.

Definition ZrangeHandler_OnPost : method := λ request response g,
  path_param_map ←! path_param request "/zrange/{key}$";
  match param_at path_param_map "key" with
  | None => Ret (set_status HttpStatus_BadRequest response, g)
  | Some key =>
      zrange_request ←! decoded (decode_zrange (body_text (req_msg request)));
      '(found, range) ←! ZM_Range NDEBUG (zset_manager g) key (min_score zrange_request) (max_score zrange_request);
      if negb found then Ret (set_status HttpStatus_NotFound response, g)
      else Ret (set_status HttpStatus_OK (set_body (encode_zadds range) response), g)
  end.

Definition ZrmvHandler_OnGet : method := λ request response g,
  path_param_map ←! path_param request "/zrmv/{key}/{value}$";
  match param_at path_param_map "key", param_at path_param_map "value" with
  | Some key, Some value =>
      '(_, zm) ←! ZM_Del (zset_manager g) key value;
      Ret (set_status HttpStatus_OK response, with_zset zm (arena g) g)
  | _, _ => Ret (set_status HttpStatus_BadRequest response, g)
  end.

(** ** The classes *)

Definition InitQueryHandler : HttpHandler W := Methods (with_OnGet InitQueryHandler_OnGet).
Definition QueryKeyHandler : HttpHandler W := Methods (with_OnGet QueryKeyHandler_OnGet).
Definition AddKeyHandler : HttpHandler W := Methods (with_OnPost AddKeyHandler_OnPost).
Definition DelKeyHandler : HttpHandler W := Methods (with_OnGet DelKeyHandler_OnGet).
Definition BatchQueryKeyHandler : HttpHandler W := Methods (with_OnPost BatchQueryKeyHandler_OnPost).
Definition BatchAddKeyHandler : HttpHandler W := Methods (with_OnPost BatchAddKeyHandler_OnPost).
Definition ZaddHandler : HttpHandler W := Methods (with_OnPost ZaddHandler_OnPost).
Definition ZrangeHandler : HttpHandler W := Methods (with_OnPost ZrangeHandler_OnPost).
Definition ZrmvHandler : HttpHandler W := Methods (with_OnGet ZrmvHandler_OnGet).

(** A fiber that was started by a handler. *)
Definition run_task (t : task) g : outcome W :=
  d ←! (match t with
        | Persist k v => Localdb_Add (localdb_manager g) k v (disk g)
        | Persist_batch reqs => Localdb_Batch (localdb_manager g) reqs (disk g)
        end);
  Ret (mkWorld _ _ (kv_manager g) (zset_manager g) (arena g) (localdb_manager g) d (tasks g)).
End handlers.

(** ** The cache, with the pairs that were ever added to its sorted sets *)

Record cache := mkCache {
  values : gmap string string;
  zsets : gmap string zstate;
  ready : bool;
  pending_tasks : list task;
}.

Inductive api :=
| Init_query | Query_key (k : string) | Add_key (r : InsertRequest) | Del_key (k : string)
| List_keys (ks : list string) | Batch_add (rs : list InsertRequest)
| Zadd (k : string) (r : ZaddRequest) | Zrange (k : string) (r : ZrangeRequest) | Zrmv (k v : string).

Definition entry (r : InsertRequest) : string * string := (ins_key r, ins_value r).

(** The values that are found, in the order of the keys. *)
Definition found (M : gmap string string) (ks : list string) : list InsertRequest :=
  omap (λ k, v ← M !! k; Some (mkInsertRequest k v)) ks.

Definition reply : Type := HttpStatus * chars.

Definition spec_api `{Json, FiberOrder} (a : api) (c : cache) : reply * cache :=
  let same (r : reply) := (r, c) in
  let upd M ts := mkCache M (zsets c) (ready c) (pending_tasks c ++ ts) in
  let zupd T := mkCache (values c) T (ready c) (pending_tasks c) in
  match a with
  | Init_query => same (if ready c then (HttpStatus_OK, chars_of "ok") else (HttpStatus_BadRequest, []))
  | Query_key k =>
      same match values c !! k with Some v => (HttpStatus_OK, chars_of v) | None => (HttpStatus_NotFound, []) end
  | Add_key r =>
      if empty_string (ins_key r) || empty_string (ins_value r) then same (HttpStatus_BadRequest, [])
      else ((HttpStatus_OK, []), upd (<[ins_key r := ins_value r]> (values c)) [Persist (ins_key r) (ins_value r)])
  | Del_key k => ((HttpStatus_OK, []), upd (delete k (values c)) [])
  | List_keys [] => same (HttpStatus_BadRequest, [])
  | List_keys ks =>
      same match found (values c) ks with
           | [] => (HttpStatus_NotFound, [])
           | rs => (HttpStatus_OK, encode_inserts rs)
           end
  | Batch_add rs => ((HttpStatus_OK, []), upd (batch_insert (values c) (entry <$> fiber_order rs)) [Persist_batch rs])
  | Zadd k r => ((HttpStatus_OK, []), zupd (spec_zmop (zsets c) (MAdd k (score r) (value r))).2)
  | Zrange k r =>
      same match zsets c !! k with
           | None => (HttpStatus_NotFound, [])
           | Some t => (HttpStatus_OK, encode_zadds (zrange_spec t (min_score r) (max_score r)))
           end
  | Zrmv k v => ((HttpStatus_OK, []), zupd (spec_zmop (zsets c) (MDel k v)).2)
  end.

(** ** The cache that cache/openapi.yaml describes *)

Record api_state := mkApi {
  api_values : gmap string string;
  api_zsets : gmap string (gmap string Z);
  api_ready : bool;
  api_tasks : list task;
}.

(** A range lists the members with a score in it, in an order by score. *)
Definition api_reply `{Json} (a : api) (st : api_state) (p : reply) : Prop :=
  match a with
  | Init_query => p = if api_ready st then (HttpStatus_OK, chars_of "ok") else (HttpStatus_BadRequest, [])
  | Query_key k => p = match api_values st !! k with Some v => (HttpStatus_OK, chars_of v) | None => (HttpStatus_NotFound, []) end
  | Add_key r => p = if empty_string (ins_key r) || empty_string (ins_value r) then (HttpStatus_BadRequest, []) else (HttpStatus_OK, [])
  | List_keys [] => p = (HttpStatus_BadRequest, [])
  | List_keys ks =>
      p = match found (api_values st) ks with [] => (HttpStatus_NotFound, []) | rs => (HttpStatus_OK, encode_inserts rs) end
  | Zrange k r =>
      match api_zsets st !! k with
      | None => p = (HttpStatus_NotFound, [])
      | Some M => ∃ l, in_range M (min_score r) (max_score r) l ∧ p = (HttpStatus_OK, encode_zadds l)
      end
  | Del_key _ | Batch_add _ | Zadd _ _ | Zrmv _ _ => p = (HttpStatus_OK, [])
  end.

Definition api_next `{FiberOrder} (a : api) (st : api_state) : api_state :=
  let upd M ts := mkApi M (api_zsets st) (api_ready st) (api_tasks st ++ ts) in
  let zupd T := mkApi (api_values st) T (api_ready st) (api_tasks st) in
  match a with
  | Add_key r =>
      if empty_string (ins_key r) || empty_string (ins_value r) then st
      else upd (<[ins_key r := ins_value r]> (api_values st)) [Persist (ins_key r) (ins_value r)]
  | Del_key k => upd (delete k (api_values st)) []
  | Batch_add rs => upd (batch_insert (api_values st) (entry <$> fiber_order rs)) [Persist_batch rs]
  | Zadd k r => zupd (zm_next (api_zsets st) (MAdd k (score r) (value r)))
  | Zrmv k v => zupd (zm_next (api_zsets st) (MDel k v))
  | Init_query | Query_key _ | List_keys _ | Zrange _ _ => st
  end.

(** The pair that an operation adds to a sorted set. *)
Definition adds (a : api) : list (string * ZaddRequest) := match a with Zadd k r => [(k, r)] | _ => [] end.

Definition api_of (c : cache) : api_state := mkApi (values c) (current_sets (zsets c)) (ready c) (pending_tasks c).

Lemma spec_api_ready `{Json, FiberOrder} a c : ready (spec_api a c).2 = ready c.
Proof. destruct a as [| |x| |[|]| | | |]; cbn; try done. by destruct (_ || _). Qed.

Lemma spec_api_refines `{Json, FiberOrder} a c :
  sets_ok (zsets c) → api_reply a (api_of c) (spec_api a c).1 ∧ api_of (spec_api a c).2 = api_next a (api_of c).
Proof.
  intros HT. destruct a as [| |x| |[|]| |k x|k x|k v]; cbn [spec_api api_reply api_next fst snd]; try done.
  - by destruct (_ || _).
  - split; [done|]. unfold api_of. cbn. f_equal. exact (proj2 (spec_zmop_result (zsets c) (MAdd k (score x) (value x)) HT)).
  - split; [|done]. destruct (spec_zmop_result (zsets c) (MRange k (min_score x) (max_score x)) HT) as [Hr _]. cbn in Hr |- *.
    unfold current_sets in *. rewrite lookup_fmap in *. destruct (zsets c !! k); cbn in *; [|done]. eexists. split; [apply Hr|done].
  - split; [done|]. unfold api_of. cbn. f_equal. exact (proj2 (spec_zmop_result (zsets c) (MDel k v) HT)).
Qed.

(** The assertion in the skip list holds. *)
Definition api_add_ok (NDEBUG : bool) (a : api) (c : cache) : Prop :=
  match a with Zadd k r => zm_add_ok NDEBUG (zsets c) (MAdd k (score r) (value r)) | _ => True end.

Lemma spec_api_addable `{Json, FiberOrder} NDEBUG a c L :
  sets_ok (zsets c) → addable NDEBUG (zsets c) (adds a ++ L) →
  api_add_ok NDEBUG a c ∧ sets_ok (zsets (spec_api a c).2) ∧ addable NDEBUG (zsets (spec_api a c).2) L.
Proof.
  intros HT HL. destruct a as [| |x| |[|]| |k [sc v]|k x|k v]; cbn [spec_api snd zsets adds app api_add_ok] in *; try done.
  - by destruct (_ || _).
  - apply addable_cons in HL as (? & ? & ?). split_and!; [done|by apply sets_ok_step|done].
  - split_and!; [done|by apply (sets_ok_step _ (MDel k v))|by apply addable_del].
Qed.

Definition plain_check (s : string) : bool :=
  forallb (λ ch : ascii, negb (special ch) && bool_decide (ch ≠ "010"%char ∧ ch ≠ "013"%char)) (chars_of s).

Lemma plain_of s : plain_check s = true → plain_name s.
Proof.
  unfold plain_check. rewrite forallb_forall. intros Hs. split; apply Forall_forall; intros ch Hc;
    apply list_elem_of_In, Hs, andb_true_iff in Hc as [H1 H2].
  - by apply negb_true_iff.
  - apply bool_decide_eq_true in H2. unfold is_newline. tauto.
Qed.

Section refinement.
Context {S D : Type} (sizeof_Node : Z) (NDEBUG : bool) `{StdHashSpec} `{NodeAllocator S} `{LevelDB D} `{Json} `{FiberOrder}.
#[local] Abbreviation W := (world S D).
Implicit Types (q : HttpRequest) (r : HttpResponse) (g : W) (c : cache).

Definition handler_of (a : api) : HttpRequest → HttpResponse → W → outcome (HttpResponse * W) :=
  match a with
  | Init_query => InitQueryHandler_OnGet
  | Query_key _ => QueryKeyHandler_OnGet
  | Add_key _ => AddKeyHandler_OnPost
  | Del_key _ => DelKeyHandler_OnGet
  | List_keys _ => BatchQueryKeyHandler_OnPost
  | Batch_add _ => BatchAddKeyHandler_OnPost
  | Zadd _ _ => ZaddHandler_OnPost sizeof_Node NDEBUG
  | Zrange _ _ => ZrangeHandler_OnPost NDEBUG
  | Zrmv _ _ => ZrmvHandler_OnGet
  end.

(** The request asks for [a]. *)
Definition asks q (a : api) : Prop :=
  let uri := HttpTypes.uri_ q in
  let body := body_text (req_msg q) in
  match a with
  | Init_query => True
  | Query_key k => uri = chars_of ("/query/" +:+ k) ∧ no_newline k
  | Add_key x => decode_insert body = Some x
  | Del_key k => uri = chars_of ("/del/" +:+ k) ∧ no_newline k
  | List_keys ks => decode_keys body = Some ks
  | Batch_add xs => decode_inserts body = Some xs
  | Zadd k x => uri = chars_of ("/zadd/" +:+ k) ∧ no_newline k ∧ decode_zadd body = Some x
  | Zrange k x => uri = chars_of ("/zrange/" +:+ k) ∧ no_newline k ∧ decode_zrange body = Some x
  | Zrmv k v => uri = chars_of ("/zrmv/" +:+ k +:+ "/" +:+ v) ∧ no_newline k ∧ no_newline v ∧ "/"%char ∉ chars_of k
  end.

Record world_rep g (R : list region) c : Prop := {
  wr_kv : hashkv_abs (memdb (kv_manager g)) (values c);
  wr_zset : zm_rep (zset_manager g) R (zsets c);
  wr_arena : alloc_inv (arena g) R;
  wr_ready : inited (localdb_manager g) = ready c;
  wr_tasks : tasks g = pending_tasks c;
}.

Lemma answer_status q r code :
  fresh_response q r → known_status code → bodiless code = false → answerable q (set_status code r).
Proof.
  intros [[Hh Hf Hc Hb' Hs] Hv Hl _ _] Hk Hb. split; [|done|done|].
  { split; [exact Hh|exact Hf| |exact Hb'|exact Hs]. unfold resp_headers in *. simpl in *. lia. }
  unfold length_fillable. simpl. rewrite Hb. by left.
Qed.

Lemma answer_body q r code s :
  fresh_response q r → known_status code → bodiless code = false → answerable q (set_status code (set_body s r)).
Proof.
  intros [[Hh Hf Hc Hb Hs] Hv Hl _ _] Hk Hbl. split; [|done|done|].
  - split; [exact Hh|exact Hf| |exact I|done]. unfold resp_headers in *. simpl in *. lia.
  - unfold length_fillable. simpl. rewrite Hbl. by left.
Qed.

Lemma OK_known : known_status HttpStatus_OK.
Proof. apply (bool_decide_unpack _). vm_compute. exact I. Qed.
Lemma NotFound_known : known_status HttpStatus_NotFound.
Proof. apply (bool_decide_unpack _). vm_compute. exact I. Qed.
Lemma BadRequest_known : known_status HttpStatus_BadRequest.
Proof. apply (bool_decide_unpack _). vm_compute. exact I. Qed.

(** The result of a handler. *)
Definition replies q (p : reply) (c' : cache) (x : HttpResponse * W) : Prop :=
  answerable q x.1 ∧ status_ x.1 = p.1 ∧ body_text (resp_msg x.1) = p.2 ∧ ∃ R', world_rep x.2 R' c'.

Ltac known_code := first [apply OK_known | apply NotFound_known | apply BadRequest_known | reflexivity].

Lemma replies_status q r code g c R :
  fresh_response q r → known_status code → bodiless code = false → world_rep g R c →
  replies q (code, []) c (set_status code r, g).
Proof.
  intros Hf Hk Hb Hw. split_and!; [by apply answer_status|done| |by exists R]. apply (fr_body _ _ Hf).
Qed.

Lemma replies_body q r code s g c R :
  fresh_response q r → known_status code → bodiless code = false → world_rep g R c →
  replies q (code, s) c (set_status code (set_body s r), g).
Proof. intros Hf Hk Hb Hw. split_and!; [by apply answer_body|done|done|by exists R]. Qed.

Lemma path_param_one q l t v :
  t = l +:+ "{key}$" → HttpTypes.uri_ q = chars_of (l +:+ v) → plain_check l = true → no_newline v →
  path_param q t = Ret {["key" := Some v]}.
Proof.
  intros -> Hu Hl%plain_of Hv. unfold path_param. rewrite Hu, string_of_chars_of.
  change "{key}$" with ("{" +:+ "key" +:+ "}$"). rewrite (GetPathParam_one_effect l "key" v); [done|done| |done]. by apply plain_of.
Qed.

Lemma path_param_two q l t v1 v2 :
  t = l +:+ "{key}/{value}$" → HttpTypes.uri_ q = chars_of (l +:+ v1 +:+ "/" +:+ v2) → plain_check l = true →
  no_newline v1 → no_newline v2 → "/"%char ∉ chars_of v1 →
  path_param q t = Ret (<["key" := Some v1]> {["value" := Some v2]}).
Proof.
  intros -> Hu Hl%plain_of Hv1 Hv2 Hs. unfold path_param. rewrite Hu, string_of_chars_of.
  change "{key}/{value}$" with ("{" +:+ "key" +:+ "}/{" +:+ "value" +:+ "}$").
  rewrite (GetPathParam_two_effect l "key" "value" v1 v2); try done; by apply plain_of.
Qed.

Lemma Kv_Query_effect kv M k :
  hashkv_abs (memdb kv) M →
  match M !! k with
  | Some v => ∃ p, Kv_Query kv k = Ret (Some p) ∧ cell_read (memdb kv) p = Ret v
  | None => Kv_Query kv k = Ret None
  end.
Proof. intros Habs. apply (Get_abs _ _ k Habs). Qed.

(** *** Looking up several keys *)

Definition answers (kv : KvManager) (M : gmap string string) (k : string) (p : option Z) : Prop :=
  match M !! k with
  | Some v => ∃ a, p = Some a ∧ cell_read (memdb kv) a = Ret v
  | None => p = None
  end.

Lemma query_fibers_effect kv M l :
  hashkv_abs (memdb kv) M →
  ∃ fs, query_fibers kv l = Ret fs ∧ Forall2 (λ e f, f.1 = e.1 ∧ answers kv M e.2 f.2) l fs.
Proof.
  intros Habs. induction l as [|[i k] l (fs & IH & Hfs)]; [exists []; split; [done|constructor]|].
  cbn [query_fibers]. pose proof (Kv_Query_effect kv M k Habs) as Hk.
  assert (∃ p, Kv_Query kv k = Ret p ∧ answers kv M k p) as (p & -> & Hp).
  { unfold answers. destruct (M !! k) as [v|]; [|by exists None]. destruct Hk as (a & -> & Hr). exists (Some a). eauto. }
  cbn [obind]. rewrite IH. cbn [obind]. exists ((i, p) :: fs). split; [done|]. by constructor.
Qed.

(** A future is found by its index, whatever the order the fibers ran in. *)
Lemma future_found kv M (l : list (nat * string)) fs i k :
  Forall2 (λ e f, f.1 = e.1 ∧ answers kv M e.2 f.2) l fs → NoDup l.*1 → (i, k) ∈ l →
  ∃ p, snd <$> head (filter (λ f : nat * option Z, f.1 = i) fs) = Some p ∧ answers kv M k p.
Proof.
  induction 1 as [|[j k'] [j' p] l fs [Hj Ha] _ IH]; intros Hnd Hin; csimpl in *; [by apply elem_of_nil in Hin|].
  subst j'. apply NoDup_cons in Hnd as [Hn Hnd]. rewrite filter_cons. cbn [fst].
  apply elem_of_cons in Hin as [[= -> ->]|Hin].
  - rewrite decide_True by done. by exists p.
  - rewrite decide_False; [by apply IH|]. intros ->. apply Hn, list_elem_of_fmap. by exists (i, k).
Qed.

Lemma collect_effect kv M (fs : list (nat * option Z)) (l : list (nat * string)) :
  (∀ i k, (i, k) ∈ l → ∃ p, snd <$> head (filter (λ f : nat * option Z, f.1 = i) fs) = Some p ∧ answers kv M k p) →
  collect kv fs l = Ret (found M l.*2).
Proof.
  induction l as [|[i k] l IH]; intros Hl; [done|]. cbn [collect]. csimpl.
  destruct (Hl i k) as (p & -> & Hp); [by left|]. cbn [deref obind]. unfold answers in Hp.
  assert (Hrest : collect kv fs l = Ret (found M l.*2)) by (apply IH; intros; apply Hl; by right).
  unfold found in *. csimpl. destruct (M !! k) as [v|].
  - destruct Hp as (a & -> & Hr). rewrite Hr. cbn [obind]. rewrite Hrest. done.
  - subst p. done.
Qed.

Lemma imap_indexed {A} (l : list A) : (imap pair l).*2 = l ∧ NoDup (imap pair l).*1.
Proof.
  split.
  - rewrite fmap_imap. simpl. induction l as [|x l IH]; [done|]. simpl. f_equal. exact IH.
  - rewrite fmap_imap. apply NoDup_alt. intros i j x Hi Hj. rewrite list_lookup_imap in Hi, Hj.
    destruct (l !! i), (l !! j); simplify_eq/=. done.
Qed.

Lemma batch_query_effect kv M ks :
  hashkv_abs (memdb kv) M →
  ∃ fs, query_fibers kv (fiber_order (imap pair ks)) = Ret fs ∧ collect kv fs (imap pair ks) = Ret (found M ks).
Proof.
  intros Habs. destruct (imap_indexed ks) as [Hks Hnd]. pose proof (fiber_order_perm (imap pair ks)) as Hperm.
  destruct (query_fibers_effect kv M (fiber_order (imap pair ks)) Habs) as (fs & He & Hfs).
  exists fs. split; [done|]. rewrite (collect_effect kv M fs (imap pair ks)); [by rewrite Hks|].
  intros i k Hin. apply (future_found kv M _ fs i k Hfs); [by rewrite Hperm|by rewrite Hperm].
Qed.

Lemma add_fibers_effect kv M rs :
  hashkv_abs (memdb kv) M →
  ∃ kv', add_fibers rs kv = Ret kv' ∧ hashkv_abs (memdb kv') (batch_insert M (entry <$> rs)).
Proof.
  revert kv M. induction rs as [|x rs IH]; intros kv M Habs; cbn [add_fibers]; [eauto|].
  destruct (Kv_Add_effect kv M (ins_key x) (ins_value x) Habs) as (kv1 & -> & Habs1). cbn [obind]. by apply IH.
Qed.

(** *** Each handler *)

Lemma world_rep_kv g R c kv M ts :
  world_rep g R c → hashkv_abs (memdb kv) M →
  world_rep (foldl (λ g t, async t g) (with_kv kv g) ts) R (mkCache M (zsets c) (ready c) (pending_tasks c ++ ts)).
Proof.
  intros [_ Hz Ha Hr Ht] Hkv.
  assert (Hgo : ∀ ts g, kv_manager g = kv → zm_rep (zset_manager g) R (zsets c) → alloc_inv (arena g) R →
    inited (localdb_manager g) = ready c → ∀ ts0, tasks g = ts0 →
    world_rep (foldl (λ g t, async t g) g ts) R (mkCache M (zsets c) (ready c) (ts0 ++ ts))).
  { clear -Hkv. induction ts as [|t ts IH]; intros g Hkv' ? ? ? ts0 Hts; cbn [foldl].
    - rewrite app_nil_r. split; simpl; try done. by rewrite Hkv'.
    - change (t :: ts) with ([t] ++ ts). rewrite app_assoc. apply IH; try done. simpl. by rewrite Hts. }
  by apply Hgo.
Qed.

Section each.
Context q r g (R : list region) c (Hw : world_rep g R c) (Hf : fresh_response q r).

#[local] Abbreviation correct a :=
  (asks q a → safe (handler_of a q r g) (replies q (spec_api a c).1 (spec_api a c).2)).

(** The reply for a key that was found in the path, or was not. *)
Definition keyed (f : string → api) (o : option string) : HttpResponse * W → Prop :=
  match o with
  | Some k => replies q (spec_api (f k) c).1 (spec_api (f k) c).2
  | None => replies q (HttpStatus_BadRequest, []) c
  end.

Ltac status_reply := eapply replies_status; [done|known_code|known_code|].
Ltac body_reply := eapply replies_body; [done|known_code|known_code|].

Lemma Init_effect : correct Init_query.
Proof.
  intros _. cbn. unfold InitQueryHandler_OnGet, Localdb_Query. rewrite (wr_ready _ _ _ Hw).
  destruct (ready c); [by body_reply|by status_reply].
Qed.

Lemma Query_run m :
  path_param q "/query/{key}$" = Ret m →
  safe (QueryKeyHandler_OnGet q r g) (keyed (λ k, Query_key k) (param_at m "key")).
Proof.
  intros Hm. unfold QueryKeyHandler_OnGet. rewrite Hm. cbn [obind]. destruct (param_at m "key") as [k|]; [cbn|by status_reply].
  pose proof (Kv_Query_effect _ _ k (wr_kv _ _ _ Hw)) as Hk. destruct (values c !! k) as [v|].
  - destruct Hk as (p & -> & Hv). cbn [obind]. rewrite Hv. by body_reply.
  - rewrite Hk. by status_reply.
Qed.

Lemma Add_effect x : correct (Add_key x).
Proof.
  intros Hq. cbn in *. unfold AddKeyHandler_OnPost. rewrite Hq. cbn [decoded obind].
  destruct (empty_string (ins_key x) || empty_string (ins_value x)); [by status_reply|].
  destruct (Kv_Add_effect _ _ (ins_key x) (ins_value x) (wr_kv _ _ _ Hw)) as (kv' & -> & Hkv'). cbn [obind negb safe].
  status_reply. exact (world_rep_kv g R c kv' _ [Persist (ins_key x) (ins_value x)] Hw Hkv').
Qed.

Lemma Del_run m :
  path_param q "/del/{key}$" = Ret m →
  safe (DelKeyHandler_OnGet q r g) (keyed (λ k, Del_key k) (param_at m "key")).
Proof.
  intros Hm. unfold DelKeyHandler_OnGet. rewrite Hm. cbn [obind]. destruct (param_at m "key") as [k|]; [cbn|by status_reply].
  destruct (Kv_Del_effect _ _ k (wr_kv _ _ _ Hw)) as (kv' & -> & Hkv'). cbn [obind safe].
  status_reply. exact (world_rep_kv g R c kv' _ [] Hw Hkv').
Qed.

Lemma List_effect ks : correct (List_keys ks).
Proof.
  intros Hq. cbn in *. unfold BatchQueryKeyHandler_OnPost. rewrite Hq. cbn [decoded obind].
  destruct ks as [|k ks]; [by status_reply|].
  destruct (batch_query_effect (kv_manager g) (values c) (k :: ks) (wr_kv _ _ _ Hw)) as (fs & -> & He).
  cbn [obind]. rewrite He. cbn [obind]. destruct (found (values c) (k :: ks)); [by status_reply|by body_reply].
Qed.

Lemma Batch_effect xs : correct (Batch_add xs).
Proof.
  intros Hq. cbn in *. unfold BatchAddKeyHandler_OnPost. rewrite Hq. cbn [decoded obind].
  destruct (add_fibers_effect (kv_manager g) (values c) (fiber_order xs) (wr_kv _ _ _ Hw)) as (kv' & -> & Hkv').
  cbn [obind safe]. status_reply. exact (world_rep_kv g R c kv' _ [Persist_batch xs] Hw Hkv').
Qed.

Lemma Zadd_run m :
  sizeof_ok sizeof_Node → path_param q "/zadd/{key}$" = Ret m →
  (∀ k x, param_at m "key" = Some k → decode_zadd (body_text (req_msg q)) = Some x → api_add_ok NDEBUG (Zadd k x) c) →
  safe (ZaddHandler_OnPost sizeof_Node NDEBUG q r g)
    (λ y, ∀ x, decode_zadd (body_text (req_msg q)) = Some x → keyed (λ k, Zadd k x) (param_at m "key") y).
Proof.
  intros Hsz Hm Hok. unfold ZaddHandler_OnPost. rewrite Hm. cbn [obind].
  destruct (param_at m "key") as [k|]; [cbn|cbn [safe]; intros x _; by status_reply].
  destruct (decode_zadd _) as [x|]; [|exact I]. cbn [decoded obind]. apply safe_bind.
  eapply safe_mono; [apply (ZM_Add_effect sizeof_Node NDEBUG _ R (zsets c)); [done|by apply Hok|apply Hw..]|].
  intros [[b zm'] s'] (R' & -> & Ha' & Hz'). cbn [negb safe]. intros ? [= <-]. status_reply. split; try apply Hw; done.
Qed.

Lemma Zrange_run m :
  path_param q "/zrange/{key}$" = Ret m →
  safe (ZrangeHandler_OnPost NDEBUG q r g)
    (λ y, ∀ x, decode_zrange (body_text (req_msg q)) = Some x → keyed (λ k, Zrange k x) (param_at m "key") y).
Proof.
  intros Hm. unfold ZrangeHandler_OnPost. rewrite Hm. cbn [obind].
  destruct (param_at m "key") as [k|]; [cbn|cbn [safe]; intros x _; by status_reply].
  destruct (decode_zrange _) as [x|]; [|exact I]. cbn [decoded obind]. rewrite (ZM_Range_effect NDEBUG _ R (zsets c)) by apply Hw.
  destruct (zsets c !! k); cbn [obind negb safe]; intros ? [= <-]; [by body_reply|by status_reply].
Qed.

Lemma Zrmv_run m :
  path_param q "/zrmv/{key}/{value}$" = Ret m →
  safe (ZrmvHandler_OnGet q r g)
    (match param_at m "key", param_at m "value" with
     | Some k, Some v => keyed (λ k, Zrmv k v) (Some k)
     | _, _ => keyed (λ k, Zrmv k k) None
     end).
Proof.
  intros Hm. unfold ZrmvHandler_OnGet. rewrite Hm. cbn [obind].
  destruct (param_at m "key") as [k|]; [|by status_reply]. destruct (param_at m "value") as [v|]; [cbn|by status_reply].
  destruct (ZM_Del_effect (zset_manager g) R (zsets c) k v (wr_zset _ _ _ Hw)) as (zm' & -> & Hz'). cbn [obind safe].
  status_reply. split; try apply Hw; done.
Qed.

Lemma key_of (k : string) : param_at {["key" := Some k]} "key" = Some k.
Proof. unfold param_at. by rewrite lookup_singleton_eq. Qed.

Lemma keyed_effect a :
  match a with Query_key _ | Del_key _ | Zadd _ _ | Zrange _ _ | Zrmv _ _ => True | _ => False end →
  sizeof_ok sizeof_Node → api_add_ok NDEBUG a c → correct a.
Proof.
  intros Ha Hsz Hok Hq. destruct a as [|k| |k| | |k x|k x|k v]; try (exact (False_ind _ Ha)); cbn in Hq |- *.
  - destruct Hq as [Hu Hn]. pose proof (Query_run _ (path_param_one q "/query/" "/query/{key}$" k eq_refl Hu eq_refl Hn)) as Hr.
    by rewrite key_of in Hr.
  - destruct Hq as [Hu Hn]. pose proof (Del_run _ (path_param_one q "/del/" "/del/{key}$" k eq_refl Hu eq_refl Hn)) as Hr.
    by rewrite key_of in Hr.
  - destruct Hq as (Hu & Hn & Hd). pose proof (Zadd_run _ Hsz (path_param_one q "/zadd/" "/zadd/{key}$" k eq_refl Hu eq_refl Hn)) as Hr.
    rewrite key_of in Hr. eapply safe_mono; [apply Hr; intros ? ? [= <-]; rewrite Hd; by intros [= <-]|]. intros y Hy. exact (Hy x Hd).
  - destruct Hq as (Hu & Hn & Hd). pose proof (Zrange_run _ (path_param_one q "/zrange/" "/zrange/{key}$" k eq_refl Hu eq_refl Hn)) as Hr.
    rewrite key_of in Hr. eapply safe_mono; [exact Hr|]. intros y Hy. exact (Hy x Hd).
  - destruct Hq as (Hu & Hn & Hnv & Hs).
    pose proof (Zrmv_run _ (path_param_two q "/zrmv/" "/zrmv/{key}/{value}$" k v eq_refl Hu eq_refl Hn Hnv Hs)) as Hr.
    unfold param_at in Hr. rewrite lookup_insert_eq, lookup_insert_ne, lookup_singleton_eq in Hr by done. exact Hr.
Qed.

Lemma handler_effect a :
  sizeof_ok sizeof_Node → api_add_ok NDEBUG a c → asks q a →
  safe (handler_of a q r g) (replies q (spec_api a c).1 (spec_api a c).2).
Proof.
  intros Hsz Hok Hq. destruct a; try (by apply keyed_effect);
    [by apply Init_effect|by apply Add_effect|by apply List_effect|by apply Batch_effect].
Qed.
End each.

(** The managers hold [st], and the pairs of [L] can still be added. *)
Definition holds (L : list (string * ZaddRequest)) g (st : api_state) : Prop :=
  ∃ R c, world_rep g R c ∧ sets_ok (zsets c) ∧ addable NDEBUG (zsets c) L ∧ api_of c = st.


(** No handler touches the database itself: that is left to the fibers. *)
Lemma handler_frame a q r g x :
  handler_of a q r g = Ret x → localdb_manager x.2 = localdb_manager g ∧ disk x.2 = disk g.
Proof.
  destruct a; cbn [handler_of];
    unfold InitQueryHandler_OnGet, QueryKeyHandler_OnGet, AddKeyHandler_OnPost, DelKeyHandler_OnGet, BatchQueryKeyHandler_OnPost,
      BatchAddKeyHandler_OnPost, ZaddHandler_OnPost, ZrangeHandler_OnPost, ZrmvHandler_OnGet; intros Hx;
    repeat match goal with
           | Hx : obind _ _ = Ret _ |- _ => apply obind_Ret_inv in Hx as (? & _ & Hx)
           | Hx : Ret _ = Ret _ |- _ => injection Hx as <-
           | Hx : context [match ?e with _ => _ end] |- _ => destruct e
           end; exact (conj eq_refl eq_refl).
Qed.

(** A body that is not JSON of the expected shape makes a handler throw. *)
Lemma malformed_body q r g :
  let body := body_text (req_msg q) in
  (decode_insert body = None → AddKeyHandler_OnPost q r g = Throw) ∧
  (decode_keys body = None → BatchQueryKeyHandler_OnPost q r g = Throw) ∧
  (decode_inserts body = None → BatchAddKeyHandler_OnPost q r g = Throw).
Proof.
  unfold AddKeyHandler_OnPost, BatchQueryKeyHandler_OnPost, BatchAddKeyHandler_OnPost.
  split_and!; by intros ->.
Qed.

(** The handler of [/query] reads the value through a pointer when the lock of
    the map is released: a deletion that another fiber makes in between frees
    it. *)
Lemma query_race g R c k v :
  world_rep g R c → values c !! k = Some v →
  ∃ p kv', Kv_Query (kv_manager g) k = Ret (Some p) ∧ Kv_Del (kv_manager g) k = Ret (true, kv') ∧
    cell_read (memdb kv') p = Undef.
Proof.
  intros Hw Hv. pose proof (wr_kv _ _ _ Hw) as Habs. pose proof (Kv_Query_effect _ _ k Habs) as Hk. rewrite Hv in Hk.
  destruct Hk as (p & Hp & _). destruct (Del_abs _ _ k Habs) as (m & Hd & _ & _ & Hdead).
  exists p, (mkKvManager m). split_and!; [done|unfold Kv_Del; by rewrite Hd|].
  unfold cell_read. simpl. rewrite Hdead; [done|]. unfold Kv_Query in Hp. rewrite Get_cell in Hp by apply Habs. by injection Hp.
Qed.
(** *** What the handlers promise to the service

    For any request at all, whatever its uri and its body. *)

Definition world_ok g : Prop := ∃ R c, world_rep g R c.

Lemma path_param_total q l : plain_check l = true → ∃ m, path_param q (l +:+ "{key}$") = Ret m.
Proof.
  intros Hl%plain_of. unfold path_param. change "{key}$" with ("{" +:+ "key" +:+ "}$").
  rewrite GetPathParam_template; [eauto|done|]. by apply plain_of.
Qed.

Lemma path_params_total q l : plain_check l = true → ∃ m, path_param q (l +:+ "{key}/{value}$") = Ret m.
Proof.
  intros Hl%plain_of. unfold path_param. change "{key}/{value}$" with ("{" +:+ "key" +:+ "}/{" +:+ "value" +:+ "}$").
  rewrite GetPathParam_two_template; [eauto|done|..]; by apply plain_of.
Qed.

#[local] Abbreviation promise := (method_promise (λ _, True) world_ok).

Lemma replies_promise q p c (x : HttpResponse * W) : replies q p c x → let '(r', g') := x in answerable q r' ∧ world_ok g'.
Proof. destruct x as [r' g']. intros (Ha & _ & _ & R & HR). split; [exact Ha|]. by exists R, c. Qed.

Lemma keyed_promise q c f o (x : HttpResponse * W) : keyed q c f o x → let '(r', g') := x in answerable q r' ∧ world_ok g'.
Proof. destruct o; apply replies_promise. Qed.

Lemma method_promise_of (h : HttpRequest → HttpResponse → W → outcome (HttpResponse * W)) :
  (∀ q r g R c, world_rep g R c → fresh_response q r → h q r g = Throw ∨ ∃ p c', safe (h q r g) (replies q p c')) →
  promise h.
Proof.
  intros Hh q r g _ Hr (R & c & Hw). destruct (Hh q r g R c Hw Hr) as [->|(p & c' & Hs)]; [exact I|].
  eapply safe_mono; [exact Hs|]. apply replies_promise.
Qed.

Lemma Init_promise : promise InitQueryHandler_OnGet.
Proof. apply method_promise_of. intros q r g R c Hw Hr. right. eexists _, _. by apply (Init_effect q r g R c Hw Hr). Qed.

Lemma Add_promise : promise AddKeyHandler_OnPost.
Proof.
  apply method_promise_of. intros q r g R c Hw Hr. destruct (decode_insert (body_text (req_msg q))) as [x|] eqn:E.
  - right. eexists _, _. exact (Add_effect q r g R c Hw Hr x E).
  - left. unfold AddKeyHandler_OnPost. by rewrite E.
Qed.

Lemma List_promise : promise BatchQueryKeyHandler_OnPost.
Proof.
  apply method_promise_of. intros q r g R c Hw Hr. destruct (decode_keys (body_text (req_msg q))) as [x|] eqn:E.
  - right. eexists _, _. exact (List_effect q r g R c Hw Hr x E).
  - left. unfold BatchQueryKeyHandler_OnPost. by rewrite E.
Qed.

Lemma Batch_promise : promise BatchAddKeyHandler_OnPost.
Proof.
  apply method_promise_of. intros q r g R c Hw Hr. destruct (decode_inserts (body_text (req_msg q))) as [x|] eqn:E.
  - right. eexists _, _. exact (Batch_effect q r g R c Hw Hr x E).
  - left. unfold BatchAddKeyHandler_OnPost. by rewrite E.
Qed.

Lemma Query_promise : promise QueryKeyHandler_OnGet.
Proof.
  intros q r g _ Hr (R & c & Hw). destruct (path_param_total q "/query/" eq_refl) as [m Hm].
  eapply safe_mono; [exact (Query_run q r g R c Hw Hr m Hm)|]. apply keyed_promise.
Qed.

Lemma Del_promise : promise DelKeyHandler_OnGet.
Proof.
  intros q r g _ Hr (R & c & Hw). destruct (path_param_total q "/del/" eq_refl) as [m Hm].
  eapply safe_mono; [exact (Del_run q r g R c Hw Hr m Hm)|]. apply keyed_promise.
Qed.

(** A body that is needed and cannot be read makes the handler throw. *)
Lemma Zadd_promise : sizeof_ok sizeof_Node → NDEBUG = true → promise (ZaddHandler_OnPost sizeof_Node NDEBUG).
Proof.
  intros Hsz Hnd q r g _ Hr (R & c & Hw). destruct (path_param_total q "/zadd/" eq_refl) as [m Hm].
  pose proof (Zadd_run q r g R c Hw Hr m Hsz Hm ltac:(by left)) as Hs.
  destruct (decode_zadd (body_text (req_msg q))) as [x|] eqn:E.
  - eapply safe_mono; [exact Hs|]. intros y Hy. exact (keyed_promise q c _ _ y (Hy x eq_refl)).
  - clear Hs. unfold ZaddHandler_OnPost. change ("/zadd/" +:+ "{key}$") with "/zadd/{key}$" in Hm. rewrite Hm, E. cbn [obind].
    destruct (param_at m "key"); [exact I|]. split; [by apply answer_status; [|apply BadRequest_known|]|by exists R, c].
Qed.

Lemma Zrange_promise : promise (ZrangeHandler_OnPost NDEBUG).
Proof.
  intros q r g _ Hr (R & c & Hw). destruct (path_param_total q "/zrange/" eq_refl) as [m Hm].
  pose proof (Zrange_run q r g R c Hw Hr m Hm) as Hs.
  destruct (decode_zrange (body_text (req_msg q))) as [x|] eqn:E.
  - eapply safe_mono; [exact Hs|]. intros y Hy. exact (keyed_promise q c _ _ y (Hy x eq_refl)).
  - clear Hs. unfold ZrangeHandler_OnPost. change ("/zrange/" +:+ "{key}$") with "/zrange/{key}$" in Hm. rewrite Hm, E. cbn [obind].
    destruct (param_at m "key"); [exact I|]. split; [by apply answer_status; [|apply BadRequest_known|]|by exists R, c].
Qed.

Lemma Zrmv_promise : promise ZrmvHandler_OnGet.
Proof.
  intros q r g _ Hr (R & c & Hw). destruct (path_params_total q "/zrmv/" eq_refl) as [m Hm].
  eapply safe_mono; [exact (Zrmv_run q r g R c Hw Hr m Hm)|]. intros y.
  destruct (param_at m "key"), (param_at m "value"); apply keyed_promise.
Qed.
End refinement.

(** ** A concrete cache *)

#[local] Existing Instance length_hash.
#[local] Existing Instance length_hash_spec.

(** A reader and a writer that know a few texts. *)
#[local] Instance toy_json : Json := {
  decode_insert s := match s with [] => None | _ => Some (mkInsertRequest "a" (string_of s)) end;
  decode_inserts s := match s with [] => None | _ => Some [mkInsertRequest "a" (string_of s); mkInsertRequest "b" "2"] end;
  decode_keys s := match s with [] => None | _ => Some [string_of s; "b"] end;
  decode_zadd s := match s with [] => None | _ => Some (mkZaddRequest 7 (string_of s)) end;
  decode_zrange s := match s with [] => None | _ => Some (mkZrangeRequest 0 10) end;
  encode_inserts rs := concat ((λ r, chars_of (ins_key r +:+ "=" +:+ ins_value r +:+ ";")) <$> rs);
  encode_zadds rs := concat ((λ r, chars_of (value r +:+ ";")) <$> rs);
}.

#[local] Instance last_first : FiberOrder := { fiber_order A l := reverse l; fiber_order_perm A l := reverse_Permutation l }.

Definition demo_world : world (BumpHeap * Arena) (gmap string string) :=
  mkWorld _ _ demo_kvm match ZM_Init ZsetManager_new with Ret (_, zm) => zm | _ => ZsetManager_new end
    demo_alloc LocaldbManager_new ∅ [].

Lemma demo_world_rep : ∃ R, world_rep demo_world R (mkCache {["a" := "9"]} ∅ false []).
Proof.
  exists []. destruct (ZM_Init_effect ZsetManager_new []) as (zm & Hi & Hz). unfold demo_world. rewrite Hi. split.
  - exact demo_kvm_abs.
  - exact Hz.
  - exact demo_alloc_inv.
  - reflexivity.
  - reflexivity.
Qed.

(** A request with a body, and the response a service starts with. *)
Definition demo_request (m : HttpMethod) (uri : string) (text : string) : HttpRequest :=
  mkRequest (mkMessage V_1_1 (sample_headers []) (Some (chars_of text)) None) m (chars_of uri).

Definition demo_response : HttpResponse := mkResponse (mkMessage V_1_1 (sample_headers []) None None) HttpStatus_OK.

Lemma demo_fresh m uri text : fresh_response (demo_request m uri text) demo_response.
Proof.
  destruct (sample_headers_inv []) as [Hh Hf]; [by constructor|by constructor|by vm_compute|].
  split; [|done..]. split; [exact Hh| |done|exact I|done].
  change (Forall field_ok (fields_ (sample_headers []))). rewrite Hf. by constructor.
Qed.

Definition demo_cache : cache := mkCache {["a" := "9"]} ∅ false [].

Definition demo_state : api_state := mkApi {["a" := "9"]} ∅ false [].

Lemma demo_holds L : pairs_ok false L → holds false L demo_world demo_state.
Proof.
  intros HL. destruct demo_world_rep as [R HR]. exists R, demo_cache.
  split_and!; [exact HR|intros k t Ht; cbn in Ht; by rewrite lookup_empty in Ht|by apply addable_start|].
  unfold api_of, current_sets. cbn. by rewrite fmap_empty.
Qed.

