(* ===== verification/RpcServer.v ===== *)
(** * The server: flare/rpc/server.{h,cc}

    [Server] collects protocols and HTTP handlers, starts and stops; [Accounts]
    is its bookkeeping of connections, background jobs and calls, whose counters
    are changed by fibers that run side by side.  The bookkeeping is a state
    machine: an event is the part of a fiber between two points where others can
    run.

    [accounts_safe] says that no check of the counters fails in any
    interleaving, [connection_limit] that the limits are kept, and
    [Join_terminates] that waiting for the counters to become zero ends when the
    jobs have run. *)

From Stdlib Require Import Ascii.
From S2P Require Import Prelude Regex FlareString Buffer FlareHashMap HttpHeaders HttpTypes HttpIo HttpIoProofs HttpService.

#[local] Open Scope string_scope.
#[local] Open Scope list_scope.
#[local] Open Scope Z_scope.

(** ** Registration and life cycle *)

Inductive ServerState := Initialized | Running | Stopped | Joined.

#[export] Instance ServerState_eq_dec : EqDecision ServerState.
Proof. solve_decision. Defined.

(** [acceptor_] is whether it is set; [http_service_] is the entry of
    [builtin_services_] for [http::Service]. *)
Record Server {G : Type} := mkServer {
  no_builtin_pages : bool;
  state_ : ServerState;
  listen_cb_ : bool;
  acceptor_ : bool;
  known_protocols_ : list string;
  protocol_factories_ : list string;
  http_service_ : option (Service G);
  builtin_http_handlers_ : list (HttpHandler G * list chars);
  builtin_http_prefix_handlers_ : list (HttpHandler G * chars);
}.
Arguments Server : clear implicits.

Section server.
Context {G : Type} (registered : list string).
Implicit Types (sv : Server G).

Definition set_state (st : ServerState) sv : Server G :=
  mkServer _ (no_builtin_pages sv) st (listen_cb_ sv) (acceptor_ sv) (known_protocols_ sv) (protocol_factories_ sv)
    (http_service_ sv) (builtin_http_handlers_ sv) (builtin_http_prefix_handlers_ sv).

Definition set_listening (cb acceptor : bool) sv : Server G :=
  mkServer _ (no_builtin_pages sv) (state_ sv) cb acceptor (known_protocols_ sv) (protocol_factories_ sv)
    (http_service_ sv) (builtin_http_handlers_ sv) (builtin_http_prefix_handlers_ sv).

Definition set_protocols (known factories : list string) sv : Server G :=
  mkServer _ (no_builtin_pages sv) (state_ sv) (listen_cb_ sv) (acceptor_ sv) known factories
    (http_service_ sv) (builtin_http_handlers_ sv) (builtin_http_prefix_handlers_ sv).

Definition set_service (s : Service G) sv : Server G :=
  mkServer _ (no_builtin_pages sv) (state_ sv) (listen_cb_ sv) (acceptor_ sv) (known_protocols_ sv) (protocol_factories_ sv)
    (Some s) (builtin_http_handlers_ sv) (builtin_http_prefix_handlers_ sv).

(** The builtin handlers are those that the linked modules registered. *)
Definition Server_new (no_builtin : bool) (hs : list (HttpHandler G * list chars)) (ps : list (HttpHandler G * chars)) : Server G :=
  if no_builtin then mkServer _ true Initialized false false [] [] None [] []
  else mkServer _ false Initialized false false [] [] None hs ps.

(** The registry aborts for a protocol that is not registered. *)
Definition AddProtocol (name : string) sv : outcome (Server G) :=
  if bool_decide (name ∈ known_protocols_ sv) then Ret sv
  else if bool_decide (name ∈ registered)
       then Ret (set_protocols (known_protocols_ sv ++ [name]) (protocol_factories_ sv ++ [name]) sv)
       else Abort.

Fixpoint AddProtocols (names : list string) sv : outcome (Server G) :=
  match names with
  | [] => Ret sv
  | e :: names' => sv' ←! AddProtocol e sv; AddProtocols names' sv'
  end.

(** The service, and the server in which it is registered. *)
Definition GetBuiltinNativeService sv : outcome (Service G * Server G) :=
  match http_service_ sv with
  | Some s => Ret (s, sv)
  | None => if acceptor_ sv then Abort else Ret (Service_new, set_service Service_new sv)
  end.

Definition AddHttpFilter (f : HttpFilter) sv : outcome (Server G) :=
  sv1 ←! AddProtocol "http" sv;
  '(s, sv2) ←! GetBuiltinNativeService sv1;
  Ret (set_service (AddFilter f s) sv2).

Definition AddHttpHandler (path : chars) (h : HttpHandler G) sv : outcome (Server G) :=
  sv1 ←! AddProtocol "http" sv;
  '(s, sv2) ←! GetBuiltinNativeService sv1;
  s' ←! AddHandler path h s;
  Ret (set_service s' sv2).

Definition AddHttpHandler_regex (path : list item) (h : HttpHandler G) sv : outcome (Server G) :=
  '(s, sv1) ←! GetBuiltinNativeService sv;
  Ret (set_service (AddHandler_regex path h s) sv1).

Definition AddHttpPrefixHandler (prefix : chars) (h : HttpHandler G) sv : outcome (Server G) :=
  sv1 ←! AddProtocol "http" sv;
  '(s, sv2) ←! GetBuiltinNativeService sv1;
  Ret (set_service (AddPrefixHandler prefix h s) sv2).

Definition SetDefaultHttpHandler (h : HttpHandler G) sv : outcome (Server G) :=
  '(s, sv1) ←! GetBuiltinNativeService sv;
  Ret (set_service (SetDefaultHandler h s) sv1).

Definition ListenOn sv : outcome (Server G) :=
  if listen_cb_ sv then Abort else Ret (set_listening true (acceptor_ sv) sv).

(** The two loops of [Start]. *)
Fixpoint add_builtin_paths (h : HttpHandler G) (ps : list chars) sv : outcome (Server G) :=
  match ps with
  | [] => Ret sv
  | p :: ps' => sv' ←! AddHttpHandler p h sv; add_builtin_paths h ps' sv'
  end.

Fixpoint add_builtin_handlers (hs : list (HttpHandler G * list chars)) sv : outcome (Server G) :=
  match hs with
  | [] => Ret sv
  | (h, ps) :: hs' => sv' ←! add_builtin_paths h ps sv; add_builtin_handlers hs' sv'
  end.

Fixpoint add_builtin_prefixes (hs : list (HttpHandler G * chars)) sv : outcome (Server G) :=
  match hs with
  | [] => Ret sv
  | (h, p) :: hs' => sv' ←! AddHttpPrefixHandler p h sv; add_builtin_prefixes hs' sv'
  end.

(** [listener] is whether the system lets the socket listen. *)
Definition Start (listener : bool) sv : outcome (bool * Server G) :=
  if decide (state_ sv = Initialized) then
    let sv0 := set_state Running sv in
    sv3 ←! (if no_builtin_pages sv0 then Ret sv0
            else sv1 ←! AddProtocol "http" sv0;
                 sv2 ←! add_builtin_handlers (builtin_http_handlers_ sv1) sv1;
                 add_builtin_prefixes (builtin_http_prefix_handlers_ sv1) sv2);
    if negb (listen_cb_ sv3) then Abort
    else if negb listener then Abort
    else Ret (true, set_listening (listen_cb_ sv3) true sv3)
  else Abort.

(** The acceptor exists when the server is running. *)
Definition Stop sv : outcome (Server G) :=
  if decide (state_ sv = Running) then
    if acceptor_ sv then Ret (set_state Stopped sv) else Undef
  else Abort.

Definition Join sv : outcome (Server G) :=
  if decide (state_ sv = Stopped) then Ret (set_state Joined sv) else Abort.

Definition Server_destroy sv : outcome (Server G) :=
  match state_ sv with
  | Initialized | Joined => Ret sv
  | Running => sv1 ←! Stop sv; Join sv1
  | Stopped => Abort
  end.
End server.

(** ** Connections and calls *)

(** A background job releases this many connections when it has run, and the
    check it makes: [CHECK_GT] for a closed connection, [CHECK_GE] for a
    cleanup. *)
Inductive job := Job_close | Job_cleanup (n : nat).

Definition job_size (j : job) : nat := match j with Job_close => 1 | Job_cleanup n => n end.

(** [accepted] and [rejected] count the fibers in [OnConnection] after their
    increment of [alive_conns_]; [conns_] maps the identifier of a connection to
    the time of its last event. *)
Record Accounts := mkAccounts {
  alive_conns_ : Z;
  conns_ : gmap Z Z;
  conn_id : Z;
  accepted : nat;
  rejected : nat;
  jobs : list job;
  outstanding_jobs_ : Z;
  ongoing_calls_ : Z;
  calls : nat;
  overloaded : nat;
}.

Definition Accounts_new : Accounts := mkAccounts 0 ∅ 0 0 0 [] 0 0 0 0.

Section accounts.
Context (max_concurrent_connections max_concurrent_requests : Z).
Implicit Types (a : Accounts).

(** [OnConnection] up to the comparison with the limit. *)
Definition OnConnection_enter a : Accounts :=
  let full := max_concurrent_connections <=? alive_conns_ a in
  mkAccounts (u64 (alive_conns_ a + 1)) (conns_ a) (conn_id a)
    (if full then accepted a else S (accepted a)) (if full then S (rejected a) else rejected a)
    (jobs a) (outstanding_jobs_ a) (ongoing_calls_ a) (calls a) (overloaded a).

(** The rest of it for a connection over the limit. *)
Definition OnConnection_reject a : Accounts :=
  mkAccounts (u64 (alive_conns_ a - 1)) (conns_ a) (conn_id a) (accepted a) (rejected a - 1)
    (jobs a) (outstanding_jobs_ a) (ongoing_calls_ a) (calls a) (overloaded a).

(** The rest of it for a connection that is registered, at the time [now]. *)
Definition OnConnection_register (now : Z) a : Accounts :=
  mkAccounts (alive_conns_ a) (<[conn_id a + 1 := now]> (conns_ a)) (conn_id a + 1) (accepted a - 1) (rejected a)
    (jobs a) (outstanding_jobs_ a) (ongoing_calls_ a) (calls a) (overloaded a).

Definition StartBackgroundJob (j : job) a : Accounts :=
  mkAccounts (alive_conns_ a) (conns_ a) (conn_id a) (accepted a) (rejected a)
    (jobs a ++ [j]) (u64 (outstanding_jobs_ a + 1)) (ongoing_calls_ a) (calls a) (overloaded a).

Definition set_conns (m : gmap Z Z) a : Accounts :=
  mkAccounts (alive_conns_ a) m (conn_id a) (accepted a) (rejected a)
    (jobs a) (outstanding_jobs_ a) (ongoing_calls_ a) (calls a) (overloaded a).

Definition OnConnectionClosed (id : Z) a : Accounts :=
  match conns_ a !! id with
  | None => a
  | Some _ => StartBackgroundJob Job_close (set_conns (delete id (conns_ a)) a)
  end.

Definition OnConnectionCleanupTimer (expire_threshold : Z) a : Accounts :=
  let deleting := filter (λ e, e.2 < expire_threshold) (conns_ a) in
  StartBackgroundJob (Job_cleanup (size deleting))
    (set_conns (filter (λ e, ¬ e.2 < expire_threshold) (conns_ a)) a).

(** [fetch_sub] of the connections, with its check. *)
Definition release (j : job) (alive : Z) : outcome Z :=
  match j with
  | Job_close => if 0 <? alive then Ret (u64 (alive - 1)) else Abort
  | Job_cleanup n => if Z.of_nat n <=? alive then Ret (u64 (alive - Z.of_nat n)) else Abort
  end.

(** The end of the background job at position [i]. *)
Definition finish_job (i : nat) a : outcome Accounts :=
  j ←! deref (jobs a !! i);
  alive ←! release j (alive_conns_ a);
  if outstanding_jobs_ a <? 0 then Abort
  else Ret (mkAccounts alive (conns_ a) (conn_id a) (accepted a) (rejected a)
              (delete i (jobs a)) (u64 (outstanding_jobs_ a - 1)) (ongoing_calls_ a) (calls a) (overloaded a)).

(** [Join] with the connections that are left. *)
Fixpoint release_all (n : nat) (alive : Z) : outcome Z :=
  match n with
  | O => Ret alive
  | S n' => alive' ←! release Job_close alive; release_all n' alive'
  end.

Definition Join_release a : outcome Accounts :=
  alive ←! release_all (size (conns_ a)) (alive_conns_ a);
  Ret (mkAccounts alive ∅ (conn_id a) (accepted a) (rejected a)
         (jobs a) (outstanding_jobs_ a) (ongoing_calls_ a) (calls a) (overloaded a)).

(** [OnNewCall] increments; over the limit it takes the increment back. *)
Definition OnNewCall_enter a : Accounts :=
  let full := max_concurrent_requests <=? ongoing_calls_ a in
  mkAccounts (alive_conns_ a) (conns_ a) (conn_id a) (accepted a) (rejected a) (jobs a) (outstanding_jobs_ a)
    (u64 (ongoing_calls_ a + 1)) (if full then calls a else S (calls a)) (if full then S (overloaded a) else overloaded a).

Definition call_done (over : bool) a : outcome Accounts :=
  if negb (0 <? ongoing_calls_ a) then Abort
  else Ret (mkAccounts (alive_conns_ a) (conns_ a) (conn_id a) (accepted a) (rejected a) (jobs a) (outstanding_jobs_ a)
              (u64 (ongoing_calls_ a - 1)) (if over then calls a else calls a - 1)%nat
              (if over then overloaded a - 1 else overloaded a)%nat).

Definition OnNewCall_reject a : outcome Accounts := call_done true a.
Definition OnCallCompletion a : outcome Accounts := call_done false a.

(** *** The state machine *)

Inductive event :=
| Enter | Reject | Register (now : Z) | Closed (id : Z) | Cleanup (expire_threshold : Z) | Finish (i : nat)
| Call_enter | Call_reject | Call_complete.

(** Which events can happen; a counter does not reach the size of its type. *)
Definition enabled (e : event) a : Prop :=
  match e with
  | Enter => alive_conns_ a + 1 < 2 ^ 64
  | Reject => (0 < rejected a)%nat
  | Register _ => (0 < accepted a)%nat
  | Closed _ | Cleanup _ => outstanding_jobs_ a + 1 < 2 ^ 64
  | Finish i => (i < length (jobs a))%nat
  | Call_enter => ongoing_calls_ a + 1 < 2 ^ 64
  | Call_reject => (0 < overloaded a)%nat
  | Call_complete => (0 < calls a)%nat
  end.

Definition run_event (e : event) a : outcome Accounts :=
  match e with
  | Enter => Ret (OnConnection_enter a)
  | Reject => Ret (OnConnection_reject a)
  | Register now => Ret (OnConnection_register now a)
  | Closed id => Ret (OnConnectionClosed id a)
  | Cleanup t => Ret (OnConnectionCleanupTimer t a)
  | Finish i => finish_job i a
  | Call_enter => Ret (OnNewCall_enter a)
  | Call_reject => OnNewCall_reject a
  | Call_complete => OnCallCompletion a
  end.

Inductive reachable : Accounts → Prop :=
| Reach_new : reachable Accounts_new
| Reach_step a e a' : reachable a → enabled e a → run_event e a = Ret a' → reachable a'.

Definition released (js : list job) : nat := sum_list (job_size <$> js).

Record accounts_inv a : Prop := {
  ai_alive : alive_conns_ a = Z.of_nat (size (conns_ a) + accepted a + rejected a + released (jobs a));
  ai_alive_range : alive_conns_ a < 2 ^ 64;
  ai_jobs : outstanding_jobs_ a = Z.of_nat (length (jobs a));
  ai_jobs_range : outstanding_jobs_ a < 2 ^ 64;
  ai_calls : ongoing_calls_ a = Z.of_nat (calls a + overloaded a);
  ai_calls_range : ongoing_calls_ a < 2 ^ 64;
  ai_ids : ∀ id, is_Some (conns_ a !! id) → id ≤ conn_id a;
  ai_limit : 0 ≤ max_concurrent_connections →
    Z.of_nat (size (conns_ a) + accepted a + released (jobs a)) ≤ max_concurrent_connections;
  ai_call_limit : 0 ≤ max_concurrent_requests → Z.of_nat (calls a) ≤ max_concurrent_requests;
}.

Lemma new_inv : accounts_inv Accounts_new.
Proof. split; simpl; try done; try lia. intros id. rewrite lookup_empty. by intros []. Qed.

Lemma released_app js j : released (js ++ [j]) = (released js + job_size j)%nat.
Proof. unfold released. rewrite fmap_app, sum_list_with_app. simpl. lia. Qed.

Lemma released_delete js i j : js !! i = Some j → released js = (job_size j + released (delete i js))%nat.
Proof.
  unfold released. revert i. induction js as [|j' js IH]; intros [|i] Hi; simplify_eq/=; [done|].
  rewrite (IH i Hi). lia.
Qed.

Lemma filter_sizes (t : Z) (m : gmap Z Z) :
  (size (filter (λ e : Z * Z, (e.2 < t)%Z) m) + size (filter (λ e : Z * Z, ¬ (e.2 < t)%Z) m) = size m)%nat.
Proof.
  rewrite <-map_size_disj_union by apply map_disjoint_filter_complement. by rewrite map_filter_union_complement.
Qed.

Lemma enter_inv a : accounts_inv a → alive_conns_ a + 1 < 2 ^ 64 → accounts_inv (OnConnection_enter a).
Proof.
  intros [Ha Hr Hj Hjr Hc Hcr Hi Hl Hcl] Hb. unfold OnConnection_enter.
  destruct (Z.leb_spec max_concurrent_connections (alive_conns_ a)); split; simpl; rewrite ?u64_small; auto; lia.
Qed.

Lemma reject_inv a : accounts_inv a → (0 < rejected a)%nat → accounts_inv (OnConnection_reject a).
Proof.
  intros [Ha Hr Hj Hjr Hc Hcr Hi Hl Hcl] Hb. split; simpl; rewrite ?u64_small; auto; lia.
Qed.

Lemma register_inv now a : accounts_inv a → (0 < accepted a)%nat → accounts_inv (OnConnection_register now a).
Proof.
  intros [Ha Hr Hj Hjr Hc Hcr Hi Hl Hcl] Hb.
  assert (Hnone : conns_ a !! (conn_id a + 1) = None).
  { apply eq_None_not_Some. intros Hs. specialize (Hi _ Hs). lia. }
  split; simpl; rewrite ?(map_size_insert_None _ _ _ Hnone); auto; try lia.
  intros id. rewrite lookup_insert_is_Some'. intros [<-|Hs]; [lia|]. specialize (Hi _ Hs). lia.
Qed.

Lemma closed_inv id a : accounts_inv a → outstanding_jobs_ a + 1 < 2 ^ 64 → accounts_inv (OnConnectionClosed id a).
Proof.
  intros Hinv Hb. unfold OnConnectionClosed. destruct (conns_ a !! id) as [now|] eqn:E; [|done].
  destruct Hinv as [Ha Hr Hj Hjr Hc Hcr Hi Hl Hcl].
  assert (Hsz : size (delete id (conns_ a)) = pred (size (conns_ a))) by (apply map_size_delete_Some; eauto).
  assert (0 < size (conns_ a))%nat by (apply Nat.neq_0_lt_0; rewrite map_size_non_empty_iff; by intros He; rewrite He, lookup_empty in E).
  split; simpl; rewrite ?released_app, ?length_app, ?u64_small by lia; simpl; auto; try lia.
  intros id'. rewrite lookup_delete_is_Some. intros [_ Hs]. by apply Hi.
Qed.

Lemma cleanup_inv t a : accounts_inv a → outstanding_jobs_ a + 1 < 2 ^ 64 → accounts_inv (OnConnectionCleanupTimer t a).
Proof.
  intros [Ha Hr Hj Hjr Hc Hcr Hi Hl Hcl] Hb. pose proof (filter_sizes t (conns_ a)).
  split; simpl; rewrite ?released_app, ?length_app, ?u64_small by lia; simpl; auto; try lia.
  intros id [now Hs]. apply map_lookup_filter_Some in Hs as [Hs _]. apply Hi. eauto.
Qed.

Lemma release_ok j (alive rest : Z) :
  alive = Z.of_nat (job_size j) + rest → 0 ≤ rest → alive < 2 ^ 64 → release j alive = Ret rest.
Proof.
  intros -> Hr Hb. destruct j as [|n]; simpl.
  - rewrite (proj2 (Z.ltb_lt _ _)) by (simpl in *; lia). rewrite u64_small by (simpl in *; lia). f_equal. lia.
  - rewrite (proj2 (Z.leb_le _ _)) by (simpl in *; lia). rewrite u64_small by (simpl in *; lia). f_equal. lia.
Qed.

Lemma finish_ok i a : accounts_inv a → (i < length (jobs a))%nat → ∃ a', finish_job i a = Ret a' ∧ accounts_inv a' ∧
  jobs a' = delete i (jobs a) ∧ conns_ a' = conns_ a ∧ accepted a' = accepted a ∧ rejected a' = rejected a.
Proof.
  intros [Ha Hr Hj Hjr Hc Hcr Hi Hl Hcl] Hb. destruct (lookup_lt_is_Some_2 _ _ Hb) as [j Hlook].
  pose proof (released_delete _ _ _ Hlook) as Hrel. pose proof (length_delete (jobs a) i (mk_is_Some _ _ Hlook)) as Hlen.
  unfold finish_job. rewrite Hlook. cbn [deref obind].
  rewrite (release_ok j _ (Z.of_nat (size (conns_ a) + accepted a + rejected a + released (delete i (jobs a))))) by lia.
  cbn [obind]. rewrite (proj2 (Z.ltb_ge _ _)) by lia. eexists. split; [done|].
  split; [|done]. split; simpl; rewrite ?u64_small; auto; lia.
Qed.

Lemma call_enter_inv a : accounts_inv a → ongoing_calls_ a + 1 < 2 ^ 64 → accounts_inv (OnNewCall_enter a).
Proof.
  intros [Ha Hr Hj Hjr Hc Hcr Hi Hl Hcl] Hb. unfold OnNewCall_enter.
  destruct (Z.leb_spec max_concurrent_requests (ongoing_calls_ a)); split; simpl; rewrite ?u64_small; auto; lia.
Qed.

Lemma call_done_ok (over : bool) a :
  accounts_inv a → (0 < (if over then overloaded a else calls a))%nat → ∃ a', call_done over a = Ret a' ∧ accounts_inv a'.
Proof.
  intros [Ha Hr Hj Hjr Hc Hcr Hi Hl Hcl] Hb. unfold call_done.
  assert (0 < ongoing_calls_ a) as Hpos by (destruct over; lia).
  rewrite (proj2 (Z.ltb_lt _ _) Hpos). cbn [negb]. eexists. split; [done|].
  destruct over; split; simpl; rewrite ?u64_small; auto; lia.
Qed.

Lemma run_event_ok e a : accounts_inv a → enabled e a → ∃ a', run_event e a = Ret a' ∧ accounts_inv a'.
Proof.
  intros Hinv He. destruct e; cbn [run_event enabled] in *.
  - eauto using enter_inv.
  - eauto using reject_inv.
  - eauto using register_inv.
  - eauto using closed_inv.
  - eauto using cleanup_inv.
  - destruct (finish_ok i a Hinv He) as (a' & ? & ? & _). eauto.
  - eauto using call_enter_inv.
  - by apply call_done_ok.
  - by apply call_done_ok.
Qed.

Lemma reachable_inv a : reachable a → accounts_inv a.
Proof.
  induction 1 as [|a e a' _ IH He Hr]; [apply new_inv|].
  destruct (run_event_ok e a IH He) as (a'' & Hr' & Hinv). congruence.
Qed.

(** C35: in any interleaving of the fibers that accept, reject, close and clean up
    connections, finish background jobs, and start and complete calls, none of
    the checks on the counters fails: the counters never go below zero. *)
Theorem accounts_safe a e : reachable a → enabled e a → ∃ a', run_event e a = Ret a' ∧ reachable a'.
Proof.
  intros Hr He. destruct (run_event_ok e a (reachable_inv a Hr) He) as (a' & Hev & _).
  exists a'. split; [done|by eapply Reach_step].
Qed.

(** The connections that are registered, being registered or being closed are
    never more than the limit, and neither are the calls that are being
    served. *)
Theorem connection_limit a :
  reachable a → 0 ≤ max_concurrent_connections → 0 ≤ max_concurrent_requests →
  Z.of_nat (size (conns_ a)) ≤ max_concurrent_connections ∧ Z.of_nat (calls a) ≤ max_concurrent_requests.
Proof.
  intros Hr Hc Hq. destruct (reachable_inv a Hr) as [_ _ _ _ _ _ _ Hl Hcl]. specialize (Hl Hc). specialize (Hcl Hq). lia.
Qed.

(** *** Joining

    When [Join] releases the connections, the acceptor has been joined, so no
    fiber is in [OnConnection]. *)

Lemma release_all_ok n alive rest :
  alive = Z.of_nat n + rest → 0 ≤ rest → alive < 2 ^ 64 → release_all n alive = Ret rest.
Proof.
  revert alive. induction n as [|n IH]; intros alive Ha Hr Hb; simpl; [f_equal; lia|].
  rewrite (proj2 (Z.ltb_lt _ _)) by lia. cbn [obind]. rewrite u64_small by lia. apply IH; lia.
Qed.

Lemma Join_release_ok a :
  accounts_inv a → ∃ a', Join_release a = Ret a' ∧ accounts_inv a' ∧ conns_ a' = ∅ ∧ jobs a' = jobs a ∧
    accepted a' = accepted a ∧ rejected a' = rejected a.
Proof.
  intros [Ha Hr Hj Hjr Hc Hcr Hi Hl Hcl]. unfold Join_release.
  rewrite (release_all_ok _ _ (Z.of_nat (accepted a + rejected a + released (jobs a)))) by lia. cbn [obind].
  eexists. split; [done|]. split; [|done]. split; simpl; rewrite ?map_size_empty; auto; try lia.
  intros id. rewrite lookup_empty. by intros [].
Qed.

(** The jobs that are left finish in some order: each time the one at the given
    position. *)
Fixpoint finish_all (order : list nat) a : outcome Accounts :=
  match order with
  | [] => Ret a
  | i :: order' => a' ←! finish_job (i mod (length (jobs a))) a; finish_all order' a'
  end.

Lemma finish_all_ok order a :
  accounts_inv a → length order = length (jobs a) → conns_ a = ∅ → accepted a = 0%nat → rejected a = 0%nat →
  ∃ a', finish_all order a = Ret a' ∧ alive_conns_ a' = 0 ∧ outstanding_jobs_ a' = 0.
Proof.
  revert a. induction order as [|i order IH]; intros a Hinv Hlen Hc Ha Hr.
  - exists a. split; [done|]. destruct Hinv as [Hal _ Hj _ _ _ _ _ _].
    destruct (jobs a) eqn:E; [|done]. rewrite Hc, Ha, Hr in Hal. split; [exact Hal|exact Hj].
  - cbn [finish_all]. simpl in Hlen.
    assert (Hi : (i mod length (jobs a) < length (jobs a))%nat) by (apply Nat.mod_upper_bound; lia).
    destruct (finish_ok _ a Hinv Hi) as (a' & -> & Hinv' & Hj' & Hc' & Ha' & Hr'). cbn [obind].
    apply IH; [done| |congruence..]. rewrite Hj', length_delete by (by apply lookup_lt_is_Some). lia.
Qed.

(** [Join] releases the connections without a failed check, and when the
    background jobs that are left have run, in any order, both counters it waits
    for are zero, so that its loops end. *)
Theorem Join_terminates a order :
  reachable a → accepted a = 0%nat → rejected a = 0%nat → length order = length (jobs a) →
  ∃ a1 a2, Join_release a = Ret a1 ∧ finish_all order a1 = Ret a2 ∧ alive_conns_ a2 = 0 ∧ outstanding_jobs_ a2 = 0.
Proof.
  intros Hr Ha Hrej Hlen. destruct (Join_release_ok a (reachable_inv a Hr)) as (a1 & He & Hinv & Hc & Hj & Hacc & Hrj).
  destruct (finish_all_ok order a1) as (a2 & ? & ? & ?); [done|congruence..|]. eauto 10.
Qed.
End accounts.

(** A run: two connections within the limit of two, a third one rejected, one
    closed by its peer, one cleaned up. *)
Definition sample_events : list event :=
  [Enter; Enter; Enter; Register 10; Reject; Register 20; Call_enter; Closed 1; Cleanup 30; Finish 1; Call_complete].

Fixpoint run_events (m1 m2 : Z) (es : list event) (a : Accounts) : outcome Accounts :=
  match es with
  | [] => Ret a
  | e :: es' => a' ←! run_event m1 m2 e a; run_events m1 m2 es' a'
  end.

(** A run of enabled events is a path of the machine. *)
Definition enabled_b (e : event) (a : Accounts) : bool :=
  match e with
  | Enter => alive_conns_ a + 1 <? 2 ^ 64
  | Reject => (0 <? rejected a)%nat
  | Register _ => (0 <? accepted a)%nat
  | Closed _ | Cleanup _ => outstanding_jobs_ a + 1 <? 2 ^ 64
  | Finish i => (i <? length (jobs a))%nat
  | Call_enter => ongoing_calls_ a + 1 <? 2 ^ 64
  | Call_reject => (0 <? overloaded a)%nat
  | Call_complete => (0 <? calls a)%nat
  end.

Fixpoint valid_run (m1 m2 : Z) (es : list event) (a : Accounts) : bool :=
  match es with
  | [] => true
  | e :: es' => enabled_b e a && match run_event m1 m2 e a with Ret a' => valid_run m1 m2 es' a' | _ => false end
  end.

Lemma valid_run_reachable m1 m2 es a a' :
  reachable m1 m2 a → valid_run m1 m2 es a = true → run_events m1 m2 es a = Ret a' → reachable m1 m2 a'.
Proof.
  revert a. induction es as [|e es IH]; intros a Hr Hv Hrun; cbn in *; [by injection Hrun as <-|].
  apply andb_true_iff in Hv as [He Hv]. destruct (run_event m1 m2 e a) as [a1| | | |] eqn:E; try done.
  cbn [obind] in Hrun. eapply IH; [|done|done]. eapply Reach_step; [done| |done].
  destruct e; cbn in *; apply Z.ltb_lt || apply Nat.ltb_lt; done.
Qed.

Definition sample_accounts : Accounts :=
  match run_events 2 1 sample_events Accounts_new with Ret a => a | _ => Accounts_new end.

Lemma sample_reachable : reachable 2 1 sample_accounts.
Proof.
  apply (valid_run_reachable 2 1 sample_events Accounts_new); [apply Reach_new|vm_compute; reflexivity..].
Qed.

Lemma accounts_safe_witness : ∃ a', run_event 2 1 (Finish 0) sample_accounts = Ret a' ∧ reachable 2 1 a'.
Proof. apply (accounts_safe 2 1); [apply sample_reachable|vm_compute; lia]. Defined.

Lemma connection_limit_witness :
  Z.of_nat (size (conns_ sample_accounts)) ≤ 2 ∧ Z.of_nat (calls sample_accounts) ≤ 1.
Proof. apply (connection_limit 2 1); [apply sample_reachable|lia|lia]. Defined.

Lemma Join_terminates_witness : ∃ a1 a2, Join_release sample_accounts = Ret a1 ∧ finish_all [5%nat] a1 = Ret a2 ∧
  alive_conns_ a2 = 0 ∧ outstanding_jobs_ a2 = 0.
Proof. apply (Join_terminates 2 1); [apply sample_reachable|vm_compute; reflexivity..]. Defined.
