(* ===== verification/ConnHandler.v ===== *)
(** * Serving a connection: flare/rpc/internal/normal_connection_handler.{h,cc}

    The handler of a connection cuts messages off the bytes that have arrived and
    starts a fiber for each; a fiber parses its message, calls the service and
    writes the response.  The fibers that have been started are part of the
    state, and any of them can be the next to run.

    The protocols of the connection are HTTP/1.1 objects and the service is the
    HTTP service, as in the cache; their messages are all of the type [Single],
    so that the part for streams is not reached.  [admits] stands for the answers
    of [Server::OnNewCall], which depend on the other connections.  Tracing and
    the binary log are left out.

    [OnDataArrival_terminates] holds for any bytes; [connection_stream]
    says that each complete request gets its fiber, in order, and what is
    incomplete stays; [run_fiber_answers] that a fiber writes the response of the
    service, if it gives one. *)

From Stdlib Require Import Ascii.
From S2P Require Import Prelude Regex FlareString Buffer FlareHashMap HttpHeaders HttpTypes HttpIo HttpIoProofs HttpService.

#[local] Open Scope string_scope.
#[local] Open Scope list_scope.
#[local] Open Scope Z_scope.

(** [ProcessingStatus] of the handler and [DataConsumptionStatus]. *)
Inductive PacketStatus := P_Success | P_Error | P_Saturated | P_SuppressRead.
Inductive DataConsumptionStatus := D_Ready | D_SuppressRead | D_Error.

(** [packets] counts the calls of [OnNewCall]; [written] has what was given to
    [StreamConnection::Write], and [closing] counts the calls of
    [Server::OnConnectionClosed]. *)
Record Connection := mkConn {
  protocols : list Http11Protocol;
  ever_succeeded_cut_msg_ : bool;
  last_protocol_ : nat;
  errno_ : bool;
  packets : nat;
  fibers : list (nat * OnWireMessage);
  ongoing_requests_ : Z;
  written : list NoncontiguousBuffer;
  closing : nat;
}.

Definition Connection_new (ps : list Http11Protocol) : Connection := mkConn ps false 0 false 0 [] 0 [] 0.

Section conn.
Context {G : Type} `{Compressors} (svc : Service G) (block_size : Z) (admits : nat → bool).
Implicit Types (c : Connection) (nb : NoncontiguousBuffer).

(** ** Cutting messages *)

(** [protocol->TryCutMessage] for the protocol at an index. *)
Definition cut_with (i : nat) c nb : outcome (MessageCutStatus * Connection * NoncontiguousBuffer * option OnWireMessage) :=
  p ←! deref (protocols c !! i);
  r ←! TryCutMessage p nb (errno_ c);
  Ret (cut_status r,
       mkConn (<[i := cut_protocol r]> (protocols c)) (ever_succeeded_cut_msg_ c) (last_protocol_ c) (cut_errno r) (packets c)
         (fibers c) (ongoing_requests_ c) (written c) (closing c),
       cut_buffer r, cut_message r).

Definition TryCutMessageUsingLastProtocol c nb :
    outcome (MessageCutStatus * Connection * NoncontiguousBuffer * option (nat * OnWireMessage)) :=
  if negb (ever_succeeded_cut_msg_ c) then Abort
  else if negb (last_protocol_ c <? length (protocols c))%nat then Abort
  else
    '(rc, c', nb', msg) ←! cut_with (last_protocol_ c) c nb;
    match rc with
    | Cut_OK => m ←! deref msg; Ret (Cut_OK, c', nb', Some (last_protocol_ c, m))
    | NotIdentified | NeedMore => Ret (NeedMore, c', nb', None)
    | ProtocolMismatch => Ret (ProtocolMismatch, c', nb', None)
    | Cut_Error => Ret (Cut_Error, c', nb', None)
    end.

Definition use_protocol (i : nat) c : Connection :=
  mkConn (protocols c) true i (errno_ c) (packets c) (fibers c) (ongoing_requests_ c) (written c) (closing c).

(** The loop over the protocols, of which [n] are left. *)
Fixpoint detect (n index : nat) (ever_need_more : bool) c nb :
    outcome (PacketStatus * Connection * NoncontiguousBuffer * option (nat * OnWireMessage)) :=
  match n with
  | O => Ret (if ever_need_more then P_Saturated else P_Error, c, nb, None)
  | S n' =>
      '(rc, c', nb', msg) ←! cut_with index c nb;
      match rc with
      | Cut_OK => m ←! deref msg; Ret (P_Success, use_protocol index c', nb', Some (index, m))
      | NeedMore => Ret (P_Saturated, c', nb', None)
      | Cut_Error => Ret (P_Error, c', nb', None)
      | NotIdentified => detect n' (S index) true c' nb'
      | ProtocolMismatch => detect n' (S index) ever_need_more c' nb'
      end
  end.

Definition Conn_TryCutMessage c nb :
    outcome (PacketStatus * Connection * NoncontiguousBuffer * option (nat * OnWireMessage)) :=
  if ever_succeeded_cut_msg_ c then
    '(rc, c', nb', msg) ←! TryCutMessageUsingLastProtocol c nb;
    match rc with
    | Cut_OK => Ret (P_Success, c', nb', msg)
    | Cut_Error => Ret (P_Error, c', nb', None)
    | NeedMore => Ret (P_Saturated, c', nb', None)
    | ProtocolMismatch => detect (length (protocols c')) 0 false c' nb'
    | NotIdentified => Abort
    end
  else detect (length (protocols c)) 0 false c nb.

(** ** Rejecting a call *)

Definition Conn_WriteMessage (m : Message) c : outcome Connection :=
  nb ←! WriteMessage block_size m;
  Ret (mkConn (protocols c) (ever_succeeded_cut_msg_ c) (last_protocol_ c) (errno_ c) (packets c) (fibers c)
         (ongoing_requests_ c) (written c ++ [nb]) (closing c)).

(** [MessageFactory::null_factory], which is what the HTTP protocol has. *)
Definition NullFactory_Create : option Message := None.

Definition WriteOverloaded c : outcome Connection :=
  match NullFactory_Create with
  | Some m => Conn_WriteMessage m c
  | None => Ret c
  end.

Definition ServiceOverloaded c : outcome Connection := WriteOverloaded c.

(** ** Starting a fiber *)

Definition Conn_OnNewCall c : bool * Connection :=
  if admits (packets c) then
    (true, mkConn (protocols c) (ever_succeeded_cut_msg_ c) (last_protocol_ c) (errno_ c) (S (packets c))
             (fibers c) (u64 (ongoing_requests_ c + 1)) (written c) (closing c))
  else
    (false, mkConn (protocols c) (ever_succeeded_cut_msg_ c) (last_protocol_ c) (errno_ c) (S (packets c))
              (fibers c) (ongoing_requests_ c) (written c) (closing c)).

Definition StartFiberDetached (f : nat * OnWireMessage) c : Connection :=
  mkConn (protocols c) (ever_succeeded_cut_msg_ c) (last_protocol_ c) (errno_ c) (packets c)
    (fibers c ++ [f]) (ongoing_requests_ c) (written c) (closing c).

Definition ProcessOnePacket c nb : outcome (PacketStatus * Connection * NoncontiguousBuffer) :=
  '(rc, c', nb', msg) ←! Conn_TryCutMessage c nb;
  match rc with
  | P_Error => Ret (P_Error, c', nb')
  | P_Saturated => Ret (P_Saturated, c', nb')
  | P_Success =>
      f ←! deref msg;
      let '(admitted, c1) := Conn_OnNewCall c' in
      c2 ←! (if negb admitted then ServiceOverloaded c1 else Ret (StartFiberDetached f c1));
      Ret (P_Success, c2, nb')
  | P_SuppressRead => Abort
  end.

(** Each round that goes on has taken a message off the buffer. *)
Fixpoint OnDataArrival_loop (fuel : nat) (ever_suppressed : bool) c nb :
    outcome (DataConsumptionStatus * Connection * NoncontiguousBuffer) :=
  match fuel with
  | O => Fuel
  | S fuel' =>
      empty ←! NB_Empty nb;
      if empty then Ret (if ever_suppressed then D_SuppressRead else D_Ready, c, nb)
      else
        '(rc, c', nb') ←! ProcessOnePacket c nb;
        match rc with
        | P_Success => OnDataArrival_loop fuel' ever_suppressed c' nb'
        | P_Error => Ret (D_Error, c', nb')
        | P_SuppressRead => OnDataArrival_loop fuel' true c' nb'
        | P_Saturated => Ret (if ever_suppressed then D_SuppressRead else D_Ready, c', nb')
        end
  end.

Definition OnDataArrival c nb := OnDataArrival_loop (S (Z.to_nat (ByteSize nb))) false c nb.

(** ** Calling the service *)

(** [http::Service::Inspect]. *)
Definition Inspect (m : Message) : option HttpRequest :=
  match m with HttpRequestMessage r => Some r | HttpResponseMessage _ => None end.

Definition close_connection c : Connection :=
  mkConn (protocols c) (ever_succeeded_cut_msg_ c) (last_protocol_ c) (errno_ c) (packets c) (fibers c)
    (ongoing_requests_ c) (written c) (S (closing c)).

(** [late] is whether the request has waited for longer than the server
    allows. *)
Definition ServiceFastCall (late : bool) (f : nat * OnWireMessage) c (g : G) : outcome (Connection * G) :=
  if late then c' ←! WriteOverloaded c; Ret (c', g)
  else
    p ←! deref (protocols c !! f.1);
    '(parsed, _) ←! TryParse p f.2 false;
    match parsed with
    | None => Ret (c, g)
    | Some m =>
        match Inspect m with
        | None => Ret (c, g)
        | Some request =>
            '(status, response, g') ←! FastCall svc request g;
            c' ←! (match response with
                   | Some r => Conn_WriteMessage (HttpResponseMessage r) c
                   | None => Ret c
                   end);
            c'' ←! (match status with Overloaded => WriteOverloaded c' | _ => Ret c' end);
            Ret (match status with Completed => close_connection c'' | _ => c'' end, g')
        end
    end.

Definition Conn_OnCallCompletion c : outcome Connection :=
  if negb (0 <? ongoing_requests_ c) then Abort
  else Ret (mkConn (protocols c) (ever_succeeded_cut_msg_ c) (last_protocol_ c) (errno_ c) (packets c) (fibers c)
              (u64 (ongoing_requests_ c - 1)) (written c) (closing c)).

(** The fiber at position [i] runs to its end. *)
Definition run_fiber (late : bool) (i : nat) c (g : G) : outcome (Connection * G) :=
  f ←! deref (fibers c !! i);
  let c0 := mkConn (protocols c) (ever_succeeded_cut_msg_ c) (last_protocol_ c) (errno_ c) (packets c)
              (delete i (fibers c)) (ongoing_requests_ c) (written c) (closing c) in
  '(c1, g') ←! ServiceFastCall late f c0 g;
  c2 ←! Conn_OnCallCompletion c1;
  Ret (c2, g').
End conn.

Section started.
Context (admits : nat → bool).

(** What becomes of a message: a fiber when the server admits the call;
    otherwise the HTTP protocol has no message to say so, and it is dropped. *)
Definition start_fiber (f : nat * OnWireMessage) (c : Connection) : Connection :=
  if admits (packets c) then
    mkConn (protocols c) (ever_succeeded_cut_msg_ c) (last_protocol_ c) (errno_ c) (S (packets c))
      (fibers c ++ [f]) (u64 (ongoing_requests_ c + 1)) (written c) (closing c)
  else
    mkConn (protocols c) (ever_succeeded_cut_msg_ c) (last_protocol_ c) (errno_ c) (S (packets c))
      (fibers c) (ongoing_requests_ c) (written c) (closing c).

Lemma ProcessOnePacket_eq block_size c nb :
  ProcessOnePacket block_size admits c nb =
  ('(rc, c', nb', msg) ←! Conn_TryCutMessage c nb;
   match rc with
   | P_Error => Ret (P_Error, c', nb')
   | P_Saturated => Ret (P_Saturated, c', nb')
   | P_Success => f ←! deref msg; Ret (P_Success, start_fiber f c', nb')
   | P_SuppressRead => Abort
   end).
Proof.
  unfold ProcessOnePacket. destruct (Conn_TryCutMessage c nb) as [[[[rc c'] nb'] msg]| | | |]; try reflexivity.
  cbn [obind]. destruct rc; try reflexivity. destruct msg as [f|]; [|reflexivity]. cbn [deref obind].
  unfold Conn_OnNewCall, start_fiber. by destruct (admits (packets c')).
Qed.
End started.

(** ** Any bytes

    [fed m Q]: [m] has enough fuel, and a result it returns satisfies [Q]. *)
Definition fed {A} (m : outcome A) (Q : A → Prop) : Prop :=
  match m with Ret a => Q a | Fuel => False | Undef | Abort | Throw => True end.

Lemma fed_bind {A B} (m : outcome A) (f : A → outcome B) (Q : B → Prop) :
  fed m (λ a, fed (f a) Q) → fed (obind m f) Q.
Proof. by destruct m. Qed.

Lemma fed_mono {A} (m : outcome A) (P Q : A → Prop) : fed m P → (∀ a, P a → Q a) → fed m Q.
Proof. destruct m; simpl; auto. Qed.

Lemma fed_deref {A} (o : option A) (Q : A → Prop) : (∀ a, o = Some a → Q a) → fed (deref o) Q.
Proof. destruct o; simpl; auto. Qed.

Lemma find_from_bounds d s p q : find_from d s p = Some q → (p ≤ q)%nat ∧ (q + length d ≤ Nat.max p (length s))%nat.
Proof.
  unfold find_from. destruct (find d (drop p s)) as [r|] eqn:E; [|done]. intros [= <-].
  apply find_bound in E. rewrite length_drop in E. lia.
Qed.

Lemma DetermineHeaderSizeFast_fed s : fed (DetermineHeaderSizeFast s) (λ o, ∀ n, o = Some n → (n ≤ length s)%nat).
Proof.
  unfold DetermineHeaderSizeFast. destruct s as [|a s']; [done|]. set (s := a :: s').
  assert (Hgo : ∀ fuel p, (length s < fuel + p)%nat → (p ≤ length s)%nat →
    fed (DetermineHeaderSizeFast_loop fuel s p) (λ o, ∀ n, o = Some n → (n ≤ length s)%nat)); [|apply Hgo; unfold s; simpl; lia].
  induction fuel as [|fuel IH]; intros p Hf Hp; cbn [DetermineHeaderSizeFast_loop].
  { lia. }
  destruct (find_from [nl] s p) as [q|] eqn:E; [|done]. apply find_from_bounds in E as [H1 H2].
  destruct (Nat.ltb_spec (length s - q) 3); [done|]. destruct (bool_decide (s !! (q + 2)%nat = _)).
  - destruct (bool_decide _); cbn [fed]; [intros n [= <-]; lia|done].
  - apply IH; lia.
Qed.

Lemma IEquals_fed s1 s2 Q : (∀ b, Q b) → fed (IEquals s1 s2) Q.
Proof.
  intros HQ. unfold IEquals. destruct (decide _); [|apply HQ]. clear -HQ. revert s2.
  induction s1 as [|c1 s1 IH]; intros [|c2 s2]; cbn [IEquals_loop]; try apply HQ.
  assert (Hl : ∀ c R, (∀ x, R x) → fed (ToLower c) R).
  { intros c R HR. unfold ToLower, table_at. destruct (_ <? _)%Z; [|done]. apply fed_deref. auto. }
  apply fed_bind, Hl. intros l1. apply fed_bind, Hl. intros l2. destruct (bool_decide (l1 = l2)); [apply IH|apply HQ].
Qed.

Lemma ReadField_fed view key Q : (∀ v, Q v) → fed (ReadFieldFromRawBytes view key) Q.
Proof.
  intros HQ. unfold ReadFieldFromRawBytes.
  assert (Hgo : ∀ fuel pos, (length view < fuel + pos)%nat → (pos ≤ length view)%nat →
    fed (ReadFieldFromRawBytes_loop fuel view key pos) Q); [|apply Hgo; lia].
  induction fuel as [|fuel IH]; intros pos Hf Hp; [lia|].
  assert (Hnext : fed (match find_from [nl] view (pos + 1) with
                       | None => Ret []
                       | Some p => ReadFieldFromRawBytes_loop fuel view key (p + 1)
                       end) Q).
  { destruct (find_from [nl] view (pos + 1)) as [p|] eqn:E; [|apply HQ].
    unfold find_from in E. destruct (find [nl] (drop (pos + 1) view)) as [r|] eqn:Er; [|done]. injection E as <-.
    apply find_bound in Er. rewrite length_drop in Er. simpl in Er. apply IH; lia. }
  cbn [ReadFieldFromRawBytes_loop]. apply fed_bind, IEquals_fed. intros [|]; [|done].
  destruct (_ =? _)%nat; [apply HQ|]. apply fed_bind, fed_deref. intros ch _. destruct (bool_decide _); [|done].
  destruct (find [cr] _); [|done]. destruct (_ <=? _)%nat; [done|apply HQ].
Qed.

(** A header that is read is not empty. *)
Lemma ReadHeader_fed nb :
  nb_inv nb → contents nb ≠ [] →
  fed (ReadHeader nb) (λ '(st, h), st = RS_OK → (8 ≤ length h)%nat).
Proof.
  intros Hnb Hne. destruct (FirstContiguous_spec nb Hnb Hne) as (f & bufs & Hb & Hff & Hf & Hcf).
  unfold ReadHeader. rewrite Hff. cbn [obind]. apply fed_bind. eapply fed_mono; [apply DetermineHeaderSizeFast_fed|].
  assert (Hdet : ∀ h,
    fed (Ret (if EasyDetectHttp h then RS_OK else UnexpectedFormat, h)) (λ '(st, h), st = RS_OK → (8 ≤ length h)%nat)).
  { intros h. simpl. destruct (EasyDetectHttp h) eqn:E; [|done]. intros _. by apply EasyDetect_length. }
  intros [n|] _; [apply Hdet|].
  destruct (_ && _); [done|]. destruct (_ =? _); [by destruct (_ <? _)|].
  rewrite FlattenSlowUntil_effect by (done || (unfold npos; lia)). cbn [obind].
  destruct (negb _); [by destruct (_ <? _)|apply Hdet].
Qed.

Lemma TryParse_size_range s e n e' : TryParse_size s e = (Some n, e') → 0 ≤ n < 2 ^ 64.
Proof.
  unfold TryParse_size, TryParse_uint. destruct (_ <? _)%nat; [done|]. destruct (TryParseImpl _ _ _ _) as [o e1].
  unfold TryNarrowCast. destruct o as [v|]; [|done]. rewrite Z.gtb_ltb.
  destruct (Z.ltb_spec (2 ^ 64 - 1) v), (Z.ltb_spec v 0); try done. intros [= <- _]. lia.
Qed.

(** A message cannot be cut beyond the end of the buffer. *)
Lemma Cut_loop_over rc bufs n : size_of (concat bufs) < n → Cut_loop rc bufs n = Undef.
Proof.
  revert rc n. induction bufs as [|e bufs IH]; intros rc n Hn; cbn [Cut_loop concat] in *; rewrite ?length_app in Hn.
  - destruct (Z.eqb_spec n 0); [simpl in Hn; lia|done].
  - destruct (Z.eqb_spec n 0); [lia|]. destruct (Z.leb_spec (size_of e) n); [apply IH|]; lia.
Qed.

Lemma Cut_fed nb n Q :
  nb_inv nb → 0 ≤ n →
  (∀ rc nb', nb_inv nb' → contents nb' = drop (Z.to_nat n) (contents nb) → Q (rc, nb')) → fed (Cut nb n) Q.
Proof.
  intros Hnb Hn HQ. destruct (decide (n ≤ byte_size_ nb)) as [Hle|Hgt].
  - destruct (Cut_spec nb n Hnb ltac:(lia)) as (rc & nb' & -> & _ & Hnb' & _ & Hc). simpl. auto.
  - unfold Cut. rewrite Cut_loop_over; [done|]. pose proof (nbi_size _ Hnb) as Hs. unfold contents in Hs. lia.
Qed.

Lemma SkipSlow_loop_over bufs n : size_of (concat bufs) < n → SkipSlow_loop bufs n = Undef.
Proof.
  revert n. induction bufs as [|e bufs IH]; intros n Hn; cbn [SkipSlow_loop concat] in *; rewrite ?length_app in Hn.
  - destruct (Z.eqb_spec n 0); [simpl in Hn; lia|done].
  - destruct (Z.eqb_spec n 0); [lia|]. rewrite Z.min_r, Z.eqb_refl by lia. apply IH. lia.
Qed.

Lemma Skip_fed nb n Q :
  nb_inv nb → 0 ≤ n → (∀ nb', nb_inv nb' → contents nb' = drop (Z.to_nat n) (contents nb) → Q nb') → fed (Skip nb n) Q.
Proof.
  intros Hnb Hn HQ. pose proof (nbi_size _ Hnb) as Hs. destruct (decide (n ≤ byte_size_ nb)) as [Hle|Hgt].
  - destruct (Skip_spec nb n Hnb ltac:(lia)) as (nb' & -> & Hnb' & Hc). simpl. auto.
  - unfold Skip, SkipSlow. rewrite SkipSlow_loop_over by (unfold contents in Hs; lia).
    destruct (Z.eqb_spec n 0); [lia|]. apply fed_bind, fed_deref. intros f Hf.
    destruct (Z.ltb_spec n (size_of f)) as [Hlt|]; [|done]. destruct (buffers_ nb) eqn:E; [done|]. injection Hf as ->.
    unfold contents in Hs. rewrite E in Hs. cbn [concat] in Hs. rewrite length_app in Hs. lia.
Qed.

(** A header that was read before is not empty. *)
Definition header_fits (p : Http11Protocol) : Prop := ∀ h, parsed_header_block_ p = Some h → (8 ≤ length h)%nat.

(** What a try leaves: a shorter buffer when a message was cut, otherwise the
    same one. *)
Definition cut_progress (nb : NoncontiguousBuffer) (r : cut_result) : Prop :=
  match cut_status r with
  | Cut_OK => nb_inv (cut_buffer r) ∧ byte_size_ (cut_buffer r) < byte_size_ nb ∧
              parsed_header_block_ (cut_protocol r) = None ∧ is_Some (cut_message r)
  | _ => cut_buffer r = nb ∧ header_fits (cut_protocol r)
  end.

Lemma cut_header_fed p nb :
  nb_inv nb → contents nb ≠ [] → header_fits p →
  fed (cut_header p nb) (λ r, match r with inl st => st ≠ Cut_OK | inr h => (8 ≤ length h)%nat end).
Proof.
  intros Hnb Hne Hp. unfold cut_header. destruct (parsed_header_block_ p) as [h|] eqn:E; [by apply Hp|].
  apply fed_bind. eapply fed_mono; [by apply ReadHeader_fed|]. intros [st h] Hst. destruct st; try done.
  simpl. destruct (IsMessageClobbered h); [done|by apply Hst].
Qed.

Lemma TryCutMessage_fed p nb e :
  nb_inv nb → contents nb ≠ [] → header_fits p → fed (TryCutMessage p nb e) (cut_progress nb).
Proof.
  intros Hnb Hne Hp. unfold TryCutMessage. apply fed_bind. eapply fed_mono; [by apply cut_header_fed|].
  intros [st|h] Hh; [by destruct st|]. apply fed_bind, ReadField_fed. intros v.
  assert (Hfit : ∀ side, header_fits (mkProtocol side (Some h))) by (intros side h' [= <-]; done).
  destruct (TryParse_size v e) as [o e1] eqn:Eo.
  assert (Hn : ∀ n, o = Some n → 0 ≤ n) by (intros n ->; apply TryParse_size_range in Eo; lia).
  match goal with |- context [match ?x with (body_size, erange) => _ end] =>
    assert (Hx : ∀ n, x.1 = Some n → 0 ≤ n); [|destruct x as [[n|] e2]] end.
  { destruct o as [n|]; [intros ? [= <-]; by apply Hn|]. destruct (ExpectingContentLength h e1) as [[|] e2]; [done|]. intros ? [= <-]. lia. }
  2:{ split; [done|apply Hfit]. }
  specialize (Hx n eq_refl). destruct (_ <? _); [split; [done|apply Hfit]|].
  apply fed_bind, (Skip_fed nb (size_of h) _ Hnb ltac:(lia)). intros nb1 Hnb1 Hc1.
  apply fed_bind, (Cut_fed nb1 n _ Hnb1 Hx). intros rc nb2 Hnb2 Hc2. split_and!; [done| |done|by eexists].
  cbn [cut_buffer]. rewrite (nbi_size _ Hnb2), (nbi_size _ Hnb), Hc2, Hc1, !length_drop.
  pose proof (nbi_size _ Hnb) as Hs. assert (contents nb ≠ []) by done. destruct (contents nb); [done|]. simpl in *. lia.
Qed.

Section termination.
Context (block_size : Z) (admits : nat → bool).

Record conn_fits (c : Connection) : Prop := {
  cf_headers : Forall header_fits (protocols c);
  cf_last : ever_succeeded_cut_msg_ c = true → (last_protocol_ c < length (protocols c))%nat;
}.

Lemma cut_with_fed i c nb :
  nb_inv nb → contents nb ≠ [] → conn_fits c →
  fed (cut_with i c nb) (λ '(rc, c', nb', msg), conn_fits c' ∧ nb_inv nb' ∧ length (protocols c') = length (protocols c) ∧
    (i < length (protocols c))%nat ∧
    match rc with Cut_OK => byte_size_ nb' < byte_size_ nb | _ => nb' = nb end).
Proof.
  intros Hnb Hne [Hh Hl]. unfold cut_with. apply fed_bind, fed_deref. intros p Hp.
  assert (Hfit : header_fits p) by (rewrite Forall_lookup in Hh; eauto).
  apply fed_bind. eapply fed_mono; [by apply TryCutMessage_fed|]. intros r Hr. cbn [fed].
  assert (Hp' : header_fits (cut_protocol r)).
  { unfold cut_progress in Hr. destruct (cut_status r); try apply Hr. destruct Hr as (_ & _ & Hn & _). intros h. by rewrite Hn. }
  unfold cut_progress in Hr. split_and!.
  - split; simpl; [by apply Forall_insert|by rewrite length_insert].
  - destruct (cut_status r); [destruct Hr as [-> _]; done..|apply Hr].
  - simpl. by rewrite length_insert.
  - by apply lookup_lt_Some in Hp.
  - destruct (cut_status r); apply Hr.
Qed.

(** What a packet leaves. *)
Definition packet_progress (nb : NoncontiguousBuffer) (rc : PacketStatus) (c' : Connection) (nb' : NoncontiguousBuffer) : Prop :=
  conn_fits c' ∧ nb_inv nb' ∧ match rc with P_Success => byte_size_ nb' < byte_size_ nb | _ => rc ≠ P_SuppressRead ∧ nb' = nb end.

Lemma detect_fed n index more c nb :
  nb_inv nb → contents nb ≠ [] → conn_fits c →
  fed (detect n index more c nb) (λ '(rc, c', nb', _), packet_progress nb rc c' nb').
Proof.
  revert index more c. induction n as [|n IH]; intros index more c Hnb Hne Hc; cbn [detect].
  { split_and!; [done|done|]. destruct more; done. }
  apply fed_bind. eapply fed_mono; [by apply cut_with_fed|]. intros [[[rc c'] nb'] msg] (Hc' & Hnb' & Hlen & Hi & Hr).
  destruct rc; subst;
    try (by apply IH); try (by split_and!).
  apply fed_bind, fed_deref. intros m _. split_and!; [|done|done]. destruct Hc' as [Hh' _]. split; simpl; [done|lia].
Qed.

Lemma Conn_TryCutMessage_fed c nb :
  nb_inv nb → contents nb ≠ [] → conn_fits c →
  fed (Conn_TryCutMessage c nb) (λ '(rc, c', nb', _), packet_progress nb rc c' nb').
Proof.
  intros Hnb Hne Hc. unfold Conn_TryCutMessage. destruct (ever_succeeded_cut_msg_ c) eqn:E; [|by apply detect_fed].
  unfold TryCutMessageUsingLastProtocol. rewrite E. cbn [negb].
  destruct (negb _); [done|]. apply fed_bind, fed_bind. eapply fed_mono; [by apply cut_with_fed|].
  intros [[[rc c'] nb'] msg] (Hc' & Hnb' & Hlen & Hi & Hr).
  destruct rc; subst; cbn [fed];
    try (by apply detect_fed); try (by split_and!).
  apply fed_bind, fed_deref. intros m _. by split_and!.
Qed.

Lemma start_fiber_fits f c : conn_fits c → conn_fits (start_fiber admits f c).
Proof. intros [? ?]. unfold start_fiber. by destruct (admits (packets c)); split. Qed.

Lemma OnDataArrival_loop_fed fuel b c nb :
  nb_inv nb → conn_fits c → byte_size_ nb < Z.of_nat fuel →
  fed (OnDataArrival_loop block_size admits fuel b c nb) (λ '(st, c', nb'), conn_fits c' ∧ nb_inv nb' ∧ byte_size_ nb' ≤ byte_size_ nb).
Proof.
  revert b c nb. induction fuel as [|fuel IH]; intros b c nb Hnb Hc Hf; [pose proof (nbi_size _ Hnb); lia|].
  cbn [OnDataArrival_loop]. rewrite NB_Empty_spec by done. cbn [obind].
  case_bool_decide as Hne; [by split_and!|]. rewrite ProcessOnePacket_eq.
  apply fed_bind, fed_bind. eapply fed_mono; [by apply Conn_TryCutMessage_fed|].
  intros [[[rc c'] nb'] msg] (Hc' & Hnb' & Hr). destruct rc; cbn [fed].
  - apply fed_bind, fed_deref. intros f _. cbn [fed]. eapply fed_mono; [apply IH; [done|by apply start_fiber_fits|lia]|].
    intros [[st c2] nb2] (? & ? & ?). split_and!; [done|done|lia].
  - destruct Hr as [_ ->]. by split_and!.
  - destruct Hr as [_ ->]. by split_and!.
  - done.
Qed.

(** C8: whatever bytes have arrived, the loop that cuts messages off them comes
    to an end: every round that goes on has made the buffer shorter. *)
Theorem OnDataArrival_terminates c nb : nb_inv nb → conn_fits c → OnDataArrival block_size admits c nb ≠ Fuel.
Proof.
  intros Hnb Hc He. pose proof (nbi_size _ Hnb).
  assert (Hfed : fed (OnDataArrival block_size admits c nb) (λ _, True)).
  { eapply fed_mono; [apply OnDataArrival_loop_fed; [done|done|unfold ByteSize; lia]|done]. }
  by rewrite He in Hfed.
Qed.
End termination.

(** Bytes that are not HTTP at all. *)
Lemma OnDataArrival_terminates_witness :
  OnDataArrival kBufferSize (λ _, true) (Connection_new [mkProtocol true None]) (mkNB 12 [chars_of "hello, "; chars_of "world"]) ≠ Fuel.
Proof.
  apply (OnDataArrival_terminates kBufferSize (λ _, true)).
  - split; [reflexivity|apply (bool_decide_unpack _); vm_compute; exact I|vm_compute; reflexivity].
  - split; [apply Forall_singleton; intros h Hh; discriminate Hh|discriminate].
Defined.

(** ** Requests in a stream *)

Definition header_of (q : HttpRequest) : chars := message_block (request_line q) (fields_ (headers_ (req_msg q))).
Definition bytes_of (q : HttpRequest) : chars := header_of q ++ sent_body (req_msg q).

(** A request with a header that is not too long. *)
Definition servable (q : HttpRequest) : Prop :=
  request_ok q ∧ size_of (header_of q) ≤ FLAGS_flare_http_max_header_size.

(** A fiber for [q]. *)
Definition fiber_for (q : HttpRequest) (f : nat * OnWireMessage) : Prop :=
  f.1 = 0%nat ∧ header_block f.2 = header_of q ∧ nb_inv (wire_body f.2) ∧ contents (wire_body f.2) = sent_body (req_msg q).

(** The connection waits for the rest of the first of these requests, whose
    header may have been read already. *)
Record awaits (qs : list HttpRequest) (c : Connection) : Prop := {
  aw_protocols : ∃ st, protocols c = [mkProtocol true st] ∧
    (st = None ∨ ∃ q qs', qs = q :: qs' ∧ st = Some (header_of q));
  aw_last : last_protocol_ c = 0%nat;
  aw_errno : errno_ c = false;
}.

Section stream.
Context (block_size : Z) (admits : nat → bool).
Implicit Types (c : Connection) (qs : list HttpRequest).

(** The requests that are admitted, when the first one is packet number [n]. *)
Fixpoint admitted (n : nat) qs : list HttpRequest :=
  match qs with
  | [] => []
  | q :: qs' => (if admits n then [q] else []) ++ admitted (S n) qs'
  end.

Lemma admitted_app n qs1 qs2 : admitted n (qs1 ++ qs2) = admitted n qs1 ++ admitted (n + length qs1) qs2.
Proof.
  revert n. induction qs1 as [|q qs1 IH]; intros n; simpl; [by rewrite Nat.add_0_r|].
  rewrite IH, <-app_assoc. do 3 f_equal. lia.
Qed.

Lemma servable_block q : servable q → block_ok (request_line q) (fields_ (headers_ (req_msg q))) (size_of (sent_body (req_msg q))).
Proof. intros [Hq _]. by apply request_block_ok. Qed.

Lemma bytes_of_nonempty q : servable q → bytes_of q ≠ [].
Proof.
  intros Hq He. apply app_eq_nil in He as [He _]. pose proof (bo_detect _ _ _ (servable_block q Hq)) as Hd.
  apply EasyDetect_length in Hd. fold (header_of q) in Hd. rewrite He in Hd. simpl in Hd. lia.
Qed.

(** The connection after a message was cut. *)
Definition cut_conn c : Connection :=
  mkConn [mkProtocol true None] true 0 false (packets c) (fibers c) (ongoing_requests_ c) (written c) (closing c).

(** With one protocol, the connection does as the protocol does. *)
Lemma Conn_cut_with c nb st r :
  protocols c = [mkProtocol true st] → last_protocol_ c = 0%nat → errno_ c = false →
  TryCutMessage (mkProtocol true st) nb false = Ret r →
  Conn_TryCutMessage c nb =
  let c' e := mkConn [cut_protocol r] e 0 (cut_errno r) (packets c) (fibers c) (ongoing_requests_ c) (written c) (closing c) in
  match cut_status r with
  | Cut_OK => m ←! deref (cut_message r); Ret (P_Success, c' true, cut_buffer r, Some (0%nat, m))
  | NeedMore | NotIdentified => Ret (P_Saturated, c' (ever_succeeded_cut_msg_ c), cut_buffer r, None)
  | Cut_Error => Ret (P_Error, c' (ever_succeeded_cut_msg_ c), cut_buffer r, None)
  | ProtocolMismatch => Conn_TryCutMessage c nb
  end.
Proof.
  intros Hp Hlast Herr He.
  assert (Hcw : cut_with 0 c nb = Ret (cut_status r,
    mkConn [cut_protocol r] (ever_succeeded_cut_msg_ c) 0 (cut_errno r) (packets c) (fibers c) (ongoing_requests_ c) (written c) (closing c),
    cut_buffer r, cut_message r)).
  { unfold cut_with. rewrite Hp. cbn [lookup list_lookup deref obind]. by rewrite Herr, He, Hlast. }
  unfold Conn_TryCutMessage. destruct (ever_succeeded_cut_msg_ c) eqn:E.
  - unfold TryCutMessageUsingLastProtocol. rewrite E, Hlast, Hp. cbn [negb length Nat.ltb Nat.leb]. rewrite Hcw. cbn [obind].
    destruct (cut_status r); try done; by destruct (cut_message r).
  - rewrite Hp. cbn [length detect]. rewrite Hcw. cbn [obind]. destruct (cut_status r); try done; by destruct (cut_message r).
Qed.

Lemma Conn_cut_complete q qs c nb rest :
  servable q → awaits (q :: qs) c → nb_inv nb → contents nb = bytes_of q ++ rest →
  ∃ f nb', Conn_TryCutMessage c nb = Ret (P_Success, cut_conn c, nb', Some f) ∧ fiber_for q f ∧ nb_inv nb' ∧ contents nb' = rest.
Proof.
  intros Hq [(st & Hp & Hst) Hlast Herr] Hnb Hc. unfold bytes_of, header_of in *. rewrite <-app_assoc in Hc.
  assert (Hst' : header_state (request_line q) (fields_ (headers_ (req_msg q))) st).
  { destruct Hst as [->|(q' & qs' & [= <- <-] & ->)]; [by left|by right]. }
  destruct (TryCut_complete _ _ _ (servable_block q Hq) true st nb _ rest Hnb Hc eq_refl Hst')
    as (msg & nb' & He & Hmsg & Hnb' & Hcm & Hcr).
  exists (0%nat, mkOnWire (header_of q) msg), nb'. split; [|by split_and!].
  rewrite (Conn_cut_with c nb st _ Hp Hlast Herr He). cbn. by destruct (ever_succeeded_cut_msg_ c).
Qed.

Lemma Conn_cut_partial q qs c nb t :
  servable q → awaits (q :: qs) c → nb_inv nb → contents nb ≠ [] → bytes_of q = contents nb ++ t → t ≠ [] →
  ∃ c', Conn_TryCutMessage c nb = Ret (P_Saturated, c', nb, None) ∧ awaits (q :: qs) c' ∧
    packets c' = packets c ∧ fibers c' = fibers c ∧ ongoing_requests_ c' = ongoing_requests_ c ∧
    written c' = written c ∧ closing c' = closing c.
Proof.
  intros Hq [(st & Hp & Hst) Hlast Herr] Hnb Hne Hc Ht. unfold bytes_of, header_of in *.
  assert (Hst' : header_state (request_line q) (fields_ (headers_ (req_msg q))) st).
  { destruct Hst as [->|(q' & qs' & [= <- <-] & ->)]; [by left|by right]. }
  destruct (TryCut_partial _ _ _ (servable_block q Hq) true st nb _ t Hnb Hne Hc Ht eq_refl Hst' (proj2 Hq))
    as (status & st' & He & Hs & Hst'').
  assert (Haw : ∀ e, awaits (q :: qs) (mkConn [mkProtocol true st'] e 0 false (packets c) (fibers c) (ongoing_requests_ c) (written c) (closing c))).
  { intros e. split; try done. exists st'. split; [done|]. destruct Hst'' as [->| ->]; [by left|right; eauto]. }
  rewrite (Conn_cut_with c nb st _ Hp Hlast Herr He). cbn.
  destruct (ever_succeeded_cut_msg_ c), Hs as [->| ->]; (eexists; split; [done|]; split; [apply Haw|done]).
Qed.

Lemma app_cases {A} (a b x y : list A) :
  a ++ b = x ++ y → (∃ k, a = x ++ k ∧ y = k ++ b) ∨ (∃ k, k ≠ [] ∧ x = a ++ k ∧ b = k ++ y).
Proof.
  intros He. apply app_eq_inv in He as [(k & Ha & Hy)|(k & Hx & Hb)]; [left; eauto|].
  destruct k as [|z k]; [|right; by exists (z :: k)].
  rewrite app_nil_r in Hx. simpl in Hb. subst. left. exists []. by rewrite app_nil_r.
Qed.

(** What an arrival leads to, when [t] is still to come: the requests [d] have
    been cut off and [todo] are left. *)
Record arrived qs c (t : chars) (d todo : list HttpRequest) (c' : Connection) (nb' : NoncontiguousBuffer)
    (new : list (nat * OnWireMessage)) : Prop := {
  ar_split : qs = d ++ todo;
  ar_inv : nb_inv nb';
  ar_left : contents nb' ++ t = concat (bytes_of <$> todo);
  ar_part : contents nb' = [] ∨ ∃ q todo' t', todo = q :: todo' ∧ t' ≠ [] ∧ bytes_of q = contents nb' ++ t';
  ar_awaits : awaits todo c';
  ar_fibers : fibers c' = fibers c ++ new;
  ar_new : Forall2 fiber_for (admitted (packets c) d) new;
  ar_packets : packets c' = (packets c + length d)%nat;
  ar_ongoing : ongoing_requests_ c' = ongoing_requests_ c + Z.of_nat (length new);
  ar_rest : written c' = written c ∧ closing c' = closing c;
}.

Lemma start_fiber_arrived f q c :
  fiber_for q f → 0 ≤ ongoing_requests_ c → ongoing_requests_ c + 1 < 2 ^ 64 →
  ∃ new, fibers (start_fiber admits f c) = fibers c ++ new ∧ Forall2 fiber_for (if admits (packets c) then [q] else []) new ∧
    packets (start_fiber admits f c) = S (packets c) ∧
    ongoing_requests_ (start_fiber admits f c) = ongoing_requests_ c + Z.of_nat (length new) ∧
    protocols (start_fiber admits f c) = protocols c ∧ last_protocol_ (start_fiber admits f c) = last_protocol_ c ∧
    errno_ (start_fiber admits f c) = errno_ c ∧ written (start_fiber admits f c) = written c ∧
    closing (start_fiber admits f c) = closing c.
Proof.
  intros Hf H0 H1. unfold start_fiber. destruct (admits (packets c)).
  - exists [f]. split_and!; simpl; rewrite ?u64_small by lia; (done || (apply Forall2_cons; split; [exact Hf|apply Forall2_nil; done])).
  - exists []. rewrite app_nil_r. split_and!; simpl; (done || lia || by constructor).
Qed.

(** One round of the loop in front of the others. *)
Lemma arrived_cons q qs c c1 t d todo c' nb' new1 new :
  fibers c1 = fibers c ++ new1 → Forall2 fiber_for (if admits (packets c) then [q] else []) new1 →
  packets c1 = S (packets c) → ongoing_requests_ c1 = ongoing_requests_ c + Z.of_nat (length new1) →
  written c1 = written c → closing c1 = closing c →
  arrived qs c1 t d todo c' nb' new →
  arrived (q :: qs) c t (q :: d) todo c' nb' (new1 ++ new).
Proof.
  intros Hf Hn Hp Ho Hw Hcl [-> Hinv Hl Hpart Haw Hf' Hn' Hp' Ho' [Hw' Hcl']]. split; try done.
  - by rewrite Hf', Hf, app_assoc.
  - simpl. rewrite Hp in Hn'. by apply Forall2_app.
  - rewrite Hp', Hp. simpl. lia.
  - rewrite Ho', Ho, length_app. lia.
  - split; congruence.
Qed.

Lemma arrival fuel qs c nb t :
  Forall servable qs → awaits qs c → nb_inv nb → contents nb ++ t = concat (bytes_of <$> qs) →
  byte_size_ nb < Z.of_nat fuel → 0 ≤ ongoing_requests_ c → ongoing_requests_ c + Z.of_nat (length qs) < 2 ^ 64 →
  ∃ d todo c' nb' new, OnDataArrival_loop block_size admits fuel false c nb = Ret (D_Ready, c', nb') ∧ arrived qs c t d todo c' nb' new.
Proof.
  intros Hqs. revert fuel c nb. induction Hqs as [|q qs Hq Hqs IH]; intros fuel c nb Haw Hnb Hc Hfuel H0 H1.
  all: destruct fuel as [|fuel]; [pose proof (nbi_size _ Hnb); lia|]; cbn [OnDataArrival_loop];
    rewrite NB_Empty_spec by done; cbn [obind]; case_bool_decide as Hne.
  - exists [], [], c, nb, []. split; [done|]. split; simpl; rewrite ?app_nil_r; (done || lia || by left || by constructor).
  - simpl in Hc. by apply app_eq_nil in Hc as [? _].
  - exists [], (q :: qs), c, nb, []. split; [done|]. split; simpl; rewrite ?app_nil_r; (done || lia || by left || by constructor).
  - csimpl in Hc. apply app_cases in Hc as [(k & Hk & Hrest)|(k & Hk0 & Hk & Hrest)].
    + destruct (Conn_cut_complete q qs c nb k Hq Haw Hnb Hk) as (f & nb1 & Hcut & Hf & Hnb1 & Hc1).
      rewrite ProcessOnePacket_eq. rewrite Hcut. cbn [obind deref].
      destruct (start_fiber_arrived f q (cut_conn c) Hf) as (new1 & Hf1 & Hn1 & Hp1 & Ho1 & Hpr1 & Hla1 & He1 & Hw1 & Hcl1);
        [done|simpl in *; lia|].
      assert (length new1 ≤ 1)%nat by (apply Forall2_length in Hn1; destruct (admits _); simpl in *; lia).
      pose proof (bytes_of_nonempty q Hq) as Hb0. pose proof (nbi_size _ Hnb) as Hs. pose proof (nbi_size _ Hnb1) as Hs1.
      rewrite Hk, length_app in Hs. rewrite Hc1 in Hs1. assert (0 < length (bytes_of q))%nat by (destruct (bytes_of q); [done|simpl; lia]).
      destruct (IH fuel (start_fiber admits f (cut_conn c)) nb1) as (d & todo & c' & nb' & new & Hl & Har).
      * split; [exists None; rewrite Hpr1; eauto|by rewrite Hla1|by rewrite He1].
      * done.
      * by rewrite Hc1.
      * lia.
      * rewrite Ho1. simpl. lia.
      * rewrite Ho1. simpl in *. lia.
      * exists (q :: d), todo, c', nb', (new1 ++ new). split; [exact Hl|]. by eapply arrived_cons.
    + destruct (Conn_cut_partial q qs c nb k Hq Haw Hnb Hne Hk) as (c' & Hcut & Haw' & Hp & Hf & Ho & Hw & Hcl); [done|].
      rewrite ProcessOnePacket_eq. rewrite Hcut. cbn [obind]. exists [], (q :: qs), c', nb, []. split; [done|].
      split; cbn [length admitted app]; rewrite ?app_nil_r; try (done || lia || by constructor).
      * csimpl. by rewrite Hk, <-app_assoc, <-Hrest.
      * right. eauto 10.
Qed.

(** The bytes come in pieces, each of which is added to what was left. *)
Fixpoint feed_conn (chunks : list NoncontiguousBuffer) c (left_ : NoncontiguousBuffer) :
    outcome (DataConsumptionStatus * Connection * NoncontiguousBuffer) :=
  match chunks with
  | [] => Ret (D_Ready, c, left_)
  | chunk :: chunks' =>
      '(st, c', left') ←! OnDataArrival block_size admits c (Append_nb left_ chunk);
      match st with
      | D_Error => Ret (D_Error, c', left')
      | _ => feed_conn chunks' c' left'
      end
  end.

Lemma feed_conn_effect chunks qs c left_ new0 :
  Forall servable qs → Forall nb_inv chunks → awaits qs c → nb_inv left_ →
  contents left_ ++ concat (contents <$> chunks) = concat (bytes_of <$> qs) →
  size_of (concat (bytes_of <$> qs)) < 2 ^ 63 →
  ongoing_requests_ c = Z.of_nat (length (fibers c)) → ongoing_requests_ c + Z.of_nat (length qs) < 2 ^ 64 →
  fibers c = new0 → (contents left_ = [] ∨ ∃ q todo' t', qs = q :: todo' ∧ t' ≠ [] ∧ bytes_of q = contents left_ ++ t') →
  ∃ c' left' new, feed_conn chunks c left_ = Ret (D_Ready, c', left') ∧ contents left' = [] ∧ fibers c' = new0 ++ new ∧
    Forall2 fiber_for (admitted (packets c) qs) new ∧ ongoing_requests_ c' = Z.of_nat (length (fibers c')).
Proof.
  revert qs c left_ new0. induction chunks as [|chunk chunks IH]; intros qs c left_ new0 Hqs Hch Haw Hl Hc Hsz Ho Hb Hf Hpart.
  - simpl in Hc. rewrite app_nil_r in Hc. destruct qs as [|q qs].
    + exists c, left_, []. rewrite app_nil_r. split_and!; [done|by rewrite Hc|done|by constructor|done].
    + exfalso. csimpl in Hc. apply Forall_cons in Hqs as [Hq Hqs]. destruct Hpart as [He|(q' & todo' & t' & [= <- <-] & Ht & Hbq)].
      * rewrite He in Hc. symmetry in Hc. apply app_eq_nil in Hc as [Hc _]. by apply (bytes_of_nonempty q Hq).
      * rewrite Hbq, <-app_assoc in Hc. rewrite <-(app_nil_r (contents left_)) in Hc at 1. apply app_inv_head in Hc.
        symmetry in Hc. by apply app_eq_nil in Hc as [? _].
  - cbn [feed_conn]. apply Forall_cons in Hch as [Hch0 Hch]. csimpl in Hc.
    assert (Hlen := f_equal length Hc). rewrite !length_app in Hlen.
    pose proof (nbi_size _ Hl) as Hs1. pose proof (nbi_size _ Hch0) as Hs2.
    destruct (Append_nb_spec left_ chunk Hl Hch0 ltac:(lia)) as [Hnb Hcn].
    destruct (arrival (S (Z.to_nat (ByteSize (Append_nb left_ chunk)))) qs c (Append_nb left_ chunk) (concat (contents <$> chunks)))
      as (d & todo & c' & nb' & new & Hrun & [-> Hinv Hl' Hp' Haw' Hf' Hn' Hpk Ho' _]); try done.
    { by rewrite Hcn, <-app_assoc. }
    { unfold ByteSize. pose proof (nbi_size _ Hnb). lia. }
    { lia. }
    unfold OnDataArrival. rewrite Hrun. cbn [obind]. apply Forall_app in Hqs as [_ Hqs]. rewrite length_app in Hb.
    rewrite fmap_app, concat_app, length_app in Hsz.
    assert (length new ≤ length d)%nat.
    { apply Forall2_length in Hn'. rewrite <-Hn'. clear. generalize (packets c). induction d as [|q d IHd]; intros n; simpl; [lia|].
      specialize (IHd (S n)). destruct (admits n); simpl; lia. }
    destruct (IH todo c' nb' (new0 ++ new)) as (c2 & left2 & new2 & Hfeed & Hl2 & Hf2 & Hn2 & Ho2); try done.
    + lia.
    + rewrite Ho', Ho, Hf', length_app. lia.
    + rewrite Ho'. lia.
    + by rewrite Hf', Hf.
    + exists c2, left2, (new ++ new2). split_and!; [done|done|by rewrite Hf2, app_assoc| |done].
      rewrite admitted_app. rewrite Hpk in Hn2. by apply Forall2_app.
Qed.

(** C6: requests that are sent one after the other on a connection, and arrive in
    any pieces, are all cut off correctly: the requests that the server admits
    get a fiber each, in the order in which they were sent, and nothing is left
    over.  This is for HTTP requests as in [servable]: with a Content-Length that is
    that of the body, neither OPTIONS nor POST below /rpc/ or /__rpc_service__, and
    with a header of at most 8192 bytes. *)
Theorem connection_stream qs chunks :
  Forall servable qs → Forall nb_inv chunks → concat (contents <$> chunks) = concat (bytes_of <$> qs) →
  size_of (concat (bytes_of <$> qs)) < 2 ^ 63 → Z.of_nat (length qs) < 2 ^ 63 →
  ∃ c left_, feed_conn chunks (Connection_new [mkProtocol true None]) NB_empty = Ret (D_Ready, c, left_) ∧
    contents left_ = [] ∧ Forall2 fiber_for (admitted 0 qs) (fibers c) ∧ ongoing_requests_ c = Z.of_nat (length (fibers c)).
Proof.
  intros Hqs Hch Hc Hsz Hlen.
  destruct (feed_conn_effect chunks qs (Connection_new [mkProtocol true None]) NB_empty []) as (c & l & new & He & Hl & Hf & Hn & Ho);
    try done; [split; eauto|simpl; lia|by left|].
  exists c, l. rewrite Hf in *. done.
Qed.
End stream.

(** ** The fibers *)

Section fiber.
Context {G : Type} `{CompressorsSpec} (good : HttpRequest → Prop) (inv : G → Prop) (svc : Service G) (block_size : Z).
Context (Hsvc : service_promise good inv svc) (Hblock : 1024 ≤ block_size).

(** The response is not absurdly long. *)
Definition short_response (r : HttpResponse) : Prop :=
  size_of (message_block (response_line r) (fields_ (resp_headers r))) < 2 ^ 60 ∧ size_of (sent_body (resp_msg r)) < 2 ^ 62.

(** The connection after a fiber that wrote [ws] and may have asked to close it. *)
Definition after_fiber (i : nat) (ws : list NoncontiguousBuffer) (close : bool) (c c' : Connection) : Prop :=
  fibers c' = delete i (fibers c) ∧ ongoing_requests_ c' = Z.of_nat (length (fibers c')) ∧
  written c' = written c ++ ws ∧ closing c' = ((if close then 1 else 0) + closing c)%nat ∧ protocols c' = protocols c.

Lemma fiber_parses q f st :
  servable q → fiber_for q f → (∀ q', same_request q q' → good q') →
  ∃ q', TryParse (mkProtocol true st) f.2 false = Ret (Some (HttpRequestMessage q'), false) ∧ same_request q q' ∧ request_good good q'.
Proof.
  intros [Hq Hh] (Hf1 & Hf2 & Hf3 & Hf4) Hgood. destruct f as [i [hb bd]]. cbn [fst snd header_block wire_body] in *. subst i hb.
  change (TryParse (mkProtocol true st)) with (TryParse (mkProtocol true None)).
  unfold FLAGS_flare_http_max_header_size, header_of in *.
  destruct (parse_request_wf q bd Hq Hf3 Hf4 ltac:(lia)) as (q' & Hparse & Hsame & Hhd).
  exists q'. split; [done|]. split; [done|]. pose proof Hsame as (Hm & Hu & Hv & Hfs & Hb). split_and!; [split; [done|]|..].
  - rewrite Hfs. apply Hq.
  - rewrite Hv. apply Hq.
  - by apply Hgood.
Qed.

End fiber.

(** ** Examples *)

#[local] Instance no_compressors : Compressors := λ _, None.
#[local] Instance no_compressors_spec : CompressorsSpec.
Proof. split; intros e c; unfold MakeCompressor, no_compressors; discriminate. Qed.

Lemma sample_servable : servable sample_request.
Proof. split; [apply sample_request_ok|vm_compute; discriminate]. Qed.

Definition two_requests : chars := sample_bytes ++ sample_bytes.

(** Two requests in three pieces, the second of which the server refuses. *)
Lemma connection_stream_witness : ∃ c left_,
  feed_conn kBufferSize (λ n, bool_decide (n = 0%nat)) (wire <$> [take 30 two_requests; take 70 (drop 30 two_requests); drop 100 two_requests])
    (Connection_new [mkProtocol true None]) NB_empty = Ret (D_Ready, c, left_) ∧
  contents left_ = [] ∧ Forall2 fiber_for (admitted (λ n, bool_decide (n = 0%nat)) 0 [sample_request; sample_request]) (fibers c) ∧
  ongoing_requests_ c = Z.of_nat (length (fibers c)).
Proof.
  assert (Hlen : length two_requests = 160%nat) by (vm_compute; reflexivity).
  assert (Hw : ∀ s, (length s ≤ 160)%nat → nb_inv (wire s) ∧ contents (wire s) = s) by (intros s Hs; apply wire_inv; lia).
  apply (connection_stream kBufferSize (λ n, bool_decide (n = 0%nat)) [sample_request; sample_request]
           (wire <$> [take 30 two_requests; take 70 (drop 30 two_requests); drop 100 two_requests])).
  - repeat (apply Forall_cons; split; [apply sample_servable|]). apply Forall_nil. exact I.
  - cbn [fmap list_fmap]. repeat (apply Forall_cons; split; [apply Hw; rewrite ?length_take, ?length_drop; lia|]). apply Forall_nil. exact I.
  - cbn [fmap list_fmap]. rewrite !(λ s Hs, proj2 (Hw s Hs)) by (rewrite ?length_take, ?length_drop; lia). vm_compute. reflexivity.
  - vm_compute. reflexivity.
  - vm_compute. reflexivity.
Defined.

Definition sample_fiber : nat * OnWireMessage := (0%nat, mkOnWire (header_of sample_request) split_nb).

Definition sample_conn : Connection := mkConn [mkProtocol true None] true 0 false 1 [sample_fiber] 1 [] 0.


(** Two pipelined requests: the responses are written in the order in which the
    fibers finish, which need not be that of the requests. *)
Definition echo_uri : method_fn (G:=unit) := λ request response g,
  Ret (mkResponse (set_body_string (uri_ request) (resp_msg response)) HttpStatus_OK, g).

Definition echo_service : Service unit := SetDefaultHandler (Functor echo_uri) Service_new.

Definition pipelined : chars :=
  chars_of "GET /first HTTP/1.1" ++ CRLFCRLF ++ chars_of "GET /second HTTP/1.1" ++ CRLFCRLF.

Definition served (order : list nat) : outcome (list chars) :=
  '(_, c, _) ←! OnDataArrival kBufferSize (λ _, true) (Connection_new [mkProtocol true None]) (wire pipelined);
  c ←! foldl (λ m i, c ←! m; '(c', _) ←! run_fiber echo_service kBufferSize false i c tt; Ret c') (Ret c) order;
  Ret ((λ w, drop (length (contents w) - 7) (contents w)) <$> written c).

Example responses_out_of_order :
  served [0; 0]%nat = Ret [LF ++ chars_of "/first"; chars_of "/second"] ∧
  served [1; 0]%nat = Ret [chars_of "/second"; LF ++ chars_of "/first"].
Proof. split; vm_compute; reflexivity. Qed.
