(* ===== verification/StreamConnection.v ===== *)
(** * Stream connections: flare/io/native/stream_connection.{h,cc}, flare/io/detail/read_at_most.{h,cc}

    [NativeStreamConnection] is a descriptor ([Descriptor.v]) that gives what it
    reads from the socket to a handler and writes out the list of buffers
    ([WritingBufferList.v]).  The callbacks of the descriptor run in one fiber each
    and are functions here, on the part of the connection that they alone use; what
    they ask of the descriptor ([Kill], [RestartReadIn], [RestartWriteIn]) is logged
    in [asked].  The socket and the limiter of the rate are classes: the socket
    gives out a stream of bytes, in pieces of its choice.

    [OnReadable_contract] says what the descriptor may rely on; [requests_delivered]
    that the requests that a client sends come out as fibers of the server, whatever
    the pieces, the events and the reading limit are.  The writing side and the
    handshake are in [StreamWriter.v]. *)

From Stdlib Require Import Ascii.
From S2P Require Import Prelude Regex FlareString Buffer WritingBufferList Descriptor HttpHeaders HttpTypes HttpIo HttpIoProofs HttpService ConnHandler.

#[local] Open Scope Z_scope.

Definition kMaxBlocksPerRead : nat := 8.
Definition kMaximumBytesPerCall : Z := 1048576.
Definition SIZE_MAX : Z := 2 ^ 64 - 1.

(** What a call for input or output comes to. *)
Inductive io_result :=
| Io_bytes (data : chars)       (* none: the peer has closed the connection *)
| Io_again                      (* [EAGAIN] or [EWOULDBLOCK] *)
| Io_error.

(** [AbstractStreamIo], as far as it reads: [lens] are the lengths in the vector. *)
Class StreamIo (I : Type) := { ReadV : I → list Z → I * io_result }.

Definition total_len (lens : list Z) : Z := foldr Z.add 0 lens.

(** The documented behaviour: the bytes come in order and no more than asked for. *)
Class StreamIoSpec (I : Type) `{StreamIo I} := {
  incoming : I → chars;
  ReadV_spec io lens :
    match ReadV io lens with
    | (io', Io_bytes data) => (0 ≤ total_len lens → size_of data ≤ total_len lens) ∧ incoming io = data ++ incoming io'
    | (io', _) => incoming io' = incoming io
    end;
}.

Inductive ReadStatus := Drained | MaxBytesRead | PeerClosing | ReadError.

Inductive request := Ask_Kill (r : Descriptor.CleanupReason) | Ask_RestartRead (ms : Z) | Ask_RestartWrite (ms : Z).

Section read.
Context {I : Type} `{IO : StreamIo I} (block_size : Z).
Implicit Types (io : I) (to : NoncontiguousBuffer).

(** ** ReadAtMost *)

(** The loop that fills the vector; [n] blocks are left. *)
Fixpoint read_vector (n : nat) (max_bytes bytes_to_read : Z) : list Z :=
  match n with
  | O => []
  | S n' =>
      if bytes_to_read =? max_bytes then []
      else let len := Z.min block_size (max_bytes - bytes_to_read) in len :: read_vector n' max_bytes (bytes_to_read + len)
  end.

(** The loop that moves the used blocks to the buffer. *)
Fixpoint move_blocks (fuel : nat) (data : chars) to : outcome NoncontiguousBuffer :=
  match data with
  | [] => Ret to
  | _ =>
      match fuel with
      | O => Undef
      | S fuel' =>
          let len := Z.to_nat (Z.min (size_of data) block_size) in
          move_blocks fuel' (drop len data) (Append_block to (take len data))
      end
  end.

(** The blocks are taken from a cache with [kMaxBlocksPerRead] of them. *)
Definition ReadAtMostPartial (max_bytes : Z) io to : outcome (I * NoncontiguousBuffer * io_result * bool) :=
  let lens := read_vector kMaxBlocksPerRead max_bytes 0 in
  let bytes_to_read := total_len lens in
  let '(io', result) := ReadV io lens in
  match result with
  | Io_bytes ((_ :: _) as data) =>
      if size_of data <=? bytes_to_read then
        to' ←! move_blocks kMaxBlocksPerRead data to;
        Ret (io', to', result, negb (size_of data =? bytes_to_read))
      else Abort
  | _ => Ret (io', to, result, false)
  end.

Fixpoint ReadAtMost_loop (fuel : nat) (max_bytes bytes_left bytes_read : Z) io to : outcome (I * NoncontiguousBuffer * ReadStatus * Z) :=
  if bytes_left =? 0 then (if bytes_read =? max_bytes then Ret (io, to, MaxBytesRead, bytes_read) else Abort)
  else
    match fuel with
    | O => Fuel
    | S fuel' =>
        '(io', to', result, short_read) ←! ReadAtMostPartial bytes_left io to;
        match result with
        | Io_bytes [] => Ret (io', to', PeerClosing, bytes_read)
        | Io_again => Ret (io', to', Drained, bytes_read)
        | Io_error => Ret (io', to', ReadError, bytes_read)
        | Io_bytes data =>
            let read := size_of data in
            if read <=? bytes_left then
              if short_read : bool then (if read <? bytes_left then Ret (io', to', Drained, bytes_read + read) else Abort)
              else ReadAtMost_loop fuel' max_bytes (bytes_left - read) (bytes_read + read) io' to'
            else Abort
        end
    end.

Definition ReadAtMost (fuel : nat) (max_bytes : Z) io to := ReadAtMost_loop fuel max_bytes max_bytes 0 io to.

(** ** OnReadable *)

Context {U : Type} (OnDataArrival : U → NoncontiguousBuffer → outcome (DataConsumptionStatus * U * NoncontiguousBuffer)) (read_buffer_size : Z).

Record reader := mkReader {
  stream_io : I;
  handler : U;
  read_buffer_ : NoncontiguousBuffer;
  consumed : Z;                     (* told to the limiter of the rate *)
  asked : list request;
}.
Implicit Types (c : reader).

Definition ask (r : request) c : reader := mkReader (stream_io c) (handler c) (read_buffer_ c) (consumed c) (asked c ++ [r]).

(** The connection is killed. *)
Definition leave (r : Descriptor.CleanupReason) c : outcome (Descriptor.EventAction * reader) :=
  Ret (Descriptor.Leaving, ask (Ask_Kill r) c).

Definition ConsumeReadBuffer c : outcome (Descriptor.EventAction * reader) :=
  '(action, h, nb) ←! OnDataArrival (handler c) (read_buffer_ c);
  let c' := mkReader (stream_io c) h nb (consumed c) (asked c) in
  match action with
  | D_Ready => Ret (Descriptor.Ready, c')
  | D_Error => leave Descriptor.Error c'
  | D_SuppressRead => Ret (Descriptor.Suppress, c')
  end.

(** The user's handler, and the test whether the buffer is full. *)
Definition consume c : outcome (option Descriptor.EventAction * reader) :=
  '(rc, c') ←! (if ByteSize (read_buffer_ c) =? 0 then Ret (Descriptor.Ready, c) else ConsumeReadBuffer c);
  match rc with
  | Descriptor.Ready =>
      if read_buffer_size <=? ByteSize (read_buffer_ c') then '(rc', c'') ←! leave Descriptor.Error c'; Ret (Some rc', c'')
      else Ret (None, c')
  | _ => Ret (Some rc, c')
  end.

Fixpoint OnReadable_loop (fuel : nat) (bytes_left : Z) (rate_limited : bool) c : outcome (Descriptor.EventAction * reader) :=
  if bytes_left =? 0 then Ret (Descriptor.Suppress, ask (Ask_RestartRead 1) c)
  else
    match fuel with
    | O => Fuel
    | S fuel' =>
        let bytes_to_read := Z.min bytes_left (u64 (read_buffer_size - ByteSize (read_buffer_ c))) in
        '(io', nb', status, bytes_read) ←! ReadAtMost fuel' bytes_to_read (stream_io c) (read_buffer_ c);
        let left := bytes_left - bytes_read in
        let c1 := mkReader io' (handler c) nb' (consumed c + bytes_read) (asked c) in
        '(rc, c2) ←! (match status with ReadError => Ret (None, c1) | _ => consume c1 end);
        match rc with
        | Some action => Ret (action, c2)
        | None =>
            match status with
            | Drained => Ret (Descriptor.Ready, c2)
            | PeerClosing => leave Descriptor.Disconnect c2
            | ReadError => leave Descriptor.Error c2
            | MaxBytesRead =>
                if left =? 0 then (if rate_limited then Ret (Descriptor.Suppress, ask (Ask_RestartRead 1) c2) else Abort)
                else OnReadable_loop fuel' left rate_limited c2
            end
        end
    end.

(** After the handshake; [quota] is what the limiter of the rate grants. *)
Definition OnReadable (fuel : nat) (quota : Z) c : outcome (Descriptor.EventAction * reader) :=
  OnReadable_loop fuel quota (negb (quota =? SIZE_MAX)) c.
End read.

(** ** What is read *)

Section read_spec.
Context {I : Type} `{IO : StreamIo I} `{!StreamIoSpec I} (block_size : Z) (Hblock : 0 < block_size).
Implicit Types (io : I) (to : NoncontiguousBuffer).

Lemma read_vector_total n : ∀ max_bytes b, 0 ≤ b ≤ max_bytes →
  total_len (read_vector block_size n max_bytes b) = Z.min (max_bytes - b) (Z.of_nat n * block_size).
Proof.
  induction n as [|n IH]; intros max_bytes b Hb; cbn [read_vector]; [cbn; lia|].
  destruct (Z.eqb_spec b max_bytes) as [->|Hne]; [cbn; lia|]. cbn [total_len foldr]. fold (total_len (read_vector block_size n max_bytes (b + Z.min block_size (max_bytes - b)))).
  rewrite IH by lia. lia.
Qed.

Lemma move_blocks_spec fuel : ∀ data to, size_of data ≤ Z.of_nat fuel * block_size → nb_inv to → byte_size_ to + size_of data < 2 ^ 64 →
  ∃ to', move_blocks block_size fuel data to = Ret to' ∧ nb_inv to' ∧ contents to' = contents to ++ data.
Proof.
  induction fuel as [|fuel IH]; intros data to Hlen Hto Hsz; (destruct data as [|x data]; [exists to; by rewrite app_nil_r|]); [cbn in Hlen; lia|].
  cbn [move_blocks]. set (d := x :: data) in *. set (len := Z.to_nat (Z.min (size_of d) block_size)).
  assert (Hl : (len ≤ length d)%nat) by (unfold len; lia).
  destruct (Append_block_spec to (take len d) Hto) as [Hto' Hc']; [rewrite length_take; lia|].
  destruct (IH (drop len d) (Append_block to (take len d))) as (to' & -> & Hi & Hc).
  - rewrite length_drop. unfold len. lia.
  - done.
  - rewrite (nbi_size _ Hto'), Hc', length_app, length_take, length_drop. rewrite (nbi_size _ Hto) in Hsz. lia.
  - exists to'. split; [done|]. split; [done|]. by rewrite Hc, Hc', <-app_assoc, take_drop.
Qed.

(** What one call of [ReadV] leads to. *)
Definition read_some (max_bytes : Z) io to io' to' (r : io_result) (short_read : bool) : Prop :=
  nb_inv to' ∧
  match r with
  | Io_bytes data => size_of data ≤ max_bytes ∧ incoming io = data ++ incoming io' ∧ contents to' = contents to ++ data ∧
      (short_read = true → size_of data < max_bytes)
  | _ => incoming io' = incoming io ∧ contents to' = contents to
  end ∧ ReadV io (read_vector block_size kMaxBlocksPerRead max_bytes 0) = (io', r).

Lemma ReadAtMostPartial_spec max_bytes io to : 0 < max_bytes → nb_inv to → byte_size_ to + max_bytes < 2 ^ 64 →
  ∃ io' to' r sr, ReadAtMostPartial block_size max_bytes io to = Ret (io', to', r, sr) ∧ read_some max_bytes io to io' to' r sr.
Proof.
  intros Hm Hto Hsz. unfold ReadAtMostPartial, read_some. cbv zeta. set (lens := read_vector _ _ _ _).
  assert (Ht : total_len lens = Z.min max_bytes (Z.of_nat kMaxBlocksPerRead * block_size)) by (unfold lens; rewrite read_vector_total by lia; lia).
  pose proof (ReadV_spec io lens) as Hr. destruct (ReadV io lens) as [io' [[|x data]| |]] eqn:E.
  - eexists _, _, _, _. split; [done|]. split; [done|]. split; [|done]. destruct Hr as [_ Hr]. rewrite app_nil_r. cbn. split; [lia|]. by split; [|split].
  - destruct Hr as [Hl Hr]. specialize (Hl ltac:(lia)). rewrite (proj2 (Z.leb_le _ _) Hl).
    destruct (move_blocks_spec kMaxBlocksPerRead (x :: data) to) as (to' & -> & Hi & Hc); [lia|done|lia|]. cbn [obind].
    eexists _, _, _, _. split; [done|]. split; [done|]. split; [|done]. split; [lia|]. split; [done|]. split; [done|].
    destruct (Z.eqb_spec (size_of (x :: data)) (total_len lens)); [done|lia].
  - by eexists _, _, _, _.
  - by eexists _, _, _, _.
Qed.

(** What [ReadAtMost] leads to: [d] was read. *)
Definition read_all (max_bytes : Z) io to io' to' (st : ReadStatus) (d : chars) : Prop :=
  nb_inv to' ∧ incoming io = d ++ incoming io' ∧ contents to' = contents to ++ d ∧
  match st with MaxBytesRead => size_of d = max_bytes | _ => size_of d < max_bytes end ∧
  match st with
  | ReadError => ∃ io0 lens, ReadV io0 lens = (io', Io_error)
  | PeerClosing => ∃ io0 lens, ReadV io0 lens = (io', Io_bytes [])
  | _ => True
  end.

Lemma ReadAtMost_loop_spec fuel : ∀ max_bytes left bytes_read io to,
  (length (incoming io) < fuel)%nat → 0 ≤ left → bytes_read + left = max_bytes → nb_inv to → byte_size_ to + left < 2 ^ 64 →
  ∃ io' to' st d, ReadAtMost_loop block_size fuel max_bytes left bytes_read io to = Ret (io', to', st, bytes_read + size_of d) ∧
    read_all left io to io' to' st d.
Proof.
  induction fuel as [|fuel IH]; intros max_bytes left bytes_read io to Hfuel Hl Hmax Hto Hsz; [lia|]. cbn [ReadAtMost_loop].
  destruct (Z.eqb_spec left 0) as [->|Hne].
  { rewrite (proj2 (Z.eqb_eq _ _)) by lia. exists io, to, MaxBytesRead, []. cbn. split; [by rewrite Z.add_0_r|]. split; [done|]. by rewrite app_nil_r. }
  destruct (ReadAtMostPartial_spec left io to) as (io' & to' & r & sr & -> & Hto' & Hr & Hv); [lia|done|done|]. cbn [obind].
  destruct r as [data| |].
  2:{ exists io', to', Drained, []. destruct Hr as [Hi Hc]. cbn. rewrite Z.add_0_r. split; [done|]. split; [done|]. rewrite app_nil_r. split; [done|]. split; [done|]. split; [cbn; lia|done]. }
  2:{ exists io', to', ReadError, []. destruct Hr as [Hi Hc]. cbn. rewrite Z.add_0_r. split; [done|]. split; [done|]. rewrite app_nil_r. split; [done|]. split; [done|]. split; [cbn; lia|eauto]. }
  destruct Hr as (Hd & Hi & Hc & Hs). destruct data as [|x data].
  { exists io', to', PeerClosing, []. cbn. rewrite Z.add_0_r. split; [done|]. split; [done|]. split; [done|]. split; [done|]. split; [cbn; lia|eauto]. }
  rewrite (proj2 (Z.leb_le _ _) Hd). destruct sr.
  - rewrite (proj2 (Z.ltb_lt _ _)) by (by apply Hs). exists io', to', Drained, (x :: data). split; [done|]. split; [done|]. split; [done|]. split; [done|]. split; [by apply Hs|done].
  - assert (Hlen := f_equal length Hi). rewrite length_app in Hlen. cbn [length] in Hlen.
    destruct (IH max_bytes (left - size_of (x :: data)) (bytes_read + size_of (x :: data)) io' to') as (io2 & to2 & st & d & -> & Hto2 & Hi2 & Hc2 & Hst & Hlast); [lia|lia|lia|done| |].
    { rewrite (nbi_size _ Hto'), Hc, length_app. rewrite (nbi_size _ Hto) in Hsz. lia. }
    exists io2, to2, st, ((x :: data) ++ d). rewrite length_app. split; [do 2 f_equal; lia|]. split; [done|]. split; [by rewrite Hi, Hi2, app_assoc|].
    split; [by rewrite Hc2, Hc, app_assoc|]. split; [|done]. rewrite length_app. destruct st; lia.
Qed.

Lemma ReadAtMost_spec fuel max_bytes io to :
  (length (incoming io) < fuel)%nat → 0 ≤ max_bytes → nb_inv to → byte_size_ to + max_bytes < 2 ^ 64 →
  ∃ io' to' st d, ReadAtMost block_size fuel max_bytes io to = Ret (io', to', st, size_of d) ∧ read_all max_bytes io to io' to' st d.
Proof. intros Hf Hm Hto Hsz. by apply (ReadAtMost_loop_spec fuel max_bytes max_bytes 0). Qed.
End read_spec.

(** ** What [OnReadable] does *)

Section readable.
Context {I : Type} `{IO : StreamIo I} `{!StreamIoSpec I} (block_size : Z) (Hblock : 0 < block_size).
Context {U : Type} (OnDataArrival : U → NoncontiguousBuffer → outcome (DataConsumptionStatus * U * NoncontiguousBuffer)).
Context (read_buffer_size : Z) (Hsize : 0 < read_buffer_size < 2 ^ 64).

(** What holds of the handler, the bytes in the buffer and the bytes to come, before
    and after the handler is called. *)
Context (pre post : U → chars → chars → Prop).
Context (Hread : ∀ h b d t, post h b (d ++ t) → pre h (b ++ d) t) (Hempty : ∀ h t, pre h [] t → post h [] t).
Context (Hhandler : ∀ h nb t, pre h (contents nb) t → nb_inv nb → contents nb ≠ [] →
  ∃ st h' nb', OnDataArrival h nb = Ret (st, h', nb') ∧ nb_inv nb' ∧ byte_size_ nb' ≤ byte_size_ nb ∧ post h' (contents nb') t).
Implicit Types (c : reader (I := I) (U := U)).

Definition after c (P : U → chars → chars → Prop) : Prop := P (handler c) (contents (read_buffer_ c)) (incoming (stream_io c)).

Definition handler_says (st : DataConsumptionStatus) (t : chars) : Prop :=
  ∃ h nb h' nb', pre h (contents nb) t ∧ nb_inv nb ∧ contents nb ≠ [] ∧ OnDataArrival h nb = Ret (st, h', nb').

(** Why a connection is killed. *)
Definition broken c : Prop :=
  handler_says D_Error (incoming (stream_io c)) ∨ after c post ∧ read_buffer_size ≤ byte_size_ (read_buffer_ c) ∨ ∃ io lens, ReadV io lens = (stream_io c, Io_error).
Definition closed c : Prop := after c post ∧ ∃ io lens, ReadV io lens = (stream_io c, Io_bytes []).

(** What [OnReadable] may have done when it returns. *)
Definition action_ok c (a : Descriptor.EventAction) c' : Prop :=
  match a with
  | Descriptor.Ready => asked c' = asked c ∧ after c' post ∧ byte_size_ (read_buffer_ c') < read_buffer_size
  | Descriptor.Suppress => after c' post ∧
      (asked c' = asked c ++ [Ask_RestartRead 1] ∧ byte_size_ (read_buffer_ c') < read_buffer_size
       ∨ asked c' = asked c ∧ handler_says D_SuppressRead (incoming (stream_io c')))
  | Descriptor.Leaving =>
      asked c' = asked c ++ [Ask_Kill Descriptor.Error] ∧ broken c' ∨ asked c' = asked c ++ [Ask_Kill Descriptor.Disconnect] ∧ closed c'
  end.

Lemma consume_spec c : nb_inv (read_buffer_ c) → byte_size_ (read_buffer_ c) ≤ read_buffer_size → after c pre →
  ∃ rc c', consume OnDataArrival read_buffer_size c = Ret (rc, c') ∧ stream_io c' = stream_io c ∧ consumed c' = consumed c ∧ nb_inv (read_buffer_ c') ∧
    match rc with
    | None => asked c' = asked c ∧ after c' post ∧ byte_size_ (read_buffer_ c') < read_buffer_size
    | Some Descriptor.Ready => False
    | Some a => action_ok c a c'
    end.
Proof.
  intros Hnb Hle Hpre. unfold consume, ByteSize. pose proof (nbi_size _ Hnb) as Hs. destruct (Z.eqb_spec (byte_size_ (read_buffer_ c)) 0) as [E|E].
  - cbn [obind]. unfold ByteSize. rewrite E, (proj2 (Z.leb_gt _ _)) by lia. eexists None, c. split; [done|]. split; [done|]. split; [done|]. split; [done|].
    split; [done|]. split; [|lia]. unfold after in *. assert (contents (read_buffer_ c) = []) as Hc by (apply nil_length_inv; lia). rewrite Hc in *. by apply Hempty.
  - assert (contents (read_buffer_ c) ≠ []) as Hne by (intros Hc; rewrite Hc in Hs; cbn in Hs; lia).
    destruct (Hhandler _ _ _ Hpre Hnb Hne) as (st & h' & nb' & Hr & Hnb' & Hle' & Hpost). unfold ConsumeReadBuffer. rewrite Hr. cbn [obind].
    assert (handler_says st (incoming (stream_io c))) as Hsays by (by eexists _, _, _, _).
    destruct st; cbn [obind leave].
    + unfold ByteSize. cbn [read_buffer_]. destruct (Z.leb_spec read_buffer_size (byte_size_ nb')); cbn [obind leave]; (eexists _, _; split; [done|]; split; [done|]; split; [done|]; split; [done|]); cbn.
      * left. split; [done|]. right. left. by split.
      * by split.
    + eexists _, _. split; [done|]. split; [done|]. split; [done|]. split; [done|]. cbn. split; [done|]. by right.
    + eexists _, _. split; [done|]. split; [done|]. split; [done|]. split; [done|]. cbn. left. split; [done|]. by left.
Qed.

Lemma action_ok_asked c c1 a c' : asked c1 = asked c → action_ok c1 a c' → action_ok c a c'.
Proof. intros Ha. unfold action_ok. by rewrite Ha. Qed.

(** One round: [d] is read and the handler is called. *)
Lemma read_round fuel left c :
  (length (incoming (stream_io c)) < fuel)%nat → 0 ≤ left < 2 ^ 64 → nb_inv (read_buffer_ c) → byte_size_ (read_buffer_ c) < read_buffer_size → after c post →
  let n := Z.min left (u64 (read_buffer_size - ByteSize (read_buffer_ c))) in
  ∃ io' nb' st d rc c2, ReadAtMost block_size fuel n (stream_io c) (read_buffer_ c) = Ret (io', nb', st, size_of d) ∧
    (match st with
     | ReadError => Ret (None, mkReader io' (handler c) nb' (consumed c + size_of d) (asked c))
     | _ => consume OnDataArrival read_buffer_size (mkReader io' (handler c) nb' (consumed c + size_of d) (asked c))
     end) = Ret (rc, c2) ∧
    nb_inv (read_buffer_ c2) ∧ incoming (stream_io c) = d ++ incoming (stream_io c2) ∧ consumed c2 = consumed c + size_of d ∧ size_of d ≤ n ∧
    (st = MaxBytesRead → size_of d = n ∧ (left ≠ 0 → d ≠ [])) ∧
    match rc with
    | Some Descriptor.Ready => False
    | Some a => action_ok c a c2
    | None => asked c2 = asked c ∧ (st ≠ ReadError → after c2 post ∧ byte_size_ (read_buffer_ c2) < read_buffer_size) ∧
        match st with
        | ReadError => ∃ io lens, ReadV io lens = (stream_io c2, Io_error)
        | PeerClosing => ∃ io lens, ReadV io lens = (stream_io c2, Io_bytes [])
        | _ => True
        end
    end.
Proof.
  intros Hfuel Hl Hnb Hlt Hpost n. assert (Hn : n = Z.min left (read_buffer_size - byte_size_ (read_buffer_ c))).
  { unfold n, ByteSize. pose proof (nbi_size _ Hnb). by rewrite u64_small by lia. }
  destruct (ReadAtMost_spec block_size Hblock fuel n (stream_io c) (read_buffer_ c)) as (io' & nb' & st & d & E & Hnb' & Hi & Hc & Hdn & Hev); [done|lia|done|lia|].
  pose proof (nbi_size _ Hnb) as Hs. pose proof (nbi_size _ Hnb') as Hs'. rewrite Hc, length_app in Hs'.
  set (c1 := mkReader io' (handler c) nb' (consumed c + size_of d) (asked c)).
  assert (Hpre : after c1 pre). { unfold after, c1. cbn. rewrite Hc. apply Hread. unfold after in Hpost. by rewrite <-Hi. }
  destruct (consume_spec c1) as (rc & c2 & E2 & H1 & H2 & H3 & H4); [done|cbn; destruct st; lia|done|].
  assert (Hmax : st = MaxBytesRead → size_of d = n ∧ (left ≠ 0 → d ≠ [])).
  { intros ->. split; [done|]. intros Hne ->. cbn in Hdn. lia. }
  exists io', nb', st, d. destruct st.
  4:{ exists None, c1. split; [done|]. split; [done|]. split; [done|]. split; [done|]. split; [done|]. split; [lia|]. by split. }
  all: exists rc, c2; split; [exact E|]; split; [exact E2|]; rewrite H1; split; [done|]; split; [done|]; split; [done|]; split; [lia|]; split; [done|];
    destruct rc as [[]|]; try done; (destruct H4 as (? & ? & ?); by repeat split).
Qed.

Lemma OnReadable_loop_spec fuel : ∀ left rate_limited c,
  (length (incoming (stream_io c)) + 2 ≤ fuel)%nat → 0 ≤ left < 2 ^ 64 → (rate_limited = false → size_of (incoming (stream_io c)) < left) →
  nb_inv (read_buffer_ c) → byte_size_ (read_buffer_ c) < read_buffer_size → after c post →
  ∃ a c' d, OnReadable_loop block_size OnDataArrival read_buffer_size fuel left rate_limited c = Ret (a, c') ∧ action_ok c a c' ∧
    nb_inv (read_buffer_ c') ∧ incoming (stream_io c) = d ++ incoming (stream_io c') ∧ consumed c' = consumed c + size_of d ∧ size_of d ≤ left.
Proof.
  induction fuel as [|fuel IH]; intros left rl c Hfuel Hl Hrl Hnb Hlt Hpost; [lia|]. cbn [OnReadable_loop]. destruct (Z.eqb_spec left 0) as [->|Hne].
  { eexists _, _, []. split; [done|]. split; [split; [done|by left]|]. split; [done|]. split; [done|]. cbn. split; [lia|done]. }
  destruct (read_round fuel left c) as (io' & nb' & st & d & rc & c2 & -> & E & Hnb2 & Hi & Hco & Hdn & Hmax & Hrc); [lia|done..|]. cbn [obind].
  rewrite E. cbn [obind]. destruct rc as [a|]; [exists a, c2, d; split; [done|]; split; [by destruct a|]; split; [done|]; split; [done|]; split; [done|lia]|].
  destruct Hrc as (Ha & Hp & Hev). destruct st.
  - exists Descriptor.Ready, c2, d. split; [done|]. split; [split; [done|by apply Hp]|]. split; [done|]. split; [done|]. split; [done|lia].
  - destruct (Hmax eq_refl) as [Hd Hdne]. specialize (Hdne Hne). destruct (Hp ltac:(done)) as [Hp2 Hlt2].
    assert (Hlen := f_equal length Hi). rewrite length_app in Hlen. assert (0 < length d)%nat by (destruct d; [done|cbn; lia]).
    destruct (Z.eqb_spec (left - size_of d) 0) as [E0|E0].
    + destruct rl; [|specialize (Hrl eq_refl); lia].
      eexists _, _, d. split; [done|]. split; [split; [done|left; cbn; by rewrite Ha]|]. split; [done|]. split; [done|]. split; [done|lia].
    + destruct (IH (left - size_of d) rl c2) as (a & c' & d' & -> & Hok & Hnb' & Hi' & Hco' & Hd'); [lia|lia|intros Hr; specialize (Hrl Hr); lia|done..|].
      exists a, c', (d ++ d'). split; [done|]. split; [by eapply action_ok_asked|]. split; [done|]. rewrite length_app. split; [by rewrite Hi, Hi', app_assoc|]. split; lia.
  - eexists _, _, d. split; [done|]. split; [right; cbn; rewrite Ha; split; [done|]; split; [by apply Hp|done]|]. split; [done|]. split; [done|]. split; [done|lia].
  - eexists _, _, d. split; [done|]. split; [left; cbn; rewrite Ha; split; [done|]; right; by right|]. split; [done|]. split; [done|]. split; [done|lia].
Qed.
End readable.

(** C29: What the descriptor may rely on: for any socket and any handler that takes bytes
    off the front of the buffer, [OnReadable] returns, no check of it fails, it reads
    the next bytes of the stream in order, no more than the limiter grants, and tells
    the limiter how many they were.  It returns [Leaving] only after it has asked to
    kill the connection, [Suppress] only after it has asked for a restart or if the
    handler wants so, and the buffer of a connection that is not left has room. *)
Theorem OnReadable_contract {I U : Type} `{IO : StreamIo I} `{!StreamIoSpec I} (block_size read_buffer_size : Z)
    (OnDataArrival : U → NoncontiguousBuffer → outcome (DataConsumptionStatus * U * NoncontiguousBuffer)) (good : U → Prop) fuel quota (c : reader (I := I)) :
  0 < block_size → 0 < read_buffer_size < 2 ^ 64 →
  (∀ h nb, good h → nb_inv nb → contents nb ≠ [] →
     ∃ st h' nb', OnDataArrival h nb = Ret (st, h', nb') ∧ nb_inv nb' ∧ byte_size_ nb' ≤ byte_size_ nb ∧ good h') →
  good (handler c) → nb_inv (read_buffer_ c) → byte_size_ (read_buffer_ c) < read_buffer_size →
  0 ≤ quota ≤ SIZE_MAX → size_of (incoming (stream_io c)) < SIZE_MAX → (length (incoming (stream_io c)) + 2 ≤ fuel)%nat →
  ∃ a c' d, OnReadable block_size OnDataArrival read_buffer_size fuel quota c = Ret (a, c') ∧
    incoming (stream_io c) = d ++ incoming (stream_io c') ∧ consumed c' = consumed c + size_of d ∧ size_of d ≤ quota ∧
    match a with
    | Descriptor.Ready => asked c' = asked c ∧ byte_size_ (read_buffer_ c') < read_buffer_size
    | Descriptor.Suppress => asked c' = asked c ++ [Ask_RestartRead 1] ∧ byte_size_ (read_buffer_ c') < read_buffer_size
        ∨ asked c' = asked c ∧ ∃ h nb h' nb', OnDataArrival h nb = Ret (D_SuppressRead, h', nb')
    | Descriptor.Leaving => ∃ r, asked c' = asked c ++ [Ask_Kill r] ∧ r ≠ Descriptor.NoReason
    end.
Proof.
  intros Hb Hs Hh Hg Hnb Hlt Hq Hi Hf. set (P := λ h (_ _ : chars), good h).
  destruct (OnReadable_loop_spec block_size Hb OnDataArrival read_buffer_size Hs P P) with (fuel := fuel) (left := quota) (rate_limited := negb (quota =? SIZE_MAX)) (c := c)
    as (a & c' & d & E & Hok & Hnb' & Hin & Hco & Hd); try done.
  - intros h nb t Hp Hnb0 Hne. destruct (Hh h nb Hp Hnb0 Hne) as (st & h' & nb' & ? & ? & ? & ?). by exists st, h', nb'.
  - unfold SIZE_MAX in *. lia.
  - destruct (Z.eqb_spec quota SIZE_MAX) as [->|]; [done|done].
  - exists a, c', d. split; [done|]. split; [done|]. split; [done|]. split; [done|]. destruct a; cbn in Hok.
    + by destruct Hok as (? & _ & ?).
    + destruct Hok as [[? _]|[? _]]; by eexists.
    + destruct Hok as (_ & [?|[? (h & nb & h' & nb' & _ & _ & _ & ?)]]); [by left|right; split; [done|by exists h, nb, h', nb']].
Qed.

(** ** From the socket to the fibers *)

Section delivery.
Context {I : Type} `{IO : StreamIo I} `{!StreamIoSpec I} (block_size : Z) (Hblock : 0 < block_size).
Context (read_buffer_size : Z) (Hsize : 0 < read_buffer_size < 2 ^ 64) (admits : nat → bool) (qs : list HttpRequest).
Context (Hqs : Forall servable qs) (Hfit : Forall (λ q, size_of (bytes_of q) ≤ read_buffer_size) qs) (Hmany : Z.of_nat (length qs) < 2 ^ 63).

(** The requests [done_] are under way, the bytes of [todo] are in the buffer or still
    to come. *)
Definition underway (h : Connection) (b t : chars) (done_ todo : list HttpRequest) : Prop :=
  qs = done_ ++ todo ∧ b ++ t = concat (bytes_of <$> todo) ∧ awaits todo h ∧ Forall2 fiber_for (admitted admits 0 done_) (fibers h) ∧
  packets h = length done_ ∧ ongoing_requests_ h = Z.of_nat (length (fibers h)).

(** The buffer does not have the whole of the next request. *)
Definition partial (b : chars) (todo : list HttpRequest) : Prop :=
  b = [] ∨ ∃ q todo' t', todo = q :: todo' ∧ t' ≠ [] ∧ bytes_of q = b ++ t'.

Definition before (h : Connection) (b t : chars) : Prop := ∃ done_ todo, underway h b t done_ todo.
Definition settled (h : Connection) (b t : chars) : Prop := ∃ done_ todo, underway h b t done_ todo ∧ partial b todo.

Lemma admitted_length n l : (length (admitted admits n l) ≤ length l)%nat.
Proof. revert n. induction l as [|q l IH]; intros n; cbn; [lia|]. specialize (IH (S n)). destruct (admits n); cbn; lia. Qed.

Lemma handler_settles h nb t : before h (contents nb) t → nb_inv nb → contents nb ≠ [] →
  ∃ h' nb', OnDataArrival block_size admits h nb = Ret (D_Ready, h', nb') ∧ nb_inv nb' ∧ byte_size_ nb' ≤ byte_size_ nb ∧ settled h' (contents nb') t.
Proof.
  intros (dn & todo & Hq & Hb & Haw & Hf & Hp & Ho) Hnb _. pose proof Hqs as Hqs'. rewrite Hq in Hqs'. apply Forall_app in Hqs' as [_ Htodo].
  pose proof (f_equal length Hq) as Hlen. rewrite length_app in Hlen.
  assert (length (fibers h) ≤ length dn)%nat by (rewrite <-(Forall2_length _ _ _ Hf); apply admitted_length).
  destruct (arrival block_size admits (S (Z.to_nat (ByteSize nb))) todo h nb t) as (d & todo' & h' & nb' & new & Hrun & [-> Hinv Hl Hpart Haw' Hf' Hn Hpk Ho' _]); try done.
  { unfold ByteSize. pose proof (nbi_size _ Hnb). lia. }
  { rewrite Ho. lia. }
  { rewrite Ho. lia. }
  exists h', nb'. split; [exact Hrun|]. split; [done|]. split.
  - rewrite (nbi_size _ Hinv), (nbi_size _ Hnb). rewrite fmap_app, concat_app, <-Hl in Hb. apply (f_equal length) in Hb. rewrite !length_app in Hb. lia.
  - exists (dn ++ d), todo'. split; [|done]. split; [by rewrite <-app_assoc|]. split; [done|]. split; [done|]. rewrite Hf', !length_app, Hpk, Hp, Ho', Ho.
    split; [|lia]. rewrite admitted_app. rewrite Hp in Hn. cbn. by apply Forall2_app.
Qed.

Lemma settled_room h nb t : nb_inv nb → settled h (contents nb) t → byte_size_ nb < read_buffer_size.
Proof.
  intros Hnb (dn & todo & (Hq & _) & [Hb|(q & todo' & t' & -> & Ht & Hb)]); rewrite (nbi_size _ Hnb); [rewrite Hb; cbn; lia|].
  rewrite Hq in Hfit. apply Forall_app in Hfit as [_ [Hfq _]%Forall_cons]. rewrite Hb, length_app in Hfq. destruct t'; [done|]. cbn in Hfq. lia.
Qed.

Lemma settled_all h nb : settled h (contents nb) [] → Forall2 fiber_for (admitted admits 0 qs) (fibers h).
Proof.
  intros (dn & todo & (Hq & Hb & _ & Hf & _) & Hp). rewrite app_nil_r in Hb. assert (todo = []) as ->; [|by rewrite app_nil_r in Hq; subst].
  pose proof Hqs as Hqs'. rewrite Hq in Hqs'. apply Forall_app in Hqs' as [_ Htodo]. destruct Hp as [Hb0|(q & todo' & t' & -> & Ht & Hbq)].
  - destruct todo as [|q todo]; [done|]. rewrite Hb0 in Hb. symmetry in Hb. csimpl in Hb. apply app_eq_nil in Hb as [Hb _].
    apply Forall_cons in Htodo as [Hsq _]. by destruct (bytes_of_nonempty q Hsq).
  - exfalso. csimpl in Hb. rewrite Hbq, <-app_assoc in Hb. apply (f_equal length) in Hb. rewrite !length_app in Hb. destruct t'; [done|cbn in Hb; lia].
Qed.

(** The socket does not fail, and is closed only at the end of the stream. *)
Definition healthy : Prop :=
  ∀ io lens, snd (ReadV io lens) ≠ Io_error ∧ (snd (ReadV io lens) = Io_bytes [] → incoming io = []).

(** The events of the descriptor, one after the other; [quotas] is what the limiter
    grants. *)
Fixpoint readable_events (fuel : nat) (quotas : list Z) (c : reader (I := I) (U := Connection)) : outcome reader :=
  match quotas with
  | [] => Ret c
  | quota :: quotas' =>
      '(a, c') ←! OnReadable block_size (OnDataArrival block_size admits) read_buffer_size fuel quota c;
      match a with Descriptor.Leaving => Ret c' | _ => readable_events fuel quotas' c' end
  end.

(** Killed only at the end of the stream. *)
Definition orderly (c : reader (I := I) (U := Connection)) : Prop :=
  ∀ r, Ask_Kill r ∈ asked c → r = Descriptor.Disconnect ∧ incoming (stream_io c) = [].

Lemma readable_event fuel quota c :
  healthy → nb_inv (read_buffer_ c) → after c settled → (∀ r, Ask_Kill r ∉ asked c) →
  0 ≤ quota ≤ SIZE_MAX → size_of (incoming (stream_io c)) < SIZE_MAX → (length (incoming (stream_io c)) + 2 ≤ fuel)%nat →
  ∃ a c', OnReadable block_size (OnDataArrival block_size admits) read_buffer_size fuel quota c = Ret (a, c') ∧
    nb_inv (read_buffer_ c') ∧ after c' settled ∧ orderly c' ∧ (length (incoming (stream_io c')) ≤ length (incoming (stream_io c)))%nat ∧
    (a ≠ Descriptor.Leaving → ∀ r, Ask_Kill r ∉ asked c').
Proof.
  intros Hh Hnb Hset Hask Hq Hi Hf.
  destruct (OnReadable_loop_spec block_size Hblock (OnDataArrival block_size admits) read_buffer_size Hsize before settled) with
    (fuel := fuel) (left := quota) (rate_limited := negb (quota =? SIZE_MAX)) (c := c) as (a & c' & d & E & Hok & Hnb' & Hin & _ & _); try done.
  - intros h b d t (dn & todo & (H1 & H2 & H3) & _). exists dn, todo. split; [done|]. by rewrite <-app_assoc.
  - intros h t (dn & todo & Hu). exists dn, todo. split; [done|]. by left.
  - intros h nb t Hp Hn Hne. destruct (handler_settles h nb t Hp Hn Hne) as (h' & nb' & ? & ? & ? & ?). by exists D_Ready, h', nb'.
  - unfold SIZE_MAX in *. lia.
  - by destruct (Z.eqb_spec quota SIZE_MAX) as [->|].
  - by eapply settled_room.
  - exists a, c'. split; [done|]. split; [done|].
    assert (Hle : (length (incoming (stream_io c')) ≤ length (incoming (stream_io c)))%nat) by (rewrite Hin, length_app; lia).
    assert (Hsays : ∀ st t, handler_says (OnDataArrival block_size admits) before st t → st = D_Ready).
    { intros st t (h & nb & h' & nb' & Hp & Hn & Hne & Hr). destruct (handler_settles h nb t Hp Hn Hne) as (? & ? & Hr' & _). congruence. }
    destruct a; cbn in Hok.
    + destruct Hok as (Ha & Hs & _). split; [done|]. split; [by intros r Hr; rewrite Ha in Hr; destruct (Hask r)|]. split; [done|]. intros _ r. by rewrite Ha.
    + destruct Hok as [[Ha [Hs|[[Hs Hov]|(io & lens & Hr)]]]|[Ha [Hs (io & lens & Hr)]]].
      * by apply Hsays in Hs.
      * pose proof (settled_room _ _ _ Hnb' Hs). lia.
      * destruct (Hh io lens) as [He _]. by rewrite Hr in He.
      * split; [done|]. destruct (Hh io lens) as [_ Hc]. rewrite Hr in Hc. specialize (Hc eq_refl). pose proof (ReadV_spec io lens) as Hsp. rewrite Hr in Hsp.
        destruct Hsp as [_ Hsp]. rewrite Hc in Hsp. cbn in Hsp. split; [|done]. intros r Hin'. rewrite Ha in Hin'.
        apply elem_of_app in Hin' as [?|[= ->]%list_elem_of_singleton]; [by destruct (Hask r)|done].
    + destruct Hok as (Hs & [[Ha _]|[_ Hr]]); [|by apply Hsays in Hr]. split; [done|].
      assert (∀ r, Ask_Kill r ∉ asked c') as Hno by (intros r Hr; rewrite Ha in Hr; apply elem_of_app in Hr as [?|Hr%list_elem_of_singleton]; [by destruct (Hask r)|done]).
      split; [by intros r Hr; destruct (Hno r)|]. by split.
Qed.
End delivery.

(** C5: From the socket to the fibers: a client sends HTTP requests, and the socket
    delivers the bytes in pieces of its choice.  However they are spread over the events
    of the descriptor and whatever the limiter of the rate grants, no request is lost,
    torn or reordered: after any number of events the requests whose last byte was read
    have a fiber each (those that the server admits), in order, and what is left in the
    read buffer is a part, not the whole, of the next request; the connection is killed
    only when the stream has ended; and at the end of the stream every admitted request
    has its fiber.  This is for requests as in [servable] (with a Content-Length that is
    that of the body, neither OPTIONS nor POST below /rpc/ or /__rpc_service__, a
    header of at most 8192 bytes), each of which fits into the read buffer, and for a socket that does not fail
    and is not closed by the client in the middle of the stream ([healthy]). *)
Theorem requests_delivered {I : Type} `{IO : StreamIo I} `{!StreamIoSpec I} (block_size read_buffer_size : Z) (admits : nat → bool)
    (qs : list HttpRequest) (io : I) fuel quotas :
  0 < block_size → 0 < read_buffer_size < 2 ^ 64 →
  Forall servable qs → Forall (λ q, size_of (bytes_of q) ≤ read_buffer_size) qs → Z.of_nat (length qs) < 2 ^ 63 →
  healthy (I := I) → incoming io = concat (bytes_of <$> qs) → size_of (incoming io) < SIZE_MAX → (length (incoming io) + 2 ≤ fuel)%nat →
  Forall (λ quota, 0 ≤ quota ≤ SIZE_MAX) quotas →
  ∃ c, readable_events block_size read_buffer_size admits fuel quotas (mkReader io (Connection_new [mkProtocol true None]) NB_empty 0 []) = Ret c ∧
    (∃ done_ todo, qs = done_ ++ todo ∧ contents (read_buffer_ c) ++ incoming (stream_io c) = concat (bytes_of <$> todo) ∧
       partial (contents (read_buffer_ c)) todo ∧ Forall2 fiber_for (admitted admits 0 done_) (fibers (handler c))) ∧
    orderly c ∧ (incoming (stream_io c) = [] → Forall2 fiber_for (admitted admits 0 qs) (fibers (handler c))).
Proof.
  intros Hb Hs Hqs Hfit Hmany Hh Hin Hsz Hfuel Hquota. set (c0 := mkReader _ _ _ _ _).
  assert (Hset : after c0 (settled admits qs)).
  { exists [], qs. split; [|by left]. split; [done|]. split; [done|]. split; [|by repeat constructor]. by split; [exists None; split; [|left]|..]. }
  assert (Hnb : nb_inv (read_buffer_ c0)) by apply NB_empty_inv. assert (Hask : ∀ r, Ask_Kill r ∉ asked c0) by (intros r; apply not_elem_of_nil).
  assert (Hord : orderly c0) by (intros r Hr; by destruct (Hask r)).
  change io with (stream_io c0) in Hsz, Hfuel. clearbody c0. clear Hin.
  assert (∃ c, readable_events block_size read_buffer_size admits fuel quotas c0 = Ret c ∧ after c (settled admits qs) ∧ orderly c) as (c & E & Hset' & Hord').
  { revert c0 Hset Hnb Hask Hord Hsz Hfuel. induction Hquota as [|quota quotas Hq _ IH]; intros c Hset Hnb Hask Hord Hsz Hfuel; [by exists c|].
    destruct (readable_event block_size Hb read_buffer_size Hs admits qs Hqs Hfit Hmany fuel quota c) as (a & c' & E & Hnb' & Hset' & Hord' & Hle & Hask'); [done..|].
    cbn [readable_events]. rewrite E. cbn [obind]. destruct a; [apply IH; (done || lia || by apply Hask')|by exists c'|apply IH; (done || lia || by apply Hask')]. }
  exists c. split; [done|]. split; [destruct Hset' as (dn & todo & (? & ? & _ & ? & _) & ?); by exists dn, todo|]. split; [done|].
  intros He. unfold after in Hset'. rewrite He in Hset'. by eapply settled_all.
Qed.

(** ** The end of a connection *)

Inductive handler_call := H_OnClose | H_OnError | H_OnDetach.

Definition OnCleanup (reason : Descriptor.CleanupReason) : outcome (list handler_call) :=
  match reason with
  | Descriptor.NoReason => Abort
  | Descriptor.UserInitiated | Descriptor.Disconnect => Ret [H_OnClose; H_OnDetach]
  | _ => Ret [H_OnError; H_OnDetach]
  end.

(** Whatever a reader has asked for, the handler is detached last. *)
Lemma OnCleanup_detaches reason : reason ≠ Descriptor.NoReason → ∃ calls, OnCleanup reason = Ret (calls ++ [H_OnDetach]).
Proof. intros Hr. destruct reason; [done|exists [H_OnError]|exists [H_OnClose]|exists [H_OnClose]|exists [H_OnError]..]; done. Qed.

(** *** A socket that gives out these pieces; an empty piece stands for [EAGAIN] *)

Definition pieces_ReadV (io : list chars) (lens : list Z) : list chars * io_result :=
  match io with
  | [] => ([], Io_bytes [])
  | [] :: io' => (io', Io_again)
  | piece :: io' =>
      let n := Z.to_nat (total_len lens) in
      if decide (n = 0%nat) then (io, Io_again)
      else (match drop n piece with [] => io' | rest => rest :: io' end, Io_bytes (take n piece))
  end.

#[local] Instance pieces_io : StreamIo (list chars) := {| ReadV := pieces_ReadV |}.
#[local] Instance pieces_spec : StreamIoSpec (list chars).
Proof.
  refine {| incoming := λ io, concat io |}. intros io lens. unfold ReadV, pieces_io, pieces_ReadV. destruct io as [|[|x piece] io]; [done|done|].
  cbv zeta. set (p := x :: piece). destruct (decide _) as [|Hn]; [done|]. split.
  - rewrite length_take. lia.
  - destruct (drop (Z.to_nat (total_len lens)) p) as [|y l] eqn:E; cbn [concat]; rewrite <-(take_drop (Z.to_nat (total_len lens)) p) at 1;
      rewrite E, <-app_assoc; done.
Defined.

Lemma pieces_healthy : healthy (I := list chars).
Proof.
  intros io lens. unfold ReadV, pieces_io, pieces_ReadV. destruct io as [|[|x piece] io]; [done|done|].
  cbv zeta. destruct (decide _) as [|Hn]; [done|]. split; [done|]. cbn. destruct (Z.to_nat (total_len lens)); [done|]. done.
Qed.

(** Two requests in three pieces; the first event reads ten bytes. *)
Definition client : list chars := [take 30 two_requests; []; take 70 (drop 30 two_requests); drop 100 two_requests].

Lemma requests_delivered_witness :
  ∃ c, readable_events (I := list chars) 4096 100 (λ _, true) 200 [10; SIZE_MAX; SIZE_MAX; SIZE_MAX] (mkReader client (Connection_new [mkProtocol true None]) NB_empty 0 []) = Ret c ∧
    incoming (stream_io c) = [] ∧ Forall2 fiber_for [sample_request; sample_request] (fibers (handler c)).
Proof.
  destruct (requests_delivered (I := list chars) 4096 100 (λ _, true) [sample_request; sample_request] client 200 [10; SIZE_MAX; SIZE_MAX; SIZE_MAX])
    as (c & E & _ & _ & Hall); [lia|lia| | |done|apply pieces_healthy|vm_compute; reflexivity|vm_compute; reflexivity|vm_compute; lia| |].
  - repeat (apply Forall_cons; split; [apply sample_servable|]). by apply Forall_nil.
  - repeat (apply Forall_cons; split; [vm_compute; discriminate|]). by apply Forall_nil.
  - repeat (apply Forall_cons; split; [unfold SIZE_MAX; lia|]). by apply Forall_nil.
  - exists c. split; [exact E|].
    assert (incoming (stream_io c) = []) as He.
    { assert (∀ c', readable_events (I := list chars) 4096 100 (λ _, true) 200 [10; SIZE_MAX; SIZE_MAX; SIZE_MAX] (mkReader client (Connection_new [mkProtocol true None]) NB_empty 0 []) = Ret c' → stream_io c' = []) as Hc.
      { vm_compute. intros c' [= <-]. reflexivity. }
      by rewrite (Hc c E). }
    split; [exact He|]. exact (Hall He).
Defined.

(** A handler that takes everything. *)
Definition swallow (h : chars) (nb : NoncontiguousBuffer) : outcome (DataConsumptionStatus * chars * NoncontiguousBuffer) := Ret (D_Ready, h ++ contents nb, NB_empty).

Lemma OnReadable_contract_witness :
  ∃ c, OnReadable (I := list chars) 4096 swallow 100 200 10 (mkReader client [] NB_empty 0 []) = Ret (Descriptor.Suppress, c) ∧
    consumed c = 10 ∧ handler c = take 10 two_requests ∧ asked c = [Ask_RestartRead 1].
Proof.
  destruct (OnReadable_contract (I := list chars) 4096 100 swallow (λ _, True) 200 10 (mkReader client [] NB_empty 0 [])) as (a & c & d & E & _).
  - lia.
  - lia.
  - intros h nb _ Hnb _. exists D_Ready, (h ++ contents nb), NB_empty. split; [done|]. split; [apply NB_empty_inv|]. rewrite (nbi_size _ Hnb). cbn. split; [lia|done].
  - done.
  - apply NB_empty_inv.
  - done.
  - unfold SIZE_MAX. lia.
  - vm_compute. reflexivity.
  - vm_compute. lia.
  - exists c. vm_compute in E. injection E as <- <-. vm_compute. auto.
Defined.
