(* ===== verification/StreamWriter.v ===== *)
(** * The writing side of a connection: flare/io/native/stream_connection.{h,cc}

    [NativeStreamConnection::Write] may be called by any thread; [OnWritable] is
    called by the descriptor, [StartHandshaking] by who made the connection.  They
    share the list of buffers, the state of the handshake and the restarts that were
    asked of the descriptor.  The list is behind an interface ([WritingBuffers]),
    which the one of [WritingBufferList.v] implements.

    [FlushWritingBuffer_spec] says what a flush comes to.  The interleavings of the
    calls are a step function; the handshake runs under a lock and is one step.
    [Connection_safe] says that no check fails, that one thread at a time writes and
    that the descriptor is asked for no more restarts than it bears;
    [Connection_no_stall] that a buffer is never left in the list with nobody to
    write it.  Both need what the code relies on and does not check: see [legal], and
    the runs after the theorems. *)

From S2P Require Import Prelude Buffer WritingBufferList Descriptor StreamConnection.

#[local] Open Scope Z_scope.

(** ** The list of buffers *)

(** What [FlushTo] returns; [again] if [errno] is [EAGAIN]. *)
Record flush_result := mkFlush { written : Z; again : bool; emptied : bool; short_write : bool; flushed_ctxs : list Z }.

Class WritingBuffers (W : Type) := {
  Append_buffer : W → NoncontiguousBuffer → Z → outcome (W * bool);
  FlushTo : W → Z → outcome (W * flush_result);
}.

(** What the list promises to who calls it alone; [owned] if a caller was told to
    write, [backlog] is how many bytes are in it. *)
Class WritingBuffersSpec (W : Type) `{WritingBuffers W} := {
  owned : W → bool;
  well : W → Prop;
  backlog : W → Z;
  backlog_pos w : well w → 0 ≤ backlog w;
  Append_law w nb ctx : well w → nb_inv nb →
    ∃ w', Append_buffer w nb ctx = Ret (w', negb (owned w)) ∧ well w' ∧ owned w' = true ∧ backlog w' = backlog w + size_of (contents nb);
  FlushTo_law w max_bytes : well w → owned w = true → 0 ≤ max_bytes →
    ∃ w' r, FlushTo w max_bytes = Ret (w', r) ∧ well w' ∧ written r ≤ max_bytes ∧ backlog w' = backlog w - Z.max 0 (written r) ∧
      owned w' = negb (emptied r) ∧ (emptied r = true → short_write r = false ∧ 0 < written r ∧ flushed_ctxs r ≠ []);
}.

(** ** FlushWritingBuffer *)

Inductive FlushStatus := Flushed | QuotaExceeded | RateLimited | SystemBufferSaturated | PartialWrite | NothingWritten | FlushError.

Section flush.
Context {W : Type} `{WB : WritingBuffers W}.
Implicit Types (w : W).

(** [done_] are the contexts given to [OnDataWritten], [bytes] what the limiter of
    the rate was told. *)
Fixpoint flush_loop (fuel : nat) (bytes_quota : Z) (rate_limited ever_succeeded : bool) (done_ : list Z) (bytes : Z) w : outcome (FlushStatus * W * list Z * Z) :=
  if bytes_quota =? 0 then Ret (if rate_limited then RateLimited else QuotaExceeded, w, done_, bytes)
  else
    match fuel with
    | O => Fuel
    | S fuel' =>
        '(w', r) ←! FlushTo w bytes_quota;
        if written r =? 0 then Ret (if ever_succeeded then PartialWrite else NothingWritten, w', done_, bytes)
        else if written r <? 0 then
          Ret (if again r then SystemBufferSaturated else if ever_succeeded then FlushError else NothingWritten, w', done_, bytes)
        else if bytes_quota <? written r then Abort
        else
          let done' := done_ ++ flushed_ctxs r in
          let bytes' := bytes + written r in
          if short_write r && emptied r then Abort
          else if emptied r then match flushed_ctxs r with [] => Abort | _ => Ret (Flushed, w', done', bytes') end
          else if short_write r then Ret (SystemBufferSaturated, w', done', bytes')
          else flush_loop fuel' (bytes_quota - written r) rate_limited true done' bytes' w'
    end.

Definition FlushWritingBuffer (fuel : nat) (max_bytes quota : Z) w : outcome (FlushStatus * W * list Z * Z) :=
  let bytes_quota := Z.min max_bytes quota in
  flush_loop fuel bytes_quota (negb (bytes_quota =? max_bytes)) false [] 0 w.

Context `{!WritingBuffersSpec W}.

(** What a flush that may write [left] bytes comes to. *)
Definition flushed (left : Z) (rate_limited : bool) w (st : FlushStatus) w' (bytes : Z) : Prop :=
  well w' ∧ 0 ≤ bytes ≤ left ∧ backlog w' = backlog w - bytes ∧
  match st with Flushed => owned w' = false | _ => owned w' = true end ∧
  match st with RateLimited => rate_limited = true ∧ bytes = left | QuotaExceeded => rate_limited = false ∧ bytes = left | _ => True end.

Lemma flush_loop_spec fuel : ∀ left rl ever ctxs bytes w,
  well w → owned w = true → 0 ≤ left → backlog w < Z.of_nat fuel →
  ∃ st w' more n, flush_loop fuel left rl ever ctxs bytes w = Ret (st, w', ctxs ++ more, bytes + n) ∧ flushed left rl w st w' n.
Proof.
  induction fuel as [|fuel IH]; intros left rl ever ctxs bytes w Hw Ho Hl Hf; pose proof (backlog_pos w Hw) as Hb; [lia|]. cbn [flush_loop].
  destruct (Z.eqb_spec left 0) as [->|Hne].
  { exists (if rl then RateLimited else QuotaExceeded), w, [], 0. rewrite app_nil_r, Z.add_0_r. split; [done|]. split; [done|]. split; [lia|]. split; [lia|]. by destruct rl. }
  destruct (FlushTo_law w left Hw Ho Hl) as (w' & r & -> & Hw' & Hr & Hb' & Ho' & He). cbn [obind]. pose proof (backlog_pos w' Hw').
  assert (Hstop : ∀ st, written r ≤ 0 → st = PartialWrite ∨ st = NothingWritten ∨ st = SystemBufferSaturated ∨ st = FlushError →
    ∃ st' w'' more n, @Ret (FlushStatus * W * list Z * Z) (st, w', ctxs, bytes) = Ret (st', w'', ctxs ++ more, bytes + n) ∧ flushed left rl w st' w'' n).
  { intros st Hle Hst. exists st, w', [], 0. rewrite app_nil_r, Z.add_0_r. split; [done|]. split; [done|]. split; [lia|]. split; [lia|].
    assert (owned w' = true) by (rewrite Ho'; destruct (emptied r); [lia|done]). by destruct Hst as [-> | [-> | [-> | ->]]]. }
  destruct (Z.eqb_spec (written r) 0); [apply Hstop; [lia|destruct ever; tauto]|].
  destruct (Z.ltb_spec (written r) 0); [apply Hstop; [lia|destruct (again r), ever; tauto]|]. clear Hstop.
  rewrite (proj2 (Z.ltb_ge _ _)) by lia. destruct (emptied r) eqn:Hem.
  - destruct (He eq_refl) as (-> & _ & Hne2). cbn [andb]. destruct (flushed_ctxs r) as [|c l] eqn:Hc; [done|].
    exists Flushed, w', (c :: l), (written r). split; [done|]. split; [done|]. split; [lia|]. split; [lia|done].
  - rewrite andb_false_r. destruct (short_write r).
    + exists SystemBufferSaturated, w', (flushed_ctxs r), (written r). split; [done|]. split; [done|]. split; [lia|]. split; [lia|done].
    + destruct (IH (left - written r) rl true (ctxs ++ flushed_ctxs r) (bytes + written r) w') as (st & w2 & more & k & -> & Hw2 & Hk & Hb2 & Ho2 & Hst); [done..|lia|lia|].
      exists st, w2, (flushed_ctxs r ++ more), (written r + k). split; [by rewrite app_assoc, Z.add_assoc|]. split; [done|]. split; [lia|]. split; [lia|]. split; [done|].
      destruct st; try done; (split; [tauto|lia]).
Qed.

Lemma FlushWritingBuffer_spec fuel max_bytes quota w :
  well w → owned w = true → 0 ≤ max_bytes → 0 ≤ quota → backlog w < Z.of_nat fuel →
  ∃ st w' ctxs n, FlushWritingBuffer fuel max_bytes quota w = Ret (st, w', ctxs, n) ∧ flushed (Z.min max_bytes quota) (negb (Z.min max_bytes quota =? max_bytes)) w st w' n.
Proof. intros Hw Ho Hm Hq Hf. by destruct (flush_loop_spec fuel (Z.min max_bytes quota) (negb (Z.min max_bytes quota =? max_bytes)) false [] 0 w) as (st & w' & ctxs & n & E & Hok); [done..|lia|done|exists st, w', ctxs, n]. Qed.
End flush.

(** ** The handshake *)

Inductive HandshakingStatus := H_Success | H_WannaRead | H_WannaWrite | H_Error.

Record HandshakingState := mkHandshaking { done : bool; need_restart_read : bool; pending_restart_writes : bool }.
Definition HandshakingState_new : HandshakingState := mkHandshaking false true false.

(** With the lock held; [answer] is what [Handshake] of the socket returns. *)
Definition DoHandshake (from_on_readable : bool) (answer : HandshakingStatus) (h : HandshakingState) : outcome (HandshakingStatus * HandshakingState * list request) :=
  if done h then Ret (H_Success, h, [])
  else
    match answer with
    | H_Error => Ret (H_Error, h, [])
    | H_Success =>
        rd ←! (if need_restart_read h then (if from_on_readable then Abort else Ret [Ask_RestartRead 0]) else Ret []);
        let wr := if pending_restart_writes h && from_on_readable then [Ask_RestartWrite 0] else [] in
        Ret (H_Success, mkHandshaking true (need_restart_read h) (pending_restart_writes h), rd ++ wr)
    | H_WannaWrite => Ret (H_WannaWrite, mkHandshaking false true (pending_restart_writes h), [])
    | H_WannaRead => Ret (H_WannaRead, mkHandshaking false false (pending_restart_writes h), [])
    end.

(** ** The calls, interleaved *)

(** Where [StartHandshaking] is, the fiber of [OnReadable] (in the handshake), the
    fiber of [OnWritable], and a thread in [Write]. *)
Inductive start_pc := S_new | S_restart (d : Descriptor.dir) | S_kill | S_killed | S_done.
Inductive reader_pc := R_idle | R_call | R_restart | R_kill | R_suppress.
Inductive writer_pc := O_idle | O_call | O_flush | O_restart_read | O_restart_write | O_kill (r : Descriptor.CleanupReason) | O_suppress.
Inductive thread_pc := W_load | W_lock | W_flush | W_restart | W_kill (r : Descriptor.CleanupReason).

Section connection.
Context {W : Type} `{WB : WritingBuffers W} `{!WritingBuffersSpec W}.

(** [rd] and [wr] are the restarts of reading and writing that were asked for, less
    the suppressions; [abandoned] if a thread was told to write and gave up, since
    the connection is broken. *)
Record state := mkConnection {
  writing_buffers_ : W;
  handshaking_state_ : HandshakingState;
  start : start_pc;
  reader : reader_pc;
  writer : writer_pc;
  threads : gmap nat thread_pc;
  rd : Z;
  wr : Z;
  killed : list Descriptor.CleanupReason;
  abandoned : bool;
  callbacks : list Z;
}.
Implicit Types (s : state) (i : nat).

Definition Connection_new (w : W) : state := mkConnection w HandshakingState_new S_new R_idle O_idle ∅ 0 0 [] false [].

Definition set_list w s : state :=
  mkConnection w (handshaking_state_ s) (start s) (reader s) (writer s) (threads s) (rd s) (wr s) (killed s) (abandoned s) (callbacks s).
Definition set_handshaking h s : state :=
  mkConnection (writing_buffers_ s) h (start s) (reader s) (writer s) (threads s) (rd s) (wr s) (killed s) (abandoned s) (callbacks s).
Definition set_start p s : state :=
  mkConnection (writing_buffers_ s) (handshaking_state_ s) p (reader s) (writer s) (threads s) (rd s) (wr s) (killed s) (abandoned s) (callbacks s).
Definition set_reader p s : state :=
  mkConnection (writing_buffers_ s) (handshaking_state_ s) (start s) p (writer s) (threads s) (rd s) (wr s) (killed s) (abandoned s) (callbacks s).
Definition set_writer p s : state :=
  mkConnection (writing_buffers_ s) (handshaking_state_ s) (start s) (reader s) p (threads s) (rd s) (wr s) (killed s) (abandoned s) (callbacks s).
Definition set_threads f s : state :=
  mkConnection (writing_buffers_ s) (handshaking_state_ s) (start s) (reader s) (writer s) (f (threads s)) (rd s) (wr s) (killed s) (abandoned s) (callbacks s).
Definition set_credits r w s : state :=
  mkConnection (writing_buffers_ s) (handshaking_state_ s) (start s) (reader s) (writer s) (threads s) r w (killed s) (abandoned s) (callbacks s).
Definition Kill r s : state :=
  mkConnection (writing_buffers_ s) (handshaking_state_ s) (start s) (reader s) (writer s) (threads s) (rd s) (wr s) (killed s ++ [r]) (abandoned s) (callbacks s).
Definition abandon s : state :=
  mkConnection (writing_buffers_ s) (handshaking_state_ s) (start s) (reader s) (writer s) (threads s) (rd s) (wr s) (killed s) true (callbacks s).
Definition call_back ctxs s : state :=
  mkConnection (writing_buffers_ s) (handshaking_state_ s) (start s) (reader s) (writer s) (threads s) (rd s) (wr s) (killed s) (abandoned s) (callbacks s ++ ctxs).

(** The descriptor bears one restart of writing more than needed. *)
Definition Restart (d : Descriptor.dir) s : outcome state :=
  match d with
  | Descriptor.Rd => Ret (set_credits (rd s + 1) (wr s) s)
  | Descriptor.Wr => if 1 <? wr s then Abort else Ret (set_credits (rd s) (wr s + 1) s)
  end.

Fixpoint serve (asks : list request) s : outcome state :=
  match asks with
  | [] => Ret s
  | Ask_RestartRead _ :: asks' => s' ←! Restart Descriptor.Rd s; serve asks' s'
  | Ask_RestartWrite _ :: asks' => s' ←! Restart Descriptor.Wr s; serve asks' s'
  | Ask_Kill r :: asks' => serve asks' (Kill r s)
  end.

(** [DoHandshake], with what it asks of the descriptor. *)
Definition handshake (from_on_readable : bool) (answer : HandshakingStatus) s : outcome (HandshakingStatus * state) :=
  '(status, h, asks) ←! DoHandshake from_on_readable answer (handshaking_state_ s);
  s' ←! serve asks s;
  Ret (status, set_handshaking h s').

Definition StartHandshaking (answer : HandshakingStatus) s : outcome state :=
  '(status, s') ←! handshake false answer s;
  Ret (set_start (match status with
                  | H_Error => S_kill
                  | H_Success => S_done
                  | H_WannaRead => S_restart Descriptor.Rd
                  | H_WannaWrite => S_restart Descriptor.Wr
                  end) s').

(** The first part of [OnReadable]; the rest is in [StreamConnection.v]. *)
Definition OnReadable_handshake (answer : HandshakingStatus) s : outcome state :=
  '(status, s') ←! handshake true answer s;
  Ret (set_reader (match status with
                   | H_Error => R_kill
                   | H_WannaRead | H_Success => R_idle
                   | H_WannaWrite => R_restart
                   end) s').

(** [OnWritable], up to where it writes. *)
Definition OnWritable_handshake (answer : HandshakingStatus) s : outcome state :=
  '(status, s') ←! handshake false answer s;
  Ret (set_writer (match status with
                   | H_Error => O_kill Descriptor.Error
                   | H_WannaWrite => O_idle
                   | H_WannaRead => O_restart_read
                   | H_Success => O_flush
                   end) s').

Definition flush (max_bytes quota : Z) s : outcome (FlushStatus * state) :=
  let w := writing_buffers_ s in
  '(status, w', ctxs, _) ←! FlushWritingBuffer (S (Z.to_nat (backlog w))) max_bytes quota w;
  Ret (status, call_back ctxs (set_list w' s)).

Definition OnWritable_flush (quota : Z) s : outcome state :=
  '(status, s') ←! flush SIZE_MAX quota s;
  match status with
  | SystemBufferSaturated => Ret (set_writer O_idle s')
  | RateLimited => Ret (set_writer O_restart_write s')
  | Flushed => Ret (set_writer O_suppress s')
  | PartialWrite | NothingWritten => Ret (set_writer (O_kill Descriptor.Disconnect) s')
  | FlushError => Ret (set_writer (O_kill Descriptor.Error) s')
  | QuotaExceeded => Abort
  end.

Definition writer_step (answer : HandshakingStatus) (quota : Z) s : option (outcome state) :=
  match writer s with
  | O_idle => if 1 <=? wr s then Some (Ret (set_writer O_call s)) else None
  | O_call => Some (OnWritable_handshake answer s)
  | O_flush => Some (OnWritable_flush quota s)
  | O_restart_read => Some (s' ←! Restart Descriptor.Rd s; Ret (set_writer O_suppress s'))
  | O_restart_write => Some (s' ←! Restart Descriptor.Wr s; Ret (set_writer O_suppress s'))
  | O_kill r => Some (Ret (set_writer O_idle (Kill r s)))
  | O_suppress => Some (Ret (set_writer O_idle (set_credits (rd s) (wr s - 1) s)))
  end.

Definition reader_step (answer : HandshakingStatus) s : option (outcome state) :=
  match reader s with
  | R_idle => if negb (done (handshaking_state_ s)) && (1 <=? rd s) then Some (Ret (set_reader R_call s)) else None
  | R_call => Some (OnReadable_handshake answer s)
  | R_restart => Some (s' ←! Restart Descriptor.Wr s; Ret (set_reader R_suppress s'))
  | R_kill => Some (Ret (set_reader R_idle (Kill Descriptor.Error s)))
  | R_suppress => Some (Ret (set_reader R_idle (set_credits (rd s - 1) (wr s) s)))
  end.

Definition start_step s : option (outcome state) :=
  match start s with
  | S_restart d => Some (s' ←! Restart d s; Ret (set_start S_done s'))
  | S_kill => Some (Ret (set_start S_killed (Kill Descriptor.HandshakeFailed s)))
  | _ => None
  end.

(** [Write] begins; it returns if it was not told to write. *)
Definition Write i (buffer : NoncontiguousBuffer) (ctx : Z) s : outcome state :=
  '(w, started) ←! Append_buffer (writing_buffers_ s) buffer ctx;
  Ret (if started : bool then set_threads (<[i := W_load]>) (set_list w s) else set_list w s).

Definition Write_flush i (quota : Z) s : outcome state :=
  '(status, s') ←! flush kMaximumBytesPerCall quota s;
  Ret (match status with
       | SystemBufferSaturated | QuotaExceeded | RateLimited => set_threads (<[i := W_restart]>) s'
       | Flushed => set_threads (delete i) s'
       | PartialWrite | FlushError => set_threads (<[i := W_kill Descriptor.Error]>) s'
       | NothingWritten => set_threads (<[i := W_kill Descriptor.Disconnect]>) s'
       end).

Definition Write_locked i s : outcome state :=
  let h := handshaking_state_ s in
  if done h then Ret (set_threads (<[i := W_flush]>) s)
  else if pending_restart_writes h then Abort
  else Ret (set_threads (delete i) (set_handshaking (mkHandshaking false (need_restart_read h) true) s)).

Definition thread_step i (quota : Z) s : option (outcome state) :=
  match threads s !! i with
  | None => None
  | Some W_load => Some (Ret (set_threads (<[i := if done (handshaking_state_ s) then W_flush else W_lock]>) s))
  | Some W_lock => Some (Write_locked i s)
  | Some W_flush => Some (Write_flush i quota s)
  | Some W_restart => Some (s' ←! Restart Descriptor.Wr s; Ret (set_threads (delete i) s'))
  | Some (W_kill r) => Some (Ret (set_threads (delete i) (abandon (Kill r s))))
  end.

Inductive event :=
| Call_StartHandshaking (answer : HandshakingStatus)
| Call_Write i (buffer : NoncontiguousBuffer) (ctx : Z)
| Go_start
| Go_reader (answer : HandshakingStatus)
| Go_writer (answer : HandshakingStatus) (quota : Z)
| Go_thread i (quota : Z).

Definition step (e : event) s : option (outcome state) :=
  match e with
  | Call_StartHandshaking answer => match start s with S_new => Some (StartHandshaking answer s) | _ => None end
  | Call_Write i buffer ctx => match threads s !! i with None => Some (Write i buffer ctx s) | _ => None end
  | Go_start => start_step s
  | Go_reader answer => reader_step answer s
  | Go_writer answer quota => writer_step answer quota s
  | Go_thread i quota => thread_step i quota s
  end.

(** What the code relies on: nobody writes before [StartHandshaking] was called; if
    the handshake ends in [OnWritable] then somebody is waiting to write. *)
Definition legal (e : event) s : Prop :=
  match e with
  | Call_Write _ buffer _ => start s ≠ S_new ∧ nb_inv buffer ∧ backlog (writing_buffers_ s) + size_of (contents buffer) < SIZE_MAX
  | Go_writer answer quota => 0 ≤ quota ≤ SIZE_MAX ∧
      (writer s = O_call → done (handshaking_state_ s) = false → answer = H_Success → pending_restart_writes (handshaking_state_ s) = true)
  | Go_thread _ quota => 0 ≤ quota ≤ SIZE_MAX
  | _ => True
  end.

Inductive reachable : state → Prop :=
| Reach_new w : well w → owned w = false → backlog w < SIZE_MAX → reachable (Connection_new w)
| Reach_step e s s' : reachable s → legal e s → step e s = Some (Ret s') → reachable s'.

(** ** The invariant *)

Notation hs s := (handshaking_state_ s).

(** A fiber that is about to return [Suppress]. *)
Definition reader_tail (p : reader_pc) : Z := match p with R_restart | R_suppress => 1 | _ => 0 end.
Definition writer_tail (p : writer_pc) : Z := match p with O_restart_read | O_restart_write | O_suppress => 1 | _ => 0 end.

(** Reading and writing are enabled, or will be. *)
Definition reading s : Z := rd s - reader_tail (reader s).
Definition writing s : Z := wr s - writer_tail (writer s).

(** Whose turn it is in the handshake, besides those who wait for an event. *)
Definition start_turn (p : start_pc) : Z := match p with S_done => 0 | _ => 1 end.
Definition reader_turn (p : reader_pc) : Z := match p with R_restart => 1 | _ => 0 end.
Definition writer_turn (p : writer_pc) : Z := match p with O_restart_read => 1 | _ => 0 end.
Definition turns s : Z := start_turn (start s) + reader_turn (reader s) + writer_turn (writer s).

(** Who was told to write the list out, besides [OnWritable]. *)
Definition writer_holds (p : writer_pc) : Z := match p with O_restart_write => 1 | _ => 0 end.
Definition holders s : Z := Z.of_nat (size (threads s)) + writer_holds (writer s) + Z.b2z (abandoned s).

Definition writer_ok (p : writer_pc) (enabled : Z) (dn : bool) : Prop :=
  match p with
  | O_call | O_kill _ => 0 < enabled
  | O_flush => 0 < enabled ∧ dn = true
  | O_restart_write => dn = true
  | _ => True
  end.
Definition thread_ok (x : thread_pc) (dn : bool) : Prop := match x with W_load | W_lock => True | _ => dn = true end.

Record inv s : Prop := {
  iv_well : well (writing_buffers_ s);
  iv_backlog : backlog (writing_buffers_ s) < SIZE_MAX;
  iv_reading : 0 ≤ reading s;
  iv_writing : 0 ≤ writing s;
  iv_turn : done (hs s) = false → turns s + reading s + writing s = 1;
  iv_done : done (hs s) = true → turns s = 0;
  iv_need : done (hs s) = false → 0 < reading s ∨ start s = S_restart Descriptor.Rd ∨ writer s = O_restart_read → need_restart_read (hs s) = false;
  iv_token : holders s + (if done (hs s) then writing s else Z.b2z (pending_restart_writes (hs s))) = Z.b2z (owned (writing_buffers_ s));
  iv_new : start s = S_new → owned (writing_buffers_ s) = false;
  iv_abandoned : abandoned s = true → killed s ≠ [];
  iv_start : start s = S_killed → killed s ≠ [];
  iv_reader : reader s = R_call → done (hs s) = false → 0 < reading s;
  iv_writer : writer_ok (writer s) (writing s) (done (hs s));
  iv_threads i x : threads s !! i = Some x → thread_ok x (done (hs s));
}.

Lemma connection_inv_new w : well w → owned w = false → backlog w < SIZE_MAX → inv (Connection_new w).
Proof.
  intros Hw Ho Hb. split; cbn; try done.
  - intros _ [?|[?|?]]; done.
  - by rewrite Ho.
Qed.

Lemma b2z_range b : 0 ≤ Z.b2z b ≤ 1.
Proof. destruct b; cbn; lia. Qed.
Lemma reader_bounds p : 0 ≤ reader_turn p ≤ reader_tail p ∧ reader_tail p ≤ 1.
Proof. destruct p; cbn; lia. Qed.
Lemma writer_bounds p : 0 ≤ writer_turn p ∧ 0 ≤ writer_holds p ∧ writer_turn p + writer_holds p ≤ writer_tail p ∧ writer_tail p ≤ 1.
Proof. destruct p; cbn; lia. Qed.
Lemma start_bounds p : 0 ≤ start_turn p ≤ 1.
Proof. destruct p; cbn; lia. Qed.

(** The invariant of a state whose parts are given. *)
Ltac open_state s H :=
  destruct s as [w [dn nd pd] st re wt th r wc ki ab cb];
  destruct H as [Hwell Hback Hrd Hwr Hturn Hdone Hneed Htok Hnew Hab Hst Hre Hwt Hth];
  pose proof (b2z_range ab); pose proof (b2z_range (owned w));
  pose proof (reader_bounds re); pose proof (writer_bounds wt); pose proof (start_bounds st);
  unfold turns, reading, writing, holders in *; cbn in *.

(** The handshake is over, or not. *)
Ltac phase dn Hturn Hdone Hneed :=
  destruct dn; [specialize (Hdone eq_refl); clear Hturn Hneed|specialize (Hturn eq_refl); specialize (Hneed eq_refl); clear Hdone].

Ltac need_kept :=
  intros _ [?|[?|?]];
  first [done | lia | simplify_eq; cbn in *; lia
        | match goal with Hn : _ → ?x = false |- ?x = false => apply Hn; first [lia | by left | by right; left | by right; right] end].

Ltac keep_inv :=
  eexists; split; [reflexivity|]; split; unfold turns, reading, writing, holders in *; cbn in *;
  try solve [done | lia | intros; lia | intros; congruence | by eauto | match goal with |- writer_ok ?p _ _ => by destruct p; cbn in *; lia end | by need_kept | intros _ ?%app_nil; naive_solver | by intros ? []].

Lemma start_inv s o : inv s → start_step s = Some o → ∃ s', o = Ret s' ∧ inv s'.
Proof.
  intros H. open_state s H. phase dn Hturn Hdone Hneed; (destruct st as [|d| | |]; try done); cbn in *; try lia.
  - destruct d; cbn.
    + intros [= <-]. keep_inv.
    + destruct (Z.ltb_spec 1 wc); [lia|]. intros [= <-]. keep_inv.
  - intros [= <-]. keep_inv.
Qed.

Lemma reader_inv answer s o : inv s → reader_step answer s = Some o → ∃ s', o = Ret s' ∧ inv s'.
Proof.
  intros H. open_state s H. phase dn Hturn Hdone Hneed; (destruct re; cbn in *; [try done|..]).
  - intros [= <-]. keep_inv.
  - lia.
  - intros [= <-]. keep_inv.
  - intros [= <-]. keep_inv.
  - destruct (Z.leb_spec 1 r); [|done]. intros [= <-]. keep_inv.
  - intros [= <-]. specialize (Hre eq_refl eq_refl). assert (nd = false) as -> by (apply Hneed; lia).
    destruct answer; unfold OnReadable_handshake, handshake; cbn; [|keep_inv..]. destruct pd; cbn; [destruct (Z.ltb_spec 1 wc); [lia|]|]; keep_inv.
  - destruct (Z.ltb_spec 1 wc); [lia|]. intros [= <-]. keep_inv.
  - intros [= <-]. keep_inv.
  - intros [= <-]. keep_inv.
Qed.

Lemma StartHandshaking_inv answer s : inv s → start s = S_new → ∃ s', StartHandshaking answer s = Ret s' ∧ inv s'.
Proof.
  intros H Hs. open_state s H. subst st. specialize (Hnew eq_refl). pose proof (f_equal Z.b2z Hnew) as Hown. cbn in *. phase dn Hturn Hdone Hneed; [lia|].
  unfold StartHandshaking, handshake. assert (pd = false) as -> by (destruct pd; [cbn in Htok; lia|done]).
  destruct answer; cbn; [destruct nd; cbn|..]; keep_inv.
Qed.

(** What a flush does to the connection. *)
Lemma connection_flush_inv max_bytes quota s : inv s → owned (writing_buffers_ s) = true → 0 ≤ max_bytes → 0 ≤ quota →
  ∃ st w ctxs n, flush max_bytes quota s = Ret (st, call_back ctxs (set_list w s)) ∧
    flushed (Z.min max_bytes quota) (negb (Z.min max_bytes quota =? max_bytes)) (writing_buffers_ s) st w n.
Proof.
  intros H Ho Hm Hq. unfold flush. destruct (FlushWritingBuffer_spec (S (Z.to_nat (backlog (writing_buffers_ s)))) max_bytes quota (writing_buffers_ s))
    as (st & w & ctxs & n & -> & Hf); [apply (iv_well _ H)|done|done|done|pose proof (backlog_pos _ (iv_well _ H)); lia|].
  by exists st, w, ctxs, n.
Qed.

Lemma OnWritable_handshake_inv answer s : inv s → writer s = O_call →
  (done (hs s) = false → answer = H_Success → pending_restart_writes (hs s) = true) → ∃ s', OnWritable_handshake answer s = Ret s' ∧ inv s'.
Proof.
  intros H Hw Hle. open_state s H. subst wt. unfold OnWritable_handshake, handshake. phase dn Hturn Hdone Hneed; cbn in *; [keep_inv|].
  destruct answer; cbn; [|keep_inv..]. rewrite (Hle eq_refl eq_refl) in *. cbn in Htok. destruct nd; cbn; keep_inv.
Qed.

Lemma OnWritable_flush_inv quota s : inv s → writer s = O_flush → 0 ≤ quota ≤ SIZE_MAX → ∃ s', OnWritable_flush quota s = Ret s' ∧ inv s'.
Proof.
  intros H Hw Hq. pose proof (iv_token _ H) as Ht. pose proof (iv_writer _ H) as Hok. rewrite Hw in Hok. destruct Hok as [Hpos Hd]. rewrite Hd in Ht.
  assert (owned (writing_buffers_ s) = true) as Ho.
  { unfold holders in Ht. rewrite Hw in Ht. cbn in Ht. pose proof (b2z_range (abandoned s)). destruct (owned _); [done|cbn in Ht; lia]. }
  destruct (connection_flush_inv SIZE_MAX quota s H Ho) as (status & w' & ctxs & n & E & Hw' & Hn & Hb & Ho2 & Hstatus); [unfold SIZE_MAX; lia|lia|]. unfold OnWritable_flush. rewrite E.
  pose proof (backlog_pos _ Hw'). clear E Ht. open_state s H. subst wt dn. specialize (Hdone eq_refl). clear Hturn Hneed. rewrite Ho in *. cbn in *.
  destruct status; cbn; try (pose proof (f_equal Z.b2z Ho2) as Hown; cbn in Hown; keep_inv).
  destruct Hstatus as [Hmin ->]. apply negb_false_iff, Z.eqb_eq in Hmin. lia.
Qed.

Lemma writer_inv answer quota s o : inv s → legal (Go_writer answer quota) s → writer_step answer quota s = Some o → ∃ s', o = Ret s' ∧ inv s'.
Proof.
  intros H [Hq Hle]. unfold writer_step. destruct (writer s) as [| | | | |why|] eqn:Hw.
  - destruct (Z.leb_spec 1 (wr s)); [|done]. intros [= <-]. open_state s H. subst wt. phase dn Hturn Hdone Hneed; cbn in *; keep_inv.
  - intros [= <-]. apply OnWritable_handshake_inv; [done..|]. by apply Hle.
  - intros [= <-]. by apply OnWritable_flush_inv.
  - intros [= <-]. open_state s H. subst wt. phase dn Hturn Hdone Hneed; cbn in *; [lia|]. keep_inv.
  - intros [= <-]. open_state s H. subst wt. cbn in Hwt. subst dn. specialize (Hdone eq_refl). clear Hturn Hneed. cbn in *. destruct (Z.ltb_spec 1 wc); [lia|]. keep_inv.
  - intros [= <-]. open_state s H. subst wt. phase dn Hturn Hdone Hneed; cbn in *; keep_inv.
  - intros [= <-]. open_state s H. subst wt. phase dn Hturn Hdone Hneed; cbn in *; keep_inv.
Qed.

(** The threads in [Write]. *)
Lemma size_go (m : gmap nat thread_pc) i x y : m !! i = Some x → size (<[i := y]> m) = size m.
Proof. intros Hi. rewrite map_size_insert_Some; [done|]. by exists x. Qed.

Lemma thread_goes (m : gmap nat thread_pc) i y dn : (∀ j x, m !! j = Some x → thread_ok x dn) → thread_ok y dn → ∀ j x, <[i := y]> m !! j = Some x → thread_ok x dn.
Proof. intros Hm Hy j x [[_ <-]|[_ Hj]]%lookup_insert_Some; [done|]. by eapply Hm. Qed.

Lemma thread_leaves (m : gmap nat thread_pc) i dn : (∀ j x, m !! j = Some x → thread_ok x dn) → ∀ j x, delete i m !! j = Some x → thread_ok x dn.
Proof. intros Hm j x [_ Hj]%lookup_delete_Some. by eapply Hm. Qed.

Lemma size_in (m : gmap nat thread_pc) i x : m !! i = Some x → 1 ≤ Z.of_nat (size m).
Proof. intros Hi. assert (size m ≠ 0%nat); [|lia]. intros E%map_size_empty_inv. by rewrite E in Hi. Qed.

Lemma size_leave (m : gmap nat thread_pc) i x : m !! i = Some x → Z.of_nat (size (delete i m)) = Z.of_nat (size m) - 1.
Proof. intros Hi. pose proof (size_in m i x Hi). rewrite map_size_delete_Some by (by exists x). lia. Qed.

(** A thread that is told to write finds the list its own. *)
Lemma thread_owns s i x : inv s → threads s !! i = Some x → owned (writing_buffers_ s) = true.
Proof.
  intros H Hi. pose proof (size_in _ _ _ Hi). pose proof (iv_token _ H) as Ht. pose proof (iv_writing _ H). unfold holders in Ht.
  pose proof (writer_bounds (writer s)). pose proof (b2z_range (abandoned s)). pose proof (b2z_range (pending_restart_writes (hs s))).
  destruct (owned _); [done|]. cbn in Ht. destruct (done (hs s)); lia.
Qed.

Ltac thread_moves Hi := rewrite ?(size_go _ _ _ _ Hi), ?(size_leave _ _ _ Hi) in *; cbn in *.

Lemma Write_inv i buffer ctx s : inv s → legal (Call_Write i buffer ctx) s → threads s !! i = None → ∃ s', Write i buffer ctx s = Ret s' ∧ inv s'.
Proof.
  intros H (Hs & Hnb & Hsz) Hi. unfold Write. destruct (Append_law (writing_buffers_ s) buffer ctx (iv_well _ H) Hnb) as (w' & -> & Hw' & Ho' & Hb').
  cbn [obind]. pose proof (f_equal Z.b2z Ho') as Hown. cbn in Hown.
  open_state s H. destruct (owned w) eqn:Ho; cbn in *; phase dn Hturn Hdone Hneed; keep_inv.
  all: try (by rewrite map_size_insert_None by done; lia). all: by apply thread_goes.
Qed.

Ltac thread_keeps Hi := keep_inv; thread_moves Hi; try solve [done | lia | by apply thread_goes | by apply thread_leaves].

Lemma Write_locked_inv i s : inv s → threads s !! i = Some W_lock → ∃ s', Write_locked i s = Ret s' ∧ inv s'.
Proof.
  intros H Hi. pose proof (size_in _ _ _ Hi). unfold Write_locked. open_state s H. phase dn Hturn Hdone Hneed; [thread_keeps Hi|].
  destruct pd; [cbn in Htok; lia|]. cbn in Htok. thread_keeps Hi.
Qed.

Lemma Write_flush_inv i quota s : inv s → threads s !! i = Some W_flush → 0 ≤ quota ≤ SIZE_MAX → ∃ s', Write_flush i quota s = Ret s' ∧ inv s'.
Proof.
  intros H Hi Hq. pose proof (thread_owns s i _ H Hi) as Ho. pose proof (iv_threads _ H _ _ Hi) as Hd. cbn in Hd.
  destruct (connection_flush_inv kMaximumBytesPerCall quota s H Ho) as (status & w' & ctxs & n & E & Hw' & Hn & Hb & Ho2 & _); [done|lia|]. unfold Write_flush. rewrite E.
  pose proof (backlog_pos _ Hw'). pose proof (size_in _ _ _ Hi). clear E. open_state s H. subst dn. specialize (Hdone eq_refl). clear Hturn Hneed. rewrite Ho in *. cbn in *.
  assert (backlog w' < SIZE_MAX) by lia.
  destruct status; cbn; pose proof (f_equal Z.b2z Ho2) as Hown; cbn in Hown; thread_keeps Hi.
Qed.

Lemma connection_thread_inv i quota s o : inv s → 0 ≤ quota ≤ SIZE_MAX → thread_step i quota s = Some o → ∃ s', o = Ret s' ∧ inv s'.
Proof.
  intros H Hq. unfold thread_step. destruct (threads s !! i) as [x|] eqn:Hi; [|done]. pose proof (size_in _ _ _ Hi). pose proof (iv_threads _ H _ _ Hi) as Hd.
  destruct x as [| | | |why]; cbn in Hd; intros [= <-].
  - open_state s H. phase dn Hturn Hdone Hneed; thread_keeps Hi.
  - by apply Write_locked_inv.
  - by apply Write_flush_inv.
  - open_state s H. subst dn. specialize (Hdone eq_refl). clear Hturn Hneed. destruct (Z.ltb_spec 1 wc); [lia|]. cbn. thread_keeps Hi.
  - open_state s H. subst dn. specialize (Hdone eq_refl). clear Hturn Hneed. thread_keeps Hi.
Qed.

Lemma connection_step_inv e s o : inv s → legal e s → step e s = Some o → ∃ s', o = Ret s' ∧ inv s'.
Proof.
  intros H Hle. destruct e; cbn [step].
  - destruct (start s) eqn:Hs; try done. intros [= <-]. by apply StartHandshaking_inv.
  - destruct (threads s !! i) eqn:Hi; [done|]. intros [= <-]. by apply Write_inv.
  - by apply start_inv.
  - by apply reader_inv.
  - by apply writer_inv.
  - by apply connection_thread_inv.
Qed.

Lemma connection_reachable_inv s : reachable s → inv s.
Proof. induction 1 as [w Hw Ho Hb|e s s' _ IH Hle E]; [by apply connection_inv_new|]. by destruct (connection_step_inv e s _ IH Hle E) as (? & [= ->] & ?). Qed.

(** At most one thread holds the list, and not while [OnWritable] does. *)
Lemma one_holder s i x : inv s → threads s !! i = Some x → done (hs s) = true →
  (∀ j y, threads s !! j = Some y → i = j) ∧ writer s ≠ O_flush ∧ wr s ≤ 1.
Proof.
  intros H Hi Hd. pose proof (iv_token _ H) as Ht. rewrite Hd in Ht. pose proof (iv_writing _ H) as Hw. pose proof (iv_writer _ H) as Hwt. pose proof (size_in _ _ _ Hi).
  unfold holders, writing in *. pose proof (b2z_range (abandoned s)). pose proof (b2z_range (owned (writing_buffers_ s))). pose proof (writer_bounds (writer s)).
  split; [|split; [|lia]].
  - intros j y Hj. destruct (decide (i = j)) as [|Hne]; [done|exfalso]. pose proof (size_leave _ _ _ Hi). pose proof (size_in (delete i (threads s)) j y) as Hs.
    rewrite lookup_delete_ne in Hs by done. specialize (Hs Hj). lia.
  - intros E. rewrite E in *. cbn in *. lia.
Qed.

(** Which step brings the list on. *)
Definition carries (e : event) s : Prop :=
  match e with
  | Go_thread i _ => is_Some (threads s !! i)
  | Go_writer _ _ => 0 < writing s ∨ writer s = O_restart_write ∨ writer s = O_restart_read ∧ done (hs s) = false
  | Go_reader _ => done (hs s) = false ∧ (0 < reading s ∨ reader s = R_restart)
  | Go_start => done (hs s) = false ∧ (start s = S_kill ∨ ∃ d, start s = S_restart d)
  | _ => False
  end.

Lemma carried e s : inv s → legal e s → carries e s → ∃ s', step e s = Some (Ret s').
Proof.
  intros H Hle Hc. assert (∃ o, step e s = Some o) as [o E].
  { destruct e; cbn [step carries] in *; try done.
    - unfold start_step. destruct Hc as [_ [->|[d ->]]]; by eexists.
    - unfold reader_step, reading in *. destruct Hc as [Hd Hc]. rewrite Hd. destruct (reader s); cbn in *; try by eexists.
      destruct Hc as [Hc|?]; [|done]. rewrite (proj2 (Z.leb_le _ _)) by lia. by eexists.
    - unfold writer_step, writing in *. destruct (writer s); cbn in *; try by eexists. destruct Hc as [Hc|[?|[? ?]]]; [|done..].
      rewrite (proj2 (Z.leb_le _ _)) by lia. by eexists.
    - unfold thread_step. destruct Hc as [x ->]. by destruct x; eexists. }
  destruct (connection_step_inv e s o H Hle E) as (s' & -> & _). by exists s'.
Qed.

Lemma holder_carries s : inv s → owned (writing_buffers_ s) = true → killed s ≠ [] ∨ ∃ e, legal e s ∧ carries e s.
Proof.
  intros H Ho. pose proof (iv_token _ H) as Ht. rewrite Ho in Ht. pose proof (iv_abandoned _ H) as Hab. unfold holders in Ht.
  destruct (abandoned s); [left; auto|]. destruct (decide (threads s = ∅)) as [E|(i & x & Hi)%map_choose].
  2:{ right. exists (Go_thread i 0). split; [unfold legal, SIZE_MAX; lia|]. by exists x. }
  rewrite E, map_size_empty in Ht. destruct (done (hs s)) eqn:Hd; cbn in Ht.
  - right. exists (Go_writer H_WannaRead 0). split; [by split; [unfold SIZE_MAX; lia|]|]. cbn. destruct (writer s) eqn:Hw; cbn in Ht; try (left; lia). by right; left.
  - pose proof (iv_turn _ H Hd) as Hturn. pose proof (iv_reading _ H). pose proof (iv_writing _ H). unfold turns in Hturn.
    destruct (decide (0 < writing s)) as [|Hnw]; [right; exists (Go_writer H_WannaRead 0); split; [by split; [unfold SIZE_MAX; lia|]|by left]|].
    destruct (decide (0 < reading s)) as [|Hnr]; [right; exists (Go_reader H_WannaRead); split; [done|]; split; [done|by left]|].
    destruct (reader s) eqn:Hr; cbn in Hturn; try (right; exists (Go_reader H_WannaRead); split; [done|]; split; [done|by right]).
    all: destruct (writer s) eqn:Hw; cbn in Hturn; try (right; exists (Go_writer H_WannaRead 0); split; [by split; [unfold SIZE_MAX; lia|]|by right; right]).
    all: destruct (start s) as [|d| | |] eqn:Hs; cbn in Hturn; try lia.
    all: try (by rewrite (iv_new _ H Hs) in Ho). all: try (by left; apply (iv_start _ H)).
    all: right; exists Go_start; split; [done|]; split; [done|]; eauto.
Qed.

(** C9: In every interleaving of the threads that write, the fibers of the descriptor
    and the handshake, no check of the connection or of the descriptor fails, as long as
    the contract of [legal] is kept: the list is written only by who was told to, by one
    at a time, and writing is restarted at most once more than needed.  The contract,
    which the code relies on and does not check, is that nobody writes before
    [StartHandshaking], that the list never has 2^64 - 1 bytes or more, and that a
    handshake that ends in [OnWritable] ends when somebody is waiting to write:
    otherwise a check fails, see [handshake_ends_in_OnWritable]. *)
Theorem Connection_safe s e o : reachable s → legal e s → step e s = Some o →
  ∃ s', o = Ret s' ∧ wr s' ≤ 2 ∧
    (∀ i x, threads s' !! i = Some x → owned (writing_buffers_ s') = true) ∧
    (∀ i, threads s' !! i = Some W_flush → writer s' ≠ O_flush ∧ ∀ j, threads s' !! j = Some W_flush → i = j).
Proof.
  intros Hr Hle E. destruct (connection_step_inv e s o (connection_reachable_inv s Hr) Hle E) as (s' & -> & H). exists s'. split; [done|]. split; [|split].
  - pose proof (iv_token _ H) as Ht. pose proof (iv_turn _ H) as Hturn. pose proof (iv_reading _ H). unfold holders, turns, writing in *.
    pose proof (b2z_range (abandoned s')). pose proof (b2z_range (owned (writing_buffers_ s'))). pose proof (writer_bounds (writer s')). pose proof (reader_bounds (reader s')).
    pose proof (start_bounds (start s')). destruct (done (hs s')); [lia|]. specialize (Hturn eq_refl). lia.
  - intros i x. by apply thread_owns.
  - intros i Hi. destruct (one_holder s' i _ H Hi (iv_threads _ H _ _ Hi)) as (Hone & Hw & _). split; [done|]. intros j. by apply Hone.
Qed.

(** C10: A buffer is never left behind, as long as the contract of [legal] is kept,
    under which nobody writes before [StartHandshaking] (a buffer that is written
    before can stay in the list forever, see [write_before_StartHandshaking]) and a
    handshake ends in [OnWritable] only when somebody is waiting to write: whenever the
    list is to be written out, the connection is killed or there is a step that brings
    it on, a thread in [Write], [OnWritable] with its event enabled, or, before the
    handshake is over, who is to continue it. *)
Theorem Connection_no_stall s : reachable s → owned (writing_buffers_ s) = true →
  killed s ≠ [] ∨ ∃ e s', carries e s ∧ legal e s ∧ step e s = Some (Ret s').
Proof.
  intros H%connection_reachable_inv Ho. destruct (holder_carries s H Ho) as [|(e & Hle & Hc)]; [by left|right].
  destruct (carried e s H Hle Hc) as [s' E]. by exists e, s'.
Qed.
End connection.

(** ** The list of [WritingBufferList.v] *)

(** What the socket answers. *)
Inductive answer := Takes (n : Z) | Would_block | Fails.

Record buffers := mkBuffers { answers : list answer; bufs : WritingBufferList.state }.

(** The node is fresh, as the pool would give it. *)
Definition buffers_Append (w : buffers) (nb : NoncontiguousBuffer) (ctx : Z) : outcome (buffers * bool) :=
  '(s, started) ←! WritingBufferList.Append 0 (fresh (dom (WritingBufferList.heap (bufs w)))) nb ctx (bufs w);
  Ret (mkBuffers (answers w) s, started).

Definition buffers_FlushTo (w : buffers) (max_bytes : Z) : outcome (buffers * flush_result) :=
  let a := default Would_block (head (answers w)) in
  '(s, r) ←! WritingBufferList.FlushTo max_bytes (match a with Takes n => Z.max 0 n | _ => -1 end) (bufs w);
  match r with
  | WritingBufferList.Flushed rc emptied short_write =>
      Ret (mkBuffers (tail (answers w)) s,
           mkFlush rc (match a with Would_block => true | _ => false end) emptied short_write
             (drop (length (WritingBufferList.completed (bufs w))) (WritingBufferList.completed s)))
  | _ => Undef
  end.

#[global] Instance buffers_ops : WritingBuffers buffers := {| Append_buffer := buffers_Append; FlushTo := buffers_FlushTo |}.

#[global] Instance buffers_laws : WritingBuffersSpec buffers.
Proof.
  refine {| owned w := WritingBufferList.writing (bufs w); well w := WritingBufferList.quiet (bufs w); backlog w := WritingBufferList.backlog (bufs w) |}.
  - intros w [Hinv _ _]. unfold WritingBufferList.backlog. rewrite <-(WritingBufferList.iv_bytes _ Hinv), length_app. lia.
  - intros w nb ctx [Hinv Hthr Hf] Hnb. cbn. unfold buffers_Append.
    destruct (WritingBufferList.Append_alone (bufs w) 0 (fresh (dom (WritingBufferList.heap (bufs w)))) nb ctx) as (s & st & -> & Hinv' & Hthr' & Hf' & Ho & _ & Ha & Hs & Hw & Hst);
      [done|done|apply not_elem_of_dom, is_fresh|done|]. cbn [obind].
    assert (st = negb (WritingBufferList.writing (bufs w))) as ->.
    { pose proof (WritingBufferList.iv_empty _ Hinv) as He. pose proof (WritingBufferList.iv_started _ Hinv) as Hne. destruct (WritingBufferList.order (bufs w)) as [|x l] eqn:E.
      - rewrite (He eq_refl). by apply Hst.
      - destruct Hne as [->|(i & nd & Hi)]; [done| |by rewrite Hthr, lookup_empty in Hi]. destruct st; [discriminate (proj1 Hst eq_refl)|done]. }
    eexists. split; [done|]. split; [split; cbn; [done|done|by rewrite Hf']|]. cbn. split; [rewrite Hw; by destruct (WritingBufferList.writing (bufs w))|].
    unfold WritingBufferList.backlog. rewrite Ha, Hs, fmap_app, concat_app, length_app. cbn. rewrite app_nil_r. lia.
  - intros w max_bytes Hq Hw Hm. cbn. unfold buffers_FlushTo.
    destruct (WritingBufferList.FlushTo_spec max_bytes (match default Would_block (head (answers w)) with Takes n => Z.max 0 n | _ => -1 end) (bufs w) Hq Hw Hm)
      as (s & rc & em & short & -> & Hq' & Hrc & Hb & Hwr & He). cbn [obind].
    eexists _, _. split; [done|]. cbn. split; [done|]. split; [done|]. split; [done|]. split; [done|]. intros ->. destruct (He eq_refl) as (-> & Hpos & Hlen).
    split; [done|]. split; [done|]. intros E%(f_equal length). rewrite length_drop in E. cbn in E. lia.
Defined.

(** ** Runs *)

#[global] Instance start_pc_eq_dec : EqDecision start_pc.
Proof. solve_decision. Defined.
#[global] Instance writer_pc_eq_dec : EqDecision writer_pc.
Proof. solve_decision. Defined.
#[global] Instance HandshakingStatus_eq_dec : EqDecision HandshakingStatus.
Proof. solve_decision. Defined.
#[global] Instance connection_legal_dec e (s : state (W := buffers)) : Decision (legal e s).
Proof. destruct e; cbn; apply _. Defined.

Definition connection_stepped (e : event) (s : state (W := buffers)) : option (state (W := buffers)) := if decide (legal e s) then stepped step e s else None.

Lemma connection_run_reachable es s : reachable s → reachable (default s (run_steps connection_stepped es s)).
Proof.
  apply run_steps_ind. intros e s1 s2 Hr Hs. unfold connection_stepped in Hs. case_decide as Hle; [|done]. by apply (Reach_step e s1 s2), stepped_Some.
Qed.

Definition socket (l : list answer) : state := Connection_new (mkBuffers l WritingBufferList.WritingBufferList_new).

Lemma socket_reachable l : reachable (socket l).
Proof.
  apply Reach_new; [|done|done]. split; [|done|done]. apply WritingBufferList.list_reachable_inv, WritingBufferList.Reach_new.
Qed.

(** A handshake that wants to write, then to read; a thread writes in between and
    leaves a mark, and the end of the handshake restarts it. *)
Definition to_write : state :=
  default (socket [Takes 5; Would_block]) (run_steps connection_stepped
    [Call_StartHandshaking H_WannaWrite; Go_start; Go_writer H_WannaRead 0; Call_Write 0 split_nb 7; Go_thread 0 0; Go_thread 0 0;
     Go_writer H_WannaRead 0; Go_writer H_WannaRead 0; Go_reader H_WannaRead; Go_reader H_Success; Go_writer H_WannaRead 0;
     Go_writer H_WannaRead 0; Go_writer H_WannaRead 0] (socket [Takes 5; Would_block])).

(** The socket takes five bytes. *)
Definition half_written : state := default to_write (run_steps connection_stepped [Go_writer H_WannaRead 100] to_write).

Lemma to_write_reachable : reachable to_write.
Proof. apply connection_run_reachable, socket_reachable. Qed.
Lemma half_written_reachable : reachable half_written.
Proof. apply connection_run_reachable, to_write_reachable. Qed.

Lemma Connection_safe_witness :
  writer to_write = O_flush ∧ backlog (writing_buffers_ to_write) = 12 ∧
  ∃ s', OnWritable_flush 100 to_write = Ret s' ∧ wr s' ≤ 2 ∧ writer s' = O_idle ∧ backlog (writing_buffers_ s') = 7.
Proof.
  split; [vm_compute; reflexivity|]. split; [vm_compute; reflexivity|].
  destruct (Connection_safe to_write (Go_writer H_WannaRead 100) (OnWritable_flush 100 to_write) to_write_reachable) as (s' & E & Hwr & _).
  - split; [unfold SIZE_MAX; lia|]. intros _ _ [=].
  - vm_compute. reflexivity.
  - exists s'. split; [exact E|]. split; [exact Hwr|]. vm_compute in E. injection E as <-. vm_compute. auto.
Defined.

Lemma Connection_no_stall_witness :
  owned (writing_buffers_ half_written) = true ∧ killed half_written = [] ∧
  ∃ e s', carries e half_written ∧ legal e half_written ∧ step e half_written = Some (Ret s').
Proof.
  assert (killed half_written = []) as Hk by (vm_compute; reflexivity).
  assert (owned (writing_buffers_ half_written) = true) as Ho by (vm_compute; reflexivity).
  split; [exact Ho|]. split; [exact Hk|].
  destruct (Connection_no_stall half_written half_written_reachable Ho) as [Hne|Hex]; [destruct (Hne Hk)|exact Hex].
Defined.

(** A handshake that ends in [OnWritable], with nothing to write: the list is empty
    and the check of [FlushTo] fails. *)
Definition wants_to_write : state :=
  default (socket []) (run_steps connection_stepped [Call_StartHandshaking H_WannaWrite; Go_start; Go_writer H_WannaRead 0] (socket [])).

Definition nothing_to_write : state := default wants_to_write (run_steps (stepped step) [Go_writer H_Success 0] wants_to_write).

Example handshake_ends_in_OnWritable :
  reachable wants_to_write ∧ stepped step (Go_writer H_Success 0) wants_to_write = Some nothing_to_write ∧ step (Go_writer H_Success SIZE_MAX) nothing_to_write = Some Abort.
Proof.
  split; [apply connection_run_reachable, socket_reachable|]. split; vm_compute; reflexivity.
Qed.

(** A thread that writes before [StartHandshaking], which succeeds at once: the mark
    it leaves is not looked at, and the buffer stays in the list. *)
Definition forgotten : state :=
  default (socket []) (run_steps (stepped step) [Call_Write 0 split_nb 7; Go_thread 0 0; Go_thread 0 0; Call_StartHandshaking H_Success] (socket [])).

Example write_before_StartHandshaking : owned (writing_buffers_ forgotten) = true ∧ killed forgotten = [] ∧ ∀ e, ¬ carries e forgotten.
Proof.
  split; [vm_compute; reflexivity|]. split; [vm_compute; reflexivity|]. assert (done (handshaking_state_ forgotten) = true) as Hd by (vm_compute; reflexivity).
  assert (threads forgotten = ∅) as Ht by (vm_compute; reflexivity). assert (writer forgotten = O_idle ∧ writing forgotten = 0) as [Hw Hw0] by (vm_compute; auto).
  intros []; cbn [carries]; [tauto|tauto|rewrite Hd..|]; [by intros [? _]|by intros [? _]|rewrite Hw, Hw0; naive_solver lia|].
  rewrite Ht, lookup_empty. by intros [].
Qed.
