(* ===== verification/CacheServer.v ===== *)
(** * The cache server: cache/server.cc

    [Entry] sets the managers up, registers the handlers, starts the server and
    a fiber that opens the database.  From then on the program is a [system]: it
    serves requests, runs the fibers that persist entries in whatever order the
    scheduler picks them, and runs the one that loads the database.

    [cache_refines] relates the runs of the program to an [api_model]: the state
    that cache/openapi.yaml describes, the map on disk and whether the database
    is still to be opened.  The proof goes through a [model] that also has the
    pairs ever added to the sorted sets, as the skip lists do.
    [any_request_is_safe] says that no request at all makes the program fail, and
    [restart_keeps_values] under which conditions the values survive a restart;
    [del_is_undone], [reordered_writes] and [batch_duplicates] show that these
    conditions are needed. *)

From Stdlib Require Import Ascii.
From S2P Require Import Prelude Interfaces Random Arena SkipList SkipListSpec HashKv Zset Managers Regex ParamParse.
From S2P Require Import FlareString Buffer FlareHashMap HttpHeaders HttpTypes HttpIo HttpIoProofs HttpService Handlers RpcServer.

#[local] Open Scope string_scope.
#[local] Open Scope list_scope.
#[local] Open Scope Z_scope.

(** ** The program *)

Definition regex_of (pattern : string) : outcome (list item) :=
  match compile pattern with Some re => Ret re | None => Fuel end.

Record system {S D : Type} := mkSystem {
  sys_server : Server (world S D);
  sys_world : world S D;
  init_pending : bool;
}.
Arguments system : clear implicits.

Inductive sys_event := Ev_request (q : HttpRequest) | Ev_persist (i : nat) | Ev_init.

Section entry.
Context {S D : Type} (sizeof_Node : Z) (NDEBUG : bool) `{StdHash} `{NodeAllocator S} `{LevelDB D} `{Json} `{FiberOrder}.
#[local] Abbreviation W := (world S D).
(** What the build links: the protocols, the builtin handlers. *)
Context (registered : list string) (builtin : list (HttpHandler W * list chars)) (builtin_prefixes : list (HttpHandler W * chars)).
Context `{Compressors}.

Definition add_route (pattern : string) (h : HttpHandler W) (sv : Server W) : outcome (Server W) :=
  re ←! regex_of pattern;
  AddHttpHandler_regex re h sv.

Definition Entry_server : outcome (Server W) :=
  let sv := Server_new false builtin builtin_prefixes in
  sv ←! AddProtocol registered "http" sv;
  sv ←! AddHttpHandler registered (chars_of "/init") InitQueryHandler sv;
  sv ←! add_route "^/query/(.+?)$" QueryKeyHandler sv;
  sv ←! AddHttpHandler registered (chars_of "/add") AddKeyHandler sv;
  sv ←! add_route "^/del/(.+?)$" DelKeyHandler sv;
  sv ←! AddHttpHandler registered (chars_of "/list") BatchQueryKeyHandler sv;
  sv ←! AddHttpHandler registered (chars_of "/batch") BatchAddKeyHandler sv;
  sv ←! add_route "^/zadd/(.+?)$" (ZaddHandler sizeof_Node NDEBUG) sv;
  sv ←! add_route "^/zrange/(.+?)$" (ZrangeHandler NDEBUG) sv;
  sv ←! add_route "^/zrmv/(.+?)$" ZrmvHandler sv;
  sv ←! ListenOn sv;
  '(started, sv) ←! Start registered true sv;
  if started then Ret sv else Abort.

(** [Entry] up to the loop that waits for a signal, from the memory the arena
    starts with and a disk. *)
Definition Entry (s : S) (d : D) : outcome (system S D) :=
  '(_, kv) ←! Kv_Init KvManager_new;
  '(_, zm) ←! ZM_Init ZsetManager_new;
  sv ←! Entry_server;
  Ret (mkSystem _ _ sv (mkWorld _ _ kv zm s LocaldbManager_new d []) true).

(** The fiber that opens the database. *)
Definition run_init (g : W) : outcome W :=
  '(_, lm, d, kv) ←! Localdb_Init (localdb_manager g) "/mydata" (disk g) (kv_manager g);
  Ret (mkWorld _ _ kv (zset_manager g) (arena g) lm d (tasks g)).

(** The fiber at place [i] of those that persist entries. *)
Definition run_persist (i : nat) (g : W) : outcome W :=
  t ←! deref (tasks g !! i);
  g' ←! run_task t g;
  Ret (mkWorld _ _ (kv_manager g') (zset_manager g') (arena g') (localdb_manager g') (disk g') (delete i (tasks g'))).

Definition run_request (q : HttpRequest) (sys : system S D) : outcome (option HttpResponse * system S D) :=
  svc ←! deref (http_service_ (sys_server sys));
  '(_, o, g) ←! FastCall svc q (sys_world sys);
  Ret (o, mkSystem _ _ (sys_server sys) g (init_pending sys)).

Definition sys_step (e : sys_event) (sys : system S D) : outcome (list (option HttpResponse) * system S D) :=
  match e with
  | Ev_request q => '(o, sys') ←! run_request q sys; Ret ([o], sys')
  | Ev_persist i => g ←! run_persist i (sys_world sys); Ret ([], mkSystem _ _ (sys_server sys) g (init_pending sys))
  | Ev_init => g ←! run_init (sys_world sys); Ret ([], mkSystem _ _ (sys_server sys) g false)
  end.

Fixpoint sys_run (es : list sys_event) (sys : system S D) : outcome (list (option HttpResponse) * system S D) :=
  match es with
  | [] => Ret ([], sys)
  | e :: es' =>
      '(o, sys1) ←! sys_step e sys;
      '(os, sys2) ←! sys_run es' sys1;
      Ret (o ++ os, sys2)
  end.
End entry.

(** ** The model *)

Record model := mkModel {
  m_cache : cache;
  m_disk : gmap string string;
  m_init : bool;
}.

Inductive op := Op_request (a : api) | Op_persist (i : nat) | Op_init.

Definition apply_task (t : task) (M : gmap string string) : gmap string string :=
  match t with
  | Persist k v => <[k := v]> M
  | Persist_batch rs => batch_insert M (entry <$> rs)
  end.

Definition spec_op `{Json, FiberOrder} (o : op) (m : model) : list reply * model :=
  let c := m_cache m in
  match o with
  | Op_request a => let '(r, c') := spec_api a c in ([r], mkModel c' (m_disk m) (m_init m))
  | Op_persist i =>
      match pending_tasks c !! i with
      | Some t => ([], mkModel (mkCache (values c) (zsets c) (ready c) (delete i (pending_tasks c)))
                         (apply_task t (m_disk m)) (m_init m))
      | None => ([], m)
      end
  | Op_init => ([], mkModel (mkCache (m_disk m ∪ values c) (zsets c) true (pending_tasks c)) (m_disk m) false)
  end.

Fixpoint spec_ops `{Json, FiberOrder} (os : list op) (m : model) : list reply * model :=
  match os with
  | [] => ([], m)
  | o :: os' =>
      let '(r, m1) := spec_op o m in
      let '(rs, m2) := spec_ops os' m1 in
      (r ++ rs, m2)
  end.

(** The database is opened once, entries are written to it when it is open, and
    the assertion in the skip lists holds. *)
Definition op_enabled (NDEBUG : bool) (o : op) (m : model) : Prop :=
  match o with
  | Op_request a => api_add_ok NDEBUG a (m_cache m)
  | Op_persist i => ready (m_cache m) = true ∧ is_Some (pending_tasks (m_cache m) !! i)
  | Op_init => m_init m = true
  end.

Fixpoint ops_enabled `{Json, FiberOrder} (NDEBUG : bool) (os : list op) (m : model) : Prop :=
  match os with
  | [] => True
  | o :: os' => op_enabled NDEBUG o m ∧ ops_enabled NDEBUG os' (spec_op o m).2
  end.

Definition model_new (M : gmap string string) : model := mkModel (mkCache ∅ ∅ false []) M true.

(** *** The model of cache/openapi.yaml *)

Record api_model := mkApiModel {
  am_state : api_state;
  am_disk : gmap string string;
  am_init : bool;
}.

Definition op_next `{FiberOrder} (o : op) (m : api_model) : api_model :=
  let st := am_state m in
  match o with
  | Op_request a => mkApiModel (api_next a st) (am_disk m) (am_init m)
  | Op_persist i =>
      match api_tasks st !! i with
      | Some t => mkApiModel (mkApi (api_values st) (api_zsets st) (api_ready st) (delete i (api_tasks st)))
                    (apply_task t (am_disk m)) (am_init m)
      | None => m
      end
  | Op_init => mkApiModel (mkApi (am_disk m ∪ api_values st) (api_zsets st) true (api_tasks st)) (am_disk m) false
  end.

Definition ops_next `{FiberOrder} (os : list op) (m : api_model) : api_model := foldl (λ m o, op_next o m) m os.

(** The replies to the requests of a run. *)
Fixpoint api_replies `{Json, FiberOrder} (os : list op) (m : api_model) (ps : list reply) : Prop :=
  match os with
  | [] => ps = []
  | o :: os' =>
      match o, ps with
      | Op_request a, p :: ps' => api_reply a (am_state m) p ∧ api_replies os' (op_next o m) ps'
      | Op_request _, [] => False
      | _, _ => api_replies os' (op_next o m) ps
      end
  end.

(** The database is opened once, and entries are written to it when it is open. *)
Fixpoint fibers_enabled `{FiberOrder} (os : list op) (m : api_model) : Prop :=
  match os with
  | [] => True
  | o :: os' =>
      match o with
      | Op_request _ => True
      | Op_persist i => api_ready (am_state m) = true ∧ is_Some (api_tasks (am_state m) !! i)
      | Op_init => am_init m = true
      end ∧ fibers_enabled os' (op_next o m)
  end.

(** The pairs that a run adds to sorted sets. *)
Definition op_adds (os : list op) : list (string * ZaddRequest) :=
  concat ((λ o, match o with Op_request a => adds a | _ => [] end) <$> os).

Definition api_model_new (M : gmap string string) : api_model := mkApiModel (mkApi ∅ ∅ false []) M true.

Definition model_of (m : model) : api_model := mkApiModel (api_of (m_cache m)) (m_disk m) (m_init m).

Section models.
Context `{Json} `{FiberOrder} (NDEBUG : bool).

Lemma spec_op_refines o m L :
  let T := zsets (m_cache m) in
  sets_ok T → addable NDEBUG T (op_adds [o] ++ L) →
  sets_ok (zsets (m_cache (spec_op o m).2)) ∧ addable NDEBUG (zsets (m_cache (spec_op o m).2)) L ∧
  model_of (spec_op o m).2 = op_next o (model_of m).
Proof.
  intros T HT HL. unfold op_adds in HL. destruct o as [a|i|]; cbn in HL; rewrite ?app_nil_r in HL.
  - destruct (spec_api_addable NDEBUG a (m_cache m) L HT HL) as (_ & HT' & HL'), (spec_api_refines a (m_cache m) HT) as [_ Hn].
    cbn. rewrite <-Hn. by destruct (spec_api a (m_cache m)).
  - cbn. by destruct (pending_tasks (m_cache m) !! i).
  - done.
Qed.

Lemma spec_ops_refines os : ∀ m, let T := zsets (m_cache m) in
  sets_ok T → addable NDEBUG T (op_adds os) → fibers_enabled os (model_of m) →
  ops_enabled NDEBUG os m ∧ api_replies os (model_of m) (spec_ops os m).1 ∧
  model_of (spec_ops os m).2 = ops_next os (model_of m).
Proof.
  induction os as [|o os IH]; intros m T HT HL Hf; [done|]. destruct Hf as [Hf Hfs].
  assert (HL1 : addable NDEBUG T (op_adds [o] ++ op_adds os)) by (unfold op_adds in *; cbn in *; by rewrite app_nil_r).
  destruct (spec_op_refines o m _ HT HL1) as (HT' & HL' & Hn). rewrite <-Hn in Hfs.
  destruct (IH _ HT' HL' Hfs) as (He & Hr & Hl). rewrite Hn in Hr, Hl. cbn [ops_enabled spec_ops ops_next foldl].
  assert (Ho : op_enabled NDEBUG o m).
  { destruct o as [a| |]; [|done..]. unfold op_adds in HL1. cbn in HL1. rewrite app_nil_r in HL1.
    by destruct (spec_api_addable NDEBUG a (m_cache m) _ HT HL1). }
  split; [by split|]. destruct (spec_op o m) as [r m1] eqn:E. cbn [fst snd] in *. destruct (spec_ops os m1) as [rs m2]. split; [|exact Hl].
  cbn [api_replies fst]. destruct o as [a|i|]; cbn in E.
  - destruct (spec_api_refines a (m_cache m) HT) as [Hp _]. destruct (spec_api a (m_cache m)) as [p c']. injection E as <- <-. by split.
  - destruct (pending_tasks (m_cache m) !! i); injection E as <- <-; exact Hr.
  - injection E as <- <-. exact Hr.
Qed.
End models.

(** ** Routes *)

Definition route_re (l : chars) : list item := Bol :: lit_items l ++ [Open; One Any; Star false Any; Close 0; Eol].

Lemma route_match l v :
  v ≠ [] → Forall (λ c, ¬ is_newline c) v → regex_match (route_re l) (l ++ v) = true.
Proof.
  intros Hne Hv. unfold regex_match, route_re. cbn [app match_items]. rewrite decide_True by done.
  rewrite <-app_assoc, match_lits. destruct v as [|c v]; [done|]. apply Forall_cons in Hv as [Hc Hv].
  pose proof (match_lazy Any [Close 0; Eol; Eol] (S (0 + length l)) v [] [((0 + length l)%nat, None)]) as Hm.
  rewrite app_nil_r in Hm. cbn [app].
  change (match_items (Open :: One Any :: _) (0 + length l) (c :: v) [])
    with (if atom_matches Any c then match_items [Star false Any; Close 0; Eol; Eol] (S (0 + length l)) v [((0 + length l)%nat, None)] else None).
  rewrite any_matches by done. erewrite Hm; [done| | |reflexivity].
  - eapply Forall_impl; [exact Hv|]. apply any_matches.
  - intros y z -> Hz. rewrite app_nil_r. by destruct z.
Qed.

Lemma route_miss l path : ¬ l `prefix_of` path → regex_match (route_re l) path = false.
Proof.
  intros Hl. unfold regex_match, route_re. cbn [app match_items]. rewrite decide_True by done.
  rewrite <-app_assoc. destruct (match_items _ _ _ _) eqn:E; [|done]. by apply match_lits_prefix in E.
Qed.

(** The builtin handlers are below two directories. *)
Definition builtin_path (p : chars) : Prop := chars_of "/inspect" `prefix_of` p ∨ chars_of "/prof" `prefix_of` p.

#[export] Instance builtin_path_dec p : Decision (builtin_path p).
Proof. apply _. Defined.

Section routing.
Context {S D : Type} (sizeof_Node : Z) (NDEBUG : bool) `{StdHash} `{NodeAllocator S} `{LevelDB D} `{Json} `{FiberOrder}.
#[local] Abbreviation W := (world S D).
Context (registered : list string) (builtin : list (HttpHandler W * list chars)) (builtin_prefixes : list (HttpHandler W * chars)).
Implicit Types (sv : Server W) (svc : Service W).

Record linked : Prop := {
  ln_http : "http" ∈ registered;
  ln_distinct : NoDup (concat builtin.*2);
  ln_paths : Forall builtin_path (concat builtin.*2);
  ln_prefixes : Forall builtin_path builtin_prefixes.*2;
}.

Definition own_exact : gmap chars (HttpHandler W) :=
  <[chars_of "/batch" := BatchAddKeyHandler]> (<[chars_of "/list" := BatchQueryKeyHandler]>
    (<[chars_of "/add" := AddKeyHandler]> (<[chars_of "/init" := InitQueryHandler]> ∅))).

Definition own_regex : list (list item * HttpHandler W) :=
  [(route_re (chars_of "/query/"), QueryKeyHandler); (route_re (chars_of "/del/"), DelKeyHandler);
   (route_re (chars_of "/zadd/"), ZaddHandler sizeof_Node NDEBUG); (route_re (chars_of "/zrange/"), ZrangeHandler NDEBUG);
   (route_re (chars_of "/zrmv/"), ZrmvHandler)].

(** The service once the server has started. *)
Record cache_service svc : Prop := {
  cs_filters : filters_ svc = [];
  cs_own : ∀ p, ¬ builtin_path p → exact_paths_ svc !! p = own_exact !! p;
  cs_exact p h : exact_paths_ svc !! p = Some h → own_exact !! p = Some h ∨ h ∈ builtin.*1;
  cs_prefix : Forall (λ e, builtin_path e.1 ∧ e.2 ∈ builtin_prefixes.*1) (prefix_paths_ svc);
  cs_regex : regex_paths_ svc = own_regex;
  cs_default : default_handler_ svc = Functor NotFound_page;
}.

Definition has_service sv svc : Prop :=
  "http" ∈ known_protocols_ sv ∧ http_service_ sv = Some svc ∧ listen_cb_ sv = true.

Lemma AddHttpHandler_effect path h sv svc :
  has_service sv svc → exact_paths_ svc !! path = None →
  ∃ sv', AddHttpHandler registered path h sv = Ret sv' ∧
    has_service sv' (mkService (filters_ svc) (<[path := h]> (exact_paths_ svc)) (prefix_paths_ svc) (regex_paths_ svc) (default_handler_ svc)).
Proof.
  intros (Hk & Hs & Hc) Hp. unfold AddHttpHandler, AddProtocol. rewrite bool_decide_true by done. cbn [obind].
  unfold GetBuiltinNativeService. rewrite Hs. cbn [obind]. unfold AddHandler. rewrite Hp. cbn [obind].
  eexists. by split.
Qed.

Lemma own_free p : builtin_path p → own_exact !! p = None.
Proof.
  intros Hp. unfold own_exact. rewrite !lookup_insert_ne, lookup_empty; [done|..];
    intros <-; revert Hp; apply (bool_decide_unpack (¬ _)); vm_compute; exact I.
Qed.

Lemma add_builtin_paths_effect h ps sv svc :
  h ∈ builtin.*1 → has_service sv svc → cache_service svc → NoDup ps → Forall builtin_path ps →
  Forall (λ p, exact_paths_ svc !! p = None) ps →
  ∃ sv' svc', add_builtin_paths registered h ps sv = Ret sv' ∧ has_service sv' svc' ∧ cache_service svc' ∧
    ∀ p, p ∉ ps → exact_paths_ svc' !! p = exact_paths_ svc !! p.
Proof.
  intros Hh. revert sv svc. induction ps as [|p ps IH]; intros sv svc Hs Hc Hnd Hb Hf; cbn [add_builtin_paths]; [eauto 6|].
  apply NoDup_cons in Hnd as [Hp Hnd]. apply Forall_cons in Hb as [Hbp Hb]. apply Forall_cons in Hf as [Hfp Hf].
  destruct (AddHttpHandler_effect p h sv svc Hs Hfp) as (sv1 & -> & Hs1). cbn [obind].
  edestruct (IH _ _ Hs1) as (sv' & svc' & He & Hs' & Hc' & Hx); [|done..| |].
  - destruct Hc as [Hfi Ho He Hpr Hre Hd]. split; [done| | |done|done|done]; cbn.
    + intros p' Hp'. rewrite lookup_insert_ne; [by apply Ho|]. by intros <-.
    + intros p' h'. rewrite lookup_insert_Some. intros [[_ <-]|[_ ?]]; [by right|by apply He].
  - cbn. rewrite Forall_forall in *. intros p' Hp'. rewrite lookup_insert_ne; [by apply Hf|]. by intros <-.
  - exists sv', svc'. split_and!; [done..|]. intros p' [Hpp Hp']%not_elem_of_cons. rewrite Hx by done. cbn. by rewrite lookup_insert_ne.
Qed.

Lemma add_builtin_handlers_effect hs sv svc :
  hs ⊆ builtin → has_service sv svc → cache_service svc → NoDup (concat hs.*2) → Forall builtin_path (concat hs.*2) →
  Forall (λ p, exact_paths_ svc !! p = None) (concat hs.*2) →
  ∃ sv' svc', add_builtin_handlers registered hs sv = Ret sv' ∧ has_service sv' svc' ∧ cache_service svc'.
Proof.
  revert sv svc. induction hs as [|[h ps] hs IH]; intros sv svc Hsub Hs Hc Hnd Hb Hf; cbn [add_builtin_handlers]; [eauto|].
  csimpl in *. apply NoDup_app in Hnd as (Hnd1 & Hx & Hnd2). apply Forall_app in Hb as [Hb1 Hb2]. apply Forall_app in Hf as [Hf1 Hf2].
  destruct (add_builtin_paths_effect h ps sv svc) as (sv1 & svc1 & -> & Hs1 & Hc1 & He1); try done.
  { apply list_elem_of_fmap. exists (h, ps). split; [done|]. apply Hsub. by left. }
  cbn [obind]. apply (IH sv1 svc1); try done.
  - intros x Hxin. apply Hsub. by right.
  - rewrite Forall_forall in *. intros p Hp. rewrite He1; [by apply Hf2|]. intros Hp'. by apply (Hx p).
Qed.

Lemma add_builtin_prefixes_effect ps sv svc :
  ps ⊆ builtin_prefixes → has_service sv svc → cache_service svc → Forall builtin_path ps.*2 →
  ∃ sv' svc', add_builtin_prefixes registered ps sv = Ret sv' ∧ has_service sv' svc' ∧ cache_service svc'.
Proof.
  revert sv svc. induction ps as [|[h p] ps IH]; intros sv svc Hsub (Hk & Hs & Hl) Hc Hb; cbn [add_builtin_prefixes]; [exists sv, svc; by split_and!|].
  csimpl in Hb. apply Forall_cons in Hb as [Hp Hb]. unfold AddHttpPrefixHandler, AddProtocol. rewrite bool_decide_true by done.
  cbn [obind]. unfold GetBuiltinNativeService. rewrite Hs. cbn [obind]. eapply IH; [|by split_and!| |done].
  - intros x Hx. apply Hsub. by right.
  - destruct Hc as [? ? ? Hpr ? ?]. split; try done. cbn. apply Forall_app. split; [done|]. apply Forall_singleton. split; [done|].
    apply list_elem_of_fmap. exists (h, p). split; [done|]. apply Hsub. by left.
Qed.

(** The server before it starts, with the routes added so far. *)
Definition server_with (cb : bool) (E : gmap chars (HttpHandler W)) (rs : list (list item * HttpHandler W)) : Server W :=
  mkServer _ false Initialized cb false ["http"] ["http"] (Some (mkService [] E [] rs (Functor NotFound_page)))
    builtin builtin_prefixes.

Lemma path_step path h E rs :
  E !! path = None →
  AddHttpHandler registered path h (server_with false E rs) = Ret (server_with false (<[path := h]> E) rs).
Proof.
  intros HE. unfold AddHttpHandler, AddProtocol, AddHandler, GetBuiltinNativeService.
  rewrite bool_decide_true by (cbn; by left). cbn [obind server_with http_service_ exact_paths_]. by rewrite HE.
Qed.

Lemma route_step pattern l h E rs :
  compile pattern = Some (route_re (chars_of l)) →
  add_route pattern h (server_with false E rs) = Ret (server_with false E (rs ++ [(route_re (chars_of l), h)])).
Proof. intros Hc. unfold add_route, regex_of. by rewrite Hc. Qed.

Lemma Entry_server_routes :
  "http" ∈ registered →
  Entry_server sizeof_Node NDEBUG registered builtin builtin_prefixes =
  ('(started, sv) ←! Start registered true (server_with true own_exact own_regex); if started then Ret sv else Abort).
Proof.
  intros Hh. unfold Entry_server, AddProtocol at 1. cbn [Server_new known_protocols_].
  rewrite bool_decide_false, bool_decide_true by (done || apply not_elem_of_nil). cbn [obind].
  set (sv0 := set_protocols _ _ _).
  assert (E0 : AddHttpHandler registered (chars_of "/init") InitQueryHandler sv0 =
               Ret (server_with false (<[chars_of "/init" := InitQueryHandler]> ∅) [])) by reflexivity.
  rewrite E0. cbn [obind]. clear E0 sv0.
  rewrite (route_step _ "/query/") by reflexivity. cbn [obind]. rewrite path_step by reflexivity. cbn [obind].
  rewrite (route_step _ "/del/") by reflexivity. cbn [obind]. do 2 (rewrite path_step by reflexivity; cbn [obind]).
  rewrite (route_step _ "/zadd/") by reflexivity. cbn [obind]. rewrite (route_step _ "/zrange/") by reflexivity. cbn [obind].
  rewrite (route_step _ "/zrmv/") by reflexivity. reflexivity.
Qed.

(** The routes [Entry] adds never clash, and the server starts. *)
Lemma Entry_server_effect :
  linked → ∃ sv svc, Entry_server sizeof_Node NDEBUG registered builtin builtin_prefixes = Ret sv ∧
    http_service_ sv = Some svc ∧ cache_service svc.
Proof.
  intros [Hh Hd Hp Hx]. rewrite Entry_server_routes by done. unfold Start. cbn [state_ server_with].
  rewrite decide_True by done. cbn [no_builtin_pages set_state server_with]. unfold AddProtocol. rewrite bool_decide_true by (cbn; by left).
  cbn [obind builtin_http_handlers_ builtin_http_prefix_handlers_ set_state server_with].
  set (sv0 := set_state _ _). set (svc0 := mkService [] own_exact [] own_regex (Functor NotFound_page)).
  assert (Hs0 : has_service sv0 svc0) by (split_and!; [by left|done|done]).
  assert (Hc0 : cache_service svc0) by (split; try done; by left).
  destruct (add_builtin_handlers_effect builtin sv0 svc0) as (sv1 & svc1 & -> & Hs1 & Hc1); try done.
  { eapply Forall_impl; [exact Hp|]. apply own_free. }
  cbn [obind]. destruct (add_builtin_prefixes_effect builtin_prefixes sv1 svc1) as (sv2 & svc2 & -> & (_ & Hs2 & Hl) & Hc2); try done.
  cbn [obind]. rewrite Hl. cbn. by exists (set_listening true true sv2), svc2.
Qed.

(** *** Where a request goes *)

Lemma exact_route svc uri p h :
  cache_service svc → GetUriPath uri = p → ¬ builtin_path p → own_exact !! p = Some h → FindHandler svc uri = Ret (Some h).
Proof. intros Hc Hu Hb Hp. unfold FindHandler. rewrite Hu, (cs_own _ Hc), Hp by done. done. Qed.

Lemma regex_route svc uri l v h :
  cache_service svc → GetUriPath uri = l ++ v → v ≠ [] → Forall (λ c, ¬ is_newline c) v →
  (∀ v, ¬ builtin_path (l ++ v)) → (∀ v, v ≠ [] → own_exact !! (l ++ v) = None) →
  find_regex (l ++ v) own_regex = Some h →
  FindHandler svc uri = Ret (Some h).
Proof.
  intros Hc Hu Hne Hv Hb He Hr. unfold FindHandler. rewrite Hu, (cs_own _ Hc), He by done.
  destruct (find_prefix_spec (l ++ v) (prefix_paths_ svc)) as ([h'|] & -> & Ho); cbn [obind].
  - destruct Ho as (l1 & p & l2 & Hl & (t & Ht & _) & _). exfalso. apply (Hb v). rewrite Ht.
    pose proof (cs_prefix _ Hc) as Hp. rewrite Hl, Forall_app, Forall_cons in Hp. destruct Hp as (_ & [Hp _] & _).
    destruct Hp; [left|right]; by apply prefix_app_r.
  - by rewrite (cs_regex _ Hc), Hr.
Qed.
End routing.

Lemma GetUriPath_app l v : "?"%char ∉ l → GetUriPath (l ++ v) = l ++ GetUriPath v.
Proof.
  unfold GetUriPath. change (chars_of "?") with ["?"%char]. induction l as [|c l IH]; intros Hl; [done|].
  apply not_elem_of_cons in Hl as [Hc Hl]. specialize (IH Hl). cbn [app FlareString.find].
  rewrite bool_decide_false by (simpl; congruence).
  destruct (FlareString.find ["?"%char] (l ++ v)); cbn [mbind option_bind]; [cbn [take]; by f_equal|by f_equal].
Qed.

Lemma GetUriPath_line v : Forall (λ c, ¬ is_newline c) v → Forall (λ c, ¬ is_newline c) (GetUriPath v).
Proof.
  destruct (GetUriPath_spec v) as (t & Hv & _). intros Hl. rewrite Hv in Hl. by apply Forall_app in Hl as [? _].
Qed.

(** ** Requests of the cache *)

Definition method_of (a : api) : HttpMethod :=
  match a with
  | Init_query | Query_key _ | Del_key _ | Zrmv _ _ => Get
  | _ => Post
  end.

(** The path before a question mark leads to the handler of [a]; a key in the
    path must not be empty there. *)
Definition addressed (q : HttpRequest) (a : api) : Prop :=
  let path := GetUriPath (HttpTypes.uri_ q) in
  match a with
  | Init_query => path = chars_of "/init"
  | Add_key _ => path = chars_of "/add"
  | List_keys _ => path = chars_of "/list"
  | Batch_add _ => path = chars_of "/batch"
  | Query_key k | Del_key k | Zadd k _ | Zrange k _ => GetUriPath (chars_of k) ≠ []
  | Zrmv k v => GetUriPath (chars_of (k +:+ "/" +:+ v)) ≠ []
  end.

Record targets `{Json} (q : HttpRequest) (a : api) : Prop := {
  tg_method : method_ q = method_of a;
  tg_path : addressed q a;
  tg_asks : asks q a;
  tg_wf : request_wf q;
  tg_version : version_ (req_msg q) = V_1_0 ∨ version_ (req_msg q) = V_1_1;
}.

Section serving.
Context {S D : Type} (sizeof_Node : Z) (NDEBUG : bool) `{StdHashSpec} `{NodeAllocator S} `{LevelDB D} `{Json} `{FiberOrder}.
#[local] Abbreviation W := (world S D).
Context (builtin : list (HttpHandler W * list chars)) (builtin_prefixes : list (HttpHandler W * chars)).
Context `{CompressorsSpec}.
Implicit Types (svc : Service W) (q : HttpRequest) (g : W) (c : cache).

Definition object_of (a : api) : HttpHandler W :=
  Methods (match method_of a with Get => with_OnGet (handler_of sizeof_Node NDEBUG a) | _ => with_OnPost (handler_of sizeof_Node NDEBUG a) end).

Lemma HandleRequest_object a q r g :
  method_ q = method_of a → HandleRequest (object_of a) q r g = handler_of sizeof_Node NDEBUG a q r g.
Proof. intros Hm. unfold object_of, HandleRequest. rewrite Hm. by destruct a. Qed.

#[local] Abbreviation cache_svc := (cache_service sizeof_Node NDEBUG builtin builtin_prefixes).

(** The routes with a key: no other route and no builtin page is in the way. *)
Lemma keyed_route svc uri l k (h : HttpHandler W) :
  cache_svc svc → uri = chars_of (l +:+ k) → no_newline k → GetUriPath (chars_of k) ≠ [] →
  (l, h) ∈ [("/query/", QueryKeyHandler); ("/del/", DelKeyHandler); ("/zadd/", ZaddHandler sizeof_Node NDEBUG);
            ("/zrange/", ZrangeHandler NDEBUG); ("/zrmv/", ZrmvHandler)] →
  FindHandler svc uri = Ret (Some h).
Proof.
  intros Hc -> Hn Hne Hin. assert (Hline := GetUriPath_line _ Hn).
  assert (Hq : "?"%char ∉ chars_of l ∧ (∀ v, ¬ builtin_path (chars_of l ++ v)) ∧
    (∀ v, v ≠ [] → own_exact (S:=S) (D:=D) !! (chars_of l ++ v) = None) ∧
    find_regex (chars_of l ++ GetUriPath (chars_of k)) (own_regex sizeof_Node NDEBUG) = Some h).
  { unfold own_exact, own_regex. repeat (apply elem_of_cons in Hin as [[= -> ->]|Hin]); [..|by apply elem_of_nil in Hin];
      (split_and!; [apply (bool_decide_unpack _); vm_compute; exact I|by intros v [[x Hx]|[x Hx]]|
        intros v _; rewrite !lookup_insert_ne by (cbn; discriminate); apply lookup_empty|
        cbn [find_regex]; repeat (rewrite route_miss by (intros [x Hx]; discriminate Hx)); by rewrite route_match]). }
  destruct Hq as (Hq & Hb & He & Hr). eapply regex_route; [done| |exact Hne|exact Hline|exact Hb|exact He|exact Hr].
  rewrite chars_of_app. by apply GetUriPath_app.
Qed.

Lemma FindHandler_target svc q a :
  cache_svc svc → targets q a → FindHandler svc (HttpTypes.uri_ q) = Ret (Some (object_of a)).
Proof.
  intros Hc [_ Hp Ha _ _].
  assert (Hex : ∀ p h, GetUriPath (HttpTypes.uri_ q) = chars_of p → own_exact !! chars_of p = Some h → ¬ builtin_path (chars_of p) →
    FindHandler svc (HttpTypes.uri_ q) = Ret (Some h)) by (intros p h Hu He Hb; by eapply exact_route).
  destruct a; unfold addressed in Hp; cbn [asks] in Ha;
    [eapply Hex; [exact Hp|reflexivity|apply (bool_decide_unpack _); vm_compute; exact I]
    |eapply (keyed_route svc _ "/query/"); [exact Hc|apply Ha|apply Ha|exact Hp|set_solver]
    |eapply Hex; [exact Hp|reflexivity|apply (bool_decide_unpack _); vm_compute; exact I]
    |eapply (keyed_route svc _ "/del/"); [exact Hc|apply Ha|apply Ha|exact Hp|set_solver]
    |eapply Hex; [exact Hp|reflexivity|apply (bool_decide_unpack _); vm_compute; exact I]
    |eapply Hex; [exact Hp|reflexivity|apply (bool_decide_unpack _); vm_compute; exact I]
    |eapply (keyed_route svc _ "/zadd/"); [exact Hc|apply Ha|apply Ha|exact Hp|set_solver]
    |eapply (keyed_route svc _ "/zrange/"); [exact Hc|apply Ha|apply Ha|exact Hp|set_solver]
    |eapply (keyed_route svc _ "/zrmv/"); [exact Hc|apply Ha| |exact Hp|set_solver]].
  destruct Ha as (_ & Hk & Hv & _). unfold no_newline in *. rewrite !chars_of_app. apply Forall_app. split; [exact Hk|].
  apply Forall_app. split; [|exact Hv]. apply (bool_decide_unpack _). vm_compute. exact I.
Qed.

(** The response that is sent for a reply. *)
Definition served q (p : reply) (o : option HttpResponse) : Prop :=
  ∃ r r', o = Some r' ∧ status_ r = p.1 ∧ body_text (resp_msg r) = p.2 ∧ completed q r r'.

Lemma serve_effect svc q a g R c :
  sizeof_ok sizeof_Node → api_add_ok NDEBUG a c → cache_svc svc → targets q a → world_rep g R c →
  safe (FastCall svc q g) (λ '(_, o, g'), served q (spec_api a c).1 o ∧ (∃ R', world_rep g' R' (spec_api a c).2) ∧
    localdb_manager g' = localdb_manager g ∧ disk g' = disk g).
Proof.
  intros Hsz Hok Hc Ht Hw. pose proof Ht as [Hm _ Ha Hq Hv]. unfold FastCall. destruct (fresh_new q) as (r0 & -> & Hfresh). cbn [obind].
  unfold RunFilters. rewrite (cs_filters _ _ _ _ _ Hc). cbn [run_filters obind].
  unfold RunHandler. rewrite (FindHandler_target svc q a Hc Ht). cbn [obind]. rewrite HandleRequest_object by exact Hm.
  set (r1 := mkResponse _ _) in *. pose proof (handler_effect sizeof_Node NDEBUG q r1 g R c Hw Hfresh a Hsz Hok Ha) as Hs.
  destruct (handler_of sizeof_Node NDEBUG a q r1 g) as [[r3 g3]| | | |] eqn:E; [|exact Hs|exact Hs|exact I|exact Hs].
  pose proof (handler_frame sizeof_Node NDEBUG a q r1 g _ E) as Hfr. destruct Hs as (Han & Hst & Hb & HR). cbn [obind fst snd] in *. clear E.
  destruct (FillMissingHeaders_effect q r3 Hq) as (r4 & -> & Hcp); [apply Han..|]. cbn [obind].
  unfold kConnection at 1. rewrite (try_get_resp _ 0) by (apply Hcp || known). fold kConnection.
  pose proof (cp_connection _ _ _ Hcp) as Hcc. rewrite Hcc. cbn [obind].
  destruct (field_value_ok _ _ _ (rw_fields _ _ (cp_wf _ _ _ Hcp)) Hcc) as (Hasc & _).
  rewrite IEquals_spec by (exact Hasc || by apply ascii_of). cbn [obind safe].
  split; [|exact (conj HR Hfr)]. exists r3, r4. exact (conj eq_refl (conj Hst (conj Hb Hcp))).
Qed.

(** *** Any request *)

(** What every request leaves intact. *)
Definition steady (lm : LocaldbManager) g : Prop := world_ok g ∧ localdb_manager g = lm.

#[local] Abbreviation steadily lm := (handler_promise (λ _, True) (steady lm)).

Lemma steady_method lm a :
  method_promise (λ _, True) (world_ok (S:=S) (D:=D)) (handler_of sizeof_Node NDEBUG a) → method_promise (λ _, True) (steady lm) (handler_of sizeof_Node NDEBUG a).
Proof.
  intros Hp q r g Hq Hr [Hw Hlm]. specialize (Hp q r g Hq Hr Hw).
  destruct (handler_of sizeof_Node NDEBUG a q r g) as [[r' g']| | | |] eqn:E; [|exact Hp|exact Hp|exact I|exact Hp].
  destruct Hp as [Ha Hw']. apply handler_frame in E as [E _]. split; [exact Ha|]. split; [exact Hw'|]. by rewrite <-Hlm.
Qed.

Lemma steady_get lm a :
  method_promise (λ _, True) (world_ok (S:=S) (D:=D)) (handler_of sizeof_Node NDEBUG a) → steadily lm (Methods (with_OnGet (handler_of sizeof_Node NDEBUG a))).
Proof. intros Hp. by apply with_OnGet_promise, steady_method. Qed.

Lemma steady_post lm a :
  method_promise (λ _, True) (world_ok (S:=S) (D:=D)) (handler_of sizeof_Node NDEBUG a) → steadily lm (Methods (with_OnPost (handler_of sizeof_Node NDEBUG a))).
Proof. intros Hp. by apply with_OnPost_promise, steady_method. Qed.

Lemma object_promise svc lm :
  sizeof_ok sizeof_Node → NDEBUG = true → cache_svc svc →
  Forall (steadily lm) builtin.*1 → Forall (steadily lm) builtin_prefixes.*1 →
  service_promise (λ _, True) (steady lm) svc.
Proof.
  intros Hsz Hnd [Hf _ He Hp Hr Hd] Hb Hbp. rewrite Forall_forall in Hb, Hbp. split.
  - rewrite Hf. apply Forall_nil. exact I.
  - intros p h Hh. destruct (He p h Hh) as [Ho|Hi]; [|exact (Hb h Hi)]. unfold own_exact in Ho.
    repeat (apply lookup_insert_Some in Ho as [[_ <-]|[_ Ho]]); [| | | |by rewrite lookup_empty in Ho].
    + exact (steady_post lm (Batch_add []) (Batch_promise sizeof_Node NDEBUG)).
    + exact (steady_post lm (List_keys []) (List_promise sizeof_Node NDEBUG)).
    + exact (steady_post lm (Add_key (mkInsertRequest EmptyString EmptyString)) (Add_promise sizeof_Node NDEBUG)).
    + exact (steady_get lm Init_query (Init_promise sizeof_Node NDEBUG)).
  - eapply Forall_impl; [exact Hp|]. intros e [_ He']. exact (Hbp _ He').
  - rewrite Hr. unfold own_regex.
    apply Forall_cons; split; [exact (steady_get lm (Query_key EmptyString) Query_promise)|].
    apply Forall_cons; split; [exact (steady_get lm (Del_key EmptyString) Del_promise)|].
    apply Forall_cons; split; [exact (steady_post lm (Zadd EmptyString (mkZaddRequest 0 EmptyString)) (Zadd_promise sizeof_Node NDEBUG Hsz Hnd))|].
    apply Forall_cons; split; [exact (steady_post lm (Zrange EmptyString (mkZrangeRequest 0 0)) (Zrange_promise NDEBUG))|].
    apply Forall_cons; split; [exact (steady_get lm (Zrmv EmptyString EmptyString) Zrmv_promise)|]. apply Forall_nil. exact I.
  - rewrite Hd. exact (NotFound_promise _ _).
Qed.
End serving.

(** ** Runs of the program *)

(** A database whose operations succeed. *)
Class Reliable (D : Type) `{LevelDB D} : Prop := {
  rl_open p d : is_Some (ldb_open p d);
  rl_put k v d : (ldb_put k v d).1 = true;
  rl_write kvs d : (ldb_write kvs d).1 = true;
}.

#[export] Instance map_reliable : Reliable (gmap string string).
Proof. split; simpl; eauto. Qed.

(** An event of the program does what an operation of the model does. *)
Definition event_of `{Json} (e : sys_event) (o : op) : Prop :=
  match e, o with
  | Ev_request q, Op_request a => targets q a
  | Ev_persist i, Op_persist j => i = j
  | Ev_init, Op_init => True
  | _, _ => False
  end.

(** The responses to the requests of a run, in order. *)
Fixpoint all_served `{Compressors} (es : list sys_event) (ps : list reply) (rs : list (option HttpResponse)) : Prop :=
  match es with
  | [] => ps = [] ∧ rs = []
  | Ev_request q :: es' =>
      match ps, rs with
      | p :: ps', r :: rs' => served q p r ∧ all_served es' ps' rs'
      | _, _ => False
      end
  | _ :: es' => all_served es' ps rs
  end.

(** *** Memory and disk

    The conditions under which memory is the disk with the pending writes
    applied: nothing is deleted, no batch names a key twice, and the fibers run
    in the order in which they were started. *)

Definition durable_op (o : op) : Prop :=
  match o with
  | Op_request (Del_key _) => False
  | Op_request (Batch_add rs) => NoDup (ins_key <$> rs)
  | Op_request _ => True
  | Op_persist i => i = 0%nat
  | Op_init => False
  end.

Definition settled (m : model) : gmap string string := foldl (λ M t, apply_task t M) (m_disk m) (pending_tasks (m_cache m)).

Section durability.
Context `{Json} `{FiberOrder}.

Lemma batch_order M rs :
  NoDup (ins_key <$> rs) → batch_insert M (entry <$> fiber_order rs) = batch_insert M (entry <$> rs).
Proof.
  intros Hnd. pose proof (fiber_order_perm rs) as Hp.
  assert (Hfst : ∀ l : list InsertRequest, (entry <$> l).*1 = ins_key <$> l) by (intros l; rewrite <-list_fmap_compose; done).
  assert (Hnd1 : NoDup (entry <$> rs).*1) by (by rewrite Hfst). assert (Hnd2 : NoDup (entry <$> fiber_order rs).*1) by (by rewrite Hfst, Hp).
  rewrite !batch_insert_union by done. f_equal. apply list_to_map_proper; [done|]. by rewrite Hp.
Qed.

Lemma durable_step NDEBUG o m :
  durable_op o → op_enabled NDEBUG o m → values (m_cache m) = settled m →
  values (m_cache (spec_op o m).2) = settled (spec_op o m).2.
Proof.
  unfold settled. intros Hd Hen Hv. destruct o as [a|i|]; [|cbn in Hd; subst i|done].
  - destruct a as [| |x| |ks|rs| | |]; cbn in Hd |- *; try done; try (by destruct ks).
    + destruct (_ || _); [done|]. cbn. rewrite foldl_app. cbn. by rewrite <-Hv.
    + rewrite foldl_app. cbn. by rewrite <-Hv, batch_order.
  - cbn in *. destruct Hen as [_ [t Ht]]. destruct (pending_tasks (m_cache m)) as [|t' ts]; [done|]. by injection Ht as ->.
Qed.

Lemma durable_run NDEBUG os m :
  Forall durable_op os → ops_enabled NDEBUG os m → values (m_cache m) = settled m →
  values (m_cache (spec_ops os m).2) = settled (spec_ops os m).2.
Proof.
  intros Hd. revert m. induction Hd as [|o os Ho _ IH]; intros m Hen Hv; [done|]. destruct Hen as [He Hen].
  specialize (IH _ Hen (durable_step NDEBUG o m Ho He Hv)). cbn [spec_ops]. destruct (spec_op o m) as [r1 m1]. cbn [snd] in *.
  by destruct (spec_ops os m1).
Qed.
End durability.

Section running.
Context {S D : Type} (sizeof_Node : Z) (NDEBUG : bool) `{StdHashSpec} `{NodeAllocator S} `{LevelDBSpec D} `{!Reliable D} `{Json} `{FiberOrder}.
#[local] Abbreviation W := (world S D).
Context (registered : list string) (builtin : list (HttpHandler W * list chars)) (builtin_prefixes : list (HttpHandler W * chars)).
Context `{CompressorsSpec}.
Context (Hsz : sizeof_ok sizeof_Node) (Hlinked : linked registered builtin builtin_prefixes).
Implicit Types (sys : system S D) (m : model).

Record sys_rep sys m : Prop := {
  sr_service : ∃ svc, http_service_ (sys_server sys) = Some svc ∧ cache_service sizeof_Node NDEBUG builtin builtin_prefixes svc;
  sr_world : ∃ R, world_rep (sys_world sys) R (m_cache m);
  sr_disk : ldb_contents (disk (sys_world sys)) = m_disk m;
  sr_init : init_pending sys = m_init m;
  sr_open : ready (m_cache m) = true → db (localdb_manager (sys_world sys)) = DbOpen;
  sr_unset : m_init m = true → db (localdb_manager (sys_world sys)) ≠ DbOpen;
}.

#[local] Abbreviation boot := (Entry sizeof_Node NDEBUG registered builtin builtin_prefixes).

Lemma Entry_effect s d : alloc_inv s [] → ∃ sys, boot s d = Ret sys ∧ sys_rep sys (model_new (ldb_contents d)).
Proof.
  intros Hs. unfold Entry. destruct (Kv_Init_effect KvManager_new) as (kv & -> & Hkv). cbn [obind].
  destruct (ZM_Init_effect ZsetManager_new []) as (zm & -> & Hz). cbn [obind].
  destruct (Entry_server_effect sizeof_Node NDEBUG registered builtin builtin_prefixes Hlinked) as (sv & svc & -> & Hsv & Hc). cbn [obind].
  eexists. split; [reflexivity|]. split; cbn; [by exists svc| |done..]. exists []. by split.
Qed.

(** An entry that is persisted before the database is open: the fiber uses a
    pointer that is not set, or null when the database could not be opened. *)
Lemma run_persist_unset i (g : W) :
  (i < length (tasks g))%nat → db (localdb_manager g) ≠ DbOpen → run_persist i g = Undef.
Proof.
  intros [t Ht]%lookup_lt_is_Some Hd. unfold run_persist. rewrite Ht. cbn [deref obind]. unfold run_task, Localdb_Add, Localdb_Batch.
  by destruct t, (db (localdb_manager g)).
Qed.

Lemma run_task_effect t (g : W) :
  db (localdb_manager g) = DbOpen →
  ∃ d, run_task t g = Ret (mkWorld _ _ (kv_manager g) (zset_manager g) (arena g) (localdb_manager g) d (tasks g)) ∧
    ldb_contents d = apply_task t (ldb_contents (disk g)).
Proof.
  intros Ho. unfold run_task, Localdb_Add, Localdb_Batch. rewrite Ho. destruct t as [k v|rs]; cbn [obind]; eexists; (split; [reflexivity|]).
  - pose proof (rl_put k v (disk g)). destruct (ldb_put k v (disk g)) as [b d'] eqn:E. simpl in *. subst b. by apply ldb_put_spec.
  - set (kvs := _ <$> rs). pose proof (rl_write kvs (disk g)). destruct (ldb_write kvs (disk g)) as [b d'] eqn:E. simpl in *. subst b.
    by apply ldb_write_spec.
Qed.

Lemma sys_step_effect e o sys m :
  sys_rep sys m → event_of e o → op_enabled NDEBUG o m →
  safe (sys_step e sys) (λ '(rs, sys'), sys_rep sys' (spec_op o m).2 ∧ all_served [e] (spec_op o m).1 rs).
Proof.
  intros [(svc & Hsv & Hc) (R & Hw) Hd Hi Ho Hun] He Hen. destruct e as [q|i|], o as [a|j|]; try done; cbn in He, Hen; cbn [sys_step].
  - unfold run_request. rewrite Hsv. cbn [deref obind]. apply safe_bind, safe_bind.
    eapply safe_mono; [exact (serve_effect sizeof_Node NDEBUG builtin builtin_prefixes svc q a _ R _ Hsz Hen Hc He Hw)|].
    intros [[st r] g'] (Hr & HR & Hl & Hdk). cbn [obind safe spec_op]. destruct (spec_api a (m_cache m)) as [p c'] eqn:Ea. cbn [fst snd] in *.
    split; [|exact (conj Hr (conj eq_refl eq_refl))]. split; cbn; [by exists svc|exact HR|by rewrite Hdk|exact Hi| |by rewrite Hl].
    intros Hrdy. rewrite Hl. apply Ho. destruct HR as [R' HR]. rewrite <-(wr_ready _ _ _ Hw), <-Hrdy, <-(wr_ready _ _ _ HR). by rewrite Hl.
  - subst j. destruct Hen as [Hrdy [t Ht]]. unfold run_persist. rewrite (wr_tasks _ _ _ Hw), Ht. cbn [deref obind].
    destruct (run_task_effect t (sys_world sys) (Ho Hrdy)) as (d & -> & Hdk). cbn [obind safe spec_op]. rewrite Ht. cbn.
    split; [|done]. split; cbn; [by exists svc| |by rewrite Hdk, Hd|exact Hi|exact Ho|exact Hun].
    exists R. destruct Hw. split; cbn; congruence.
  - unfold run_init. pose proof (Localdb_Init_effect (localdb_manager (sys_world sys)) "/mydata" (disk (sys_world sys)) _ _ (wr_kv _ _ _ Hw)) as Hl.
    destruct (rl_open "/mydata" (disk (sys_world sys))) as [d' Hop]. rewrite Hop in Hl. destruct Hl as (kv' & -> & Hkv). cbn [obind safe spec_op].
    split; [|done]. split; cbn; [by exists svc| |by rewrite (ldb_open_spec _ _ _ Hop)|done..].
    exists R. destruct Hw. split; cbn; [by rewrite <-Hd|done..].
Qed.

Lemma all_served_cons e es p1 p2 r1 r2 :
  all_served [e] p1 r1 → all_served es p2 r2 → all_served (e :: es) (p1 ++ p2) (r1 ++ r2).
Proof.
  destruct e; cbn [all_served]; [|by intros [-> ->]..]. destruct p1 as [|p p1], r1 as [|r r1]; try done. by intros (? & -> & ->).
Qed.

Lemma sys_run_effect es os sys m :
  sys_rep sys m → Forall2 event_of es os → ops_enabled NDEBUG os m →
  safe (sys_run es sys) (λ '(rs, sys'), sys_rep sys' (spec_ops os m).2 ∧ all_served es (spec_ops os m).1 rs).
Proof.
  intros Hrep Heo. revert sys m Hrep. induction Heo as [|e o es os He _ IH]; intros sys m Hrep Hen; cbn [sys_run spec_ops]; [done|].
  destruct Hen as [Hen1 Hen]. apply safe_bind. eapply safe_mono; [by apply sys_step_effect|]. intros [r1 sys1] [Hrep1 Hs1].
  apply safe_bind. eapply safe_mono; [by apply IH|]. intros [r2 sys2] [Hrep2 Hs2]. cbn [safe].
  destruct (spec_op o m) as [p1 m1]. cbn [fst snd] in *. destruct (spec_ops os m1) as [p2 m2]. split; [exact Hrep2|]. by apply all_served_cons.
Qed.

(** The program is in the state [am]. *)
Definition sys_holds sys (am : api_model) : Prop := ∃ m, sys_rep sys m ∧ model_of m = am.

Lemma holds_unset sys am i :
  sys_holds sys am → am_init am = true → (i < length (api_tasks (am_state am)))%nat → sys_step (Ev_persist i) sys = Undef.
Proof.
  intros (m & Hm & <-) Hi Hlt. destruct (sr_world _ _ Hm) as [R Hw]. cbn in *. rewrite <-(wr_tasks _ _ _ Hw) in Hlt.
  by rewrite (run_persist_unset i _ Hlt (sr_unset _ _ Hm Hi)).
Qed.


Lemma init_settled M :
  values (m_cache (spec_op Op_init (model_new M)).2) = settled (spec_op Op_init (model_new M)).2.
Proof. unfold settled. cbn. by rewrite (right_id_L ∅ (∪)). Qed.


(** *** Any run *)

(** The fibers that run when they can; a request can be any that the parser of the
    protocol accepts. *)
Definition event_ok (e : sys_event) sys : Prop :=
  match e with
  | Ev_request q => request_wf q ∧ (version_ (req_msg q) = V_1_0 ∨ version_ (req_msg q) = V_1_1)
  | Ev_persist i => db (localdb_manager (sys_world sys)) = DbOpen ∧ (i < length (tasks (sys_world sys)))%nat
  | Ev_init => init_pending sys = true
  end.

Inductive sys_reachable : system S D → Prop :=
| Reach_boot s d sys : alloc_inv s [] → boot s d = Ret sys → sys_reachable sys
| Reach_step e sys rs sys' : sys_reachable sys → event_ok e sys → sys_step e sys = Ret (rs, sys') → sys_reachable sys'.

Record sys_ok sys : Prop := {
  so_service : ∃ svc, http_service_ (sys_server sys) = Some svc ∧ cache_service sizeof_Node NDEBUG builtin builtin_prefixes svc;
  so_world : world_ok (sys_world sys);
}.

Context (Hndebug : NDEBUG = true).
Context (Hbuiltin : ∀ lm, Forall (handler_promise (λ _, True) (steady lm)) builtin.*1 ∧
  Forall (handler_promise (λ _, True) (steady lm)) builtin_prefixes.*1).

(** One response for a request, which its sender can read. *)
Definition responded (e : sys_event) (rs : list (option HttpResponse)) : Prop :=
  match e with
  | Ev_request q => ∃ r, rs = [Some r] ∧ sendable q r
  | _ => rs = []
  end.

Lemma run_task_runs t (g : W) :
  db (localdb_manager g) = DbOpen →
  ∃ d, run_task t g = Ret (mkWorld _ _ (kv_manager g) (zset_manager g) (arena g) (localdb_manager g) d (tasks g)).
Proof. intros Ho. unfold run_task, Localdb_Add, Localdb_Batch. rewrite Ho. destruct t; cbn [obind]; by eexists. Qed.

Lemma run_request_ok q sys :
  sys_ok sys → request_good (λ _, True) q →
  safe (run_request q sys) (λ '(o, sys'), sys_ok sys' ∧ ∃ r, o = Some r ∧ sendable q r).
Proof.
  intros [(svc & Hsv & Hc) Hw] Hq. unfold run_request. rewrite Hsv. cbn [deref obind].
  pose proof (object_promise sizeof_Node NDEBUG builtin builtin_prefixes svc (localdb_manager (sys_world sys)) Hsz Hndebug Hc) as Hp.
  destruct (Hbuiltin (localdb_manager (sys_world sys))) as [Hb1 Hb2]. specialize (Hp Hb1 Hb2).
  pose proof (FastCall_unfiltered _ _ svc q (sys_world sys) Hp (cs_filters _ _ _ _ _ Hc) Hq (conj Hw eq_refl)) as Hf.
  apply safe_bind. eapply safe_mono; [exact Hf|]. intros [[st o] g'] ([Hw' Hlm] & Hr). cbn [safe].
  split; [|exact Hr]. split; [exact (ex_intro _ svc (conj Hsv Hc))|exact Hw'].
Qed.

Lemma sys_step_ok e sys :
  sys_ok sys → event_ok e sys → safe (sys_step e sys) (λ '(rs, sys'), sys_ok sys' ∧ responded e rs).
Proof.
  intros Hok He. destruct e as [q|i|]; cbn [sys_step event_ok] in *.
  - apply safe_bind. destruct He as [Hq Hv]. eapply safe_mono; [apply (run_request_ok q sys Hok); exact (conj Hq (conj Hv I))|].
    intros [o sys'] (Hok' & r & -> & Hr). cbn [safe]. split; [exact Hok'|]. by exists r.
  - destruct He as [Ho Hlt], Hok as [Hs (R & c & Hw)]. apply lookup_lt_is_Some in Hlt as [t Ht]. unfold run_persist. rewrite Ht. cbn [deref obind].
    destruct (run_task_runs t (sys_world sys) Ho) as (d & ->). cbn [obind safe]. split; [|done]. split; cbn; [exact Hs|].
    exists R, (mkCache (values c) (zsets c) (ready c) (delete i (pending_tasks c))). destruct Hw. split; cbn; congruence.
  - destruct Hok as [Hs (R & c & Hw)]. unfold run_init.
    pose proof (Localdb_Init_effect (localdb_manager (sys_world sys)) "/mydata" (disk (sys_world sys)) _ _ (wr_kv _ _ _ Hw)) as Hl.
    destruct (ldb_open "/mydata" (disk (sys_world sys))) as [d'|].
    + destruct Hl as (kv' & -> & Hkv). cbn [obind safe]. split; [|done]. split; cbn; [exact Hs|].
      eexists R, (mkCache _ (zsets c) true (pending_tasks c)). destruct Hw. split; cbn; done.
    + rewrite Hl. cbn [obind safe]. split; [|done]. split; cbn; [exact Hs|]. exists R, c. destruct Hw. split; cbn; done.
Qed.

Lemma reachable_ok sys : sys_reachable sys → sys_ok sys.
Proof.
  induction 1 as [s d sys Hs Hb|e sys rs sys' _ IH He Hst].
  - destruct (Entry_effect s d Hs) as (sys1 & Hb1 & [Hsv [R Hw] _ _ _ _]). assert (sys = sys1) as -> by congruence.
    split; [exact Hsv|by exists R, (m_cache (model_new (ldb_contents d)))].
  - pose proof (sys_step_ok e sys IH He) as Hs. rewrite Hst in Hs. apply Hs.
Qed.

End running.

(** ** A concrete program *)

#[local] Existing Instance length_hash.
#[local] Existing Instance length_hash_spec.
#[local] Existing Instance toy_json.
#[local] Existing Instance last_first.
#[local] Existing Instance toy_compressors.
#[local] Existing Instance toy_compressors_spec.

Lemma demo_linked : linked (S:=BumpHeap * Arena) (D:=gmap string string) ["http"] [] [].
Proof. split; [by left|apply NoDup_nil_2|by apply Forall_nil|by apply Forall_nil]. Qed.

Lemma demo_request_wf m uri text : request_wf (demo_request m uri text).
Proof.
  destruct (sample_headers_inv []) as [Hh Hf]; [by constructor|by constructor|by vm_compute|].
  split; [exact Hh|]. change (Forall field_ok (fields_ (sample_headers []))). rewrite Hf. by constructor.
Qed.

Lemma demo_targets uri text a :
  addressed (demo_request (method_of a) uri text) a → asks (demo_request (method_of a) uri text) a →
  targets (demo_request (method_of a) uri text) a.
Proof. intros Hp Ha. split; [reflexivity|exact Hp|exact Ha|apply demo_request_wf|by right]. Qed.

Definition demo_events : list sys_event :=
  [Ev_request (demo_request Post "/add" "7"); Ev_request (demo_request Get "/query/a" EmptyString); Ev_persist 0].

Definition demo_ops : list op :=
  [Op_request (Add_key (mkInsertRequest "a" "7")); Op_request (Query_key "a"); Op_persist 0].

Lemma demo_matched : Forall2 event_of demo_events demo_ops.
Proof.
  constructor; [|constructor; [|by repeat constructor]].
  - by apply (demo_targets "/add" "7" (Add_key (mkInsertRequest "a" "7"))).
  - apply (demo_targets "/query/a" EmptyString (Query_key "a")); [by vm_compute|]. split; [reflexivity|].
    apply (bool_decide_unpack _). vm_compute. exact I.
Qed.

Lemma demo_enabled M : ops_enabled false (Op_init :: demo_ops) (model_new M).
Proof. cbn. by split_and!; [..|eexists]. Qed.

Lemma demo_fibers M : fibers_enabled (Op_init :: demo_ops) (api_model_new M).
Proof. cbn. by split_and!; [..|eexists]. Qed.

Lemma sizeof_48 : sizeof_ok 48.
Proof. split; lia. Qed.




(** *** What a restart does not keep *)

(** The values after a run and a restart on the disk it left. *)
Definition restarted (os : list op) (M : gmap string string) : gmap string string * gmap string string :=
  let m := (spec_ops (Op_init :: os) (model_new M)).2 in
  (values (m_cache m), values (m_cache (spec_op Op_init (model_new (m_disk m))).2)).

Definition add_op (k v : string) : op := Op_request (Add_key (mkInsertRequest k v)).

(** A deletion is not written to the database: the entry is back after a
    restart. *)
Example del_is_undone :
  restarted [add_op "a" "1"; Op_persist 0; Op_request (Del_key "a")] ∅ = (∅, {["a" := "1"]}).
Proof. vm_compute. reflexivity. Qed.

(** Two fibers that persist values of one key can run in the other order. *)
Example reordered_writes :
  restarted [add_op "a" "1"; add_op "a" "2"; Op_persist 1; Op_persist 0] ∅ = ({["a" := "2"]}, {["a" := "1"]}).
Proof. vm_compute. reflexivity. Qed.

(** A batch that names a key twice: the order of the fibers decides in memory,
    the order of the batch on disk. *)
Example batch_duplicates :
  restarted [Op_request (Batch_add [mkInsertRequest "a" "1"; mkInsertRequest "a" "2"]); Op_persist 0] ∅ =
  ({["a" := "1"]}, {["a" := "2"]}).
Proof. vm_compute. reflexivity. Qed.
